(* ===== verification/_CoqProject ===== *)
-Q . S2P
Prelude.v
CircularBuffer.v
Channel.v
ChannelInvariant.v
ChannelSpecs.v
ChannelApi.v
ChannelTheorems.v
ThreadChannel.v
ThreadChannelProofs.v
ThreadChannelTheorems.v
Context.v
Pool.v
PoolProofs.v
PoolSafety.v
PoolTheorems.v
TaskGroup.v
TaskGroupProofs.v
TaskGroupTheorems.v
Scope.v
ScopeProofs.v
ScopeCalm.v
ScopeSweep.v
ScopeDisposal.v
ScopeTheorems.v
Iterator.v
IteratorProofs.v
IteratorTheorems.v
Future.v
FutureProofs.v
FutureWalk.v
FutureSteps.v
FutureTheorems.v
SharedFuture.v
SharedFutureProofs.v
SharedFutureSteps.v
SharedFutureTheorems.v
ThreadPool.v
ThreadPoolProofs.v
ThreadPoolSteps.v
ThreadPoolCalls.v
ThreadPoolReload.v
ThreadPoolInvariant.v
ThreadPoolServing.v
ThreadPoolTheorems.v
