(* ===== verification/Prelude.v ===== *)
(** * Verification of the TrueAsync extension of PHP

    The extension under [src/] gives PHP coroutines and the objects they meet at:
    channels, pools, task groups, contexts, scopes, futures, concurrent
    iterations and pools of threads.  Its C code runs one
    coroutine at a time; a coroutine gives up control only at
    [ZEND_ASYNC_SUSPEND] or where PHP code is called back.  This library is a
    shallow embedding of that code: each C function is a Rocq function on an
    explicit state, cut where control can go to another coroutine, and a system
    of coroutines is a step relation over the pieces.

    ** The parts of the program and where they are modelled

    - [Prelude]: machine integers with their wrap-around, the monad [M] of
      stateful code, in which [None] is undefined behaviour (a failed
      [ZEND_ASSERT], a NULL dereference, an access out of bounds), its program
      logic [wp] (total correctness), record update, lemmas on lists.
    - [CircularBuffer] ([src/internal/circular_buffer.c], [.h],
      [zval_circular_buffer.h]): the ring of channels and pools, with [size_t]
      arithmetic modulo 2^64 and the allocator's answers as a parameter.  The
      class [FifoBuffer] states what its clients rely on; the ring and plain
      lists are instances.
    - [Channel], [ChannelInvariant], [ChannelSpecs], [ChannelApi],
      [ChannelTheorems] ([src/channel.c], [.h]): send, recv, their asynchronous
      forms, iteration, close, deadlock timers and the registry of the deadlock
      resolver.  A coroutine in send or recv is cut at its suspension
      ([wait_for_park], [wait_for_resume]); [chan_exec] is one step of a channel
      with its suspended coroutines.
    - [ThreadChannel], [ThreadChannelProofs], [ThreadChannelTheorems]
      ([src/thread_channel.c], [.h]): the channel between threads.  Each section
      under the mutex is one atomic step; the sections of any number of callers
      interleave freely.
    - [Context] ([src/context.c], [.h]): key/value contexts and the lookup along
      the parent scopes.
    - [Pool], [PoolProofs], [PoolSafety], [PoolTheorems] ([src/pool.c], [.h]): the
      resource pool.  Every user hook (factory, destructor, checks, circuit-breaker
      strategy) may suspend, so each call is cut at each hook and the pieces of
      different calls interleave freely.  [PoolSafety] has what holds of all
      interleavings, [PoolProofs] what needs that nothing runs while
      reportSuccess or the factory of the healthcheck is suspended ([calm]).
    - [TaskGroup], [TaskGroupProofs], [TaskGroupTheorems] ([src/task_group.c],
      [.h]): task groups and task sets: spawning with concurrency limit and
      back-pressure, futures of all, race and any, iteration, close, cancel and
      destruction.
    - [Scope], [ScopeProofs], [ScopeCalm], [ScopeSweep], [ScopeDisposal], [ScopeTheorems]
      ([src/scope.c], [.h], with the cancellation, the start and the end of a
      coroutine of [src/coroutine.c] and [Async\protect] of [src/async.c]): the
      tree of scopes, its counters, cancellation, exceptions, disposal and
      waiting.  Scopes are entries of a finite map from addresses, and following
      a pointer to a freed one is undefined.  The engine's macros for completion
      and its vector of children are the class [ScopeMacros] with the laws
      [ScopeMacrosSpec].
    - [Iterator], [IteratorProofs], [IteratorTheorems] ([src/iterator.c], [.h], with
      the microtask queue of [src/scheduler.c] and the caller's side in
      [src/async.c]): concurrent iteration over arrays and iterator objects.  A
      worker is cut at each call that can suspend; [iter_run] is a run of the
      workers, the microtasks and the caller, which may end while workers are left
      ([SInterrupt]).
    - [Future], [FutureProofs], [FutureWalk], [FutureSteps], [FutureTheorems]
      ([src/future.c], [.h]): futures of one thread, their resolution, and the
      chains of [map], [catch] and [finally].  A turn of the coroutine that settles
      a chain is one step, cut where it calls a mapper; [fut_run] is a run of a
      program with its chains, whose coroutines may be cancelled before they start
      ([Dispose]).
    - [SharedFuture], [SharedFutureProofs], [SharedFutureSteps],
      [SharedFutureTheorems] ([src/future.c], [.h], with the cancel lists of
      [src/thread_pool.c]): a future that a thread settles for another.  Each
      section under the mutex and each access to an atomic is one step
      ([run_section]); [play] is a sequence of steps of any number of threads.
    - [ThreadPool], [ThreadPoolProofs], [ThreadPoolSteps], [ThreadPoolCalls],
      [ThreadPoolReload], [ThreadPoolInvariant], [ThreadPoolServing],
      [ThreadPoolTheorems] ([src/thread_pool.c], [.h]): the pool of worker threads
      over a task channel.  A worker ([thread_pool_worker_handler]) and a call
      ([caller_step], [reload_step]) are places in their functions.  A step is an access
      to an atomic that another thread decides on, a section under a mutex or a
      suspension, with the counts and releases next to it; the steps of all threads
      interleave freely.  The end of the owner's thread, which drops the registry's
      references to the channels, is a step too ([POwnerExit]).  [Bal] balances what
      the shared memory counts with the weights of the places; [served] says that a
      worker is left for the queue.

    The ring is the buffer of [Channel], [ThreadChannel] and [Pool], which are
    generic in the class [FifoBuffer]; the theorems of the clients are proved
    against the class.  What the engine and user code do (whether a coroutine can
    be spawned, how it ends, what a hook answers, whether an allocation succeeds)
    is a parameter of the step concerned.  Calls into the engine that others can
    observe (wakeups, settled futures, callbacks) are recorded in a list of
    effects.

    ** What the theorems show

    - No undefined behaviour: in every reachable state every enabled step of a
      channel, thread channel, pool or scope runs to its end
      ([channel_no_undefined_behaviour], [scope_operations_defined] and their
      counterparts).  Where the code has a hole, the theorem is an equivalence that
      says exactly which steps fall into it: a task group's spawn whose key was
      taken while it waited ([key_clash] in [group_no_undefined_behaviour]), a
      [finally] that releases a value twice ([releases_twice] in
      [futures_defined]), a worker that calls the callback which an interrupted
      caller has released ([calls_released] in [iteration_safe]), a reload that
      stores a worker past the end of an array ([overruns] in
      [pool_steps_defined]).  The loops that are
      written with fuel get one unit more than the length they walk, and the
      theorems show that it never runs out.
    - Invariants: reservations of channels and pools count exactly the woken
      waiters ([channel_reservations_bounded], [pool_accounting]); counters of a
      task group are exact and within its limits ([group_accounting]); persistent
      copies are released once ([thread_channel_copies_conserved]); the tree of
      scopes is well formed and its counters exact ([scope_tree_invariant]).
    - Structured concurrency: what a cancellation stops ([cancel_stops_subtree]) and
      what an unhandled exception stops ([unhandled_exception_stops_ancestors]), down
      to scopes that were closed or cancelled before; a finished coroutine frees its
      scope when that is due ([finished_coroutine_frees_scope]); the recursive
      tests decide reference definitions ([scope_tests_decide]).
    - Iteration: slots, references and the completion event are exact
      ([iteration_completes_once]); an array is handed over in order, completely and
      in at most [3 n + 4] steps ([array_iteration_total]).
    - Futures: an outcome is final ([outcome_final]), a chained future gets the outcome
      of a reference function ([child_outcome]), and no chain is forgotten as long
      as no mapper suspends, no rejection goes unhandled and no coroutine of a chain
      is cancelled before it starts ([chains_settle]); runs in which one is forgotten
      show that the conditions are needed.
    - Futures between threads: every interleaving is memory safe and its reference
      count exact ([shared_state_safe]); neither a completion nor a request to stop
      is lost in a race ([completion_delivered], [task_cancel_not_lost]).
    - The thread pool: which interleavings are memory safe, with reloads, failures,
      the end of the owner's thread and the destruction by the last reference
      ([pool_steps_defined]; [reload_overruns_workers] and [exit_strands_worker] are
      runs that are not); its counters are exact and a task is in one place
      ([pool_books]); no accepted task is forgotten in the runs that
      [task_not_forgotten] describes, and [limit_strands_task],
      [bailed_handler_unanswered] and [reload_misses_old_worker] show what goes wrong
      in others.
    - Order and delivery: [ring_refines_deque], [channel_fifo],
      [thread_channel_fifo], [completion_serves_waiters], [future_settled_once].
    - No lost wakeups: [channel_no_lost_wakeup], [thread_channel_no_lost_wakeup],
      [pool_no_lost_wakeup], [group_work_conserving].
    - Outcomes of operations on every branch, errors included.
    - Behaviours that the code gets wrong, each a closed run of the model
      evaluated by the kernel: for instance [suspended_hook_exceeds_max],
      [second_all_future_never_settled], [finally_handler_leaves_dangling_child],
      [timeout_reference_is_consumed].

    ** Bounds

    Counters keep their C width ([u32], [i32], [u64]).  The theorems on pools and
    groups assume fewer than 2^31 concurrent calls or tasks, which the steps'
    enabling conditions state.  The walks over the tree of scopes get the fuel
    [scope_fuel], more than twice the number of scopes; a child is younger than its
    parent, so that is enough.  The invariant of scopes is stated for runs without
    finally handlers and without listeners that throw; with them a disposal leaves
    dangling pointers, which the counterexamples show.

    ** Not modelled

    Reference counts, the garbage collector's walks (except the ring's), class
    registration and argument parsing; the reactor ([src/libuv_reactor.c]) and the
    readers of system files, which are bindings to libuv and the OS; the deep copy
    of values between threads ([src/thread.c]), which depends on the layout of the
    engine's values and appears as a parameter of [ThreadChannel].

    Of the thread pool: a construction that fails half way, the method [map] (a
    sequence of submits), and a bailout of the worker while coroutines of its tasks
    are in flight. *)

From stdpp Require Export base list numbers option gmap.
From stdpp Require Import tactics.

(** ** Machine integers

    A C unsigned integer of width [w] is a [Z] in [[0, 2^w)]; every operation
    that can leave the range is followed by the explicit reduction below. *)

Definition u64 (z : Z) : Z := (z `mod` 2 ^ 64)%Z.
Definition u32 (z : Z) : Z := (z `mod` 2 ^ 32)%Z.

(** The two's complement reading of the low 32 bits: [(int32_t) z]. *)
Definition i32 (z : Z) : Z := ((z + 2 ^ 31) `mod` 2 ^ 32 - 2 ^ 31)%Z.

Definition INT32_MAX : Z := (2 ^ 31 - 1)%Z.

(** [size_t] arithmetic: addition, subtraction and multiplication modulo 2^64. *)
Declare Scope c_scope.
Delimit Scope c_scope with C.
Notation "a ⊕ b" := (u64 (a + b)%Z) (at level 50, left associativity) : c_scope.
Notation "a ⊖ b" := (u64 (a - b)%Z) (at level 50, left associativity) : c_scope.
Notation "a ⊛ b" := (u64 (a * b)%Z) (at level 40, left associativity) : c_scope.

Lemma u64_small z : (0 ≤ z < 2 ^ 64)%Z → u64 z = z.
Proof. apply Z.mod_small. Qed.

Lemma u32_small z : (0 ≤ z < 2 ^ 32)%Z → u32 z = z.
Proof. apply Z.mod_small. Qed.

Lemma u64_range z : (0 ≤ u64 z < 2 ^ 64)%Z.
Proof. apply Z.mod_pos_bound. lia. Qed.

Lemma i32_small z : (- 2 ^ 31 ≤ z < 2 ^ 31)%Z → i32 z = z.
Proof. intros ?. unfold i32. rewrite Z.mod_small; lia. Qed.

Lemma land_pred_pow2 (a k : Z) : (0 ≤ k)%Z → Z.land a (2 ^ k - 1)%Z = (a `mod` 2 ^ k)%Z.
Proof.
  intros ?. rewrite <- Z.land_ones by done. f_equal. rewrite Z.ones_equiv. lia.
Qed.

(** ** Lists *)

Lemma filter_all {A} (P : A → Prop) `{!∀ x, Decision (P x)} (l : list A) :
  (∀ x, x ∈ l → P x) → filter P l = l.
Proof.
  intros Hl. induction l as [|a l IH]; [done|].
  rewrite filter_cons_True, IH; [done|set_solver|set_solver].
Qed.

(** Removal from a vector whose order does not matter: the slot takes the last
    element and the vector shrinks. *)
Definition swap_remove {A} (i : nat) (l : list A) : list A :=
  match list.last l with
  | None => []
  | Some x => if decide (S i = length l) then removelast l else <[i := x]> (removelast l)
  end.
Lemma swap_remove_perm {A} (i : nat) (l : list A) x : l !! i = Some x → x :: swap_remove i l ≡ₚ l.
Proof.
  intros Hi. unfold swap_remove. destruct l as [|y l' _] using rev_ind; [done|].
  rewrite last_snoc, removelast_last, length_app. cbn. case_decide as Hd.
  - rewrite lookup_app_r in Hi by lia. replace (i - length l')%nat with 0%nat in Hi by lia.
    simplify_eq/=. by rewrite Permutation_app_comm.
  - apply lookup_lt_Some in Hi as Hlt. rewrite length_app in Hlt. cbn in Hlt.
    rewrite lookup_app_l in Hi by lia.
    rewrite <- (take_drop_middle l' i x Hi) at 2. rewrite insert_take_drop by lia.
    solve_Permutation.
Qed.
Lemma swap_remove_length {A} (i : nat) (l : list A) x : l !! i = Some x →
  length l = S (length (swap_remove i l)).
Proof. by intros Hi%swap_remove_perm%Permutation_length. Qed.
(** The slots before the removed one keep their elements. *)
Lemma swap_remove_take {A} (i : nat) (l : list A) x : l !! i = Some x →
  take i (swap_remove i l) = take i l.
Proof.
  intros Hi. unfold swap_remove. destruct l as [|y l' _] using rev_ind; [done|].
  rewrite last_snoc, removelast_last, length_app. cbn.
  apply lookup_lt_Some in Hi. rewrite length_app in Hi. cbn in Hi. rewrite take_app_le by lia.
  case_decide; [done|]. by rewrite take_insert_ge.
Qed.

(** ** Results and effects

    [zend_result] is the engine's result type.  A stateful C function is a
    computation of [M S A]: explicit passing of the state [S], where [None] is
    undefined behaviour of the C program, that is a failed [ZEND_ASSERT], a
    dereferenced NULL or an access outside an allocated block. *)

Inductive zend_result := SUCCESS | FAILURE.

#[export] Instance zend_result_eq_dec : EqDecision zend_result.
Proof. solve_decision. Defined.

Definition M (S A : Type) : Type := S → option (A * S).

#[export] Instance M_ret S : MRet (M S) := λ A a s, Some (a, s).
#[export] Instance M_bind S : MBind (M S) :=
  λ A B k m s, match m s with Some (a, s') => k a s' | None => None end.

Section ops.
Context {S : Type}.

Definition undefined {A} : M S A := λ _, None.
Definition get : M S S := λ s, Some (s, s).
Definition gets {A} (f : S → A) : M S A := λ s, Some (f s, s).
Definition modify (f : S → S) : M S unit := λ s, Some (tt, f s).
Definition ZEND_ASSERT (b : bool) : M S unit := λ s, if b then Some (tt, s) else None.
Definition of_option {A} (o : option A) : M S A := λ s, (λ a, (a, s)) <$> o.
Definition when (b : bool) (m : M S unit) : M S unit := if b then m else mret tt.

(** A computation on a component of the state: the call of a function of the
    embedded structure [&s->field]. *)
Definition zoom {T A} (proj : S → T) (upd : T → S → S) (m : M T A) : M S A :=
  λ s, match m (proj s) with Some (a, t) => Some (a, upd t s) | None => None end.

(** [wp m Φ s]: started in [s], [m] has no undefined behaviour and ends with a
    result and a state in [Φ] (total correctness). *)
Definition wp {A} (m : M S A) (Φ : A → S → Prop) (s : S) : Prop :=
  match m s with Some (a, s') => Φ a s' | None => False end.
End ops.

(** ** The program logic *)

Section wp.
Context {S : Type}.
Implicit Types (s : S).

Lemma wp_bind {A B} (m : M S A) (k : A → M S B) Φ s :
  wp (m ≫= k) Φ s ↔ wp m (λ a, wp (k a) Φ) s.
Proof. unfold wp, mbind, M_bind. by destruct (m s) as [[a s']|]. Qed.

Lemma wp_mono {A} (m : M S A) (Φ Ψ : A → S → Prop) s :
  wp m Φ s → (∀ a s', Φ a s' → Ψ a s') → wp m Ψ s.
Proof. unfold wp. destruct (m s) as [[a s']|]; auto. Qed.

Lemma wp_conj {A} (m : M S A) (Φ Ψ : A → S → Prop) s :
  wp m Φ s → wp m Ψ s → wp m (λ a s', Φ a s' ∧ Ψ a s') s.
Proof. unfold wp. destruct (m s) as [[a s']|]; auto. Qed.

Lemma wp_ret {A} (a : A) (Φ : A → S → Prop) s : wp (mret a) Φ s ↔ Φ a s.
Proof. done. Qed.
Lemma wp_get (Φ : S → S → Prop) s : wp get Φ s ↔ Φ s s.
Proof. done. Qed.
Lemma wp_gets {A} (f : S → A) (Φ : A → S → Prop) s : wp (gets f) Φ s ↔ Φ (f s) s.
Proof. done. Qed.
Lemma wp_modify (f : S → S) (Φ : unit → S → Prop) s : wp (modify f) Φ s ↔ Φ tt (f s).
Proof. done. Qed.
Lemma wp_defined {A} (oa : option A) a (Φ : A → S → Prop) s : oa = Some a → wp (of_option oa) Φ s ↔ Φ a s.
Proof. by intros ->. Qed.
Lemma wp_assert b (Φ : unit → S → Prop) s : wp (ZEND_ASSERT b) Φ s ↔ b = true ∧ Φ tt s.
Proof. unfold wp, ZEND_ASSERT. destruct b; naive_solver. Qed.
Lemma wp_zoom {T A} (proj : S → T) upd (m : M T A) (Φ : A → S → Prop) s :
  wp (zoom proj upd m) Φ s ↔ wp m (λ a t, Φ a (upd t s)) (proj s).
Proof. unfold wp, zoom. by destruct (m (proj s)) as [[a t]|]. Qed.
Lemma wp_when b (m : M S unit) (Φ : unit → S → Prop) s :
  wp (when b m) Φ s ↔ if b then wp m Φ s else Φ tt s.
Proof. by destruct b. Qed.
Lemma wp_if {A} (b : bool) (m n : M S A) (Φ : A → S → Prop) s :
  wp (if b then m else n) Φ s ↔ if b then wp m Φ s else wp n Φ s.
Proof. by destruct b. Qed.

(** A [wp] fact yields the concrete run. *)
Lemma wp_run {A} (m : M S A) (Φ : A → S → Prop) s :
  wp m Φ s ↔ ∃ a s', m s = Some (a, s') ∧ Φ a s'.
Proof.
  unfold wp. destruct (m s) as [[a s']|]; [naive_solver|].
  split; [done|]. by intros (?&?&?&?).
Qed.
End wp.

Create Rewrite HintDb wp.
#[export] Hint Rewrite @wp_bind @wp_ret @wp_get @wp_gets @wp_modify @wp_assert @wp_when
  @wp_zoom : wp.

(** Symbolic execution of a straight-line prefix. *)
Ltac wp_simpl := repeat (progress (autorewrite with wp; cbn beta)).

(** Uses the specification [lem] of the computation at hand. *)
Tactic Notation "wp_apply" uconstr(lem) :=
  rewrite ?wp_bind; eapply wp_mono; [eapply lem|cbn beta].

(** ** Record update

    [Eta R] gives the eta-expansion of a record type once; [record_set c proj x]
    builds the record [c] with field [proj] replaced by [x] from it. *)

Class Eta (R : Type) := eta_expand : R → R.

Ltac record_set c proj x :=
  let R := type of c in
  let e := eval hnf in (eta_expand (R := R)) in
  lazymatch eval pattern proj in e with
  | ?g _ => let r := eval cbv beta in (g (fun _ => x) c) in exact r
  end.
