(* ===== verification/CircularBuffer.v ===== *)
(** * The circular buffer: [src/internal/circular_buffer.c] and [.h]

    The buffer is the storage of the coroutine queue, the microtask queue, the
    channels and the pools.  The memory block is a list of cells, one per item
    slot; [None] is a cell no item was stored in.  All sizes and indices are
    [size_t], reduced modulo 2^64 where the C expression can leave the range.
    The operations run in [M (circular_buffer_t V)]: an undefined result is a
    failed [ZEND_ASSERT], a NULL block or an access outside the block.

    The abstract specification is a list: [circular_buffer_contents] is the
    abstraction function and [ring_repr] the refinement relation. *)

From S2P Require Import Prelude.

Local Open Scope Z_scope.
Local Open Scope c_scope.

(** ** Data *)

(** The allocator's answers: whether a request returns memory or NULL.  The
    functions behind it ([emalloc], [pemalloc], [malloc]) are not part of the
    repository. *)
Record allocator_t := {
  m_alloc : Z → bool;
  m_calloc : Z → Z → bool;
  m_realloc : Z → Z → bool
}.

(** No C object is larger than [PTRDIFF_MAX] bytes: an allocator refuses such a
    request, and [calloc] refuses one whose product overflows. *)
Record allocator_ok (al : allocator_t) : Prop := {
  m_alloc_bound n : m_alloc al n = true → n < 2 ^ 63;
  m_calloc_bound n s : m_calloc al n s = true → n * s < 2 ^ 63;
  m_realloc_bound n o : m_realloc al n o = true → n < 2 ^ 63
}.

Record circular_buffer_t (V : Type) := mk_circular_buffer {
  item_size : Z;
  min_size : Z;
  capacity : Z;
  auto_optimize : bool;
  decrease_t : Z;
  allocator : allocator_t;
  data : option (list (option V));
  head : Z;
  tail : Z
}.
Arguments mk_circular_buffer {V}.
Arguments item_size {V} _. Arguments min_size {V} _. Arguments capacity {V} _.
Arguments auto_optimize {V} _. Arguments decrease_t {V} _. Arguments allocator {V} _.
Arguments data {V} _. Arguments head {V} _. Arguments tail {V} _.

Definition MINIMUM_COUNT : Z := 4.

(** ** Pure helpers *)

(** The [while (power < n) power <<= 1] loop; [None] when [fuel] iterations do
    not end it. *)
Fixpoint round_up_loop (fuel : nat) (power n : Z) : option Z :=
  if power <? n then
    match fuel with
    | O => None
    | S fuel => round_up_loop fuel (u64 (Z.shiftl power 1)) n
    end
  else Some power.

Definition round_up_to_power_of_2 (n : Z) : option Z :=
  if n =? 0 then Some 1
  else if Z.land n (n ⊖ 1) =? 0 then Some n
  else round_up_loop 64 1 n.

Section operations.
Context {V : Type}.
Implicit Types (b : circular_buffer_t V).

(** *** Field updates *)
Definition set_head (h : Z) b := mk_circular_buffer (item_size b) (min_size b) (capacity b)
  (auto_optimize b) (decrease_t b) (allocator b) (data b) h (tail b).
Definition set_tail (t : Z) b := mk_circular_buffer (item_size b) (min_size b) (capacity b)
  (auto_optimize b) (decrease_t b) (allocator b) (data b) (head b) t.
Definition set_data (d : option (list (option V))) b := mk_circular_buffer (item_size b)
  (min_size b) (capacity b) (auto_optimize b) (decrease_t b) (allocator b) d (head b) (tail b).
Definition set_capacity (c : Z) b := mk_circular_buffer (item_size b) (min_size b) c
  (auto_optimize b) (decrease_t b) (allocator b) (data b) (head b) (tail b).
Definition set_decrease_t (d : Z) b := mk_circular_buffer (item_size b) (min_size b)
  (capacity b) (auto_optimize b) d (allocator b) (data b) (head b) (tail b).

(** *** Memory *)

(** A block of [bytes] bytes holds [bytes / item_size] cells. *)
Definition new_block (bytes size : Z) : list (option V) :=
  replicate (Z.to_nat (bytes / size)) None.

Definition block : M (circular_buffer_t V) (list (option V)) :=
  b ← get; of_option (data b).

(** [memcpy] of one item out of the block. *)
Definition read_cell (i : Z) : M (circular_buffer_t V) (option V) :=
  cells ← block; of_option (cells !! Z.to_nat i).

(** [memcpy] of one item into the block. *)
Definition write_cell (i : Z) (v : V) : M (circular_buffer_t V) unit :=
  cells ← block;
  if (i <? Z.of_nat (length cells)) then
    modify (set_data (Some (<[Z.to_nat i := Some v]> cells)))
  else undefined.

(** [memcpy(dst + at, src, n)] between blocks; undefined outside either. *)
Definition memcpy_cells (dst : list (option V)) (at_ : Z) (src : list (option V)) (from n : Z)
    : M (circular_buffer_t V) (list (option V)) :=
  if (from + n <=? Z.of_nat (length src)) && (at_ + n <=? Z.of_nat (length dst)) then
    mret (take (Z.to_nat at_) dst ++ take (Z.to_nat n) (drop (Z.to_nat from) src)
            ++ drop (Z.to_nat (at_ + n)) dst)
  else undefined.

(** *** Observers *)
Definition next_index (index cap : Z) : Z := Z.land (index ⊕ 1) (cap ⊖ 1).

Definition circular_buffer_is_empty b : bool := head b =? tail b.
Definition circular_buffer_is_not_empty b : bool := negb (head b =? tail b).
Definition circular_buffer_is_full b : bool := next_index (head b) (capacity b) =? tail b.

Definition circular_buffer_count b : Z :=
  if capacity b =? 0 then 0
  else if tail b <=? head b then head b ⊖ tail b
  else (capacity b ⊖ tail b) ⊕ head b.

Definition circular_buffer_capacity b : Z := capacity b ⊖ 1.

Definition should_decrease b : bool :=
  auto_optimize b && negb (circular_buffer_is_empty b) &&
  (circular_buffer_count b <? decrease_t b).

Definition recalc_decrease_threshold (new_count : Z) b : circular_buffer_t V :=
  set_decrease_t (if new_count <=? min_size b then 0 else new_count / 2 ⊖ new_count / 4) b.

(** *** Construction *)

(** The outer [None] is the loop of [round_up_to_power_of_2] not ending. *)
Definition circular_buffer_ctor (std : allocator_t) (count isize : Z) (al : option allocator_t)
    : M (circular_buffer_t V) zend_result :=
  let al := default std al in
  let count := if count <=? 0 then MINIMUM_COUNT else count in
  count ← of_option (round_up_to_power_of_2 count);
  if negb (m_calloc al count isize) then mret FAILURE
  else
    modify (λ _, mk_circular_buffer isize count count true
      (if MINIMUM_COUNT <? count then count / 2 ⊖ count / 4 else 0)
      al (Some (new_block (count ⊛ isize) isize)) 0 0);;
    mret SUCCESS.

(** The zeroed structure [calloc(1, sizeof(circular_buffer_t))] returns. *)
Definition sizeof_circular_buffer_t : Z := 72.
Definition zeroed (al : allocator_t) : circular_buffer_t V :=
  mk_circular_buffer 0 0 0 false 0 al None 0 0.

(** [None]: no return (see [round_up_to_power_of_2]); [Some None]: NULL. *)
Definition circular_buffer_new (std : allocator_t) (count isize : Z) (al : option allocator_t)
    : option (option (circular_buffer_t V)) :=
  if isize <=? 0 then Some None
  else
    let al := default std al in
    let count := if count <=? 0 then MINIMUM_COUNT else count in
    count ← round_up_to_power_of_2 count;
    if negb (m_calloc al 1 sizeof_circular_buffer_t) then Some None
    else match circular_buffer_ctor std count isize (Some al) (zeroed al) with
         | Some (SUCCESS, b) => Some (Some b)
         | Some (FAILURE, _) => Some None
         | None => None
         end.

Definition circular_buffer_dtor b : circular_buffer_t V :=
  match data b with Some _ => set_data None b | None => b end.

Definition circular_buffer_clean b : circular_buffer_t V := set_head (tail b) b.

(** *** Reallocation *)

(** The new size [circular_buffer_realloc] settles on; [None] when the call
    has nothing to do. *)
Definition realloc_target b (new_count : Z) : option (option Z) :=
  if new_count <=? 0 then
    if circular_buffer_is_full b then Some (Some (capacity b ⊛ 2))
    else if should_decrease b then
      let n := capacity b / 2 in
      Some (Some (if n <? min_size b then min_size b else n))
    else Some None
  else Some <$> round_up_to_power_of_2 new_count.

Definition is_power_of_2 (n : Z) : bool := Z.land n (n ⊖ 1) =? 0.

(** The observers above are plain functions.  What [next_index] and [circular_buffer_count]
    assert is this; [observer_asserts_hold] shows it of every well-formed buffer. *)
Definition observer_asserts b : bool :=
  is_power_of_2 (capacity b) &&
  ((capacity b =? 0) || ((head b <? capacity b) && (tail b <? capacity b) && (circular_buffer_count b <=? capacity b))).

(** Case 1: empty buffer, a plain replacement of the block. *)
Definition realloc_empty (new_count : Z) : M (circular_buffer_t V) zend_result :=
  b ← get;
  let bytes := new_count ⊛ item_size b in
  if negb (m_alloc (allocator b) bytes) then mret FAILURE
  else
    modify (set_data (Some (new_block bytes (item_size b))));;
    modify (set_capacity new_count);;
    modify (set_head 0);;
    modify (set_tail 0);;
    modify (recalc_decrease_threshold new_count);;
    mret SUCCESS.

(** Case 2: [tail <= head], the items are contiguous.  [realloc] keeps the
    common prefix of the two blocks. *)
Definition realloc_linear (new_count count : Z) : M (circular_buffer_t V) zend_result :=
  b ← get;
  cells ← block;
  let bytes := new_count ⊛ item_size b in
  if capacity b <? new_count then
    if negb (m_realloc (allocator b) bytes (capacity b ⊛ item_size b)) then mret FAILURE
    else
      let keep := Z.min (Z.of_nat (length cells)) (bytes / item_size b) in
      new_data ← memcpy_cells (new_block bytes (item_size b)) 0 cells 0 keep;
      modify (set_data (Some new_data));;
      modify (set_capacity new_count);;
      mret SUCCESS
  else
    if negb (m_alloc (allocator b) bytes) then mret FAILURE
    else
      new_data ← memcpy_cells (new_block bytes (item_size b)) 0 cells (tail b) count;
      modify (set_data (Some new_data));;
      modify (set_capacity new_count);;
      modify (set_tail 0);;
      modify (set_head count);;
      mret SUCCESS.

(** Case 3: [head < tail], the items wrap around: two copies. *)
Definition realloc_wrapped (new_count count : Z) : M (circular_buffer_t V) zend_result :=
  b ← get;
  cells ← block;
  let bytes := new_count ⊛ item_size b in
  if negb (m_alloc (allocator b) bytes) then mret FAILURE
  else
    let first_part_count := capacity b ⊖ tail b in
    new_data ← memcpy_cells (new_block bytes (item_size b)) 0 cells (tail b) first_part_count;
    new_data ← memcpy_cells new_data first_part_count cells 0 (head b);
    modify (set_data (Some new_data));;
    modify (set_capacity new_count);;
    modify (set_tail 0);;
    modify (set_head count);;
    mret SUCCESS.

(** The consistency checks at the end of [circular_buffer_realloc]. *)
Definition realloc_final_asserts (new_count count : Z) : M (circular_buffer_t V) unit :=
  b ← get;
  ZEND_ASSERT (bool_decide (is_Some (data b)));;
  ZEND_ASSERT (capacity b =? new_count);;
  ZEND_ASSERT (head b <? capacity b);;
  ZEND_ASSERT (tail b <? capacity b);;
  ZEND_ASSERT (circular_buffer_count b =? count).

Definition circular_buffer_realloc (new_count : Z) : M (circular_buffer_t V) zend_result :=
  b ← get;
  ZEND_ASSERT (bool_decide (is_Some (data b)));;
  ZEND_ASSERT (0 <? capacity b);;
  ZEND_ASSERT (head b <? capacity b);;
  ZEND_ASSERT (tail b <? capacity b);;
  ZEND_ASSERT (0 <? item_size b);;
  target ← of_option (realloc_target b new_count);
  match target with
  | None => mret SUCCESS
  | Some new_count =>
    ZEND_ASSERT (0 <? new_count);;
    ZEND_ASSERT (min_size b <=? new_count);;
    ZEND_ASSERT (is_power_of_2 new_count);;
    if circular_buffer_is_empty b then realloc_empty new_count
    else
      let count := circular_buffer_count b in
      copied ← (if tail b <=? head b then realloc_linear new_count count
                else realloc_wrapped new_count count);
      match copied with
      | FAILURE => mret FAILURE
      | SUCCESS =>
        realloc_final_asserts new_count count;;
        modify (recalc_decrease_threshold new_count);;
        mret SUCCESS
      end
  end.

(** *** Push and pop *)

(** The assertions at the entry of push, push_front and pop. *)
Definition entry_asserts : M (circular_buffer_t V) unit :=
  b ← get;
  ZEND_ASSERT (bool_decide (is_Some (data b)));;
  ZEND_ASSERT (head b <? capacity b);;
  ZEND_ASSERT (tail b <? capacity b);;
  ZEND_ASSERT (0 <? item_size b).

(** The resize step push and push_front share. *)
Definition resize_if_needed : M (circular_buffer_t V) zend_result :=
  b ← get;
  let need_increase := circular_buffer_is_full b in
  let need_decrease := negb need_increase && should_decrease b in
  if need_increase || need_decrease then circular_buffer_realloc 0 else mret SUCCESS.

Definition circular_buffer_push (value : V) (should_resize : bool)
    : M (circular_buffer_t V) zend_result :=
  entry_asserts;;
  b ← get;
  ready ← (if should_resize then resize_if_needed
           else if circular_buffer_is_full b then mret FAILURE
           else mret SUCCESS);
  match ready with
  | FAILURE => mret FAILURE
  | SUCCESS =>
    b ← get;
    ZEND_ASSERT (negb (circular_buffer_is_full b));;
    write_cell (head b) value;;
    modify (set_head (next_index (head b) (capacity b)));;
    b ← get;
    ZEND_ASSERT (head b <? capacity b);;
    mret SUCCESS
  end.

Definition circular_buffer_push_front (value : V) (should_resize : bool)
    : M (circular_buffer_t V) zend_result :=
  entry_asserts;;
  ready ← (if should_resize then resize_if_needed else mret SUCCESS);
  match ready with
  | FAILURE => mret FAILURE
  | SUCCESS =>
    b ← get;
    if circular_buffer_is_full b then
      if should_resize then mret FAILURE else circular_buffer_push value false
    else
      ZEND_ASSERT (negb (circular_buffer_is_full b));;
      modify (set_tail (if tail b =? 0 then capacity b ⊖ 1 else tail b ⊖ 1));;
      b ← get;
      write_cell (tail b) value;;
      ZEND_ASSERT (tail b <? capacity b);;
      mret SUCCESS
  end.

(** The popped cell: [None] in the pair when the call fails, or when the cell
    read never held an item. *)
Definition circular_buffer_pop : M (circular_buffer_t V) (zend_result * option V) :=
  entry_asserts;;
  b ← get;
  if circular_buffer_is_empty b then mret (FAILURE, None)
  else
    ZEND_ASSERT (negb (circular_buffer_is_empty b));;
    value ← read_cell (tail b);
    modify (set_tail (next_index (tail b) (capacity b)));;
    b ← get;
    ZEND_ASSERT (tail b <? capacity b);;
    mret (SUCCESS, value).

(** *** The pointer-sized fast paths of the header *)

Definition circular_buffer_push_ptr (ptr : V) : M (circular_buffer_t V) zend_result :=
  b ← get;
  if negb (Z.land (head b ⊕ 1) (capacity b ⊖ 1) =? tail b) then
    write_cell (head b) ptr;;
    modify (set_head (Z.land (head b ⊕ 1) (capacity b ⊖ 1)));;
    mret SUCCESS
  else mret FAILURE.

Definition circular_buffer_pop_ptr : M (circular_buffer_t V) (zend_result * option V) :=
  b ← get;
  if negb (head b =? tail b) then
    ptr ← read_cell (tail b);
    modify (set_tail (Z.land (tail b ⊕ 1) (capacity b ⊖ 1)));;
    mret (SUCCESS, ptr)
  else mret (FAILURE, None).

Definition circular_buffer_push_ptr_with_resize (ptr : V) : M (circular_buffer_t V) zend_result :=
  r ← circular_buffer_push_ptr ptr;
  match r with SUCCESS => mret SUCCESS | FAILURE => circular_buffer_push ptr true end.

(** Writing back a cell that may be empty; [tmp] of the swap. *)
Definition store_cell (i : Z) (c : option V) : M (circular_buffer_t V) unit :=
  cells ← block;
  if (i <? Z.of_nat (length cells)) then
    modify (set_data (Some (<[Z.to_nat i := c]> cells)))
  else undefined.

Definition circular_buffer_swap_ptr_at (i j : Z) : M (circular_buffer_t V) unit :=
  if i =? j then mret tt
  else
    b ← get;
    let mask := capacity b ⊖ 1 in
    let slot_i := Z.land (tail b ⊕ i) mask in
    let slot_j := Z.land (tail b ⊕ j) mask in
    tmp ← read_cell slot_i;
    vj ← read_cell slot_j;
    store_cell slot_i vj;;
    store_cell slot_j tmp.

(** The walk of the GC handlers over the live items: from [tail] to [head]. *)
Fixpoint gc_walk (fuel : nat) (idx : Z) b : option (list (option V)) :=
  if idx =? head b then Some []
  else
    match fuel, data b ≫= (λ cells, cells !! Z.to_nat idx) with
    | S fuel, Some c => cons c <$> gc_walk fuel (Z.land (idx ⊕ 1) (capacity b ⊖ 1)) b
    | _, _ => None
    end.
End operations.

(** ** The abstract queue *)

(** The live window of a block between offsets [t] (tail) and [h] (head). *)
Definition window {C : Type} (h t : nat) (cells : list C) : list C :=
  if decide (t ≤ h)%nat then take (h - t) (drop t cells) else drop t cells ++ take h cells.

Definition window_size (n h t : nat) : nat := if decide (t ≤ h)%nat then h - t else n - t + h.
Definition wrap (n i : nat) : nat := if decide (i < n)%nat then i else i - n.
Definition next_nat (n i : nat) : nat := wrap n (S i).
Definition prev_nat (n i : nat) : nat := wrap n (i + (n - 1)).

Section window.
Context {C : Type}.
Implicit Types (cells : list C) (h t n i : nat).
Local Open Scope nat_scope.

Lemma window_length h t cells :
  h < length cells → t < length cells →
  length (window h t cells) = window_size (length cells) h t.
Proof.
  intros ??. unfold window, window_size.
  case_decide; rewrite ?length_app, ?length_take, length_drop; lia.
Qed.

(** Every fact about the window is pointwise: item [i] is cell [tail + i]. *)
Lemma window_lookup h t cells i :
  h < length cells → t < length cells →
  window h t cells !! i =
    if decide (i < window_size (length cells) h t)
    then cells !! wrap (length cells) (t + i) else None.
Proof.
  intros ??. unfold window, window_size, wrap.
  destruct (decide (t ≤ h)).
  - case_decide; [|by rewrite lookup_take_ge by lia].
    rewrite lookup_take_lt, lookup_drop by lia. by rewrite decide_True by lia.
  - case_decide.
    + case_decide.
      * by rewrite lookup_app_l, lookup_drop by (rewrite length_drop; lia).
      * rewrite lookup_app_r, length_drop by (rewrite length_drop; lia).
        rewrite lookup_take_lt by lia. f_equal. lia.
    + rewrite lookup_app_r, length_drop by (rewrite length_drop; lia).
      by rewrite lookup_take_ge by lia.
Qed.

Lemma window_empty h cells : window h h cells = [].
Proof. unfold window. rewrite decide_True by done. by rewrite Nat.sub_diag. Qed.
End window.

Lemma lookup_snoc_decide {A} (l : list A) x i :
  (l ++ [x]) !! i = if decide (i = length l) then Some x else l !! i.
Proof.
  case_decide as Hi; [subst; by apply list_lookup_middle|].
  destruct (decide (i < length l))%nat; [by apply lookup_app_l|].
  rewrite lookup_app_r by lia. rewrite !lookup_ge_None_2; [done|lia|simpl; lia].
Qed.

(** Pointwise comparison of the windows of an updated block. *)
Ltac window_tac :=
  rewrite ?lookup_snoc_decide;
  rewrite ?window_lookup, ?window_length; rewrite ?length_insert;
  unfold window_size, next_nat, prev_nat, wrap in *;
  rewrite ?list_lookup_insert;
  repeat case_decide; simplify_eq/=; try lia;
  try (f_equal; lia); try done.

Section window_ops.
Context {C : Type}.
Implicit Types (cells : list C) (h t n i : nat).
Local Open Scope nat_scope.

Lemma window_push h t cells x :
  h < length cells → t < length cells → next_nat (length cells) h ≠ t →
  window (next_nat (length cells) h) t (<[h:=x]> cells) = window h t cells ++ [x].
Proof. intros Hh Ht Hne. apply list_eq. intros i. window_tac. Qed.

Lemma window_push_front h t cells x :
  h < length cells → t < length cells → next_nat (length cells) h ≠ t →
  window h (prev_nat (length cells) t) (<[prev_nat (length cells) t:=x]> cells)
    = x :: window h t cells.
Proof. intros Hh Ht Hne. apply list_eq. intros [|i]; simpl; window_tac. Qed.

Lemma window_pop h t cells x :
  h < length cells → t < length cells → h ≠ t → cells !! t = Some x →
  window h t cells = x :: window h (next_nat (length cells) t) cells.
Proof.
  intros Hh Ht Hne Hx. apply list_eq. intros [|i]; simpl; window_tac.
  all: rewrite <- Hx; f_equal; lia.
Qed.

Lemma window_insert h t cells i x :
  h < length cells → t < length cells → i < window_size (length cells) h t →
  window h t (<[wrap (length cells) (t + i):=x]> cells) = <[i:=x]> (window h t cells).
Proof.
  intros Hh Ht Hi. apply list_eq. intros j.
  destruct (decide (i = j)) as [<-|].
  - rewrite list_lookup_insert_eq by (by rewrite window_length). window_tac.
  - rewrite list_lookup_insert_ne by done. window_tac.
Qed.
End window_ops.

(** ** Well-formedness and the refinement relation *)

Definition pow2 (n : Z) : Prop := ∃ k, 0 ≤ k ∧ n = 2 ^ k.

Record ring_ok {V} (b : circular_buffer_t V) : Prop := {
  ok_pow2 : pow2 (capacity b);
  ok_item : 0 < item_size b;
  ok_bytes : capacity b * item_size b < 2 ^ 63;
  ok_data : ∃ cells, data b = Some cells ∧ Z.of_nat (length cells) = capacity b;
  ok_head : 0 ≤ head b < capacity b;
  ok_tail : 0 ≤ tail b < capacity b;
  ok_min : 0 < min_size b ≤ capacity b;
  ok_min_pow2 : pow2 (min_size b);
  ok_decrease : decrease_t b ≤ capacity b / 2 - capacity b / 4;
  ok_alloc : allocator_ok (allocator b)
}.

Definition circular_buffer_contents {V} (b : circular_buffer_t V) : list (option V) :=
  from_option (window (Z.to_nat (head b)) (Z.to_nat (tail b))) [] (data b).

Definition ring_repr {V} (b : circular_buffer_t V) (l : list V) : Prop :=
  ring_ok b ∧ circular_buffer_contents b = Some <$> l.

Section pow2.
Lemma pow2_pos n : pow2 n → 0 < n.
Proof. intros (k & ? & ->). lia. Qed.

Lemma pow2_land n : pow2 n → n ≤ 2 ^ 63 → is_power_of_2 n = true.
Proof.
  intros Hn Hb. pose proof (pow2_pos _ Hn). destruct Hn as (k & ? & ->).
  unfold is_power_of_2. rewrite u64_small by lia.
  rewrite land_pred_pow2 by done. rewrite Z.mod_same by lia. done.
Qed.

Lemma pow2_double n : pow2 n → pow2 (n * 2).
Proof. intros (k & ? & ->). exists (k + 1). split; [lia|]. rewrite Z.pow_add_r by lia. lia. Qed.

Lemma pow2_half n : pow2 n → 1 < n → pow2 (n / 2) ∧ n = 2 * (n / 2).
Proof.
  intros (k & ? & ->) Hk. assert (0 < k) by (destruct (decide (k = 0)) as [->|]; lia).
  replace (2 ^ k) with (2 ^ (k - 1) * 2)
    by (rewrite <- (Z.pow_succ_r 2 (k - 1)) || (rewrite Z.mul_comm, <- Z.pow_succ_r by lia); f_equal; lia).
  rewrite Z.div_mul by lia. split; [exists (k - 1); split; [lia|done]|lia].
Qed.

Lemma pow2_bound n : pow2 n → n < 2 ^ 63 → n ≤ 2 ^ 62.
Proof.
  intros (k & ? & ->) Hn. apply Z.pow_le_mono_r; [lia|].
  apply (Z.pow_lt_mono_r_iff 2) in Hn; lia.
Qed.
End pow2.

Section observers.
Context {V : Type}.
Implicit Types (b : circular_buffer_t V).

Lemma ok_cells b : ring_ok b →
  ∃ cells, data b = Some cells ∧ length cells = Z.to_nat (capacity b).
Proof. intros []. destruct ok_data0 as (cells & ? & ?). exists cells. split; [done|lia]. Qed.

Lemma ok_cap_bound b : ring_ok b → 0 < capacity b ≤ 2 ^ 62.
Proof.
  intros [Hp Hi Hb _ _ _ _ _ _ _]. pose proof (pow2_pos _ Hp).
  split; [done|]. apply pow2_bound; [done|nia].
Qed.

Lemma next_index_spec i cap : pow2 cap → cap ≤ 2 ^ 62 → 0 ≤ i < cap →
  next_index i cap = Z.of_nat (next_nat (Z.to_nat cap) (Z.to_nat i)).
Proof.
  intros Hc Hb Hi. destruct Hc as (k & Hk & ->). unfold next_index, next_nat, wrap.
  rewrite !u64_small by lia. rewrite land_pred_pow2 by done.
  case_decide; [rewrite Z.mod_small by lia; lia|].
  assert (i + 1 = 2 ^ k) as -> by lia. rewrite Z.mod_same by lia. lia.
Qed.

Lemma next_index_range i cap : pow2 cap → cap ≤ 2 ^ 62 → 0 ≤ i < cap →
  0 ≤ next_index i cap < cap.
Proof.
  intros Hc Hb Hi. rewrite next_index_spec by done. unfold next_nat, wrap. case_decide; lia.
Qed.

Lemma contents_length b : ring_ok b →
  length (circular_buffer_contents b)
    = window_size (Z.to_nat (capacity b)) (Z.to_nat (head b)) (Z.to_nat (tail b)).
Proof.
  intros Hb. destruct (ok_cells b Hb) as (cells & Hd & Hl).
  pose proof (ok_head _ Hb). pose proof (ok_tail _ Hb).
  unfold circular_buffer_contents. rewrite Hd. simpl.
  rewrite window_length; rewrite ?Hl; [done|lia..].
Qed.

Lemma count_spec b : ring_ok b →
  circular_buffer_count b = Z.of_nat (length (circular_buffer_contents b)).
Proof.
  intros Hb. rewrite contents_length by done.
  pose proof (ok_head _ Hb). pose proof (ok_tail _ Hb). pose proof (ok_cap_bound _ Hb).
  unfold circular_buffer_count, window_size.
  destruct (Z.eqb_spec (capacity b) 0); [lia|].
  destruct (Z.leb_spec (tail b) (head b)).
  - rewrite decide_True, u64_small by lia. lia.
  - rewrite decide_False, !u64_small by (rewrite ?u64_small; lia). lia.
Qed.

Lemma count_bound b : ring_ok b → 0 ≤ circular_buffer_count b < capacity b.
Proof.
  intros Hb. rewrite count_spec, contents_length by done.
  pose proof (ok_head _ Hb). pose proof (ok_tail _ Hb).
  unfold window_size. case_decide; lia.
Qed.

Lemma is_empty_spec b : ring_ok b →
  circular_buffer_is_empty b = bool_decide (circular_buffer_contents b = []).
Proof.
  intros Hb. pose proof (contents_length _ Hb) as Hl.
  pose proof (ok_head _ Hb). pose proof (ok_tail _ Hb).
  unfold circular_buffer_is_empty, window_size in *.
  destruct (Z.eqb_spec (head b) (tail b)) as [E|E].
  - symmetry. apply bool_decide_eq_true. apply length_zero_iff_nil.
    rewrite Hl. case_decide; lia.
  - symmetry. apply bool_decide_eq_false. intros Hc. rewrite Hc in Hl. simpl in Hl.
    case_decide; lia.
Qed.

Lemma is_full_spec b : ring_ok b →
  circular_buffer_is_full b
    = bool_decide (Z.of_nat (length (circular_buffer_contents b)) = capacity b - 1).
Proof.
  intros Hb. rewrite contents_length by done.
  pose proof (ok_head _ Hb). pose proof (ok_tail _ Hb). pose proof (ok_cap_bound _ Hb).
  unfold circular_buffer_is_full. rewrite next_index_spec by (done || apply Hb || lia).
  unfold window_size, next_nat, wrap.
  apply eq_true_iff_eq. rewrite Z.eqb_eq, bool_decide_eq_true.
  repeat case_decide; lia.
Qed.

Lemma observer_asserts_hold b : ring_ok b → observer_asserts b = true.
Proof.
  intros Hb. pose proof (ok_head _ Hb). pose proof (ok_tail _ Hb). pose proof (ok_cap_bound _ Hb). pose proof (count_bound _ Hb).
  unfold observer_asserts. rewrite pow2_land by (apply Hb || lia). rewrite !andb_true_l.
  apply orb_true_iff. right. rewrite !andb_true_iff, !Z.ltb_lt, Z.leb_le. lia.
Qed.
End observers.

(** ** Operation specifications *)

Section specs.
Context {V : Type}.
Implicit Types (b : circular_buffer_t V) (l : list V) (v : V).

Lemma new_block_length (n s : Z) : 0 < s → 0 ≤ n → n * s < 2 ^ 64 →
  length (new_block (V := V) (n ⊛ s) s) = Z.to_nat n.
Proof.
  intros. unfold new_block. rewrite length_replicate, u64_small by nia.
  by rewrite Z.div_mul by lia.
Qed.

Lemma wp_block b cells (Φ : list (option V) → circular_buffer_t V → Prop) :
  data b = Some cells → Φ cells b → wp block Φ b.
Proof. unfold wp, block, mbind, M_bind, get, of_option. by intros ->. Qed.

Lemma wp_of_option {S A} (a : A) (Φ : A → S → Prop) s :
  Φ a s → wp (of_option (Some a)) Φ s.
Proof. done. Qed.

Lemma wp_memcpy dst at_ src from n (Φ : list (option V) → circular_buffer_t V → Prop) b :
  from + n ≤ Z.of_nat (length src) → at_ + n ≤ Z.of_nat (length dst) →
  Φ (take (Z.to_nat at_) dst ++ take (Z.to_nat n) (drop (Z.to_nat from) src)
       ++ drop (Z.to_nat (at_ + n)) dst) b →
  wp (memcpy_cells dst at_ src from n) Φ b.
Proof.
  intros ???. unfold memcpy_cells.
  by rewrite (proj2 (Z.leb_le _ _)), (proj2 (Z.leb_le _ _)) by lia.
Qed.

(** The threshold [recalc_decrease_threshold] sets keeps a decreased buffer
    large enough for what it holds. *)
Lemma recalc_ok n : 0 ≤ n < 2 ^ 64 → 0 ≤ n / 2 ⊖ n / 4 ≤ n / 2 - n / 4.
Proof.
  intros ?. pose proof (Z.div_le_compat_l n 2 4 ltac:(lia) ltac:(lia)).
  pose proof (Z.div_lt n 2) as ?. pose proof (Z.div_pos n 4). pose proof (Z.div_le_upper_bound n 2 n).
  rewrite u64_small by lia. lia.
Qed.
End specs.

(** The buffer [circular_buffer_realloc] leaves on success. *)
Definition resized {V} (b : circular_buffer_t V) cells (n h t : Z) : circular_buffer_t V :=
  recalc_decrease_threshold n (set_head h (set_tail t (set_capacity n (set_data (Some cells) b)))).

Section realloc.
Context {V : Type}.
Implicit Types (b : circular_buffer_t V) (l : list V) (v : V).

Lemma window_prefix {C} (xs rest : list C) : window (length xs) 0 (xs ++ rest) = xs.
Proof.
  unfold window. rewrite decide_True by lia. rewrite drop_0, Nat.sub_0_r.
  by apply take_app_length.
Qed.

Lemma ring_ok_resized b cells n h t :
  ring_ok b → pow2 n → min_size b ≤ n → n * item_size b < 2 ^ 63 →
  Z.of_nat (length cells) = n → 0 ≤ h < n → 0 ≤ t < n → ring_ok (resized b cells n h t).
Proof.
  intros Hb Hn Hmin Hbytes Hlen Hh Ht. pose proof (ok_min _ Hb). pose proof (ok_item _ Hb).
  destruct Hb. constructor; simpl; eauto; [lia|].
  assert (0 ≤ n < 2 ^ 64) as Hr by nia. pose proof (recalc_ok n Hr).
  destruct (Z.leb_spec n (min_size b)); [|lia].
  pose proof (Z.div_le_compat_l n 2 4). lia.
Qed.

Lemma realloc_target_spec b : ring_ok b →
  realloc_target b 0 = Some None ∨
  ∃ n, realloc_target b 0 = Some (Some n) ∧ pow2 n ∧ min_size b ≤ n ≤ capacity b * 2 ∧
       circular_buffer_count b + 1 < n ∧
       (circular_buffer_is_full b = true → n = capacity b * 2).
Proof.
  intros Hb. pose proof (ok_cap_bound _ Hb). pose proof (count_bound _ Hb).
  pose proof (ok_min _ Hb). pose proof (ok_decrease _ Hb).
  unfold realloc_target. simpl.
  destruct (circular_buffer_is_full b) eqn:Hfull.
  - right. exists (capacity b * 2). rewrite u64_small by lia.
    split_and!; [done|apply pow2_double, Hb|lia|lia| |done].
    rewrite is_full_spec, bool_decide_eq_true, <- count_spec in Hfull by done. lia.
  - destruct (should_decrease b) eqn:Hdec; [|by left]. right.
    unfold should_decrease in Hdec. rewrite !andb_true_iff, Z.ltb_lt in Hdec.
    destruct Hdec as [[_ Hne] Hlt].
    rewrite negb_true_iff, is_empty_spec, bool_decide_eq_false in Hne by done.
    assert (0 < circular_buffer_count b).
    { rewrite count_spec by done. destruct (circular_buffer_contents b); simpl; [done|lia]. }
    destruct (decide (capacity b = 1)) as [E|].
    { rewrite E in *. change (1 / 2 - 1 / 4) with 0 in *. lia. }
    destruct (pow2_half (capacity b)) as [Hh Heq]; [apply Hb|lia|].
    assert (capacity b / 4 = capacity b / 2 / 2) as Hq by (by rewrite Zdiv.Zdiv_Zdiv by lia).
    rewrite Hq in *.
    assert (circular_buffer_count b + 1 < capacity b / 2).
    { pose proof (Z.div_mod (capacity b / 2) 2). pose proof (Z.mod_pos_bound (capacity b / 2) 2). lia. }
    eexists. split; [done|].
    destruct (Z.ltb_spec (capacity b / 2) (min_size b)); split_and!; try done; try lia.
    apply Hb.
Qed.
End realloc.

Section realloc_spec.
Context {V : Type}.
Implicit Types (b : circular_buffer_t V) (l : list V) (v : V).

(** What a copy case leaves before the threshold is recalculated. *)
Definition moved b cells (n h t : Z) : circular_buffer_t V :=
  set_head h (set_tail t (set_capacity n (set_data (Some cells) b))).

(** The allocator of [b] refuses a request no larger than the doubled block. *)
Definition refused b : Prop :=
  ∃ n, n ≤ capacity b * 2 * item_size b ∧
       (m_alloc (allocator b) n = false ∨ ∃ o, m_realloc (allocator b) n o = false).

Definition copy_post b (n : Z) (r : zend_result) (b' : circular_buffer_t V) : Prop :=
  match r with
  | FAILURE => b' = b ∧ refused b
  | SUCCESS => ∃ cells h t, b' = moved b cells n h t ∧ n * item_size b < 2 ^ 63 ∧
      Z.of_nat (length cells) = n ∧ 0 ≤ h < n ∧ 0 ≤ t < n ∧
      window (Z.to_nat h) (Z.to_nat t) cells = circular_buffer_contents b
  end.

Section cases.
Context (b : circular_buffer_t V) (n : Z) (Hb : ring_ok b) (Hn : pow2 n)
  (Hmax : n ≤ capacity b * 2) (Hcnt : circular_buffer_count b < n).

Local Lemma target_bytes : 0 < n ∧ n * item_size b < 2 ^ 64 ∧
  length (new_block (V := V) (n ⊛ item_size b) (item_size b)) = Z.to_nat n.
Proof.
  pose proof (pow2_pos _ Hn). pose proof (ok_bytes _ Hb). pose proof (ok_item _ Hb).
  assert (n * item_size b < 2 ^ 64) by nia.
  split_and!; [done..|]. apply new_block_length; lia.
Qed.

Local Lemma alloc_refused : m_alloc (allocator b) (n ⊛ item_size b) = false → refused b.
Proof.
  destruct target_bytes as (? & ? & _). pose proof (ok_item _ Hb). intros Ha.
  eexists. split; [|by left]. rewrite u64_small by nia. nia.
Qed.

Local Lemma realloc_refused o :
  m_realloc (allocator b) (n ⊛ item_size b) o = false → refused b.
Proof.
  destruct target_bytes as (? & ? & _). pose proof (ok_item _ Hb). intros Ha.
  eexists. split; [|right; by exists o]. rewrite u64_small by nia. nia.
Qed.

Lemma realloc_empty_spec : circular_buffer_contents b = [] →
  wp (realloc_empty n) (λ r b', r = FAILURE ∧ b' = b ∧ refused b ∨
    r = SUCCESS ∧ copy_post b n SUCCESS (moved b (new_block (n ⊛ item_size b) (item_size b)) n 0 0) ∧
    b' = resized b (new_block (n ⊛ item_size b) (item_size b)) n 0 0) b.
Proof.
  destruct target_bytes as (? & ? & Hlen). intros Hnil.
  unfold realloc_empty. wp_simpl. rewrite wp_if.
  destruct (m_alloc _ _) eqn:Ha; simpl; wp_simpl; [right|by left; eauto using alloc_refused].
  apply (m_alloc_bound _ (ok_alloc _ Hb)) in Ha. rewrite u64_small in Ha by (pose proof (ok_item _ Hb); nia).
  split_and!; [done| |done]. eexists _, 0, 0. split_and!; try done; try lia.
Qed.

Lemma realloc_linear_spec : tail b ≤ head b →
  wp (realloc_linear n (circular_buffer_count b)) (copy_post b n) b.
Proof.
  intros Hlin. destruct target_bytes as (? & Hnb & Hlen).
  destruct (ok_cells _ Hb) as (cells & Hd & Hl).
  pose proof (ok_head _ Hb). pose proof (ok_tail _ Hb). pose proof (ok_item _ Hb).
  pose proof (ok_alloc _ Hb) as Hal. pose proof (count_bound _ Hb).
  assert (circular_buffer_count b = head b - tail b) as Hc.
  { rewrite count_spec, contents_length by done. unfold window_size.
    rewrite decide_True by lia. lia. }
  unfold realloc_linear. wp_simpl. eapply wp_block; [done|]. rewrite !wp_if.
  destruct (Z.ltb_spec (capacity b) n).
  - rewrite wp_if. destruct (m_realloc _ _ _) eqn:Ha; simpl; wp_simpl; [|split; [done|by eapply realloc_refused]].
    apply (m_realloc_bound _ Hal) in Ha. rewrite u64_small in * by nia.
    rewrite Z.div_mul, Z.min_l by lia. apply wp_memcpy; [lia..|]. wp_simpl.
    rewrite Nat2Z.id, drop_0. simpl. rewrite take_ge by lia.
    eexists _, (head b), (tail b). split_and!; [done|done| |lia..|].
    + rewrite length_app, length_drop, Hlen. lia.
    + unfold circular_buffer_contents. rewrite Hd. simpl. unfold window.
      rewrite !decide_True by lia. rewrite drop_app_le by lia.
      by rewrite take_app_le by (rewrite length_drop; lia).
  - rewrite wp_if. destruct (m_alloc _ _) eqn:Ha; simpl; wp_simpl; [|split; [done|by apply alloc_refused]].
    apply (m_alloc_bound _ Hal) in Ha. rewrite u64_small in * by nia.
    apply wp_memcpy; [lia..|]. wp_simpl. simpl.
    eexists _, _, 0. split_and!; [done|done| |lia..|].
    + rewrite length_app, length_take, !length_drop, Hlen. lia.
    + unfold circular_buffer_contents. rewrite Hd. simpl.
      replace (Z.to_nat (circular_buffer_count b)) with
        (length (take (Z.to_nat (circular_buffer_count b)) (drop (Z.to_nat (tail b)) cells))) at 1
        by (rewrite length_take, length_drop; lia).
      rewrite window_prefix. unfold window. rewrite decide_True by lia. f_equal. lia.
Qed.

Lemma realloc_wrapped_spec : head b < tail b →
  wp (realloc_wrapped n (circular_buffer_count b)) (copy_post b n) b.
Proof.
  intros Hwr. destruct target_bytes as (? & Hnb & Hlen).
  destruct (ok_cells _ Hb) as (cells & Hd & Hl).
  pose proof (ok_head _ Hb). pose proof (ok_tail _ Hb). pose proof (ok_item _ Hb).
  pose proof (ok_cap_bound _ Hb). pose proof (ok_alloc _ Hb) as Hal.
  assert (circular_buffer_count b = capacity b - tail b + head b) as Hc.
  { rewrite count_spec, contents_length by done. unfold window_size.
    rewrite decide_False by lia. lia. }
  unfold realloc_wrapped. wp_simpl. eapply wp_block; [done|]. rewrite wp_if.
  destruct (m_alloc _ _) eqn:Ha; simpl; wp_simpl; [|split; [done|by apply alloc_refused]].
  apply (m_alloc_bound _ Hal) in Ha. rewrite (u64_small (n * _)) in * by nia.
  rewrite !(u64_small (capacity b - _)) by lia.
  apply wp_memcpy; [lia..|]. wp_simpl. simpl.
  rewrite (take_ge (drop _ cells)) by (rewrite length_drop; lia).
  apply wp_memcpy; [lia|rewrite length_app, !length_drop, Hlen; lia|]. wp_simpl.
  rewrite take_app_length' by (rewrite length_drop; lia).
  eexists _, _, 0. split_and!; [done|done| |lia..|].
  - rewrite !length_app, length_take, !length_drop, length_app, !length_drop, Hlen. lia.
  - unfold circular_buffer_contents. rewrite Hd. simpl. rewrite drop_0, app_assoc.
    replace (Z.to_nat (circular_buffer_count b)) with
      (length (drop (Z.to_nat (tail b)) cells ++ take (Z.to_nat (head b)) cells))
      by (rewrite length_app, length_take, length_drop; lia).
    rewrite window_prefix. unfold window. by rewrite decide_False by lia.
Qed.
End cases.
End realloc_spec.

Section op_specs.
Context {V : Type}.
Implicit Types (b : circular_buffer_t V) (l : list V) (v : V).

(** A failed reallocation leaves the buffer alone; a successful one keeps the
    contents in order. *)
Definition realloc_post b (n : Z) (r : zend_result) (b' : circular_buffer_t V) : Prop :=
  match r with
  | FAILURE => b' = b ∧ refused b
  | SUCCESS => ring_ok b' ∧ circular_buffer_contents b' = circular_buffer_contents b ∧
               capacity b' = n
  end.

Lemma moved_count b cells n h t :
  pow2 n → n ≤ 2 ^ 63 → Z.of_nat (length cells) = n → 0 ≤ h < n → 0 ≤ t < n →
  circular_buffer_count (moved b cells n h t)
    = Z.of_nat (length (window (Z.to_nat h) (Z.to_nat t) cells)).
Proof.
  intros Hn Hb Hl Hh Ht. rewrite window_length by lia.
  unfold circular_buffer_count, window_size. simpl.
  destruct (Z.eqb_spec n 0); [lia|].
  destruct (Z.leb_spec t h).
  - rewrite decide_True, u64_small by lia. lia.
  - rewrite decide_False, !u64_small by (rewrite ?u64_small; lia). lia.
Qed.

Lemma realloc_to b nc n :
  ring_ok b → realloc_target b nc = Some (Some n) →
  pow2 n → min_size b ≤ n → n ≤ capacity b * 2 → circular_buffer_count b < n →
  wp (circular_buffer_realloc nc) (realloc_post b n) b.
Proof.
  intros Hb Htgt Hn Hmin Hmax Hcnt.
  destruct (ok_cells _ Hb) as (cells & Hd & Hl). pose proof (pow2_pos _ Hn).
  pose proof (ok_head _ Hb). pose proof (ok_tail _ Hb). pose proof (ok_cap_bound _ Hb).
  assert (∀ cells h t, copy_post b n SUCCESS (moved b cells n h t) →
    realloc_post b n SUCCESS (resized b cells n h t)) as Hpost.
  { intros ??? (c & h' & t' & Heq & ? & ? & ? & ? & Hw).
    unfold moved, set_head, set_tail, set_capacity, set_data in Heq. simplify_eq/=.
    by split; [apply ring_ok_resized|]. }
  unfold circular_buffer_realloc. wp_simpl. rewrite Hd.
  split_and!; try (apply Z.ltb_lt; apply Hb || lia); [done|].
  rewrite Htgt. apply wp_of_option. wp_simpl.
  split_and!; [by apply Z.ltb_lt|by apply Z.leb_le|apply pow2_land; [done|lia]|].
  rewrite wp_if, is_empty_spec by done. case_bool_decide.
  { eapply wp_mono; [by apply realloc_empty_spec|].
    intros r b' [(-> & -> & ?)|(-> & ? & ->)]; [done|by apply Hpost]. }
  wp_simpl. apply (wp_mono _ (copy_post b n)).
  { destruct (Z.leb_spec (tail b) (head b)); [by apply realloc_linear_spec|by apply realloc_wrapped_spec]. }
  intros [] b' Hc; [|by wp_simpl].
  pose proof Hc as (c & h & t & -> & Hby & ? & ? & ? & Hw).
  unfold realloc_final_asserts. wp_simpl. simpl.
  do 2 (split; [done || by apply Z.eqb_eq|]).
  do 2 (split; [apply Z.ltb_lt; lia|]). split; [|by apply Hpost].
  apply Z.eqb_eq. rewrite moved_count by (done || lia). by rewrite Hw, count_spec.
Qed.

Lemma realloc_zero b : ring_ok b →
  wp (circular_buffer_realloc 0) (λ r b', ∃ n, realloc_post b n r b' ∧
    (circular_buffer_is_full b = true → n = capacity b * 2)) b.
Proof.
  intros Hb. destruct (realloc_target_spec b Hb) as [Hnone|(n & Htgt & ? & ? & ? & Hf)].
  - destruct (ok_cells _ Hb) as (cells & Hd & Hl).
    pose proof (ok_head _ Hb). pose proof (ok_tail _ Hb).
    unfold circular_buffer_realloc. wp_simpl. rewrite Hd.
    split_and!; try (apply Z.ltb_lt; apply Hb || lia); [done|].
    rewrite Hnone. apply wp_of_option. wp_simpl. exists (capacity b). split; [done|].
    unfold realloc_target in Hnone. simpl in Hnone. intros Hfull. by rewrite Hfull in Hnone.
  - eapply wp_mono; [by apply (realloc_to b 0 n); try lia|]. naive_solver.
Qed.

Lemma entry_asserts_spec b (Φ : unit → circular_buffer_t V → Prop) :
  ring_ok b → Φ tt b → wp entry_asserts Φ b.
Proof.
  intros Hb HΦ. destruct (ok_cells _ Hb) as (cells & Hd & Hl).
  pose proof (ok_head _ Hb). pose proof (ok_tail _ Hb).
  unfold entry_asserts. wp_simpl. rewrite Hd.
  split_and!; try (apply Z.ltb_lt; apply Hb || lia); done.
Qed.

(** After the resize step there is a free slot, whatever the step did. *)
Lemma resize_spec b : ring_ok b →
  wp resize_if_needed (λ r b', match r with
    | FAILURE => b' = b ∧ refused b
    | SUCCESS => ring_ok b' ∧ circular_buffer_contents b' = circular_buffer_contents b ∧
                 circular_buffer_is_full b' = false
    end) b.
Proof.
  intros Hb. unfold resize_if_needed. wp_simpl. rewrite wp_if.
  destruct (circular_buffer_is_full b) eqn:Hfull; simpl.
  - eapply wp_mono; [by apply realloc_zero|]. intros [] b' (n & Hp & Hn); [|done].
    destruct Hp as (Hb' & Hc & Hcap). specialize (Hn Hfull). split_and!; [done..|].
    rewrite is_full_spec in * by done. apply bool_decide_eq_true in Hfull.
    apply bool_decide_eq_false. rewrite Hc, Hcap, Hn.
    pose proof (ok_cap_bound _ Hb). lia.
  - destruct (should_decrease b) eqn:Hdec; [|by wp_simpl].
    destruct (realloc_target_spec b Hb) as [Hnone|(n & Htgt & Hp & ? & Hc & _)].
    { unfold realloc_target in Hnone. simpl in Hnone. by rewrite Hfull, Hdec in Hnone. }
    eapply wp_mono; [by apply (realloc_to b 0 n); try lia|].
    intros [] b' Hpost; [|done]. destruct Hpost as (Hb' & Hcont & Hcap).
    split_and!; [done..|]. rewrite is_full_spec, Hcont, Hcap by done.
    apply bool_decide_eq_false. rewrite <- count_spec by done. lia.
Qed.

Lemma wp_write_cell b i v (Φ : unit → circular_buffer_t V → Prop) cells :
  data b = Some cells → 0 ≤ i < Z.of_nat (length cells) →
  Φ tt (set_data (Some (<[Z.to_nat i := Some v]> cells)) b) → wp (write_cell i v) Φ b.
Proof.
  intros Hd Hi HΦ. unfold write_cell. wp_simpl. eapply wp_block; [done|].
  by rewrite (proj2 (Z.ltb_lt _ _)) by lia.
Qed.

Lemma wp_read_cell b i c (Φ : option V → circular_buffer_t V → Prop) cells :
  data b = Some cells → cells !! Z.to_nat i = Some c → Φ c b → wp (read_cell i) Φ b.
Proof.
  intros Hd Hi HΦ. unfold read_cell. wp_simpl. eapply wp_block; [done|]. by rewrite Hi.
Qed.

(** Moving an index or storing an item keeps the buffer well formed. *)
Lemma ring_ok_update b cells h t :
  ring_ok b → Z.of_nat (length cells) = capacity b →
  0 ≤ h < capacity b → 0 ≤ t < capacity b →
  ring_ok (set_head h (set_tail t (set_data (Some cells) b))).
Proof. intros [] ???. constructor; simpl; eauto. Qed.

Lemma not_full_next b : ring_ok b → circular_buffer_is_full b = false →
  next_nat (Z.to_nat (capacity b)) (Z.to_nat (head b)) ≠ Z.to_nat (tail b).
Proof.
  intros Hb Hf Heq. pose proof (ok_cap_bound _ Hb). pose proof (ok_tail _ Hb).
  unfold circular_buffer_is_full in Hf.
  rewrite next_index_spec, Heq, Z2Nat.id, Z.eqb_refl in Hf by (apply Hb || lia). done.
Qed.

(** Storing at [head] appends to the contents. *)
Lemma store_head_spec b v cells : ring_ok b → circular_buffer_is_full b = false →
  data b = Some cells →
  let b' := set_head (next_index (head b) (capacity b))
              (set_data (Some (<[Z.to_nat (head b) := Some v]> cells)) b) in
  ring_ok b' ∧ circular_buffer_contents b' = circular_buffer_contents b ++ [Some v].
Proof.
  intros Hb Hf Hd. pose proof (ok_cap_bound _ Hb). pose proof (not_full_next _ Hb Hf).
  pose proof (ok_head _ Hb). pose proof (ok_tail _ Hb).
  destruct (ok_cells _ Hb) as (cells' & Hd' & Hl). rewrite Hd in Hd'. simplify_eq.
  pose proof (next_index_range (head b) (capacity b) (ok_pow2 _ Hb)).
  split.
  - apply (ring_ok_update b _ _ (tail b)); rewrite ?length_insert; try done; lia.
  - unfold circular_buffer_contents. rewrite Hd. simpl.
    rewrite next_index_spec by (apply Hb || lia). rewrite Nat2Z.id, <- Hl.
    apply window_push; rewrite ?Hl; [lia..|done].
Qed.
End op_specs.

(** ** Refinement of the queue operations

    These are the facts the clients of the buffer rely on. *)

Section refinement.
Context {V : Type}.
Implicit Types (b : circular_buffer_t V) (l : list V) (v : V).

Lemma repr_length b l : ring_repr b l → circular_buffer_count b = Z.of_nat (length l).
Proof. intros [Hb Hc]. by rewrite count_spec, Hc, length_fmap. Qed.

Lemma repr_is_full b l : ring_repr b l →
  circular_buffer_is_full b = bool_decide (Z.of_nat (length l) = capacity b - 1).
Proof. intros [Hb Hc]. by rewrite is_full_spec, Hc, length_fmap. Qed.

Lemma repr_is_empty b l : ring_repr b l → circular_buffer_is_empty b = bool_decide (l = []).
Proof.
  intros [Hb Hc]. rewrite is_empty_spec, Hc by done. apply bool_decide_ext.
  by destruct l.
Qed.

(** The common tail of the pushes: assertion, store, advance. *)
Lemma push_tail_spec b v l :
  ring_repr b l → circular_buffer_is_full b = false →
  wp (b ← get;
      ZEND_ASSERT (negb (circular_buffer_is_full b));;
      write_cell (head b) v;;
      modify (set_head (next_index (head b) (capacity b)));;
      b ← get;
      ZEND_ASSERT (head b <? capacity b);;
      mret SUCCESS)
    (λ r b', r = SUCCESS ∧ ring_repr b' (l ++ [v]) ∧ capacity b' = capacity b) b.
Proof.
  intros [Hb Hc] Hf. destruct (ok_cells _ Hb) as (cells & Hd & Hl).
  pose proof (ok_head _ Hb). wp_simpl. rewrite Hf. split; [done|].
  eapply wp_write_cell; [done|lia|]. wp_simpl.
  destruct (store_head_spec b v cells Hb Hf Hd) as [Hb' Hc'].
  split; [apply Z.ltb_lt; apply (ok_head _ Hb')|].
  split_and!; [done| |done]. split; [done|]. by rewrite Hc', Hc, fmap_app.
Qed.

(** A push fails without effect: when the buffer is full and may not grow, or
    when the allocator refuses. *)
Lemma push_spec b l v r : ring_repr b l →
  wp (circular_buffer_push v r) (λ res b',
    match res with
    | SUCCESS => ring_repr b' (l ++ [v]) ∧ (r = false → capacity b' = capacity b)
    | FAILURE => b' = b ∧ (r = true → refused b)
    end ∧
    (r = false → (res = SUCCESS ↔ Z.of_nat (length l) < capacity b - 1))) b.
Proof.
  intros Hr. pose proof Hr as [Hb Hc]. pose proof (count_bound _ Hb) as Hcb.
  rewrite (repr_length _ _ Hr) in Hcb.
  unfold circular_buffer_push. wp_simpl. apply entry_asserts_spec; [done|]. wp_simpl.
  destruct r.
  - eapply wp_mono; [by apply resize_spec|].
    intros [] b' Hb'; [|wp_simpl; naive_solver].
    destruct Hb' as (? & Hc' & Hf).
    eapply wp_mono; [by apply (push_tail_spec b' v l); [split; [|rewrite Hc']|]|].
    intros r b'' (-> & ? & ?). done.
  - rewrite (repr_is_full _ _ Hr). case_bool_decide as Hfull; rewrite wp_ret.
    { wp_simpl. split; [done|]. intros _. split; [done|lia]. }
    eapply wp_mono; [apply (push_tail_spec b v l); [done|]|].
    { rewrite (repr_is_full _ _ Hr). by apply bool_decide_eq_false. }
    intros r b'' (-> & ? & ?). split; [done|]. intros _. split; [lia|done].
Qed.

(** Advancing [tail] drops the first item. *)
Lemma tail_cons b v l : ring_repr b (v :: l) →
  (∃ cells, data b = Some cells ∧ cells !! Z.to_nat (tail b) = Some (Some v)) ∧
  ring_repr (set_tail (next_index (tail b) (capacity b)) b) l.
Proof.
  intros Hr. pose proof Hr as [Hb Hc]. destruct (ok_cells _ Hb) as (cells & Hd & Hl).
  pose proof (ok_head _ Hb). pose proof (ok_tail _ Hb). pose proof (ok_cap_bound _ Hb).
  destruct (lookup_lt_is_Some_2 cells (Z.to_nat (tail b))) as [c Hcell]; [lia|].
  unfold circular_buffer_contents in Hc. rewrite Hd in Hc. simpl in Hc.
  assert (Z.to_nat (head b) ≠ Z.to_nat (tail b)) as Hne.
  { intros Heq. by rewrite Heq, window_empty in Hc. }
  pose proof (next_index_range (tail b) (capacity b) (ok_pow2 _ Hb)) as Hn.
  rewrite (window_pop _ _ _ c) in Hc by (done || lia). injection Hc as -> Hc.
  split; [eauto|]. split.
  - destruct Hb. constructor; simpl; eauto; lia.
  - unfold circular_buffer_contents. simpl. rewrite Hd. simpl.
    rewrite next_index_spec, Nat2Z.id, <- Hl by (apply Hb || lia). done.
Qed.

Lemma pop_spec b l : ring_repr b l →
  wp circular_buffer_pop (λ res b',
    match l with
    | [] => res = (FAILURE, None) ∧ b' = b
    | v :: l' => res = (SUCCESS, Some v) ∧ ring_repr b' l' ∧ capacity b' = capacity b
    end) b.
Proof.
  intros Hr. unfold circular_buffer_pop. wp_simpl.
  apply entry_asserts_spec; [apply Hr|]. wp_simpl.
  rewrite (repr_is_empty _ _ Hr). destruct l as [|v l']; [by rewrite bool_decide_true|].
  rewrite bool_decide_false by done. wp_simpl. split; [done|].
  destruct (tail_cons b v l' Hr) as [(cells & Hd & Hcell) Hr'].
  eapply wp_read_cell; [done..|]. wp_simpl.
  split; [apply Z.ltb_lt; apply (ok_tail _ (proj1 Hr'))|]. done.
Qed.
End refinement.

Section refinement_more.
Context {V : Type}.
Implicit Types (b : circular_buffer_t V) (l : list V) (v : V).

Lemma store_front_spec b v l : ring_repr b l → circular_buffer_is_full b = false →
  wp (modify (set_tail (if tail b =? 0 then capacity b ⊖ 1 else tail b ⊖ 1));;
      b ← get;
      write_cell (tail b) v;;
      ZEND_ASSERT (tail b <? capacity b);;
      mret SUCCESS)
    (λ r b', r = SUCCESS ∧ ring_repr b' (v :: l) ∧ capacity b' = capacity b) b.
Proof.
  intros [Hb Hc] Hf. pose proof (not_full_next _ Hb Hf) as Hnx.
  destruct (ok_cells _ Hb) as (cells & Hd & Hl).
  pose proof (ok_head _ Hb). pose proof (ok_tail _ Hb). pose proof (ok_cap_bound _ Hb).
  assert ((if tail b =? 0 then capacity b ⊖ 1 else tail b ⊖ 1)
    = Z.of_nat (prev_nat (Z.to_nat (capacity b)) (Z.to_nat (tail b)))) as Hp.
  { unfold prev_nat, wrap. destruct (Z.eqb_spec (tail b) 0);
      rewrite u64_small by lia; case_decide; lia. }
  assert (prev_nat (length cells) (Z.to_nat (tail b)) < length cells)%nat as Hpl.
  { unfold prev_nat, wrap. case_decide; lia. }
  wp_simpl. rewrite Hp, <- Hl.
  eapply wp_write_cell; [exact Hd|simpl; lia|]. wp_simpl. simpl.
  split; [apply Z.ltb_lt; lia|]. split_and!; [done| |done]. rewrite Nat2Z.id. split.
  - destruct Hb. constructor; simpl; eauto; [|lia].
    eexists. split; [done|]. rewrite length_insert. lia.
  - unfold circular_buffer_contents in *. rewrite Hd in Hc. simpl in *.
    rewrite Nat2Z.id, window_push_front, Hc by (rewrite ?Hl; done || lia). done.
Qed.

(** [circular_buffer_push_front]: on a full buffer that may not grow it falls
    back to [circular_buffer_push], which then fails. *)
Lemma push_front_spec b l v r : ring_repr b l →
  wp (circular_buffer_push_front v r) (λ res b',
    match res with
    | SUCCESS => ring_repr b' (v :: l) ∧ (r = false → capacity b' = capacity b)
    | FAILURE => b' = b ∧ (r = true → refused b)
    end ∧
    (r = false → (res = SUCCESS ↔ Z.of_nat (length l) < capacity b - 1))) b.
Proof.
  intros Hr. pose proof Hr as [Hb Hc]. pose proof (count_bound _ Hb) as Hcb.
  rewrite (repr_length _ _ Hr) in Hcb. pose proof (repr_is_full _ _ Hr) as Hfl.
  unfold circular_buffer_push_front. rewrite wp_bind. apply entry_asserts_spec; [done|].
  rewrite wp_bind. destruct r.
  - eapply wp_mono; [by apply resize_spec|].
    intros [] b' Hb'; [|wp_simpl; naive_solver].
    destruct Hb' as (? & Hc' & Hf). rewrite wp_bind, wp_get, Hf, wp_bind, wp_assert.
    split; [done|].
    eapply wp_mono; [apply (store_front_spec b' v l); [by split; [|rewrite Hc']|done]|].
    intros r b'' (-> & ? & ?). done.
  - rewrite wp_ret, wp_bind, wp_get. rewrite Hfl. case_bool_decide as Hfull.
    { eapply wp_mono; [by apply (push_spec b l v false)|].
      intros res b' [Hres Hiff]. specialize (Hiff eq_refl).
      destruct res; [specialize (proj1 Hiff eq_refl); lia|]. split; [done|]. intros _. split; [done|lia]. }
    rewrite wp_bind, wp_assert. split; [done|].
    eapply wp_mono; [apply (store_front_spec b v l Hr)|].
    { done. }
    intros r b'' (-> & ? & ?). split; [done|]. intros _. split; [lia|done].
Qed.
End refinement_more.

(** ** Construction *)

Section construction.
Context {V : Type}.

Lemma round_up_loop_spec k fuel j n :
  0 ≤ j → Z.of_nat fuel = k - j → 2 ^ (k - 1) < n ≤ 2 ^ k → k ≤ 63 → j ≤ k →
  round_up_loop fuel (2 ^ j) n = Some (2 ^ k).
Proof.
  revert j. induction fuel as [|fuel IH]; intros j Hj Hf Hn Hk Hjk; simpl.
  - assert (j = k) as -> by lia. by rewrite (proj2 (Z.ltb_ge _ _)) by lia.
  - assert (2 ^ j ≤ 2 ^ (k - 1)) by (apply Z.pow_le_mono_r; lia).
    rewrite (proj2 (Z.ltb_lt _ _)) by lia.
    rewrite Z.shiftl_mul_pow2, Z.pow_1_r by lia.
    assert (2 ^ j * 2 = 2 ^ (j + 1)) as -> by (rewrite Z.pow_add_r; lia).
    assert (2 ^ (j + 1) ≤ 2 ^ 63) by (apply Z.pow_le_mono_r; lia).
    rewrite u64_small by lia. apply IH; lia.
Qed.

Lemma round_up_loop_more fuel fuel' p n r :
  round_up_loop fuel p n = Some r → (fuel ≤ fuel')%nat → round_up_loop fuel' p n = Some r.
Proof.
  revert fuel' p. induction fuel as [|fuel IH]; intros fuel' p; simpl; destruct fuel'; simpl;
    destruct (p <? n); intros; try done; [lia|]. eapply IH; [done|lia].
Qed.

Lemma land_pred_zero n : 0 < n → Z.land n (n - 1) = 0 → pow2 n.
Proof.
  intros Hn Hl. exists (Z.log2 n). pose proof (Z.log2_nonneg n).
  pose proof (Z.log2_spec n Hn) as [Hlo Hhi]. split; [done|].
  destruct (decide (n = 2 ^ Z.log2 n)) as [|Hne]; [done|]. exfalso.
  assert (Z.log2 (n - 1) = Z.log2 n) as Hlog by (apply Z.log2_unique; lia).
  assert (Z.testbit (Z.land n (n - 1)) (Z.log2 n) = true) as Hb.
  { rewrite Z.land_spec, Z.bit_log2 by lia. rewrite <- Hlog, Z.bit_log2; [done|lia]. }
  by rewrite Hl, Z.bits_0 in Hb.
Qed.

(** For a size up to 2^63 the result is the least power of two not below it. *)
Lemma round_up_spec n : 0 < n ≤ 2 ^ 63 →
  ∃ p, round_up_to_power_of_2 n = Some p ∧ pow2 p ∧ n ≤ p < 2 * n.
Proof.
  intros Hn. unfold round_up_to_power_of_2.
  destruct (Z.eqb_spec n 0); [lia|]. rewrite u64_small by lia.
  destruct (Z.eqb_spec (Z.land n (n - 1)) 0) as [Hz|Hz].
  { exists n. split_and!; [done| |lia..]. apply land_pred_zero; [lia|done]. }
  assert (1 < n) as Hn1.
  { destruct (decide (n = 1)) as [->|]; [done|lia]. }
  pose proof (Z.log2_up_spec n Hn1) as Hs. pose proof (Z.log2_up_nonneg n).
  assert (Z.log2_up n ≤ 63) by (rewrite <- (Z.log2_up_pow2 63) by lia; apply Z.log2_up_le_mono; lia).
  assert (0 < Z.log2_up n) by (apply Z.log2_up_pos; lia).
  exists (2 ^ Z.log2_up n).
  assert (2 ^ Z.log2_up n = 2 * 2 ^ Z.pred (Z.log2_up n)) as Hd.
  { rewrite <- Z.pow_succ_r by lia. f_equal. lia. }
  split_and!; [|by eexists|lia..].
  eapply (round_up_loop_more (Z.to_nat (Z.log2_up n))); [|lia].
  apply (round_up_loop_spec (Z.log2_up n) _ 0); [lia..| |lia|lia].
  rewrite Z.sub_1_r. lia.
Qed.

(** Above 2^63 no power of two fits: the shifted [power] becomes zero and the
    loop runs forever. *)
Lemma round_up_loop_diverges fuel p n :
  2 ^ 63 < n → p = 0 ∨ (∃ j, 0 ≤ j ≤ 63 ∧ p = 2 ^ j) → round_up_loop fuel p n = None.
Proof.
  intros Hn. revert p. induction fuel as [|fuel IH]; intros p Hp; simpl.
  all: assert (p < n) by (destruct Hp as [->|(j & ? & ->)];
         [lia|assert (2 ^ j ≤ 2 ^ 63) by (apply Z.pow_le_mono_r; lia); lia]).
  all: rewrite (proj2 (Z.ltb_lt _ _)) by lia.
  { done. }
  apply IH. rewrite Z.shiftl_mul_pow2, Z.pow_1_r by lia.
  destruct Hp as [->|(j & Hj & ->)]; [by left|].
  assert (2 ^ j * 2 = 2 ^ (j + 1)) as -> by (rewrite Z.pow_add_r; lia).
  destruct (decide (j = 63)) as [->|]; [by left|]. right. exists (j + 1).
  split; [lia|]. apply u64_small.
  assert (2 ^ (j + 1) ≤ 2 ^ 63) by (apply Z.pow_le_mono_r; lia). lia.
Qed.

Definition requested (count : Z) : Z := if count <=? 0 then MINIMUM_COUNT else count.

Lemma ctor_spec std count isize al (b : circular_buffer_t V) :
  0 ≤ count ≤ 2 ^ 63 → 0 < isize → allocator_ok (default std al) →
  wp (circular_buffer_ctor std count isize al) (λ r b',
    match r with
    | FAILURE => b' = b ∧ ∃ n, m_calloc (default std al) n isize = false
    | SUCCESS => ring_repr b' [] ∧ requested count ≤ capacity b' < 2 * requested count ∧
                 min_size b' = capacity b'
    end) b.
Proof.
  intros Hc Hi Hal. unfold circular_buffer_ctor. wp_simpl.
  change (if count <=? 0 then MINIMUM_COUNT else count) with (requested count).
  assert (0 < requested count ≤ 2 ^ 63) as Hq.
  { unfold requested, MINIMUM_COUNT. destruct (Z.leb_spec count 0); lia. }
  destruct (round_up_spec _ Hq) as (p & -> & Hp & Hr). apply wp_of_option.
  destruct (m_calloc _ _ _) eqn:Ha; simpl; wp_simpl; [|eauto].
  apply (m_calloc_bound _ Hal) in Ha. pose proof (pow2_pos _ Hp).
  pose proof (Z.div_le_compat_l p 2 4).
  split; [|done]. split; [|by unfold circular_buffer_contents].
  constructor; simpl; try done; try lia.
  - eexists. split; [done|]. rewrite new_block_length by nia. lia.
  - assert (0 ≤ p < 2 ^ 64) as Hr' by nia. pose proof (recalc_ok p Hr').
    destruct (Z.ltb_spec MINIMUM_COUNT p); lia.
Qed.
End construction.

(** ** Fast paths, swap and the GC walk *)

Section fast_paths.
Context {V : Type}.
Implicit Types (b : circular_buffer_t V) (l : list V) (v : V).

Lemma entry_asserts_run b : ring_ok b → entry_asserts b = Some (tt, b).
Proof.
  intros Hb. pose proof (entry_asserts_spec b (λ _ b', b' = b) Hb eq_refl) as Hw.
  apply wp_run in Hw as ([] & b' & -> & ->). done.
Qed.

(** On a well-formed buffer the inlined fast path is the general push without
    resize, and the inlined pop is the general pop. *)
Lemma push_ptr_push b v : ring_ok b →
  circular_buffer_push_ptr v b = circular_buffer_push v false b.
Proof.
  intros Hb. unfold circular_buffer_push, circular_buffer_push_ptr, mbind, M_bind, get.
  rewrite entry_asserts_run by done. fold (next_index (head b) (capacity b)).
  fold (circular_buffer_is_full b). destruct (circular_buffer_is_full b) eqn:Hf; [done|].
  unfold mret, M_ret, ZEND_ASSERT. rewrite Hf. simpl.
  unfold write_cell, block, mbind, M_bind, get, of_option.
  destruct (ok_cells _ Hb) as (cells & Hd & Hl). rewrite Hd. simpl.
  pose proof (ok_head _ Hb). pose proof (ok_cap_bound _ Hb).
  rewrite (proj2 (Z.ltb_lt _ _)) by lia. unfold modify. simpl.
  pose proof (next_index_range (head b) (capacity b) (ok_pow2 _ Hb)).
  by rewrite (proj2 (Z.ltb_lt _ _)) by lia.
Qed.

Lemma pop_ptr_pop b : ring_ok b → circular_buffer_pop_ptr b = circular_buffer_pop b.
Proof.
  intros Hb. unfold circular_buffer_pop, circular_buffer_pop_ptr, mbind, M_bind, get.
  rewrite entry_asserts_run by done. fold (circular_buffer_is_empty b).
  destruct (circular_buffer_is_empty b) eqn:He; [done|]. simpl.
  unfold ZEND_ASSERT. simpl.
  destruct (read_cell (tail b) b) as [[c b']|] eqn:Hrd; [|done].
  assert (b' = b) as ->.
  { revert Hrd. unfold read_cell, block, mbind, M_bind, get, of_option.
    destruct (data b); [|done]. simpl. destruct (_ !! _); naive_solver. }
  unfold modify. simpl. fold (next_index (tail b) (capacity b)).
  pose proof (ok_tail _ Hb). pose proof (ok_cap_bound _ Hb).
  pose proof (next_index_range (tail b) (capacity b) (ok_pow2 _ Hb)).
  by rewrite (proj2 (Z.ltb_lt _ _)) by lia.
Qed.

Lemma push_ptr_with_resize_spec b l v : ring_repr b l →
  wp (circular_buffer_push_ptr_with_resize v) (λ res b',
    match res with SUCCESS => ring_repr b' (l ++ [v]) | FAILURE => b' = b end) b.
Proof.
  intros Hr. unfold circular_buffer_push_ptr_with_resize. rewrite wp_bind.
  pose proof (push_spec b l v false Hr) as Hp. unfold wp at 1 in Hp. unfold wp at 1.
  rewrite push_ptr_push by apply Hr.
  destruct (circular_buffer_push v false b) as [[[] b']|]; [|destruct Hp as [[-> _] _]|done].
  - rewrite wp_ret. apply Hp.
  - eapply wp_mono; [by apply (push_spec b l v true)|]. intros [] ? [? ?]; naive_solver.
Qed.

Lemma slot_index b i : ring_ok b → 0 ≤ i < circular_buffer_count b →
  Z.to_nat (Z.land (tail b ⊕ i) (capacity b ⊖ 1))
    = wrap (Z.to_nat (capacity b)) (Z.to_nat (tail b) + Z.to_nat i).
Proof.
  intros Hb Hi. pose proof (count_bound _ Hb). pose proof (ok_tail _ Hb).
  pose proof (ok_cap_bound _ Hb). destruct (ok_pow2 _ Hb) as (k & Hk & Hcap).
  rewrite !u64_small by lia. rewrite Hcap, land_pred_pow2, <- Hcap by done.
  unfold wrap. case_decide; [rewrite Z.mod_small; lia|].
  rewrite <- (Z.mod_unique (tail b + i) (capacity b) 1 (tail b + i - capacity b)); lia.
Qed.

Lemma slot_lookup b cells l i : ring_repr b l → data b = Some cells →
  0 ≤ i < Z.of_nat (length l) →
  cells !! Z.to_nat (Z.land (tail b ⊕ i) (capacity b ⊖ 1)) = Some <$> (l !! Z.to_nat i).
Proof.
  intros Hr Hd Hi. pose proof Hr as [Hb Hc]. rewrite slot_index by (rewrite ?(repr_length _ _ Hr); done).
  destruct (ok_cells _ Hb) as (cells' & Hd' & Hl). simplify_eq.
  pose proof (ok_head _ Hb). pose proof (ok_tail _ Hb).
  pose proof (contents_length _ Hb) as Hlen. rewrite Hc, length_fmap in Hlen.
  unfold circular_buffer_contents in Hc. rewrite Hd in Hc. simpl in Hc.
  rewrite <- list_lookup_fmap, <- Hc, window_lookup by lia.
  by rewrite Hl, decide_True by lia.
Qed.
End fast_paths.

Section swap_and_walk.
Context {V : Type}.
Implicit Types (b : circular_buffer_t V) (l : list V) (v : V).

(** Overwriting live slot [i] overwrites item [i]. *)
Lemma store_slot b l i v (Φ : unit → circular_buffer_t V → Prop) :
  ring_repr b l → 0 ≤ i < Z.of_nat (length l) →
  (∀ b', ring_repr b' (<[Z.to_nat i := v]> l) → tail b' = tail b →
         capacity b' = capacity b → Φ tt b') →
  wp (store_cell (Z.land (tail b ⊕ i) (capacity b ⊖ 1)) (Some v)) Φ b.
Proof.
  intros Hr Hi HΦ. pose proof Hr as [Hb Hc].
  pose proof (slot_index b i Hb ltac:(by rewrite (repr_length _ _ Hr))) as Hs.
  destruct (ok_cells _ Hb) as (cells & Hd & Hl).
  pose proof (ok_head _ Hb). pose proof (ok_tail _ Hb).
  pose proof (contents_length _ Hb) as Hlen. rewrite Hc, length_fmap in Hlen.
  assert (wrap (Z.to_nat (capacity b)) (Z.to_nat (tail b) + Z.to_nat i) < length cells)%nat.
  { unfold wrap. unfold window_size in Hlen. repeat case_decide; lia. }
  assert (0 ≤ Z.land (tail b ⊕ i) (capacity b ⊖ 1)).
  { apply Z.land_nonneg. left. apply u64_range. }
  unfold store_cell. wp_simpl. eapply wp_block; [done|].
  rewrite (proj2 (Z.ltb_lt _ _)) by lia. wp_simpl.
  apply HΦ; [|done..]. split.
  - destruct Hb. constructor; simpl; eauto. eexists. split; [done|]. rewrite length_insert. lia.
  - unfold circular_buffer_contents in *. rewrite Hd in Hc. simpl in *.
    rewrite Hs, <- Hl, window_insert, Hc, list_fmap_insert by (rewrite ?Hl; lia). done.
Qed.

Lemma swap_spec b l i j : ring_repr b l →
  0 ≤ i < Z.of_nat (length l) → 0 ≤ j < Z.of_nat (length l) →
  wp (circular_buffer_swap_ptr_at i j) (λ _ b', ∃ vi vj,
    l !! Z.to_nat i = Some vi ∧ l !! Z.to_nat j = Some vj ∧
    ring_repr b' (<[Z.to_nat j := vi]> (<[Z.to_nat i := vj]> l))) b.
Proof.
  intros Hr Hi Hj. unfold circular_buffer_swap_ptr_at.
  destruct (lookup_lt_is_Some_2 l (Z.to_nat i)) as [vi Hvi]; [lia|].
  destruct (lookup_lt_is_Some_2 l (Z.to_nat j)) as [vj Hvj]; [lia|].
  destruct (Z.eqb_spec i j) as [->|Hne].
  { simplify_eq. wp_simpl. exists vi, vi. by rewrite !list_insert_id by (by rewrite ?list_insert_id). }
  destruct (ok_cells _ (proj1 Hr)) as (cells & Hd & _). wp_simpl.
  eapply wp_read_cell; [done|by rewrite (slot_lookup _ _ _ _ Hr Hd Hi), Hvi|]. wp_simpl.
  eapply wp_read_cell; [done|by rewrite (slot_lookup _ _ _ _ Hr Hd Hj), Hvj|]. wp_simpl.
  apply (store_slot b l i vj); [done..|]. intros b' Hr' Ht Hcap.
  rewrite <- Ht, <- Hcap. apply (store_slot b' _ j vi _ Hr'); [by rewrite length_insert|].
  eauto.
Qed.

Lemma gc_walk_tail fuel idx t b : gc_walk fuel idx (set_tail t b) = gc_walk fuel idx b.
Proof.
  revert idx. induction fuel as [|fuel IH]; intros idx; simpl; [done|].
  destruct (idx =? head b); [done|]. destruct (data b ≫= _); [|done]. by rewrite IH.
Qed.

Lemma gc_walk_spec b l : ring_repr b l → gc_walk (length l) (tail b) b = Some (Some <$> l).
Proof.
  revert b. induction l as [|v l IH]; intros b Hr.
  - pose proof (repr_is_empty _ _ Hr) as He. unfold circular_buffer_is_empty in He.
    simpl. by rewrite Z.eqb_sym, He.
  - pose proof (repr_is_empty _ _ Hr) as He. unfold circular_buffer_is_empty in He.
    destruct (tail_cons b v l Hr) as [(cells & Hd & Hcell) Hr'].
    simpl. rewrite Z.eqb_sym, He, Hd. simpl. rewrite Hcell.
    fold (next_index (tail b) (capacity b)).
    specialize (IH _ Hr'). rewrite gc_walk_tail in IH. simpl in IH. by rewrite IH.
Qed.
End swap_and_walk.

(** ** The interface the clients use

    What a channel or a pool needs of its buffer: a bounded FIFO queue of
    values, refined by a list. *)

Class FifoBuffer (Q V : Type) := {
  q_repr : Q → list V → Prop;
  q_slots : Q → Z;
  q_push : V → bool → M Q zend_result;
  q_pop : M Q (zend_result * option V);
  q_count : Q → Z;
  q_is_empty : Q → bool;
  q_slots_nonneg q l : q_repr q l → Z.of_nat (length l) ≤ q_slots q;
  q_push_spec q l v r : q_repr q l →
    wp (q_push v r) (λ res q',
      match res with
      | SUCCESS => q_repr q' (l ++ [v]) ∧ (r = false → q_slots q' = q_slots q)
      | FAILURE => q' = q
      end ∧ (r = false → (res = SUCCESS ↔ Z.of_nat (length l) < q_slots q))) q;
  q_pop_spec q l : q_repr q l →
    wp q_pop (λ res q',
      match l with
      | [] => res = (FAILURE, None) ∧ q' = q
      | v :: l' => res = (SUCCESS, Some v) ∧ q_repr q' l' ∧ q_slots q' = q_slots q
      end) q;
  q_count_spec q l : q_repr q l → q_count q = Z.of_nat (length l);
  q_is_empty_spec q l : q_repr q l → q_is_empty q = bool_decide (l = [])
}.

(** [zval_circular_buffer_push] and [zval_circular_buffer_pop]: the general
    operations on a buffer of zvals.  The pop leaves UNDEF ([None]) on failure;
    the reference the push takes is the one the pop hands over. *)
Definition zval_circular_buffer_push {V} (value : V) (should_resize : bool)
    : M (circular_buffer_t V) zend_result := circular_buffer_push value should_resize.
Definition zval_circular_buffer_pop {V} : M (circular_buffer_t V) (zend_result * option V) :=
  circular_buffer_pop.

#[export] Program Instance circular_buffer_fifo V : FifoBuffer (circular_buffer_t V) V := {|
  q_repr := ring_repr;
  q_slots b := capacity b - 1;
  q_push := zval_circular_buffer_push;
  q_pop := zval_circular_buffer_pop;
  q_count := circular_buffer_count;
  q_is_empty := circular_buffer_is_empty
|}.
Next Obligation.
  intros V b l Hr. pose proof (count_bound _ (proj1 Hr)). rewrite (repr_length _ _ Hr) in *. lia.
Qed.
Next Obligation.
  intros V b l v r Hr. eapply wp_mono; [by apply push_spec|].
  intros res b' [Hres ?]. split; [|done]. destruct res; [|by destruct Hres].
  destruct Hres as [? Hcap]. split; [done|]. intros Hf. by rewrite Hcap.
Qed.
Next Obligation.
  intros V b l Hr. eapply wp_mono; [by apply pop_spec|].
  intros res b' Hres. destruct l; [done|]. destruct Hres as (? & ? & ->). done.
Qed.
Next Obligation. intros V b l Hr. by apply repr_length. Qed.
Next Obligation. intros V b l Hr. by apply repr_is_empty. Qed.

(** A queue that can be constructed with room for a given number of elements. *)
Class FifoCtor (Q V : Type) `{!FifoBuffer Q V} := {
  q_ctor : Z → M Q zend_result;
  q_ctor_spec n q : 1 ≤ n ≤ 2 ^ 31 →
    wp (q_ctor n) (λ r q', r = SUCCESS → q_repr q' [] ∧ n - 1 ≤ q_slots q') q
}.

(** [circular_buffer_ctor (buffer, n, sizeof (zval), allocator)]. *)
Definition sizeof_zval : Z := 16.

Program Definition circular_buffer_fifo_ctor V (allocator : allocator_t)
    (Hok : allocator_ok allocator) : FifoCtor (circular_buffer_t V) V := {|
  q_ctor n := circular_buffer_ctor allocator n sizeof_zval (Some allocator)
|}.
Next Obligation.
  intros V allocator Hok n q Hn. wp_apply ctor_spec; [lia|done|done|].
  intros r q' Hr ->. destruct Hr as (Hr & Hcap & _). split; [done|]. cbn.
  unfold requested in Hcap. destruct (Z.leb_spec n 0); lia.
Qed.

(** ** Properties *)

(** An operation of the buffer and its abstract counterpart on a deque. *)
Inductive ring_op (V : Type) := OpPush (v : V) (r : bool) | OpPushFront (v : V) (r : bool) | OpPop.
Arguments OpPush {V}. Arguments OpPushFront {V}. Arguments OpPop {V}.

Definition run_op {V} (o : ring_op V) : M (circular_buffer_t V) (zend_result * option V) :=
  match o with
  | OpPush v r => res ← circular_buffer_push v r; mret (res, None)
  | OpPushFront v r => res ← circular_buffer_push_front v r; mret (res, None)
  | OpPop => circular_buffer_pop
  end.

Fixpoint run_ops {V} (os : list (ring_op V)) : M (circular_buffer_t V) (list (zend_result * option V)) :=
  match os with
  | [] => mret []
  | o :: os => r ← run_op o; rs ← run_ops os; mret (r :: rs)
  end.

(** The deque: a push may fail, and then changes nothing; a pop fails exactly on
    the empty deque. *)
Definition deque_step {V} (o : ring_op V) (l : list V) (r : zend_result * option V) (l' : list V) : Prop :=
  match o, l, r with
  | OpPush v _, _, (SUCCESS, None) => l' = l ++ [v]
  | OpPushFront v _, _, (SUCCESS, None) => l' = v :: l
  | OpPush _ _, _, (FAILURE, None) | OpPushFront _ _, _, (FAILURE, None) => l' = l
  | OpPop, [], (FAILURE, None) => l' = []
  | OpPop, v :: tl, (SUCCESS, Some v') => v' = v ∧ l' = tl
  | _, _, _ => False
  end.

Inductive deque_run {V} : list (ring_op V) → list V → list (zend_result * option V) → list V → Prop :=
| deque_nil l : deque_run [] l [] l
| deque_cons o os l r l1 rs l2 :
    deque_step o l r l1 → deque_run os l1 rs l2 → deque_run (o :: os) l (r :: rs) l2.

Lemma run_op_refines {V} (o : ring_op V) b l : ring_repr b l →
  wp (run_op o) (λ r b', ∃ l', deque_step o l r l' ∧ ring_repr b' l') b.
Proof.
  intros Hr. destruct o as [v f|v f|]; simpl; wp_simpl.
  - eapply wp_mono; [by apply push_spec|]. intros [] b' [H _]; wp_simpl; [naive_solver|].
    destruct H as [-> _]. by exists l.
  - eapply wp_mono; [by apply push_front_spec|]. intros [] b' [H _]; wp_simpl; [naive_solver|].
    destruct H as [-> _]. by exists l.
  - eapply wp_mono; [by apply pop_spec|]. intros r b' H. destruct l; naive_solver.
Qed.

(** C4 Every sequence of pushes, front pushes and pops on a well-formed buffer,
    with any mix of resizing and fixed-size pushes, runs without a failed
    assertion or an access outside the block, and its results are those of a
    deque: growing, shrinking and wrapping around are invisible. *)
Theorem ring_refines_deque {V} (os : list (ring_op V)) b l :
  ring_repr b l →
  ∃ rs b' l', run_ops os b = Some (rs, b') ∧ deque_run os l rs l' ∧ ring_repr b' l'.
Proof.
  intros Hr. cut (wp (run_ops os) (λ rs b', ∃ l', deque_run os l rs l' ∧ ring_repr b' l') b).
  { rewrite wp_run. intros (rs & b' & ? & l' & ? & ?). by exists rs, b', l'. }
  revert b l Hr. induction os as [|o os IH]; intros b l Hr; simpl; wp_simpl.
  { exists l. split; [constructor|done]. }
  eapply wp_mono; [by apply run_op_refines|]. intros r b1 (l1 & ? & Hr1). wp_simpl.
  eapply wp_mono; [by apply IH|]. intros rs b2 (l2 & ? & ?). wp_simpl.
  exists l2. split; [by econstructor|done].
Qed.

(** A concrete allocator and a concrete wrapped buffer for the witnesses:
    four slots, [tail = 3], [head = 1], holding 7 and 8. *)
Definition demo_allocator : allocator_t := {|
  m_alloc n := n <? 2 ^ 63; m_calloc n s := n * s <? 2 ^ 63; m_realloc n _ := n <? 2 ^ 63 |}.

Lemma demo_allocator_ok : allocator_ok demo_allocator.
Proof. constructor; intros *; simpl; apply Z.ltb_lt. Qed.

Definition demo_ring : circular_buffer_t Z :=
  mk_circular_buffer 16 4 4 true 0 demo_allocator (Some [Some 8; None; None; Some 7]) 1 3.

Lemma demo_ring_repr : ring_repr demo_ring [7; 8].
Proof.
  split; [|done]. constructor; simpl; try lia; try (by exists 2);
    [by eexists|done|apply demo_allocator_ok].
Qed.

Lemma ring_refines_deque_witness :
  ∃ rs b' l', run_ops [OpPush 9 true; OpPushFront 6 true; OpPop; OpPop] demo_ring = Some (rs, b')
    ∧ deque_run [OpPush 9 true; OpPushFront 6 true; OpPop; OpPop] [7; 8] rs l' ∧ ring_repr b' l'.
Proof. exact (ring_refines_deque _ demo_ring [7; 8] demo_ring_repr). Defined.

(** A push that may resize fails only when the allocator refuses a block of
    at most twice the current size; a push that may not resize fails exactly
    when the buffer holds [capacity - 1] items.  Either way a failed push leaves
    the buffer untouched, and a successful one appends. *)
Theorem push_succeeds_iff_room {V} (b : circular_buffer_t V) l v r :
  ring_repr b l →
  ∃ res b', circular_buffer_push v r b = Some (res, b') ∧
    (res = SUCCESS → ring_repr b' (l ++ [v])) ∧
    (res = FAILURE → b' = b) ∧
    (r = true → res = FAILURE → refused b) ∧
    (r = false → (res = FAILURE ↔ Z.of_nat (length l) = circular_buffer_capacity b)).
Proof.
  intros Hr. pose proof (push_spec b l v r Hr) as Hw. apply wp_run in Hw as (res & b' & Hrun & Hres & Hiff).
  pose proof (count_bound _ (proj1 Hr)) as Hc. rewrite (repr_length _ _ Hr) in Hc.
  pose proof (ok_cap_bound _ (proj1 Hr)).
  exists res, b'. unfold circular_buffer_capacity. rewrite u64_small by lia.
  split; [done|]. destruct res; [destruct Hres as [? _]|destruct Hres as [-> ?]].
  - split_and!; [done..|]. intros Hf. split; [done|]. specialize (proj1 (Hiff Hf) eq_refl). lia.
  - split_and!; [done..|auto|]. intros Hf. split; [|done]. intros _.
    destruct (decide (Z.of_nat (length l) < capacity b - 1)) as [Hlt|]; [|lia].
    by apply (Hiff Hf) in Hlt.
Qed.

Lemma push_succeeds_iff_room_witness :
  ∃ res b', circular_buffer_push 9 true demo_ring = Some (res, b') ∧
    (res = SUCCESS → ring_repr b' ([7; 8] ++ [9])) ∧
    (res = FAILURE → b' = demo_ring) ∧
    (true = true → res = FAILURE → refused demo_ring) ∧
    (true = false → (res = FAILURE ↔ Z.of_nat (length [7; 8]) = circular_buffer_capacity demo_ring)).
Proof. exact (push_succeeds_iff_room demo_ring [7; 8] 9 true demo_ring_repr). Defined.

(** The inlined pointer push and pop of the header are, on every well-formed
    buffer, the same functions as [circular_buffer_push] without resize and
    [circular_buffer_pop]: same result, same buffer. *)
Theorem fast_paths_agree {V} (b : circular_buffer_t V) v :
  ring_ok b →
  circular_buffer_push_ptr v b = circular_buffer_push v false b ∧
  circular_buffer_pop_ptr b = circular_buffer_pop b.
Proof. intros Hb. split; [by apply push_ptr_push|by apply pop_ptr_pop]. Qed.

Lemma fast_paths_agree_witness :
  circular_buffer_push_ptr 5 demo_ring = circular_buffer_push 5 false demo_ring ∧
  circular_buffer_pop_ptr demo_ring = circular_buffer_pop demo_ring.
Proof. exact (fast_paths_agree demo_ring 5 (proj1 demo_ring_repr)). Defined.

(** The scheduler's queue permutation: swapping two positions in range
    exchanges exactly those two items, so the queue keeps the same coroutines. *)
Theorem swap_permutes_queue {V} (b : circular_buffer_t V) l i j :
  ring_repr b l → 0 ≤ i < Z.of_nat (length l) → 0 ≤ j < Z.of_nat (length l) →
  ∃ b' l', circular_buffer_swap_ptr_at i j b = Some (tt, b') ∧ ring_repr b' l' ∧ l' ≡ₚ l ∧
    l' !! Z.to_nat i = l !! Z.to_nat j ∧ l' !! Z.to_nat j = l !! Z.to_nat i ∧
    ∀ k, k ≠ Z.to_nat i → k ≠ Z.to_nat j → l' !! k = l !! k.
Proof.
  intros Hr Hi Hj. pose proof (swap_spec b l i j Hr Hi Hj) as Hw.
  apply wp_run in Hw as ([] & b' & Hrun & vi & vj & Hvi & Hvj & Hr').
  eexists b', _. split; [done|]. split; [done|]. split_and!.
  - by apply Permutation_insert_swap.
  - rewrite Hvj. destruct (decide (Z.to_nat i = Z.to_nat j)) as [E|].
    + rewrite E in *. rewrite list_lookup_insert_eq by (rewrite length_insert; lia). congruence.
    + rewrite list_lookup_insert_ne, list_lookup_insert_eq by lia. done.
  - rewrite list_lookup_insert_eq by (rewrite length_insert; lia). done.
  - intros k ??. by rewrite !list_lookup_insert_ne by done.
Qed.

Lemma swap_permutes_queue_witness :
  ∃ b' l', circular_buffer_swap_ptr_at 0 1 demo_ring = Some (tt, b') ∧ ring_repr b' l' ∧
    l' ≡ₚ [7; 8] ∧
    l' !! Z.to_nat 0 = [7; 8] !! Z.to_nat 1 ∧ l' !! Z.to_nat 1 = [7; 8] !! Z.to_nat 0 ∧
    ∀ k, k ≠ Z.to_nat 0 → k ≠ Z.to_nat 1 → l' !! k = [7; 8] !! k.
Proof. apply (swap_permutes_queue demo_ring [7; 8] 0 1 demo_ring_repr); simpl; lia. Defined.

(** The walk of the garbage collector handlers from [tail] to [head] ends
    after as many steps as there are items and visits exactly the stored values,
    in queue order. *)
Theorem gc_walk_visits_contents {V} (b : circular_buffer_t V) l :
  ring_repr b l → gc_walk (Z.to_nat (circular_buffer_count b)) (tail b) b = Some (Some <$> l).
Proof. intros Hr. rewrite (repr_length _ _ Hr), Nat2Z.id. by apply gc_walk_spec. Qed.

Lemma gc_walk_visits_contents_witness :
  gc_walk (Z.to_nat (circular_buffer_count demo_ring)) (tail demo_ring) demo_ring
    = Some (Some <$> [7; 8]).
Proof. exact (gc_walk_visits_contents demo_ring [7; 8] demo_ring_repr). Defined.

(** Construction with a requested count up to 2^63 either reports the
    allocator's refusal and leaves the structure alone, or yields an empty
    well-formed buffer whose capacity is the least power of two not below the
    requested count (4 when 0 is requested). *)
Theorem ctor_establishes_empty {V} std count isize al (b : circular_buffer_t V) :
  0 ≤ count ≤ 2 ^ 63 → 0 < isize → allocator_ok (default std al) →
  ∃ r b', circular_buffer_ctor std count isize al b = Some (r, b') ∧
    match r with
    | FAILURE => b' = b ∧ ∃ n, m_calloc (default std al) n isize = false
    | SUCCESS => ring_repr b' [] ∧ requested count ≤ capacity b' < 2 * requested count
    end.
Proof.
  intros Hc Hi Hal. pose proof (ctor_spec std count isize al b Hc Hi Hal) as Hw.
  apply wp_run in Hw as (r & b' & Hrun & Hr). exists r, b'. split; [done|].
  destruct r; [|done]. by destruct Hr as (? & ? & _).
Qed.

Lemma ctor_establishes_empty_witness :
  ∃ r b', circular_buffer_ctor demo_allocator 5 16 None (zeroed demo_allocator : circular_buffer_t Z)
            = Some (r, b') ∧
    match r with
    | FAILURE => b' = zeroed demo_allocator ∧ ∃ n, m_calloc (default demo_allocator None) n 16 = false
    | SUCCESS => ring_repr b' [] ∧ requested 5 ≤ capacity b' < 2 * requested 5
    end.
Proof.
  apply (ctor_establishes_empty demo_allocator 5 16 None); [lia..|apply demo_allocator_ok].
Defined.

(** [round_up_to_power_of_2] returns the least power of two not below a size
    in [1, 2^63]; for a size above 2^63 its loop does not end, whatever the
    number of iterations. *)
Theorem round_up_terminates_iff n :
  0 < n < 2 ^ 64 →
  (n ≤ 2 ^ 63 → ∃ p, round_up_to_power_of_2 n = Some p ∧ pow2 p ∧ n ≤ p < 2 * n) ∧
  (2 ^ 63 < n → ∀ fuel, round_up_loop fuel 1 n = None).
Proof.
  intros Hn. split; intros Hb; [apply round_up_spec; lia|].
  intros fuel. apply round_up_loop_diverges; [done|]. right. exists 0. split; [lia|done].
Qed.

Lemma round_up_terminates_iff_witness :
  (2 ^ 63 + 1 ≤ 2 ^ 63 → ∃ p, round_up_to_power_of_2 (2 ^ 63 + 1) = Some p ∧ pow2 p ∧
                               2 ^ 63 + 1 ≤ p < 2 * (2 ^ 63 + 1)) ∧
  (2 ^ 63 < 2 ^ 63 + 1 → ∀ fuel, round_up_loop fuel 1 (2 ^ 63 + 1) = None).
Proof. apply (round_up_terminates_iff (2 ^ 63 + 1)). lia. Defined.
