(* ===== verification/Channel.v ===== *)
(** * The channel: [src/channel.c] and [src/channel.h]

    A channel passes values between coroutines of one thread.  Its C state is
    [async_channel_t]; the model adds what the C code keeps elsewhere: the heap
    of waiters ([waiters], shared by the queues and the suspended frames), the
    coroutines suspended inside [channel_wait_for] ([parked_receivers] and
    [parked_senders]) and the history [out] of calls into the engine.

    A C function that suspends is split at the suspension: [channel_wait_for] is
    [wait_for_park] before [ZEND_ASYNC_SUSPEND] and [wait_for_resume] after it,
    and send, recv and the iterator are their code up to the suspension
    ([send_retry], [recv_retry], [iter_retry]).  Between two suspensions nothing
    else runs, so each part is one atomic step; [exec] is the step function and
    [reachable] the states any interleaving can produce.

    Reference counts and the growth of the vectors behind the queues are not
    modelled: a queue is a list of waiter identifiers, and a waiter, once
    allocated, stays in the heap. *)

From S2P Require Import Prelude CircularBuffer.
From stdpp Require Import strings.

Local Open Scope Z_scope.
Local Open Scope c_scope.

(** ** Data *)

Inductive channel_close_reason_t :=
| CHANNEL_CLOSE_EXPLICIT
| CHANNEL_CLOSE_DISPOSED
| CHANNEL_CLOSE_NO_PRODUCERS
| CHANNEL_CLOSE_NO_CONSUMERS
| CHANNEL_CLOSE_DEADLOCK
| CHANNEL_CLOSE_SCOPE_DISPOSED.

#[export] Instance channel_close_reason_eq_dec : EqDecision channel_close_reason_t.
Proof. solve_decision. Defined.

Definition channel_close_reason_case (reason : channel_close_reason_t) : string :=
  match reason with
  | CHANNEL_CLOSE_EXPLICIT => "EXPLICIT"
  | CHANNEL_CLOSE_DISPOSED => "DISPOSED"
  | CHANNEL_CLOSE_NO_PRODUCERS => "NO_PRODUCERS"
  | CHANNEL_CLOSE_NO_CONSUMERS => "NO_CONSUMERS"
  | CHANNEL_CLOSE_DEADLOCK => "DEADLOCK"
  | CHANNEL_CLOSE_SCOPE_DISPOSED => "SCOPE_DISPOSED"
  end.

(** The exception object: its message and the enum case of its [reason]. *)
Definition make_channel_exception (reason : channel_close_reason_t) : string * string :=
  (match reason with
   | CHANNEL_CLOSE_EXPLICIT => "Channel is closed"
   | CHANNEL_CLOSE_DISPOSED => "Channel disposed"
   | CHANNEL_CLOSE_NO_PRODUCERS => "Channel deadlock: no producers"
   | CHANNEL_CLOSE_NO_CONSUMERS => "Channel deadlock: no consumers"
   | CHANNEL_CLOSE_DEADLOCK => "Channel deadlock"
   | CHANNEL_CLOSE_SCOPE_DISPOSED => "Channel closed: owner scope disposed"
   end, channel_close_reason_case reason).

Record channel_waiter_t := mk_waiter {
  w_future : option nat;   (* None for a coroutine waiter *)
  w_reserved : bool;
  w_delivering : bool
}.

(** Calls into the engine, and the ghost record of every value that enters
    ([Accepted]) or leaves ([Taken], [Dropped]) the channel. *)
Inductive effect (V : Type) :=
| Wake (w : nat) (exception : option (string * string))
| FutureComplete (future : nat) (value : V)
| FutureReject (future : nat) (exception : string * string)
| TimerStart (timeout_ms : Z)
| TimerStop
| Accepted (value : V)
| Taken (value : V)
| Dropped (value : V).
Arguments Wake {V}. Arguments FutureComplete {V}. Arguments FutureReject {V}.
Arguments TimerStart {V}. Arguments TimerStop {V}. Arguments Accepted {V}.
Arguments Taken {V}. Arguments Dropped {V}.

Record async_channel_t (Q V : Type) := mk_channel {
  ch_closed : bool;
  ch_callbacks : list nat;
  ch_capacity : Z;
  ch_buffer : Q;
  rendezvous_value : option V;
  rendezvous_has_value : bool;
  rendezvous_committed : bool;
  waiting_receivers : list nat;
  waiting_senders : list nat;
  reserved_receivers : Z;
  reserved_senders : Z;
  no_producer_timeout_ms : Z;
  no_consumer_timeout_ms : Z;
  hard_timeouts : bool;
  deadlock_timer : bool;
  pending_timeout_reason : channel_close_reason_t;
  in_deadlock_channels : bool;
  close_reason : channel_close_reason_t;
  scope_bound : bool;
  waiters : gmap nat channel_waiter_t;
  next_waiter : nat;
  parked_receivers : list nat;
  parked_senders : list nat;
  out : list (effect V)
}.
Arguments mk_channel {Q V}.
Arguments ch_closed {Q V} _. Arguments ch_callbacks {Q V} _. Arguments ch_capacity {Q V} _.
Arguments ch_buffer {Q V} _. Arguments rendezvous_value {Q V} _.
Arguments rendezvous_has_value {Q V} _. Arguments rendezvous_committed {Q V} _.
Arguments waiting_receivers {Q V} _. Arguments waiting_senders {Q V} _.
Arguments reserved_receivers {Q V} _. Arguments reserved_senders {Q V} _.
Arguments no_producer_timeout_ms {Q V} _. Arguments no_consumer_timeout_ms {Q V} _.
Arguments hard_timeouts {Q V} _. Arguments deadlock_timer {Q V} _.
Arguments pending_timeout_reason {Q V} _. Arguments in_deadlock_channels {Q V} _.
Arguments close_reason {Q V} _. Arguments scope_bound {Q V} _. Arguments waiters {Q V} _.
Arguments next_waiter {Q V} _. Arguments parked_receivers {Q V} _.
Arguments parked_senders {Q V} _. Arguments out {Q V} _.

#[export] Instance async_channel_eta Q V : Eta (async_channel_t Q V) := λ c,
  mk_channel (ch_closed c) (ch_callbacks c) (ch_capacity c) (ch_buffer c) (rendezvous_value c)
    (rendezvous_has_value c) (rendezvous_committed c) (waiting_receivers c)
    (waiting_senders c) (reserved_receivers c) (reserved_senders c) (no_producer_timeout_ms c)
    (no_consumer_timeout_ms c) (hard_timeouts c) (deadlock_timer c) (pending_timeout_reason c)
    (in_deadlock_channels c) (close_reason c) (scope_bound c) (waiters c) (next_waiter c)
    (parked_receivers c) (parked_senders c) (out c).

(** The two waiting queues. *)
Inductive side := Receivers | Senders.

(** The reactor's answers: whether a timer event could be created, and whether
    it could be started, after a given history. *)
Class Reactor (V : Type) := {
  timer_new : list (effect V) → bool;
  timer_start : list (effect V) → bool
}.

Section operations.
Context {V Q : Type} `{!FifoBuffer Q V} `{!Reactor V}.
Implicit Types (c : async_channel_t Q V).


(** *** Field updates *)
Definition set_ch_closed (x : bool) c : async_channel_t Q V :=
  ltac:(record_set c (@ch_closed Q V) x).
Definition set_ch_callbacks (x : list nat) c : async_channel_t Q V :=
  ltac:(record_set c (@ch_callbacks Q V) x).
Definition set_ch_capacity (x : Z) c : async_channel_t Q V :=
  ltac:(record_set c (@ch_capacity Q V) x).
Definition set_ch_buffer (x : Q) c : async_channel_t Q V :=
  ltac:(record_set c (@ch_buffer Q V) x).
Definition set_rendezvous_value (x : option V) c : async_channel_t Q V :=
  ltac:(record_set c (@rendezvous_value Q V) x).
Definition set_rendezvous_has_value (x : bool) c : async_channel_t Q V :=
  ltac:(record_set c (@rendezvous_has_value Q V) x).
Definition set_rendezvous_committed (x : bool) c : async_channel_t Q V :=
  ltac:(record_set c (@rendezvous_committed Q V) x).
Definition set_waiting_receivers (x : list nat) c : async_channel_t Q V :=
  ltac:(record_set c (@waiting_receivers Q V) x).
Definition set_waiting_senders (x : list nat) c : async_channel_t Q V :=
  ltac:(record_set c (@waiting_senders Q V) x).
Definition set_reserved_receivers (x : Z) c : async_channel_t Q V :=
  ltac:(record_set c (@reserved_receivers Q V) x).
Definition set_reserved_senders (x : Z) c : async_channel_t Q V :=
  ltac:(record_set c (@reserved_senders Q V) x).
Definition set_no_producer_timeout_ms (x : Z) c : async_channel_t Q V :=
  ltac:(record_set c (@no_producer_timeout_ms Q V) x).
Definition set_no_consumer_timeout_ms (x : Z) c : async_channel_t Q V :=
  ltac:(record_set c (@no_consumer_timeout_ms Q V) x).
Definition set_hard_timeouts (x : bool) c : async_channel_t Q V :=
  ltac:(record_set c (@hard_timeouts Q V) x).
Definition set_deadlock_timer (x : bool) c : async_channel_t Q V :=
  ltac:(record_set c (@deadlock_timer Q V) x).
Definition set_pending_timeout_reason (x : channel_close_reason_t) c : async_channel_t Q V :=
  ltac:(record_set c (@pending_timeout_reason Q V) x).
Definition set_in_deadlock_channels (x : bool) c : async_channel_t Q V :=
  ltac:(record_set c (@in_deadlock_channels Q V) x).
Definition set_close_reason (x : channel_close_reason_t) c : async_channel_t Q V :=
  ltac:(record_set c (@close_reason Q V) x).
Definition set_scope_bound (x : bool) c : async_channel_t Q V :=
  ltac:(record_set c (@scope_bound Q V) x).
Definition set_waiters (x : gmap nat channel_waiter_t) c : async_channel_t Q V :=
  ltac:(record_set c (@waiters Q V) x).
Definition set_next_waiter (x : nat) c : async_channel_t Q V :=
  ltac:(record_set c (@next_waiter Q V) x).
Definition set_parked_receivers (x : list nat) c : async_channel_t Q V :=
  ltac:(record_set c (@parked_receivers Q V) x).
Definition set_parked_senders (x : list nat) c : async_channel_t Q V :=
  ltac:(record_set c (@parked_senders Q V) x).
Definition set_out (x : list (effect V)) c : async_channel_t Q V :=
  ltac:(record_set c (@out Q V) x).

Local Abbreviation CM := (M (async_channel_t Q V)).

Definition queue_of (s : side) c : list nat :=
  match s with Receivers => waiting_receivers c | Senders => waiting_senders c end.
Definition set_queue (s : side) (q : list nat) c : async_channel_t Q V :=
  match s with Receivers => set_waiting_receivers q c | Senders => set_waiting_senders q c end.
Definition parked_of (s : side) c : list nat :=
  match s with Receivers => parked_receivers c | Senders => parked_senders c end.
Definition set_parked (s : side) (q : list nat) c : async_channel_t Q V :=
  match s with Receivers => set_parked_receivers q c | Senders => set_parked_senders q c end.

Definition emit (e : effect V) : CM unit := modify (λ c, set_out (out c ++ [e]) c).

Definition waiter (w : nat) : CM channel_waiter_t := c ← get; of_option (waiters c !! w).
Definition set_waiter (w : nat) (x : channel_waiter_t) : CM unit :=
  modify (λ c, set_waiters (<[w := x]> (waiters c)) c).

(** [event.del_callback]: a waiter is registered at most once. *)
Definition del_callback (w : nat) : CM unit :=
  modify (λ c, set_ch_callbacks (filter (.≠ w) (ch_callbacks c)) c).
Definition add_callback (w : nat) : CM unit :=
  modify (λ c, set_ch_callbacks (ch_callbacks c ++ [w]) c).

(** *** Helpers *)
Definition channel_is_buffered c : bool := 0 <? ch_capacity c.

Definition channel_is_empty c : bool :=
  if channel_is_buffered c then q_is_empty (ch_buffer c) else negb (rendezvous_has_value c).

Definition channel_is_full c : bool :=
  if channel_is_buffered c then ch_capacity c <=? q_count (ch_buffer c)
  else rendezvous_has_value c.

Definition channel_count c : Z :=
  if channel_is_buffered c then q_count (ch_buffer c)
  else if rendezvous_has_value c then 1 else 0.

Definition channel_free_space c : Z :=
  if channel_is_buffered c then ch_capacity c ⊖ q_count (ch_buffer c)
  else if rendezvous_has_value c then 0 else 1.

Definition channel_has_free_value c : bool := reserved_receivers c <? channel_count c.
Definition channel_has_free_slot c : bool := reserved_senders c <? channel_free_space c.

(** The moved value; [None] is an UNDEF result. *)
Definition channel_take_value : CM (option V) :=
  c ← get;
  v ← (if channel_is_buffered c then
         r ← zoom ch_buffer set_ch_buffer q_pop; mret r.2
       else
         modify (set_rendezvous_value None);;
         modify (set_rendezvous_has_value false);;
         modify (set_rendezvous_committed false);;
         mret (rendezvous_value c));
  match v with Some x => emit (Taken x) | None => mret tt end;;
  mret v.

(** Dropping an uncommitted rendezvous value: [zval_ptr_dtor], UNDEF. *)
Definition drop_rendezvous_value : CM unit :=
  c ← get;
  match rendezvous_value c with Some x => emit (Dropped x) | None => mret tt end;;
  modify (set_rendezvous_value None);;
  modify (set_rendezvous_has_value false).

(** *** Queue operations *)
Definition channel_queue_push (s : side) (w : nat) : CM unit :=
  modify (λ c, set_queue s (queue_of s c ++ [w]) c).

Definition channel_queue_remove_at (q : list nat) (index : nat) : list nat :=
  let len := (length q - 1)%nat in
  if (index <? len)%nat then take index q ++ drop (S index) q else take len q.

Fixpoint channel_queue_first_unreserved (ws : gmap nat channel_waiter_t) (q : list nat)
    : option (option nat) :=
  match q with
  | [] => Some None
  | w :: q =>
    x ← ws !! w;
    if negb (w_reserved x) && negb (w_delivering x) then Some (Some w)
    else channel_queue_first_unreserved ws q
  end.

Fixpoint channel_queue_delivering (ws : gmap nat channel_waiter_t) (q : list nat)
    : option (option nat) :=
  match q with
  | [] => Some None
  | w :: q =>
    x ← ws !! w;
    if w_delivering x then Some (Some w) else channel_queue_delivering ws q
  end.

(** The index of [w] in the queue, if any. *)
Fixpoint queue_index (w : nat) (q : list nat) (i : nat) : option nat :=
  match q with
  | [] => None
  | x :: q => if (x =? w)%nat then Some i else queue_index w q (S i)
  end.

Definition channel_queue_remove (s : side) (w : nat) : CM bool :=
  c ← get;
  match queue_index w (queue_of s c) 0 with
  | Some i => modify (set_queue s (channel_queue_remove_at (queue_of s c) i));; mret true
  | None => mret false
  end.

(** *** Deadlock timer *)
Definition channel_disarm_deadlock_timer : CM unit :=
  c ← get;
  if negb (deadlock_timer c) then mret tt
  else
    emit TimerStop;;
    modify (set_deadlock_timer false);;
    modify (set_in_deadlock_channels false).

Definition channel_arm_deadlock_timer (reason : channel_close_reason_t) (timeout_ms : Z) : CM unit :=
  c ← get;
  if (timeout_ms <=? 0) || deadlock_timer c || ch_closed c then mret tt
  else if negb (timer_new (out c)) then mret tt
  else
    when (negb (hard_timeouts c)) (modify (set_in_deadlock_channels true));;
    if negb (timer_start (out c)) then mret tt
    else
      emit (TimerStart timeout_ms);;
      modify (set_deadlock_timer true);;
      modify (set_pending_timeout_reason reason).

Definition channel_refresh_deadlock_timer : CM unit :=
  c ← get;
  let has_recv := reserved_receivers c <? Z.of_nat (length (waiting_receivers c)) in
  let has_send := reserved_senders c <? Z.of_nat (length (waiting_senders c)) in
  if negb has_recv && negb has_send then channel_disarm_deadlock_timer
  else
    let reason := if has_recv then CHANNEL_CLOSE_NO_PRODUCERS else CHANNEL_CLOSE_NO_CONSUMERS in
    let timeout := if has_recv then no_producer_timeout_ms c else no_consumer_timeout_ms c in
    if deadlock_timer c && bool_decide (pending_timeout_reason c = reason) then mret tt
    else
      when (deadlock_timer c) channel_disarm_deadlock_timer;;
      channel_arm_deadlock_timer reason timeout.

(** *** Wake operations *)

(** Acknowledges the rendezvous sender whose value was just taken. *)
Definition channel_wake_delivered_sender : CM unit :=
  c ← get;
  if channel_is_buffered c || rendezvous_has_value c then mret tt
  else
    found ← of_option (channel_queue_delivering (waiters c) (waiting_senders c));
    match found with
    | None => mret tt
    | Some w =>
      channel_queue_remove Senders w;;
      del_callback w;;
      emit (Wake w None);;
      channel_refresh_deadlock_timer
    end.

Definition channel_wake_sender : CM unit :=
  channel_wake_delivered_sender;;
  c ← get;
  if negb (channel_has_free_slot c) then mret tt
  else
    found ← of_option (channel_queue_first_unreserved (waiters c) (waiting_senders c));
    match found with
    | None => mret tt
    | Some w =>
      del_callback w;;
      x ← waiter w;
      set_waiter w (mk_waiter (w_future x) true (w_delivering x));;
      modify (λ c, set_reserved_senders (u32 (reserved_senders c + 1)) c);;
      emit (Wake w None);;
      channel_refresh_deadlock_timer
    end.

Definition channel_wake_receiver : CM bool :=
  c ← get;
  if negb (channel_has_free_value c) then mret false
  else
    found ← of_option (channel_queue_first_unreserved (waiters c) (waiting_receivers c));
    match found with
    | None => mret false
    | Some w =>
      x ← waiter w;
      match w_future x with
      | Some future =>
        channel_queue_remove Receivers w;;
        del_callback w;;
        v ← channel_take_value;
        value ← of_option v;
        emit (FutureComplete future value);;
        channel_wake_sender;;
        channel_refresh_deadlock_timer;;
        mret true
      | None =>
        del_callback w;;
        set_waiter w (mk_waiter (w_future x) true (w_delivering x));;
        modify (λ c, set_reserved_receivers (u32 (reserved_receivers c + 1)) c);;
        emit (Wake w None);;
        channel_refresh_deadlock_timer;;
        mret true
      end
    end.

(** The two walks of [channel_wake_all], from the tail; [index] is the loop
    variable. *)
Fixpoint wake_all_receivers (index : nat) (exception : string * string) : CM unit :=
  match index with
  | O => mret tt
  | S index =>
    c ← get;
    w ← of_option (waiting_receivers c !! index);
    x ← waiter w;
    (if w_reserved x then mret tt
     else
       modify (set_waiting_receivers (channel_queue_remove_at (waiting_receivers c) index));;
       del_callback w;;
       match w_future x with
       | Some future => emit (FutureReject future exception)
       | None => emit (Wake w (Some exception))
       end);;
    wake_all_receivers index exception
  end.

Fixpoint wake_all_senders (index : nat) (exception : string * string) : CM unit :=
  match index with
  | O => mret tt
  | S index =>
    c ← get;
    w ← of_option (waiting_senders c !! index);
    modify (set_waiting_senders (channel_queue_remove_at (waiting_senders c) index));;
    del_callback w;;
    emit (Wake w (Some exception));;
    wake_all_senders index exception
  end.

(** [ZEND_ASYNC_CALLBACKS_NOTIFY]: every callback still registered. *)
Fixpoint notify_callbacks (cbs : list nat) (exception : string * string) : CM unit :=
  match cbs with
  | [] => mret tt
  | w :: cbs => emit (Wake w (Some exception));; notify_callbacks cbs exception
  end.

Definition channel_wake_all (exception : string * string) : CM unit :=
  c ← get;
  wake_all_receivers (length (waiting_receivers c)) exception;;
  c ← get;
  wake_all_senders (length (waiting_senders c)) exception;;
  c ← get;
  notify_callbacks (ch_callbacks c) exception.

Definition channel_close (reason : channel_close_reason_t) : CM unit :=
  c ← get;
  if ch_closed c then mret tt
  else
    modify (set_close_reason reason);;
    modify (set_ch_closed true);;
    channel_disarm_deadlock_timer;;
    channel_wake_all (make_channel_exception reason);;
    c ← get;
    when (rendezvous_has_value c && negb (rendezvous_committed c)) drop_rendezvous_value.

Definition channel_deadlock_fire : CM unit :=
  c ← get;
  if ch_closed c then mret tt else channel_close (pending_timeout_reason c).

(** *** Owner scope binding *)
Definition channel_scope_close_fire : CM unit := channel_close CHANNEL_CLOSE_SCOPE_DISPOSED.
Definition channel_scope_close_dispose : CM unit := modify (set_scope_bound false).

(** [current] and [main] are the closed flags of the current and the main
    scope, when there are such scopes. *)
Definition channel_bind_to_owner_scope (current main : option bool) : CM unit :=
  match (match current with Some s => Some s | None => main end) with
  | None | Some true => mret tt
  | Some false => modify (set_scope_bound true)
  end.

Definition channel_unbind_from_owner_scope : CM unit :=
  c ← get; if negb (scope_bound c) then mret tt else modify (set_scope_bound false).

(** *** Wait operations *)

(** Up to [ZEND_ASYNC_SUSPEND]; [None] when the token had fired. *)
Definition wait_for_park (s : side) (token_fired delivering : bool) : CM (option nat) :=
  if token_fired then mret None
  else
    c ← get;
    let w := next_waiter c in
    modify (set_next_waiter (S w));;
    set_waiter w (mk_waiter None false delivering);;
    channel_queue_push s w;;
    channel_refresh_deadlock_timer;;
    add_callback w;;
    modify (λ c, set_parked s (parked_of s c ++ [w]) c);;
    mret (Some w).

(** From the return of [ZEND_ASYNC_SUSPEND] with [exn] telling whether an
    exception is pending.  The waker has dropped the event callback by then. *)
Definition wait_for_resume (s : side) (w : nat) (exn : bool) : CM bool :=
  modify (λ c, set_parked s (filter (.≠ w) (parked_of s c)) c);;
  del_callback w;;
  x ← waiter w;
  let had_reservation := w_reserved x in
  was_queued ← channel_queue_remove s w;
  (if w_delivering x && exn && was_queued then
     c ← get;
     when (rendezvous_has_value c && negb (rendezvous_committed c)) drop_rendezvous_value
   else mret tt);;
  c ← get;
  (if had_reservation then
     match s with
     | Receivers =>
       ZEND_ASSERT (0 <? reserved_receivers c);;
       modify (set_reserved_receivers (u32 (reserved_receivers c - 1)))
     | Senders =>
       ZEND_ASSERT (0 <? reserved_senders c);;
       modify (set_reserved_senders (u32 (reserved_senders c - 1)))
     end
   else mret tt);;
  let spent := had_reservation && negb exn in
  (if ((w_delivering x && was_queued) || (had_reservation && negb spent)) && negb (ch_closed c)
   then match s with
        | Receivers => channel_wake_receiver;; mret tt
        | Senders => channel_wake_sender
        end
   else mret tt);;
  channel_refresh_deadlock_timer;;
  mret spent.

(** *** The API *)

(** The end of a call, or its suspension on waiter [w]. *)
Inductive outcome (A : Type) :=
| Done (a : A)
| ThrowClosed (exception : string * string)
| ThrowPending                     (* the exception already in [EG(exception)] *)
| Parked (w : nat) (delivering : bool).

Definition parked {A} (delivering : bool) (o : option nat) : outcome A :=
  match o with Some w => Parked A w delivering | None => ThrowPending A end.

(** Storing a value: [zval_circular_buffer_push] or the rendezvous slot. *)
Definition send_store (value : V) : CM unit :=
  c ← get;
  if channel_is_buffered c then
    r ← zoom ch_buffer set_ch_buffer (q_push value false);
    match r with SUCCESS => emit (Accepted value) | FAILURE => mret tt end
  else
    modify (set_rendezvous_value (Some value));;
    modify (set_rendezvous_has_value true);;
    modify (set_rendezvous_committed false);;
    emit (Accepted value).

(** [send] from its [retry] label to its end or its next suspension. *)
Definition send_retry (value : V) (token_fired has_reservation : bool) : CM (outcome unit) :=
  c ← get;
  if ch_closed c then mret (ThrowClosed unit (make_channel_exception (close_reason c)))
  else if has_reservation || channel_has_free_slot c then
    if channel_is_buffered c then
      send_store value;;
      channel_wake_receiver;;
      mret (Done unit tt)
    else
      ZEND_ASSERT (negb (rendezvous_has_value c));;
      send_store value;;
      woken ← channel_wake_receiver;
      if (woken : bool) then
        modify (λ c, set_rendezvous_committed (rendezvous_has_value c) c);;
        mret (Done unit tt)
      else
        o ← wait_for_park Senders token_fired true;
        mret (parked true o)
  else
    o ← wait_for_park Senders token_fired false;
    mret (parked false o).

Definition send (value : V) (token_fired : bool) : CM (outcome unit) :=
  if token_fired then mret (ThrowPending unit) else send_retry value token_fired false.

(** [send] resumed from waiter [w]. *)
Definition send_resume (value : V) (w : nat) (delivering token_fired exn : bool) : CM (outcome unit) :=
  has_reservation ← wait_for_resume Senders w exn;
  if exn then mret (ThrowPending unit)
  else if delivering then mret (Done unit tt)
  else send_retry value token_fired has_reservation.

Definition sendAsync (value : V) : CM bool :=
  c ← get;
  if ch_closed c then mret false
  else if negb (channel_has_free_slot c) then mret false
  else if channel_is_buffered c then
    send_store value;;
    channel_wake_receiver;;
    mret true
  else
    send_store value;;
    woken ← channel_wake_receiver;
    when woken (modify (λ c, set_rendezvous_committed (rendezvous_has_value c) c));;
    mret true.

Definition recv_retry (token_fired has_reservation : bool) : CM (outcome V) :=
  c ← get;
  if has_reservation || channel_has_free_value c then
    ZEND_ASSERT (negb (channel_is_empty c));;
    v ← channel_take_value;
    value ← of_option v;
    channel_wake_sender;;
    mret (Done V value)
  else if ch_closed c then mret (ThrowClosed V (make_channel_exception (close_reason c)))
  else
    o ← wait_for_park Receivers token_fired false;
    mret (parked false o).

Definition recv (token_fired : bool) : CM (outcome V) :=
  if token_fired then mret (ThrowPending V) else recv_retry token_fired false.

Definition recv_resume (w : nat) (token_fired exn : bool) : CM (outcome V) :=
  has_reservation ← wait_for_resume Receivers w exn;
  if exn then mret (ThrowPending V) else recv_retry token_fired has_reservation.

(** [future] is the future the call creates. *)
Definition recvAsync (future : nat) : CM unit :=
  c ← get;
  if channel_has_free_value c then
    v ← channel_take_value;
    value ← of_option v;
    channel_wake_sender;;
    emit (FutureComplete future value)
  else if ch_closed c then emit (FutureReject future (make_channel_exception (close_reason c)))
  else
    let w := next_waiter c in
    modify (set_next_waiter (S w));;
    set_waiter w (mk_waiter (Some future) false false);;
    channel_queue_push Receivers w.

(** The user drops the future of waiter [w] before the channel resolved it. *)
Definition channel_recv_future_dispose (w : nat) : CM unit :=
  removed ← channel_queue_remove Receivers w;
  when removed (del_callback w).

(** The result of a step of the iterator: a value, or the end ([None]), with
    the exception left pending. *)
Inductive iter_result := IterValue (value : V) | IterEnd (propagates : bool) | IterParked (w : nat).

Definition iter_retry (has_reservation : bool) : CM iter_result :=
  c ← get;
  if has_reservation || channel_has_free_value c then
    v ← channel_take_value;
    value ← of_option v;
    channel_wake_sender;;
    mret (IterValue value)
  else if ch_closed c then mret (IterEnd false)
  else
    o ← wait_for_park Receivers false false;
    mret (match o with Some w => IterParked w | None => IterEnd true end).

(** [exn] is [Some b] with a pending exception, [b] telling whether it is a
    ChannelException. *)
Definition iter_resume (w : nat) (exn : option bool) : CM iter_result :=
  has_reservation ← wait_for_resume Receivers w (bool_decide (is_Some exn));
  match exn with
  | Some is_channel_exception =>
    c ← get;
    mret (IterEnd (negb (is_channel_exception &&
                         bool_decide (close_reason c = CHANNEL_CLOSE_EXPLICIT))))
  | None => iter_retry has_reservation
  end.

(** *** Construction *)
Inductive construct_error := ArgumentError (n : Z) | BufferError.

(** [buf0] is the uninitialised buffer. *)
Definition async_channel_create_object (buf0 : Q) : async_channel_t Q V :=
  mk_channel false [] 0 buf0 None false false [] [] 0 0 0 0 false false CHANNEL_CLOSE_EXPLICIT
    false CHANNEL_CLOSE_EXPLICIT false ∅ 0%nat [] [] [].

(** [__construct] on the object [create_object] made. *)
Definition channel_construct `{!FifoCtor Q V} (buf0 : Q)
    (capacity no_producer_timeout no_consumer_timeout : Z) (hard : bool)
    (current main : option bool) : option (construct_error + async_channel_t Q V) :=
  if (capacity <? 0) || (INT32_MAX <? capacity) then Some (inl (ArgumentError 1))
  else if (no_producer_timeout <? 0) || (INT32_MAX <? no_producer_timeout)
  then Some (inl (ArgumentError 2))
  else if (no_consumer_timeout <? 0) || (INT32_MAX <? no_consumer_timeout)
  then Some (inl (ArgumentError 3))
  else
    let c := set_hard_timeouts hard
      (set_no_consumer_timeout_ms (i32 no_consumer_timeout)
        (set_no_producer_timeout_ms (i32 no_producer_timeout)
          (set_ch_capacity (i32 capacity) (async_channel_create_object buf0)))) in
    '(result, buf) ←
      (if 0 <? capacity then q_ctor (capacity + 1) (ch_buffer c) else Some (SUCCESS, ch_buffer c));
    match result with
    | FAILURE => Some (inl BufferError)
    | SUCCESS =>
      '(_, c) ← channel_bind_to_owner_scope current main (set_ch_buffer buf c);
      Some (inr c)
    end.

(** *** Destruction and the global deadlock resolver *)

(** The drain loop of [free_object]: pops until the buffer is empty or a pop
    fails; every popped value is released. *)
Fixpoint drain_buffer (fuel : nat) : CM unit :=
  match fuel with
  | O => undefined
  | S fuel =>
    c ← get;
    if q_is_empty (ch_buffer c) then mret tt
    else
      r ← zoom ch_buffer set_ch_buffer q_pop;
      match r with
      | (SUCCESS, Some x) => emit (Dropped x);; drain_buffer fuel
      | _ => mret tt
      end
  end.

(** [channel_free_queues] frees the vectors, [zend_async_callbacks_free] the
    callbacks.  The fuel is one more than the number of values held. *)
Definition async_channel_free_object : CM unit :=
  channel_unbind_from_owner_scope;;
  channel_disarm_deadlock_timer;;
  modify (set_ch_callbacks []);;
  modify (set_waiting_receivers []);;
  modify (set_waiting_senders []);;
  c ← get;
  if channel_is_buffered c then drain_buffer (S (Z.to_nat (q_count (ch_buffer c))))
  else
    when (rendezvous_has_value c)
      (match rendezvous_value c with Some x => emit (Dropped x) | None => mret tt end).

(** [async_channel_resolve_deadlocks] over the channels of the thread; the
    registry is the set of those with [in_deadlock_channels]. *)
Fixpoint async_channel_resolve_deadlocks (cs : list (async_channel_t Q V))
    : option (bool * list (async_channel_t Q V)) :=
  match cs with
  | [] => Some (false, [])
  | c :: cs =>
    '(closed, c') ←
      (if in_deadlock_channels c && negb (ch_closed c) then
         '(_, c') ← channel_close CHANNEL_CLOSE_DEADLOCK c; Some (true, c')
       else Some (false, c));
    '(resolved, cs') ← async_channel_resolve_deadlocks cs;
    Some (closed || resolved, c' :: cs')
  end.

(** *** The channel and the coroutines suspended on it *)
Inductive frame := FRecv | FIter | FSend (value : V) (delivering : bool).

Record sys := mk_sys { s_chan : async_channel_t Q V; s_frames : gmap nat frame }.

Inductive op :=
| OSend (value : V) (token_fired : bool)
| OSendAsync (value : V)
| ORecv (token_fired : bool)
| ORecvAsync (future : nat)
| OIter
| OClose (reason : channel_close_reason_t)
| OTimerFire
| ODisposeFuture (w : nat)
| OResume (w : nat) (token_fired : bool) (exn : option bool).

Definition frame_of_outcome {A} (f : bool → frame) (o : outcome A) : option (nat * frame) :=
  match o with Parked _ w d => Some (w, f d) | _ => None end.
Definition frame_of_iter (o : iter_result) : option (nat * frame) :=
  match o with IterParked w => Some (w, FIter) | _ => None end.

Definition run_frame {A} (fs : gmap nat frame) (f : A → option (nat * frame)) (m : CM A) c : option sys :=
  '(a, c) ← m c;
  Some (mk_sys c (match f a with Some (w, fr) => <[w := fr]> fs | None => fs end)).

Definition exec (o : op) (s : sys) : option sys :=
  let c := s_chan s in
  let fs := s_frames s in
  let quiet {A} (m : CM A) := run_frame fs (λ _, None) m c in
  match o with
  | OSend v t => run_frame fs (frame_of_outcome (FSend v)) (send v t) c
  | OSendAsync v => quiet (sendAsync v)
  | ORecv t => run_frame fs (frame_of_outcome (λ _, FRecv)) (recv t) c
  | ORecvAsync f => quiet (recvAsync f)
  | OIter => run_frame fs frame_of_iter (iter_retry false) c
  | OClose r => quiet (channel_close r)
  | OTimerFire => quiet channel_deadlock_fire
  | ODisposeFuture w => quiet (channel_recv_future_dispose w)
  | OResume w t exn =>
    let e := bool_decide (is_Some exn) in
    match fs !! w with
    | Some FRecv => run_frame (delete w fs) (frame_of_outcome (λ _, FRecv)) (recv_resume w t e) c
    | Some FIter => run_frame (delete w fs) frame_of_iter (iter_resume w exn) c
    | Some (FSend v d) =>
      run_frame (delete w fs) (frame_of_outcome (FSend v)) (send_resume v w d t e) c
    | None => None
    end
  end.

Definition woken_ok (w : nat) c : bool :=
  existsb (λ e, match e with Wake w' None => (w =? w')%nat | _ => false end) (out c).

(** A suspended coroutine runs again only when its waker was resolved, or with
    an exception (close, cancellation, token) at any time; the timer fires
    only while armed; a future is dropped by its owner. *)
Definition enabled (o : op) (s : sys) : bool :=
  match o with
  | OResume w _ exn =>
    bool_decide (is_Some (s_frames s !! w)) && (bool_decide (is_Some exn) || woken_ok w (s_chan s))
  | OTimerFire => deadlock_timer (s_chan s)
  | ODisposeFuture w => bool_decide (is_Some (waiters (s_chan s) !! w ≫= w_future))
  | _ => true
  end.

Inductive reachable (s0 : sys) : sys → Prop :=
| reach_init : reachable s0 s0
| reach_step s o s' : reachable s0 s → enabled o s = true → exec o s = Some s' → reachable s0 s'.
End operations.
