(* ===== verification/ChannelInvariant.v ===== *)
(** * The invariant of a channel and its preservation

    [Inv er es pc dp c l] says that the channel [c] holds the values [l], that
    its reservation counters agree with the suspended coroutines, and that no
    waiter is left behind while a value or a slot is free for it.  The four
    parameters describe the intermediate states inside one atomic step: [er] and
    [es] reservations already given up by their owner but not yet spent, a
    rendezvous store whose commit flag is still to be written ([pc]) and a taken
    value whose sender is still to be acknowledged ([dp]).  Between steps they
    are [0 0 false false].  One lemma per elementary transition, then one [wp]
    specification per operation of [Channel]. *)

From S2P Require Import Prelude CircularBuffer Channel.
From stdpp Require Import strings.

Local Open Scope Z_scope.

(** ** Views of the waiter heap *)

Definition resv (ws : gmap nat channel_waiter_t) (w : nat) : bool :=
  match ws !! w with Some x => w_reserved x | None => false end.
Definition deliv (ws : gmap nat channel_waiter_t) (w : nat) : bool :=
  match ws !! w with Some x => w_delivering x | None => false end.
Definition fut (ws : gmap nat channel_waiter_t) (w : nat) : option nat :=
  ws !! w ≫= w_future.

(** The number of elements of [l] that satisfy [f]. *)
Definition cnt (f : nat → bool) (l : list nat) : Z :=
  Z.of_nat (length (filter (λ w, f w = true) l)).

Section views.
Implicit Types (ws : gmap nat channel_waiter_t) (w : nat) (f g : nat → bool) (l : list nat).

Lemma resv_insert ws w x w' :
  resv (<[w := x]> ws) w' = if decide (w' = w) then w_reserved x else resv ws w'.
Proof. unfold resv. destruct (decide _) as [->|]; by simplify_map_eq. Qed.
Lemma deliv_insert ws w x w' :
  deliv (<[w := x]> ws) w' = if decide (w' = w) then w_delivering x else deliv ws w'.
Proof. unfold deliv. destruct (decide _) as [->|]; by simplify_map_eq. Qed.
Lemma fut_insert ws w x w' :
  fut (<[w := x]> ws) w' = if decide (w' = w) then w_future x else fut ws w'.
Proof. unfold fut. destruct (decide _) as [->|]; by simplify_map_eq. Qed.

Lemma cnt_ext f g l : (∀ w, w ∈ l → f w = g w) → cnt f l = cnt g l.
Proof.
  intros H. unfold cnt. do 2 f_equal. induction l as [|a l IH]; [done|].
  rewrite !filter_cons, (H a) by set_solver. rewrite IH; [done|]. set_solver.
Qed.
Lemma cnt_app f l l' : cnt f (l ++ l') = cnt f l + cnt f l'.
Proof. unfold cnt. rewrite filter_app, length_app. lia. Qed.
Lemma cnt_cons f w l : cnt f (w :: l) = (if f w then 1 else 0) + cnt f l.
Proof. unfold cnt. rewrite filter_cons. destruct (f w); simpl; lia. Qed.
Lemma cnt_nonneg f l : 0 ≤ cnt f l.
Proof. unfold cnt. lia. Qed.
Lemma cnt_pos f l w : w ∈ l → f w = true → 0 < cnt f l.
Proof.
  intros Hw Hf. unfold cnt.
  assert (w ∈ filter (λ w, f w = true) l) as Hin by by apply list_elem_of_filter.
  destruct (filter _ l); simpl; [set_solver|lia].
Qed.
Lemma cnt_zero f l w : cnt f l ≤ 0 → w ∈ l → f w = false.
Proof. intros Hz Hw. destruct (f w) eqn:E; [|done]. pose proof (cnt_pos f l w Hw E). lia. Qed.

Lemma cnt_remove f w l : NoDup l → w ∈ l →
  cnt f (filter (.≠ w) l) = cnt f l - (if f w then 1 else 0).
Proof.
  intros Hnd Hw. induction l as [|a l IH]; [set_solver|].
  apply NoDup_cons in Hnd as [Ha Hnd]. rewrite filter_cons, cnt_cons.
  destruct (decide (a ≠ w)) as [Hne|He].
  - rewrite cnt_cons, IH by set_solver. lia.
  - apply dec_stable in He as ->. rewrite filter_all; [lia|].
    intros b Hb ->. done.
Qed.
Lemma cnt_remove_notin f w l : w ∉ l → cnt f (filter (.≠ w) l) = cnt f l.
Proof. intros Hw. rewrite filter_all; [done|]. by intros b Hb ->. Qed.

Lemma cnt_set f g w l : NoDup l → w ∈ l → f w = false → g w = true →
  (∀ w', w' ≠ w → g w' = f w') → cnt g l = cnt f l + 1.
Proof.
  intros Hnd Hw Hf Hg Heq. induction l as [|a l IH]; [set_solver|].
  apply NoDup_cons in Hnd as [Ha Hnd]. rewrite !cnt_cons.
  destruct (decide (a = w)) as [->|].
  - rewrite Hf, Hg, (cnt_ext g f); [lia|]. intros; apply Heq; set_solver.
  - rewrite Heq, IH by set_solver. lia.
Qed.

(** *** The queue functions on these views *)
Lemma first_unreserved_spec ws l : (∀ w, w ∈ l → is_Some (ws !! w)) →
  ∃ r, channel_queue_first_unreserved ws l = Some r ∧
    match r with
    | Some w => w ∈ l ∧ resv ws w = false ∧ deliv ws w = false
    | None => ∀ w, w ∈ l → resv ws w = true ∨ deliv ws w = true
    end.
Proof.
  induction l as [|a l IH]; intros Hdom; simpl.
  { eexists; split; [done|]. simpl. set_solver. }
  destruct (Hdom a) as [x Hx]; [set_solver|]. rewrite Hx. simpl.
  assert (resv ws a = w_reserved x ∧ deliv ws a = w_delivering x) as [Hr Hd]
    by (unfold resv, deliv; by rewrite Hx).
  destruct (w_reserved x) eqn:E1, (w_delivering x) eqn:E2; simpl;
    [| | |by eexists; split; [done|]; set_solver];
    (destruct IH as (r & -> & Hres); [set_solver|]; eexists; split; [done|];
     destruct r; set_solver).
Qed.

Lemma delivering_spec ws l : (∀ w, w ∈ l → is_Some (ws !! w)) →
  ∃ r, channel_queue_delivering ws l = Some r ∧
    match r with
    | Some w => w ∈ l ∧ deliv ws w = true
    | None => ∀ w, w ∈ l → deliv ws w = false
    end.
Proof.
  induction l as [|a l IH]; intros Hdom; simpl.
  { eexists; split; [done|]. simpl. set_solver. }
  destruct (Hdom a) as [x Hx]; [set_solver|]. rewrite Hx. simpl.
  assert (deliv ws a = w_delivering x) as Hd by (unfold deliv; by rewrite Hx).
  destruct (w_delivering x) eqn:E; [eexists; split; [done|]; set_solver|].
  destruct IH as (r & -> & Hres); [set_solver|]. eexists; split; [done|]. destruct r; set_solver.
Qed.

(** Removing a waiter by its index is filtering it out. *)
Lemma remove_at_take_drop l i : (i < length l)%nat →
  channel_queue_remove_at l i = take i l ++ drop (S i) l.
Proof.
  intros Hi. unfold channel_queue_remove_at. destruct (Nat.ltb_spec i (length l - 1)); [done|].
  replace i with (length l - 1)%nat at 1 2 by lia. rewrite (drop_ge l) by lia. by rewrite app_nil_r.
Qed.

Lemma queue_index_spec w l i :
  match queue_index w l i with
  | Some j => (i ≤ j)%nat ∧ l !! (j - i)%nat = Some w ∧ w ∉ take (j - i)%nat l
  | None => w ∉ l
  end.
Proof.
  revert i. induction l as [|a l IH]; intros i; simpl; [set_solver|].
  destruct (Nat.eqb_spec a w) as [->|Hne].
  { rewrite Nat.sub_diag. simpl. split_and!; [lia|done|set_solver]. }
  specialize (IH (S i)). destruct (queue_index w l (S i)) as [j|]; [|set_solver].
  destruct IH as (? & ? & Hni). replace (j - i)%nat with (S (j - S i)) by lia. simpl.
  split_and!; [lia|done|set_solver].
Qed.

Lemma remove_index_filter w l : NoDup l →
  match queue_index w l 0 with
  | Some i => w ∈ l ∧ channel_queue_remove_at l i = filter (.≠ w) l
  | None => w ∉ l
  end.
Proof.
  intros Hnd. pose proof (queue_index_spec w l 0) as H.
  destruct (queue_index w l 0) as [i|]; [|done].
  rewrite Nat.sub_0_r in H. destruct H as (_ & Hi & Hni).
  pose proof (lookup_lt_Some _ _ _ Hi).
  split; [by eapply list_elem_of_lookup_2|]. rewrite remove_at_take_drop by done.
  pose proof (take_drop_middle l i w Hi) as Hl. clear Hi.
  revert Hni Hl. generalize (take i l) as l1, (drop (S i) l) as l2. intros l1 l2 Hni <-.
  apply NoDup_app in Hnd as (_ & _ & Hnd). apply NoDup_cons in Hnd as [Hnd _].
  rewrite filter_app, filter_cons_False by by intros [].
  rewrite !filter_all; [done| |]; intros b Hb ->; done.
Qed.
End views.

Create Rewrite HintDb waiters.
#[export] Hint Rewrite resv_insert deliv_insert fut_insert cnt_app cnt_cons : waiters.

(** ** The history *)
Section history.
Context {V : Type}.

Definition accepted_value (e : effect V) : option V :=
  match e with Accepted v => Some v | _ => None end.
Definition gone_value (e : effect V) : option V :=
  match e with Taken v | Dropped v => Some v | _ => None end.

(** The values sent so far, and those taken by a receiver or dropped. *)
Definition accepted (o : list (effect V)) : list V := omap accepted_value o.
Definition gone (o : list (effect V)) : list V := omap gone_value o.

Lemma accepted_app o o' : accepted (o ++ o') = accepted o ++ accepted o'.
Proof. apply omap_app. Qed.
Lemma gone_app o o' : gone (o ++ o') = gone o ++ gone o'.
Proof. apply omap_app. Qed.

(** Effects that carry no value. *)
Definition silent (e : effect V) : Prop := accepted_value e = None ∧ gone_value e = None.
Definition timer_effect (e : effect V) : Prop :=
  match e with TimerStart _ | TimerStop => True | _ => False end.

Lemma accepted_silent o : Forall silent o → accepted o = [].
Proof. induction 1 as [|e o [He _] _ IH]; [done|]. unfold accepted. simpl. by rewrite He. Qed.
Lemma gone_silent o : Forall silent o → gone o = [].
Proof. induction 1 as [|e o [_ He] _ IH]; [done|]. unfold gone. simpl. by rewrite He. Qed.
Lemma timer_effects_silent o : Forall timer_effect o → Forall silent o.
Proof. intros H. eapply Forall_impl; [exact H|]. by intros []. Qed.
Lemma timer_effects_wake o w e : Forall timer_effect o → Wake w e ∉ o.
Proof. rewrite Forall_forall. intros H Hin. apply (H _ Hin). Qed.
Lemma timer_effects_drop o v : Forall timer_effect o → Dropped v ∉ o.
Proof. rewrite Forall_forall. intros H Hin. apply (H _ Hin). Qed.
End history.

#[global] Arguments accepted : simpl never.
#[global] Arguments gone : simpl never.
#[global] Arguments cnt : simpl never.
#[global] Arguments resv : simpl never.
#[global] Arguments deliv : simpl never.
#[global] Arguments fut : simpl never.

#[export] Hint Rewrite @accepted_app @gone_app : waiters.

(** ** The invariant *)
Section invariant.
Context {V Q : Type} `{!FifoBuffer Q V} `{!Reactor V}.
Implicit Types (c : async_channel_t Q V) (l : list V) (w : nat).

(** The number of values the channel can hold. *)
Definition slots (capacity : Z) : Z := Z.max capacity 1.

#[global] Arguments slots : simpl never.

(** The stored values, the bounds of the counters and the history. *)
Record DInv (er es : Z) c l : Prop := {
  d_cap : 0 ≤ ch_capacity c ≤ INT32_MAX;
  d_buf : 0 < ch_capacity c →
    q_repr (ch_buffer c) l ∧ ch_capacity c ≤ q_slots (ch_buffer c) ∧ rendezvous_value c = None;
  d_slot : ch_capacity c = 0 → l = option_list (rendezvous_value c);
  d_has : rendezvous_has_value c = bool_decide (is_Some (rendezvous_value c));
  d_len : Z.of_nat (length l) ≤ slots (ch_capacity c);
  d_rr : reserved_receivers c + er ≤ Z.of_nat (length l);
  d_rs : reserved_senders c + es ≤ slots (ch_capacity c) - Z.of_nat (length l);
  d_log : accepted (out c) = gone (out c) ++ l;
  d_keep : 0 < ch_capacity c → ∀ v, Dropped v ∉ out c
}.

(** The waiters: who is queued, suspended, reserved and registered. *)
Record WInv c : Prop := {
  w_dom : ∀ w, is_Some (waiters c !! w) ↔ (w < next_waiter c)%nat;
  w_old : ∀ w, w ∈ waiting_receivers c ∨ w ∈ parked_receivers c ∨ w ∈ parked_senders c →
    (w < next_waiter c)%nat;
  w_ndR : NoDup (waiting_receivers c);
  w_ndS : NoDup (waiting_senders c);
  w_ndPR : NoDup (parked_receivers c);
  w_ndPS : NoDup (parked_senders c);
  w_disj : ∀ w, w ∈ parked_receivers c → w ∈ parked_senders c → False;
  w_R : ∀ w, w ∈ waiting_receivers c →
    deliv (waiters c) w = false ∧
    match fut (waiters c) w with
    | None => w ∈ parked_receivers c
    | Some _ => resv (waiters c) w = false ∧ (w ∉ parked_receivers c) ∧ (w ∉ parked_senders c)
    end;
  w_S : ∀ w, w ∈ waiting_senders c → w ∈ parked_senders c;
  w_PR : ∀ w, w ∈ parked_receivers c → fut (waiters c) w = None ∧ deliv (waiters c) w = false ∧
    (resv (waiters c) w = true → w ∈ waiting_receivers c);
  w_PS : ∀ w, w ∈ parked_senders c → fut (waiters c) w = None ∧
    (resv (waiters c) w = true → deliv (waiters c) w = false);
  w_rr : reserved_receivers c = cnt (resv (waiters c)) (parked_receivers c);
  w_rs : reserved_senders c = cnt (resv (waiters c)) (parked_senders c);
  w_cb : ∀ w, w ∈ ch_callbacks c →
    (w ∈ waiting_receivers c ∨ w ∈ waiting_senders c) ∧ resv (waiters c) w = false;
  w_wakes : ∀ w e, Wake w e ∈ out c → (w < next_waiter c)%nat;
  w_woken : ∀ w, w ∈ parked_receivers c ∨ w ∈ parked_senders c →
    (resv (waiters c) w = true → Wake w None ∈ out c) ∧
    (w ∉ waiting_receivers c → w ∉ waiting_senders c → ∃ e, Wake w e ∈ out c);
  w_quiet : ∀ w, w ∈ waiting_senders c → deliv (waiters c) w = true → Wake w None ∉ out c
}.

(** No waiter is left behind, with [n] values stored. *)
Record LInv (er es : Z) (pc dp : bool) c (n : Z) : Prop := {
  l_recv : ch_closed c = false → reserved_receivers c + er < n →
    ∀ w, w ∈ waiting_receivers c → resv (waiters c) w = true;
  l_send : ch_closed c = false → reserved_senders c + es < slots (ch_capacity c) - n →
    ∀ w, w ∈ waiting_senders c → resv (waiters c) w = true ∨ deliv (waiters c) w = true;
  l_closed : ch_closed c = true → waiting_senders c = [] ∧
    ∀ w, w ∈ waiting_receivers c → resv (waiters c) w = true;
  l_deliv : ∀ w, w ∈ waiting_senders c → deliv (waiters c) w = true →
    ch_capacity c = 0 ∧ rendezvous_committed c = false ∧ pc = false ∧
    (dp = true ∨ n = 1);
  l_deliv1 : ∀ w w', w ∈ waiting_senders c → w' ∈ waiting_senders c →
    deliv (waiters c) w = true → deliv (waiters c) w' = true → w = w';
  l_commit : pc = false → ch_capacity c = 0 →
    0 < reserved_receivers c + er → rendezvous_committed c = true
}.

Record Inv (er es : Z) (pc dp : bool) c l : Prop := {
  i_data : DInv er es c l;
  i_wait : WInv c;
  i_live : LInv er es pc dp c (Z.of_nat (length l))
}.

(** *** The helpers of the channel on the abstract contents *)
Lemma buffered_spec c : channel_is_buffered c = bool_decide (0 < ch_capacity c).
Proof. apply eq_true_iff_eq. unfold channel_is_buffered. by rewrite Z.ltb_lt, bool_decide_eq_true. Qed.

(** Case analysis on the kind of channel. *)
Ltac kind c :=
  rewrite ?(buffered_spec c); destruct (decide (0 < ch_capacity c)) as [Hkind|Hkind];
  [rewrite ?bool_decide_true by done|rewrite ?bool_decide_false by done].

Lemma has_value_spec er es c l : DInv er es c l → ¬ 0 < ch_capacity c →
  ch_capacity c = 0 ∧ l = option_list (rendezvous_value c) ∧
  rendezvous_has_value c = bool_decide (l ≠ []).
Proof.
  intros [] ?. assert (ch_capacity c = 0) as H0 by lia. rewrite d_slot0, d_has0 by done.
  split_and!; [done..|]. by destruct (rendezvous_value c).
Qed.

Lemma channel_count_spec er es c l : DInv er es c l → channel_count c = Z.of_nat (length l).
Proof.
  intros H. unfold channel_count. kind c; [by apply q_count_spec, (d_buf _ _ _ _ H)|].
  destruct (has_value_spec _ _ _ _ H Hkind) as (_ & -> & ->). by destruct (rendezvous_value c).
Qed.

Lemma free_space_spec er es c l :
  DInv er es c l → channel_free_space c = slots (ch_capacity c) - Z.of_nat (length l).
Proof.
  intros H. unfold channel_free_space, slots. pose proof (d_len _ _ _ _ H) as Hlen.
  pose proof (d_cap _ _ _ _ H). unfold slots, INT32_MAX in *. kind c.
  - rewrite (q_count_spec _ l) by by apply (d_buf _ _ _ _ H). rewrite u64_small; lia.
  - destruct (has_value_spec _ _ _ _ H Hkind) as (-> & -> & ->).
    by destruct (rendezvous_value c).
Qed.

Lemma channel_is_empty_spec er es c l : DInv er es c l → channel_is_empty c = bool_decide (l = []).
Proof.
  intros H. unfold channel_is_empty. kind c; [by apply q_is_empty_spec, (d_buf _ _ _ _ H)|].
  destruct (has_value_spec _ _ _ _ H Hkind) as (_ & -> & ->). by destruct (rendezvous_value c).
Qed.

Lemma channel_is_full_spec er es c l :
  DInv er es c l → channel_is_full c = bool_decide (Z.of_nat (length l) = slots (ch_capacity c)).
Proof.
  intros H. unfold channel_is_full. pose proof (d_len _ _ _ _ H) as Hlen.
  unfold slots in *. kind c.
  - rewrite (q_count_spec _ l) by by apply (d_buf _ _ _ _ H).
    apply eq_true_iff_eq. rewrite Z.leb_le, bool_decide_eq_true. lia.
  - destruct (has_value_spec _ _ _ _ H Hkind) as (-> & -> & ->).
    by destruct (rendezvous_value c).
Qed.

Lemma free_value_spec er es c l : DInv er es c l →
  channel_has_free_value c = bool_decide (reserved_receivers c < Z.of_nat (length l)).
Proof.
  intros H. unfold channel_has_free_value. erewrite channel_count_spec by done.
  apply eq_true_iff_eq. by rewrite Z.ltb_lt, bool_decide_eq_true.
Qed.

Lemma free_slot_spec er es c l : DInv er es c l →
  channel_has_free_slot c =
    bool_decide (reserved_senders c < slots (ch_capacity c) - Z.of_nat (length l)).
Proof.
  intros H. unfold channel_has_free_slot. erewrite free_space_spec by done.
  apply eq_true_iff_eq. by rewrite Z.ltb_lt, bool_decide_eq_true.
Qed.

Lemma rr_nonneg c : WInv c → 0 ≤ reserved_receivers c.
Proof. intros H. rewrite (w_rr _ H). apply cnt_nonneg. Qed.
Lemma rs_nonneg c : WInv c → 0 ≤ reserved_senders c.
Proof. intros H. rewrite (w_rs _ H). apply cnt_nonneg. Qed.

Lemma slots_small er es c l : DInv er es c l → 1 ≤ slots (ch_capacity c) < 2 ^ 31.
Proof. intros []. unfold slots, INT32_MAX in *. lia. Qed.

(** *** Timer operations leave the channel alone *)
Definition tset (armed : bool) (reason : channel_close_reason_t) (registered : bool)
    (ts : list (effect V)) c : async_channel_t Q V :=
  set_deadlock_timer armed (set_pending_timeout_reason reason
    (set_in_deadlock_channels registered (set_out (out c ++ ts) c))).

Definition tframe c c' : Prop :=
  ∃ armed reason registered ts, Forall timer_effect ts ∧ c' = tset armed reason registered ts c.

Lemma tframe_refl c : tframe c c.
Proof.
  exists (deadlock_timer c), (pending_timeout_reason c), (in_deadlock_channels c), [].
  split; [done|]. destruct c. unfold tset. cbn. by rewrite app_nil_r.
Qed.

Lemma tframe_trans c1 c2 c3 : tframe c1 c2 → tframe c2 c3 → tframe c1 c3.
Proof.
  intros (a & r & g & ts & Hts & ->) (a' & r' & g' & ts' & Hts' & ->).
  exists a', r', g', (ts ++ ts'). split; [by apply Forall_app|].
  unfold tset. cbn. by rewrite app_assoc.
Qed.

Ltac tframe_solve :=
  match goal with
  | |- tframe ?c ?c => apply tframe_refl
  | |- tframe ?c ?c' =>
    exists (deadlock_timer c'), (pending_timeout_reason c'), (in_deadlock_channels c');
    first [ (exists []; split; [done|]; destruct c; unfold tset; cbn; by rewrite app_nil_r)
          | (eexists [_]; split; cycle 1; [reflexivity|by repeat constructor]) ]
  end.

Lemma disarm_spec c :
  wp channel_disarm_deadlock_timer (λ _ c', tframe c c' ∧ deadlock_timer c' = false) c.
Proof.
  unfold channel_disarm_deadlock_timer, emit. wp_simpl. destruct (deadlock_timer c) eqn:E; simpl.
  - split; [tframe_solve|done].
  - split; [tframe_solve|done].
Qed.

Lemma arm_spec reason timeout c :
  wp (channel_arm_deadlock_timer reason timeout) (λ _ c', tframe c c') c.
Proof.
  unfold channel_arm_deadlock_timer, emit. wp_simpl.
  destruct (_ || _ || _); [wp_simpl; tframe_solve|].
  destruct (timer_new _); cbn [negb]; wp_simpl; [|tframe_solve].
  destruct (hard_timeouts c), (timer_start _); cbn [negb]; wp_simpl; tframe_solve.
Qed.

Lemma refresh_spec c : wp channel_refresh_deadlock_timer (λ _ c', tframe c c') c.
Proof.
  unfold channel_refresh_deadlock_timer. wp_simpl.
  destruct (negb _ && negb _); [wp_apply disarm_spec; naive_solver|].
  destruct (deadlock_timer c && _); [wp_simpl; apply tframe_refl|].
  wp_simpl. destruct (deadlock_timer c).
  - wp_apply disarm_spec. intros _ c1 [H1 _]. wp_apply arm_spec. intros _ c2 H2.
    by eapply tframe_trans.
  - apply arm_spec.
Qed.

Lemma Inv_tset er es pc dp c l a r g ts :
  Forall timer_effect ts → Inv er es pc dp c l → Inv er es pc dp (tset a r g ts c) l.
Proof.
  intros Hts [[] [] []].
  pose proof (timer_effects_silent _ Hts). pose proof (timer_effects_wake ts) as Hw.
  pose proof (timer_effects_drop ts) as Hd.
  assert (∀ w e, Wake w e ∈ out c ++ ts ↔ Wake w e ∈ out c) as Hout
    by (intros w e; rewrite elem_of_app; naive_solver).
  split; constructor; try assumption; cbn.
  - autorewrite with waiters. by rewrite (accepted_silent ts), (gone_silent ts), !app_nil_r.
  - intros Hb v. rewrite elem_of_app. naive_solver.
  - intros w e. rewrite Hout. eauto.
  - intros w Hp. destruct (w_woken0 w Hp) as [H1 H2]. setoid_rewrite Hout. eauto.
  - intros w ??. rewrite Hout. eauto.
Qed.

Lemma Inv_tframe er es pc dp c c' l : tframe c c' → Inv er es pc dp c l → Inv er es pc dp c' l.
Proof. intros (a & r & g & ts & Hts & ->). by apply Inv_tset. Qed.

(** *** Elementary transitions *)

(** A waiter [w] of one side is given a value or a slot and woken. *)
Definition reserved_waiter (x : channel_waiter_t) : channel_waiter_t :=
  mk_waiter (w_future x) true (w_delivering x).
Definition reserve_receiver w x c : async_channel_t Q V :=
  set_out (out c ++ [Wake w None]) (set_reserved_receivers (u32 (reserved_receivers c + 1))
    (set_waiters (<[w := reserved_waiter x]> (waiters c))
      (set_ch_callbacks (filter (.≠ w) (ch_callbacks c)) c))).
Definition reserve_sender w x c : async_channel_t Q V :=
  set_out (out c ++ [Wake w None]) (set_reserved_senders (u32 (reserved_senders c + 1))
    (set_waiters (<[w := reserved_waiter x]> (waiters c))
      (set_ch_callbacks (filter (.≠ w) (ch_callbacks c)) c))).

Lemma waiter_views ws w x : ws !! w = Some x →
  resv ws w = w_reserved x ∧ deliv ws w = w_delivering x ∧ fut ws w = w_future x.
Proof. intros H. unfold resv, deliv, fut. by rewrite H. Qed.

Lemma resv_reserved ws w x w' :
  resv (<[w := reserved_waiter x]> ws) w' = bool_decide (w' = w) || resv ws w'.
Proof. rewrite resv_insert. by case_decide; case_bool_decide. Qed.
Lemma deliv_reserved ws w x w' : ws !! w = Some x →
  deliv (<[w := reserved_waiter x]> ws) w' = deliv ws w'.
Proof.
  intros H. rewrite deliv_insert. case_decide; [subst|done].
  by destruct (waiter_views _ _ _ H) as (_ & -> & _).
Qed.
Lemma fut_reserved ws w x w' : ws !! w = Some x →
  fut (<[w := reserved_waiter x]> ws) w' = fut ws w'.
Proof.
  intros H. rewrite fut_insert. case_decide; [subst|done].
  by destruct (waiter_views _ _ _ H) as (_ & _ & ->).
Qed.

(** Reserving keeps the queues and the registrations consistent. *)
Lemma cnt_reserve ws w x (ps : list nat) : NoDup ps → w ∈ ps → resv ws w = false →
  cnt (resv (<[w := reserved_waiter x]> ws)) ps = cnt (resv ws) ps + 1.
Proof.
  intros. apply (cnt_set _ _ w); [done..| |].
  - rewrite resv_reserved, bool_decide_true by done. done.
  - intros. rewrite resv_reserved, bool_decide_false by done. done.
Qed.
Lemma cnt_reserve_other ws w x (ps : list nat) : w ∉ ps →
  cnt (resv (<[w := reserved_waiter x]> ws)) ps = cnt (resv ws) ps.
Proof.
  intros. apply cnt_ext. intros w' Hw'. rewrite resv_reserved, bool_decide_false by naive_solver.
  done.
Qed.

Lemma resv_reserved_true ws w x w' :
  resv (<[w := reserved_waiter x]> ws) w' = true ↔ w' = w ∨ resv ws w' = true.
Proof. by rewrite resv_reserved, orb_true_iff, bool_decide_eq_true. Qed.
Lemma resv_reserved_false ws w x w' :
  resv (<[w := reserved_waiter x]> ws) w' = false ↔ w' ≠ w ∧ resv ws w' = false.
Proof. by rewrite resv_reserved, orb_false_iff, bool_decide_eq_false. Qed.
Lemma elem_of_snoc {A} (a b : A) (o : list A) : a ∈ o ++ [b] ↔ a ∈ o ∨ a = b.
Proof. set_solver. Qed.

Lemma reserve_WInv c w x rr rs :
  WInv c → waiters c !! w = Some x →
  w ∈ waiting_receivers c ∧ fut (waiters c) w = None ∨ w ∈ waiting_senders c →
  resv (waiters c) w = false → deliv (waiters c) w = false →
  rr = (if decide (w ∈ parked_receivers c) then reserved_receivers c + 1 else reserved_receivers c) →
  rs = (if decide (w ∈ parked_senders c) then reserved_senders c + 1 else reserved_senders c) →
  WInv (set_out (out c ++ [Wake w None]) (set_reserved_receivers rr (set_reserved_senders rs
    (set_waiters (<[w := reserved_waiter x]> (waiters c))
      (set_ch_callbacks (filter (.≠ w) (ch_callbacks c)) c))))).
Proof.
  intros HW Hx Hin Hnr Hnd Hrr Hrs. destruct HW.
  assert (∀ w', deliv (<[w := reserved_waiter x]> (waiters c)) w' = deliv (waiters c) w') as Hd
    by (intros; by apply deliv_reserved).
  assert (∀ w', fut (<[w := reserved_waiter x]> (waiters c)) w' = fut (waiters c) w') as Hf
    by (intros; by apply fut_reserved).
  constructor; cbn; try assumption.
  - intros w'. rewrite <- w_dom0. destruct (decide (w' = w)) as [->|]; simplify_map_eq; [|done].
    by split; intros; eexists.
  - intros w' Hw'. rewrite Hd, Hf. destruct (w_R0 w' Hw') as [? HR].
    split; [done|]. destruct (fut _ w') eqn:Ef; [|done].
    split_and!; [|by apply HR..]. apply resv_reserved_false. split; [|by apply HR]. intros ->.
    destruct Hin as [[_ ?]|?%w_S0]; [congruence|naive_solver].
  - intros w' Hw'. rewrite Hd, Hf, resv_reserved_true. destruct (w_PR0 w' Hw') as (? & ? & HR).
    split_and!; [done..|]. intros [->|]; [|by auto]. destruct Hin as [[??]|?]; [done|].
    exfalso. eauto.
  - intros w' Hw'. rewrite Hd, Hf, resv_reserved_true. destruct (w_PS0 w' Hw') as (? & HR).
    split; [done|]. intros [->|]; auto.
  - subst rr. clear Hrs. case_decide;
      [rewrite cnt_reserve by done|rewrite cnt_reserve_other by done]; lia.
  - subst rs. clear Hrr. case_decide;
      [rewrite cnt_reserve by done|rewrite cnt_reserve_other by done]; lia.
  - intros w' [? Hw']%list_elem_of_filter. rewrite resv_reserved_false.
    destruct (w_cb0 w' Hw'). auto.
  - intros w' e. rewrite elem_of_snoc. intros [|[= -> _]]; [eauto|]. apply w_dom0. eauto.
  - intros w' Hp. rewrite resv_reserved_true. destruct (w_woken0 w' Hp) as [H1 H2].
    split; [rewrite elem_of_snoc; naive_solver|].
    intros ??. destruct H2 as [e ?]; [done..|]. exists e. rewrite elem_of_snoc. auto.
  - intros w' Hw' Hd'. rewrite Hd in Hd'. rewrite elem_of_snoc.
    intros [?|[= ->]]; [by eapply w_quiet0|congruence].
Qed.

Lemma reserve_receiver_Inv pc dp c l w x :
  Inv 1 0 pc dp c l → waiters c !! w = Some x → w ∈ waiting_receivers c →
  resv (waiters c) w = false → fut (waiters c) w = None →
  Inv 0 0 pc dp (reserve_receiver w x c) l.
Proof.
  intros HI Hx Hin Hnr Hf. pose proof (slots_small _ _ _ _ (i_data _ _ _ _ _ _ HI)).
  pose proof (rr_nonneg _ (i_wait _ _ _ _ _ _ HI)). destruct HI as [[] HW []].
  destruct (w_R _ HW w Hin) as [Hnd HR]. rewrite Hf in HR.
  assert (u32 (reserved_receivers c + 1) = reserved_receivers c + 1) as Hu
    by (apply u32_small; lia).
  unfold reserve_receiver. rewrite Hu. split.
  - constructor; cbn; try done; try lia.
    + autorewrite with waiters. by rewrite !app_nil_r.
    + set_solver.
  - apply (reserve_WInv c w x); auto; [by rewrite decide_True|].
    rewrite decide_False; [done|]. intros ?. by eapply w_disj.
  - constructor; cbn; try (intros; rewrite ?deliv_reserved, ?resv_reserved_true in * by done).
    + right. apply l_recv0; [done|lia|done].
    + naive_solver lia.
    + split; [naive_solver|]. setoid_rewrite resv_reserved_true. naive_solver.
    + naive_solver.
    + naive_solver.
    + apply l_commit0; [done|done|lia].
Qed.

Lemma reserve_sender_Inv dp c l w x :
  Inv 0 1 false dp c l → waiters c !! w = Some x → w ∈ waiting_senders c →
  resv (waiters c) w = false → deliv (waiters c) w = false →
  Inv 0 0 false dp (reserve_sender w x c) l.
Proof.
  intros HI Hx Hin Hnr Hnd. pose proof (slots_small _ _ _ _ (i_data _ _ _ _ _ _ HI)).
  pose proof (rs_nonneg _ (i_wait _ _ _ _ _ _ HI)). destruct HI as [[] HW []].
  assert (w ∈ parked_senders c) as HS by by apply w_S.
  assert (u32 (reserved_senders c + 1) = reserved_senders c + 1) as Hu
    by (apply u32_small; lia).
  unfold reserve_sender. rewrite Hu. split.
  - constructor; cbn; try done; try lia.
    + autorewrite with waiters. by rewrite !app_nil_r.
    + set_solver.
  - apply (reserve_WInv c w x (reserved_receivers c) (reserved_senders c + 1)); auto;
      [|by rewrite decide_True].
    rewrite decide_False; [done|]. intros ?. by eapply w_disj.
  - constructor; cbn; try (intros; rewrite ?deliv_reserved, ?resv_reserved_true in * by done).
    + naive_solver lia.
    + edestruct l_send0 as [|]; eauto; lia.
    + split; [naive_solver|]. setoid_rewrite resv_reserved_true. naive_solver.
    + naive_solver.
    + naive_solver.
    + apply l_commit0; [done|done|lia].
Qed.

(** Nobody is left to be given the free value or the free slot. *)
Lemma Inv_no_receiver pc dp c l :
  Inv 1 0 pc dp c l → (∀ w, w ∈ waiting_receivers c → resv (waiters c) w = true) →
  Inv 0 0 pc dp c l.
Proof.
  intros [[] HW []] Hall. split; [|done|]; constructor; auto; try lia.
  intros. apply l_commit0; [done|done|lia].
Qed.

Lemma Inv_no_sender dp c l :
  Inv 0 1 false dp c l →
  (∀ w, w ∈ waiting_senders c → resv (waiters c) w = true ∨ deliv (waiters c) w = true) →
  Inv 0 0 false dp c l.
Proof. intros [[] HW []] Hall. split; [|done|]; constructor; auto; lia. Qed.

(** A closed channel passes reservations on to nobody. *)
Lemma Inv_closed_weaken er es c l : 0 ≤ er → 0 ≤ es → ch_closed c = true →
  Inv er es false false c l → Inv 0 0 false false c l.
Proof.
  intros ?? Hc [[] HW []]. split; [|done|]; constructor; auto; try lia; try congruence.
  intros. apply l_commit0; [done|done|lia].
Qed.

(** What the wake operations leave alone: the suspended coroutines, the kind of
    the channel and its closing; the history grows, without a new value. *)
Definition pframe c c' : Prop :=
  parked_receivers c' = parked_receivers c ∧ parked_senders c' = parked_senders c ∧
  (∀ w, deliv (waiters c') w = deliv (waiters c) w) ∧ next_waiter c' = next_waiter c ∧
  ch_capacity c' = ch_capacity c ∧ ch_closed c' = ch_closed c ∧
  close_reason c' = close_reason c ∧ ∃ o, out c' = out c ++ o ∧ accepted o = [].

#[export] Instance pframe_preorder : PreOrder pframe.
Proof.
  split.
  - intros c. split_and!; try done. exists []. by rewrite app_nil_r.
  - intros c1 c2 c3 (? & ? & Hd1 & ? & ? & ? & ? & o1 & Ho1 & Ha1)
      (? & ? & Hd2 & ? & ? & ? & ? & o2 & Ho2 & Ha2).
    split_and!; try congruence. exists (o1 ++ o2).
    by rewrite Ho2, Ho1, app_assoc, accepted_app, Ha1, Ha2.
Qed.

Lemma tframe_pframe c c' : tframe c c' → pframe c c'.
Proof.
  intros (a & r & g & ts & Hts & ->). split_and!; try done. exists ts.
  split; [done|]. by apply accepted_silent, timer_effects_silent.
Qed.

Lemma reserve_receiver_pframe w x c :
  waiters c !! w = Some x → pframe c (reserve_receiver w x c).
Proof. intros. split_and!; try done; [|by eexists]. intros. by apply deliv_reserved. Qed.
Lemma reserve_sender_pframe w x c :
  waiters c !! w = Some x → pframe c (reserve_sender w x c).
Proof. intros. split_and!; try done; [|by eexists]. intros. by apply deliv_reserved. Qed.

(** The sender parked on the value just taken hears so and leaves the queue. *)
Definition acknowledge w c : async_channel_t Q V :=
  set_out (out c ++ [Wake w None]) (set_ch_callbacks (filter (.≠ w) (ch_callbacks c))
    (set_waiting_senders (filter (.≠ w) (waiting_senders c)) c)).

Lemma acknowledge_Inv es dp c l w :
  Inv 0 es false dp c l → w ∈ waiting_senders c → deliv (waiters c) w = true →
  Inv 0 es false false (acknowledge w c) l.
Proof.
  intros [[] HW []] Hin Hd. pose proof (w_S _ HW w Hin) as HPS.
  assert (∀ w', w' ∈ waiting_senders c → deliv (waiters c) w' = true → w' ≠ w → False) as Hone
    by eauto.
  split.
  - constructor; cbn; try done; [|set_solver]. autorewrite with waiters. by rewrite !app_nil_r.
  - destruct HW. constructor; cbn; try done.
    + by apply NoDup_filter.
    + intros w' [??]%list_elem_of_filter. auto.
    + intros w' [? [[]]%w_cb0]%list_elem_of_filter; [auto|]. rewrite list_elem_of_filter. auto.
    + intros w' e. rewrite elem_of_snoc. intros [?|[= -> ->]]; [eauto|]. apply w_old0. auto.
    + intros w' Hp. destruct (w_woken0 w' Hp) as [H1 H2].
      split; [rewrite elem_of_snoc; auto|]. rewrite list_elem_of_filter. intros HR HS.
      destruct (decide (w' = w)) as [->|]; [exists None; by rewrite elem_of_snoc; right|].
      destruct H2 as [e ?]; [done|naive_solver|]. exists e. rewrite elem_of_snoc. auto.
    + intros w' [? Hin']%list_elem_of_filter Hd'. destruct (Hone w'); auto.
  - constructor; cbn; try done; try setoid_rewrite list_elem_of_filter.
    + naive_solver.
    + intros [HS ?]%l_closed0. rewrite HS in Hin. set_solver.
    + intros w' [??] ?. destruct (Hone w'); auto.
    + naive_solver.
Qed.

(** Without such a sender there is nothing to acknowledge. *)
Lemma Inv_no_delivering es dp c l :
  Inv 0 es false dp c l → (∀ w, w ∈ waiting_senders c → deliv (waiters c) w = false) →
  Inv 0 es false false c l.
Proof.
  intros [HD HW []] Hno. split; [done|done|]. constructor; auto. intros w Hw Hd.
  rewrite Hno in Hd by done. done.
Qed.

(** The commit flag written after a rendezvous store that met a receiver. *)
Lemma commit_Inv c l : ch_capacity c = 0 →
  Inv 0 0 true false c l →
  Inv 0 0 false false (set_rendezvous_committed (rendezvous_has_value c) c) l.
Proof.
  intros Hk [HD HW []]. destruct (has_value_spec _ _ _ _ HD) as (_ & Hl & Hv); [lia|].
  destruct HD. split.
  - by constructor.
  - destruct HW. by constructor.
  - constructor; cbn; try done; [naive_solver|]. intros _ _ Hrr. rewrite Hv.
    apply bool_decide_eq_true. intros ->. simpl in *. lia.
Qed.

(** On a buffered channel, or with nothing reserved, the flag is irrelevant. *)
Lemma Inv_uncommitted c l : 0 < ch_capacity c ∨ reserved_receivers c ≤ 0 →
  Inv 0 0 true false c l → Inv 0 0 false false c l.
Proof.
  intros Hk [HD HW []]. split; [done|done|]. constructor; auto; [naive_solver|]. lia.
Qed.
End invariant.
