(* ===== verification/ChannelSpecs.v ===== *)
(** * Specifications of the channel's operations

    For each function of [Channel], a total-correctness specification on states
    that satisfy the invariant: it has no undefined behaviour, it restores the
    invariant, and its result and the contents of the channel are as stated. *)

From S2P Require Import Prelude CircularBuffer Channel ChannelInvariant.
From stdpp Require Import strings.

Local Open Scope Z_scope.

Section specs.
Context {V Q : Type} `{!FifoBuffer Q V} `{!Reactor V}.
Implicit Types (c : async_channel_t Q V) (l : list V) (w : nat).

(** *** Storing, taking and dropping a value *)

(** The fields a store, a take or a drop writes, and its ghost record. *)
Definition write_data (buf : Q) (rv : option V) (committed : bool) (e : effect V) c :
    async_channel_t Q V :=
  set_out (out c ++ [e]) (set_ch_buffer buf (set_rendezvous_value rv
    (set_rendezvous_has_value (bool_decide (is_Some rv)) (set_rendezvous_committed committed c)))).

Lemma write_data_WInv buf rv cm e c :
  (∀ w x, e ≠ Wake w x) → WInv c → WInv (write_data buf rv cm e c).
Proof.
  intros He []. constructor; cbn; try done.
  - intros w x. rewrite elem_of_snoc. intros [|<-]; [eauto|]. by destruct (He w x).
  - intros w Hp. destruct (w_woken w Hp) as [H1 H2]. split; [rewrite elem_of_snoc; auto|].
    intros ??. destruct H2 as [x ?]; [done..|]. exists x. rewrite elem_of_snoc. auto.
  - intros w Hw Hd. rewrite elem_of_snoc. intros [|<-]; [by eapply w_quiet|].
    by destruct (He w None).
Qed.

(** On a buffered channel the rendezvous fields are constant. *)
Lemma write_data_buffered er es buf e c l : DInv er es c l → 0 < ch_capacity c →
  write_data buf None (rendezvous_committed c) e c =
    set_out (out c ++ [e]) (set_ch_buffer buf c).
Proof.
  intros [] Hk. destruct (d_buf Hk) as (_ & _ & Hrv).
  rewrite Hrv in d_has. unfold write_data. destruct c; simpl in *. by subst.
Qed.

(** Taking the oldest value frees a slot. *)
Lemma take_Inv er pc c v l buf :
  er = 0 ∨ er = 1 → Inv er 0 pc false c (v :: l) →
  reserved_receivers c < Z.of_nat (length (v :: l)) →
  (0 < ch_capacity c → q_repr buf l ∧ q_slots buf = q_slots (ch_buffer c)) →
  Inv 0 1 false true
    (write_data buf None (if 0 <? ch_capacity c then rendezvous_committed c else false)
       (Taken v) c) l.
Proof.
  intros Her [HD HW []] Hlt Hbuf. pose proof (slots_small _ _ _ _ HD).
  pose proof (rr_nonneg _ HW). pose proof HD as []. simpl in *. split.
  - constructor; cbn; try done; try lia.
    + intros Hk. destruct (d_buf Hk) as (? & ? & ?). destruct (Hbuf Hk). split_and!; [done|lia|done].
    + intros Hk. assert (v :: l = option_list (rendezvous_value c)) as Hl by auto.
      by destruct (rendezvous_value c); simplify_eq/=.
    + autorewrite with waiters. rewrite d_log. simpl. rewrite app_nil_r, <- app_assoc. done.
    + intros ? v'. rewrite elem_of_snoc. intros [|]; [naive_solver|done].
  - by apply write_data_WInv.
  - constructor; cbn; try done.
    + intros ? Hr. apply l_recv; [done|]. lia.
    + intros ? Hr. apply l_send; [done|]. lia.
    + intros w ? [Hk ?]%l_deliv; [|done]. rewrite Hk. naive_solver.
    + intros _ Hk Hr. rewrite Hk in *. unfold slots in *. lia.
Qed.

Lemma take_spec er pc c v l :
  er = 0 ∨ er = 1 → Inv er 0 pc false c (v :: l) →
  reserved_receivers c < Z.of_nat (length (v :: l)) →
  wp channel_take_value (λ r c', r = Some v ∧ Inv 0 1 false true c' l ∧ pframe c c' ∧
    waiting_receivers c' = waiting_receivers c ∧ out c' = out c ++ [Taken v]) c.
Proof.
  intros Her HI Hlt. pose proof (i_data _ _ _ _ _ _ HI) as HD.
  unfold channel_take_value, emit. rewrite wp_bind, wp_get, wp_bind.
  rewrite buffered_spec. destruct (decide (0 < ch_capacity c)) as [Hk|Hk].
  - rewrite bool_decide_true by done. destruct (d_buf _ _ _ _ HD Hk) as (Hq & _ & Hrv).
    rewrite wp_bind, wp_zoom. wp_apply (q_pop_spec _ _ Hq). intros r q (-> & Hq' & Hs). simpl.
    wp_simpl. split_and!; try done; [|by split_and!; try done; eexists].
    pose proof (take_Inv er pc c v l q Her HI Hlt (λ _, conj Hq' Hs)) as HI'.
    rewrite (proj2 (Z.ltb_lt 0 (ch_capacity c)) Hk) in HI'.
    by erewrite write_data_buffered in HI'.
  - rewrite bool_decide_false by done. destruct (has_value_spec _ _ _ _ HD Hk) as (Hz & Hl & _).
    destruct (rendezvous_value c) as [x|] eqn:Hrv; simplify_eq/=.
    wp_simpl. split_and!; try done; [|by split_and!; try done; eexists].
    pose proof (take_Inv er pc c _ [] (ch_buffer c) Her HI Hlt) as HI'.
    rewrite Hz in HI'. apply HI'. lia.
Qed.

(** Storing a value into a free slot. *)
Lemma put_Inv es c l v buf :
  es = 0 ∨ es = 1 → Inv 0 es false false c l →
  reserved_senders c < slots (ch_capacity c) - Z.of_nat (length l) →
  (0 < ch_capacity c → q_repr buf (l ++ [v]) ∧ q_slots buf = q_slots (ch_buffer c)) →
  Inv 1 0 true false
    (write_data buf (if 0 <? ch_capacity c then None else Some v)
       (if 0 <? ch_capacity c then rendezvous_committed c else false) (Accepted v) c) (l ++ [v]).
Proof.
  intros Hes [HD HW []] Hlt Hbuf. pose proof (slots_small _ _ _ _ HD).
  pose proof (rs_nonneg _ HW). pose proof HD as [].
  assert (Z.of_nat (length (l ++ [v])) = Z.of_nat (length l) + 1) as Hlen
    by (rewrite length_app; simpl; lia).
  assert (ch_capacity c = 0 → l = []) as Hempty.
  { intros Hk. unfold slots in *. destruct l; simpl in *; [done|lia]. }
  split.
  - constructor; cbn; try done; try lia.
    + intros Hk. destruct (d_buf Hk) as (? & ? & ?). destruct (Hbuf Hk).
      rewrite (proj2 (Z.ltb_lt _ _) Hk). split_and!; [done|lia|done].
    + intros Hk. rewrite Hempty, Hk by done. done.
    + autorewrite with waiters. rewrite d_log, app_nil_r, app_assoc. done.
    + intros ? v'. rewrite elem_of_snoc. intros [|]; [naive_solver|done].
  - by apply write_data_WInv.
  - constructor; cbn; try done.
    + intros ? Hr. apply l_recv; [done|]. lia.
    + intros ? Hr. apply l_send; [done|]. lia.
    + intros w Hw Hd. destruct (l_deliv w Hw Hd) as (Hk & _ & _ & [|Hn]); [done|].
      rewrite Hempty in Hn; done.
Qed.

Lemma store_spec es c l v :
  es = 0 ∨ es = 1 → Inv 0 es false false c l →
  reserved_senders c < slots (ch_capacity c) - Z.of_nat (length l) →
  wp (send_store v) (λ _ c', Inv 1 0 true false c' (l ++ [v]) ∧
    pframe (set_out (out c ++ [Accepted v]) c) c' ∧
    (ch_capacity c = 0 → rendezvous_committed c' = false)) c.
Proof.
  intros Hes HI Hlt. pose proof (i_data _ _ _ _ _ _ HI) as HD.
  pose proof (rs_nonneg _ (i_wait _ _ _ _ _ _ HI)).
  unfold send_store, emit. rewrite wp_bind, wp_get, wp_if.
  rewrite buffered_spec. destruct (decide (0 < ch_capacity c)) as [Hk|Hk].
  - rewrite bool_decide_true by done. destruct (d_buf _ _ _ _ HD Hk) as (Hq & Hcap & Hrv).
    rewrite wp_bind, wp_zoom. wp_apply (q_push_spec _ _ v false Hq). intros r q [Hr Hok].
    assert (r = SUCCESS) as -> by (apply Hok; [done|]; unfold slots in *; lia).
    destruct Hr as [Hq' Hs]. wp_simpl. split; [|by split; [split_and!; try done; exists []; rewrite app_nil_r|]; done || lia].
    pose proof (put_Inv es c l v q Hes HI Hlt (λ _, conj Hq' (Hs eq_refl))) as HI'.
    rewrite (proj2 (Z.ltb_lt 0 (ch_capacity c)) Hk) in HI'.
    by erewrite write_data_buffered in HI'.
  - rewrite bool_decide_false by done. destruct (has_value_spec _ _ _ _ HD Hk) as (Hz & Hl & _).
    wp_simpl. split; [|by split; [split_and!; try done; exists []; rewrite app_nil_r|]; done || lia].
    pose proof (put_Inv es c l v (ch_buffer c) Hes HI Hlt) as HI'.
    rewrite Hz in HI'. apply HI'. lia.
Qed.

(** Dropping the value in the rendezvous slot, when it is nobody's. *)
Lemma drop_spec c l :
  Inv 0 0 false false c l → ch_capacity c = 0 → rendezvous_committed c = false →
  rendezvous_has_value c = true →
  (∀ w, w ∈ waiting_senders c → deliv (waiters c) w = false) →
  wp drop_rendezvous_value (λ _ c', ∃ v, l = [v] ∧ Inv 0 1 false false c' [] ∧ pframe c c' ∧
    c' = set_rendezvous_has_value false (set_rendezvous_value None
      (set_out (out c ++ [Dropped v]) c))) c.
Proof.
  intros [HD HW []] Hk Hcm Hhas Hno. pose proof (rr_nonneg _ HW).
  destruct (has_value_spec _ _ _ _ HD) as (_ & Hl & Hv); [lia|].
  unfold drop_rendezvous_value, emit. rewrite wp_bind, wp_get, wp_bind.
  destruct (rendezvous_value c) as [v|] eqn:Hrv; simplify_eq/=; [|congruence].
  wp_simpl. exists v. split_and!; try done; [|by split_and!; try done; eexists].
  assert (reserved_receivers c = 0) as Hr0.
  { destruct (decide (0 < reserved_receivers c)); [|lia].
    rewrite l_commit in Hcm; [done|done|done|lia]. }
  pose proof HD as []. simpl in *. split.
  - constructor; cbn; try done; try lia.
    + autorewrite with waiters. rewrite d_log, !app_nil_r. done.
  - pose proof (write_data_WInv (ch_buffer c) None (rendezvous_committed c) (Dropped v) c
      ltac:(done) HW) as HW'. done.
  - constructor; cbn; try done; try lia.
    + intros ? Hr. apply l_send; [done|]. lia.
    + intros w Hw Hd. rewrite Hno in Hd; done.
Qed.

(** *** Queue operations and wakeups *)
Lemma queue_remove_spec s w c : NoDup (queue_of s c) →
  wp (channel_queue_remove s w) (λ b c', b = bool_decide (w ∈ queue_of s c) ∧
    c' = set_queue s (filter (.≠ w) (queue_of s c)) c) c.
Proof.
  intros Hnd. unfold channel_queue_remove. wp_simpl. pose proof (remove_index_filter w _ Hnd) as Hr.
  destruct (queue_index w (queue_of s c) 0) as [i|]; wp_simpl.
  - destruct Hr as [? ->]. by rewrite bool_decide_true.
  - rewrite bool_decide_false, filter_all by (done || by intros ? ? ->).
    split; [done|]. by destruct s, c.
Qed.

Lemma queue_waiters c : WInv c →
  (∀ w, w ∈ waiting_receivers c → is_Some (waiters c !! w)) ∧
  (∀ w, w ∈ waiting_senders c → is_Some (waiters c !! w)).
Proof.
  intros []. split; intros w Hw; apply w_dom, w_old; [by left|]. right. right. by apply w_S.
Qed.

(** The waiter of a future leaves the queue. *)
Definition leave_future w c : async_channel_t Q V :=
  set_ch_callbacks (filter (.≠ w) (ch_callbacks c))
    (set_waiting_receivers (filter (.≠ w) (waiting_receivers c)) c).

Lemma leave_future_Inv er es pc dp c l w :
  Inv er es pc dp c l → fut (waiters c) w ≠ None → Inv er es pc dp (leave_future w c) l.
Proof.
  intros [HD HW []] Hf. split.
  - destruct HD. by constructor.
  - destruct HW. constructor; cbn; try done; try setoid_rewrite list_elem_of_filter.
    + intros w'. specialize (w_old w'). tauto.
    + by apply NoDup_filter.
    + intros w' [_ Hw']. by apply w_R.
    + intros w' Hw'. destruct (w_PR w' Hw') as (? & ? & HR). split_and!; [done..|].
      intros ?. split; [|by auto]. by intros ->.
    + intros w' [? Hw']. destruct (w_cb w' Hw'). tauto.
    + intros w' Hp. destruct (w_woken w' Hp) as [H1 H2]. split; [done|]. intros HR HS.
      apply H2; [|done]. intros Hin. apply HR. split; [|done]. intros ->.
      destruct Hp as [[]%w_PR|[]%w_PS]; done.
  - constructor; cbn; try done; setoid_rewrite list_elem_of_filter.
    + intros ?? w' [_ Hw']. by apply l_recv.
    + intros Hc. destruct (l_closed Hc) as [? HR]. split; [done|]. intros w' [_ Hw']. by apply HR.
Qed.

Lemma wake_delivered_spec es dp c l :
  Inv 0 es false dp c l → (ch_capacity c = 0 → dp = true → l = []) →
  wp channel_wake_delivered_sender (λ _ c', Inv 0 es false false c' l ∧ pframe c c') c.
Proof.
  intros HI Hdp. pose proof (i_data _ _ _ _ _ _ HI) as HD. pose proof (i_wait _ _ _ _ _ _ HI) as HW.
  unfold channel_wake_delivered_sender. rewrite wp_bind, wp_get, wp_if.
  destruct (channel_is_buffered c || rendezvous_has_value c) eqn:Ek.
  { wp_simpl. split; [|done]. destruct HI as [_ _ []]. split; [done..|]. constructor; auto.
    intros w Hw Hd. destruct (l_deliv w Hw Hd) as (Hk & ? & ? & Hor). split_and!; [done..|].
    rewrite buffered_spec, bool_decide_false in Ek by lia. simpl in Ek.
    destruct (has_value_spec _ _ _ _ HD) as (_ & _ & Hv); [lia|]. rewrite Ek in Hv.
    symmetry in Hv. apply bool_decide_eq_true in Hv.
    destruct Hor as [?|?]; [destruct Hv; auto|auto]. }
  rewrite wp_bind.
  destruct (delivering_spec (waiters c) (waiting_senders c)) as (r & Hr & Hspec);
    [apply (queue_waiters _ HW)|]. rewrite Hr. unfold of_option. unfold wp at 1. simpl.
  destruct r as [w|]; [|wp_simpl; split; [by eapply Inv_no_delivering|done]].
  destruct Hspec as [Hin Hd]. rewrite wp_bind. wp_apply (queue_remove_spec Senders); [apply HW|].
  intros _ c1 [_ ->]. unfold del_callback, emit. wp_simpl. wp_apply refresh_spec.
  intros _ c2 Ht. change (tframe (acknowledge w c) c2) in Ht. split.
  - eapply Inv_tframe; [done|]. by eapply acknowledge_Inv.
  - etrans; [|by apply tframe_pframe]. split_and!; try done. by eexists.
Qed.

Lemma wake_sender_spec es dp c l :
  es = 0 ∨ es = 1 → Inv 0 es false dp c l → (ch_capacity c = 0 → dp = true → l = []) →
  wp channel_wake_sender (λ _ c', Inv 0 0 false false c' l ∧ pframe c c') c.
Proof.
  intros Hes HI0 Hdp. unfold channel_wake_sender. rewrite wp_bind.
  wp_apply wake_delivered_spec; [done..|]. intros _ c1 [HI Hp]. clear HI0.
  pose proof (i_data _ _ _ _ _ _ HI) as HD. pose proof (i_wait _ _ _ _ _ _ HI) as HW.
  rewrite wp_bind, wp_get, wp_if. erewrite free_slot_spec by done. case_bool_decide as Hfree; cbn [negb].
  2:{ wp_simpl. split; [|done]. destruct Hes as [->| ->]; [done|].
      pose proof (d_rs _ _ _ _ HD). lia. }
  rewrite wp_bind. destruct (first_unreserved_spec (waiters c1) (waiting_senders c1))
    as (r & Hr & Hspec); [apply (queue_waiters _ HW)|].
  rewrite Hr. unfold of_option. unfold wp at 1. simpl. destruct r as [w|].
  2:{ wp_simpl. split; [|done]. destruct Hes as [->| ->]; [done|]. by apply Inv_no_sender. }
  destruct Hspec as (Hin & Hnr & Hnd). assert (es = 1) as ->.
  { destruct Hes as [->|]; [exfalso|done]. destruct HI as [_ _ []].
    destruct (ch_closed c1) eqn:Hc.
    { destruct (l_closed eq_refl) as [HS _]. rewrite HS in Hin. by apply not_elem_of_nil in Hin. }
    destruct (l_send eq_refl ltac:(lia) w Hin); congruence. }
  destruct (proj2 (queue_waiters _ HW) w Hin) as [x Hx].
  unfold del_callback, emit, waiter, set_waiter, of_option. wp_simpl. unfold wp at 1. cbn. rewrite Hx.
  cbn. wp_simpl. wp_apply refresh_spec. intros _ c2 Ht. change (tframe (reserve_sender w x c1) c2) in Ht. split.
  - eapply Inv_tframe; [done|]. by eapply reserve_sender_Inv.
  - etrans; [exact Hp|]. etrans; [|by apply tframe_pframe]. by apply reserve_sender_pframe.
Qed.

Lemma Inv_commit_pending pc c l : (ch_capacity c = 0 → l = []) →
  Inv 0 0 false false c l → Inv 0 0 pc false c l.
Proof.
  intros Hl [HD HW []]. split; [done..|]. constructor; auto.
  intros w Hw Hd. destruct (l_deliv w Hw Hd) as (Hk & _ & _ & [|Hn]); [done|].
  by rewrite Hl in Hn.
Qed.

(** Resolving a future. *)
Definition future_effect (e : effect V) : Prop :=
  match e with FutureComplete _ _ | FutureReject _ _ => True | _ => False end.

Lemma Inv_future er es pc dp c l e : future_effect e →
  Inv er es pc dp c l → Inv er es pc dp (set_out (out c ++ [e]) c) l.
Proof.
  intros He [[] HW []]. split.
  - constructor; cbn; try done.
    + autorewrite with waiters. by destruct e; cbn; rewrite ?app_nil_r.
    + intros Hk v. rewrite elem_of_snoc. intros [?|<-]; [by eapply d_keep|done].
  - assert (∀ w x, Wake w x ∈ out c ++ [e] ↔ Wake w x ∈ out c) as Hout.
    { intros w x. rewrite elem_of_snoc. split; [|by left]. by intros [|<-]. }
    destruct HW. constructor; cbn; try done; intros; rewrite ?Hout; eauto.
    + eapply w_wakes, Hout. done.
    + setoid_rewrite Hout. auto.
  - by constructor.
Qed.

Lemma emit_pframe e c : accepted_value e = None → pframe c (set_out (out c ++ [e]) c).
Proof. intros He. split_and!; try done. eexists. split; [done|]. unfold accepted. cbn. by rewrite He. Qed.
Lemma leave_future_pframe w c : pframe c (leave_future w c).
Proof. split_and!; try done. exists []. by rewrite app_nil_r. Qed.

(** The free value goes to the oldest receiver without a reservation: kept for
    a coroutine ([l' = l]), handed over at once to a future. *)
Lemma wake_receiver_spec er pc c l :
  er = 0 ∨ er = 1 → Inv er 0 pc false c l →
  wp channel_wake_receiver (λ woken c', ∃ l', Inv 0 0 pc false c' l' ∧ pframe c c' ∧
    (if (woken : bool) then l' = l ∨ ∃ v, l = v :: l' else c' = c ∧ l' = l)) c.
Proof.
  intros Her HI. pose proof (i_data _ _ _ _ _ _ HI) as HD. pose proof (i_wait _ _ _ _ _ _ HI) as HW.
  unfold channel_wake_receiver. rewrite wp_bind, wp_get, wp_if.
  erewrite free_value_spec by done. case_bool_decide as Hfree; cbn [negb].
  2:{ wp_simpl. exists l. split_and!; try done. destruct Her as [->| ->]; [done|].
      pose proof (d_rr _ _ _ _ HD). lia. }
  rewrite wp_bind. destruct (first_unreserved_spec (waiters c) (waiting_receivers c))
    as (r & Hr & Hspec); [apply (queue_waiters _ HW)|].
  rewrite Hr. unfold of_option. unfold wp at 1. simpl. destruct r as [w|].
  2:{ wp_simpl. exists l. split_and!; try done. destruct Her as [->| ->]; [done|].
      apply Inv_no_receiver; [done|]. intros w Hw. destruct (Hspec w Hw) as [?|Hd]; [done|].
      destruct (w_R _ HW w Hw). congruence. }
  destruct Hspec as (Hin & Hnr & Hnd). assert (er = 1) as ->.
  { destruct Her as [->|]; [exfalso|done]. destruct HI as [_ _ []].
    destruct (ch_closed c) eqn:Hc.
    - destruct (l_closed eq_refl) as [_ HR]. rewrite HR in Hnr; done.
    - rewrite (l_recv eq_refl ltac:(lia) w Hin) in Hnr. done. }
  destruct (proj1 (queue_waiters _ HW) w Hin) as [x Hx].
  destruct (waiter_views _ _ _ Hx) as (_ & _ & Hf).
  unfold waiter. wp_simpl. unfold of_option, wp at 1. rewrite Hx. cbn.
  fold (reserved_waiter x). destruct (w_future x) as [future|].
  - rewrite wp_bind. wp_apply (queue_remove_spec Receivers); [apply HW|]. intros _ c1 [_ ->].
    unfold del_callback. wp_simpl. change (wp ?m ?Φ _) with (wp m Φ (leave_future w c)).
    assert (Inv 1 0 pc false (leave_future w c) l) as HI1
      by (apply leave_future_Inv; [done|by rewrite Hf]).
    destruct l as [|v l']; [simpl in *; pose proof (rr_nonneg _ HW); lia|].
    wp_apply (take_spec 1); [by right|done|done|]. intros r1 c2 (-> & HI2 & Hp2 & _ & _).
    rewrite wp_bind. unfold of_option, wp at 1. cbn. unfold emit. wp_simpl.
    assert (ch_capacity c = 0 → l' = []) as Hl'.
    { intros Hk. pose proof (d_len _ _ _ _ HD) as Hlen. unfold slots in Hlen.
      destruct l'; simpl in *; [done|lia]. }
    assert (ch_capacity c2 = ch_capacity c) as Hcap by (by apply Hp2).
    wp_apply (wake_sender_spec 1 true _ l'); [by right| |by cbn; rewrite Hcap; auto|].
    { by apply Inv_future. }
    intros _ c3 [HI3 Hp3]. wp_simpl. wp_apply refresh_spec. intros _ c4 Ht4. exists l'. split_and!.
    + eapply Inv_tframe; [done|]. apply Inv_commit_pending; [|done].
      replace (ch_capacity c3) with (ch_capacity c); [done|]. rewrite <- Hcap. symmetry. by apply Hp3.
    + etrans; [apply leave_future_pframe|]. etrans; [exact Hp2|].
      etrans; [by apply (emit_pframe (FutureComplete future v))|]. etrans; [exact Hp3|]. by apply tframe_pframe.
    + eauto.
  - unfold del_callback, emit, set_waiter. wp_simpl. wp_apply refresh_spec. intros _ c2 Ht.
    change (tframe (reserve_receiver w x c) c2) in Ht. exists l. split_and!.
    + eapply Inv_tframe; [done|]. by eapply reserve_receiver_Inv.
    + etrans; [|by apply tframe_pframe]. by apply reserve_receiver_pframe.
    + by left.
Qed.

(** *** Suspending *)
Definition park_state (s : side) (delivering : bool) c : async_channel_t Q V :=
  let w := next_waiter c in
  set_parked s (parked_of s c ++ [w]) (set_ch_callbacks (ch_callbacks c ++ [w])
    (set_queue s (queue_of s c ++ [w])
      (set_waiters (<[w := mk_waiter None false delivering]> (waiters c))
        (set_next_waiter (S w) c)))).

Lemma fresh_notin c : WInv c →
  (next_waiter c ∉ waiting_receivers c) ∧ (next_waiter c ∉ waiting_senders c) ∧
  (next_waiter c ∉ parked_receivers c) ∧ (next_waiter c ∉ parked_senders c).
Proof.
  intros HW. assert (∀ w, (w < next_waiter c)%nat → w ≠ next_waiter c) by lia.
  destruct HW. split_and!; intros Hin; specialize (w_old (next_waiter c)); specialize (w_S (next_waiter c));
    [assert (next_waiter c < next_waiter c)%nat by tauto; lia..].
Qed.

(** A fresh waiter changes the view of no other. *)
Lemma fresh_views c x w : WInv c → (w < next_waiter c)%nat →
  resv (<[next_waiter c := x]> (waiters c)) w = resv (waiters c) w ∧
  deliv (<[next_waiter c := x]> (waiters c)) w = deliv (waiters c) w ∧
  fut (<[next_waiter c := x]> (waiters c)) w = fut (waiters c) w.
Proof.
  intros _ Hlt. rewrite resv_insert, deliv_insert, fut_insert. rewrite !decide_False by lia. done.
Qed.
Lemma fresh_view c x :
  resv (<[next_waiter c := x]> (waiters c)) (next_waiter c) = w_reserved x ∧
  deliv (<[next_waiter c := x]> (waiters c)) (next_waiter c) = w_delivering x ∧
  fut (<[next_waiter c := x]> (waiters c)) (next_waiter c) = w_future x.
Proof. rewrite resv_insert, deliv_insert, fut_insert. by rewrite !decide_True. Qed.

Lemma fresh_dom c x w : WInv c →
  is_Some (<[next_waiter c := x]> (waiters c) !! w) ↔ (w < S (next_waiter c))%nat.
Proof.
  intros HW. destruct (decide (w = next_waiter c)) as [->|]; simplify_map_eq.
  - split; [lia|by eexists].
  - rewrite (w_dom _ HW). lia.
Qed.

Lemma fresh_cnt c x ps : WInv c → (∀ w, w ∈ ps → (w < next_waiter c)%nat) →
  cnt (resv (<[next_waiter c := x]> (waiters c))) ps = cnt (resv (waiters c)) ps.
Proof. intros HW Hlt. apply cnt_ext. intros w Hw. by apply fresh_views; auto. Qed.

Lemma NoDup_snoc {A} (a : A) (q : list A) : a ∉ q → NoDup q → NoDup (q ++ [a]).
Proof.
  intros Ha Hq. apply NoDup_app. split_and!; [done| |apply NoDup_singleton].
  intros b Hb ->%list_elem_of_singleton. done.
Qed.
#[local] Hint Resolve NoDup_snoc NoDup_filter : core.

(** The waiters in use are older than the fresh one. *)
Lemma old_waiters c : WInv c → ∀ w, w ∈ waiting_receivers c ∨ w ∈ waiting_senders c ∨
  w ∈ parked_receivers c ∨ w ∈ parked_senders c ∨ w ∈ ch_callbacks c → (w < next_waiter c)%nat.
Proof.
  intros [] w. pose proof (w_old w). pose proof (w_S w). pose proof (w_cb w). tauto.
Qed.

Lemma park_receiver_WInv c : WInv c → WInv (park_state Receivers false c).
Proof.
  intros HW. pose proof (fresh_notin c HW) as (HnR & HnS & HnPR & HnPS).
  set (x := mk_waiter None false false).
  assert (resv (<[next_waiter c := x]> (waiters c)) (next_waiter c) = false ∧
    deliv (<[next_waiter c := x]> (waiters c)) (next_waiter c) = false ∧
    fut (<[next_waiter c := x]> (waiters c)) (next_waiter c) = None) as (Hvr & Hvd & Hvf)
    by apply fresh_view.
  pose proof (old_waiters c HW) as Hold. pose proof (λ w H, fresh_views c x w HW H) as Hv.
  pose proof HW as []. constructor; cbn; fold x; auto.
  - by intros; apply fresh_dom.
  - intros w. rewrite !elem_of_snoc. specialize (w_old w). intros Hw.
    destruct (decide (w = next_waiter c)); [lia|]. enough (w < next_waiter c)%nat by lia. tauto.
  - intros w. rewrite elem_of_snoc. intros [?| ->]; [eauto|done].
  - intros w. rewrite !elem_of_snoc. intros [Hw| ->]; [|rewrite Hvd, Hvf; cbn; rewrite elem_of_snoc; by auto].
    destruct (Hv w) as (-> & -> & ->); [by apply Hold; tauto|]. destruct (w_R w Hw) as [? HR].
    split; [done|]. destruct (fut (waiters c) w); rewrite elem_of_snoc; [|by left].
    split_and!; [tauto| |tauto]. intros [?| ->]; tauto.
  - intros w. rewrite !elem_of_snoc. intros [Hw| ->]; [|rewrite Hvd, Hvf; cbn; by auto].
    destruct (Hv w) as (-> & -> & ->); [by apply Hold; tauto|]. destruct (w_PR w Hw) as (? & ? & ?). auto.
  - intros w Hw. destruct (Hv w) as (-> & -> & ->); [by apply Hold; tauto|]. by apply w_PS.
  - rewrite cnt_app, cnt_cons, fresh_cnt, Hvr by (done || intros; apply Hold; tauto).
    change (cnt _ []) with 0. lia.
  - rewrite fresh_cnt by (done || intros; apply Hold; tauto). done.
  - intros w. rewrite !elem_of_snoc. intros [Hw| ->]; [|rewrite Hvr; by auto].
    destruct (Hv w) as (-> & _); [by apply Hold; tauto|]. destruct (w_cb w Hw). tauto.
  - intros w e ?%w_wakes. lia.
  - intros w. rewrite !elem_of_snoc. intros Hp. destruct (decide (w = next_waiter c)) as [->|Hne].
    { rewrite Hvr. split; [done|]. tauto. }
    destruct (Hv w) as (-> & _); [by apply Hold; tauto|]. destruct (w_woken w) as [H1 H2]; [tauto|].
    split; [done|]. intros. apply H2; tauto.
  - intros w Hw. destruct (Hv w) as (_ & -> & _); [by apply Hold; tauto|]. by apply w_quiet.
Qed.

Lemma park_sender_WInv d c : WInv c → WInv (park_state Senders d c).
Proof.
  intros HW. pose proof (fresh_notin c HW) as (HnR & HnS & HnPR & HnPS).
  set (x := mk_waiter None false d).
  assert (resv (<[next_waiter c := x]> (waiters c)) (next_waiter c) = false ∧
    deliv (<[next_waiter c := x]> (waiters c)) (next_waiter c) = d ∧
    fut (<[next_waiter c := x]> (waiters c)) (next_waiter c) = None) as (Hvr & Hvd & Hvf)
    by apply fresh_view.
  pose proof (old_waiters c HW) as Hold. pose proof (λ w H, fresh_views c x w HW H) as Hv.
  pose proof HW as []. constructor; cbn; fold x; auto.
  - by intros; apply fresh_dom.
  - intros w. rewrite !elem_of_snoc. specialize (w_old w). intros Hw.
    destruct (decide (w = next_waiter c)); [lia|]. enough (w < next_waiter c)%nat by lia. tauto.
  - intros w Hw. rewrite elem_of_snoc. intros [?| ->]; [eauto|done].
  - intros w Hw. destruct (Hv w) as (-> & -> & ->); [by apply Hold; tauto|]. destruct (w_R w Hw) as [? HR].
    split; [done|]. destruct (fut (waiters c) w); [|done]. rewrite elem_of_snoc.
    split_and!; [tauto|tauto|]. intros [?| ->]; tauto.
  - intros w. rewrite !elem_of_snoc. intros [Hw| ->]; auto.
  - intros w Hw. destruct (Hv w) as (-> & -> & ->); [by apply Hold; tauto|]. by apply w_PR.
  - intros w. rewrite !elem_of_snoc. intros [Hw| ->]; [|by rewrite Hvf, Hvr].
    destruct (Hv w) as (-> & -> & ->); [by apply Hold; tauto|]. by apply w_PS.
  - rewrite fresh_cnt by (done || intros; apply Hold; tauto). done.
  - rewrite cnt_app, cnt_cons, fresh_cnt, Hvr by (done || intros; apply Hold; tauto).
    change (cnt _ []) with 0. lia.
  - intros w. rewrite !elem_of_snoc. intros [Hw| ->]; [|rewrite Hvr; by auto].
    destruct (Hv w) as (-> & _); [by apply Hold; tauto|]. destruct (w_cb w Hw). tauto.
  - intros w e ?%w_wakes. lia.
  - intros w. rewrite !elem_of_snoc. intros Hp. destruct (decide (w = next_waiter c)) as [->|Hne].
    { rewrite Hvr. split; [done|]. tauto. }
    destruct (Hv w) as (-> & _); [by apply Hold; tauto|]. destruct (w_woken w) as [H1 H2]; [tauto|].
    split; [done|]. intros. apply H2; tauto.
  - intros w. rewrite elem_of_snoc. intros [Hw| ->].
    + destruct (Hv w) as (_ & -> & _); [by apply Hold; tauto|]. by apply w_quiet.
    + intros _ ?%w_wakes. lia.
Qed.

(** Parking is the fresh waiter, up to the timer. *)
Lemma wait_for_park_spec s token d c :
  wp (wait_for_park s token d) (λ o c',
    if token then o = None ∧ c' = c
    else o = Some (next_waiter c) ∧ tframe (park_state s d c) c') c.
Proof.
  unfold wait_for_park. destruct token; [by wp_simpl|].
  unfold set_waiter, channel_queue_push, add_callback. wp_simpl. wp_apply refresh_spec.
  intros _ c' (a & r & g & ts & Hts & ->). wp_simpl. split; [done|].
  exists a, r, g, ts. split; [done|]. by destruct s.
Qed.

Lemma park_receiver_Inv c l : Inv 0 0 false false c l → ch_closed c = false →
  Z.of_nat (length l) ≤ reserved_receivers c → Inv 0 0 false false (park_state Receivers false c) l.
Proof.
  intros [HD HW []] Hc Hfull. pose proof (fresh_view c (mk_waiter None false false)) as (Hvr & Hvd & _).
  pose proof (old_waiters c HW) as Hold.
  pose proof (λ w H, fresh_views c (mk_waiter None false false) w HW H) as Hv. split.
  - destruct HD. by constructor.
  - by apply park_receiver_WInv.
  - constructor; cbn; auto; try lia; try congruence.
    + intros ? Hr w Hw. destruct (Hv w) as (-> & -> & _); [by apply Hold; tauto|]. by apply l_send.
    + intros w Hw. destruct (Hv w) as (_ & -> & _); [by apply Hold; tauto|]. by apply l_deliv.
    + intros w w' Hw Hw'. destruct (Hv w) as (_ & -> & _); [by apply Hold; tauto|].
      destruct (Hv w') as (_ & -> & _); [by apply Hold; tauto|]. by apply l_deliv1.
Qed.

Lemma park_sender_Inv (d : bool) c l : Inv 0 0 false false c l → ch_closed c = false →
  (if d then ch_capacity c = 0 ∧ l ≠ [] ∧ rendezvous_committed c = false ∧
     ∀ w, w ∈ waiting_senders c → deliv (waiters c) w = false
   else slots (ch_capacity c) - Z.of_nat (length l) ≤ reserved_senders c) →
  Inv 0 0 false false (park_state Senders d c) l.
Proof.
  intros [HD HW []] Hc Hcase. pose proof (fresh_view c (mk_waiter None false d)) as (Hvr & Hvd & _).
  pose proof (old_waiters c HW) as Hold.
  pose proof (λ w H, fresh_views c (mk_waiter None false d) w HW H) as Hv. split.
  - destruct HD. by constructor.
  - by apply park_sender_WInv.
  - constructor; cbn; auto; try congruence; try setoid_rewrite elem_of_snoc.
    + intros ? Hr w Hw. destruct (Hv w) as (-> & _); [by apply Hold; tauto|]. by apply l_recv.
    + intros ? Hr w [Hw| ->]; [|rewrite Hvr, Hvd; destruct d; [by right|lia]].
      destruct (Hv w) as (-> & -> & _); [by apply Hold; tauto|]. by apply l_send.
    + intros w [Hw| ->]; [destruct (Hv w) as (_ & -> & _); [by apply Hold; tauto|]; by apply l_deliv|].
      rewrite Hvd. cbn. intros ->. destruct Hcase as (Hk & Hl & ? & _). split_and!; try done. right.
      pose proof (d_len _ _ _ _ HD) as Hlen. rewrite Hk in Hlen. unfold slots in Hlen.
      destruct l; [done|]. simpl in *. lia.
    + intros w w' [Hw| ->] [Hw'| ->]; rewrite ?Hvd; cbn.
      * destruct (Hv w) as (_ & -> & _); [by apply Hold; tauto|].
        destruct (Hv w') as (_ & -> & _); [by apply Hold; tauto|]. by apply l_deliv1.
      * destruct (Hv w) as (_ & -> & _); [by apply Hold; tauto|]. intros Hd ->.
        destruct Hcase as (_ & _ & _ & Hno). rewrite Hno in Hd; done.
      * destruct (Hv w') as (_ & -> & _); [by apply Hold; tauto|]. intros -> Hd.
        destruct Hcase as (_ & _ & _ & Hno). rewrite Hno in Hd; done.
      * done.
Qed.

(** *** Resuming *)

(** The coroutine of [w] leaves its queue, the event and the suspended set, and
    gives up its reservation. *)
Definition unpark_state (s : side) w c : async_channel_t Q V :=
  let c1 := set_queue s (filter (.≠ w) (queue_of s c))
    (set_ch_callbacks (filter (.≠ w) (ch_callbacks c))
      (set_parked s (filter (.≠ w) (parked_of s c)) c)) in
  if resv (waiters c) w then
    match s with
    | Receivers => set_reserved_receivers (u32 (reserved_receivers c - 1)) c1
    | Senders => set_reserved_senders (u32 (reserved_senders c - 1)) c1
    end
  else c1.

Lemma unpark_receiver_WInv w c :
  reserved_receivers c < 2 ^ 32 → WInv c → w ∈ parked_receivers c →
  WInv (unpark_state Receivers w c).
Proof.
  intros Hu HW Hw. pose proof (w_rr _ HW) as Hrr.
  assert (cnt (resv (waiters c)) (filter (.≠ w) (parked_receivers c)) =
    (if resv (waiters c) w then u32 (reserved_receivers c - 1) else reserved_receivers c)) as Hcnt.
  { rewrite cnt_remove by (done || apply HW). destruct (resv (waiters c) w) eqn:E; [|lia].
    pose proof (cnt_pos _ _ _ Hw E). rewrite u32_small; lia. }
  unfold unpark_state. cbn. destruct HW.
  destruct (resv (waiters c) w) eqn:E; (constructor; cbn; auto; try setoid_rewrite list_elem_of_filter;
    [ intros w' Hw'; apply w_old; tauto
    | intros w' [_ ?] ?; eauto
    | intros w' [Hne Hw']; destruct (w_R w' Hw') as [? HR]; split; [done|];
      destruct (fut (waiters c) w'); rewrite list_elem_of_filter; tauto
    | intros w' [Hne Hw']; destruct (w_PR w' Hw') as (? & ? & ?); split_and!; by auto
    | intros w' [Hne Hw']; destruct (w_cb w' Hw'); tauto
    | intros w' Hp; destruct (w_woken w') as [H1 H2]; [tauto|]; split; [done|]; intros HR HS;
      apply H2; [|done]; intros HinR; apply HR; split; [|done]; intros ->;
      destruct Hp as [[??]|HpS]; [done|by apply (w_disj w)] ]).
Qed.

Lemma unpark_sender_WInv w c :
  reserved_senders c < 2 ^ 32 → WInv c → w ∈ parked_senders c →
  WInv (unpark_state Senders w c).
Proof.
  intros Hu HW Hw. pose proof (w_rs _ HW) as Hrs.
  assert (cnt (resv (waiters c)) (filter (.≠ w) (parked_senders c)) =
    (if resv (waiters c) w then u32 (reserved_senders c - 1) else reserved_senders c)) as Hcnt.
  { rewrite cnt_remove by (done || apply HW). destruct (resv (waiters c) w) eqn:E; [|lia].
    pose proof (cnt_pos _ _ _ Hw E). rewrite u32_small; lia. }
  unfold unpark_state. cbn. destruct HW.
  destruct (resv (waiters c) w) eqn:E; (constructor; cbn; auto; try setoid_rewrite list_elem_of_filter;
    [ intros w' Hw'; apply w_old; tauto
    | intros w' ? [_ ?]; eauto
    | intros w' Hw'; destruct (w_R w' Hw') as [? HR]; split; [done|];
      destruct (fut (waiters c) w'); rewrite ?list_elem_of_filter; tauto
    | intros w' [Hne Hw']; auto
    | intros w' [Hne Hw']; by apply w_PS
    | intros w' [Hne Hw']; destruct (w_cb w' Hw'); tauto
    | intros w' Hp; destruct (w_woken w') as [H1 H2]; [tauto|]; split; [done|]; intros HR HS;
      apply H2; [done|]; intros HinS; apply HS; split; [|done]; intros ->;
      destruct Hp as [HpR|[??]]; [by apply (w_disj w)|done]
    | intros w' [_ ?]; by apply w_quiet ]).
Qed.

Lemma unpark_receiver_Inv w c l : Inv 0 0 false false c l → w ∈ parked_receivers c →
  Inv (if resv (waiters c) w then 1 else 0) 0 false false (unpark_state Receivers w c) l.
Proof.
  intros [HD HW []] Hw. pose proof (slots_small _ _ _ _ HD). pose proof HD as [].
  assert (WInv (unpark_state Receivers w c)) as HW' by (apply unpark_receiver_WInv; [lia|done..]).
  unfold unpark_state in *. cbn in *. destruct (resv (waiters c) w) eqn:E.
  - assert (0 < reserved_receivers c) as Hpos by (rewrite (w_rr _ HW); by eapply cnt_pos).
    rewrite u32_small in * by lia. split; [|done|].
    + constructor; cbn; auto; lia.
    + constructor; cbn; auto; try setoid_rewrite list_elem_of_filter.
      * intros ?? w' [_ ?]. apply l_recv; [done|lia|done].
      * intros Hc. destruct (l_closed Hc). naive_solver.
      * intros. apply l_commit; [done|done|lia].
  - split; [|done|].
    + by constructor.
    + constructor; cbn; auto; try setoid_rewrite list_elem_of_filter.
      * intros ?? w' [_ ?]. apply l_recv; [done|lia|done].
      * intros Hc. destruct (l_closed Hc). naive_solver.
Qed.

Lemma unpark_sender_Inv w c l : Inv 0 0 false false c l → w ∈ parked_senders c →
  Inv 0 (if resv (waiters c) w then 1 else 0) false false (unpark_state Senders w c) l.
Proof.
  intros [HD HW []] Hw. pose proof (slots_small _ _ _ _ HD). pose proof HD as [].
  assert (WInv (unpark_state Senders w c)) as HW' by (apply unpark_sender_WInv; [lia|done..]).
  unfold unpark_state in *. cbn in *. destruct (resv (waiters c) w) eqn:E.
  - assert (0 < reserved_senders c) as Hpos by (rewrite (w_rs _ HW); by eapply cnt_pos).
    rewrite u32_small in * by lia. split; [|done|].
    + constructor; cbn; auto; lia.
    + constructor; cbn; auto; try setoid_rewrite list_elem_of_filter.
      * intros ?? w' [_ ?]. apply l_send; [done|lia|done].
      * intros Hc. destruct (l_closed Hc) as [-> ?]. done.
      * intros w' [_ ?]. by apply l_deliv.
      * intros w' w'' [_ ?] [_ ?]. by apply l_deliv1.
  - split; [|done|].
    + by constructor.
    + constructor; cbn; auto; try setoid_rewrite list_elem_of_filter.
      * intros ?? w' [_ ?]. apply l_send; [done|lia|done].
      * intros Hc. destruct (l_closed Hc) as [-> ?]. done.
      * intros w' [_ ?]. by apply l_deliv.
      * intros w' w'' [_ ?] [_ ?]. by apply l_deliv1.
Qed.

(** A resumed receiver: it holds its reservation ([spent]), or has handed it on
    to the next receiver. *)
Lemma resume_receiver_spec w exn c l : Inv 0 0 false false c l → w ∈ parked_receivers c →
  wp (wait_for_resume Receivers w exn) (λ spent c',
    spent = resv (waiters c) w && negb exn ∧ pframe (unpark_state Receivers w c) c' ∧
    if (spent : bool) then Inv 1 0 false false c' l
    else ∃ l', Inv 0 0 false false c' l' ∧ (exn = false → l' = l)) c.
Proof.
  intros HI Hw. pose proof (unpark_receiver_Inv w c l HI Hw) as HI'.
  pose proof (i_wait _ _ _ _ _ _ HI) as HW. pose proof (i_data _ _ _ _ _ _ HI) as HD.
  destruct (proj2 (w_dom _ HW w)) as [x Hx]; [apply (old_waiters c HW); tauto|].
  destruct (waiter_views _ _ _ Hx) as (Hr & Hd & _). destruct (w_PR _ HW w Hw) as (_ & Hnd & _).
  unfold wait_for_resume, del_callback, waiter, of_option. wp_simpl. unfold wp at 1. cbn. rewrite Hx. cbn.
  rewrite wp_bind. wp_apply (queue_remove_spec Receivers); [apply HW|]. intros q c1 [_ ->]. cbn.
  rewrite <- Hd, Hnd. cbn. rewrite <- Hr. wp_simpl.
  unfold unpark_state in *. cbn in *. destruct (resv (waiters c) w) eqn:E; cbn.
  - assert (0 < reserved_receivers c) as Hpos by (rewrite (w_rr _ HW); by eapply cnt_pos).
    wp_simpl. split; [by apply Z.ltb_lt|]. destruct exn; cbn; wp_simpl.
    + destruct (ch_closed c) eqn:Hc; cbn; wp_simpl.
      * wp_apply refresh_spec. intros _ c2 Ht. split_and!; [done|by apply tframe_pframe in Ht|].
        exists l. split; [|done]. eapply Inv_tframe; [exact Ht|].
        eapply (Inv_closed_weaken 1 0); [lia|lia|done|exact HI'].
      * wp_apply (wake_receiver_spec 1 false _ l); [by right|exact HI'|].
        intros woken c2 (l' & HI2 & Hp & _). wp_simpl. wp_apply refresh_spec. intros _ c3 Ht.
        split_and!; [done|etrans; [exact Hp|by apply tframe_pframe]|].
        exists l'. split; [by eapply Inv_tframe|done].
    + wp_apply refresh_spec. intros _ c2 Ht. split_and!; [done|by apply tframe_pframe in Ht|].
      by eapply Inv_tframe.
  - wp_simpl. wp_apply refresh_spec. intros _ c2 Ht. split_and!; [done|by apply tframe_pframe in Ht|].
    exists l. split; [by eapply Inv_tframe|done].
Qed.

(** A resumed sender.  A cancelled rendezvous sender whose value nobody took
    takes it back. *)
Lemma resume_sender_spec w exn c l : Inv 0 0 false false c l → w ∈ parked_senders c →
  wp (wait_for_resume Senders w exn) (λ spent c',
    spent = resv (waiters c) w && negb exn ∧ pframe (unpark_state Senders w c) c' ∧
    if (spent : bool) then Inv 0 1 false false c' l
    else ∃ l', Inv 0 0 false false c' l' ∧
      if deliv (waiters c) w && exn && bool_decide (w ∈ waiting_senders c) then l' = [] else l' = l) c.
Proof.
  intros HI Hw. pose proof (unpark_sender_Inv w c l HI Hw) as HI'.
  pose proof (i_wait _ _ _ _ _ _ HI) as HW. pose proof (i_data _ _ _ _ _ _ HI) as HD.
  pose proof (i_live _ _ _ _ _ _ HI) as HL.
  destruct (proj2 (w_dom _ HW w)) as [x Hx]; [apply (old_waiters c HW); tauto|].
  destruct (waiter_views _ _ _ Hx) as (Hr & Hd & _). destruct (w_PS _ HW w Hw) as (_ & Hnd).
  unfold wait_for_resume, del_callback, waiter, of_option. wp_simpl. unfold wp at 1. cbn. rewrite Hx. cbn.
  rewrite wp_bind. wp_apply (queue_remove_spec Senders); [apply HW|]. intros q c1 [-> ->]. cbn.
  rewrite <- Hd, <- Hr. unfold unpark_state in *. cbn in *. destruct (resv (waiters c) w) eqn:E; cbn.
  - rewrite Hnd by done. cbn. wp_simpl.
    assert (0 < reserved_senders c) as Hpos by (rewrite (w_rs _ HW); by eapply cnt_pos).
    split; [by apply Z.ltb_lt|]. destruct exn; cbn; wp_simpl.
    + destruct (ch_closed c) eqn:Hc; cbn; wp_simpl.
      * wp_apply refresh_spec. intros _ c2 Ht. split_and!; [done|by apply tframe_pframe in Ht|].
        exists l. split; [|done]. eapply Inv_tframe; [exact Ht|].
        eapply (Inv_closed_weaken 0 1); [lia|lia|done|exact HI'].
      * wp_apply (wake_sender_spec 1 false _ l); [by right|exact HI'|done|].
        intros _ c2 (HI2 & Hp). wp_apply refresh_spec. intros _ c3 Ht.
        split_and!; [done|etrans; [exact Hp|by apply tframe_pframe]|].
        exists l. split; [by eapply Inv_tframe|done].
    + wp_apply refresh_spec. intros _ c2 Ht. split_and!; [done|by apply tframe_pframe in Ht|].
      by eapply Inv_tframe.
  - destruct (deliv (waiters c) w) eqn:Ed; cbn; wp_simpl.
    2:{ wp_apply refresh_spec. intros _ c2 Ht. split_and!; [done|by apply tframe_pframe in Ht|].
        exists l. split; [by eapply Inv_tframe|done]. }
    case_bool_decide as Hin; cbn; rewrite ?andb_false_r, ?andb_true_r; wp_simpl.
    2:{ wp_apply refresh_spec. intros _ c2 Ht. split_and!; [done|by apply tframe_pframe in Ht|].
        exists l. split; [by eapply Inv_tframe|done]. }
    destruct (l_deliv _ _ _ _ _ _ HL w Hin Ed) as (Hk & Hcm & _ & [|Hn]); [done|].
    assert (ch_closed c = false) as Hc.
    { destruct (ch_closed c) eqn:Hc; [|done]. destruct (l_closed _ _ _ _ _ _ HL Hc) as [HS _].
      rewrite HS in Hin. by apply not_elem_of_nil in Hin. }
    assert (rendezvous_has_value c = true) as Hhas.
    { destruct (has_value_spec _ _ _ _ HD) as (_ & _ & ->); [lia|].
      apply bool_decide_eq_true. by intros ->. }
    destruct exn; cbn; wp_simpl; cycle 1.
    { change (ch_closed _) with (ch_closed c). rewrite Hc. cbn.
      wp_apply (wake_sender_spec 0 false _ l); [by left|exact HI'|done|].
      intros _ c2 (HI2 & Hp). wp_apply refresh_spec. intros _ c3 Ht.
      split_and!; [done|etrans; [exact Hp|by apply tframe_pframe]|].
      exists l. split; [by eapply Inv_tframe|done]. }
    change (rendezvous_has_value _) with (rendezvous_has_value c).
    change (rendezvous_committed _) with (rendezvous_committed c). rewrite Hhas, Hcm. cbn.
    wp_apply (drop_spec _ l); [exact HI'|done|done|done| |].
    { cbn. intros w' [Hne Hw']%list_elem_of_filter. destruct (deliv (waiters c) w') eqn:Ed'; [|done].
      destruct Hne. by apply (l_deliv1 _ _ _ _ _ _ HL). }
    intros _ c2 (v & -> & HI2 & Hp2 & _). wp_simpl.
    replace (ch_closed c2) with false by (symmetry; etrans; [apply Hp2|done]). cbn.
    wp_apply (wake_sender_spec 1 false _ []); [by right|exact HI2|done|].
    intros _ c3 (HI3 & Hp3). wp_apply refresh_spec. intros _ c4 Ht.
    split_and!; [done|etrans; [exact Hp2|]; etrans; [exact Hp3|by apply tframe_pframe]|].
    exists []. split; [by eapply Inv_tframe|done].
Qed.

(** *** Closing *)

(** What [channel_wake_all] tells an unreserved receiver, or a sender. *)
Definition fail_effect (ex : string * string) (ws : gmap nat channel_waiter_t) w : effect V :=
  match fut ws w with Some future => FutureReject future ex | None => Wake w (Some ex) end.
Definition unreserved (ws : gmap nat channel_waiter_t) (q : list nat) : list nat :=
  filter (λ w, resv ws w = false) q.
Definition keep_reserved (ws : gmap nat channel_waiter_t) (q : list nat) : list nat :=
  filter (λ w, resv ws w = true) q.

Lemma unreserved_snoc ws q w :
  unreserved ws (q ++ [w]) = unreserved ws q ++ (if resv ws w then [] else [w]).
Proof.
  unfold unreserved. rewrite filter_app. f_equal. rewrite filter_cons, filter_nil.
  by case_decide; destruct (resv ws w).
Qed.
Lemma keep_reserved_snoc ws q w :
  keep_reserved ws (q ++ [w]) = keep_reserved ws q ++ (if resv ws w then [w] else []).
Proof.
  unfold keep_reserved. rewrite filter_app. f_equal. rewrite filter_cons, filter_nil.
  by case_decide; destruct (resv ws w).
Qed.

(** [c] with its queues, registrations and history replaced. *)
Definition set_queues (R S cb : list nat) (o : list (effect V)) c : async_channel_t Q V :=
  set_out o (set_ch_callbacks cb (set_waiting_senders S (set_waiting_receivers R c))).

Lemma set_queues_id c :
  set_queues (waiting_receivers c) (waiting_senders c) (ch_callbacks c) (out c) c = c.
Proof. by destruct c. Qed.

Lemma wake_all_receivers_spec i ex c :
  (i ≤ length (waiting_receivers c))%nat →
  (∀ w, w ∈ waiting_receivers c → is_Some (waiters c !! w)) →
  wp (wake_all_receivers i ex) (λ _ c',
    let failed := unreserved (waiters c) (take i (waiting_receivers c)) in
    c' = set_queues
      (keep_reserved (waiters c) (take i (waiting_receivers c)) ++ drop i (waiting_receivers c))
      (waiting_senders c) (filter (.∉ failed) (ch_callbacks c))
      (out c ++ (fail_effect ex (waiters c) <$> reverse failed)) c) c.
Proof.
  revert c. induction i as [|i IH]; intros c Hi Hdom; simpl.
  { wp_simpl. unfold unreserved, keep_reserved. simpl. rewrite app_nil_r, drop_0, filter_all.
    - by rewrite set_queues_id.
    - intros w _ Hin. by apply not_elem_of_nil in Hin. }
  destruct (lookup_lt_is_Some_2 (waiting_receivers c) i) as [w Hw]; [lia|].
  destruct (Hdom w) as [x Hx]; [by eapply list_elem_of_lookup_2|].
  destruct (waiter_views _ _ _ Hx) as (Hr & _ & Hf).
  pose proof (drop_S _ _ _ Hw) as Hdrop. rewrite (take_S_r _ _ w) by done.
  unfold waiter, of_option. wp_simpl. unfold wp at 1. rewrite Hw. cbn. wp_simpl.
  unfold wp at 1. rewrite Hx. cbn. rewrite <- Hr, unreserved_snoc, keep_reserved_snoc.
  destruct (resv (waiters c) w) eqn:E.
  - wp_simpl. wp_apply IH; [lia|done|]. intros _ c' ->.
    by rewrite app_nil_r, <- app_assoc, Hdrop.
  - assert (channel_queue_remove_at (waiting_receivers c) i =
      take i (waiting_receivers c) ++ drop (S i) (waiting_receivers c)) as Hrem
      by (apply remove_at_take_drop; lia).
    set (c1 := set_queues (take i (waiting_receivers c) ++ drop (S i) (waiting_receivers c))
      (waiting_senders c) (filter (.≠ w) (ch_callbacks c))
      (out c ++ [fail_effect ex (waiters c) w]) c).
    assert (wp (wake_all_receivers i ex) (λ _ c', c' = set_queues
      (keep_reserved (waiters c) (take i (waiting_receivers c)) ++ drop (S i) (waiting_receivers c))
      (waiting_senders c) (filter (.∉ unreserved (waiters c) (take i (waiting_receivers c)) ++ [w])
        (ch_callbacks c))
      (out c ++ (fail_effect ex (waiters c) <$>
         reverse (unreserved (waiters c) (take i (waiting_receivers c)) ++ [w]))) c) c1) as Hwp.
    { assert (length (take i (waiting_receivers c)) = i) as Hlen by (rewrite length_take; lia).
      wp_apply IH.
      - cbn. rewrite length_app, Hlen. lia.
      - cbn. intros w'. rewrite elem_of_app. intros [Hin|Hin]; apply Hdom;
          [by eapply subseteq_take|by eapply subseteq_drop].
      - cbn. intros _ c' ->. rewrite take_app_length', drop_app_length' by done.
        rewrite list_filter_filter, reverse_app, fmap_app, <- app_assoc. cbn.
        rewrite (list_filter_iff _ (.∉ unreserved (waiters c) (take i (waiting_receivers c)) ++ [w])).
        + done.
        + intros w'. rewrite not_elem_of_app, list_elem_of_singleton. tauto. }
    rewrite app_nil_r, wp_bind. unfold del_callback, emit. wp_simpl. rewrite Hrem. cbn.
    unfold c1, fail_effect in Hwp. rewrite Hf in Hwp.
    destruct (w_future x); wp_simpl; exact Hwp.
Qed.

Lemma wake_all_senders_spec i ex c : i = length (waiting_senders c) →
  wp (wake_all_senders i ex) (λ _ c',
    c' = set_queues (waiting_receivers c) [] (filter (.∉ waiting_senders c) (ch_callbacks c))
      (out c ++ ((λ w, Wake w (Some ex)) <$> reverse (waiting_senders c))) c) c.
Proof.
  revert c. induction i as [|i IH]; intros c Hi; simpl.
  { wp_simpl. symmetry in Hi. apply nil_length_inv in Hi. rewrite Hi. simpl.
    rewrite app_nil_r, filter_all by by intros w _ ?%not_elem_of_nil.
    rewrite <- Hi at 1. by rewrite set_queues_id. }
  destruct (lookup_lt_is_Some_2 (waiting_senders c) i) as [w Hw]; [lia|].
  pose proof (take_S_r _ _ _ Hw) as Hq. rewrite take_ge in Hq by lia.
  set (c1 := set_queues (waiting_receivers c) (take i (waiting_senders c))
    (filter (.≠ w) (ch_callbacks c)) (out c ++ [Wake w (Some ex)]) c).
  assert (wp (wake_all_senders i ex) (λ _ c',
    c' = set_queues (waiting_receivers c) []
      (filter (.∉ take i (waiting_senders c) ++ [w]) (ch_callbacks c))
      (out c ++ ((λ w, Wake w (Some ex)) <$> reverse (take i (waiting_senders c) ++ [w]))) c) c1)
    as Hwp.
  { wp_apply IH; [cbn; rewrite length_take; lia|]. cbn. intros _ c' ->.
    rewrite list_filter_filter, reverse_app, fmap_app, <- app_assoc. cbn.
    rewrite (list_filter_iff _ (.∉ take i (waiting_senders c) ++ [w])); [done|].
    intros w'. rewrite not_elem_of_app, list_elem_of_singleton. tauto. }
  rewrite <- Hq in Hwp. unfold of_option, del_callback, emit. wp_simpl. unfold wp at 1.
  rewrite Hw. cbn. wp_simpl. unfold channel_queue_remove_at. rewrite <- Hi.
  replace (S i - 1)%nat with i by lia. rewrite Nat.ltb_irrefl. exact Hwp.
Qed.

(** The state [channel_wake_all] leaves: only the reserved receivers remain. *)
Definition failed_state (ex : string * string) c : async_channel_t Q V :=
  set_queues (keep_reserved (waiters c) (waiting_receivers c)) [] []
    (out c ++ (fail_effect ex (waiters c) <$>
       reverse (unreserved (waiters c) (waiting_receivers c))) ++
     ((λ w, Wake w (Some ex)) <$> reverse (waiting_senders c))) c.

Lemma wake_all_spec ex c : WInv c →
  wp (channel_wake_all ex) (λ _ c', c' = failed_state ex c) c.
Proof.
  intros HW. unfold channel_wake_all. wp_simpl.
  wp_apply (wake_all_receivers_spec (length (waiting_receivers c))); [done|apply (queue_waiters _ HW)|].
  intros _ c1 ->. rewrite take_ge, drop_ge, app_nil_r by done. wp_simpl. cbn.
  wp_apply wake_all_senders_spec; [done|]. intros _ c2 ->. wp_simpl. cbn.
  rewrite list_filter_filter.
  assert (filter (λ w, (w ∉ waiting_senders c) ∧
    (w ∉ unreserved (waiters c) (waiting_receivers c))) (ch_callbacks c) = []) as Hcb.
  { destruct (filter _ (ch_callbacks c)) as [|w ws] eqn:E; [done|].
    assert (w ∈ w :: ws) as Hin by by left. rewrite <- E in Hin.
    apply list_elem_of_filter in Hin as [[HS HR] Hin]. destruct (w_cb _ HW w Hin) as [[?|?] ?]; [|done].
    destruct HR. by apply list_elem_of_filter. }
  rewrite Hcb. wp_simpl. unfold failed_state. by rewrite <- app_assoc.
Qed.

(** The closed channel, before an uncommitted rendezvous value is dropped. *)
Definition closed_state (reason : channel_close_reason_t) c : async_channel_t Q V :=
  failed_state (make_channel_exception reason) (set_ch_closed true (set_close_reason reason c)).

Lemma failed_wakes ex c w e :
  Wake w e ∈ (fail_effect ex (waiters c) <$> reverse (unreserved (waiters c) (waiting_receivers c))) ++
     ((λ w, Wake w (Some ex)) <$> reverse (waiting_senders c)) ↔
  e = Some ex ∧ ((w ∈ waiting_receivers c ∧ resv (waiters c) w = false ∧ fut (waiters c) w = None) ∨
                 w ∈ waiting_senders c).
Proof.
  rewrite elem_of_app, !list_elem_of_fmap. setoid_rewrite elem_of_reverse.
  unfold unreserved. setoid_rewrite list_elem_of_filter. unfold fail_effect. split.
  - intros [(w' & Heq & ? & ?)|(w' & [= -> ->] & ?)]; [|by auto].
    destruct (fut (waiters c) w') eqn:E; simplify_eq. by auto.
  - intros [-> [(? & ? & Hf)|?]]; [left|right]; exists w; [|done]. by rewrite Hf.
Qed.

Lemma failed_silent ex c : Forall silent
  ((fail_effect ex (waiters c) <$> reverse (unreserved (waiters c) (waiting_receivers c))) ++
     ((λ w, Wake w (Some ex)) <$> reverse (waiting_senders c))).
Proof.
  apply Forall_app. split; apply Forall_fmap, Forall_forall; intros w _; [|done].
  unfold fail_effect. cbn. by destruct (fut _ _).
Qed.

Lemma failed_not_dropped ex c v :
  Dropped v ∉ (fail_effect ex (waiters c) <$> reverse (unreserved (waiters c) (waiting_receivers c))) ++
     ((λ w, Wake w (Some ex)) <$> reverse (waiting_senders c)).
Proof.
  rewrite elem_of_app, !list_elem_of_fmap. unfold fail_effect.
  intros [(w & ? & _)|(w & ? & _)]; [|done]. by destruct (fut _ _).
Qed.

Lemma closed_state_Inv reason c l :
  Inv 0 0 false false c l → Inv 0 0 false false (closed_state reason c) l.
Proof.
  intros [HD HW HL]. set (ex := make_channel_exception reason).
  pose proof (failed_wakes ex c) as Hwk. pose proof (failed_silent ex c) as Hsil.
  pose proof (failed_not_dropped ex c) as Hnd.
  split; unfold closed_state, failed_state; fold ex; cbn;
    remember ((fail_effect ex (waiters c) <$> _) ++ _) as o.
  - destruct HD. constructor; cbn; try done.
    + autorewrite with waiters. rewrite (accepted_silent o), (gone_silent o) by done.
      by rewrite !app_nil_r.
    + intros ? v. rewrite elem_of_app. intros [?|?]; [by eapply d_keep|by eapply Hnd].
  - destruct HW. constructor; cbn; auto; try done; unfold keep_reserved; try setoid_rewrite list_elem_of_filter.
    + intros w Hw. apply w_old. tauto.
    + constructor.
    + intros w [_ Hw]. by apply w_R.
    + intros w ?%not_elem_of_nil. done.
    + intros w Hw. destruct (w_PR w Hw) as (? & ? & ?). auto.
    + intros w ?%not_elem_of_nil. done.
    + intros w e. rewrite elem_of_app, Hwk. intros [?|[_ [[? _]|?]]]; [by eauto|apply w_old; auto..].
    + intros w Hp. destruct (w_woken w Hp) as [H1 H2]. split; [rewrite elem_of_app; auto|].
      intros HR _. setoid_rewrite elem_of_app. setoid_rewrite Hwk.
      destruct (decide (w ∈ waiting_senders c)); [by eauto|].
      destruct (decide (w ∈ waiting_receivers c)) as [HwR|]; [|destruct H2; eauto].
      exists (Some ex). right. split; [done|]. left. split; [done|].
      destruct (resv (waiters c) w) eqn:E; [tauto|]. split; [done|].
      destruct Hp as [Hp|Hp]; [by apply w_PR|by apply w_PS].
    + intros w ?%not_elem_of_nil. done.
  - destruct HL. constructor; cbn; try done; try (intros w ?%not_elem_of_nil; done).
    + intros _. split; [done|]. unfold keep_reserved. intros w [? _]%list_elem_of_filter. done.
    + intros w w' ?%not_elem_of_nil. done.
Qed.

Lemma close_spec reason c l : Inv 0 0 false false c l → ch_closed c = false →
  wp (channel_close reason) (λ _ c', ∃ c1 l', tframe c c1 ∧ deadlock_timer c1 = false ∧
    Inv 0 0 false false c' l' ∧
    if rendezvous_has_value c && negb (rendezvous_committed c) then
      ∃ v, l = [v] ∧ l' = [] ∧
        c' = set_rendezvous_has_value false (set_rendezvous_value None
          (set_out (out (closed_state reason c1) ++ [Dropped v]) (closed_state reason c1)))
    else l' = l ∧ c' = closed_state reason c1) c.
Proof.
  intros HI Hc. unfold channel_close. wp_simpl. rewrite Hc. wp_simpl.
  wp_apply disarm_spec. intros _ c1 [Ht Hoff].
  assert (∃ c0, tframe c c0 ∧ c1 = set_ch_closed true (set_close_reason reason c0) ∧
    deadlock_timer c0 = false) as (c0 & Ht0 & -> & Hoff0).
  { destruct Ht as (a & r & g & ts & Hts & ->). exists (tset a r g ts c). split_and!; [|done..].
    by exists a, r, g, ts. }
  clear Hoff Ht. pose proof (Inv_tframe _ _ _ _ _ _ _ Ht0 HI) as HI0.
  pose proof (closed_state_Inv reason c0 l HI0) as HI1.
  wp_apply wake_all_spec.
  { destruct (i_wait _ _ _ _ _ _ HI0). by constructor. }
  intros _ c2 ->. fold (closed_state reason c0). wp_simpl.
  assert (rendezvous_has_value (closed_state reason c0) = rendezvous_has_value c ∧
    rendezvous_committed (closed_state reason c0) = rendezvous_committed c) as [-> ->]
    by (by destruct Ht0 as (?&?&?&?&?&->)).
  destruct (rendezvous_has_value c && negb (rendezvous_committed c)) eqn:E.
  2:{ exists c0, l. split_and!; done. }
  apply andb_true_iff in E as [Eh Ec]. apply negb_true_iff in Ec.
  assert (ch_capacity c = 0) as Hk.
  { destruct (i_data _ _ _ _ _ _ HI). destruct (decide (0 < ch_capacity c)) as [Hk|]; [|lia].
    destruct (d_buf Hk) as (_ & _ & Hrv). rewrite d_has, Hrv in Eh. done. }
  wp_apply drop_spec; [exact HI1|by destruct Ht0 as (?&?&?&?&?&->)|
    by destruct Ht0 as (?&?&?&?&?&->)|by destruct Ht0 as (?&?&?&?&?&->)|
    by intros w ?%not_elem_of_nil|].
  intros _ c' (v & -> & HI2 & _ & ->). exists c0, []. split_and!; [done|done| |by exists v].
  by eapply (Inv_closed_weaken 0 1).
Qed.
End specs.
