(* ===== verification/ChannelApi.v ===== *)
(** * The channel as its callers use it

    The specifications of [send], [recv], [sendAsync], [recvAsync], [close] and
    the iterator, and the invariant of every state that any interleaving of
    suspended and running coroutines can reach. *)

From S2P Require Import Prelude CircularBuffer Channel ChannelInvariant ChannelSpecs.
From stdpp Require Import strings.

Local Open Scope Z_scope.

Section api.
Context {V Q : Type} `{!FifoBuffer Q V} `{!Reactor V}.
Implicit Types (c : async_channel_t Q V) (l : list V) (w : nat) (v : V).

(** *** What parking leaves alone *)
Definition parked_frame (s : side) w (d : bool) c c' : Prop :=
  w = next_waiter c ∧ next_waiter c' = S w ∧
  parked_receivers c' = parked_receivers c ++ match s with Receivers => [w] | Senders => [] end ∧
  parked_senders c' = parked_senders c ++ match s with Receivers => [] | Senders => [w] end ∧
  (∀ w', deliv (waiters c') w' = if decide (w' = w) then d else deliv (waiters c) w') ∧
  ch_capacity c' = ch_capacity c ∧ ch_closed c' = ch_closed c ∧
  close_reason c' = close_reason c ∧ ∃ o, out c' = out c ++ o ∧ accepted o = [].

Lemma park_state_frame s d c c' :
  tframe (park_state s d c) c' → parked_frame s (next_waiter c) d c c'.
Proof.
  intros (a & r & g & ts & Hts & ->). pose proof (timer_effects_silent _ Hts).
  destruct s; split_and!; cbn; rewrite ?app_nil_r; try done;
    try (by exists ts; split; [|apply accepted_silent]);
    intros w'; rewrite deliv_insert; done.
Qed.

Lemma pframe_parked s w d c1 c2 c3 :
  pframe c1 c2 → parked_frame s w d c2 c3 → parked_frame s w d c1 c3.
Proof.
  intros (? & ? & Hd1 & ? & ? & ? & ? & o1 & Ho1 & Ha1)
    (? & ? & ? & ? & Hd2 & ? & ? & ? & o2 & Ho2 & Ha2).
  split_and!; try congruence.
  - intros w'. rewrite Hd2. case_decide; [done|]. apply Hd1.
  - exists (o1 ++ o2). by rewrite Ho2, Ho1, app_assoc, accepted_app, Ha1, Ha2.
Qed.

(** The kind of a channel is fixed, a closed channel stays closed for the same
    reason, and the history only grows. *)
Definition evolves c c' : Prop :=
  ch_capacity c' = ch_capacity c ∧
  (ch_closed c = true → ch_closed c' = true ∧ close_reason c' = close_reason c) ∧
  ∃ o, out c' = out c ++ o.

#[export] Instance evolves_preorder : PreOrder evolves.
Proof.
  split.
  - intros c. split_and!; try done. exists []. by rewrite app_nil_r.
  - intros c1 c2 c3 (? & H1 & o1 & Ho1) (? & H2 & o2 & Ho2). split_and!; [congruence| |].
    + intros [? ?]%H1. destruct H2; [done|]. split; congruence.
    + exists (o1 ++ o2). by rewrite Ho2, Ho1, app_assoc.
Qed.

Lemma pframe_evolves c c' : pframe c c' → evolves c c'.
Proof.
  intros (_ & _ & _ & _ & ? & ? & ? & o & Ho & _). split_and!; [done|intros; split; congruence|].
  by exists o.
Qed.
Lemma parked_evolves s w d c c' : parked_frame s w d c c' → evolves c c'.
Proof.
  intros (_ & _ & _ & _ & _ & ? & ? & ? & o & Ho & _). split_and!; [done|intros; split; congruence|].
  by exists o.
Qed.

(** *** Sending *)

(** [c] after the value [v] was accepted. *)
Definition accept v c : async_channel_t Q V := set_out (out c ++ [Accepted v]) c.

Lemma accept_evolves v c : evolves c (accept v c).
Proof. split_and!; try done. by eexists. Qed.

(** The outcome of a send, with [free] telling whether a slot was the caller's
    to fill. *)
Definition send_post v (token free : bool) c l (o : outcome unit) c' : Prop :=
  match o with
  | Done _ _ => ch_closed c = false ∧ free = true ∧ pframe (accept v c) c' ∧
      ∃ l', Inv 0 0 false false c' l'
  | ThrowClosed _ ex => ch_closed c = true ∧ c' = c ∧ ex = make_channel_exception (close_reason c)
  | ThrowPending _ => ch_closed c = false ∧ token = true ∧ (0 < ch_capacity c → free = false) ∧
      pframe (if free then accept v c else c) c' ∧ ∃ l', Inv 0 0 false false c' l'
  | Parked _ w d => ch_closed c = false ∧ d = free ∧ (0 < ch_capacity c → free = false) ∧
      Inv 0 0 false false c' (if free then [v] else l) ∧
      parked_frame Senders w d (if free then accept v c else c) c'
  end.

Lemma has_free_slot es c l b : (es = if (b : bool) then 1 else 0) → Inv 0 es false false c l →
  b || channel_has_free_slot c =
    bool_decide (reserved_senders c < slots (ch_capacity c) - Z.of_nat (length l)).
Proof.
  intros -> HI. pose proof (i_data _ _ _ _ _ _ HI) as HD. erewrite free_slot_spec by done.
  destruct b; [|done]. pose proof (d_rs _ _ _ _ HD). rewrite bool_decide_true by lia. done.
Qed.

Lemma send_retry_spec v token (has_reservation : bool) c l :
  Inv 0 (if has_reservation then 1 else 0) false false c l →
  wp (send_retry v token has_reservation) (λ o c',
    send_post v token (has_reservation || channel_has_free_slot c) c l o c') c.
Proof.
  intros HI. pose proof (i_data _ _ _ _ _ _ HI) as HD. unfold send_retry.
  rewrite wp_bind, wp_get, wp_if. destruct (ch_closed c) eqn:Hc; [by wp_simpl|].
  rewrite (has_free_slot _ c l has_reservation) by done. rewrite wp_if.
  case_bool_decide as Hfree.
  2:{ wp_apply wait_for_park_spec. intros o c' Ho. wp_simpl. unfold parked, send_post.
      destruct has_reservation; cbn in HI; [pose proof (d_rs _ _ _ _ HD); lia|].
      destruct token; destruct Ho as [-> Hc'].
      - subst c'. split_and!; [done..|by exists l].
      - split_and!; [done..| |by apply park_state_frame].
        eapply Inv_tframe; [done|]. apply park_sender_Inv; [done..|lia]. }
  rewrite wp_if, buffered_spec. case_bool_decide as Hk.
  - wp_apply (store_spec (if has_reservation then 1 else 0) c l v); [by destruct has_reservation; auto|done|done|].
    intros _ c1 (HI1 & Hp1 & _). wp_apply (wake_receiver_spec 1); [by right|done|].
    intros woken c2 (l' & HI2 & Hp2 & _). wp_simpl. cbn. split_and!; [done..|by etrans|].
    exists l'. apply Inv_uncommitted; [|done]. left.
    enough (ch_capacity c2 = ch_capacity c) by lia. etrans; [apply Hp2|apply Hp1].
  - destruct (has_value_spec _ _ _ _ HD Hk) as (Hz & Hl & Hhas).
    assert (l = []) as Hnil by (unfold slots in *; pose proof (rs_nonneg _ (i_wait _ _ _ _ _ _ HI));
      destruct l; simpl in *; [done|lia]).
    rewrite Hhas, Hnil. rewrite bool_decide_false by (intros []; done). cbn [negb].
    rewrite wp_bind, wp_assert. split; [done|].
    wp_apply (store_spec (if has_reservation then 1 else 0) c l v); [by destruct has_reservation; auto|done|done|].
    intros _ c1 (HI1 & Hp1 & Hcm1). specialize (Hcm1 Hz). rewrite Hnil in HI1. cbn in HI1.
    wp_apply (wake_receiver_spec 1); [by right|exact HI1|].
    intros woken c2 (l' & HI2 & Hp2 & Hw).
    assert (ch_capacity c1 = 0) as Hz1 by (rewrite <- Hz; apply Hp1).
    destruct woken.
    + wp_simpl. cbn. split_and!; [done..| |].
      * etrans; [exact Hp1|]. etrans; [exact Hp2|]. split_and!; try done. exists []. by rewrite app_nil_r.
      * exists l'. apply commit_Inv; [|done]. rewrite <- Hz1. apply Hp2.
    + destruct Hw as [-> ->].
      assert (Inv 0 0 false false c1 [v]) as HI3.
      { apply Inv_uncommitted; [|done]. right. pose proof (d_rr _ _ _ _ (i_data _ _ _ _ _ _ HI1)).
        simpl in *. lia. }
      assert (ch_closed c1 = false) as Hc1 by (rewrite <- Hc; apply Hp1).
      wp_apply wait_for_park_spec. intros o c' Ho. wp_simpl. unfold parked, send_post.
      destruct token; destruct Ho as [-> Hc'].
      * subst c'. split_and!; [done..|by exists [v]].
      * split_and!; [done..| |by eapply pframe_parked; [|apply park_state_frame]].
        eapply Inv_tframe; [done|]. apply park_sender_Inv; [done..|]. split_and!; try done.
        intros w Hw. destruct (deliv (waiters c1) w) eqn:Ed; [|done].
        by destruct (l_deliv _ _ _ _ _ _ (i_live _ _ _ _ _ _ HI2) w Hw Ed) as (_ & _ & ? & _).
Qed.

Lemma sendAsync_spec v c l : Inv 0 0 false false c l →
  wp (sendAsync v) (λ (ok : bool) c',
    ok = negb (ch_closed c) && channel_has_free_slot c ∧
    if ok then pframe (accept v c) c' ∧ ∃ l', Inv 0 0 false false c' l' else c' = c) c.
Proof.
  intros HI. pose proof (i_data _ _ _ _ _ _ HI) as HD. unfold sendAsync.
  rewrite wp_bind, wp_get, wp_if. destruct (ch_closed c) eqn:Hc; [by wp_simpl|].
  rewrite wp_if. erewrite free_slot_spec by done. case_bool_decide as Hfree; [|by wp_simpl]. cbn [negb].
  rewrite wp_if, buffered_spec. case_bool_decide as Hk.
  - wp_apply (store_spec 0 c l v); [by auto|done|done|].
    intros _ c1 (HI1 & Hp1 & _). wp_apply (wake_receiver_spec 1); [by right|done|].
    intros woken c2 (l' & HI2 & Hp2 & _). wp_simpl. split_and!; [done|by etrans|].
    exists l'. apply Inv_uncommitted; [|done]. left.
    enough (ch_capacity c2 = ch_capacity c) by lia. etrans; [apply Hp2|apply Hp1].
  - destruct (has_value_spec _ _ _ _ HD Hk) as (Hz & Hl & Hhas).
    assert (l = []) as Hnil by (unfold slots in *; pose proof (rs_nonneg _ (i_wait _ _ _ _ _ _ HI));
      destruct l; simpl in *; [done|lia]).
    wp_apply (store_spec 0 c l v); [by auto|done|done|].
    intros _ c1 (HI1 & Hp1 & Hcm1). rewrite Hnil in HI1. cbn in HI1.
    wp_apply (wake_receiver_spec 1); [by right|exact HI1|].
    intros woken c2 (l' & HI2 & Hp2 & Hw).
    assert (ch_capacity c1 = 0) as Hz1 by (rewrite <- Hz; apply Hp1).
    wp_simpl. destruct woken.
    + split_and!; [done| |].
      * etrans; [exact Hp1|]. etrans; [exact Hp2|]. split_and!; try done. exists []. by rewrite app_nil_r.
      * exists l'. apply commit_Inv; [|done]. rewrite <- Hz1. apply Hp2.
    + destruct Hw as [-> ->]. split_and!; [done..|]. exists [v].
      apply Inv_uncommitted; [|done]. right. pose proof (d_rr _ _ _ _ (i_data _ _ _ _ _ _ HI1)).
      simpl in *. lia.
Qed.

(** *** Receiving *)

(** Taking the oldest value and giving its slot to the oldest sender. *)
Lemma take_wake_spec {A} (k : V → M (async_channel_t Q V) A) Φ er c l :
  er = 0 ∨ er = 1 → Inv er 0 false false c l → reserved_receivers c < Z.of_nat (length l) →
  (∀ v l' c', l = v :: l' → Inv 0 0 false false c' l' → pframe c c' → wp (k v) Φ c') →
  wp (v ← channel_take_value; value ← of_option v; channel_wake_sender;; k value) Φ c.
Proof.
  intros Her HI Hlt Hk. destruct l as [|v l'].
  { pose proof (rr_nonneg _ (i_wait _ _ _ _ _ _ HI)). simpl in *. lia. }
  wp_apply (take_spec er false c v l'); [done..|]. intros r c1 (-> & HI1 & Hp1 & _).
  rewrite wp_bind. unfold of_option, wp at 1. cbn.
  wp_apply (wake_sender_spec 1 true _ l'); [by right|done| |].
  { intros Hz _. pose proof (d_len _ _ _ _ (i_data _ _ _ _ _ _ HI)) as Hlen.
    assert (ch_capacity c1 = ch_capacity c) as Hcap by apply Hp1.
    rewrite <- Hcap, Hz in Hlen. unfold slots in Hlen. destruct l'; simpl in *; [done|lia]. }
  intros _ c2 [HI2 Hp2]. eapply Hk; [done|done|by etrans].
Qed.

Lemma has_free_value er c l b : (er = if (b : bool) then 1 else 0) → Inv er 0 false false c l →
  b || channel_has_free_value c = bool_decide (reserved_receivers c < Z.of_nat (length l)).
Proof.
  intros -> HI. pose proof (i_data _ _ _ _ _ _ HI) as HD. erewrite free_value_spec by done.
  destruct b; [|done]. pose proof (d_rr _ _ _ _ HD). rewrite bool_decide_true by lia. done.
Qed.

Definition recv_post (token free : bool) c l (o : outcome V) c' : Prop :=
  match o with
  | Done _ v => free = true ∧ pframe c c' ∧ ∃ l', l = v :: l' ∧ Inv 0 0 false false c' l'
  | ThrowClosed _ ex => free = false ∧ ch_closed c = true ∧ c' = c ∧
      ex = make_channel_exception (close_reason c) ∧ Inv 0 0 false false c l
  | ThrowPending _ => free = false ∧ token = true ∧ c' = c ∧ Inv 0 0 false false c l
  | Parked _ w d => free = false ∧ d = false ∧ ch_closed c = false ∧ Inv 0 0 false false c' l ∧
      parked_frame Receivers w false c c'
  end.

Lemma recv_retry_spec token (has_reservation : bool) c l :
  Inv (if has_reservation then 1 else 0) 0 false false c l →
  wp (recv_retry token has_reservation) (λ o c',
    recv_post token (has_reservation || channel_has_free_value c) c l o c') c.
Proof.
  intros HI. pose proof (i_data _ _ _ _ _ _ HI) as HD. unfold recv_retry.
  rewrite wp_bind, wp_get, (has_free_value _ c l has_reservation) by done. rewrite wp_if.
  case_bool_decide as Hfree.
  { rewrite wp_bind, wp_assert. erewrite channel_is_empty_spec by done. split.
    - rewrite bool_decide_false; [done|]. intros ->. pose proof (rr_nonneg _ (i_wait _ _ _ _ _ _ HI)).
      simpl in *. lia.
    - eapply (take_wake_spec _ _ (if has_reservation then 1 else 0)); [by destruct has_reservation; [right|left]|done..|].
      intros v l' c' -> HI' Hp. wp_simpl. cbn. eauto. }
  destruct has_reservation; [pose proof (d_rr _ _ _ _ HD); lia|]. cbn in HI. rewrite wp_if.
  destruct (ch_closed c) eqn:Hc; [by wp_simpl|].
  wp_apply wait_for_park_spec. intros o c' Ho. wp_simpl. unfold parked, recv_post.
  destruct token; destruct Ho as [-> Hc']; [done|].
  split_and!; [done..| |by apply park_state_frame].
  eapply Inv_tframe; [done|]. apply park_receiver_Inv; [done..|lia].
Qed.

Definition iter_post c l (o : iter_result) c' : Prop :=
  match o with
  | IterValue v => pframe c c' ∧ ∃ l', l = v :: l' ∧ Inv 0 0 false false c' l'
  | IterEnd propagates => propagates = false ∧ ch_closed c = true ∧ c' = c ∧
      Inv 0 0 false false c l
  | IterParked w => ch_closed c = false ∧ Inv 0 0 false false c' l ∧
      parked_frame Receivers w false c c'
  end.

Lemma iter_retry_spec (has_reservation : bool) c l :
  Inv (if has_reservation then 1 else 0) 0 false false c l →
  wp (iter_retry has_reservation) (λ o c', iter_post c l o c') c.
Proof.
  intros HI. pose proof (i_data _ _ _ _ _ _ HI) as HD. unfold iter_retry.
  rewrite wp_bind, wp_get, wp_if, (has_free_value _ c l has_reservation) by done.
  case_bool_decide as Hfree.
  { eapply (take_wake_spec _ _ (if has_reservation then 1 else 0)); [by destruct has_reservation; [right|left]|done..|].
    intros v l' c' -> HI' Hp. wp_simpl. cbn. eauto. }
  destruct has_reservation; [pose proof (d_rr _ _ _ _ HD); lia|]. cbn in HI. rewrite wp_if.
  destruct (ch_closed c) eqn:Hc; [by wp_simpl|].
  wp_apply wait_for_park_spec. intros o c' [-> Hc']. wp_simpl. unfold iter_post.
  split_and!; [done| |by apply park_state_frame].
  eapply Inv_tframe; [done|]. apply park_receiver_Inv; [done..|lia].
Qed.

(** *** Futures *)

(** What the operations without a coroutine of their own leave alone. *)
Definition kframe c c' : Prop :=
  parked_receivers c' = parked_receivers c ∧ parked_senders c' = parked_senders c ∧
  (∀ w, w ∈ parked_senders c → deliv (waiters c') w = deliv (waiters c) w) ∧
  evolves c c' ∧ ∃ o, out c' = out c ++ o ∧ accepted o = [].

Lemma pframe_kframe c c' : pframe c c' → kframe c c'.
Proof.
  intros Hp. pose proof (pframe_evolves _ _ Hp). destruct Hp as (? & ? & Hd & _ & _ & _ & _ & Ho).
  do 2 (split; [done|]). split; [by auto|]. by split.
Qed.
Lemma kframe_evolves c c' : kframe c c' → evolves c c'.
Proof. by intros (_ & _ & _ & ? & _). Qed.

Definition enqueue_future (future : nat) c : async_channel_t Q V :=
  set_waiting_receivers (waiting_receivers c ++ [next_waiter c])
    (set_waiters (<[next_waiter c := mk_waiter (Some future) false false]> (waiters c))
      (set_next_waiter (S (next_waiter c)) c)).

Lemma enqueue_future_Inv future c l :
  Inv 0 0 false false c l → ch_closed c = false → Z.of_nat (length l) ≤ reserved_receivers c →
  Inv 0 0 false false (enqueue_future future c) l.
Proof.
  intros [HD HW HL] Hc Hfull. pose proof (fresh_notin c HW) as (HnR & HnS & HnPR & HnPS).
  set (x := mk_waiter (Some future) false false).
  assert (resv (<[next_waiter c := x]> (waiters c)) (next_waiter c) = false ∧
    deliv (<[next_waiter c := x]> (waiters c)) (next_waiter c) = false ∧
    fut (<[next_waiter c := x]> (waiters c)) (next_waiter c) = Some future) as (Hvr & Hvd & Hvf)
    by apply fresh_view.
  pose proof (old_waiters c HW) as Hold. pose proof (λ w H, fresh_views c x w HW H) as Hv. split.
  - destruct HD. by constructor.
  - pose proof HW as []. constructor; cbn; fold x; auto.
    + by intros; apply fresh_dom.
    + intros w. rewrite elem_of_snoc. specialize (w_old w). intros Hw.
      destruct (decide (w = next_waiter c)); [lia|]. enough (w < next_waiter c)%nat by lia. tauto.
    + by apply NoDup_snoc.
    + intros w. rewrite elem_of_snoc. intros [Hw| ->]; [|by rewrite Hvd, Hvf].
      destruct (Hv w) as (-> & -> & ->); [by apply Hold; tauto|]. by apply w_R.
    + intros w Hw. rewrite elem_of_snoc. destruct (Hv w) as (-> & -> & ->); [by apply Hold; tauto|].
      destruct (w_PR w Hw) as (? & ? & ?). auto.
    + intros w Hw. destruct (Hv w) as (-> & -> & ->); [by apply Hold; tauto|]. by apply w_PS.
    + rewrite fresh_cnt by (done || intros; apply Hold; tauto). done.
    + rewrite fresh_cnt by (done || intros; apply Hold; tauto). done.
    + intros w Hw. destruct (Hv w) as (-> & _); [by apply Hold; tauto|]. rewrite elem_of_snoc.
      destruct (w_cb w Hw). tauto.
    + intros w e ?%w_wakes. lia.
    + intros w Hp. destruct (Hv w) as (-> & _); [by apply Hold; tauto|].
      destruct (w_woken w Hp) as [H1 H2]. split; [done|]. rewrite elem_of_snoc. intros. apply H2; tauto.
    + intros w Hw. destruct (Hv w) as (_ & -> & _); [by apply Hold; tauto|]. by apply w_quiet.
  - destruct HL. constructor; cbn; fold x; auto; try lia; try congruence.
    + intros ? Hr w Hw. destruct (Hv w) as (-> & -> & _); [by apply Hold; tauto|]. by apply l_send.
    + intros w Hw. destruct (Hv w) as (_ & -> & _); [by apply Hold; tauto|]. by apply l_deliv.
    + intros w w' Hw Hw'. destruct (Hv w) as (_ & -> & _); [by apply Hold; tauto|].
      destruct (Hv w') as (_ & -> & _); [by apply Hold; tauto|]. by apply l_deliv1.
Qed.

(** A future is completed with the oldest value, rejected on a closed channel,
    or queued behind the receivers. *)
Lemma recvAsync_spec future c l : Inv 0 0 false false c l →
  wp (recvAsync future) (λ _ c', kframe c c' ∧ ∃ l', Inv 0 0 false false c' l' ∧
    if channel_has_free_value c then
      ∃ v o, l = v :: l' ∧ out c' = o ++ [FutureComplete future v]
    else if ch_closed c then
      l' = l ∧ c' = set_out
        (out c ++ [FutureReject future (make_channel_exception (close_reason c))]) c
    else l' = l ∧ c' = enqueue_future future c) c.
Proof.
  intros HI. pose proof (i_data _ _ _ _ _ _ HI) as HD. unfold recvAsync, emit.
  rewrite wp_bind, wp_get, wp_if. erewrite free_value_spec by done. case_bool_decide as Hfree.
  { eapply (take_wake_spec _ _ 0); [by left|done..|]. intros v l' c' -> HI' Hp. wp_simpl. split.
    - apply pframe_kframe. etrans; [done|]. by apply emit_pframe.
    - exists l'. split; [by apply Inv_future|]. eauto. }
  rewrite wp_if. destruct (ch_closed c) eqn:Hc.
  { wp_simpl. split.
    - apply pframe_kframe. by apply emit_pframe.
    - exists l. split_and!; [by apply Inv_future|done..]. }
  unfold set_waiter, channel_queue_push. wp_simpl. split.
  - pose proof (i_wait _ _ _ _ _ _ HI) as HW. split_and!; try done.
    + intros w Hw. cbn. apply fresh_views; [done|]. apply (old_waiters c HW). tauto.
    + split_and!; try done. exists []. by rewrite app_nil_r.
    + exists []. by rewrite app_nil_r.
  - exists l. split_and!; [|done..]. apply (enqueue_future_Inv future c); [done..|lia].
Qed.

Lemma future_dispose_spec w c l : Inv 0 0 false false c l → fut (waiters c) w ≠ None →
  wp (channel_recv_future_dispose w) (λ _ c', kframe c c' ∧ Inv 0 0 false false c' l ∧
    w ∉ waiting_receivers c') c.
Proof.
  intros HI Hf. pose proof (i_wait _ _ _ _ _ _ HI) as HW. unfold channel_recv_future_dispose.
  wp_apply (queue_remove_spec Receivers); [apply HW|]. intros q c1 [-> ->]. cbn.
  unfold del_callback. rewrite wp_when. case_bool_decide as Hin; wp_simpl.
  - split_and!; [|by apply (leave_future_Inv 0 0 false false c l w)|].
    + split_and!; try done; [split_and!; try done|]; exists []; by rewrite app_nil_r.
    + cbn. rewrite list_elem_of_filter. tauto.
  - rewrite filter_all by (by intros ? ? ->).
    replace (set_waiting_receivers (waiting_receivers c) c) with c by by destruct c.
    split_and!; [|done..]. by apply pframe_kframe.
Qed.

(** *** The invariant of the whole system *)
Definition frames_ok (fs : gmap nat (frame (V := V))) c : Prop := ∀ w,
  match fs !! w with
  | Some (FSend _ d) => w ∈ parked_senders c ∧ deliv (waiters c) w = d
  | Some _ => w ∈ parked_receivers c
  | None => (w ∉ parked_receivers c) ∧ (w ∉ parked_senders c)
  end.

Definition SInv (s : sys (V := V) (Q := Q)) l : Prop :=
  Inv 0 0 false false (s_chan s) l ∧ frames_ok (s_frames s) (s_chan s).

Lemma frames_kframe fs c c' : kframe c c' → frames_ok fs c → frames_ok fs c'.
Proof.
  intros (HPR & HPS & Hd & _) Hf w. specialize (Hf w). rewrite HPR, HPS.
  destruct (fs !! w) as [[| |v d]|]; [done..| |done]. destruct Hf. by rewrite Hd.
Qed.

(** The coroutine parked by an operation that leaves a frame. *)
Definition frame_side (f : frame (V := V)) : side :=
  match f with FSend _ _ => Senders | _ => Receivers end.
Definition frame_delivering (f : frame (V := V)) : bool :=
  match f with FSend _ d => d | _ => false end.

Lemma frames_park fs c c' w f : WInv c →
  parked_frame (frame_side f) w (frame_delivering f) c c' →
  frames_ok fs c → frames_ok (<[w := f]> fs) c'.
Proof.
  intros HW (-> & _ & HPR & HPS & Hd & _) Hf w'.
  pose proof (fresh_notin c HW) as (_ & _ & HnPR & HnPS).
  rewrite HPR, HPS. destruct (decide (w' = next_waiter c)) as [->|Hne].
  - rewrite lookup_insert_eq. destruct f; cbn; rewrite ?elem_of_snoc; [by right..|].
    split; [by right|]. by rewrite Hd, decide_True.
  - rewrite lookup_insert_ne by done. specialize (Hf w').
    destruct (fs !! w') as [[| |v d]|].
    + destruct f; cbn; rewrite ?elem_of_snoc, ?app_nil_r; auto.
    + destruct f; cbn; rewrite ?elem_of_snoc, ?app_nil_r; auto.
    + rewrite Hd, decide_False by done. destruct Hf.
      destruct f; cbn; rewrite ?elem_of_snoc, ?app_nil_r; auto.
    + destruct f; cbn; rewrite ?elem_of_snoc, ?app_nil_r; naive_solver.
Qed.

Lemma frames_unpark fs c w f : WInv c → fs !! w = Some f → frames_ok fs c →
  frames_ok (delete w fs) (unpark_state (frame_side f) w c).
Proof.
  intros HW Hw Hf w'. pose proof (Hf w) as Hfw. rewrite Hw in Hfw.
  assert (∀ b s, waiters (unpark_state s b c) = waiters c) as Hws
    by (intros b []; unfold unpark_state; by destruct (resv _ _)).
  assert (parked_receivers (unpark_state (frame_side f) w c) =
      match frame_side f with
      | Receivers => filter (.≠ w) (parked_receivers c) | Senders => parked_receivers c end ∧
    parked_senders (unpark_state (frame_side f) w c) =
      match frame_side f with
      | Receivers => parked_senders c | Senders => filter (.≠ w) (parked_senders c) end) as [-> ->]
    by (unfold unpark_state; by destruct f; cbn; destruct (resv _ _)).
  rewrite Hws. destruct (decide (w' = w)) as [->|Hne].
  - rewrite lookup_delete_eq. destruct f; cbn in *; rewrite !list_elem_of_filter;
      (split; [try tauto|try tauto]); intros ?; eapply w_disj; try done; tauto.
  - rewrite lookup_delete_ne by done. specialize (Hf w').
    destruct (fs !! w') as [[| |v d]|]; destruct f; cbn; rewrite ?list_elem_of_filter; tauto.
Qed.

Lemma run_frame_spec {A} fs f (m : M (async_channel_t Q V) A) c Φ P :
  wp m Φ c →
  (∀ a c', Φ a c' → P (mk_sys c' (match f a with Some (w, fr) => <[w := fr]> fs | None => fs end))) →
  ∃ s', run_frame fs f m c = Some s' ∧ P s'.
Proof.
  intros Hwp HP. apply wp_run in Hwp as (a & c' & Hm & HΦ). eexists. split; [|by eapply HP].
  unfold run_frame. rewrite Hm. done.
Qed.

(** The state after a step from a channel [c]. *)
Definition good c (s' : sys) : Prop := evolves c (s_chan s') ∧ ∃ l', SInv s' l'.

Lemma good_kframe c c' l' fs : frames_ok fs c → kframe c c' → Inv 0 0 false false c' l' →
  good c (mk_sys c' fs).
Proof.
  intros Hf Hk HI. split; [by apply kframe_evolves|]. exists l'. split; [done|].
  by eapply frames_kframe.
Qed.
Lemma good_evolves c c1 s' : evolves c c1 → good c1 s' → good c s'.
Proof. intros ? [? ?]. split; [by etrans|done]. Qed.
Lemma unpark_evolves s w c : evolves c (unpark_state s w c).
Proof.
  unfold unpark_state. destruct s, (resv _ _); (split_and!; try done; exists []; by rewrite app_nil_r).
Qed.

(** The frames after [send] and [recv], from the frames [fs] of the others. *)
Lemma send_post_SInv fs v token free c l o c' :
  ch_closed c = false ∨ Inv 0 0 false false c l → WInv c →
  frames_ok fs c → send_post v token free c l o c' →
  good c (mk_sys c' (match frame_of_outcome (FSend v) o with
                     | Some (w, fr) => <[w := fr]> fs | None => fs end)).
Proof.
  intros Hor HW Hf Hpost. assert (frames_ok fs (accept v c)) as Hfa by done.
  assert (WInv (accept v c)) as HWa.
  { pose proof (write_data_WInv (ch_buffer c) (rendezvous_value c) (rendezvous_committed c)
      (Accepted v) c ltac:(done) HW) as []. by constructor. }
  assert (evolves c (if free then accept v c else c)) as Hev
    by (destruct free; [apply accept_evolves|done]).
  assert (frames_ok fs (if free then accept v c else c)) as Hfi by by destruct free.
  assert (WInv (if free then accept v c else c)) as HWi by by destruct free.
  destruct o as [u|ex| |w d]; cbn in *.
  - destruct Hpost as (_ & -> & Hp & l' & HI). eapply good_evolves; [done|].
    eapply good_kframe; [done|by apply pframe_kframe|done].
  - destruct Hpost as (Hc & -> & _). destruct Hor as [|HI]; [congruence|]. split; [done|by exists l].
  - destruct Hpost as (_ & _ & _ & Hp & l' & HI). eapply good_evolves; [done|].
    eapply good_kframe; [done|by apply pframe_kframe|done].
  - destruct Hpost as (_ & -> & _ & HI & Hp). eapply good_evolves; [done|].
    split; [by eapply parked_evolves|]. eexists. split; [done|].
    by eapply (frames_park fs _ c' w (FSend v free)).
Qed.

Lemma recv_post_SInv fs token free c l o c' : WInv c → frames_ok fs c → recv_post token free c l o c' →
  good c (mk_sys c' (match frame_of_outcome (λ _, FRecv) o with
                     | Some (w, fr) => <[w := fr]> fs | None => fs end)).
Proof.
  intros HW Hf Hpost. destruct o as [v|ex| |w d]; cbn in *.
  - destruct Hpost as (_ & Hp & l' & _ & HI). eapply good_kframe; [done|by apply pframe_kframe|done].
  - destruct Hpost as (_ & Hc & -> & _ & HI). split; [done|by exists l].
  - destruct Hpost as (_ & _ & -> & HI). split; [done|by exists l].
  - destruct Hpost as (_ & _ & _ & HI & Hp). split; [by eapply parked_evolves|].
    exists l. split; [done|]. by eapply frames_park.
Qed.

Lemma iter_post_SInv fs c l o c' : WInv c → frames_ok fs c → iter_post c l o c' →
  good c (mk_sys c' (match frame_of_iter o with
                     | Some (w, fr) => <[w := fr]> fs | None => fs end)).
Proof.
  intros HW Hf Hpost. destruct o as [v|b|w]; cbn in *.
  - destruct Hpost as (Hp & l' & _ & HI). eapply good_kframe; [done|by apply pframe_kframe|done].
  - destruct Hpost as (_ & Hc & -> & HI). split; [done|by exists l].
  - destruct Hpost as (_ & HI & Hp). split; [by eapply parked_evolves|].
    exists l. split; [done|]. by eapply frames_park.
Qed.

Lemma close_kframe reason c l : Inv 0 0 false false c l →
  wp (channel_close reason) (λ _ c', kframe c c' ∧ ∃ l', Inv 0 0 false false c' l') c.
Proof.
  intros HI. destruct (ch_closed c) eqn:Hc.
  { unfold channel_close. wp_simpl. rewrite Hc. wp_simpl. split; [by apply pframe_kframe|]. eauto. }
  wp_apply close_spec; [done..|]. intros _ c' (c1 & l' & Ht & _ & HI' & Hcase). split; [|eauto].
  destruct Ht as (a & r & g & ts & Hts & ->). pose proof (timer_effects_silent _ Hts).
  pose proof (failed_silent (make_channel_exception reason) (set_ch_closed true
    (set_close_reason reason (tset a r g ts c)))) as Hsil.
  destruct (_ && _); [destruct Hcase as (v & -> & -> & ->)|destruct Hcase as [-> ->]];
    unfold closed_state, failed_state; (split_and!; [done..| |]); cbn in Hsil |- *;
    match type of Hsil with Forall silent ?o => remember o as failures end.
  - split_and!; [done|cbn; congruence|].
    exists (ts ++ failures ++ [Dropped v]). cbn. rewrite Heqfailures. by rewrite <- !app_assoc.
  - exists (ts ++ failures ++ [Dropped v]). rewrite <- !app_assoc, !accepted_app.
    by rewrite (accepted_silent ts), (accepted_silent failures).
  - split_and!; [done|cbn; congruence|].
    exists (ts ++ failures). cbn. rewrite Heqfailures. by rewrite <- !app_assoc.
  - exists (ts ++ failures). rewrite <- !app_assoc, accepted_app.
    by rewrite (accepted_silent ts), (accepted_silent failures).
Qed.

(** *** Resumed operations *)
Lemma resume_recv_SInv w token exn c fs l :
  Inv 0 0 false false c l → frames_ok fs c → fs !! w = Some FRecv →
  ∃ s', run_frame (delete w fs) (frame_of_outcome (λ _, FRecv)) (recv_resume w token exn) c = Some s' ∧
    good c s'.
Proof.
  intros HI Hf Hw. pose proof (i_wait _ _ _ _ _ _ HI) as HW.
  pose proof (frames_unpark fs c w FRecv HW Hw Hf) as Hfu.
  assert (w ∈ parked_receivers c) as Hin by (specialize (Hf w); by rewrite Hw in Hf).
  eapply run_frame_spec; [|intros o c' H; exact H]. unfold recv_resume.
  wp_apply (resume_receiver_spec w exn c l HI Hin). intros spent c1 (-> & Hp & Hpost).
  assert (frames_ok (delete w fs) c1) as Hf1
    by (eapply frames_kframe; [by apply pframe_kframe|done]).
  eapply wp_mono; [|intros o c' H; eapply (good_evolves _ c1); [|exact H];
    etrans; [apply unpark_evolves|by eapply pframe_evolves]].
  destruct exn; cbn.
  - rewrite andb_false_r in Hpost. destruct Hpost as (l' & HI' & _). wp_simpl. split; [done|by exists l'].
  - rewrite andb_true_r in *. assert (∃ l', Inv (if resv (waiters c) w then 1 else 0) 0 false false c1 l')
      as [l' HI'] by (destruct (resv _ _); naive_solver).
    wp_apply recv_retry_spec; [done|]. intros o c' H. eapply recv_post_SInv; [|done..]. apply HI'.
Qed.

Lemma resume_iter_SInv w exn c fs l :
  Inv 0 0 false false c l → frames_ok fs c → fs !! w = Some FIter →
  ∃ s', run_frame (delete w fs) frame_of_iter (iter_resume w exn) c = Some s' ∧ good c s'.
Proof.
  intros HI Hf Hw. pose proof (i_wait _ _ _ _ _ _ HI) as HW.
  pose proof (frames_unpark fs c w FIter HW Hw Hf) as Hfu.
  assert (w ∈ parked_receivers c) as Hin by (specialize (Hf w); by rewrite Hw in Hf).
  eapply run_frame_spec; [|intros o c' H; exact H]. unfold iter_resume.
  wp_apply (resume_receiver_spec w (bool_decide (is_Some exn)) c l HI Hin).
  intros spent c1 (-> & Hp & Hpost).
  assert (frames_ok (delete w fs) c1) as Hf1
    by (eapply frames_kframe; [by apply pframe_kframe|done]).
  eapply wp_mono; [|intros o c' H; eapply (good_evolves _ c1); [|exact H];
    etrans; [apply unpark_evolves|by eapply pframe_evolves]].
  destruct exn as [b|]; cbn.
  - rewrite andb_false_r in Hpost. destruct Hpost as (l' & HI' & _). wp_simpl. split; [done|by exists l'].
  - rewrite andb_true_r in *. assert (∃ l', Inv (if resv (waiters c) w then 1 else 0) 0 false false c1 l')
      as [l' HI'] by (destruct (resv _ _); naive_solver).
    wp_apply iter_retry_spec; [done|]. intros o c' H. eapply iter_post_SInv; [|done..]. apply HI'.
Qed.

Lemma resume_send_SInv w v d token exn c fs l :
  Inv 0 0 false false c l → frames_ok fs c → fs !! w = Some (FSend v d) →
  ∃ s', run_frame (delete w fs) (frame_of_outcome (FSend v)) (send_resume v w d token exn) c = Some s' ∧
    good c s'.
Proof.
  intros HI Hf Hw. pose proof (i_wait _ _ _ _ _ _ HI) as HW.
  pose proof (frames_unpark fs c w (FSend v d) HW Hw Hf) as Hfu.
  assert (w ∈ parked_senders c ∧ deliv (waiters c) w = d) as [Hin Hd]
    by (specialize (Hf w); by rewrite Hw in Hf).
  eapply run_frame_spec; [|intros o c' H; exact H]. unfold send_resume.
  wp_apply (resume_sender_spec w exn c l HI Hin). intros spent c1 (-> & Hp & Hpost).
  assert (frames_ok (delete w fs) c1) as Hf1
    by (eapply frames_kframe; [by apply pframe_kframe|done]).
  eapply wp_mono; [|intros o c' H; eapply (good_evolves _ c1); [|exact H];
    etrans; [apply unpark_evolves|by eapply pframe_evolves]].
  destruct exn; cbn; [rewrite andb_false_r in Hpost; destruct Hpost as (l' & HI' & _); wp_simpl; split; [done|by exists l']|].
  rewrite andb_true_r, andb_false_r in *. cbn in Hpost. destruct d.
  - assert (resv (waiters c) w = false) as Hr.
    { destruct (resv (waiters c) w) eqn:E; [|done].
      destruct (w_PS _ HW w Hin) as [_ H]. rewrite H in Hd; done. }
    rewrite Hr in Hpost. destruct Hpost as (l' & HI' & _). wp_simpl. split; [done|by exists l'].
  - assert (∃ l', Inv 0 (if resv (waiters c) w then 1 else 0) false false c1 l')
      as [l' HI'] by (destruct (resv _ _); naive_solver).
    wp_apply send_retry_spec; [done|]. intros o c' H. eapply send_post_SInv; [|apply HI'|done..].
    destruct (ch_closed c1) eqn:Hc; [right|by left].
    eapply (Inv_closed_weaken 0 (if resv (waiters c) w then 1 else 0)); [done|by destruct (resv _ _)|done..].
Qed.

Lemma exec_spec o s l : SInv s l → enabled o s = true →
  ∃ s', exec o s = Some s' ∧ good (s_chan s) s'.
Proof.
  destruct s as [c fs]. intros [HI Hf] Hen. cbn in HI, Hf.
  pose proof (i_wait _ _ _ _ _ _ HI) as HW. unfold exec. cbn [s_chan s_frames].
  destruct o as [v t|v|t|f| |r| |w|w t exn]; cbn in Hen.
  - eapply run_frame_spec; [|intros o c' H; exact H].
    unfold send. destruct t; [by wp_simpl; split; [|exists l]|].
    wp_apply (send_retry_spec v false false c l); [done|]. intros o c' H.
    eapply send_post_SInv; eauto.
  - eapply run_frame_spec; [by apply (sendAsync_spec v c l)|]. intros ok c' [_ H]. cbn in *. destruct ok.
    + destruct H as (Hp & l' & HI'). eapply good_evolves; [by apply (accept_evolves v)|].
      eapply good_kframe; [done|by apply pframe_kframe|done].
    + subst c'. split; [done|by exists l].
  - eapply run_frame_spec; [|intros o c' H; exact H].
    unfold recv. destruct t; [by wp_simpl; split; [|exists l]|].
    wp_apply (recv_retry_spec false false c l); [done|]. intros o c' H. by eapply recv_post_SInv.
  - eapply run_frame_spec; [by apply (recvAsync_spec f c l)|]. intros _ c' (Hk & l' & HI' & _).
    by eapply good_kframe.
  - eapply run_frame_spec; [by apply (iter_retry_spec false c l)|]. intros o c' H.
    by eapply iter_post_SInv.
  - eapply run_frame_spec; [by eapply close_kframe|]. intros _ c' (Hk & l' & HI').
    by eapply good_kframe.
  - eapply (run_frame_spec _ _ _ _ (λ _ c', kframe c c' ∧ ∃ l', Inv 0 0 false false c' l')).
    + unfold channel_deadlock_fire. wp_simpl. destruct (ch_closed c); [|by eapply close_kframe].
      wp_simpl. split; [by apply pframe_kframe|eauto].
    + intros _ c' (Hk & l' & HI'). by eapply good_kframe.
  - apply bool_decide_eq_true in Hen as [f' Hw].
    eapply run_frame_spec; [apply (future_dispose_spec w c l); [done|unfold fut; by rewrite Hw]|].
    intros _ c' (Hk & HI' & _). by eapply good_kframe.
  - apply andb_true_iff in Hen as [Hw _]. apply bool_decide_eq_true in Hw as [f Hw].
    rewrite Hw. by destruct f; [eapply resume_recv_SInv|eapply resume_iter_SInv|eapply resume_send_SInv].
Qed.

(** *** Reachable states *)
Context `{!FifoCtor Q V}.

(** Construction succeeds exactly on arguments in range, up to the allocation of
    the buffer, and gives an open, empty channel. *)
Lemma construct_SInv buf0 capacity npt nct hard current main :
  ∃ r, channel_construct buf0 capacity npt nct hard current main = Some r ∧
    match r with
    | inl (ArgumentError 1) => ¬ 0 ≤ capacity ≤ INT32_MAX
    | inl (ArgumentError 2) => 0 ≤ capacity ≤ INT32_MAX ∧ ¬ 0 ≤ npt ≤ INT32_MAX
    | inl (ArgumentError _) => 0 ≤ capacity ≤ INT32_MAX ∧ 0 ≤ npt ≤ INT32_MAX ∧ ¬ 0 ≤ nct ≤ INT32_MAX
    | inl BufferError => 0 < capacity ≤ INT32_MAX
    | inr c => SInv (mk_sys c ∅) [] ∧ ch_closed c = false ∧ ch_capacity c = capacity ∧
               out c = [] ∧ no_producer_timeout_ms c = npt ∧ no_consumer_timeout_ms c = nct
    end.
Proof.
  unfold channel_construct.
  destruct (Z.ltb_spec capacity 0); [eexists; split; [done|]; cbn; lia|].
  destruct (Z.ltb_spec INT32_MAX capacity); [eexists; split; [done|]; cbn; lia|].
  destruct (Z.ltb_spec npt 0); [eexists; split; [done|]; cbn; lia|].
  destruct (Z.ltb_spec INT32_MAX npt); [eexists; split; [done|]; cbn; lia|].
  destruct (Z.ltb_spec nct 0); [eexists; split; [done|]; cbn; lia|].
  destruct (Z.ltb_spec INT32_MAX nct); [eexists; split; [done|]; cbn; lia|]. cbn [orb].
  unfold INT32_MAX in *. rewrite !i32_small by lia. cbn [ch_buffer set_hard_timeouts
    set_no_consumer_timeout_ms set_no_producer_timeout_ms set_ch_capacity async_channel_create_object].
  assert (∃ r buf, (if 0 <? capacity then q_ctor (capacity + 1) buf0 else Some (SUCCESS, buf0)) =
    Some (r, buf) ∧ (0 < capacity → r = SUCCESS → q_repr buf [] ∧ capacity ≤ q_slots buf) ∧
    (r = FAILURE → 0 < capacity)) as (r & buf & -> & Hok & Hfail).
  { destruct (Z.ltb_spec 0 capacity); [|by exists SUCCESS, buf0; split_and!; [|lia|]].
    assert (1 ≤ capacity + 1 ≤ 2 ^ 31) as Hn by lia.
    pose proof (q_ctor_spec (capacity + 1) buf0 Hn) as (r & buf & Hr & Hspec)%wp_run.
    exists r, buf. split_and!; [done| |done]. intros _ ->. destruct Hspec; [done|]. split; [done|lia]. }
  cbn. destruct r; [|specialize (Hfail eq_refl); eexists; split; [done|]; cbn; unfold INT32_MAX; lia].
  match goal with |- context [channel_bind_to_owner_scope _ _ ?c] => set (c0 := c) end.
  assert (∃ b, channel_bind_to_owner_scope current main c0 = Some (tt, set_scope_bound b c0)) as [b ->].
  { unfold channel_bind_to_owner_scope.
    destruct current as [[]|], main as [[]|]; first [by exists true|by exists false]. }
  cbn. eexists. split; [done|]. cbn. split_and!; try done. split.
  - split.
    + constructor; cbn; try done; try lia.
      * intros ?. by destruct Hok.
      * unfold slots. lia.
      * unfold slots. lia.
      * set_solver.
    + constructor; cbn; try done; try set_solver; try constructor.
      * intros [? ?]. done.
      * lia.
    + constructor; cbn; try done; set_solver.
  - intros w. cbn. rewrite lookup_empty. set_solver.
Qed.

(** The states of a channel that was constructed and then used by any number of
    coroutines, in any order. *)
Definition running (s : sys (V := V) (Q := Q)) : Prop :=
  ∃ buf0 capacity npt nct hard current main c,
    channel_construct buf0 capacity npt nct hard current main = Some (inr c) ∧
    reachable (mk_sys c ∅) s.

Lemma reachable_SInv s0 s l0 : SInv s0 l0 → reachable s0 s →
  evolves (s_chan s0) (s_chan s) ∧ ∃ l, SInv s l.
Proof.
  intros HS. induction 1 as [|s o s' Hr IH Hen Hex]; [split; [done|eauto]|].
  destruct IH as (Hev & l & Hl). destruct (exec_spec o s l Hl Hen) as (s1 & Hs1 & Hev1 & Hl1).
  simplify_eq. split; [by etrans|done].
Qed.

Lemma running_SInv s : running s → ∃ l, SInv s l.
Proof.
  intros (buf0 & cap & npt & nct & hard & current & main & c & Hc & Hr).
  destruct (construct_SInv buf0 cap npt nct hard current main) as (r & Hr' & Hspec). simplify_eq.
  destruct Hspec as [HS _]. by eapply reachable_SInv.
Qed.
End api.
