(* ===== verification/ChannelTheorems.v ===== *)
(** * Theorems about the channel

    What [src/channel.c] promises to the coroutines that use a channel, for
    every state reachable by any interleaving of calls, resumptions, timer
    firings and cancellations. *)

From S2P Require Import Prelude CircularBuffer Channel ChannelInvariant ChannelSpecs ChannelApi.
From stdpp Require Import strings.

Local Open Scope Z_scope.

(** ** A concrete channel for the examples *)

#[local] Instance demo_reactor : Reactor Z := {| timer_new _ := true; timer_start _ := true |}.
#[local] Instance demo_ctor : FifoCtor (circular_buffer_t Z) Z :=
  circular_buffer_fifo_ctor Z demo_allocator demo_allocator_ok.

(** Runs the enabled operations of a list one after the other. *)
Fixpoint run_all {V Q} `{!FifoBuffer Q V} `{!Reactor V} (os : list (op (V := V)))
    (s : sys (V := V) (Q := Q)) : option (sys (V := V) (Q := Q)) :=
  match os with
  | [] => Some s
  | o :: os => if enabled o s then exec o s ≫= run_all os else None
  end.

Lemma run_all_reachable {V Q} `{!FifoBuffer Q V} `{!Reactor V} os (s0 s s' : sys (V := V) (Q := Q)) :
  reachable s0 s → run_all os s = Some s' → reachable s0 s'.
Proof.
  revert s. induction os as [|o os IH]; intros s Hr Hrun; simpl in Hrun; [by simplify_eq|].
  destruct (enabled o s) eqn:He; [|done]. destruct (exec o s) as [s1|] eqn:Hx; [|done].
  eapply IH; [|done]. by eapply reach_step.
Qed.

(** A fresh channel of the given capacity, after the operations [os]. *)
Definition demo_run (capacity : Z) (os : list (op (V := Z)))
    : option (sys (V := Z) (Q := circular_buffer_t Z)) :=
  match channel_construct (zeroed demo_allocator) capacity 100 200 false None (Some false) with
  | Some (inr c) => run_all os (mk_sys c ∅)
  | _ => None
  end.

Lemma demo_run_running capacity os s : demo_run capacity os = Some s → running s.
Proof.
  unfold demo_run. destruct (channel_construct _ _ _ _ _ _ _) as [[|c]|] eqn:Hc; try done.
  intros Hrun. unfold running. do 7 eexists. exists c. split; [exact Hc|].
  eapply run_all_reachable; [constructor|done].
Qed.

Definition demo_state (capacity : Z) (os : list (op (V := Z)))
    : sys (V := Z) (Q := circular_buffer_t Z) :=
  default (mk_sys (mk_channel false [] 0 (zeroed demo_allocator) None false false [] [] 0 0 0 0 false
    false CHANNEL_CLOSE_EXPLICIT false CHANNEL_CLOSE_EXPLICIT false ∅ 0%nat [] [] []) ∅)
    (demo_run capacity os).

(** Two receivers wait, one value arrives: the first receiver is woken and holds
    it. *)
Definition demo_ops : list (op (V := Z)) := [ORecv false; ORecv false; OSendAsync 5].

Lemma demo_state_running capacity os :
  match demo_run capacity os with Some _ => true | None => false end = true →
  running (demo_state capacity os).
Proof.
  unfold demo_state. destruct (demo_run capacity os) eqn:E; [|done]. intros _.
  by eapply demo_run_running.
Qed.

Lemma run_all_app {V Q} `{!FifoBuffer Q V} `{!Reactor V} os os' (s : sys (V := V) (Q := Q)) :
  run_all (os ++ os') s = run_all os s ≫= run_all os'.
Proof.
  revert s. induction os as [|o os IH]; intros s; simpl; [done|]. destruct (enabled o s); [|done].
  destruct (exec o s); simpl; auto.
Qed.

Lemma demo_state_reachable capacity os os' :
  match demo_run capacity (os ++ os') with Some _ => true | None => false end = true →
  reachable (demo_state capacity os) (demo_state capacity (os ++ os')).
Proof.
  unfold demo_state, demo_run. destruct (channel_construct _ _ _ _ _ _ _) as [[|c]|]; try done.
  rewrite run_all_app. destruct (run_all os _) as [s|]; [|done]. simpl.
  destruct (run_all os' s) as [s'|] eqn:E; [|done]. intros _. simpl.
  by apply (run_all_reachable os' s s s' (reach_init s)).
Qed.

Ltac demo_runs := apply demo_state_running; vm_compute; reflexivity.

(** ** Safety *)

(** C1 Whatever the interleaving, every enabled call, resumption, cancellation or
    timer firing on a channel runs to completion without undefined behaviour: no
    [ZEND_ASSERT] fails (a reservation is never released twice and never outlives
    its value), no UNDEF value is handed to a receiver, no queued waiter is
    dangling. *)
Theorem channel_no_undefined_behaviour {V Q} `{!FifoBuffer Q V} `{!Reactor V} `{!FifoCtor Q V}
    (s : sys (V := V) (Q := Q)) (o : op) :
  running s → enabled o s = true → ∃ s', exec o s = Some s'.
Proof.
  intros [l Hl]%running_SInv Hen. destruct (exec_spec o s l Hl Hen) as (s' & ? & _). eauto.
Qed.

Lemma channel_no_undefined_behaviour_witness :
  ∃ s', exec (OResume 0 false None) (demo_state 2 demo_ops) = Some s'.
Proof.
  apply channel_no_undefined_behaviour; [demo_runs|vm_compute; reflexivity].
Defined.

(** ** Invariants *)

(** C20 The reservation accounting of [channel.h] holds in every reachable state:
    the counters are exactly the numbers of suspended receivers and senders that
    were woken and have not run, [reserved_receivers <= count] and
    [reserved_senders <= free space], the contents never exceed the capacity (one
    value for a rendezvous channel), and a reserved receiver is still queued. *)
Theorem channel_reservations_bounded {V Q} `{!FifoBuffer Q V} `{!Reactor V} `{!FifoCtor Q V}
    (s : sys (V := V) (Q := Q)) :
  running s →
  let c := s_chan s in
  reserved_receivers c = cnt (resv (waiters c)) (parked_receivers c) ∧
  reserved_senders c = cnt (resv (waiters c)) (parked_senders c) ∧
  0 ≤ reserved_receivers c ≤ channel_count c ∧
  0 ≤ reserved_senders c ≤ channel_free_space c ∧
  channel_count c + channel_free_space c = slots (ch_capacity c) ∧
  (∀ w, w ∈ parked_receivers c → resv (waiters c) w = true → w ∈ waiting_receivers c).
Proof.
  intros [l [[HD HW HL] _]]%running_SInv c. subst c.
  pose proof (rr_nonneg _ HW). pose proof (rs_nonneg _ HW).
  rewrite (channel_count_spec _ _ _ _ HD), (free_space_spec _ _ _ _ HD).
  destruct HD. split_and!; try lia; [apply HW..|]. intros w Hw. by apply (w_PR _ HW).
Qed.

Lemma channel_reservations_bounded_witness :
  running (demo_state 2 demo_ops) ∧
  let c := s_chan (demo_state 2 demo_ops) in
  reserved_receivers c = cnt (resv (waiters c)) (parked_receivers c) ∧
  reserved_senders c = cnt (resv (waiters c)) (parked_senders c) ∧
  0 ≤ reserved_receivers c ≤ channel_count c ∧
  0 ≤ reserved_senders c ≤ channel_free_space c ∧
  channel_count c + channel_free_space c = slots (ch_capacity c) ∧
  (∀ w, w ∈ parked_receivers c → resv (waiters c) w = true → w ∈ waiting_receivers c).
Proof.
  split; [demo_runs|]. apply channel_reservations_bounded. demo_runs.
Defined.

(** C2 No wakeup is lost.  While a channel is open, a value that is promised to
    nobody implies that every queued receiver already holds a reservation and was
    woken; a slot promised to nobody implies the same of every queued sender,
    except the one parked on its own rendezvous value; and a suspended coroutine
    that is in no queue any more was woken. *)
Theorem channel_no_lost_wakeup {V Q} `{!FifoBuffer Q V} `{!Reactor V} `{!FifoCtor Q V}
    (s : sys (V := V) (Q := Q)) :
  running s →
  let c := s_chan s in
  (ch_closed c = false → channel_has_free_value c = true → ∀ w, w ∈ waiting_receivers c →
    resv (waiters c) w = true ∧ Wake w None ∈ out c) ∧
  (ch_closed c = false → channel_has_free_slot c = true → ∀ w, w ∈ waiting_senders c →
    deliv (waiters c) w = true ∨ resv (waiters c) w = true ∧ Wake w None ∈ out c) ∧
  (∀ w, w ∈ parked_receivers c ∨ w ∈ parked_senders c → w ∉ waiting_receivers c →
    w ∉ waiting_senders c → ∃ e, Wake w e ∈ out c).
Proof.
  intros [l [[HD HW HL] _]]%running_SInv c. subst c.
  rewrite (free_value_spec _ _ _ _ HD), (free_slot_spec _ _ _ _ HD). destruct HL. split_and!.
  - intros Hc Hfree%bool_decide_eq_true w Hw.
    assert (resv (waiters (s_chan s)) w = true) as Hr by (apply l_recv; [done|lia|done]).
    split; [done|]. apply (w_woken _ HW); [|done]. left. destruct (w_R _ HW w Hw) as [_ H].
    destruct (fut _ _); [|done]. destruct H; congruence.
  - intros Hc Hfree%bool_decide_eq_true w Hw.
    destruct (l_send Hc ltac:(lia) w Hw) as [Hr|]; [right|by left]. split; [done|].
    apply (w_woken _ HW); [|done]. right. by apply w_S.
  - intros w Hw ??. by apply (w_woken _ HW w Hw).
Qed.

Lemma channel_no_lost_wakeup_witness :
  running (demo_state 1 [OSend 3 false; ORecv false; OSend 4 false]) ∧
  let c := s_chan (demo_state 1 [OSend 3 false; ORecv false; OSend 4 false]) in
  (ch_closed c = false → channel_has_free_value c = true → ∀ w, w ∈ waiting_receivers c →
    resv (waiters c) w = true ∧ Wake w None ∈ out c) ∧
  (ch_closed c = false → channel_has_free_slot c = true → ∀ w, w ∈ waiting_senders c →
    deliv (waiters c) w = true ∨ resv (waiters c) w = true ∧ Wake w None ∈ out c) ∧
  (∀ w, w ∈ parked_receivers c ∨ w ∈ parked_senders c → w ∉ waiting_receivers c →
    w ∉ waiting_senders c → ∃ e, Wake w e ∈ out c).
Proof.
  split; [demo_runs|]. apply channel_no_lost_wakeup. demo_runs.
Defined.

(** C3 First in, first out, with nothing lost or duplicated: the values accepted so
    far are the values that left the channel, in the same order, followed by the
    values it still holds; and a buffered channel never drops a value, so there
    every value that left was received. *)
Theorem channel_fifo {V Q} `{!FifoBuffer Q V} `{!Reactor V} `{!FifoCtor Q V}
    (s : sys (V := V) (Q := Q)) :
  running s →
  let c := s_chan s in
  ∃ l, accepted (out c) = gone (out c) ++ l ∧ channel_count c = Z.of_nat (length l) ∧
    (if channel_is_buffered c then q_repr (ch_buffer c) l ∧ ∀ v, Dropped v ∉ out c
     else l = option_list (rendezvous_value c)).
Proof.
  intros [l [[HD HW HL] _]]%running_SInv c. subst c. exists l.
  split; [apply HD|]. split; [by eapply channel_count_spec|]. rewrite buffered_spec. case_bool_decide as Hk.
  - split; [by apply (d_buf _ _ _ _ HD)|by apply (d_keep _ _ _ _ HD)].
  - by apply (has_value_spec _ _ _ _ HD).
Qed.

Lemma channel_fifo_witness :
  running (demo_state 2 [OSendAsync 1; OSendAsync 2; ORecv false]) ∧
  let c := s_chan (demo_state 2 [OSendAsync 1; OSendAsync 2; ORecv false]) in
  ∃ l, accepted (out c) = gone (out c) ++ l ∧ channel_count c = Z.of_nat (length l) ∧
    (if channel_is_buffered c then q_repr (ch_buffer c) l ∧ ∀ v, Dropped v ∉ out c
     else l = option_list (rendezvous_value c)).
Proof. split; [demo_runs|]. apply channel_fifo. demo_runs. Defined.

(** Once closed, a channel stays closed, and the reason given by the first
    close is never replaced; its history only grows. *)
Theorem channel_closed_is_final {V Q} `{!FifoBuffer Q V} `{!Reactor V} `{!FifoCtor Q V}
    (s s' : sys (V := V) (Q := Q)) :
  running s → reachable s s' → ch_closed (s_chan s) = true →
  ch_closed (s_chan s') = true ∧ close_reason (s_chan s') = close_reason (s_chan s) ∧
  ∃ o, out (s_chan s') = out (s_chan s) ++ o.
Proof.
  intros [l Hl]%running_SInv Hr Hc. destruct (reachable_SInv s s' l Hl Hr) as [(_ & H & Ho) _].
  destruct (H Hc). auto.
Qed.


Lemma channel_closed_is_final_witness :
  let s := demo_state 0 [ORecv false; OClose CHANNEL_CLOSE_EXPLICIT] in
  let s' := demo_state 0 ([ORecv false; OClose CHANNEL_CLOSE_EXPLICIT] ++ [OClose CHANNEL_CLOSE_DEADLOCK]) in
  ch_closed (s_chan s') = true ∧ close_reason (s_chan s') = close_reason (s_chan s) ∧
  ∃ o, out (s_chan s') = out (s_chan s) ++ o.
Proof.
  apply channel_closed_is_final; [demo_runs| |vm_compute; reflexivity].
  apply demo_state_reachable. vm_compute. reflexivity.
Defined.

(** ** The operations *)

(** [__construct] accepts exactly capacities and timeouts in [0, INT32_MAX],
    naming the first argument out of range otherwise; the [capacity + 1] slots it
    asks for never overflow; and a constructed channel is open, empty, has an
    empty history and the requested capacity and timeouts. *)
Theorem channel_construct_outcome {V Q} `{!FifoBuffer Q V} `{!FifoCtor Q V}
    (buf0 : Q) (capacity npt nct : Z) hard current main :
  ∃ r : construct_error + async_channel_t Q V,
    channel_construct buf0 capacity npt nct hard current main = Some r ∧
    match r with
    | inl (ArgumentError 1) => ¬ 0 ≤ capacity ≤ INT32_MAX
    | inl (ArgumentError 2) => 0 ≤ capacity ≤ INT32_MAX ∧ ¬ 0 ≤ npt ≤ INT32_MAX
    | inl (ArgumentError _) => 0 ≤ capacity ≤ INT32_MAX ∧ 0 ≤ npt ≤ INT32_MAX ∧ ¬ 0 ≤ nct ≤ INT32_MAX
    | inl BufferError => 0 < capacity ≤ INT32_MAX
    | inr c => channel_count c = 0 ∧ ch_closed c = false ∧ ch_capacity c = capacity ∧
               out c = [] ∧ no_producer_timeout_ms c = npt ∧ no_consumer_timeout_ms c = nct
    end.
Proof.
  destruct (construct_SInv buf0 capacity npt nct hard current main) as (r & Hr & Hspec).
  exists r. split; [exact Hr|]. destruct r as [e|c]; [exact Hspec|].
  destruct Hspec as ((HI & _) & ?). split; [|done]. apply (channel_count_spec _ _ _ _ (i_data _ _ _ _ _ _ HI)).
Qed.

(** [send] on every branch.  A fired token or a closed channel throws and
    leaves the channel alone.  With a free slot the value is accepted, once: a
    buffered send returns, a rendezvous send returns if a receiver took or was
    promised the value and otherwise parks on it.  Without a free slot nothing is
    accepted and the sender parks. *)
Theorem send_outcome {V Q} `{!FifoBuffer Q V} `{!Reactor V} `{!FifoCtor Q V}
    (s : sys (V := V) (Q := Q)) (v : V) (token_fired : bool) :
  running s →
  let c := s_chan s in
  ∃ o c', send v token_fired c = Some (o, c') ∧
    match o with
    | Done _ _ => ch_closed c = false ∧ channel_has_free_slot c = true ∧
        accepted (out c') = accepted (out c) ++ [v]
    | ThrowClosed _ ex => ch_closed c = true ∧ c' = c ∧ ex = make_channel_exception (close_reason c)
    | ThrowPending _ => token_fired = true ∧ c' = c
    | Parked _ w delivering => ch_closed c = false ∧ delivering = channel_has_free_slot c ∧
        (delivering = true → channel_is_buffered c = false) ∧
        accepted (out c') = accepted (out c) ++ (if delivering then [v] else []) ∧
        parked_senders c' = parked_senders c ++ [w]
    end.
Proof.
  intros [l [HI _]]%running_SInv c. subst c. unfold send. destruct token_fired; [by do 2 eexists|].
  pose proof (send_retry_spec v false false (s_chan s) l HI) as (o & c' & Hrun & Hpost)%wp_run.
  exists o, c'. split; [exact Hrun|]. cbn in Hpost. destruct o as [u|ex| |w d].
  - destruct Hpost as (? & ? & Hp & _). split_and!; try done.
    destruct Hp as (_ & _ & _ & _ & _ & _ & _ & o & -> & Ho). cbn.
    by rewrite !accepted_app, Ho, app_nil_r.
  - done.
  - by destruct Hpost as (_ & ? & _).
  - destruct Hpost as (? & -> & Hb & _ & Hp). split_and!; try done.
    + intros Hf. rewrite buffered_spec. apply bool_decide_eq_false. intros ?%Hb. congruence.
    + destruct Hp as (_ & _ & _ & _ & _ & _ & _ & _ & o & -> & Ho).
      destruct (channel_has_free_slot _); cbn; by rewrite !accepted_app, Ho, ?app_nil_r.
    + destruct Hp as (_ & _ & _ & -> & _). by destruct (channel_has_free_slot _).
Qed.

Lemma send_outcome_witness :
  running (demo_state 1 [OSendAsync 1]) ∧
  let c := s_chan (demo_state 1 [OSendAsync 1]) in
  ∃ o c', send 2 false c = Some (o, c') ∧
    match o with
    | Done _ _ => ch_closed c = false ∧ channel_has_free_slot c = true ∧
        accepted (out c') = accepted (out c) ++ [2]
    | ThrowClosed _ ex => ch_closed c = true ∧ c' = c ∧ ex = make_channel_exception (close_reason c)
    | ThrowPending _ => false = true ∧ c' = c
    | Parked _ w delivering => ch_closed c = false ∧ delivering = channel_has_free_slot c ∧
        (delivering = true → channel_is_buffered c = false) ∧
        accepted (out c') = accepted (out c) ++ (if delivering then [2] else []) ∧
        parked_senders c' = parked_senders c ++ [w]
    end.
Proof. split; [demo_runs|]. apply send_outcome. demo_runs. Defined.

(** [sendAsync] never suspends: it answers true exactly when the channel is open
    and a slot is free, and then accepts the value once; otherwise it changes
    nothing. *)
Theorem sendAsync_outcome {V Q} `{!FifoBuffer Q V} `{!Reactor V} `{!FifoCtor Q V}
    (s : sys (V := V) (Q := Q)) (v : V) :
  running s →
  let c := s_chan s in
  ∃ ok c', sendAsync v c = Some (ok, c') ∧ ok = negb (ch_closed c) && channel_has_free_slot c ∧
    if ok then accepted (out c') = accepted (out c) ++ [v] else c' = c.
Proof.
  intros [l [HI _]]%running_SInv c. subst c.
  pose proof (sendAsync_spec v (s_chan s) l HI) as (ok & c' & Hrun & Hok & Hpost)%wp_run.
  exists ok, c'. split_and!; [done..|]. destruct ok; [|done]. destruct Hpost as [Hp _].
  destruct Hp as (_ & _ & _ & _ & _ & _ & _ & o & -> & Ho). cbn.
  by rewrite !accepted_app, Ho, app_nil_r.
Qed.

Lemma sendAsync_outcome_witness :
  running (demo_state 0 [ORecv false]) ∧
  let c := s_chan (demo_state 0 [ORecv false]) in
  ∃ ok c', sendAsync 9 c = Some (ok, c') ∧ ok = negb (ch_closed c) && channel_has_free_slot c ∧
    if ok then accepted (out c') = accepted (out c) ++ [9] else c' = c.
Proof. split; [demo_runs|]. apply sendAsync_outcome. demo_runs. Defined.

(** [recv] on every branch.  With a value promised to nobody it returns the
    oldest value of the channel, also when the channel is closed; otherwise a
    closed channel throws, a fired token throws, and an open channel parks the
    caller.  Nothing but the returned value leaves the channel. *)
Theorem recv_outcome {V Q} `{!FifoBuffer Q V} `{!Reactor V} `{!FifoCtor Q V}
    (s : sys (V := V) (Q := Q)) (token_fired : bool) :
  running s →
  let c := s_chan s in
  ∃ o c', recv token_fired c = Some (o, c') ∧
    match o with
    | Done _ v => channel_has_free_value c = true ∧ gone (out c') = gone (out c) ++ [v] ∧
        ∃ l, accepted (out c) = gone (out c) ++ v :: l
    | ThrowClosed _ ex => channel_has_free_value c = false ∧ ch_closed c = true ∧ c' = c ∧
        ex = make_channel_exception (close_reason c)
    | ThrowPending _ => token_fired = true ∧ c' = c
    | Parked _ w delivering => channel_has_free_value c = false ∧ ch_closed c = false ∧
        gone (out c') = gone (out c) ∧ parked_receivers c' = parked_receivers c ++ [w]
    end.
Proof.
  intros [l [HI _]]%running_SInv c. subst c. unfold recv. destruct token_fired; [by do 2 eexists|].
  pose proof (d_log _ _ _ _ (i_data _ _ _ _ _ _ HI)) as Hlog.
  pose proof (recv_retry_spec false false (s_chan s) l HI) as (o & c' & Hrun & Hpost)%wp_run.
  exists o, c'. split; [exact Hrun|]. cbn in Hpost. destruct o as [v|ex| |w d].
  - destruct Hpost as (Hfree & Hp & l' & -> & HI'). split_and!; [done| |by eexists].
    destruct Hp as (_ & _ & _ & _ & _ & _ & _ & o & Ho & Ha).
    pose proof (d_log _ _ _ _ (i_data _ _ _ _ _ _ HI')) as Hlog'.
    rewrite Ho, accepted_app, Ha, app_nil_r, Hlog, <- Ho in Hlog'.
    apply (app_inv_tail l'). rewrite <- Hlog', <- app_assoc. done.
  - by destruct Hpost as (? & ? & -> & -> & _).
  - by destruct Hpost as (_ & ? & _).
  - destruct Hpost as (? & _ & ? & HI' & Hp). split_and!; [done..| |].
    + destruct Hp as (_ & _ & _ & _ & _ & _ & _ & _ & o & Ho & Ha).
      pose proof (d_log _ _ _ _ (i_data _ _ _ _ _ _ HI')) as Hlog'.
      rewrite Ho, accepted_app, Ha, app_nil_r, Hlog, <- Ho in Hlog'. by apply app_inv_tail in Hlog'.
    + by destruct Hp as (_ & _ & -> & _).
Qed.

Lemma recv_outcome_witness :
  running (demo_state 2 [OSendAsync 1; OSendAsync 2; OClose CHANNEL_CLOSE_EXPLICIT]) ∧
  let c := s_chan (demo_state 2 [OSendAsync 1; OSendAsync 2; OClose CHANNEL_CLOSE_EXPLICIT]) in
  ∃ o c', recv false c = Some (o, c') ∧
    match o with
    | Done _ v => channel_has_free_value c = true ∧ gone (out c') = gone (out c) ++ [v] ∧
        ∃ l, accepted (out c) = gone (out c) ++ v :: l
    | ThrowClosed _ ex => channel_has_free_value c = false ∧ ch_closed c = true ∧ c' = c ∧
        ex = make_channel_exception (close_reason c)
    | ThrowPending _ => false = true ∧ c' = c
    | Parked _ w delivering => channel_has_free_value c = false ∧ ch_closed c = false ∧
        gone (out c') = gone (out c) ∧ parked_receivers c' = parked_receivers c ++ [w]
    end.
Proof. split; [demo_runs|]. apply recv_outcome. demo_runs. Defined.

(** [close] on an open channel: it records the reason, stops the deadlock timer,
    fails every sender and every receiver that holds no reservation with the
    exception of that reason (coroutines are woken with it, futures rejected),
    keeps the receivers that hold a reservation queued and undisturbed, and drops
    the value of a rendezvous that met no receiver, and no other value. *)
Theorem close_outcome {V Q} `{!FifoBuffer Q V} `{!Reactor V} `{!FifoCtor Q V}
    (s : sys (V := V) (Q := Q)) (reason : channel_close_reason_t) :
  running s → ch_closed (s_chan s) = false →
  let c := s_chan s in
  let ex := make_channel_exception reason in
  ∃ c' timer dropped, channel_close reason c = Some (tt, c') ∧
    ch_closed c' = true ∧ close_reason c' = reason ∧ deadlock_timer c' = false ∧
    waiting_senders c' = [] ∧
    waiting_receivers c' = keep_reserved (waiters c) (waiting_receivers c) ∧
    Forall timer_effect timer ∧
    out c' = out c ++ timer ++
      (fail_effect ex (waiters c) <$> reverse (unreserved (waiters c) (waiting_receivers c))) ++
      ((λ w, Wake w (Some ex)) <$> reverse (waiting_senders c)) ++ dropped ∧
    (if rendezvous_has_value c && negb (rendezvous_committed c)
     then ∃ v, rendezvous_value c = Some v ∧ dropped = [Dropped v] else dropped = []).
Proof.
  intros [l [HI _]]%running_SInv Hc c ex. subst c ex.
  pose proof (close_spec reason (s_chan s) l HI Hc) as ([] & c' & Hrun & Hpost)%wp_run.
  destruct Hpost as (c1 & l' & (a & r & g & ts & Hts & ->) & Hoff & HI' & Hcase). exists c', ts.
  pose proof (i_data _ _ _ _ _ _ HI) as HD.
  destruct (rendezvous_has_value (s_chan s) && _) eqn:E.
  - destruct Hcase as (v & -> & -> & ->). exists [Dropped v]. split_and!; try done.
    + cbn. by rewrite <- !app_assoc.
    + exists v. split; [|done]. apply andb_true_iff in E as [Eh _].
      destruct (decide (0 < ch_capacity (s_chan s))) as [Hk|Hk].
      * destruct (d_buf _ _ _ _ HD Hk) as (_ & _ & Hrv). rewrite (d_has _ _ _ _ HD), Hrv in Eh. done.
      * destruct (has_value_spec _ _ _ _ HD Hk) as (_ & Hl & _).
        destruct (rendezvous_value (s_chan s)); by simplify_eq/=.
  - destruct Hcase as [-> ->]. exists []. split_and!; try done. cbn. by rewrite <- !app_assoc, app_nil_r.
Qed.

Lemma close_outcome_witness :
  let c := s_chan (demo_state 2 demo_ops) in
  let ex := make_channel_exception CHANNEL_CLOSE_EXPLICIT in
  ∃ c' timer dropped, channel_close CHANNEL_CLOSE_EXPLICIT c = Some (tt, c') ∧
    ch_closed c' = true ∧ close_reason c' = CHANNEL_CLOSE_EXPLICIT ∧ deadlock_timer c' = false ∧
    waiting_senders c' = [] ∧
    waiting_receivers c' = keep_reserved (waiters c) (waiting_receivers c) ∧
    Forall timer_effect timer ∧
    out c' = out c ++ timer ++
      (fail_effect ex (waiters c) <$> reverse (unreserved (waiters c) (waiting_receivers c))) ++
      ((λ w, Wake w (Some ex)) <$> reverse (waiting_senders c)) ++ dropped ∧
    (if rendezvous_has_value c && negb (rendezvous_committed c)
     then ∃ v, rendezvous_value c = Some v ∧ dropped = [Dropped v] else dropped = []).
Proof. apply close_outcome; [demo_runs|vm_compute; reflexivity]. Defined.

(** A delivery that was reported is never undone: a receiver that was woken with a
    reservation and runs without an exception returns the oldest value of the
    channel, whatever happened in between, the closing of the channel included. *)
Theorem reserved_receiver_gets_value {V Q} `{!FifoBuffer Q V} `{!Reactor V} `{!FifoCtor Q V}
    (s : sys (V := V) (Q := Q)) (w : nat) (token_fired : bool) :
  running s → w ∈ parked_receivers (s_chan s) → resv (waiters (s_chan s)) w = true →
  let c := s_chan s in
  ∃ v c', recv_resume w token_fired false c = Some (Done V v, c') ∧
    gone (out c') = gone (out c) ++ [v] ∧ ∃ l, accepted (out c) = gone (out c) ++ v :: l.
Proof.
  intros [l [HI _]]%running_SInv Hw Hr c. subst c.
  pose proof (d_log _ _ _ _ (i_data _ _ _ _ _ _ HI)) as Hlog.
  assert (wp (recv_resume w token_fired false) (λ o c', ∃ v, o = Done V v ∧
    gone (out c') = gone (out (s_chan s)) ++ [v] ∧
    ∃ l, accepted (out (s_chan s)) = gone (out (s_chan s)) ++ v :: l) (s_chan s)) as Hwp.
  { unfold recv_resume. wp_apply (resume_receiver_spec w false _ l HI Hw).
    intros spent c1 (-> & Hp & HI1). rewrite Hr in HI1 |- *. cbn in HI1 |- *.
    wp_apply (recv_retry_spec token_fired true c1 l HI1).
    intros o c' Hpost. cbn in Hpost. destruct o as [v|ex| |w' d]; [|by destruct Hpost as (? & _)..].
    destruct Hpost as (_ & Hp' & l' & -> & HI'). exists v. split_and!; [done| |by eexists].
    destruct Hp as (_ & _ & _ & _ & _ & _ & _ & o1 & Ho1 & Ha1).
    destruct Hp' as (_ & _ & _ & _ & _ & _ & _ & o2 & Ho2 & Ha2).
    assert (out (unpark_state Receivers w (s_chan s)) = out (s_chan s)) as Hu
      by (unfold unpark_state; by destruct (resv _ _)).
    rewrite Hu in Ho1. pose proof (d_log _ _ _ _ (i_data _ _ _ _ _ _ HI')) as Hlog'.
    rewrite Ho2, Ho1, !accepted_app, Ha1, Ha2, !app_nil_r, Hlog, <- Ho1, <- Ho2 in Hlog'.
    apply (app_inv_tail l'). rewrite <- Hlog', <- app_assoc. done. }
  apply wp_run in Hwp as (o & c' & Hrun & v & -> & ?). eauto.
Qed.

Lemma reserved_receiver_gets_value_witness :
  let c := s_chan (demo_state 2 (demo_ops ++ [OClose CHANNEL_CLOSE_EXPLICIT])) in
  ∃ v c', recv_resume 0 true false c = Some (Done Z v, c') ∧
    gone (out c') = gone (out c) ++ [v] ∧ ∃ l, accepted (out c) = gone (out c) ++ v :: l.
Proof.
  apply reserved_receiver_gets_value; [demo_runs|vm_compute; repeat constructor|vm_compute; reflexivity].
Defined.

(** A rendezvous send returns success only after its value left the slot: while
    the sender is still queued on its own value it was not woken without an
    exception, so its resumption without one is not enabled. *)
Theorem rendezvous_send_waits_for_taker {V Q} `{!FifoBuffer Q V} `{!Reactor V} `{!FifoCtor Q V}
    (s : sys (V := V) (Q := Q)) (w : nat) (v : V) (token_fired : bool) :
  running s → s_frames s !! w = Some (FSend v true) →
  enabled (OResume w token_fired None) s = true →
  w ∉ waiting_senders (s_chan s).
Proof.
  intros [l [[_ HW _] Hf]]%running_SInv Hw Hen Hin. specialize (Hf w). rewrite Hw in Hf.
  destruct Hf as [_ Hd]. cbn in Hen. rewrite Hw in Hen. cbn in Hen.
  apply existsb_exists in Hen as (e & He & Hmatch).
  destruct e as [w' []| | | | | | |]; try done. apply Nat.eqb_eq in Hmatch as <-.
  apply (w_quiet _ HW w Hin Hd). by apply list_elem_of_In.
Qed.

Lemma rendezvous_send_waits_for_taker_witness :
  (0%nat ∉ waiting_senders (s_chan (demo_state 0 [OSend 7 false; ORecv false]))).
Proof.
  apply (rendezvous_send_waits_for_taker _ 0 7 false); [demo_runs|vm_compute; reflexivity..].
Defined.

(** ** The deadlock timer *)

(** Waiters that hold no reservation. *)
Definition starving_receivers {V Q} (c : async_channel_t Q V) : bool :=
  reserved_receivers c <? Z.of_nat (length (waiting_receivers c)).
Definition starving_senders {V Q} (c : async_channel_t Q V) : bool :=
  reserved_senders c <? Z.of_nat (length (waiting_senders c)).

Section timer.
Context {V Q : Type} `{!Reactor V}.
Implicit Types (c : async_channel_t Q V).

(** The timer agrees with the waiters of [c]. *)
Definition timer_ok c c' : Prop :=
  (starving_receivers c = false → starving_senders c = false → deadlock_timer c' = false) ∧
  (starving_receivers c = true → ch_closed c = false → 0 < no_producer_timeout_ms c →
    deadlock_timer c' = true ∧ pending_timeout_reason c' = CHANNEL_CLOSE_NO_PRODUCERS) ∧
  (starving_receivers c = false → starving_senders c = true → ch_closed c = false →
    0 < no_consumer_timeout_ms c →
    deadlock_timer c' = true ∧ pending_timeout_reason c' = CHANNEL_CLOSE_NO_CONSUMERS).

Lemma arm_arms reason t c : (∀ o, timer_new o = true) → (∀ o, timer_start o = true) →
  wp (channel_arm_deadlock_timer reason t) (λ _ c',
    deadlock_timer c = false → ch_closed c = false → 0 < t →
    deadlock_timer c' = true ∧ pending_timeout_reason c' = reason) c.
Proof.
  intros Hnew Hstart. unfold channel_arm_deadlock_timer, emit. wp_simpl.
  destruct (Z.leb_spec t 0); cbn; wp_simpl; [lia|].
  destruct (deadlock_timer c) eqn:Ht; cbn; wp_simpl; [congruence|].
  destruct (ch_closed c) eqn:Hc; cbn; wp_simpl; [congruence|]. rewrite Hnew, Hstart. cbn.
  wp_simpl. by destruct (hard_timeouts c).
Qed.

Lemma refresh_timer_spec c : (∀ o, timer_new o = true) → (∀ o, timer_start o = true) →
  wp channel_refresh_deadlock_timer (λ _ c', timer_ok c c') c.
Proof.
  intros Hnew Hstart. unfold channel_refresh_deadlock_timer, timer_ok. wp_simpl.
  fold (starving_receivers c) (starving_senders c).
  destruct (starving_receivers c), (starving_senders c); cbn [negb andb].
  4:{ wp_apply disarm_spec. intros _ c' [_ ?]. by split_and!. }
  all: destruct (deadlock_timer c) eqn:Ht; cbn [andb];
    [case_bool_decide as Hr; wp_simpl; [by split_and!|]|wp_simpl].
  all: try (wp_apply disarm_spec; intros _ c1 [(a & r & g & ts & _ & ->) Hoff]).
  all: wp_apply arm_arms; [done..|]; intros _ c2 Hc2; cbn in *; by split_and!; auto.
Qed.
End timer.

(** [channel_refresh_deadlock_timer] with a reactor that can create and start
    timers.  With no waiter left without a reservation the timer is off; otherwise,
    on an open channel whose timeout for the starving side is positive, it is
    armed with the reason of that side, receivers first. *)
Theorem refresh_timer_outcome {V Q} `{!Reactor V} (c : async_channel_t Q V) :
  (∀ o, timer_new o = true) → (∀ o, timer_start o = true) →
  ∃ c', channel_refresh_deadlock_timer c = Some (tt, c') ∧
    (starving_receivers c = false → starving_senders c = false → deadlock_timer c' = false) ∧
    (starving_receivers c = true → ch_closed c = false → 0 < no_producer_timeout_ms c →
      deadlock_timer c' = true ∧ pending_timeout_reason c' = CHANNEL_CLOSE_NO_PRODUCERS) ∧
    (starving_receivers c = false → starving_senders c = true → ch_closed c = false →
      0 < no_consumer_timeout_ms c →
      deadlock_timer c' = true ∧ pending_timeout_reason c' = CHANNEL_CLOSE_NO_CONSUMERS).
Proof.
  intros Hnew Hstart. pose proof (refresh_timer_spec c Hnew Hstart) as ([] & c' & ? & ?)%wp_run.
  by exists c'.
Qed.

Lemma refresh_timer_outcome_witness :
  let c := s_chan (demo_state 0 [ORecv false]) in
  ∃ c', channel_refresh_deadlock_timer c = Some (tt, c') ∧
    (starving_receivers c = false → starving_senders c = false → deadlock_timer c' = false) ∧
    (starving_receivers c = true → ch_closed c = false → 0 < no_producer_timeout_ms c →
      deadlock_timer c' = true ∧ pending_timeout_reason c' = CHANNEL_CLOSE_NO_PRODUCERS) ∧
    (starving_receivers c = false → starving_senders c = true → ch_closed c = false →
      0 < no_consumer_timeout_ms c →
      deadlock_timer c' = true ∧ pending_timeout_reason c' = CHANNEL_CLOSE_NO_CONSUMERS).
Proof. apply refresh_timer_outcome; reflexivity. Defined.

(** ** Destruction *)

Lemma drain_spec {V Q} `{!FifoBuffer Q V} fuel (c : async_channel_t Q V) l :
  q_repr (ch_buffer c) l → (length l < fuel)%nat →
  wp (drain_buffer fuel) (λ _ c', ∃ q, c' = set_out (out c ++ (Dropped <$> l)) (set_ch_buffer q c)) c.
Proof.
  revert c l. induction fuel as [|fuel IH]; intros c l Hq Hf; [lia|]. simpl.
  rewrite wp_bind, wp_get, wp_if, (q_is_empty_spec _ l Hq). case_bool_decide as Hl.
  { subst l. wp_simpl. exists (ch_buffer c). cbn. rewrite app_nil_r. by destruct c. }
  destruct l as [|v l]; [done|]. rewrite wp_bind, wp_zoom. wp_apply (q_pop_spec _ _ Hq).
  intros r q (-> & Hq' & _). unfold emit. wp_simpl. simpl in Hf.
  wp_apply (IH _ l); [exact Hq'|lia|]. intros _ c' [q' ->]. exists q'. cbn.
  by rewrite <- app_assoc.
Qed.

Lemma accepted_dropped {V} (l : list V) : accepted (Dropped <$> l) = [].
Proof. induction l; [done|]. done. Qed.
Lemma gone_dropped {V} (l : list V) : gone (Dropped <$> l) = l.
Proof. unfold gone. induction l as [|v l IH]; [done|]. cbn. by rewrite IH. Qed.

(** Destroying a channel releases every value it still holds exactly once and in
    order (afterwards the values that left are all the accepted ones), stops the
    timer and unbinds the channel from its scope; the drain loop ends. *)
Theorem free_object_releases_all {V Q} `{!FifoBuffer Q V} `{!Reactor V} `{!FifoCtor Q V}
    (s : sys (V := V) (Q := Q)) :
  running s →
  ∃ c', async_channel_free_object (s_chan s) = Some (tt, c') ∧
    accepted (out c') = accepted (out (s_chan s)) ∧ gone (out c') = accepted (out c') ∧
    deadlock_timer c' = false ∧ scope_bound c' = false ∧
    waiting_receivers c' = [] ∧ waiting_senders c' = [].
Proof.
  intros [l [HI _]]%running_SInv. remember (s_chan s) as c0. clear Heqc0.
  enough (wp async_channel_free_object (λ _ c',
    accepted (out c') = accepted (out c0) ∧ gone (out c') = accepted (out c') ∧
    deadlock_timer c' = false ∧ scope_bound c' = false ∧
    waiting_receivers c' = [] ∧ waiting_senders c' = []) c0) as Hwp.
  { by apply wp_run in Hwp as ([] & c' & ? & ?); exists c'. }
  assert (∃ c1, channel_unbind_from_owner_scope c0 = Some (tt, c1) ∧ c1 = set_scope_bound false c0)
    as (c1 & Hun & Hc1).
  { unfold channel_unbind_from_owner_scope. unfold mbind, M_bind, get. destruct (scope_bound c0) eqn:E.
    - by eexists.
    - eexists. split; [done|]. destruct c0; cbn in *. by subst. }
  unfold async_channel_free_object. rewrite wp_bind. unfold wp at 1. rewrite Hun.
  wp_apply disarm_spec. intros _ c2 [(a & r & g & ts & Hts & ->) Hoff]. subst c1. cbn in Hoff. subst a.
  pose proof (i_data _ _ _ _ _ _ HI) as HD. pose proof (timer_effects_silent _ Hts).
  wp_simpl. change (channel_is_buffered _) with (channel_is_buffered c0).
  rewrite buffered_spec. case_bool_decide as Hk.
  - destruct (d_buf _ _ _ _ HD Hk) as (Hq & _ & _).
    wp_apply (drain_spec _ _ l); [exact Hq|cbn; rewrite (q_count_spec _ l Hq); lia|].
    intros _ c' [q ->]. cbn. autorewrite with waiters.
    rewrite (accepted_silent ts), (gone_silent ts), accepted_dropped, gone_dropped, !app_nil_r by done.
    split_and!; try done. by rewrite (d_log _ _ _ _ HD).
  - destruct (has_value_spec _ _ _ _ HD Hk) as (_ & Hl & Hv). wp_simpl.
    change (rendezvous_has_value _) with (rendezvous_has_value c0).
    change (rendezvous_value _) with (rendezvous_value c0). rewrite Hv.
    pose proof (d_log _ _ _ _ HD) as Hlog. unfold emit.
    destruct (rendezvous_value c0) as [v|]; cbn in Hl; subst l.
    + rewrite bool_decide_true by done. wp_simpl. cbn. autorewrite with waiters.
      rewrite (accepted_silent ts), (gone_silent ts), !app_nil_r by done.
      by split_and!.
    + rewrite bool_decide_false by (intros []; done). wp_simpl. cbn. autorewrite with waiters.
      rewrite (accepted_silent ts), (gone_silent ts), !app_nil_r by done.
      split_and!; try done. by rewrite Hlog, app_nil_r.
Qed.

Lemma free_object_releases_all_witness :
  let s := demo_state 2 [OSendAsync 1; OSendAsync 2; ORecv false] in
  ∃ c', async_channel_free_object (s_chan s) = Some (tt, c') ∧
    accepted (out c') = accepted (out (s_chan s)) ∧ gone (out c') = accepted (out c') ∧
    deadlock_timer c' = false ∧ scope_bound c' = false ∧
    waiting_receivers c' = [] ∧ waiting_senders c' = [].
Proof. apply free_object_releases_all. demo_runs. Defined.

(** ** The global deadlock resolver *)

(** The channels of a thread, each in a reachable state. *)
Definition all_running {V Q} `{!FifoBuffer Q V} `{!Reactor V} `{!FifoCtor Q V}
    (cs : list (async_channel_t Q V)) : Prop :=
  Forall (λ c, ∃ s, running s ∧ s_chan s = c) cs.

(** What the resolver does to one channel. *)
Definition resolved_as {V Q} (c c' : async_channel_t Q V) : Prop :=
  if in_deadlock_channels c && negb (ch_closed c)
  then ch_closed c' = true ∧ close_reason c' = CHANNEL_CLOSE_DEADLOCK ∧ deadlock_timer c' = false
  else c' = c.

(** [async_channel_resolve_deadlocks] closes every registered open channel with
    reason DEADLOCK, leaves every other channel alone, and reports whether it
    closed any. *)
Theorem resolve_deadlocks_outcome {V Q} `{!FifoBuffer Q V} `{!Reactor V} `{!FifoCtor Q V}
    (cs : list (async_channel_t Q V)) :
  all_running cs →
  ∃ cs', async_channel_resolve_deadlocks cs =
      Some (existsb (λ c, in_deadlock_channels c && negb (ch_closed c)) cs, cs') ∧
    Forall2 resolved_as cs cs'.
Proof.
  induction 1 as [|c cs (s & Hs & <-) Hcs (cs' & IH & HF)]; [by eexists|]. cbn.
  destruct (in_deadlock_channels (s_chan s) && negb (ch_closed (s_chan s))) eqn:E.
  - destruct (running_SInv s Hs) as [l [HI _]].
    pose proof E as [_ Hc%negb_true_iff]%andb_true_iff.
    pose proof (close_spec CHANNEL_CLOSE_DEADLOCK _ l HI Hc) as ([] & c' & -> & Hpost)%wp_run.
    destruct Hpost as (c1 & l' & _ & Hoff & _ & Hcase). cbn. rewrite IH. cbn. eexists. split; [done|].
    constructor; [|done]. unfold resolved_as. rewrite E.
    destruct (rendezvous_has_value (s_chan s) && _);
      [destruct Hcase as (v & _ & _ & ->)|destruct Hcase as [_ ->]]; done.
  - cbn. rewrite IH. cbn. eexists. split; [done|]. constructor; [|done]. unfold resolved_as. by rewrite E.
Qed.

Lemma resolve_deadlocks_outcome_witness :
  let cs := [s_chan (demo_state 0 [ORecv false]); s_chan (demo_state 1 [OSendAsync 1])] in
  ∃ cs', async_channel_resolve_deadlocks cs =
      Some (existsb (λ c, in_deadlock_channels c && negb (ch_closed c)) cs, cs') ∧
    Forall2 resolved_as cs cs'.
Proof.
  apply resolve_deadlocks_outcome. unfold all_running.
  repeat constructor; eexists; (split; [|reflexivity]); demo_runs.
Defined.

(** ** Deviations *)

(** The deadlock timer can outlive every waiter.  A receiver parks (which arms the
    timer), a future is queued behind it, the receiver is cancelled (the future
    keeps the timer armed) and the future is dropped: [channel_recv_future_dispose]
    does not refresh the timer, so an open channel that nobody waits on keeps an
    armed timer, and its expiry closes the channel with reason NO_PRODUCERS. *)
Theorem dropped_future_leaves_timer_armed :
  let s := demo_state 1
    [ORecv false; ORecvAsync 9; OResume 0 false (Some false); ODisposeFuture 1] in
  running s ∧ ch_closed (s_chan s) = false ∧
  waiting_receivers (s_chan s) = [] ∧ waiting_senders (s_chan s) = [] ∧
  deadlock_timer (s_chan s) = true ∧
  ∃ s', exec OTimerFire s = Some s' ∧ ch_closed (s_chan s') = true ∧
    close_reason (s_chan s') = CHANNEL_CLOSE_NO_PRODUCERS.
Proof.
  intros s. assert (running s) as Hs by demo_runs.
  assert (deadlock_timer (s_chan s) = true) as Ht by (vm_compute; reflexivity).
  split_and!; [done|vm_compute; reflexivity..|].
  assert (match exec OTimerFire s with
          | Some s' => ch_closed (s_chan s') &&
              bool_decide (close_reason (s_chan s') = CHANNEL_CLOSE_NO_PRODUCERS)
          | None => false end = true) as H by (vm_compute; reflexivity).
  destruct (exec OTimerFire s) as [s'|]; [|done]. exists s'. split; [done|].
  by apply andb_true_iff in H as [? ?%bool_decide_eq_true].
Qed.

(** A reactor that creates timers but cannot start them. *)
Definition failing_reactor : Reactor Z := {| timer_new _ := true; timer_start _ := false |}.

Definition failing_state (os : list (op (V := Z))) : option (sys (V := Z) (Q := circular_buffer_t Z)) :=
  match channel_construct (zeroed demo_allocator) 1 100 200 false None None with
  | Some (inr c) => run_all (Reactor0 := failing_reactor) os (mk_sys c ∅)
  | _ => None
  end.

(** A timer that cannot be started leaves the channel in the registry of deadlocked
    channels with no timer; [channel_disarm_deadlock_timer] returns early without
    one, so the entry stays after every waiter has left and even after the object
    was freed. *)
Theorem unstarted_timer_leaks_registration :
  ∃ s c', failing_state [ORecv false; OResume 0 false (Some false)] = Some s ∧
    waiting_receivers (s_chan s) = [] ∧ waiting_senders (s_chan s) = [] ∧
    deadlock_timer (s_chan s) = false ∧ in_deadlock_channels (s_chan s) = true ∧
    async_channel_free_object (s_chan s) = Some (tt, c') ∧ in_deadlock_channels c' = true.
Proof.
  assert (match failing_state [ORecv false; OResume 0 false (Some false)] with
    | Some s => match waiting_receivers (s_chan s), waiting_senders (s_chan s) with
                | [], [] => negb (deadlock_timer (s_chan s)) && in_deadlock_channels (s_chan s) &&
                  match async_channel_free_object (s_chan s) with
                  | Some (tt, c') => in_deadlock_channels c' | None => false end
                | _, _ => false end
    | None => false end = true) as H by (vm_compute; reflexivity).
  destruct (failing_state [ORecv false; OResume 0 false (Some false)]) as [s|]; [|done].
  exists s. destruct (waiting_receivers _), (waiting_senders _); try done.
  destruct (async_channel_free_object _) as [[[] c']|]; [|by rewrite andb_false_r in H].
  exists c'. apply andb_true_iff in H as [[?%negb_true_iff ?]%andb_true_iff ?]. by split_and!.
Qed.
