(* ===== verification/ThreadChannel.v ===== *)
(** * The thread channel: [src/thread_channel.c] and [src/thread_channel.h]

    A buffered channel between operating-system threads.  The state
    [async_thread_channel_t] is shared; every access is inside a section that
    holds its mutex.  Each such section of [thread_channel_send_ex] and
    [thread_channel_receive] is one atomic step here, and a call in progress
    ([call]) records where it is between two of them, so [treachable] interleaves the
    sections of any number of callers on any number of threads in any order.

    The trigger events are a ghost heap: [live_triggers] are created and not yet
    disposed, [fired] those with a wakeup pending.  Firing a disposed trigger, or
    touching the channel after it was freed, is undefined behaviour.  The
    conversion of values to and from persistent memory
    ([async_thread_transfer_zval] and its inverses, in [src/thread.c]) is not
    modelled beyond its success or failure; the persistent copies are counted. *)

From S2P Require Import Prelude CircularBuffer.
From stdpp Require Import strings.

Local Open Scope Z_scope.
Local Open Scope c_scope.

(** A key of a trigger table: the address of a trigger, or of a wrapper object. *)
Inductive trigger_key := KTrigger (t : nat) | KObject (o : nat).

#[export] Instance trigger_key_eq_dec : EqDecision trigger_key.
Proof. solve_decision. Defined.

(** The history: copies made, values pushed and popped, copies released. *)
Inductive tevent (V : Type) := Transferred (v : V) | Pushed (v : V) | Popped (v : V) | Released (v : V).
Arguments Transferred {V}. Arguments Pushed {V}. Arguments Popped {V}. Arguments Released {V}.

Record async_thread_channel_t (Q V : Type) := mk_thread_channel {
  tc_closed : bool;
  tc_buffer : Q;
  tc_capacity : Z;
  receiver_triggers : list (trigger_key * nat);
  sender_triggers : list (trigger_key * nat);
  tc_ref_count : Z;
  tc_owned : bool;          (* in the creating thread's registry *)
  tc_freed : bool;
  live_triggers : gset nat;
  fired : gset nat;
  next_trigger : nat;
  tc_log : list (tevent V)
}.
Arguments mk_thread_channel {Q V}.
Arguments tc_closed {Q V} _. Arguments tc_buffer {Q V} _. Arguments tc_capacity {Q V} _.
Arguments receiver_triggers {Q V} _. Arguments sender_triggers {Q V} _.
Arguments tc_ref_count {Q V} _. Arguments tc_owned {Q V} _. Arguments tc_freed {Q V} _.
Arguments live_triggers {Q V} _. Arguments fired {Q V} _. Arguments next_trigger {Q V} _.
Arguments tc_log {Q V} _.

#[export] Instance async_thread_channel_eta Q V : Eta (async_thread_channel_t Q V) := λ c,
  mk_thread_channel (tc_closed c) (tc_buffer c) (tc_capacity c) (receiver_triggers c)
    (sender_triggers c) (tc_ref_count c) (tc_owned c) (tc_freed c) (live_triggers c) (fired c)
    (next_trigger c) (tc_log c).

Section operations.
Context {V Q : Type} `{!FifoBuffer Q V}.
Implicit Types (c : async_thread_channel_t Q V).

Definition set_tc_closed (x : bool) c : async_thread_channel_t Q V :=
  ltac:(record_set c (@tc_closed Q V) x).
Definition set_tc_buffer (x : Q) c : async_thread_channel_t Q V :=
  ltac:(record_set c (@tc_buffer Q V) x).
Definition set_receiver_triggers (x : list (trigger_key * nat)) c : async_thread_channel_t Q V :=
  ltac:(record_set c (@receiver_triggers Q V) x).
Definition set_sender_triggers (x : list (trigger_key * nat)) c : async_thread_channel_t Q V :=
  ltac:(record_set c (@sender_triggers Q V) x).
Definition set_tc_ref_count (x : Z) c : async_thread_channel_t Q V :=
  ltac:(record_set c (@tc_ref_count Q V) x).
Definition set_tc_owned (x : bool) c : async_thread_channel_t Q V :=
  ltac:(record_set c (@tc_owned Q V) x).
Definition set_tc_freed (x : bool) c : async_thread_channel_t Q V :=
  ltac:(record_set c (@tc_freed Q V) x).
Definition set_live_triggers (x : gset nat) c : async_thread_channel_t Q V :=
  ltac:(record_set c (@live_triggers Q V) x).
Definition set_fired (x : gset nat) c : async_thread_channel_t Q V :=
  ltac:(record_set c (@fired Q V) x).
Definition set_next_trigger (x : nat) c : async_thread_channel_t Q V :=
  ltac:(record_set c (@next_trigger Q V) x).
Definition set_tc_log (x : list (tevent V)) c : async_thread_channel_t Q V :=
  ltac:(record_set c (@tc_log Q V) x).

Local Abbreviation TM := (M (async_thread_channel_t Q V)).

Definition tlog (e : tevent V) : TM unit := modify (λ c, set_tc_log (tc_log c ++ [e]) c).

(** [ASYNC_MUTEX_LOCK]: the channel must not have been freed. *)
Definition lock : TM unit := c ← get; ZEND_ASSERT (negb (tc_freed c)).

(** ** Trigger tables *)

(** [zend_hash_index_update_ptr] and [zend_hash_index_del]. *)
Definition hash_index_update (k : trigger_key) (t : nat) (h : list (trigger_key * nat)) :=
  if decide (k ∈ h.*1) then (λ kv, if decide (kv.1 = k) then (k, t) else kv) <$> h
  else h ++ [(k, t)].
Definition hash_index_del (k : trigger_key) (h : list (trigger_key * nat)) :=
  filter (λ kv, kv.1 ≠ k) h.

Definition unregister_trigger (obj : nat) (h : list (trigger_key * nat)) :=
  hash_index_del (KObject obj) h.

(** [trigger->trigger(trigger)] for every entry. *)
Definition fire_all_triggers (h : list (trigger_key * nat)) : TM unit :=
  c ← get;
  ZEND_ASSERT (bool_decide (Forall (.∈ live_triggers c) h.*2));;
  modify (λ c, set_fired (fired c ∪ list_to_set h.*2) c).

(** [ZEND_ASYNC_NEW_TRIGGER_EVENT] and [trigger->base.dispose]. *)
Definition new_trigger : TM nat :=
  c ← get;
  modify (λ c, set_live_triggers (live_triggers c ∪ {[next_trigger c]}) c);;
  modify (λ c, set_next_trigger (S (next_trigger c)) c);;
  mret (next_trigger c).
Definition dispose_trigger (t : nat) : TM unit :=
  c ← get;
  ZEND_ASSERT (bool_decide (t ∈ live_triggers c));;
  modify (λ c, set_live_triggers (live_triggers c ∖ {[t]}) c);;
  modify (λ c, set_fired (fired c ∖ {[t]}) c).
Definition dispose_if_any (t : option nat) : TM unit :=
  match t with Some t => dispose_trigger t | None => mret tt end.

(** ** Send and receive *)

(** A call between two of its sections: about to run the section at [retry], or
    registered and (about to be) suspended on its trigger, or re-reading the
    buffer after a cancellation. *)
Inductive call :=
| SendTry (v : V) (trigger : option nat)
| SendWait (v : V) (trigger : nat)
| RecvTry (wait_only : bool) (trigger : option nat)
| RecvWait (wait_only : bool) (trigger : nat)
| RecvRecheck (trigger : nat).

(** How a call ends: its boolean with the received value, the closed-channel
    exception, an exception already pending, or a bailout. *)
Inductive tresult :=
| TReturn (ok : bool) (value : option V)
| TThrowClosed
| TThrowPending
| TBailout.

(** A section either ends the call or leaves it at its next point. *)
Definition progress : Type := tresult + call.
Definition finish (r : tresult) : TM progress := mret (inl r).
Definition continue (k : call) : TM progress := mret (inr k).

(** [async_thread_release_transferred_zval]. *)
Definition release_copy (v : V) : TM unit := tlog (Released v).

(** The entry of [thread_channel_send_ex]: the copy to persistent memory. *)
Definition send_enter (v : V) (transferable : bool) : TM progress :=
  if negb transferable then finish TThrowPending
  else tlog (Transferred v);; continue (SendTry v None).

Definition send_section (v : V) (trigger : option nat) : TM progress :=
  lock;;
  c ← get;
  if tc_closed c then
    release_copy v;; dispose_if_any trigger;; finish TThrowClosed
  else if q_count (tc_buffer c) <? tc_capacity c then
    r ← zoom tc_buffer set_tc_buffer (q_push v false);
    match r with SUCCESS => tlog (Pushed v) | FAILURE => mret tt end;;
    fire_all_triggers (receiver_triggers c);;
    dispose_if_any trigger;;
    finish (TReturn true None)
  else
    t ← match trigger with Some t => mret t | None => new_trigger end;
    modify (λ c, set_sender_triggers (hash_index_update (KTrigger t) t (sender_triggers c)) c);;
    continue (SendWait v t).

(** The cancellation event had fired before the suspension. *)
Definition send_abort (v : V) (t : nat) : TM progress :=
  lock;;
  modify (λ c, set_sender_triggers (hash_index_del (KTrigger t) (sender_triggers c)) c);;
  release_copy v;; dispose_trigger t;; finish (TReturn false None).

(** After [ZEND_ASYNC_SUSPEND]; the wakeup of the trigger is consumed. *)
Definition send_wake (v : V) (t : nat) (bailed exn cancelled : bool) : TM progress :=
  lock;;
  modify (λ c, set_fired (fired c ∖ {[t]}) c);;
  modify (λ c, set_sender_triggers (hash_index_del (KTrigger t) (sender_triggers c)) c);;
  c ← get;
  let closed := tc_closed c in
  let still_full := tc_capacity c <=? q_count (tc_buffer c) in
  if bailed then release_copy v;; dispose_trigger t;; finish TBailout
  else if exn then release_copy v;; dispose_trigger t;; finish TThrowPending
  else if cancelled && negb closed && still_full then
    release_copy v;; dispose_trigger t;; finish (TReturn false None)
  else continue (SendTry v (Some t)).

Definition recv_section (wait_only : bool) (trigger : option nat) : TM progress :=
  lock;;
  c ← get;
  if negb wait_only && negb (q_is_empty (tc_buffer c)) then
    r ← zoom tc_buffer set_tc_buffer q_pop;
    value ← of_option r.2;
    tlog (Popped value);;
    fire_all_triggers (sender_triggers c);;
    release_copy value;;
    dispose_if_any trigger;;
    finish (TReturn true (Some value))
  else if tc_closed c then
    dispose_if_any trigger;;
    finish (if wait_only then TReturn false None else TThrowClosed)
  else
    t ← match trigger with Some t => mret t | None => new_trigger end;
    modify (λ c, set_receiver_triggers (hash_index_update (KTrigger t) t (receiver_triggers c)) c);;
    continue (RecvWait wait_only t).

Definition recv_abort (t : nat) : TM progress :=
  lock;;
  modify (λ c, set_receiver_triggers (hash_index_del (KTrigger t) (receiver_triggers c)) c);;
  dispose_trigger t;; finish (TReturn false None).

Definition recv_wake (wait_only : bool) (t : nat) (bailed exn cancelled : bool) : TM progress :=
  lock;;
  modify (λ c, set_fired (fired c ∖ {[t]}) c);;
  modify (λ c, set_receiver_triggers (hash_index_del (KTrigger t) (receiver_triggers c)) c);;
  c ← get;
  let closed := tc_closed c in
  if bailed then dispose_trigger t;; finish TBailout
  else if exn then dispose_trigger t;; finish TThrowPending
  else if wait_only then dispose_trigger t;; finish (TReturn (negb closed) None)
  else if cancelled && negb closed then continue (RecvRecheck t)
  else continue (RecvTry false (Some t)).

Definition recv_recheck (t : nat) : TM progress :=
  lock;;
  c ← get;
  if q_is_empty (tc_buffer c) then dispose_trigger t;; finish (TReturn false None)
  else continue (RecvTry false (Some t)).

(** ** Closing, references and destruction *)
Definition async_thread_channel_close : TM unit :=
  lock;;
  c ← get;
  if tc_closed c then mret tt
  else
    modify (set_tc_closed true);;
    fire_all_triggers (receiver_triggers c);;
    fire_all_triggers (sender_triggers c).

Fixpoint drain_loop (fuel : nat) : TM unit :=
  match fuel with
  | O => undefined
  | S fuel =>
    c ← get;
    if q_is_empty (tc_buffer c) then mret tt
    else
      r ← zoom tc_buffer set_tc_buffer q_pop;
      match r with
      | (SUCCESS, Some v) => release_copy v;; drain_loop fuel
      | _ => mret tt
      end
  end.

(** The fuel is one more than the number of values held. *)
Definition thread_channel_destroy : TM unit :=
  c ← get;
  (if negb (tc_closed c) then
     lock;;
     modify (set_tc_closed true);;
     fire_all_triggers (receiver_triggers c);;
     fire_all_triggers (sender_triggers c)
   else mret tt);;
  c ← get;
  drain_loop (S (Z.to_nat (q_count (tc_buffer c))));;
  modify (set_receiver_triggers []);;
  modify (set_sender_triggers []);;
  modify (set_tc_freed true).

Definition async_thread_channel_addref : TM unit :=
  c ← get;
  ZEND_ASSERT (negb (tc_freed c));;
  modify (set_tc_ref_count (i32 (tc_ref_count c + 1))).

Definition thread_channel_event_dispose : TM unit :=
  c ← get;
  ZEND_ASSERT (negb (tc_freed c));;
  let old := tc_ref_count c in
  modify (set_tc_ref_count (i32 (old - 1)));;
  if old =? 1 then thread_channel_destroy else mret tt.

(** The owning thread shuts down: the entry of this channel in its registry. *)
Definition async_thread_channel_close_owned : TM unit :=
  c ← get;
  if negb (tc_owned c) then mret tt
  else
    async_thread_channel_close;;
    thread_channel_event_dispose;;
    modify (set_tc_owned false).

(** The destructor of a wrapper object. *)
Definition async_thread_channel_dtor_object (obj : nat) : TM unit :=
  lock;;
  modify (λ c, set_receiver_triggers (unregister_trigger obj (receiver_triggers c)) c);;
  modify (λ c, set_sender_triggers (unregister_trigger obj (sender_triggers c)) c).

(** ** Construction *)

(** [async_thread_channel_create]: [capacity + 1] is [int32_t] arithmetic, and the
    sum is converted to [size_t].  The result of [circular_buffer_ctor] is
    ignored.  The registry adds its own reference. *)
Definition async_thread_channel_create `{!FifoCtor Q V} (buf0 : Q) (capacity : Z)
    : option (async_thread_channel_t Q V) :=
  '(_, buf) ← q_ctor (u64 (i32 (capacity + 1))) buf0;
  '(_, c) ← async_thread_channel_addref
    (mk_thread_channel false buf capacity [] [] 1 false false ∅ ∅ 0%nat []);
  Some (set_tc_owned true c).

(** [__construct]; [None] in the inner option is the argument error. *)
Definition thread_channel_construct `{!FifoCtor Q V} (buf0 : Q) (capacity : Z)
    : option (option (async_thread_channel_t Q V)) :=
  if (capacity <? 1) || (INT32_MAX <? capacity) then Some None
  else Some <$> async_thread_channel_create buf0 (i32 capacity).

(** ** The channel and the calls in progress *)
Record tsys := mk_tsys { ts_chan : async_thread_channel_t Q V; ts_calls : gmap nat call }.

Inductive top :=
| TSend (id : nat) (v : V) (transferable : bool)
| TRecv (id : nat) (wait_only : bool)
| TStep (id : nat)                                  (* the section at retry or recheck *)
| TAbort (id : nat)                                 (* cancelled before suspending *)
| TWake (id : nat) (bailed exn cancelled : bool)
| TClose
| TAddref
| TDispose
| TCloseOwned
| TDtorObject (obj : nat).

Definition run_call (id : nat) (m : TM progress) (s : tsys) : option tsys :=
  '(p, c) ← m (ts_chan s);
  Some (mk_tsys c (match p with inl _ => delete id (ts_calls s) | inr k => <[id := k]> (ts_calls s) end)).

Definition run_op (m : TM unit) (s : tsys) : option tsys :=
  '(_, c) ← m (ts_chan s); Some (mk_tsys c (ts_calls s)).

Definition texec (o : top) (s : tsys) : option tsys :=
  match o with
  | TSend id v ok => run_call id (send_enter v ok) s
  | TRecv id wait_only => run_call id (continue (RecvTry wait_only None)) s
  | TStep id =>
    match ts_calls s !! id with
    | Some (SendTry v t) => run_call id (send_section v t) s
    | Some (RecvTry w t) => run_call id (recv_section w t) s
    | Some (RecvRecheck t) => run_call id (recv_recheck t) s
    | _ => None
    end
  | TAbort id =>
    match ts_calls s !! id with
    | Some (SendWait v t) => run_call id (send_abort v t) s
    | Some (RecvWait w t) => run_call id (recv_abort t) s
    | _ => None
    end
  | TWake id bailed exn cancelled =>
    match ts_calls s !! id with
    | Some (SendWait v t) => run_call id (send_wake v t bailed exn cancelled) s
    | Some (RecvWait w t) => run_call id (recv_wake w t bailed exn cancelled) s
    | _ => None
    end
  | TClose => run_op async_thread_channel_close s
  | TAddref => run_op async_thread_channel_addref s
  | TDispose => run_op thread_channel_event_dispose s
  | TCloseOwned => run_op async_thread_channel_close_owned s
  | TDtorObject obj => run_op (async_thread_channel_dtor_object obj) s
  end.

(** Who holds a reference: the registry while [tc_owned], and the wrappers.  A
    caller goes through a wrapper, so a reference stays while a call is in
    progress, and the registry's own reference is released by the shutdown of
    its thread only. *)
Definition wrapper_refs c : Z := tc_ref_count c - (if tc_owned c then 1 else 0).

Definition tenabled (o : top) (s : tsys) : bool :=
  let c := ts_chan s in
  let idle := bool_decide (ts_calls s = ∅) in
  match o with
  | TSend id _ _ | TRecv id _ =>
    bool_decide (ts_calls s !! id = None) && (0 <? wrapper_refs c)
  | TStep id =>
    match ts_calls s !! id with Some (SendTry _ _) | Some (RecvTry _ _) | Some (RecvRecheck _) => true | _ => false end
  | TAbort id | TWake id _ _ _ =>
    match ts_calls s !! id with Some (SendWait _ _) | Some (RecvWait _ _) => true | _ => false end
  | TClose | TDtorObject _ => 0 <? wrapper_refs c
  | TAddref => (0 <? wrapper_refs c) && (tc_ref_count c <? INT32_MAX)
  | TDispose => (1 <? wrapper_refs c) || ((0 <? wrapper_refs c) && idle)
  | TCloseOwned => true
  end.

Inductive treachable (s0 : tsys) : tsys → Prop :=
| treach_init : treachable s0 s0
| treach_step s o s' :
  treachable s0 s → tenabled o s = true → texec o s = Some s' → treachable s0 s'.
End operations.
