(* ===== verification/ThreadChannelProofs.v ===== *)
(** * Correctness of the thread channel

    The invariant of a thread channel and the calls in progress on it, its
    preservation by every section of every call, and the theorems. *)

From S2P Require Import Prelude CircularBuffer ThreadChannel.

Local Open Scope Z_scope.

Section invariant.
Context {V Q : Type} `{!FifoBuffer Q V}.
Implicit Types (c : async_thread_channel_t Q V) (l : list V) (calls : gmap nat (call (V := V))).
Implicit Types (k : call (V := V)) (t id : nat) (h : list (trigger_key * nat)).

(** ** Views *)
Definition trig_of k : option nat :=
  match k with
  | SendTry _ t | RecvTry _ t => t
  | SendWait _ t | RecvWait _ t | RecvRecheck t => Some t
  end.
Definition copy_of k : option V :=
  match k with SendTry v _ | SendWait v _ => Some v | _ => None end.
Definition waiting_recv k : option nat := match k with RecvWait _ t => Some t | _ => None end.
Definition waiting_send k : option nat := match k with SendWait _ t => Some t | _ => None end.

(** The persistent copies that calls in progress own. *)
Definition held calls : list V := omap copy_of (map_to_list calls).*2.

Definition transferred (o : list (tevent V)) : list V :=
  omap (λ e, match e with Transferred v => Some v | _ => None end) o.
Definition pushed (o : list (tevent V)) : list V :=
  omap (λ e, match e with Pushed v => Some v | _ => None end) o.
Definition popped (o : list (tevent V)) : list V :=
  omap (λ e, match e with Popped v => Some v | _ => None end) o.
Definition released (o : list (tevent V)) : list V :=
  omap (λ e, match e with Released v => Some v | _ => None end) o.

Lemma held_insert calls id k : calls !! id = None →
  held (<[id := k]> calls) ≡ₚ option_list (copy_of k) ++ held calls.
Proof.
  intros Hn. unfold held. rewrite map_to_list_insert by done. cbn. by destruct (copy_of k).
Qed.
Lemma held_delete calls id k : calls !! id = Some k →
  held calls ≡ₚ option_list (copy_of k) ++ held (delete id calls).
Proof.
  intros Hk. rewrite <- (insert_delete_id calls id k) at 1 by done.
  apply held_insert. by rewrite lookup_delete_eq.
Qed.
Lemma held_update calls id k k' : calls !! id = Some k → copy_of k' = copy_of k →
  held (<[id := k']> calls) ≡ₚ held calls.
Proof.
  intros Hk Heq. rewrite (held_delete _ _ _ Hk), <- Heq, <- insert_delete_eq.
  apply held_insert. by rewrite lookup_delete_eq.
Qed.

Lemma hash_del_elem key key' t h :
  (key', t) ∈ hash_index_del key h ↔ key' ≠ key ∧ (key', t) ∈ h.
Proof. unfold hash_index_del. by rewrite list_elem_of_filter. Qed.

Lemma hash_update_elem t h key' t' :
  (∀ key t, (key, t) ∈ h → key = KTrigger t) →
  (key', t') ∈ hash_index_update (KTrigger t) t h ↔ key' = KTrigger t ∧ t' = t ∨ (key', t') ∈ h.
Proof.
  intros Hk. unfold hash_index_update. case_decide as Hin.
  - assert ((λ kv : trigger_key * nat, if decide (kv.1 = KTrigger t) then (KTrigger t, t) else kv) <$> h
      = h) as ->.
    { rewrite <- (list_fmap_id h) at 2. apply list_fmap_ext. intros i [key x] Hi. cbn.
      apply list_elem_of_lookup_2, Hk in Hi as ->. by case_decide; unfold id; simplify_eq/=. }
    apply list_elem_of_fmap in Hin as ([key x] & Heq & Hx). cbn in Heq. subst key.
    pose proof (Hk _ _ Hx) as [= ->]. split; [by right|]. by intros [[-> ->]|].
  - rewrite elem_of_app, list_elem_of_singleton. naive_solver.
Qed.

(** ** The trigger discipline

    A trigger belongs to one call; the registered ones are those of the waiting
    calls, and all of them are live. *)
Record Trig (live : gset nat) (next : nat) (R S : list (trigger_key * nat)) calls : Prop := {
  tr_live : ∀ id k t, calls !! id = Some k → trig_of k = Some t → t ∈ live;
  tr_inj : ∀ id id' k k' t, calls !! id = Some k → calls !! id' = Some k' →
    trig_of k = Some t → trig_of k' = Some t → id = id';
  tr_fresh : ∀ t, t ∈ live → (t < next)%nat;
  tr_R : ∀ key t, (key, t) ∈ R ↔ key = KTrigger t ∧
    ∃ id k, calls !! id = Some k ∧ waiting_recv k = Some t;
  tr_S : ∀ key t, (key, t) ∈ S ↔ key = KTrigger t ∧
    ∃ id k, calls !! id = Some k ∧ waiting_send k = Some t
}.

Lemma waiting_trig k t : waiting_recv k = Some t ∨ waiting_send k = Some t → trig_of k = Some t.
Proof. destruct k; cbn; naive_solver. Qed.

(** Every registered trigger is live. *)
Lemma Trig_registered live next R S calls h :
  Trig live next R S calls → h = R ∨ h = S → Forall (.∈ live) h.*2.
Proof.
  intros [] Hh. apply Forall_forall. intros t ([key x] & -> & Hx)%list_elem_of_fmap. cbn.
  destruct Hh as [->| ->]; [apply tr_R0 in Hx|apply tr_S0 in Hx];
    destruct Hx as (_ & id & k & Hk & Hw); eapply tr_live0; eauto; apply waiting_trig; auto.
Qed.

(** A call leaves its wait, keeping its trigger. *)
Lemma Trig_unwait live next R S calls id k k' t :
  Trig live next R S calls → calls !! id = Some k → trig_of k = Some t → trig_of k' = Some t →
  waiting_recv k' = None → waiting_send k' = None →
  Trig live next (hash_index_del (KTrigger t) R) (hash_index_del (KTrigger t) S) (<[id := k']> calls).
Proof.
  intros [] Hk Ht Ht' Hr Hs. split.
  - intros id1 k1 t1. destruct (decide (id1 = id)) as [->|]; simplify_map_eq; [|by eauto].
    intros ??. simplify_eq. by eauto.
  - intros id1 id2 k1 k2 t1. destruct (decide (id1 = id)) as [->|], (decide (id2 = id)) as [->|];
      simplify_map_eq; try done; intros; simplify_eq; by eauto.
  - done.
  - intros key t1. rewrite hash_del_elem, tr_R0. split.
    + intros (Hne & -> & id1 & k1 & Hk1 & Hw1). split; [done|]. exists id1, k1. split; [|done].
      assert (trig_of k1 = Some t1) by (apply waiting_trig; auto).
      destruct (decide (id1 = id)) as [->|]; simplify_map_eq; done || congruence.
    + intros (-> & id1 & k1 & Hk1 & Hw1). destruct (decide (id1 = id)) as [->|]; simplify_map_eq.
      assert (trig_of k1 = Some t1) by (apply waiting_trig; auto).
      split; [|by eauto]. intros [= ->]. eauto.
  - intros key t1. rewrite hash_del_elem, tr_S0. split.
    + intros (Hne & -> & id1 & k1 & Hk1 & Hw1). split; [done|]. exists id1, k1. split; [|done].
      assert (trig_of k1 = Some t1) by (apply waiting_trig; auto).
      destruct (decide (id1 = id)) as [->|]; simplify_map_eq; done || congruence.
    + intros (-> & id1 & k1 & Hk1 & Hw1). destruct (decide (id1 = id)) as [->|]; simplify_map_eq.
      assert (trig_of k1 = Some t1) by (apply waiting_trig; auto).
      split; [|by eauto]. intros [= ->]. eauto.
Qed.

(** Deleting a trigger that the other table does not hold changes nothing. *)
Lemma Trig_del_other live next R S calls id k t :
  Trig live next R S calls → calls !! id = Some k → trig_of k = Some t →
  (waiting_send k = None → hash_index_del (KTrigger t) S = S) ∧
  (waiting_recv k = None → hash_index_del (KTrigger t) R = R).
Proof.
  intros [] Hk Ht. split; intros Hw; apply filter_all; intros [key x] Hx; cbn; intros ->.
  - pose proof Hx as (Heq & id1 & k1 & Hk1 & Hw1)%tr_S0. simplify_eq.
    assert (trig_of k1 = Some x) by (apply waiting_trig; auto).
    assert (id1 = id) as -> by eauto. congruence.
  - pose proof Hx as (Heq & id1 & k1 & Hk1 & Hw1)%tr_R0. simplify_eq.
    assert (trig_of k1 = Some x) by (apply waiting_trig; auto).
    assert (id1 = id) as -> by eauto. congruence.
Qed.

(** A call that is not waiting ends and disposes its trigger. *)
Lemma Trig_end live next R S calls id k :
  Trig live next R S calls → calls !! id = Some k → waiting_recv k = None → waiting_send k = None →
  Trig (match trig_of k with Some t => live ∖ {[t]} | None => live end) next R S (delete id calls).
Proof.
  intros [] Hk Hr Hs. split.
  - intros id1 k1 t1 Hk1 Ht1. apply lookup_delete_Some in Hk1 as [Hne Hk1].
    destruct (trig_of k) as [t|] eqn:Ht; [|by eauto]. apply elem_of_difference. split; [by eauto|].
    rewrite elem_of_singleton. intros ->. destruct Hne. eauto.
  - intros id1 id2 k1 k2 t1 [_ H1]%lookup_delete_Some [_ H2]%lookup_delete_Some. eauto.
  - intros t1 Ht1. apply tr_fresh0. destruct (trig_of k); set_solver.
  - intros key t1. rewrite tr_R0. split; intros (-> & id1 & k1 & Hk1 & Hw1); (split; [done|]); exists id1, k1.
    + split; [|done]. apply lookup_delete_Some. split; [|done]. intros ->. congruence.
    + apply lookup_delete_Some in Hk1 as [_ ?]. done.
  - intros key t1. rewrite tr_S0. split; intros (-> & id1 & k1 & Hk1 & Hw1); (split; [done|]); exists id1, k1.
    + split; [|done]. apply lookup_delete_Some. split; [|done]. intros ->. congruence.
    + apply lookup_delete_Some in Hk1 as [_ ?]. done.
Qed.

(** A call not waiting moves to a point of the same trigger without waiting. *)
Lemma Trig_move live next R S calls id k' :
  Trig live next R S calls → waiting_recv k' = None → waiting_send k' = None →
  match calls !! id with
  | Some k => waiting_recv k = None ∧ waiting_send k = None ∧ trig_of k' = trig_of k
  | None => trig_of k' = None
  end → Trig live next R S (<[id := k']> calls).
Proof.
  intros [] Hr Hs Hk.
  assert (∀ id1 k1 t1, <[id := k']> calls !! id1 = Some k1 → trig_of k1 = Some t1 →
    ∃ k2, calls !! id1 = Some k2 ∧ trig_of k2 = Some t1) as Hold.
  { intros id1 k1 t1. destruct (decide (id1 = id)) as [->|]; simplify_map_eq; [|by eauto].
    intros ? Ht. simplify_eq. destruct (calls !! id) as [k|]; [|congruence].
    destruct Hk as (_ & _ & ?). exists k. split; [done|congruence]. }
  assert (∀ f t1, (f = waiting_recv ∨ f = waiting_send) →
    (∃ id1 k1, <[id := k']> calls !! id1 = Some k1 ∧ f k1 = Some t1) ↔
    (∃ id1 k1, calls !! id1 = Some k1 ∧ f k1 = Some t1)) as Hsame.
  { intros f t1 Hf. split; intros (id1 & k1 & Hk1 & Hw1); exists id1, k1; (split; [|done]).
    - destruct (decide (id1 = id)) as [->|]; simplify_map_eq; [|done]. destruct Hf; congruence.
    - destruct (decide (id1 = id)) as [->|]; simplify_map_eq; [|done].
      destruct Hk as (? & ? & _). destruct Hf; congruence. }
  split; [| |done| |].
  - intros id1 k1 t1 Hk1 Ht1. destruct (Hold _ _ _ Hk1 Ht1) as (? & ? & ?). eauto.
  - intros id1 id2 k1 k2 t1 Hk1 Hk2 Ht1 Ht2. destruct (Hold _ _ _ Hk1 Ht1) as (? & ? & ?).
    destruct (Hold _ _ _ Hk2 Ht2) as (? & ? & ?). eauto.
  - intros key t1. rewrite tr_R0, Hsame by auto. done.
  - intros key t1. rewrite tr_S0, Hsame by auto. done.
Qed.

(** A call without a trigger creates one. *)
Lemma Trig_new live next R S calls id k k' :
  Trig live next R S calls → calls !! id = Some k → trig_of k = None → trig_of k' = Some next →
  waiting_recv k' = None → waiting_send k' = None →
  Trig (live ∪ {[next]}) (Datatypes.S next) R S (<[id := k']> calls).
Proof.
  intros [] Hk Ht Ht' Hr Hs.
  assert (∀ id1 k1 t1, calls !! id1 = Some k1 → trig_of k1 = Some t1 → t1 ≠ next) as Hne.
  { intros id1 k1 t1 Hk1 Ht1 ->. assert (next < next)%nat by eauto. lia. }
  assert (∀ f t1, (f = waiting_recv ∨ f = waiting_send) →
    (∃ id1 k1, <[id := k']> calls !! id1 = Some k1 ∧ f k1 = Some t1) ↔
    (∃ id1 k1, calls !! id1 = Some k1 ∧ f k1 = Some t1)) as Hsame.
  { intros f t1 Hf. split; intros (id1 & k1 & Hk1 & Hw1); exists id1, k1; (split; [|done]).
    - destruct (decide (id1 = id)) as [->|]; simplify_map_eq; [|done]. destruct Hf; congruence.
    - destruct (decide (id1 = id)) as [->|]; simplify_map_eq; [|done].
      assert (trig_of k = Some t1) by (apply waiting_trig; destruct Hf; subst; auto). congruence. }
  split.
  - intros id1 k1 t1. destruct (decide (id1 = id)) as [->|]; simplify_map_eq.
    + intros. simplify_eq. set_solver.
    + intros. apply elem_of_union_l. eauto.
  - intros id1 id2 k1 k2 t1. destruct (decide (id1 = id)) as [->|], (decide (id2 = id)) as [->|];
      simplify_map_eq; try done; intros; simplify_eq.
    + exfalso. by eapply Hne.
    + exfalso. by eapply Hne.
    + eauto.
  - intros t1 [?%tr_fresh0|Ht1%elem_of_singleton]%elem_of_union; [lia|]. subst. lia.
  - intros key t1. rewrite tr_R0, Hsame by auto. done.
  - intros key t1. rewrite tr_S0, Hsame by auto. done.
Qed.

(** A call registers its trigger with the receivers, or with the senders. *)
Lemma Trig_wait live next R S calls id k k' t :
  Trig live next R S calls → calls !! id = Some k → trig_of k = Some t →
  waiting_recv k = None → waiting_send k = None → trig_of k' = Some t →
  (waiting_recv k' = Some t ∧ waiting_send k' = None →
     Trig live next (hash_index_update (KTrigger t) t R) S (<[id := k']> calls)) ∧
  (waiting_send k' = Some t ∧ waiting_recv k' = None →
     Trig live next R (hash_index_update (KTrigger t) t S) (<[id := k']> calls)).
Proof.
  intros [] Hk Ht Hr Hs Ht'.
  assert (∀ key t, (key, t) ∈ R → key = KTrigger t) as HR by (intros ?? [? _]%tr_R0; done).
  assert (∀ key t, (key, t) ∈ S → key = KTrigger t) as HS by (intros ?? [? _]%tr_S0; done).
  assert (∀ (f : call → option nat) t1, f k = None →
    (∃ id1 k1, <[id := k']> calls !! id1 = Some k1 ∧ f k1 = Some t1) ↔
    f k' = Some t1 ∨ (∃ id1 k1, calls !! id1 = Some k1 ∧ f k1 = Some t1)) as Hset.
  { intros f t1 Hf. split.
    - intros (id1 & k1 & Hk1 & Hw1). destruct (decide (id1 = id)) as [->|]; simplify_map_eq; eauto.
    - intros [?|(id1 & k1 & Hk1 & Hw1)]; [exists id, k'; by simplify_map_eq|].
      exists id1, k1. split; [|done]. rewrite lookup_insert_ne; [done|]. intros ->. congruence. }
  assert (∀ id1 k1 t1, <[id := k']> calls !! id1 = Some k1 → trig_of k1 = Some t1 →
    ∃ k2, calls !! id1 = Some k2 ∧ trig_of k2 = Some t1) as Hold.
  { intros id1 k1 t1. destruct (decide (id1 = id)) as [->|]; simplify_map_eq; [|by eauto].
    intros ? ?. simplify_eq. eauto. }
  split; intros [Hw Hnw]; (split; [| |done| |]).
  1,5: intros id1 k1 t1 Hk1 Ht1; destruct (Hold _ _ _ Hk1 Ht1) as (? & ? & ?); by eauto.
  1,4: intros id1 id2 k1 k2 t1 Hk1 Hk2 Ht1 Ht2; destruct (Hold _ _ _ Hk1 Ht1) as (? & ? & ?);
    destruct (Hold _ _ _ Hk2 Ht2) as (? & ? & ?); by eauto.
  - intros key t1. rewrite hash_update_elem, tr_R0, Hset by done. rewrite Hw. naive_solver.
  - intros key t1. rewrite tr_S0, Hset by done. rewrite Hnw. naive_solver.
  - intros key t1. rewrite tr_R0, Hset by done. rewrite Hnw. naive_solver.
  - intros key t1. rewrite hash_update_elem, tr_S0, Hset by done. rewrite Hw. naive_solver.
Qed.

(** ** The wakeups

    A call that waits for something the channel now has, was woken. *)
Record Woken (fd : gset nat) (closed : bool) (n capacity : Z) calls : Prop := {
  wk_recv : ∀ id t, calls !! id = Some (RecvWait false t) → 0 < n ∨ closed = true → t ∈ fd;
  wk_only : ∀ id t, calls !! id = Some (RecvWait true t) → closed = true → t ∈ fd;
  wk_send : ∀ id v t, calls !! id = Some (SendWait v t) → n < capacity ∨ closed = true → t ∈ fd
}.

(** The other calls keep their wakeups when one call moves off its wait and its
    trigger's wakeup is consumed. *)
Lemma Woken_update fd closed n capacity calls id k t k' R S live next :
  Woken fd closed n capacity calls → Trig live next R S calls → calls !! id = Some k →
  trig_of k = Some t → waiting_recv k' = None → waiting_send k' = None →
  Woken (fd ∖ {[t]}) closed n capacity (<[id := k']> calls).
Proof.
  intros [] [] Hk Ht Hr Hs.
  assert (∀ id1 k1 t1, id1 ≠ id → calls !! id1 = Some k1 → trig_of k1 = Some t1 → t1 ≠ t) as Hne.
  { intros id1 k1 t1 Hi Hk1 Ht1 ->. apply Hi. eauto. }
  split.
  - intros id1 t1 H1 Hc. destruct (decide (id1 = id)) as [->|Hi]; simplify_map_eq.
    apply elem_of_difference. split; [by eauto|]. rewrite elem_of_singleton. by eapply Hne.
  - intros id1 t1 H1 Hc. destruct (decide (id1 = id)) as [->|Hi]; simplify_map_eq.
    apply elem_of_difference. split; [by eauto|]. rewrite elem_of_singleton. by eapply Hne.
  - intros id1 v1 t1 H1 Hc. destruct (decide (id1 = id)) as [->|Hi]; simplify_map_eq.
    apply elem_of_difference. split; [by eauto|]. rewrite elem_of_singleton. by eapply Hne.
Qed.

Lemma Woken_delete fd closed n capacity calls id k R S live next :
  Woken fd closed n capacity calls → Trig live next R S calls → calls !! id = Some k →
  Woken (match trig_of k with Some t => fd ∖ {[t]} | None => fd end) closed n capacity (delete id calls).
Proof.
  intros [] [] Hk.
  assert (∀ id1 k1 t1, delete id calls !! id1 = Some k1 → trig_of k1 = Some t1 → t1 ∈ fd →
    t1 ∈ match trig_of k with Some t => fd ∖ {[t]} | None => fd end) as Hkeep.
  { intros id1 k1 t1 [Hi Hk1]%lookup_delete_Some Ht1 Hin. destruct (trig_of k) as [t|] eqn:Ht; [|done].
    apply elem_of_difference. split; [done|]. rewrite elem_of_singleton. intros ->. destruct Hi. eauto. }
  split; intros; (eapply Hkeep; [done|done|]).
  - eapply wk_recv0; [|done]. by eapply lookup_delete_Some.
  - eapply wk_only0; [|done]. by eapply lookup_delete_Some.
  - eapply wk_send0; [|done]. by eapply lookup_delete_Some.
Qed.

(** Moving between points that are not waits, or to a wait that has nothing to
    be woken for. *)
Lemma Woken_move fd closed n capacity calls id k' :
  Woken fd closed n capacity calls →
  (∀ t, k' = RecvWait false t → n ≤ 0 ∧ closed = false) →
  (∀ t, k' = RecvWait true t → closed = false) →
  (∀ v t, k' = SendWait v t → capacity ≤ n ∧ closed = false) →
  Woken fd closed n capacity (<[id := k']> calls).
Proof.
  intros [] H1 H2 H3. split.
  - intros id1 t1 Hk Hc. destruct (decide (id1 = id)) as [->|]; simplify_map_eq; [|by eauto].
    destruct (H1 t1 eq_refl). destruct Hc; [lia|congruence].
  - intros id1 t1 Hk Hc. destruct (decide (id1 = id)) as [->|]; simplify_map_eq; [|by eauto].
    specialize (H2 t1 eq_refl). congruence.
  - intros id1 v1 t1 Hk Hc. destruct (decide (id1 = id)) as [->|]; simplify_map_eq; [|by eauto].
    destruct (H3 v1 t1 eq_refl). destruct Hc; [lia|congruence].
Qed.

(** The trigger of a waiting call is in the table of its side. *)
Lemma registered_recv live next R S calls id w t :
  Trig live next R S calls → calls !! id = Some (RecvWait w t) → t ∈ (list_to_set R.*2 : gset nat).
Proof.
  intros [] Hk. apply elem_of_list_to_set, list_elem_of_fmap. exists (KTrigger t, t).
  split; [done|]. apply tr_R0. split; [done|]. by exists id, (RecvWait w t).
Qed.
Lemma registered_send live next R S calls id v t :
  Trig live next R S calls → calls !! id = Some (SendWait v t) → t ∈ (list_to_set S.*2 : gset nat).
Proof.
  intros [] Hk. apply elem_of_list_to_set, list_elem_of_fmap. exists (KTrigger t, t).
  split; [done|]. apply tr_S0. split; [done|]. by exists id, (SendWait v t).
Qed.

(** Firing both tables wakes every waiting call; firing one wakes its side. *)
Lemma Woken_fire_receivers fd closed n n' capacity calls R S live next :
  Woken fd closed n capacity calls → Trig live next R S calls → n ≤ n' →
  Woken (fd ∪ list_to_set R.*2) closed n' capacity calls.
Proof.
  intros [] HT Hn. split.
  - intros id t Hk _. apply elem_of_union_r. by eapply registered_recv.
  - intros id t Hk _. apply elem_of_union_r. by eapply registered_recv.
  - intros id v t Hk Hc. apply elem_of_union_l. eapply wk_send0; [done|]. destruct Hc; [left; lia|by right].
Qed.

Lemma Woken_fire_senders fd closed n n' capacity calls R S live next :
  Woken fd closed n capacity calls → Trig live next R S calls → n' ≤ n →
  Woken (fd ∪ list_to_set S.*2) closed n' capacity calls.
Proof.
  intros [] HT Hn. split.
  - intros id t Hk Hc. apply elem_of_union_l. eapply wk_recv0; [done|]. destruct Hc; [left; lia|by right].
  - intros id t Hk Hc. apply elem_of_union_l. by eapply wk_only0.
  - intros id v t Hk _. apply elem_of_union_r. by eapply registered_send.
Qed.

Lemma Woken_close fd n capacity calls R S live next :
  Trig live next R S calls →
  Woken (fd ∪ list_to_set R.*2 ∪ list_to_set S.*2) true n capacity calls.
Proof.
  intros HT. split.
  - intros id t Hk _. apply elem_of_union_l, elem_of_union_r. by eapply registered_recv.
  - intros id t Hk _. apply elem_of_union_l, elem_of_union_r. by eapply registered_recv.
  - intros id v t Hk _. apply elem_of_union_r. by eapply registered_send.
Qed.

(** ** The invariant *)
Record TInv c calls l : Prop := {
  ti_alive : tc_freed c = false;
  ti_cap : 1 ≤ tc_capacity c ≤ INT32_MAX;
  ti_repr : q_repr (tc_buffer c) l;
  ti_room : tc_capacity c ≤ q_slots (tc_buffer c);
  ti_len : Z.of_nat (length l) ≤ tc_capacity c;
  ti_trig : Trig (live_triggers c) (next_trigger c) (receiver_triggers c) (sender_triggers c) calls;
  ti_woken : Woken (fired c) (tc_closed c) (Z.of_nat (length l)) (tc_capacity c) calls;
  ti_fifo : pushed (tc_log c) = popped (tc_log c) ++ l;
  ti_copies : transferred (tc_log c) ≡ₚ released (tc_log c) ++ l ++ held calls;
  ti_refs : 0 ≤ wrapper_refs c ∧ 1 ≤ tc_ref_count c ≤ INT32_MAX;
  ti_users : calls ≠ ∅ → 0 < wrapper_refs c
}.

(** A section leaves the invariant, with the call moved or gone. *)
Definition after (id : nat) calls (p : progress (V := V)) : gmap nat call :=
  match p with inl _ => delete id calls | inr k => <[id := k]> calls end.

Lemma log_app (f : tevent V → option V) o e : omap f (o ++ [e]) = omap f o ++ option_list (f e).
Proof. rewrite omap_app. cbn. by destruct (f e). Qed.

Lemma nonempty_lookup calls id k : calls !! id = Some k → calls ≠ ∅.
Proof. intros Hk ->. by rewrite lookup_empty in Hk. Qed.

Lemma lock_spec c calls l Φ : TInv c calls l → Φ tt c → wp lock Φ c.
Proof. intros [] HΦ. unfold lock. wp_simpl. rewrite ti_alive0. done. Qed.

Lemma fire_spec c calls l h : TInv c calls l → h = receiver_triggers c ∨ h = sender_triggers c →
  wp (fire_all_triggers h) (λ _ c', c' = set_fired (fired c ∪ list_to_set h.*2) c) c.
Proof.
  intros [] Hh. unfold fire_all_triggers. wp_simpl. split; [|done].
  apply bool_decide_eq_true. by eapply Trig_registered.
Qed.

(** The end of a call that owns no copy: its trigger goes with it. *)
Lemma finish_spec c calls l id k r : TInv c calls l → calls !! id = Some k → copy_of k = None →
  waiting_recv k = None → waiting_send k = None →
  wp (dispose_if_any (trig_of k);; finish r) (λ p c', p = inl r ∧ TInv c' (delete id calls) l) c.
Proof.
  intros [] Hk Hc Hr Hs. pose proof (Trig_end _ _ _ _ _ _ _ ti_trig0 Hk Hr Hs) as HT.
  pose proof (Woken_delete _ _ _ _ _ _ _ _ _ _ _ ti_woken0 ti_trig0 Hk) as HW.
  pose proof (held_delete _ _ _ Hk) as Hheld. rewrite Hc in Hheld. cbn in Hheld.
  assert (delete id calls ≠ ∅ → 0 < wrapper_refs c) as Hu.
  { intros _. apply ti_users0. by eapply nonempty_lookup. }
  unfold finish, dispose_if_any, dispose_trigger. destruct (trig_of k) as [t|] eqn:Ht; wp_simpl.
  - split; [apply bool_decide_eq_true; by eapply tr_live|]. split; [done|].
    constructor; cbn; try done. by rewrite <- Hheld.
  - split; [done|]. constructor; cbn; try done. by rewrite <- Hheld.
Qed.

(** The copy of a call is released, or moves into the buffer; the call keeps its
    trigger. *)
Definition strip k : call (V := V) := RecvTry true (trig_of k).

Lemma release_spec c calls l id k v : TInv c calls l → calls !! id = Some k → copy_of k = Some v →
  waiting_recv k = None → waiting_send k = None →
  wp (release_copy v) (λ _ c', TInv c' (<[id := strip k]> calls) l) c.
Proof.
  intros [] Hk Hc Hr Hs. unfold release_copy, tlog. wp_simpl.
  pose proof (held_delete _ _ _ Hk) as Hheld. rewrite Hc in Hheld. cbn in Hheld.
  assert (held (<[id := strip k]> calls) ≡ₚ held (delete id calls)) as Hstrip.
  { rewrite <- insert_delete_eq. rewrite held_insert by by rewrite lookup_delete_eq. done. }
  constructor; cbn; try done.
  - apply Trig_move; [done..|]. by rewrite Hk.
  - by apply Woken_move.
  - unfold pushed, popped in *. by rewrite !log_app, !app_nil_r.
  - unfold transferred, released in *. rewrite !log_app, app_nil_r, ti_copies0, Hheld, Hstrip. cbn.
    rewrite <- app_assoc. apply Permutation_app_head. cbn. symmetry. apply Permutation_middle.
  - intros _. apply ti_users0. by eapply nonempty_lookup.
Qed.

Lemma release_finish_spec c calls l id k v r :
  TInv c calls l → calls !! id = Some k → copy_of k = Some v →
  waiting_recv k = None → waiting_send k = None →
  wp (release_copy v;; dispose_if_any (trig_of k);; finish r)
    (λ p c', p = inl r ∧ TInv c' (delete id calls) l) c.
Proof.
  intros HI Hk Hc Hr Hs. wp_apply release_spec; [done..|]. intros _ c1 HI1.
  eapply wp_mono.
  - apply (finish_spec c1 (<[id := strip k]> calls) l id (strip k)); [done|by simplify_map_eq|done..].
  - intros p c2. by rewrite delete_insert_eq.
Qed.

Lemma Woken_mono fd fd' closed n capacity calls :
  fd ⊆ fd' → Woken fd closed n capacity calls → Woken fd' closed n capacity calls.
Proof. intros Hsub []. split; intros; apply Hsub; eauto. Qed.

(** A woken, or aborted, call leaves its table; [fd] are the wakeups left. *)
Lemma unwait_TInv c calls l id k k' t fd : TInv c calls l → calls !! id = Some k →
  trig_of k = Some t → trig_of k' = Some t → copy_of k' = copy_of k →
  waiting_recv k' = None → waiting_send k' = None → fired c ∖ {[t]} ⊆ fd →
  TInv (set_receiver_triggers (hash_index_del (KTrigger t) (receiver_triggers c))
         (set_sender_triggers (hash_index_del (KTrigger t) (sender_triggers c)) (set_fired fd c)))
    (<[id := k']> calls) l.
Proof.
  intros [] Hk Ht Ht' Hc Hr Hs Hfd. constructor; cbn; try done.
  - by eapply Trig_unwait.
  - eapply Woken_mono; [done|]. by eapply Woken_update.
  - by rewrite (held_update _ _ _ _ Hk Hc).
  - intros _. apply ti_users0. by eapply nonempty_lookup.
Qed.

(** The same with only the table of the call's side written. *)
Lemma unwait_sender_TInv c calls l id v t fd : TInv c calls l →
  calls !! id = Some (SendWait v t) → fired c ∖ {[t]} ⊆ fd →
  TInv (set_sender_triggers (hash_index_del (KTrigger t) (sender_triggers c)) (set_fired fd c))
    (<[id := SendTry v (Some t)]> calls) l.
Proof.
  intros HI Hk Hfd.
  destruct (Trig_del_other _ _ _ _ _ _ _ t (ti_trig _ _ _ HI) Hk eq_refl) as [_ HR].
  pose proof (unwait_TInv c calls l id _ (SendTry v (Some t)) t fd HI Hk
    eq_refl eq_refl eq_refl eq_refl eq_refl Hfd) as H. by rewrite HR in H.
Qed.
Lemma unwait_receiver_TInv c calls l id w k' t fd : TInv c calls l →
  calls !! id = Some (RecvWait w t) → k' = RecvTry w (Some t) ∨ k' = RecvRecheck t →
  fired c ∖ {[t]} ⊆ fd →
  TInv (set_receiver_triggers (hash_index_del (KTrigger t) (receiver_triggers c)) (set_fired fd c))
    (<[id := k']> calls) l.
Proof.
  intros HI Hk Hk' Hfd.
  destruct (Trig_del_other _ _ _ _ _ _ _ t (ti_trig _ _ _ HI) Hk eq_refl) as [HS _].
  assert (trig_of k' = Some t ∧ copy_of k' = None ∧ waiting_recv k' = None ∧ waiting_send k' = None)
    as (? & ? & ? & ?) by (by destruct Hk' as [->| ->]).
  pose proof (unwait_TInv c calls l id _ k' t fd HI Hk eq_refl) as Hun. rewrite HS in Hun by done.
  by apply Hun.
Qed.

Lemma set_fired_id c : set_fired (fired c) c = c.
Proof. by destruct c. Qed.

Lemma send_abort_spec c calls l id v t : TInv c calls l → calls !! id = Some (SendWait v t) →
  wp (send_abort v t) (λ p c', TInv c' (after id calls p) l) c.
Proof.
  intros HI Hk. unfold send_abort. rewrite wp_bind. eapply lock_spec; [done|]. rewrite wp_bind, wp_modify.
  pose proof (unwait_sender_TInv c calls l id v t (fired c) HI Hk ltac:(set_solver)) as HI1.
  rewrite set_fired_id in HI1. eapply wp_mono.
  - eapply (release_finish_spec _ _ l id (SendTry v (Some t)) v); [exact HI1|by simplify_map_eq|done..].
  - intros p c' [-> HI2]. cbn. by rewrite delete_insert_eq in HI2.
Qed.

Lemma recv_abort_spec c calls l id w t : TInv c calls l → calls !! id = Some (RecvWait w t) →
  wp (recv_abort t) (λ p c', TInv c' (after id calls p) l) c.
Proof.
  intros HI Hk. unfold recv_abort. rewrite wp_bind. eapply lock_spec; [done|]. rewrite wp_bind, wp_modify.
  pose proof (unwait_receiver_TInv c calls l id w _ t (fired c) HI Hk (or_introl eq_refl) ltac:(set_solver))
    as HI1. rewrite set_fired_id in HI1. eapply wp_mono.
  - eapply (finish_spec _ _ l id (RecvTry w (Some t))); [exact HI1|by simplify_map_eq|done..].
  - intros p c' [-> HI2]. cbn. by rewrite delete_insert_eq in HI2.
Qed.

Lemma send_wake_spec c calls l id v t bailed exn cancelled :
  TInv c calls l → calls !! id = Some (SendWait v t) →
  wp (send_wake v t bailed exn cancelled) (λ p c', TInv c' (after id calls p) l) c.
Proof.
  intros HI Hk. unfold send_wake. rewrite wp_bind. eapply lock_spec; [done|].
  rewrite wp_bind, wp_modify, wp_bind, wp_modify, wp_bind, wp_get. cbn.
  pose proof (unwait_sender_TInv c calls l id v t (fired c ∖ {[t]}) HI Hk ltac:(done)) as HI1.
  assert (∀ r, wp (release_copy v;; dispose_trigger t;; finish r)
    (λ p c', TInv c' (after id calls p) l)
    (set_sender_triggers (hash_index_del (KTrigger t) (sender_triggers c)) (set_fired (fired c ∖ {[t]}) c)))
    as Hend.
  { intros r. eapply wp_mono.
    - eapply (release_finish_spec _ _ l id (SendTry v (Some t)) v); [exact HI1|by simplify_map_eq|done..].
    - intros p c' [-> HI2]. cbn. by rewrite delete_insert_eq in HI2. }
  destruct bailed; [apply Hend|]. destruct exn; [apply Hend|]. destruct (_ && _ && _); [apply Hend|].
  unfold continue. wp_simpl. exact HI1.
Qed.

Lemma recv_wake_spec c calls l id w t bailed exn cancelled :
  TInv c calls l → calls !! id = Some (RecvWait w t) →
  wp (recv_wake w t bailed exn cancelled) (λ p c', TInv c' (after id calls p) l) c.
Proof.
  intros HI Hk. unfold recv_wake. rewrite wp_bind. eapply lock_spec; [done|].
  rewrite wp_bind, wp_modify, wp_bind, wp_modify, wp_bind, wp_get. cbn.
  pose proof (λ k' H, unwait_receiver_TInv c calls l id w k' t (fired c ∖ {[t]}) HI Hk H ltac:(done)) as HI1.
  assert (∀ r, wp (dispose_trigger t;; finish r) (λ p c', TInv c' (after id calls p) l)
    (set_receiver_triggers (hash_index_del (KTrigger t) (receiver_triggers c))
      (set_fired (fired c ∖ {[t]}) c))) as Hend.
  { intros r. eapply wp_mono.
    - eapply (finish_spec _ _ l id (RecvTry w (Some t))); [exact (HI1 _ (or_introl eq_refl))|by simplify_map_eq|done..].
    - intros p c' [-> HI2]. cbn. by rewrite delete_insert_eq in HI2. }
  destruct bailed; [apply Hend|]. destruct exn; [apply Hend|].
  destruct w; [apply Hend|]. unfold continue. destruct (_ && _); wp_simpl; apply HI1; auto.
Qed.

Lemma recv_recheck_spec c calls l id t : TInv c calls l → calls !! id = Some (RecvRecheck t) →
  wp (recv_recheck t) (λ p c', TInv c' (after id calls p) l) c.
Proof.
  intros HI Hk. unfold recv_recheck. rewrite wp_bind. eapply lock_spec; [done|].
  rewrite wp_bind, wp_get, wp_if. destruct (q_is_empty _).
  - eapply wp_mono; [eapply (finish_spec _ _ l id (RecvRecheck t)); done|]. by intros p c' [-> ?].
  - unfold continue. wp_simpl. cbn. destruct HI. constructor; cbn; try done.
    + apply Trig_move; [done..|]. by rewrite Hk.
    + by apply Woken_move.
    + by rewrite (held_update _ _ _ _ Hk).
    + intros _. apply ti_users0. by eapply nonempty_lookup.
Qed.

(** A call obtains its trigger, creating it the first time. *)
Lemma get_trigger_spec c calls l id k (mk : option nat → call (V := V)) :
  TInv c calls l → calls !! id = Some k → k = mk (trig_of k) →
  (∀ t, trig_of (mk (Some t)) = Some t ∧ copy_of (mk (Some t)) = copy_of k ∧
        waiting_recv (mk (Some t)) = None ∧ waiting_send (mk (Some t)) = None) →
  wp (match trig_of k with Some t => mret t | None => new_trigger end)
    (λ t c', TInv c' (<[id := mk (Some t)]> calls) l ∧
      receiver_triggers c' = receiver_triggers c ∧ sender_triggers c' = sender_triggers c ∧
      tc_closed c' = tc_closed c ∧ tc_capacity c' = tc_capacity c) c.
Proof.
  intros HI Hk Hmk Hprop. destruct (trig_of k) as [t|] eqn:Ht.
  { wp_simpl. split_and!; try done. rewrite <- Hmk, insert_id by done. done. }
  unfold new_trigger. wp_simpl. cbn. destruct (Hprop (next_trigger c)) as (Ht' & Hc & Hr & Hs).
  destruct HI. split_and!; try done. constructor; cbn; try done.
  - by eapply Trig_new.
  - apply Woken_move; [done|..]; intros * Heq; rewrite Heq in *; done.
  - by rewrite (held_update _ _ _ _ Hk Hc).
  - intros _. apply ti_users0. by eapply nonempty_lookup.
Qed.

(** What a section does with the contents [l] of the buffer: how it leaves the
    call, and the contents after it. *)
Definition send_outcome_of c l v (p : progress (V := V)) (l' : list V) : Prop :=
  if tc_closed c then p = inl TThrowClosed ∧ l' = l
  else if Z.of_nat (length l) <? tc_capacity c then p = inl (TReturn true None) ∧ l' = l ++ [v]
  else (∃ t, p = inr (SendWait v t)) ∧ l' = l.

Definition recv_outcome_of c l (wait_only : bool) (p : progress (V := V)) (l' : list V) : Prop :=
  match l with
  | v :: tail => if wait_only then True else p = inl (TReturn true (Some v)) ∧ l' = tail
  | [] => True
  end ∧
  (wait_only = true ∨ l = [] →
   l' = l ∧ if tc_closed c then p = inl (if wait_only then TReturn false None else TThrowClosed)
            else ∃ t, p = inr (RecvWait wait_only t)).

Lemma send_section_spec c calls l id v (ot : option nat) : TInv c calls l → calls !! id = Some (SendTry v ot) →
  wp (send_section v ot) (λ p c', ∃ l', TInv c' (after id calls p) l' ∧ send_outcome_of c l v p l') c.
Proof.
  intros HI Hk. unfold send_section, send_outcome_of. rewrite wp_bind. eapply lock_spec; [done|].
  rewrite wp_bind, wp_get, wp_if. destruct (tc_closed c) eqn:Hc.
  { eapply wp_mono; [by eapply (release_finish_spec c calls l id (SendTry v ot) v)|].
    intros p c' [-> ?]. exists l. by split. }
  pose proof HI as []. rewrite wp_if, (q_count_spec _ l) by done.
  destruct (Z.ltb_spec (Z.of_nat (length l)) (tc_capacity c)) as [Hroom|Hfull].
  - rewrite wp_bind, wp_zoom. wp_apply (q_push_spec _ l v false); [done|]. intros r q [Hr Hok].
    assert (r = SUCCESS) as -> by (apply Hok; [done|lia]). destruct Hr as [Hq Hsl].
    unfold tlog. rewrite wp_bind, wp_modify, wp_bind.
    pose proof (held_delete _ _ _ Hk) as Hheld. cbn in Hheld.
    assert (held (<[id := strip (SendTry v ot)]> calls) ≡ₚ held (delete id calls)) as Hstrip.
    { rewrite <- insert_delete_eq. rewrite held_insert by by rewrite lookup_delete_eq. done. }
    set (c1 := set_tc_log (tc_log c ++ [Pushed v]) (set_tc_buffer q c)).
    assert (Forall (.∈ live_triggers c) (receiver_triggers c).*2) as Hreg
      by (eapply Trig_registered; [done|by left]).
    unfold fire_all_triggers at 1. rewrite wp_bind, wp_get, wp_bind, wp_assert, wp_modify. split; [by apply bool_decide_eq_true|].
    set (c2 := set_fired (fired c1 ∪ list_to_set (receiver_triggers c).*2) c1).
    assert (TInv c2 (<[id := strip (SendTry v ot)]> calls) (l ++ [v])) as HI2.
    { assert (Z.of_nat (length (l ++ [v])) = Z.of_nat (length l) + 1) as Hlen
        by (rewrite length_app; cbn; lia).
      constructor; cbn; try done.
      - rewrite Hsl by done. done.
      - lia.
      - apply Trig_move; [done..|]. by rewrite Hk.
      - apply Woken_move; [|done..]. eapply Woken_fire_receivers; [done|done|lia].
      - unfold pushed, popped in *. rewrite !log_app. cbn. rewrite app_nil_r, ti_fifo0. by rewrite <- app_assoc.
      - unfold transferred, released in *. rewrite !log_app. cbn. rewrite !app_nil_r, ti_copies0, Hheld, Hstrip.
        by rewrite <- app_assoc.
      - intros _. apply ti_users0. by eapply nonempty_lookup. }
    eapply wp_mono.
    + eapply (finish_spec c2 _ _ id (strip (SendTry v ot))); [done|by simplify_map_eq|done..].
    + intros p c' [-> HI3]. rewrite delete_insert_eq in HI3. eexists. by split.
  - rewrite wp_bind. wp_apply (get_trigger_spec c calls l id (SendTry v ot) (SendTry v)); [done..|].
    intros t' c1 (HI1 & _ & HS & Hcl & Hcap). unfold continue. wp_simpl. exists l. split; [|by eauto]. cbn.
    pose proof HI1 as []. constructor; cbn; try done.
    + rewrite <- (insert_insert_eq calls id (SendWait v t') (SendTry v (Some t'))).
      eapply Trig_wait; [done|by simplify_map_eq|done..].
    + rewrite <- (insert_insert_eq calls id (SendWait v t') (SendTry v (Some t'))).
      apply Woken_move; [done|done|done|]. intros _ _ _. split; [lia|congruence].
    + rewrite (held_update _ _ (SendTry v ot)) by done. by rewrite <- (held_update calls id (SendTry v ot) (SendTry v (Some t'))).
    + intros _. apply ti_users1. by eapply (nonempty_lookup _ id); simplify_map_eq.
Qed.

Lemma recv_section_spec c calls l id w (ot : option nat) :
  TInv c calls l → calls !! id = Some (RecvTry w ot) →
  wp (recv_section w ot) (λ p c', ∃ l', TInv c' (after id calls p) l' ∧ recv_outcome_of c l w p l') c.
Proof.
  intros HI Hk. unfold recv_section, recv_outcome_of. rewrite wp_bind. eapply lock_spec; [done|].
  pose proof HI as []. rewrite wp_bind, wp_get, wp_if, (q_is_empty_spec _ l) by done.
  destruct (negb w && negb (bool_decide (l = []))) eqn:Ehas.
  - apply andb_true_iff in Ehas as [->%negb_true_iff Hne%negb_true_iff%bool_decide_eq_false].
    destruct l as [|v l']; [done|]. rewrite wp_bind, wp_zoom. wp_apply (q_pop_spec _ (v :: l')); [done|].
    intros r q (-> & Hq & Hsl). cbn. rewrite wp_bind. unfold of_option, wp at 1. cbn.
    unfold tlog. rewrite wp_bind, wp_modify, wp_bind.
    assert (Forall (.∈ live_triggers c) (sender_triggers c).*2) as Hreg
      by (eapply Trig_registered; [done|by right]).
    unfold fire_all_triggers at 1. rewrite wp_bind, wp_get, wp_bind, wp_assert, wp_modify.
    split; [by apply bool_decide_eq_true|]. unfold release_copy, tlog. rewrite wp_bind, wp_modify.
    match goal with |- wp _ _ ?x => set (c2 := x) end.
    assert (TInv c2 calls l') as HI2.
    { constructor; cbn; try done.
      - by rewrite Hsl.
      - cbn in ti_len0. lia.
      - eapply Woken_fire_senders; [done|done|cbn; lia].
      - unfold pushed, popped in *. rewrite !log_app. cbn. rewrite !app_nil_r, ti_fifo0. by rewrite <- app_assoc.
      - unfold transferred, released in *. rewrite !log_app. cbn. rewrite !app_nil_r, ti_copies0.
        by rewrite <- app_assoc. }
    eapply wp_mono; [by eapply (finish_spec c2 calls l' id (RecvTry false ot))|].
    intros p c' [-> HI3]. exists l'. split; [done|]. split; [done|]. by intros [|].
  - destruct (tc_closed c) eqn:Hc.
    { eapply wp_mono; [by eapply (finish_spec c calls l id (RecvTry w ot))|].
      intros p c' [-> ?]. exists l. split; [done|]. split; [|done]. by destruct w, l. }
    rewrite wp_bind. wp_apply (get_trigger_spec c calls l id (RecvTry w ot) (RecvTry w)); [done..|].
    intros t' c1 (HI1 & HR & _ & Hcl & Hcap). unfold continue. wp_simpl. exists l.
    split; [|split; [by destruct w, l|by eauto]]. cbn.
    pose proof HI1 as []. constructor; cbn; try done.
    + rewrite <- (insert_insert_eq calls id (RecvWait w t') (RecvTry w (Some t'))).
      eapply Trig_wait; [done|by simplify_map_eq|done..].
    + rewrite <- (insert_insert_eq calls id (RecvWait w t') (RecvTry w (Some t'))).
      apply Woken_move; [done|..|done].
      * intros t2 [= -> _]. split; [|congruence]. cbn in Ehas.
        apply negb_false_iff, bool_decide_eq_true in Ehas as ->. done.
      * intros t2 [= -> _]. congruence.
    + rewrite (held_update _ _ (RecvTry w ot)) by done.
      by rewrite <- (held_update calls id (RecvTry w ot) (RecvTry w (Some t'))).
    + intros _. apply ti_users1. by eapply (nonempty_lookup _ id); simplify_map_eq.
Qed.

(** *** Closing and references *)
Lemma fire_both_TInv c calls l : TInv c calls l →
  wp (fire_all_triggers (receiver_triggers c);; fire_all_triggers (sender_triggers c))
    (λ _ c', TInv c' calls l ∧ tc_closed c' = true ∧ tc_ref_count c' = tc_ref_count c ∧
      tc_owned c' = tc_owned c) (set_tc_closed true c).
Proof.
  intros []. unfold fire_all_triggers. wp_simpl. cbn. split_and!; try done.
  - apply bool_decide_eq_true. eapply Trig_registered; [done|by left].
  - apply bool_decide_eq_true. eapply Trig_registered; [done|by right].
  - constructor; cbn; try done. by eapply Woken_close.
Qed.

Lemma thread_close_spec c calls l : TInv c calls l →
  wp async_thread_channel_close (λ _ c', TInv c' calls l ∧ tc_closed c' = true ∧
    tc_ref_count c' = tc_ref_count c ∧ tc_owned c' = tc_owned c) c.
Proof.
  intros HI. unfold async_thread_channel_close. rewrite wp_bind. eapply lock_spec; [done|].
  rewrite wp_bind, wp_get, wp_if. destruct (tc_closed c) eqn:Hc; [by wp_simpl|].
  rewrite wp_bind, wp_modify. by apply fire_both_TInv.
Qed.

(** A freed channel: nobody refers to it, and every copy was released. *)
Record Freed c calls : Prop := {
  fr_freed : tc_freed c = true;
  fr_refs : tc_ref_count c = 0;
  fr_owned : tc_owned c = false;
  fr_idle : calls = ∅;
  fr_copies : transferred (tc_log c) ≡ₚ released (tc_log c)
}.

Lemma drain_loop_spec fuel c l : q_repr (tc_buffer c) l → (length l < fuel)%nat →
  wp (drain_loop fuel) (λ _ c', ∃ q,
    c' = set_tc_log (tc_log c ++ (Released <$> l)) (set_tc_buffer q c)) c.
Proof.
  revert c l. induction fuel as [|fuel IH]; intros c l Hq Hf; [lia|]. simpl.
  rewrite wp_bind, wp_get, wp_if, (q_is_empty_spec _ l Hq). case_bool_decide as Hl.
  { subst l. wp_simpl. exists (tc_buffer c). cbn. rewrite app_nil_r. by destruct c. }
  destruct l as [|v l]; [done|]. rewrite wp_bind, wp_zoom. wp_apply (q_pop_spec _ _ Hq).
  intros r q (-> & Hq' & _). unfold release_copy, tlog. wp_simpl. simpl in Hf.
  wp_apply (IH _ l); [exact Hq'|lia|]. intros _ c' [q' ->]. exists q'. cbn.
  by rewrite <- app_assoc.
Qed.

Lemma released_log (o : list (tevent V)) l :
  transferred (o ++ (Released <$> l)) = transferred o ∧ released (o ++ (Released <$> l)) = released o ++ l.
Proof.
  unfold transferred, released. rewrite !omap_app. split.
  - rewrite <- (app_nil_r (omap _ o)) at 2. f_equal. by induction l.
  - f_equal. induction l as [|v l IH]; [done|]. cbn. by rewrite IH.
Qed.

(** Destruction of an idle channel; the counter, already lowered to [n], does not
    matter. *)
Lemma destroy_spec c l n : TInv c ∅ l →
  wp thread_channel_destroy (λ _ c', tc_freed c' = true ∧ tc_ref_count c' = n ∧
    tc_owned c' = tc_owned c ∧ transferred (tc_log c') ≡ₚ released (tc_log c')) (set_tc_ref_count n c).
Proof.
  intros HI. pose proof HI as []. unfold thread_channel_destroy. rewrite wp_bind, wp_get, wp_bind.
  assert (wp (if negb (tc_closed c) then lock;; modify (set_tc_closed true);;
      fire_all_triggers (receiver_triggers c);; fire_all_triggers (sender_triggers c) else mret tt)
    (λ _ c', tc_buffer c' = tc_buffer c ∧ tc_log c' = tc_log c ∧ tc_ref_count c' = n ∧
      tc_owned c' = tc_owned c) (set_tc_ref_count n c)) as Hwp.
  { destruct (tc_closed c); cbn; [by wp_simpl|]. unfold lock, fire_all_triggers. wp_simpl. cbn.
    rewrite ti_alive0. split_and!; try done; apply bool_decide_eq_true.
    - eapply Trig_registered; [done|by left].
    - eapply Trig_registered; [done|by right]. }
  eapply wp_mono; [exact Hwp|]. intros _ c1 (Hb & Hlog & Href & Hown). wp_simpl.
  wp_apply (drain_loop_spec _ c1 l); [by rewrite Hb|rewrite Hb, (q_count_spec _ l) by done; lia|].
  intros _ c2 [q ->]. wp_simpl. split_and!; [done..|].
  change (transferred (tc_log c1 ++ (Released <$> l)) ≡ₚ released (tc_log c1 ++ (Released <$> l))).
  destruct (released_log (tc_log c1) l) as [-> ->]. rewrite Hlog, ti_copies0.
  unfold held. by rewrite map_to_list_empty, app_nil_r.
Qed.

Lemma dispose_ref_spec c calls l : TInv c calls l → (tc_ref_count c = 1 → calls = ∅) →
  wp thread_channel_event_dispose (λ _ c',
    tc_ref_count c' = tc_ref_count c - 1 ∧ tc_owned c' = tc_owned c ∧
    if decide (tc_ref_count c = 1) then tc_freed c' = true ∧ transferred (tc_log c') ≡ₚ released (tc_log c')
    else c' = set_tc_ref_count (tc_ref_count c - 1) c) c.
Proof.
  intros HI Hidle. pose proof (ti_refs _ _ _ HI) as [_ Hr]. unfold thread_channel_event_dispose.
  rewrite wp_bind, wp_get, wp_bind, wp_assert, (ti_alive _ _ _ HI). split; [done|].
  rewrite wp_bind, wp_modify. unfold INT32_MAX in Hr. rewrite i32_small by lia. rewrite wp_if.
  case_decide as H1; [rewrite (proj2 (Z.eqb_eq _ _) H1)|rewrite (proj2 (Z.eqb_neq _ _) H1)].
  - rewrite (Hidle H1) in HI. wp_apply (destroy_spec c l); [done|]. intros _ c' (? & ? & ? & ?). by split_and!.
  - by wp_simpl.
Qed.

(** *** Every step *)
Definition STInv (s : tsys (V := V) (Q := Q)) : Prop :=
  (∃ l, TInv (ts_chan s) (ts_calls s) l) ∨ Freed (ts_chan s) (ts_calls s).

Lemma run_call_spec id (m : M (async_thread_channel_t Q V) progress) s :
  wp m (λ p c', ∃ l', TInv c' (after id (ts_calls s) p) l') (ts_chan s) →
  ∃ s', run_call id m s = Some s' ∧ STInv s'.
Proof.
  intros (p & c' & Hm & l' & HI)%wp_run. unfold run_call. rewrite Hm. eexists. split; [done|].
  left. exists l'. by destruct p.
Qed.

Lemma run_op_spec (m : M (async_thread_channel_t Q V) unit) s :
  wp m (λ _ c', STInv (mk_tsys c' (ts_calls s))) (ts_chan s) →
  ∃ s', run_op m s = Some s' ∧ STInv s'.
Proof.
  intros ([] & c' & Hm & HI)%wp_run. unfold run_op. rewrite Hm. eexists. by split.
Qed.

Lemma Freed_refs c calls : Freed c calls → wrapper_refs c = 0.
Proof. intros []. unfold wrapper_refs. rewrite fr_refs0, fr_owned0. done. Qed.

Lemma enter_TInv c calls l id k o : TInv c calls l → calls !! id = None → 0 < wrapper_refs c →
  trig_of k = None → waiting_recv k = None → waiting_send k = None →
  match copy_of k with
  | Some v => o = tc_log c ++ [Transferred v]
  | None => o = tc_log c
  end →
  TInv (set_tc_log o c) (<[id := k]> calls) l.
Proof.
  intros [] Hid Hrefs Ht Hr Hs Ho. constructor; cbn; try done.
  - apply Trig_move; [done..|]. by rewrite Hid.
  - apply Woken_move; [done|..]; intros * ->; done.
  - unfold pushed, popped in *. destruct (copy_of k); subst o; rewrite ?log_app, ?app_nil_r; done.
  - rewrite held_insert by done. unfold transferred, released in *.
    destruct (copy_of k) as [v|]; subst o; rewrite ?log_app; cbn; rewrite ?app_nil_r; [|done].
    rewrite ti_copies0. rewrite <- Permutation_cons_append.
    rewrite !(app_assoc (released _)), Permutation_middle. done.
Qed.

Lemma run_last_ref c calls l : TInv c calls l → (wrapper_refs c = 1 → calls = ∅) → 0 < wrapper_refs c →
  wp thread_channel_event_dispose (λ _ c', STInv (mk_tsys c' calls)) c.
Proof.
  intros HI Hidle Hw. pose proof (ti_refs _ _ _ HI) as [_ Hr]. unfold wrapper_refs in *.
  wp_apply (dispose_ref_spec c calls l HI).
  { intros H1. apply Hidle. destruct (tc_owned c); lia. }
  intros _ c' (Href & Hown & Hcase). case_decide as H1.
  - right. destruct Hcase. assert (tc_owned c = false) as Ho by (destruct (tc_owned c); [lia|done]).
    constructor; cbn; try done; [lia|congruence|]. apply Hidle. rewrite Ho. lia.
  - left. exists l. subst c'. destruct HI. constructor; cbn; try done.
    + unfold wrapper_refs. cbn. destruct (tc_owned c); lia.
    + intros Hne. unfold wrapper_refs in *. cbn. specialize (ti_users0 Hne).
      destruct (decide (tc_ref_count c - (if tc_owned c then 1 else 0) = 1)) as [E|]; [|destruct (tc_owned c); lia].
      destruct Hne. auto.
Qed.

Lemma close_owned_spec c calls l : TInv c calls l →
  wp async_thread_channel_close_owned (λ _ c', STInv (mk_tsys c' calls)) c.
Proof.
  intros HI. unfold async_thread_channel_close_owned. rewrite wp_bind, wp_get, wp_if.
  destruct (tc_owned c) eqn:Ho; cbn; [|by wp_simpl; left; exists l].
  rewrite wp_bind. eapply wp_mono; [by apply thread_close_spec|].
  intros _ c1 (HI1 & _ & Href & Hown). rewrite Ho in Hown. rewrite wp_bind.
  pose proof (ti_refs _ _ _ HI1) as [Hw Hr]. unfold wrapper_refs in Hw. rewrite Hown in Hw.
  assert (tc_ref_count c1 = 1 → calls = ∅) as Hidle.
  { intros H1. destruct (decide (calls = ∅)) as [|Hne]; [done|]. pose proof (ti_users _ _ _ HI1 Hne) as Hu.
    unfold wrapper_refs in Hu. rewrite Hown in Hu. lia. }
  wp_apply (dispose_ref_spec c1 calls l HI1 Hidle). intros _ c2 (Href2 & Hown2 & Hcase). wp_simpl.
  case_decide as H1.
  - right. destruct Hcase. constructor; cbn; try done; [lia|auto].
  - left. exists l. subst c2. destruct HI1. constructor; cbn; try done.
    + unfold wrapper_refs in *. cbn. rewrite Hown in *. lia.
    + intros Hne. specialize (ti_users0 Hne). unfold wrapper_refs in *. cbn. rewrite Hown in *. lia.
Qed.

Lemma dtor_object_spec c calls l obj : TInv c calls l →
  wp (async_thread_channel_dtor_object obj) (λ _ c', c' = c) c.
Proof.
  intros HI. unfold async_thread_channel_dtor_object. rewrite wp_bind. eapply lock_spec; [done|]. wp_simpl.
  destruct HI, ti_trig0. unfold unregister_trigger, hash_index_del.
  rewrite !filter_all; [by destruct c| |].
  - intros [key x] Hx. cbn in *. apply tr_R0 in Hx as [-> _]. done.
  - intros [key x] Hx. cbn in *. apply tr_S0 in Hx as [-> _]. done.
Qed.

Lemma texec_spec o s : STInv s → tenabled o s = true → ∃ s', texec o s = Some s' ∧ STInv s'.
Proof.
  intros [[l HI]|HF] Hen.
  2:{ pose proof (Freed_refs _ _ HF) as Hz. destruct HF. unfold tenabled in Hen.
      rewrite fr_idle0, ?Hz in Hen. destruct o; cbn in Hen;
        rewrite ?lookup_empty, ?andb_false_r, ?andb_false_l in Hen; try done.
      cbn. apply run_op_spec. unfold async_thread_channel_close_owned. wp_simpl. rewrite fr_owned0. cbn.
      wp_simpl. right. by constructor. }
  destruct o as [id v ok|id w|id|id|id bailed exn cancelled| | | | |obj]; cbn in Hen; unfold texec.
  - apply andb_true_iff in Hen as [Hid%bool_decide_eq_true Hrefs%Z.ltb_lt].
    apply run_call_spec. unfold send_enter, finish, continue, tlog. destruct ok; cbn; wp_simpl; exists l; cbn.
    + by apply (enter_TInv _ _ l id (SendTry v None)).
    + by rewrite delete_id.
  - apply andb_true_iff in Hen as [Hid%bool_decide_eq_true Hrefs%Z.ltb_lt].
    apply run_call_spec. unfold continue. wp_simpl. exists l. cbn.
    pose proof (enter_TInv _ _ l id (RecvTry w None) _ HI Hid Hrefs eq_refl eq_refl eq_refl eq_refl) as H.
    by destruct (ts_chan s).
  - destruct (ts_calls s !! id) as [k|] eqn:Hk; [|done]. destruct k; try done; apply run_call_spec.
    + eapply wp_mono; [by eapply send_section_spec|]. intros p c' (l' & ? & _). eauto.
    + eapply wp_mono; [by eapply recv_section_spec|]. intros p c' (l' & ? & _). eauto.
    + eapply wp_mono; [by eapply recv_recheck_spec|]. intros p c' ?. by exists l.
  - destruct (ts_calls s !! id) as [k|] eqn:Hk; [|done]. destruct k; try done; apply run_call_spec.
    + eapply wp_mono; [by eapply send_abort_spec|]. intros p c' ?. by exists l.
    + eapply wp_mono; [by eapply recv_abort_spec|]. intros p c' ?. by exists l.
  - destruct (ts_calls s !! id) as [k|] eqn:Hk; [|done]. destruct k; try done; apply run_call_spec.
    + eapply wp_mono; [by eapply send_wake_spec|]. intros p c' ?. by exists l.
    + eapply wp_mono; [by eapply recv_wake_spec|]. intros p c' ?. by exists l.
  - apply run_op_spec. eapply wp_mono; [by eapply thread_close_spec|]. intros _ c' (? & _). left. by exists l.
  - apply andb_true_iff in Hen as [Hrefs%Z.ltb_lt Hmax%Z.ltb_lt].
    apply run_op_spec. unfold async_thread_channel_addref. wp_simpl. rewrite (ti_alive _ _ _ HI).
    split; [done|]. left. exists l. destruct HI. unfold INT32_MAX in *. rewrite i32_small by lia.
    unfold wrapper_refs in *. constructor; cbn; try done.
    + unfold wrapper_refs, INT32_MAX. cbn. lia.
    + unfold wrapper_refs. cbn. intros ?. lia.
  - apply run_op_spec. eapply run_last_ref; [done|..].
    + intros H1. rewrite H1 in Hen. cbn in Hen. by apply bool_decide_eq_true in Hen.
    + apply orb_true_iff in Hen as [?%Z.ltb_lt|[?%Z.ltb_lt _]%andb_true_iff]; lia.
  - apply run_op_spec. by eapply close_owned_spec.
  - apply run_op_spec. eapply wp_mono; [by eapply dtor_object_spec|]. intros _ c' ->. left. by exists l.
Qed.

Context `{!FifoCtor Q V}.

(** Construction with a capacity below INT32_MAX, when the buffer could be
    allocated. *)
Lemma create_STInv buf0 capacity c : 1 ≤ capacity < INT32_MAX →
  (∀ q, q_ctor (capacity + 1) buf0 ≠ Some (FAILURE, q)) →
  async_thread_channel_create buf0 capacity = Some c → TInv c ∅ [].
Proof.
  intros Hcap Hok Hc. unfold async_thread_channel_create, INT32_MAX in *.
  rewrite i32_small, u64_small in Hc by lia.
  pose proof (q_ctor_spec (capacity + 1) buf0 ltac:(lia)) as (r & q & Hr & Hspec)%wp_run.
  rewrite Hr in Hc. cbn in Hc. destruct r; [|by destruct (Hok _ Hr)]. destruct Hspec as [Hq Hs]; [done|].
  change (Some (mk_thread_channel false q capacity [] [] 2 true false ∅ ∅ 0%nat []) = Some c) in Hc.
  simplify_eq. constructor; cbn; try done; try lia; try set_solver.
  - unfold INT32_MAX. lia.
  - split; cbn; set_solver.
Qed.

(** The states of a thread channel after its construction.  The persistent
    allocator aborts rather than return NULL. *)
Definition trunning (s : tsys (V := V) (Q := Q)) : Prop :=
  ∃ buf0 capacity c, 1 ≤ capacity < INT32_MAX ∧ (∀ q, q_ctor (capacity + 1) buf0 ≠ Some (FAILURE, q)) ∧
    thread_channel_construct buf0 capacity = Some (Some c) ∧ treachable (mk_tsys c ∅) s.

Lemma trunning_STInv s : trunning s → STInv s.
Proof.
  intros (buf0 & capacity & c & Hcap & Hok & Hc & Hr).
  assert (STInv (mk_tsys c ∅)) as H0.
  { left. exists []. unfold thread_channel_construct in Hc. unfold INT32_MAX in Hcap.
    destruct (Z.ltb_spec capacity 1); [lia|]. destruct (Z.ltb_spec INT32_MAX capacity); [done|]. cbn in Hc.
    rewrite i32_small in Hc by lia.
    destruct (async_thread_channel_create buf0 capacity) as [c'|] eqn:E; [|done]. cbn in Hc. simplify_eq.
    by eapply create_STInv. }
  induction Hr as [|s o s' Hr IH Hen Hex]; [done|].
  destruct (texec_spec o s IH Hen) as (s1 & ? & ?). by simplify_eq.
Qed.
End invariant.
