(* ===== verification/ThreadChannelTheorems.v ===== *)
(** * The properties of the thread channel

    What the invariant of [ThreadChannelProofs] says of every interleaving of
    sends, receives, wakeups, cancellations and closings of a thread channel, and
    the two places where the code differs from what it means. *)

From S2P Require Import Prelude CircularBuffer ThreadChannel ThreadChannelProofs.

Local Open Scope Z_scope.

(** ** A concrete channel *)
#[local] Instance tdemo_ctor : FifoCtor (circular_buffer_t Z) Z :=
  circular_buffer_fifo_ctor Z demo_allocator demo_allocator_ok.

Fixpoint trun_all {V Q} `{!FifoBuffer Q V} (os : list (top (V := V)))
    (s : tsys (V := V) (Q := Q)) : option (tsys (V := V) (Q := Q)) :=
  match os with
  | [] => Some s
  | o :: os => if tenabled o s then texec o s ≫= trun_all os else None
  end.

Lemma trun_all_reachable {V Q} `{!FifoBuffer Q V} os (s0 s s' : tsys (V := V) (Q := Q)) :
  treachable s0 s → trun_all os s = Some s' → treachable s0 s'.
Proof.
  revert s. induction os as [|o os IH]; intros s Hr Hrun; simpl in Hrun; [by simplify_eq|].
  destruct (tenabled o s) eqn:He; [|done]. destruct (texec o s) as [s1|] eqn:Hx; [|done].
  eapply IH; [|done]. by eapply treach_step.
Qed.

(** A fresh channel of capacity 1, after the operations [os]. *)
Definition tdemo_run (os : list (top (V := Z))) : option (tsys (V := Z) (Q := circular_buffer_t Z)) :=
  match thread_channel_construct (zeroed demo_allocator) 1 with
  | Some (Some c) => trun_all os (mk_tsys c ∅)
  | _ => None
  end.

Definition tdemo_state (os : list (top (V := Z))) : tsys (V := Z) (Q := circular_buffer_t Z) :=
  default (mk_tsys (mk_thread_channel false (zeroed demo_allocator) 0 [] [] 0 false false ∅ ∅ 0%nat []) ∅)
    (tdemo_run os).

Lemma tdemo_running os : match tdemo_run os with Some _ => true | None => false end = true →
  trunning (tdemo_state os).
Proof.
  unfold tdemo_state, tdemo_run. intros H.
  destruct (thread_channel_construct _ 1) as [[c|]|] eqn:Hc; [|done..].
  destruct (trun_all os _) as [s|] eqn:E; [|done]. cbn.
  exists (zeroed demo_allocator), 1, c. split; [unfold INT32_MAX; lia|].
  split; [|split; [done|by eapply trun_all_reachable; [constructor|]]].
  assert (match q_ctor (1 + 1) (zeroed demo_allocator) with Some (FAILURE, _) => false | _ => true end = true)
    as Hok by (vm_compute; reflexivity).
  intros q Hq. by rewrite Hq in Hok.
Qed.

Ltac tdemo_runs := apply tdemo_running; vm_compute; reflexivity.

(** A receiver waits; two senders arrive, the first one fills the buffer and
    fires the receiver's trigger, the second waits. *)
Definition tdemo_ops : list (top (V := Z)) :=
  [TRecv 0 false; TStep 0; TSend 1 7 true; TStep 1; TSend 2 8 true; TStep 2].

(** ** Safety *)

(** C31 Whatever the interleaving of the callers' sections, every enabled step of a
    thread channel is free of undefined behaviour: no trigger is fired or
    disposed after it was disposed, the channel is not touched after the last
    reference freed it, no UNDEF slot is handed to a receiver, and the draining
    loop of the destructor ends. *)
Theorem thread_channel_no_undefined_behaviour {V Q} `{!FifoBuffer Q V} `{!FifoCtor Q V}
    (s : tsys (V := V) (Q := Q)) (o : top) :
  trunning s → tenabled o s = true → ∃ s', texec o s = Some s'.
Proof. intros Hs%trunning_STInv Hen. destruct (texec_spec o s Hs Hen) as (s' & ? & _). eauto. Qed.

Lemma thread_channel_no_undefined_behaviour_witness :
  ∃ s', texec (TWake 0 false false false) (tdemo_state tdemo_ops) = Some s'.
Proof. apply thread_channel_no_undefined_behaviour; [tdemo_runs|vm_compute; reflexivity]. Defined.

(** C32 No wakeup is lost between threads: a receiver that waits while the buffer
    holds a value, a sender that waits while it has room, and anyone who waits on
    a closed channel has the wakeup of its trigger pending. *)
Theorem thread_channel_no_lost_wakeup {V Q} `{!FifoBuffer Q V} `{!FifoCtor Q V}
    (s : tsys (V := V) (Q := Q)) :
  trunning s →
  let c := ts_chan s in
  (∀ id t, ts_calls s !! id = Some (RecvWait false t) →
    q_is_empty (tc_buffer c) = false ∨ tc_closed c = true → t ∈ fired c) ∧
  (∀ id t, ts_calls s !! id = Some (RecvWait true t) → tc_closed c = true → t ∈ fired c) ∧
  (∀ id v t, ts_calls s !! id = Some (SendWait v t) →
    q_count (tc_buffer c) < tc_capacity c ∨ tc_closed c = true → t ∈ fired c).
Proof.
  intros [[l []]|[]]%trunning_STInv c; [|by rewrite fr_idle].
  rewrite (q_is_empty_spec _ l), (q_count_spec _ l) by done. destruct ti_woken as [Hr Ho Hs].
  split_and!; [|done|done]. intros id t Hk Hc. eapply Hr; [done|].
  destruct Hc as [Hne%bool_decide_eq_false|]; [|by right]. left. destruct l; [done|]. cbn. lia.
Qed.

Lemma thread_channel_no_lost_wakeup_witness :
  0%nat ∈ fired (ts_chan (tdemo_state tdemo_ops)).
Proof.
  eapply (proj1 (thread_channel_no_lost_wakeup (tdemo_state tdemo_ops) ltac:(tdemo_runs)) 0%nat);
    [vm_compute; reflexivity|left; vm_compute; reflexivity].
Defined.

(** C34 The buffer is a bounded queue: what was pushed is what was popped, in the
    same order, followed by what the buffer holds, and it never holds more than
    [capacity] values. *)
Theorem thread_channel_fifo {V Q} `{!FifoBuffer Q V} `{!FifoCtor Q V} (s : tsys (V := V) (Q := Q)) :
  trunning s → tc_freed (ts_chan s) = false →
  let c := ts_chan s in
  ∃ l, q_repr (tc_buffer c) l ∧ Z.of_nat (length l) ≤ tc_capacity c ∧
    pushed (tc_log c) = popped (tc_log c) ++ l.
Proof.
  intros [[l []]|[]]%trunning_STInv Hf c; [by exists l|congruence].
Qed.

Lemma thread_channel_fifo_witness :
  let c := ts_chan (tdemo_state tdemo_ops) in
  ∃ l, q_repr (tc_buffer c) l ∧ Z.of_nat (length l) ≤ tc_capacity c ∧
    pushed (tc_log c) = popped (tc_log c) ++ l.
Proof. apply thread_channel_fifo; [tdemo_runs|vm_compute; reflexivity]. Defined.

(** C33 Persistent copies are neither leaked nor released twice: every copy that a
    sender made has been released exactly once, or is in the buffer, or is held
    by a sender in progress; once the channel is freed all of them have been
    released. *)
Theorem thread_channel_copies_conserved {V Q} `{!FifoBuffer Q V} `{!FifoCtor Q V}
    (s : tsys (V := V) (Q := Q)) :
  trunning s →
  let c := ts_chan s in
  if tc_freed c then transferred (tc_log c) ≡ₚ released (tc_log c) ∧ ts_calls s = ∅
  else ∃ l, q_repr (tc_buffer c) l ∧
    transferred (tc_log c) ≡ₚ released (tc_log c) ++ l ++ held (ts_calls s).
Proof.
  intros [[l []]|[]]%trunning_STInv c; unfold c.
  - rewrite ti_alive. by exists l.
  - by rewrite fr_freed.
Qed.

Lemma thread_channel_copies_conserved_witness :
  let s := tdemo_state [TSend 1 7 true; TStep 1; TCloseOwned; TDispose] in
  if tc_freed (ts_chan s) then transferred (tc_log (ts_chan s)) ≡ₚ released (tc_log (ts_chan s)) ∧ ts_calls s = ∅
  else ∃ l, q_repr (tc_buffer (ts_chan s)) l ∧
    transferred (tc_log (ts_chan s)) ≡ₚ released (tc_log (ts_chan s)) ++ l ++ held (ts_calls s).
Proof. intros s. apply (thread_channel_copies_conserved s). tdemo_runs. Defined.

(** ** Outcomes *)

(** What [thread_channel_send_ex] does at [retry]: on a closed channel it throws
    and leaves the buffer alone; with room it appends the value and returns true;
    on a full buffer it registers a trigger and waits. *)
Theorem thread_send_outcome {V Q} `{!FifoBuffer Q V} `{!FifoCtor Q V}
    (s : tsys (V := V) (Q := Q)) id v ot :
  trunning s → ts_calls s !! id = Some (SendTry v ot) →
  ∃ l l' p c', q_repr (tc_buffer (ts_chan s)) l ∧ send_section v ot (ts_chan s) = Some (p, c') ∧
    q_repr (tc_buffer c') l' ∧ send_outcome_of (ts_chan s) l v p l'.
Proof.
  intros [[l HI]|[]]%trunning_STInv Hk; [|by rewrite fr_idle in Hk].
  destruct (proj1 (wp_run _ _ _) (send_section_spec _ _ _ _ _ _ HI Hk)) as (p & c' & Hrun & l' & HI' & Hout).
  exists l, l', p, c'. split_and!; [apply HI|done|apply HI'|done].
Qed.

Lemma thread_send_outcome_witness :
  let s := tdemo_state [TSend 1 7 true] in
  ∃ l l' p c', q_repr (tc_buffer (ts_chan s)) l ∧ send_section 7 None (ts_chan s) = Some (p, c') ∧
    q_repr (tc_buffer c') l' ∧ send_outcome_of (ts_chan s) l 7 p l'.
Proof. intros s. apply (thread_send_outcome s 1%nat); [tdemo_runs|vm_compute; reflexivity]. Defined.

(** What [thread_channel_receive] does at [retry]: it returns the oldest value
    of a non-empty buffer, also after the channel was closed; on an empty closed
    channel it throws (a [wait_only] caller gets false); otherwise it registers a
    trigger and waits. *)
Theorem thread_receive_outcome {V Q} `{!FifoBuffer Q V} `{!FifoCtor Q V}
    (s : tsys (V := V) (Q := Q)) id wait_only ot :
  trunning s → ts_calls s !! id = Some (RecvTry wait_only ot) →
  ∃ l l' p c', q_repr (tc_buffer (ts_chan s)) l ∧
    recv_section wait_only ot (ts_chan s) = Some (p, c') ∧
    q_repr (tc_buffer c') l' ∧ recv_outcome_of (ts_chan s) l wait_only p l'.
Proof.
  intros [[l HI]|[]]%trunning_STInv Hk; [|by rewrite fr_idle in Hk].
  destruct (proj1 (wp_run _ _ _) (recv_section_spec _ _ _ _ _ _ HI Hk)) as (p & c' & Hrun & l' & HI' & Hout).
  exists l, l', p, c'. split_and!; [apply HI|done|apply HI'|done].
Qed.

Lemma thread_receive_outcome_witness :
  let s := tdemo_state [TSend 1 7 true; TStep 1; TClose; TRecv 0 false] in
  ∃ l l' p c', q_repr (tc_buffer (ts_chan s)) l ∧ recv_section false None (ts_chan s) = Some (p, c') ∧
    q_repr (tc_buffer c') l' ∧ recv_outcome_of (ts_chan s) l false p l'.
Proof. intros s. apply (thread_receive_outcome s 0%nat); [tdemo_runs|vm_compute; reflexivity]. Defined.

(** ** Where the code differs from what it means *)

(** The largest capacity that the constructor accepts cannot be built: for
    [INT32_MAX] the sum [capacity + 1] wraps in [int32_t], and the converted size
    is one for which the rounding loop of [circular_buffer_ctor] never ends. *)
Theorem thread_channel_max_capacity_diverges (alloc0 : allocator_t) :
  i32 (INT32_MAX + 1) = - 2 ^ 31 ∧
  (∀ fuel, round_up_loop fuel 1 (u64 (i32 (INT32_MAX + 1))) = None) ∧
  thread_channel_construct (V := Z) (zeroed alloc0) INT32_MAX = None.
Proof.
  split; [done|]. split; [|vm_compute; reflexivity].
  intros fuel. apply round_up_loop_diverges; [done|]. right. exists 0. split; [lia|done].
Qed.

(** The destructor of a wrapper object takes no trigger out of the tables: it
    looks for the address of the wrapper, but the tables are keyed by the
    addresses of the triggers. *)
Theorem dtor_object_unregisters_nothing {V Q} `{!FifoBuffer Q V} `{!FifoCtor Q V}
    (s : tsys (V := V) (Q := Q)) obj :
  trunning s → tc_freed (ts_chan s) = false →
  async_thread_channel_dtor_object obj (ts_chan s) = Some (tt, ts_chan s).
Proof.
  intros [[l HI]|[]]%trunning_STInv Hf; [|congruence].
  destruct (proj1 (wp_run _ _ _) (dtor_object_spec _ _ _ obj HI)) as ([] & c' & Hrun & ->). done.
Qed.

Lemma dtor_object_unregisters_nothing_witness :
  let s := tdemo_state tdemo_ops in
  async_thread_channel_dtor_object 0 (ts_chan s) = Some (tt, ts_chan s).
Proof. intros s. apply dtor_object_unregisters_nothing; [tdemo_runs|vm_compute; reflexivity]. Defined.
