(* ===== verification/Context.v ===== *)
(** * Contexts: [src/context.c] and [src/context.h]

    A context is a key-value store owned by a scope.  Keys are strings or objects;
    an object is used by its handle, and kept alive by a second table.  A lookup
    with parents walks the chain of parent scopes and skips the scopes that have
    no context.

    The scopes are here a table by identifier with the parent and the context of
    each, which is what [context.c] reads of them; [scope_forest] is the property
    of scope creation the walk relies on: the parent of a scope is older. *)

From S2P Require Import Prelude.
From stdpp Require Import strings.

(** A key as the methods receive it. *)
Inductive key := KString (s : string) | KObject (handle : Z) | KOther.

(** The index of a HashTable: a string key or an integer. *)
Definition index : Type := string + Z.

Record async_context_t (V : Type) := mk_context {
  ctx_values : gmap index V;
  ctx_keys : gmap Z key;
  ctx_scope : option nat
}.
Arguments mk_context {V}. Arguments ctx_values {V} _. Arguments ctx_keys {V} _.
Arguments ctx_scope {V} _.

(** What [context.c] reads of a scope. *)
Record scope_view := mk_scope_view { parent_scope : option nat; scope_context : option nat }.

Inductive context_error :=
| ErrBadKey                      (* "Context key must be a string or an object" *)
| ErrKeyType                     (* the argument type error of the methods *)
| ErrMissingKey (k : key)
| ErrKeyExists.

Section operations.
Context {V : Type}.
Implicit Types (c : async_context_t V) (k : key) (v : V).

Definition index_of k : option index :=
  match k with KString s => Some (inl s) | KObject h => Some (inr h) | KOther => None end.

(** The result of a lookup: the value stored in [result] ([None] is null), and
    whether the error about the key was thrown. *)
Definition async_context_find_local c k : option V * bool :=
  match k with
  | KString s => (ctx_values c !! inl s, false)
  | KObject h => (ctx_values c !! inr h, false)
  | KOther => (None, true)
  end.

Definition async_context_has_local c k : bool * bool :=
  match k with
  | KString s => (bool_decide (is_Some (ctx_values c !! inl s)), false)
  | KObject h => (bool_decide (is_Some (ctx_values c !! inr h)), false)
  | KOther => (false, true)
  end.

Definition async_context_set c k v : async_context_t V * option context_error :=
  match k with
  | KString s => (mk_context (<[inl s := v]> (ctx_values c)) (ctx_keys c) (ctx_scope c), None)
  | KObject h =>
    (mk_context (<[inr h := v]> (ctx_values c)) (<[h := k]> (ctx_keys c)) (ctx_scope c), None)
  | KOther => (c, Some ErrBadKey)
  end.

Definition async_context_unset c k : bool * async_context_t V * option context_error :=
  match k with
  | KString s =>
    (bool_decide (is_Some (ctx_values c !! inl s)),
     mk_context (delete (inl s) (ctx_values c)) (ctx_keys c) (ctx_scope c), None)
  | KObject h =>
    let deleted := bool_decide (is_Some (ctx_values c !! inr h)) in
    (deleted, mk_context (delete (inr h) (ctx_values c))
       (if deleted then delete h (ctx_keys c) else ctx_keys c) (ctx_scope c), None)
  | KOther => (false, c, Some ErrBadKey)
  end.

Definition async_context_new : async_context_t V := mk_context ∅ ∅ None.

(** ** Lookup along the scopes *)

Record world := mk_world {
  w_scopes : gmap nat scope_view;
  w_contexts : gmap nat (async_context_t V)
}.

(** The loop over [scope->parent_scope]; a dangling reference is undefined. *)
Fixpoint find_parents (fuel : nat) (w : world) (scope : option nat) k : option (option V * bool) :=
  match fuel with
  | O => None
  | S fuel =>
    match scope with
    | None => Some (None, false)
    | Some s =>
      sv ← w_scopes w !! s;
      match scope_context sv with
      | Some ci =>
        c ← w_contexts w !! ci;
        match async_context_find_local c k with
        | (Some v, e) => Some (Some v, e)
        | (None, e) => '(r, e') ← find_parents fuel w (parent_scope sv) k; Some (r, e || e')
        end
      | None => find_parents fuel w (parent_scope sv) k
      end
    end
  end.

(** The fuel is one more than the number of scopes. *)
Definition async_context_find (w : world) (ci : nat) k (include_parent : bool) : option (option V * bool) :=
  c ← w_contexts w !! ci;
  match async_context_find_local c k with
  | (Some v, e) => Some (Some v, e)
  | (None, e) =>
    if negb include_parent then Some (None, e)
    else match ctx_scope c with
         | None => Some (None, e)
         | Some s =>
           sv ← w_scopes w !! s;
           '(r, e') ← find_parents (S (size (w_scopes w))) w (parent_scope sv) k; Some (r, e || e')
         end
  end.

Definition async_context_has (w : world) (ci : nat) k (include_parent : bool) : option bool :=
  '(r, _) ← async_context_find w ci k include_parent; Some (bool_decide (is_Some r)).

(** ** The methods of [Async\Context] *)

(** [VALIDATE_CONTEXT_KEY]. *)
Definition valid_key k : bool := match k with KOther => false | _ => true end.

Definition context_throw_missing_key k : context_error := ErrMissingKey k.

(** The outcome of a reading method; [None] is undefined behaviour. *)
Definition method_find w ci k : option (context_error + option V) :=
  if negb (valid_key k) then Some (inl ErrKeyType)
  else '(r, _) ← async_context_find w ci k true; Some (inr r).

Definition method_get w ci k : option (context_error + V) :=
  if negb (valid_key k) then Some (inl ErrKeyType)
  else '(r, _) ← async_context_find w ci k true;
       Some (match r with Some v => inr v | None => inl (context_throw_missing_key k) end).

Definition method_has w ci k : option (context_error + bool) :=
  if negb (valid_key k) then Some (inl ErrKeyType)
  else b ← async_context_has w ci k true; Some (inr b).

Definition method_findLocal c k : context_error + option V :=
  if negb (valid_key k) then inl ErrKeyType else inr (async_context_find_local c k).1.

Definition method_getLocal c k : context_error + V :=
  if negb (valid_key k) then inl ErrKeyType
  else match (async_context_find_local c k).1 with
       | Some v => inr v
       | None => inl (context_throw_missing_key k)
       end.

Definition method_hasLocal c k : context_error + bool :=
  if negb (valid_key k) then inl ErrKeyType else inr (async_context_has_local c k).1.

Definition method_set c k v (replace : bool) : async_context_t V * option context_error :=
  if negb (valid_key k) then (c, Some ErrKeyType)
  else if negb replace && (async_context_has_local c k).1 then (c, Some ErrKeyExists)
  else async_context_set c k v.

Definition method_unset c k : async_context_t V * option context_error :=
  if negb (valid_key k) then (c, Some ErrKeyType)
  else let '(_, c', e) := async_context_unset c k in (c', e).

(** ** Well-formedness *)

(** The object keys kept alive are exactly those of the values. *)
Definition keys_alive c : Prop :=
  ∀ h, ctx_keys c !! h = (if decide (is_Some (ctx_values c !! inr h)) then Some (KObject h) else None).

(** The parent of a scope was created before it, and the references are not
    dangling. *)
Record scope_forest (w : world) : Prop := {
  sf_older : ∀ s sv p, w_scopes w !! s = Some sv → parent_scope sv = Some p → (p < s)%nat;
  sf_parent : ∀ s sv p, w_scopes w !! s = Some sv → parent_scope sv = Some p → is_Some (w_scopes w !! p);
  sf_context : ∀ s sv ci, w_scopes w !! s = Some sv → scope_context sv = Some ci →
    is_Some (w_contexts w !! ci);
  sf_scope : ∀ ci c s, w_contexts w !! ci = Some c → ctx_scope c = Some s → is_Some (w_scopes w !! s)
}.

(** *** The contexts in order of visibility, as a specification

    [Chain w scope l]: [l] are the contexts of [scope] and its ancestors. *)
Inductive Chain (w : world) : option nat → list (async_context_t V) → Prop :=
| chain_end : Chain w None []
| chain_gap s sv l : w_scopes w !! s = Some sv → scope_context sv = None →
  Chain w (parent_scope sv) l → Chain w (Some s) l
| chain_context s sv ci c l : w_scopes w !! s = Some sv → scope_context sv = Some ci →
  w_contexts w !! ci = Some c → Chain w (parent_scope sv) l → Chain w (Some s) (c :: l).

(** The first context that holds the key decides. *)
Fixpoint nearest (i : index) (l : list (async_context_t V)) : option V :=
  match l with
  | [] => None
  | c :: l => match ctx_values c !! i with Some v => Some v | None => nearest i l end
  end.

Lemma find_local_index c k i : index_of k = Some i →
  async_context_find_local c k = (ctx_values c !! i, false).
Proof. by destruct k; intros [= <-]. Qed.

(** How many scopes are not younger; it bounds the length of the walk. *)
Definition rank (w : world) (scope : option nat) : nat :=
  match scope with
  | Some s => size (filter (λ x, (x ≤ s)%nat) (dom (w_scopes w)))
  | None => 0
  end.

Lemma rank_parent w s sv : scope_forest w → w_scopes w !! s = Some sv →
  (rank w (parent_scope sv) < rank w (Some s))%nat.
Proof.
  intros Hw Hs. assert (s ∈ filter (λ x, (x ≤ s)%nat) (dom (w_scopes w))) as Hin.
  { apply elem_of_filter. split; [done|]. by eapply elem_of_dom_2. }
  destruct (parent_scope sv) as [p|] eqn:Hp; cbn.
  - pose proof (sf_older _ Hw _ _ _ Hs Hp). apply subset_size. split.
    + intros x [Hx Hd]%elem_of_filter. apply elem_of_filter. split; [lia|done].
    + intros Hsub. specialize (Hsub s Hin). apply elem_of_filter in Hsub. lia.
  - apply Nat.neq_0_lt_0. intros E%size_empty_inv. by apply E, not_elem_of_empty in Hin.
Qed.

Lemma rank_bound w scope : (rank w scope ≤ size (w_scopes w))%nat.
Proof.
  destruct scope as [s|]; cbn; [|lia]. rewrite <- size_dom. apply subseteq_size.
  intros x [_ Hx]%elem_of_filter. done.
Qed.

Lemma find_parents_chain w k i scope l fuel : index_of k = Some i → Chain w scope l →
  (rank w scope < fuel)%nat → scope_forest w →
  find_parents fuel w scope k = Some (nearest i l, false).
Proof.
  intros Hi HC. revert fuel. induction HC as [|s sv l Hs Hc HC IH|s sv ci c l Hs Hc Hci HC IH];
    intros fuel Hf Hw; (destruct fuel as [|fuel]; [lia|]); cbn [find_parents]; [done|..];
    pose proof (rank_parent _ _ _ Hw Hs) as Hr.
  - rewrite Hs. cbn. rewrite Hc. apply IH; [lia|done].
  - rewrite Hs. cbn. rewrite Hc, Hci. cbn. rewrite (find_local_index _ _ _ Hi).
    destruct (ctx_values c !! i); [done|]. rewrite IH by (done || lia). done.
Qed.

(** Every scope of a forest has its chain. *)
Lemma chain_exists w : scope_forest w → ∀ s, is_Some (w_scopes w !! s) → ∃ l, Chain w (Some s) l.
Proof.
  intros Hw s. induction (lt_wf s) as [s _ IH]. intros [sv Hs].
  assert (∃ l, Chain w (parent_scope sv) l) as [l Hl].
  { destruct (parent_scope sv) as [p|] eqn:Hp; [|by exists []; constructor].
    apply IH; [by eapply sf_older|by eapply sf_parent]. }
  destruct (scope_context sv) as [ci|] eqn:Hc.
  - destruct (sf_context _ Hw _ _ _ Hs Hc) as [c Hci]. exists (c :: l). by econstructor.
  - exists l. by eapply chain_gap.
Qed.

Lemma find_chain w ci c k i : scope_forest w → w_contexts w !! ci = Some c → index_of k = Some i →
  ∃ l, match ctx_scope c with
       | Some s => ∃ sv, w_scopes w !! s = Some sv ∧ Chain w (parent_scope sv) l
       | None => l = []
       end ∧ async_context_find w ci k true = Some (nearest i (c :: l), false).
Proof.
  intros Hw Hc Hi. unfold async_context_find. rewrite Hc. cbn [mbind option_bind negb].
  rewrite (find_local_index _ _ _ Hi). destruct (ctx_scope c) as [s|] eqn:Hs.
  - destruct (sf_scope _ Hw _ _ _ Hc Hs) as [sv Hsv].
    assert (∃ l, Chain w (parent_scope sv) l) as [l Hl].
    { destruct (parent_scope sv) as [p|] eqn:Hp; [|by exists []; constructor].
      apply chain_exists; [done|by eapply sf_parent]. }
    exists l. split; [by eauto|]. cbn [nearest]. destruct (ctx_values c !! i); [done|]. rewrite Hsv. cbn [mbind option_bind].
    rewrite (find_parents_chain w k i (parent_scope sv) l) by (done || pose proof (rank_bound w (parent_scope sv)); lia).
    done.
  - exists []. split; [done|]. cbn. by destruct (ctx_values c !! i).
Qed.

Lemma set_keys_alive c k v : keys_alive c → keys_alive (async_context_set c k v).1.
Proof.
  intros Hc h. destruct k as [s|h'|]; cbn; [|destruct (decide (h = h')) as [->|Hne]|done].
  - rewrite lookup_insert_ne by done. apply Hc.
  - rewrite !lookup_insert_eq, decide_True by done. done.
  - rewrite !lookup_insert_ne by congruence. apply Hc.
Qed.
Lemma unset_keys_alive c k : keys_alive c → keys_alive (async_context_unset c k).1.2.
Proof.
  intros Hc h. destruct k as [s|h'|]; cbn; [|destruct (decide (h = h')) as [->|Hne]|done].
  - rewrite lookup_delete_ne by done. apply Hc.
  - rewrite lookup_delete_eq, decide_False by (by intros [? ?]). case_bool_decide as E; [apply lookup_delete_eq|].
    rewrite Hc, decide_False; done.
  - rewrite (lookup_delete_ne (ctx_values c)) by congruence. rewrite <- (Hc h).
    case_bool_decide; [by rewrite lookup_delete_ne|done].
Qed.

(** The states of a context under its methods. *)
Inductive context_reachable : async_context_t V → Prop :=
| cr_new : context_reachable async_context_new
| cr_scope c s : context_reachable c →
  context_reachable (mk_context (ctx_values c) (ctx_keys c) s)
| cr_set c k v replace : context_reachable c → context_reachable (method_set c k v replace).1
| cr_unset c k : context_reachable c → context_reachable (method_unset c k).1.

Lemma reachable_keys_alive c : context_reachable c → keys_alive c.
Proof.
  induction 1 as [|c s _ IH|c k v replace _ IH|c k _ IH]; [done|done|..].
  - unfold method_set. destruct (negb (valid_key k)); [done|]. destruct (_ && _); [done|].
    by apply set_keys_alive.
  - unfold method_unset. destruct (negb (valid_key k)); [done|].
    pose proof (unset_keys_alive c k IH). by destruct (async_context_unset c k) as [[? ?] ?].
Qed.
End operations.

(** ** Properties *)

(** C35 A lookup with parents terminates and gives the value of the nearest context
    that holds the key: the context itself, then the contexts of the scopes above
    it in order, where a scope without a context is skipped and does not end the
    search. *)
Theorem context_find_nearest {V} (w : world (V := V)) (ci : nat) (c : async_context_t V) (k : key) (i : index) :
  scope_forest w → w_contexts w !! ci = Some c → index_of k = Some i →
  ∃ l, match ctx_scope c with
       | Some s => ∃ sv, w_scopes w !! s = Some sv ∧ Chain w (parent_scope sv) l
       | None => l = []
       end ∧
    method_find w ci k = Some (inr (nearest i (c :: l))) ∧
    method_has w ci k = Some (inr (bool_decide (is_Some (nearest i (c :: l))))) ∧
    method_get w ci k = Some (match nearest i (c :: l) with
                              | Some v => inr v
                              | None => inl (ErrMissingKey k)
                              end).
Proof.
  intros Hw Hc Hi. destruct (find_chain w ci c k i Hw Hc Hi) as (l & Hl & Hf). exists l. split; [done|].
  assert (valid_key k = true) as Hv by by destruct k.
  unfold method_find, method_has, method_get, async_context_has. rewrite Hv, Hf. done.
Qed.

(** Three nested scopes, the middle one without a context. *)
Definition demo_world : world (V := Z) := mk_world
  (<[2%nat := mk_scope_view (Some 1%nat) (Some 20%nat)]>
   (<[1%nat := mk_scope_view (Some 0%nat) None]>
    (<[0%nat := mk_scope_view None (Some 10%nat)]> ∅)))
  (<[20%nat := mk_context ∅ ∅ (Some 2%nat)]>
   (<[10%nat := mk_context {[ inl "user"%string := 7%Z ]} ∅ (Some 0%nat)]> ∅)).

Lemma demo_world_forest : scope_forest demo_world.
Proof.
  assert (∀ s sv, w_scopes demo_world !! s = Some sv →
    s = 0%nat ∧ sv = mk_scope_view None (Some 10%nat) ∨ s = 1%nat ∧ sv = mk_scope_view (Some 0%nat) None ∨
    s = 2%nat ∧ sv = mk_scope_view (Some 1%nat) (Some 20%nat)) as Hs.
  { intros s sv. unfold demo_world. cbn. rewrite !lookup_insert_Some, lookup_empty. naive_solver. }
  split.
  - intros s sv p Hsv Hp. destruct (Hs _ _ Hsv) as [[-> ->]|[[-> ->]|[-> ->]]]; simplify_eq/=; lia.
  - intros s sv p Hsv Hp. destruct (Hs _ _ Hsv) as [[-> ->]|[[-> ->]|[-> ->]]]; simplify_eq/=; by eexists.
  - intros s sv ci Hsv Hc. destruct (Hs _ _ Hsv) as [[-> ->]|[[-> ->]|[-> ->]]]; simplify_eq/=; by eexists.
  - intros ci c s Hc Hsc. unfold demo_world in Hc. cbn in Hc.
    rewrite !lookup_insert_Some, lookup_empty in Hc. destruct Hc as [[<- <-]|[_ [[<- <-]|[_ ?]]]]; [| |done];
      simplify_eq/=; by eexists.
Qed.

Lemma context_find_nearest_witness :
  ∃ l, (∃ sv, w_scopes demo_world !! 2%nat = Some sv ∧ Chain demo_world (parent_scope sv) l) ∧
    method_find demo_world 20 (KString "user") = Some (inr (nearest (inl "user"%string) (mk_context ∅ ∅ (Some 2%nat) :: l))) ∧
    method_has demo_world 20 (KString "user") =
      Some (inr (bool_decide (is_Some (nearest (inl "user"%string) (mk_context ∅ ∅ (Some 2%nat) :: l))))) ∧
    method_get demo_world 20 (KString "user") =
      Some (match nearest (inl "user"%string) (mk_context ∅ ∅ (Some 2%nat) :: l) with
            | Some v => inr v
            | None => inl (ErrMissingKey (KString "user"))
            end).
Proof.
  apply (context_find_nearest demo_world 20 (mk_context ∅ ∅ (Some 2%nat)) (KString "user") (inl "user"%string)
    demo_world_forest); reflexivity.
Defined.

(** The value of another key is untouched. *)
Definition same_elsewhere {V} (i : index) (c c' : async_context_t V) : Prop :=
  ∀ k j, index_of k = Some j → j ≠ i → async_context_find_local c' k = async_context_find_local c k.

(** C36 Round trip of a context: what [set] stores is what [findLocal] gives back and
    [hasLocal] reports, and other keys are untouched; without [replace] an existing
    key is an error that changes nothing; [unset] after it removes the key, and for
    a key that was absent restores the context; a key of another type is refused
    by every method. *)
Theorem context_roundtrip {V} (c : async_context_t V) (k : key) (v : V) (replace : bool) :
  keys_alive c →
  match index_of k with
  | None => method_set c k v replace = (c, Some ErrKeyType) ∧ method_unset c k = (c, Some ErrKeyType) ∧
      method_findLocal c k = inl ErrKeyType
  | Some i =>
    if negb replace && bool_decide (is_Some (ctx_values c !! i)) then
      method_set c k v replace = (c, Some ErrKeyExists)
    else
      let c' := (method_set c k v replace).1 in
      (method_set c k v replace).2 = None ∧
      method_findLocal c' k = inr (Some v) ∧ method_hasLocal c' k = inr true ∧ same_elsewhere i c c' ∧
      method_findLocal (method_unset c' k).1 k = inr None ∧ same_elsewhere i c (method_unset c' k).1 ∧
      (ctx_values c !! i = None → (method_unset c' k).1 = c)
  end.
Proof.
  intros Hk. destruct k as [s|h|]; cbn; [| |done].
  - unfold method_set. cbn. destruct (negb replace && _); [done|]. cbn.
    split_and!; [done|by rewrite lookup_insert_eq|by rewrite lookup_insert_eq| | | |].
    + intros [s'|h'|] j [= <-] Hj; cbn; by rewrite lookup_insert_ne by congruence.
    + unfold method_findLocal. cbn. by rewrite lookup_delete_eq.
    + intros [s'|h'|] j [= <-] Hj; cbn; by rewrite lookup_delete_ne, lookup_insert_ne by congruence.
    + intros Hn. rewrite delete_insert_id by done. by destruct c.
  - unfold method_set. cbn. destruct (negb replace && _); [done|]. cbn.
    split_and!; [done|by rewrite lookup_insert_eq|by rewrite lookup_insert_eq| | | |].
    + intros [s'|h'|] j [= <-] Hj; cbn; by rewrite lookup_insert_ne by congruence.
    + unfold method_findLocal. cbn. by rewrite lookup_delete_eq.
    + intros [s'|h'|] j [= <-] Hj; cbn; by rewrite lookup_delete_ne, lookup_insert_ne by congruence.
    + intros Hn. rewrite lookup_insert_eq, bool_decide_eq_true_2 by done.
      rewrite (delete_insert_id (ctx_values c)) by done.
      rewrite (delete_insert_id (ctx_keys c)); [by destruct c|]. rewrite Hk.
      destruct (decide _) as [[x E]|]; [by pose proof (eq_trans (eq_sym E) Hn)|done].
Qed.

Lemma context_roundtrip_witness :
  method_findLocal (method_set async_context_new (KObject 3) 5%Z false).1 (KObject 3) = inr (Some 5%Z).
Proof. apply (context_roundtrip async_context_new (KObject 3) 5%Z false). done. Defined.

(** C37 The table of object keys holds exactly the objects that the values are keyed
    by, in every context the methods can produce: no key object is released while
    its handle is in use, and none is kept after its value was unset. *)
Theorem context_keys_alive {V} (c : async_context_t V) (h : Z) :
  context_reachable c →
  (ctx_keys c !! h = Some (KObject h) ↔ is_Some (ctx_values c !! inr h)) ∧
  (ctx_keys c !! h = None ↔ ctx_values c !! inr h = None).
Proof.
  intros Hc%reachable_keys_alive. rewrite Hc.
  destruct (ctx_values c !! inr h) as [v|]; [rewrite decide_True by done|rewrite decide_False by by intros [? ?]].
  - split; split; done.
  - split; split; done.
Qed.

Lemma context_keys_alive_witness :
  let c := (method_unset (method_set async_context_new (KObject 3) 5%Z false).1 (KObject 3)).1 in
  (ctx_keys c !! 3%Z = Some (KObject 3) ↔ is_Some (ctx_values c !! inr 3%Z)) ∧
  (ctx_keys c !! 3%Z = None ↔ ctx_values c !! inr 3%Z = None).
Proof. apply context_keys_alive. do 3 constructor. Defined.
