(* ===== verification/Pool.v ===== *)
(** * The resource pool: [src/pool.c] and [src/pool.h]

    A pool lends at most [max_size] resources.  Its hooks (factory, destructor,
    healthcheck, beforeAcquire, beforeRelease and the strategy of the circuit
    breaker) are PHP code: they may suspend the coroutine that called them, so
    other calls on the same pool run before they return.  A C function that calls
    a hook is therefore split at the call: [pcall] records which function is in
    which hook with the local variables it still needs, and [PHook] is the return
    of that hook with the answer it gave.  [pool_wait_for_resource] is split at
    [ZEND_ASYNC_SUSPEND] in the same way.  A hook that is not set is a step too:
    the answer is then ignored, as the C code returns its default.

    The resources, the answers of the hooks and the moments of resumption are
    parameters of the steps.  Reference counts and the garbage collector's walk
    are not modelled; the waiters' vector is a list of waiter identifiers. *)

From S2P Require Import Prelude CircularBuffer.

Local Open Scope Z_scope.
Local Open Scope c_scope.

(** ** Data *)

Inductive zend_async_circuit_state_t :=
| ZEND_ASYNC_CIRCUIT_STATE_ACTIVE
| ZEND_ASYNC_CIRCUIT_STATE_INACTIVE
| ZEND_ASYNC_CIRCUIT_STATE_RECOVERING.

#[export] Instance circuit_state_eq_dec : EqDecision zend_async_circuit_state_t.
Proof. solve_decision. Defined.

(** Exceptions: a cancellation or exit, the pool's own, and any other. *)
Inductive exception :=
| ExCancellation
| ExExit
| ExPoolClosed
| ExServiceUnavailable
| ExNotAcquired
| ExCreateFailed
| ExOther.

Definition pool_exception_ends_coroutine (e : exception) : bool :=
  match e with ExCancellation | ExExit => true | _ => false end.

(** A hook of the pool: not set, a C function or a PHP callable
    ([handler_flags] and the union it selects). *)
Inductive handler := HNull | HInternal | HFcall.

Definition handler_set (h : handler) : bool := match h with HNull => false | _ => true end.

(** What the called code answered: success of the call with a value other than
    false, the value (of the factory), the exception left pending. *)
Record answer (V : Type) := mk_answer { a_ok : bool; a_value : V; a_exn : option exception }.
Arguments mk_answer {V}. Arguments a_ok {V} _. Arguments a_value {V} _. Arguments a_exn {V} _.

Record async_pool_t (Q V : Type) := mk_pool {
  p_closed : bool;
  circuit_state : zend_async_circuit_state_t;
  h_factory : handler;
  h_destructor : handler;
  h_healthcheck : handler;
  h_before_acquire : handler;
  h_before_release : handler;
  h_strategy : handler;
  min_size : Z;
  max_size : Z;
  idle : Q;
  active_count : Z;
  checked_out : gset Z;
  reserved_count : Z;
  pool_waiters : list nat;
  reserved : gset nat;            (* the waiters whose [reserved] is set *)
  next_pool_waiter : nat;
  healthcheck_timer : bool;
  healthcheck_interval_ms : Z;
  scalars_out : Z;                (* ghost: scalar resources lent and not given back *)
  resumed : list (nat * option exception)  (* ghost: the waiters' callbacks invoked *)
}.
Arguments mk_pool {Q V}.
Arguments p_closed {Q V} _. Arguments circuit_state {Q V} _. Arguments h_factory {Q V} _.
Arguments h_destructor {Q V} _. Arguments h_healthcheck {Q V} _.
Arguments h_before_acquire {Q V} _. Arguments h_before_release {Q V} _.
Arguments h_strategy {Q V} _. Arguments min_size {Q V} _. Arguments max_size {Q V} _.
Arguments idle {Q V} _. Arguments active_count {Q V} _. Arguments checked_out {Q V} _.
Arguments reserved_count {Q V} _. Arguments pool_waiters {Q V} _. Arguments reserved {Q V} _.
Arguments next_pool_waiter {Q V} _. Arguments healthcheck_timer {Q V} _.
Arguments healthcheck_interval_ms {Q V} _. Arguments scalars_out {Q V} _.
Arguments resumed {Q V} _.

#[export] Instance async_pool_eta Q V : Eta (async_pool_t Q V) := λ p,
  mk_pool (p_closed p) (circuit_state p) (h_factory p) (h_destructor p) (h_healthcheck p)
    (h_before_acquire p) (h_before_release p) (h_strategy p) (min_size p) (max_size p) (idle p)
    (active_count p) (checked_out p) (reserved_count p) (pool_waiters p) (reserved p)
    (next_pool_waiter p) (healthcheck_timer p) (healthcheck_interval_ms p) (scalars_out p)
    (resumed p).

(** The handle of an object resource; [None] for any other value. *)
Class Resource (V : Type) := obj_handle : V → option Z.

Section operations.
Context {V Q : Type} `{!FifoBuffer Q V, !Resource V}.
Implicit Types (p : async_pool_t Q V) (r : V) (eg : option exception).

Definition set_p_closed (x : bool) p : async_pool_t Q V := ltac:(record_set p (@p_closed Q V) x).
Definition set_circuit_state (x : zend_async_circuit_state_t) p : async_pool_t Q V :=
  ltac:(record_set p (@circuit_state Q V) x).
Definition set_h_strategy (x : handler) p : async_pool_t Q V := ltac:(record_set p (@h_strategy Q V) x).
Definition set_idle (x : Q) p : async_pool_t Q V := ltac:(record_set p (@idle Q V) x).
Definition set_active_count (x : Z) p : async_pool_t Q V := ltac:(record_set p (@active_count Q V) x).
Definition set_checked_out (x : gset Z) p : async_pool_t Q V :=
  ltac:(record_set p (@checked_out Q V) x).
Definition set_reserved_count (x : Z) p : async_pool_t Q V :=
  ltac:(record_set p (@reserved_count Q V) x).
Definition set_pool_waiters (x : list nat) p : async_pool_t Q V :=
  ltac:(record_set p (@pool_waiters Q V) x).
Definition set_reserved (x : gset nat) p : async_pool_t Q V := ltac:(record_set p (@reserved Q V) x).
Definition set_next_pool_waiter (x : nat) p : async_pool_t Q V :=
  ltac:(record_set p (@next_pool_waiter Q V) x).
Definition set_healthcheck_timer (x : bool) p : async_pool_t Q V :=
  ltac:(record_set p (@healthcheck_timer Q V) x).
Definition set_scalars_out (x : Z) p : async_pool_t Q V := ltac:(record_set p (@scalars_out Q V) x).
Definition set_resumed (x : list (nat * option exception)) p : async_pool_t Q V :=
  ltac:(record_set p (@resumed Q V) x).

Local Abbreviation PM := (M (async_pool_t Q V)).

(** ** The counters *)
Definition ASYNC_POOL_TOTAL p : Z := u64 (q_count (idle p) + active_count p).
Definition ASYNC_POOL_UNRESERVED p : Z := u32 (max_size p - active_count p - reserved_count p).

Definition active_incr : PM unit := modify (λ p, set_active_count (u32 (active_count p + 1)) p).
Definition active_decr : PM unit := modify (λ p, set_active_count (u32 (active_count p - 1)) p).

(** ** Queue operations *)
Definition pool_queue_push (w : nat) : PM unit :=
  modify (λ p, set_pool_waiters (pool_waiters p ++ [w]) p).

Fixpoint queue_remove (w : nat) (queue : list nat) : bool * list nat :=
  match queue with
  | [] => (false, [])
  | w' :: queue =>
    if decide (w' = w) then (true, queue)
    else let '(found, rest) := queue_remove w queue in (found, w' :: rest)
  end.
Definition pool_queue_remove (w : nat) : PM bool :=
  p ← get;
  let '(found, rest) := queue_remove w (pool_waiters p) in
  modify (set_pool_waiters rest);; mret found.

Definition pool_queue_pop_last : PM (option nat) :=
  p ← get;
  match last (pool_waiters p) with
  | None => mret None
  | Some w => modify (λ p, set_pool_waiters (removelast (pool_waiters p)) p);; mret (Some w)
  end.

Fixpoint first_unreserved (res : gset nat) (queue : list nat) : option nat :=
  match queue with
  | [] => None
  | w :: queue => if decide (w ∈ res) then first_unreserved res queue else Some w
  end.
Definition pool_queue_first_unreserved p : option nat :=
  first_unreserved (reserved p) (pool_waiters p).

(** ** Resources and hooks

    [restore own parked] is [EG(exception)] after [zend_exception_restore_fast]:
    an exception of the hook's own, with the parked one chained to it, or the
    parked one. *)
Definition restore (own parked : option exception) : option exception :=
  match own with Some e => Some e | None => parked end.

(** The resource, if the factory gave one, and [EG(exception)]. *)
Definition pool_create_resource p (a : answer V) : option V * option exception :=
  match h_factory p with
  | HNull => (None, None)
  | HInternal => (if a_ok a then Some (a_value a) else None, a_exn a)
  | HFcall =>
    if negb (a_ok a) then (None, a_exn a)
    else match a_exn a with
         | Some e => (None, Some e)
         | None => (Some (a_value a), None)
         end
  end.

(** [EG(exception)] after the destructor and the release of the value, whose own
    destructor may throw even when the pool has none. *)
Definition pool_destroy_resource (a : answer V) eg : option exception := restore (a_exn a) eg.

Definition call_check (h : handler) (a : answer V) eg : bool * option exception :=
  match h with
  | HNull => (true, eg)
  | HInternal => (a_ok a, restore (a_exn a) eg)
  | HFcall =>
    match a_exn a with
    | Some e => (false, restore (if pool_exception_ends_coroutine e then Some e else None) eg)
    | None => (a_ok a, eg)
    end
  end.
Definition pool_call_before_acquire p := call_check (h_before_acquire p).
Definition pool_call_before_release p := call_check (h_before_release p).

Definition pool_strategy_report_success p (a : answer V) eg : option exception :=
  match h_strategy p with HInternal => restore (a_exn a) eg | _ => eg end.
Definition pool_strategy_report_failure p (a : answer V) eg : option exception :=
  match h_strategy p with HInternal => restore (a_exn a) eg | _ => eg end.

Definition pool_call_healthcheck p (a : answer V) eg : bool * option exception :=
  match h_healthcheck p with
  | HNull => (true, eg)
  | HInternal => (a_ok a, restore (a_exn a) eg)
  | HFcall => match a_exn a with Some _ => (false, None) | None => (a_ok a, eg) end
  end.

Definition pool_check_out r : PM unit :=
  match obj_handle r with
  | Some h => modify (λ p, set_checked_out (checked_out p ∪ {[h]}) p)
  | None => modify (λ p, set_scalars_out (scalars_out p + 1) p)
  end.

Definition pool_check_in r : PM bool :=
  p ← get;
  if active_count p =? 0 then mret false
  else match obj_handle r with
       | Some h =>
         if bool_decide (h ∈ checked_out p) then
           modify (set_checked_out (checked_out p ∖ {[h]}));; mret true
         else mret false
       | None => modify (set_scalars_out (scalars_out p - 1));; mret true
       end.

(** ** Waking *)

(** [waiter->callback.base.callback]: resumes the coroutine, with an exception or
    without. *)
Definition resume_waiter (w : nat) (e : option exception) : PM unit :=
  modify (λ p, set_resumed (resumed p ++ [(w, e)]) p).

Definition pool_wake_waiter : PM bool :=
  p ← get;
  match pool_queue_first_unreserved p with
  | None => mret false
  | Some w =>
    ZEND_ASSERT (bool_decide (w ∉ reserved p));;
    modify (set_reserved (reserved p ∪ {[w]}));;
    modify (λ p, set_reserved_count (u32 (reserved_count p + 1)) p);;
    resume_waiter w None;;
    mret true
  end.

Fixpoint wake_all_loop (fuel : nat) (e : exception) : PM unit :=
  match fuel with
  | O => undefined
  | S fuel =>
    w ← pool_queue_pop_last;
    match w with
    | None => mret tt
    | Some w => resume_waiter w (Some e);; wake_all_loop fuel e
    end
  end.
(** The fuel is one more than the length of the queue. *)
Definition pool_wake_all_with_exception (e : exception) : PM unit :=
  p ← get; wake_all_loop (S (length (pool_waiters p))) e.

(** ** Calls in progress

    Each constructor is a function inside one of its hooks, or parked. *)
Inductive pcall :=
| AcqWait (timeout_ms : Z) (waiter : nat)
| AcqBefore (timeout_ms : Z) (resource : V)            (* in beforeAcquire *)
| AcqDestroy (timeout_ms : Z) (eg : option exception)  (* destroying a refused resource *)
| AcqFactory (timeout_ms : Z)
| TryBefore (resource : V)
| TryDestroy (eg : option exception)
| TryFactory
| RelBefore (resource : V) (eg : option exception)     (* in beforeRelease *)
| RelFailure (resource : V) (eg : option exception)    (* in reportFailure *)
| RelSuccess (resource : V) (eg : option exception)    (* in reportSuccess *)
| RelDestroy (eg : option exception) (wake : bool)
| CloseDestroy (first parked : option exception)       (* draining idle *)
| HcCheck (todo : nat) (resource : V) (eg : option exception)
| HcDestroy (todo : nat) (stop : bool) (eg : option exception)
| HcFactory (todo : nat) (eg : option exception).

(** The result of a call: the C result, the value stored, [EG(exception)]. *)
Record presult := mk_presult { r_ok : bool; r_value : option V; r_exn : option exception }.

Definition pprogress : Type := presult + pcall.
Definition pfinish (ok : bool) (v : option V) eg : PM pprogress := mret (inl (mk_presult ok v eg)).
Definition pcontinue (k : pcall) : PM pprogress := mret (inr k).

(** [pool_wait_for_resource] up to [ZEND_ASYNC_SUSPEND]. *)
Definition pool_wait_for_resource (timeout_ms : Z) : PM pprogress :=
  p ← get;
  let w := next_pool_waiter p in
  modify (set_next_pool_waiter (S w));;
  pool_queue_push w;;
  pcontinue (AcqWait timeout_ms w).

(** ... and after it, with the exception the resumption left. *)
Definition wait_for_resource_resume (w : nat) eg : PM bool :=
  p ← get;
  let had_reservation := bool_decide (w ∈ reserved p) in
  pool_queue_remove w;;
  (if had_reservation then
     ZEND_ASSERT (0 <? reserved_count p);;
     modify (λ p, set_reserved_count (u32 (reserved_count p - 1)) p)
   else mret tt);;
  modify (λ p, set_reserved (reserved p ∖ {[w]}) p);;   (* the waiter is freed *)
  p ← get;
  (if had_reservation && bool_decide (eg ≠ None) && negb (p_closed p) then
     pool_wake_waiter;; mret tt
   else mret tt);;
  mret had_reservation.

(** ** Acquire *)

(** The label [give up]. *)
Definition acquire_giveup (has_reservation : bool) (e : exception) : PM pprogress :=
  (if has_reservation then pool_wake_waiter;; mret tt else mret tt);;
  pfinish false None (Some e).

(** The pop of the idle buffer; an UNDEF result would be used. *)
Definition take_idle : PM V := r ← zoom idle set_idle q_pop; of_option r.2.

(** [zend_async_pool_acquire] from [retry] up to a hook, the wait or a return. *)
Definition acquire_retry (timeout_ms : Z) (has_reservation : bool) : PM pprogress :=
  p ← get;
  if p_closed p then acquire_giveup has_reservation ExPoolClosed
  else if bool_decide (circuit_state p = ZEND_ASYNC_CIRCUIT_STATE_INACTIVE) then
    acquire_giveup has_reservation ExServiceUnavailable
  else
    let may_serve_self := has_reservation || (0 <? ASYNC_POOL_UNRESERVED p) in
    if negb (q_is_empty (idle p)) && may_serve_self then
      resource ← take_idle;
      active_incr;;
      pcontinue (AcqBefore timeout_ms resource)
    else if (u32 (ASYNC_POOL_TOTAL p) <? max_size p) && may_serve_self then
      active_incr;;
      pcontinue (AcqFactory timeout_ms)
    else pool_wait_for_resource timeout_ms.

Definition zend_async_pool_acquire (timeout_ms : Z) : PM pprogress := acquire_retry timeout_ms false.

Definition acquire_resume (timeout_ms : Z) (w : nat) eg : PM pprogress :=
  has_reservation ← wait_for_resource_resume w eg;
  match eg with
  | Some e => pfinish false None (Some e)
  | None => acquire_retry timeout_ms has_reservation
  end.

Definition acquire_checked (timeout_ms : Z) (resource : V) (a : answer V) : PM pprogress :=
  p ← get;
  let '(ok, eg) := pool_call_before_acquire p a None in
  if negb ok then
    active_decr;;
    pcontinue (AcqDestroy timeout_ms eg)
  else
    pool_check_out resource;;
    pfinish true (Some resource) eg.

Definition acquire_destroyed (timeout_ms : Z) eg (a : answer V) : PM pprogress :=
  match pool_destroy_resource a eg with
  | Some e => pool_wake_waiter;; pfinish false None (Some e)
  | None => acquire_retry timeout_ms false
  end.

Definition acquire_created (a : answer V) : PM pprogress :=
  p ← get;
  match pool_create_resource p a with
  | (Some resource, eg) => pool_check_out resource;; pfinish true (Some resource) eg
  | (None, eg) =>
    active_decr;;
    pool_wake_waiter;;
    match eg with
    | Some e => pfinish false None (Some e)
    | None => pfinish false None (Some ExCreateFailed)
    end
  end.

(** ** The non-blocking acquire *)
Definition zend_async_pool_try_acquire : PM pprogress :=
  p ← get;
  if p_closed p then pfinish false None None
  else if bool_decide (circuit_state p = ZEND_ASYNC_CIRCUIT_STATE_INACTIVE) then
    pfinish false None None
  else
    let may_serve_self := 0 <? ASYNC_POOL_UNRESERVED p in
    if negb (q_is_empty (idle p)) && may_serve_self then
      resource ← take_idle;
      active_incr;;
      pcontinue (TryBefore resource)
    else if (u32 (ASYNC_POOL_TOTAL p) <? max_size p) && may_serve_self then
      active_incr;;
      pcontinue TryFactory
    else pfinish false None None.

Definition try_acquire_checked (resource : V) (a : answer V) : PM pprogress :=
  p ← get;
  let '(ok, eg) := pool_call_before_acquire p a None in
  if negb ok then
    active_decr;;
    pcontinue (TryDestroy eg)
  else
    pool_check_out resource;;
    pfinish true (Some resource) eg.

Definition try_acquire_destroyed eg (a : answer V) : PM pprogress :=
  match pool_destroy_resource a eg with
  | Some e => pool_wake_waiter;; pfinish false None (Some e)
  | None => zend_async_pool_try_acquire
  end.

Definition try_acquire_created (a : answer V) : PM pprogress :=
  p ← get;
  match pool_create_resource p a with
  | (Some resource, eg) => pool_check_out resource;; pfinish true (Some resource) eg
  | (None, eg) =>
    active_decr;;
    pool_wake_waiter;;
    pfinish false None eg
  end.

(** ** Release; [eg] is an exception in flight when it is called. *)
Definition zend_async_pool_release (resource : V) eg : PM pprogress :=
  ok ← pool_check_in resource;
  if negb ok then pfinish false None (Some ExNotAcquired)
  else pcontinue (RelBefore resource eg).

Definition release_checked (resource : V) eg (a : answer V) : PM pprogress :=
  p ← get;
  let '(reusable, eg') := pool_call_before_release p a eg in
  active_decr;;
  if negb reusable then
    if match eg' with None => true | Some e => negb (pool_exception_ends_coroutine e) end then
      pcontinue (RelFailure resource eg')
    else pcontinue (RelDestroy eg' true)
  else pcontinue (RelSuccess resource eg').

Definition release_reported_failure eg (a : answer V) : PM pprogress :=
  p ← get; pcontinue (RelDestroy (pool_strategy_report_failure p a eg) true).

Definition release_destroyed eg (wake : bool) (a : answer V) : PM pprogress :=
  (if wake then pool_wake_waiter;; mret tt else mret tt);;
  pfinish true None (pool_destroy_resource a eg).

Definition release_reported_success (resource : V) eg (a : answer V) : PM pprogress :=
  p ← get;
  let eg' := pool_strategy_report_success p a eg in
  if p_closed p then pcontinue (RelDestroy eg' false)
  else
    zoom idle set_idle (q_push resource true);;
    pool_wake_waiter;;
    pfinish true None eg'.

(** ** Close *)
Definition pool_stop_healthcheck_timer : PM unit := modify (set_healthcheck_timer false).

(** The destroying loop, up to the next destructor. *)
Definition close_loop (first parked : option exception) : PM pprogress :=
  p ← get;
  if q_is_empty (idle p) then pfinish true None (restore first parked)
  else take_idle;; pcontinue (CloseDestroy first parked).

(** [engine_active]: [async_new_exception] gives an exception object. *)
Definition zend_async_pool_close (engine_active : bool) eg : PM pprogress :=
  p ← get;
  if p_closed p then pfinish true None eg
  else
    modify (set_p_closed true);;
    pool_stop_healthcheck_timer;;
    (if engine_active then pool_wake_all_with_exception ExPoolClosed else mret tt);;
    close_loop None eg.

Definition close_destroyed (first parked : option exception) (a : answer V) : PM pprogress :=
  close_loop (restore (pool_destroy_resource a None) first) parked.

(** ** Healthcheck *)
Definition healthcheck_end eg : PM pprogress := pool_wake_waiter;; pfinish true None eg.

(** The head of the loop, with [todo] iterations to go. *)
Definition healthcheck_next (todo : nat) eg : PM pprogress :=
  match todo with
  | O => healthcheck_end eg
  | S todo =>
    r ← zoom idle set_idle q_pop;
    match r with
    | (SUCCESS, Some resource) => active_incr;; pcontinue (HcCheck todo resource eg)
    | _ => healthcheck_end eg
    end
  end.

Definition pool_healthcheck_timer_callback : PM pprogress :=
  p ← get;
  if p_closed p then pfinish true None None
  else if negb (handler_set (h_healthcheck p)) then pfinish true None None
  else healthcheck_next (Z.to_nat (q_count (idle p))) None.

Definition healthcheck_checked (todo : nat) (resource : V) eg (a : answer V) : PM pprogress :=
  p ← get;
  let '(is_healthy, eg') := pool_call_healthcheck p a eg in
  active_decr;;
  if is_healthy then
    if p_closed p then pcontinue (HcDestroy todo true eg')
    else
      zoom idle set_idle (q_push resource true);;
      healthcheck_next todo eg'
  else pcontinue (HcDestroy todo false eg').

Definition healthcheck_destroyed (todo : nat) (stop : bool) eg (a : answer V) : PM pprogress :=
  let eg' := pool_destroy_resource a eg in
  if stop then healthcheck_end eg'
  else match eg' with
       | Some e => healthcheck_end (Some e)
       | None =>
         p ← get;
         if u32 (ASYNC_POOL_TOTAL p) <? min_size p then pcontinue (HcFactory todo None)
         else healthcheck_next todo None
       end.

Definition healthcheck_created (todo : nat) eg (a : answer V) : PM pprogress :=
  p ← get;
  match pool_create_resource p a with
  | (Some resource, eg') =>
    zoom idle set_idle (q_push resource true);;
    healthcheck_next todo (restore eg' eg)
  | (None, Some e) => healthcheck_end (Some e)
  | (None, None) => healthcheck_next todo eg
  end.

(** ** Construction *)

(** The pre-warming loop; [answers i] is the answer of the [i]-th factory call. *)
Fixpoint prewarm (n : nat) (i : nat) (answers : nat → answer V) : PM (option exception) :=
  match n with
  | O => mret None
  | S n =>
    p ← get;
    match pool_create_resource p (answers i) with
    | (Some resource, _) => zoom idle set_idle (q_push resource true);; prewarm n (S i) answers
    | (None, Some e) => mret (Some e)
    | (None, None) => prewarm n (S i) answers
    end
  end.

(** [timer_created]: the reactor gave a timer. *)
Definition pool_start_healthcheck_timer (timer_created : bool) : PM unit :=
  p ← get;
  if healthcheck_interval_ms p =? 0 then mret tt
  else if negb (handler_set (h_healthcheck p)) then mret tt
  else if negb timer_created then mret tt
  else modify (set_healthcheck_timer true).

(** [zend_async_pool_create] and [zend_async_pool_create_internal] differ in the
    kind of their handlers; [min_size], [max_size] and the interval are [uint32_t]. *)
Definition zend_async_pool_create `{!FifoCtor Q V} (buf0 : Q)
    (factory destructor healthcheck before_acquire before_release : handler)
    (min max interval : Z) (answers : nat → answer V) (timer_created : bool)
    : option (option exception * async_pool_t Q V) :=
  '(_, buf) ← q_ctor (if 0 <? min then min else 4) buf0;
  (e ← prewarm (Z.to_nat min) 0 answers;
   pool_start_healthcheck_timer timer_created;; mret e)
  (mk_pool false ZEND_ASYNC_CIRCUIT_STATE_ACTIVE factory destructor healthcheck before_acquire
    before_release HNull min max buf 0 ∅ 0 [] ∅ 0%nat false interval 0 []).

(** The argument errors of [__construct], by argument number. *)
Inductive construct_error := AlreadyInitialized | ArgumentError (n : Z).

(** [__construct]: [zend_long] arguments converted to [uint32_t]. *)
Definition pool_construct `{!FifoCtor Q V} (buf0 : Q) (initialized : bool)
    (destructor healthcheck before_acquire before_release : bool) (min max interval : Z)
    (answers : nat → answer V) (timer_created : bool)
    : option (construct_error + option exception * async_pool_t Q V) :=
  let fcall (b : bool) := if b then HFcall else HNull in
  if initialized then Some (inl AlreadyInitialized)
  else if min <? 0 then Some (inl (ArgumentError 6))
  else if max <? 1 then Some (inl (ArgumentError 7))
  else if max <? min then Some (inl (ArgumentError 6))
  else if interval <? 0 then Some (inl (ArgumentError 8))
  else inr <$> zend_async_pool_create buf0 HFcall (fcall destructor) (fcall healthcheck)
         (fcall before_acquire) (fcall before_release) (u32 min) (u32 max) (u32 interval)
         answers timer_created.

(** ** Statistics and the circuit breaker *)
Definition zend_async_pool_count p : Z := u32 (ASYNC_POOL_TOTAL p).
Definition zend_async_pool_idle_count p : Z := u32 (q_count (idle p)).
Definition zend_async_pool_active_count p : Z := active_count p.

Definition activate : PM unit := modify (set_circuit_state ZEND_ASYNC_CIRCUIT_STATE_ACTIVE).
Definition deactivate : PM unit := modify (set_circuit_state ZEND_ASYNC_CIRCUIT_STATE_INACTIVE).
Definition recover : PM unit := modify (set_circuit_state ZEND_ASYNC_CIRCUIT_STATE_RECOVERING).
Definition setCircuitBreakerStrategy (strategy : bool) : PM unit :=
  modify (set_h_strategy (if strategy then HFcall else HNull)).

(** ** The pool and the calls in progress *)
Record psys := mk_psys {
  ps_pool : async_pool_t Q V;
  ps_calls : gmap nat pcall;
  ps_deactivated : bool      (* ghost: the circuit was INACTIVE at some time *)
}.

Inductive pop :=
| PAcquire (id : nat) (timeout_ms : Z)
| PTryAcquire (id : nat)
| PRelease (id : nat) (resource : V) (eg : option exception)
| PClose (id : nat) (engine_active : bool) (eg : option exception)
| PTimer (id : nat)
| PResume (id : nat) (eg : option exception)
| PHook (id : nat) (a : answer V)
| PActivate
| PDeactivate
| PRecover
| PSetStrategy (strategy : bool).

(** The hook of call [k] returns. *)
Definition hook_returned (k : pcall) (a : answer V) : option (PM pprogress) :=
  match k with
  | AcqWait _ _ => None
  | AcqBefore t r => Some (acquire_checked t r a)
  | AcqDestroy t eg => Some (acquire_destroyed t eg a)
  | AcqFactory t => Some (acquire_created a)
  | TryBefore r => Some (try_acquire_checked r a)
  | TryDestroy eg => Some (try_acquire_destroyed eg a)
  | TryFactory => Some (try_acquire_created a)
  | RelBefore r eg => Some (release_checked r eg a)
  | RelFailure r eg => Some (release_reported_failure eg a)
  | RelSuccess r eg => Some (release_reported_success r eg a)
  | RelDestroy eg wake => Some (release_destroyed eg wake a)
  | CloseDestroy first parked => Some (close_destroyed first parked a)
  | HcCheck todo r eg => Some (healthcheck_checked todo r eg a)
  | HcDestroy todo stop eg => Some (healthcheck_destroyed todo stop eg a)
  | HcFactory todo eg => Some (healthcheck_created todo eg a)
  end.

Definition prun_call (id : nat) (m : PM pprogress) (s : psys) : option psys :=
  '(r, p) ← m (ps_pool s);
  Some (mk_psys p (match r with inl _ => delete id (ps_calls s) | inr k => <[id := k]> (ps_calls s) end)
    (ps_deactivated s)).

Definition prun_op (m : PM unit) (deact : bool) (s : psys) : option psys :=
  '(_, p) ← m (ps_pool s); Some (mk_psys p (ps_calls s) (ps_deactivated s || deact)).

Definition pexec (o : pop) (s : psys) : option psys :=
  match o with
  | PAcquire id t => prun_call id (zend_async_pool_acquire t) s
  | PTryAcquire id => prun_call id zend_async_pool_try_acquire s
  | PRelease id r eg => prun_call id (zend_async_pool_release r eg) s
  | PClose id act eg => prun_call id (zend_async_pool_close act eg) s
  | PTimer id => prun_call id pool_healthcheck_timer_callback s
  | PResume id eg =>
    match ps_calls s !! id with
    | Some (AcqWait t w) => prun_call id (acquire_resume t w eg) s
    | _ => None
    end
  | PHook id a => k ← ps_calls s !! id; m ← hook_returned k a; prun_call id m s
  | PActivate => prun_op activate false s
  | PDeactivate => prun_op deactivate true s
  | PRecover => prun_op recover false s
  | PSetStrategy b => prun_op (setCircuitBreakerStrategy b) false s
  end.

(** Which steps can happen: a new call has a fresh name (and there are fewer than
    2^31 at a time), a scalar is released only if one is lent ([checked_out]
    guards the objects), the timer runs while it exists. *)
Definition penabled (o : pop) (s : psys) : bool :=
  let fresh id := bool_decide (ps_calls s !! id = None) &&
    (Z.of_nat (size (ps_calls s)) <? 2 ^ 31 - 1) in
  match o with
  | PAcquire id _ | PTryAcquire id | PClose id _ _ => fresh id
  | PRelease id r _ =>
    fresh id && match obj_handle r with Some _ => true | None => 0 <? scalars_out (ps_pool s) end
  | PTimer id => fresh id && healthcheck_timer (ps_pool s)
  | PResume id _ => match ps_calls s !! id with Some (AcqWait _ _) => true | _ => false end
  | PHook id _ => match ps_calls s !! id with Some (AcqWait _ _) | None => false | _ => true end
  | _ => true
  end.

(** The two hooks that run while the resource they are about is in neither
    counter: reportSuccess, and the factory called by the healthcheck.
    [calm o s]: while one of them runs, nothing else happens on the pool. *)
Definition uncounted (k : pcall) : bool :=
  match k with RelSuccess _ _ | HcFactory _ _ => true | _ => false end.

Definition calm (o : pop) (s : psys) : bool :=
  bool_decide (map_Forall (λ _ k, uncounted k = false) (ps_calls s)) ||
  match o with
  | PHook id _ => match ps_calls s !! id with Some k => uncounted k | None => false end
  | _ => false
  end.

Inductive preachable (s0 : psys) : psys → Prop :=
| preach_init : preachable s0 s0
| preach_step s o s' :
  preachable s0 s → penabled o s = true → calm o s = true → pexec o s = Some s' → preachable s0 s'.
End operations.
