(* ===== verification/PoolProofs.v ===== *)
(** * Correctness of the pool

    The accounting invariant of a pool and the calls in progress on it, and its
    preservation by every step. *)

From S2P Require Import Prelude CircularBuffer Pool.

Local Open Scope Z_scope.

Section invariant.
Context {V Q : Type} `{!FifoBuffer Q V, !Resource V}.
Implicit Types (p : async_pool_t Q V) (l : list V) (calls : gmap nat (pcall (V := V))).
Implicit Types (k : pcall (V := V)) (id w : nat) (eg : option exception).

(** ** Views of the calls in progress *)

(** The call holds a place that [active_count] counts. *)
Definition inflight k : nat :=
  match k with
  | AcqBefore _ _ | AcqFactory _ | TryBefore _ | TryFactory | RelBefore _ _ | HcCheck _ _ _ => 1
  | _ => 0
  end.
(** The call will put a resource into idle that no counter counts now. *)
Definition limbo k : nat := if uncounted k then 1 else 0.
(** The call has given up a place and not yet woken a waiter for it. *)
Definition announcing k : nat :=
  match k with
  | AcqDestroy _ _ | TryDestroy _ | RelFailure _ _ | RelSuccess _ _ | RelDestroy _ true
  | HcDestroy _ _ _ | HcFactory _ _ => 1
  | _ => 0
  end.
Definition waiter_of k : option nat := match k with AcqWait _ w => Some w | _ => None end.

Definition total_of (f : pcall → nat) calls : Z := Z.of_nat (sum_list_with f (map_to_list calls).*2).

Lemma total_insert f calls id k : calls !! id = None →
  total_of f (<[id := k]> calls) = Z.of_nat (f k) + total_of f calls.
Proof. intros Hn. unfold total_of. rewrite map_to_list_insert by done. cbn. lia. Qed.
Lemma total_delete f calls id k : calls !! id = Some k →
  total_of f (delete id calls) = total_of f calls - Z.of_nat (f k).
Proof.
  intros Hk. rewrite <- (insert_delete_id calls id k) at 2 by done.
  rewrite total_insert by by rewrite lookup_delete_eq. lia.
Qed.
Lemma total_update f calls id k k' : calls !! id = Some k →
  total_of f (<[id := k']> calls) = total_of f calls - Z.of_nat (f k) + Z.of_nat (f k').
Proof.
  intros Hk. rewrite <- insert_delete_eq, total_insert by by rewrite lookup_delete_eq.
  rewrite (total_delete f calls id k Hk). lia.
Qed.
Lemma total_nonneg f calls : 0 ≤ total_of f calls.
Proof. unfold total_of. lia. Qed.

(** The waiters of the parked calls. *)
Definition wset calls : gset nat := list_to_set (omap waiter_of (map_to_list calls).*2).

Lemma elem_of_wset calls w : w ∈ wset calls ↔ ∃ id k, calls !! id = Some k ∧ waiter_of k = Some w.
Proof.
  unfold wset. rewrite elem_of_list_to_set, list_elem_of_omap. split.
  - intros (k & ([id k'] & -> & Hk%elem_of_map_to_list)%list_elem_of_fmap & Hw). eauto.
  - intros (id & k & Hk & Hw). exists k. split; [|done]. apply list_elem_of_fmap.
    exists (id, k). split; [done|]. by apply elem_of_map_to_list.
Qed.

Lemma size_wset calls : (size (wset calls) ≤ size calls)%nat.
Proof.
  unfold wset. rewrite <- length_map_to_list, <- (length_fmap snd).
  induction (map_to_list calls).*2 as [|k ks IH]; cbn; [by rewrite size_empty|].
  destruct (waiter_of k); cbn; [|lia]. rewrite size_union_alt, size_singleton.
  assert (size (list_to_set (omap waiter_of ks) ∖ {[n]} : gset nat) ≤ size (list_to_set (omap waiter_of ks) : gset nat))%nat
    by (apply subseteq_size; set_solver). lia.
Qed.

(** ** The invariant

    [Core p l I L W]: the counters of [p], whose idle resources are [l], when the
    calls in progress hold [I] counted places and [L] uncounted ones and [W] are
    the waiters of the parked ones. *)
Record Core p l (I L : Z) (W : gset nat) : Prop := {
  co_repr : q_repr (idle p) l;
  co_size : 0 ≤ min_size p ≤ max_size p ∧ max_size p < 2 ^ 32;
  co_calls : 0 ≤ I ∧ 0 ≤ L;
  co_scalars : 0 ≤ scalars_out p;
  co_active : Z.of_nat (size (checked_out p)) + scalars_out p + I ≤ active_count p;
  co_total : Z.of_nat (length l) + active_count p + L ≤ max_size p;
  co_count : reserved_count p = Z.of_nat (size (reserved p));
  co_reserved : reserved p ⊆ W;
  co_nodup : NoDup (pool_waiters p);
  co_queue : ∀ w, w ∈ pool_waiters p → w ∈ W;
  co_queued : p_closed p = false → ∀ w, w ∈ W → w ∈ pool_waiters p;
  co_fresh : ∀ w, w ∈ W → (w < next_pool_waiter p)%nat;
  co_bound : Z.of_nat (size W) < 2 ^ 31
}.

(** While a waiter has no reservation, every place is taken, reserved, or about to
    be announced by one of [n] calls ([d]: the circuit was inactive once). *)
Definition Announce p (d : bool) (n : Z) : Prop :=
  p_closed p = false → d = false → (∃ w, w ∈ pool_waiters p ∧ w ∉ reserved p) →
  max_size p ≤ active_count p + reserved_count p + n.

Lemma Announce_mono p d n n' : n ≤ n' → Announce p d n → Announce p d n'.
Proof. intros Hn HA ? ? ?. specialize (HA ltac:(done) ltac:(done) ltac:(done)). lia. Qed.

Lemma reserved_small p l I L W : Core p l I L W → 0 ≤ reserved_count p < 2 ^ 31.
Proof.
  intros []. rewrite co_count0. assert (size (reserved p) ≤ size W)%nat by by apply subseteq_size. lia.
Qed.

(** ** Waking *)
Lemma first_unreserved_Some res queue w :
  first_unreserved res queue = Some w → w ∈ queue ∧ w ∉ res.
Proof.
  induction queue as [|w' queue IH]; cbn; [done|]. case_decide; [|intros [= ->]; set_solver].
  intros Hw%IH. set_solver.
Qed.
Lemma first_unreserved_None res queue w :
  first_unreserved res queue = None → w ∈ queue → w ∈ res.
Proof.
  induction queue as [|w' queue IH]; cbn; [set_solver|]. case_decide; [|done].
  intros HN [->|]%elem_of_cons; auto.
Qed.

(** The fields a wakeup changes. *)
Definition woken_pool p p' : Prop :=
  ∃ res rc log, p' = set_resumed log (set_reserved_count rc (set_reserved res p)).

Lemma wake_spec p l I L W d n : Core p l I L W → Announce p d n →
  wp pool_wake_waiter (λ _ p', Core p' l I L W ∧ Announce p' d (n - 1) ∧ woken_pool p p') p.
Proof.
  intros HC HA. unfold pool_wake_waiter, pool_queue_first_unreserved. rewrite wp_bind, wp_get.
  destruct (first_unreserved _ _) as [w|] eqn:Hw; wp_simpl.
  - apply first_unreserved_Some in Hw as [Hin Hno]. split; [by apply bool_decide_eq_true|].
    pose proof (reserved_small _ _ _ _ _ HC). destruct HC.
    assert (size (reserved p ∪ {[w]}) = size (reserved p) + 1)%nat as Hsz
      by (rewrite size_union, size_singleton by set_solver; lia).
    split_and!; [|intros Hcl Hd (w' & Hw' & Hn')|by repeat eexists].
    + constructor; cbn; try done; [|set_solver]. rewrite u32_small by lia. lia.
    + cbn in *. rewrite u32_small by lia. apply Z.le_trans with (active_count p + reserved_count p + n); [|lia].
      apply HA; [done..|]. exists w. done.
  - split_and!; [done| |by (exists (reserved p), (reserved_count p), (resumed p); destruct p)].
    intros _ _ (w & Hin & Hn). destruct Hn. by eapply first_unreserved_None.
Qed.

(** A step of a call: it goes on as [k], or returns. *)
Definition of_call (f : pcall → nat) (r : pprogress (V := V)) : Z :=
  match r with inl _ => 0 | inr k => Z.of_nat (f k) end.
Definition waiter_set (r : pprogress (V := V)) : gset nat :=
  match r with
  | inr k => match waiter_of k with Some w => {[w]} | None => ∅ end
  | inl _ => ∅
  end.

(** What a step leaves, in terms of the other calls' places [I], [L], [A], [W]. *)
Definition Left d (I L A : Z) (W : gset nat) (r : pprogress) p' : Prop :=
  ∃ l', Core p' l' (I + of_call inflight r) (L + of_call limbo r) (W ∪ waiter_set r) ∧
    Announce p' d (A + of_call announcing r) ∧ (waiter_set r ## W).

Lemma Left_finish p l d I L A W ok v eg : Core p l I L W → Announce p d A →
  wp (pfinish ok v eg) (Left d I L A W) p.
Proof.
  intros HC HA. unfold pfinish. wp_simpl. exists l. cbn. rewrite !Z.add_0_r, union_empty_r_L.
  split_and!; [done..|set_solver].
Qed.

Lemma Left_continue p l d I L A W k I' L' A' : waiter_of k = None → Core p l I' L' W →
  Announce p d A' → I' = I + Z.of_nat (inflight k) → L' = L + Z.of_nat (limbo k) →
  A' ≤ A + Z.of_nat (announcing k) → wp (pcontinue k) (Left d I L A W) p.
Proof.
  intros Hw HC HA -> -> HA'. apply (Announce_mono _ _ _ _ HA') in HA. unfold pcontinue. wp_simpl. exists l. cbn. rewrite Hw, union_empty_r_L.
  split_and!; [done..|set_solver].
Qed.

Lemma wake_finish p l d I L A W ok v eg : Core p l I L W → Announce p d (A + 1) →
  wp (pool_wake_waiter;; pfinish ok v eg) (Left d I L A W) p.
Proof.
  intros HC HA. wp_apply wake_spec; [done..|]. intros _ p' (HC' & HA' & _).
  rewrite Z.add_simpl_r in HA'. by eapply Left_finish.
Qed.

Lemma u32_pos x : - 2 ^ 32 < x < 2 ^ 32 → (0 <? u32 x) = negb (x =? 0).
Proof.
  intros Hx. unfold u32. destruct (Z.eqb_spec x 0) as [->|]; [done|]. cbn. apply Z.ltb_lt.
  pose proof (Z.mod_pos_bound x (2 ^ 32) ltac:(lia)).
  destruct (Z.eq_dec (x `mod` 2 ^ 32) 0) as [E|]; [|lia].
  apply Z.mod_divide in E as [q Hq]; [|lia]. nia.
Qed.

Lemma total_small p l I L W : Core p l I L W →
  u32 (ASYNC_POOL_TOTAL p) = Z.of_nat (length l) + active_count p.
Proof.
  intros []. unfold ASYNC_POOL_TOTAL. rewrite (q_count_spec _ l) by done.
  rewrite u64_small, u32_small; lia.
Qed.

(** ** Acquire *)
Lemma take_idle_spec p v l I L W : Core p (v :: l) I L W →
  wp take_idle (λ v' p', v' = v ∧ ∃ q, p' = set_idle q p ∧ q_repr q l) p.
Proof.
  intros []. unfold take_idle. rewrite wp_bind, wp_zoom. wp_apply q_pop_spec; [done|].
  intros r q (-> & Hq & _). unfold wp, of_option. cbn. split; [done|]. by exists q.
Qed.

(** Taking an idle resource, or the capacity for a new one. *)
Lemma take_Core p v l I L W q : Core p (v :: l) I L W → q_repr q l →
  Core (set_active_count (u32 (active_count p + 1)) (set_idle q p)) l (I + 1) L W.
Proof.
  intros [] Hq. cbn [length] in *. rewrite u32_small by lia. constructor; cbn; try done; lia.
Qed.
Lemma incr_Core p l I W : Core p l I 0 W → Z.of_nat (length l) + active_count p < max_size p →
  Core (set_active_count (u32 (active_count p + 1)) p) l (I + 1) 0 W.
Proof. intros [] Hlt. rewrite u32_small by lia. constructor; cbn; try done; lia. Qed.
Lemma decr_Core p l I L L' W : Core p l (I + 1) L W → 0 ≤ I → L ≤ L' ≤ L + 1 →
  Core (set_active_count (u32 (active_count p - 1)) p) l I L' W.
Proof. intros [] HI HL. rewrite u32_small by lia. constructor; cbn; try done; lia. Qed.
Lemma decr_Announce p l I L W d n : Core p l (I + 1) L W → 0 ≤ I → Announce p d n →
  Announce (set_active_count (u32 (active_count p - 1)) p) d (n + 1).
Proof.
  intros [] HI HA Hcl Hd Hw. specialize (HA Hcl Hd Hw). cbn. rewrite u32_small by lia. lia.
Qed.
Lemma incr_Announce p l I L W d n q : Core p l I L W → active_count p < max_size p →
  Announce p d (n + 1) → Announce (set_active_count (u32 (active_count p + 1)) (set_idle q p)) d n.
Proof.
  intros [] Hlt HA Hcl Hd Hw. specialize (HA Hcl Hd Hw). cbn in *. rewrite u32_small by lia. lia.
Qed.

Lemma giveup_spec p l d I L A W b e : Core p l I L W → Announce p d A →
  wp (acquire_giveup b e) (Left d I L A W) p.
Proof.
  intros HC HA. unfold acquire_giveup. destruct b; [|rewrite wp_bind; by eapply Left_finish].
  rewrite !wp_bind. wp_apply wake_spec; [done..|]. intros _ p' (HC' & HA' & _). wp_simpl.
  eapply Left_finish; [done|]. eapply Announce_mono; [|done]. lia.
Qed.

Lemma park_spec p l d I L A W timeout : Core p l I L W → Z.of_nat (size W) < 2 ^ 31 - 1 →
  max_size p ≤ active_count p + reserved_count p + A →
  wp (pool_wait_for_resource timeout) (Left d I L A W) p.
Proof.
  intros [] Hb Hfull. unfold pool_wait_for_resource, pool_queue_push, pcontinue. wp_simpl. exists l. cbn.
  assert (next_pool_waiter p ∉ W) as Hn by (intros ?%co_fresh0; lia).
  split_and!; [|intros _ _ _; cbn; lia|set_solver].
  constructor; cbn; try done; try lia.
  - set_solver.
  - apply NoDup_app. split_and!; [done| |apply NoDup_singleton].
    intros w Hw ->%list_elem_of_singleton. by apply Hn, co_queue0.
  - intros w [?%co_queue0| ->%list_elem_of_singleton]%elem_of_app; set_solver.
  - intros Hcl w [Hw| ->%elem_of_singleton]%elem_of_union; apply elem_of_app; [left; auto|right; by left].
  - intros w [?%co_fresh0| ->%elem_of_singleton]%elem_of_union; lia.
  - rewrite size_union, size_singleton by set_solver. lia.
Qed.

Lemma may_serve_spec p l I L W : Core p l I L W →
  (0 <? ASYNC_POOL_UNRESERVED p) = negb (max_size p - active_count p - reserved_count p =? 0).
Proof.
  intros HC. pose proof (reserved_small _ _ _ _ _ HC). destruct HC. apply u32_pos. lia.
Qed.

(** The two ways to be served. *)
Lemma take_branch_spec p l d I A W (mk : V → pcall) : Core p l I 0 W → l ≠ [] →
  Announce p d (A + 1) → 0 ≤ A → (∀ v, waiter_of (mk v) = None ∧ inflight (mk v) = 1%nat ∧ limbo (mk v) = 0%nat) →
  wp (resource ← take_idle; active_incr;; pcontinue (mk resource)) (Left d I 0 A W) p.
Proof.
  intros HC Hne HA HA0 Hmk. destruct l as [|v l]; [done|]. wp_apply take_idle_spec; [done|].
  intros ? p' (-> & q & -> & Hq). unfold active_incr. rewrite wp_bind, wp_modify.
  destruct (Hmk v) as (Hw & Hi & Hl). pose proof HC as [].
  eapply (Left_continue _ l) with (A' := A); [done|by apply (take_Core p v l)| |rewrite ?Hi, ?Hl; cbn; lia..].
  eapply (incr_Announce p); [done|cbn in *; lia|done].
Qed.
Lemma create_branch_spec p l d I A W k : Core p l I 0 W →
  Z.of_nat (length l) + active_count p < max_size p → Announce p d (A + 1) → 0 ≤ A →
  waiter_of k = None → inflight k = 1%nat → limbo k = 0%nat →
  wp (active_incr;; pcontinue k) (Left d I 0 A W) p.
Proof.
  intros HC Hlt HA HA0 Hw Hi Hl. unfold active_incr. rewrite wp_bind, wp_modify.
  eapply (Left_continue _ l) with (A' := A); [done|by apply incr_Core| |rewrite ?Hi, ?Hl; cbn; lia..].
  replace p with (set_idle (idle p) p) at 2 by by destruct p. eapply incr_Announce; [done|lia|done].
Qed.

Lemma acquire_retry_spec p l d I A W timeout b : Core p l I 0 W → Announce p d (A + 1) → 0 ≤ A →
  (d = false → circuit_state p ≠ ZEND_ASYNC_CIRCUIT_STATE_INACTIVE) →
  Z.of_nat (size W) < 2 ^ 31 - 1 →
  wp (acquire_retry timeout b) (Left d I 0 A W) p.
Proof.
  intros HC HA HA0 Hd Hb. unfold acquire_retry. rewrite wp_bind, wp_get, wp_if.
  destruct (p_closed p) eqn:Hcl; [by eapply giveup_spec; [done|intros ?; congruence]|].
  rewrite wp_if. case_bool_decide as Hci.
  { eapply giveup_spec; [done|]. intros _ Hd' _. by destruct (Hd Hd'). }
  pose proof HC as []. rewrite wp_if, (q_is_empty_spec _ l) by done.
  rewrite (total_small _ _ _ _ _ HC), (may_serve_spec _ _ _ _ _ HC).
  destruct (negb (bool_decide (l = [])) && _) eqn:E1.
  { apply andb_true_iff in E1 as [Hne%negb_true_iff%bool_decide_eq_false _]. by eapply take_branch_spec. }
  rewrite wp_if. destruct ((_ <? _) && _) eqn:E2.
  { apply andb_true_iff in E2 as [Hlt%Z.ltb_lt _]. by eapply create_branch_spec. }
  eapply park_spec; [done..|]. destruct (b || _) eqn:Eb.
  - rewrite andb_true_r in E1, E2. apply negb_false_iff, bool_decide_eq_true in E1 as ->.
    apply Z.ltb_ge in E2. cbn in E2. pose proof (reserved_small _ _ _ _ _ HC). lia.
  - apply orb_false_iff in Eb as [_ Eb%negb_false_iff%Z.eqb_eq]. lia.
Qed.

Lemma pool_queue_remove_spec w queue : NoDup queue →
  NoDup (queue_remove w queue).2 ∧ ∀ x, x ∈ (queue_remove w queue).2 ↔ x ∈ queue ∧ x ≠ w.
Proof.
  induction queue as [|w' queue IH]; cbn; [set_solver|]. intros [Hn Hd]%NoDup_cons.
  destruct (IH Hd) as [IHd IHe]. case_decide as Hw; cbn.
  - subst. split; [done|]. set_solver.
  - destruct (queue_remove w queue) as [found rest]. cbn in *. split.
    + apply NoDup_cons. rewrite IHe. naive_solver.
    + set_solver.
Qed.

(** A waiter leaves. *)
Lemma leave_Core p l I L W w rest rc : Core p l I L (W ∪ {[w]}) → w ∉ W → NoDup rest →
  (∀ x, x ∈ rest ↔ x ∈ pool_waiters p ∧ x ≠ w) → rc = Z.of_nat (size (reserved p ∖ {[w]})) →
  Core (set_reserved (reserved p ∖ {[w]}) (set_reserved_count rc (set_pool_waiters rest p))) l I L W.
Proof.
  intros [] Hw Hnd Hel ->. constructor; cbn; try done.
  - intros x [Hx%co_reserved0 Hn]%elem_of_difference. set_solver.
  - intros x [Hx%co_queue0 Hn]%Hel. set_solver.
  - intros Hcl x Hx. apply Hel. split; [apply co_queued0; set_solver|]. by intros ->.
  - intros x Hx. apply co_fresh0. set_solver.
  - assert (size W ≤ size (W ∪ {[w]}))%nat by (apply subseteq_size; set_solver). lia.
Qed.

Lemma resume_spec p l d I L A W w eg : Core p l I L (W ∪ {[w]}) → w ∉ W → Announce p d A →
  wp (wait_for_resource_resume w eg) (λ _ p', Core p' l I L W ∧
    Announce p' d (A + match eg with Some _ => 0 | None => 1 end) ∧
    circuit_state p' = circuit_state p) p.
Proof.
  intros HC Hw HA. unfold wait_for_resource_resume, pool_queue_remove. wp_simpl.
  pose proof (reserved_small _ _ _ _ _ HC) as Hrc. pose proof (co_count _ _ _ _ _ HC) as Hcount.
  destruct (pool_queue_remove_spec w (pool_waiters p) (co_nodup _ _ _ _ _ HC)) as [Hnd Hel].
  destruct (queue_remove w (pool_waiters p)) as [found rest]. cbn in Hnd, Hel.
  rewrite wp_bind, wp_modify, wp_ret. wp_simpl. case_bool_decide as Hres.
  - assert (size (reserved p) = S (size (reserved p ∖ {[w]}))) as Hsz.
    { replace (reserved p) with ({[w]} ∪ (reserved p ∖ {[w]})) at 1
        by (symmetry; apply union_difference_singleton_L; done).
      rewrite size_union, size_singleton by set_solver. lia. }
    wp_simpl. split; [apply Z.ltb_lt; lia|]. rewrite u32_small by (cbn; lia).
    match goal with |- context [wp _ _ ?x] => set (p1 := x) end.
    assert (Core p1 l I L W) as HC1 by (apply (leave_Core p l I L W w rest (reserved_count p - 1)); [done..|lia]).
    assert (Announce p1 d (A + 1)) as HA1.
    { intros Hcl Hd (x & Hx & Hnx). cbn in *. apply Hel in Hx as [Hx Hxw].
      enough (max_size p ≤ active_count p + reserved_count p + A) by lia.
      apply HA; [done..|]. exists x. split; [done|]. intros Hin. apply Hnx. by apply elem_of_difference;
        split; [|apply not_elem_of_singleton]. }
    cbn. destruct eg as [e|]; cbn; [|by wp_simpl].
    destruct (p_closed p) eqn:Hcl; cbn.
    { wp_simpl. split_and!; [done| |done]. intros Hf. cbn in Hf. congruence. }
    wp_apply wake_spec; [done..|]. intros _ p' (HC' & HA' & res & rc & log & ->). wp_simpl.
    split_and!; [done| |done]. eapply Announce_mono; [|done]. lia.
  - wp_simpl. cbn.
    assert (reserved p ∖ {[w]} = reserved p) as Heq by (apply difference_disjoint_L; set_solver).
    split_and!; [| |done].
    { apply (leave_Core p l I L W w rest (reserved_count p)); [done..|]. by rewrite Heq. }
    apply (Announce_mono _ _ A); [destruct eg; lia|].
    intros Hcl Hd (x & Hx & Hnx). cbn in *. apply Hel in Hx as [Hx Hxw].
    apply HA; [done..|]. exists x. split; [done|]. by rewrite <- Heq.
Qed.

Lemma check_out_spec p l d I L A W r eg : Core p l (I + 1) L W → Announce p d A → 0 ≤ I →
  wp (pool_check_out r;; pfinish true (Some r) eg) (Left d I L A W) p.
Proof.
  intros HC HA HI. unfold pool_check_out. rewrite wp_bind. pose proof HC as [].
  destruct (obj_handle r) as [h|]; rewrite wp_modify; (eapply Left_finish; [|exact HA]).
  - assert (size (checked_out p ∪ {[h]}) ≤ size (checked_out p) + 1)%nat.
    { rewrite size_union_alt.
      assert (size ({[h]} ∖ checked_out p : gset Z) ≤ size ({[h]} : gset Z))%nat
        by (apply subseteq_size; set_solver). rewrite size_singleton in *. lia. }
    constructor; cbn; try done; lia.
  - constructor; cbn; try done; lia.
Qed.

(** A refused resource: the place is given up, and its destructor called. *)
Lemma refuse_spec p l d I L A W k : Core p l (I + 1) L W → Announce p d A → 0 ≤ I →
  waiter_of k = None → inflight k = 0%nat → limbo k = 0%nat → announcing k = 1%nat →
  wp (active_decr;; pcontinue k) (Left d I L A W) p.
Proof.
  intros HC HA HI Hw Hi Hl Ha. unfold active_decr. rewrite wp_bind, wp_modify.
  eapply (Left_continue _ l) with (A' := A + 1);
    [done|eapply (decr_Core _ _ I L L); [done..|lia]|by eapply decr_Announce|rewrite ?Hi, ?Hl, ?Ha; cbn; lia..].
Qed.

Lemma acquire_checked_spec p l d I L A W timeout r a : Core p l (I + 1) L W → Announce p d A → 0 ≤ I →
  wp (acquire_checked timeout r a) (Left d I L A W) p.
Proof.
  intros HC HA HI. unfold acquire_checked. rewrite wp_bind, wp_get.
  destruct (pool_call_before_acquire p a None) as [[] eg]; cbn; [by eapply check_out_spec|by eapply refuse_spec].
Qed.

Lemma acquire_destroyed_spec p l d I A W timeout eg a : Core p l I 0 W → Announce p d (A + 1) → 0 ≤ A →
  (d = false → circuit_state p ≠ ZEND_ASYNC_CIRCUIT_STATE_INACTIVE) →
  Z.of_nat (size W) < 2 ^ 31 - 1 →
  wp (acquire_destroyed timeout eg a) (Left d I 0 A W) p.
Proof.
  intros. unfold acquire_destroyed. destruct (pool_destroy_resource a eg).
  - by eapply wake_finish.
  - by eapply acquire_retry_spec.
Qed.

Lemma decr_wake_spec p l d I L A W (m : M (async_pool_t Q V) pprogress) :
  Core p l (I + 1) L W → Announce p d A → 0 ≤ I →
  (∀ p', Core p' l I L W → Announce p' d A → wp m (Left d I L A W) p') →
  wp (active_decr;; pool_wake_waiter;; m) (Left d I L A W) p.
Proof.
  intros HC HA HI Hm. unfold active_decr. rewrite wp_bind, wp_modify, wp_bind.
  wp_apply (wake_spec _ l I L W d (A + 1)); [eapply (decr_Core _ _ I L L); [done..|lia]|by eapply decr_Announce|].
  intros _ p' (HC' & HA' & _). rewrite Z.add_simpl_r in HA'. by apply Hm.
Qed.

Lemma acquire_created_spec p l d I L A W a : Core p l (I + 1) L W → Announce p d A → 0 ≤ I →
  wp (acquire_created a) (Left d I L A W) p.
Proof.
  intros HC HA HI. unfold acquire_created. rewrite wp_bind, wp_get.
  destruct (pool_create_resource p a) as [[r|] eg]; [by eapply check_out_spec|].
  eapply decr_wake_spec; [done..|]. intros p' HC' HA'. destruct eg; by eapply Left_finish.
Qed.

Lemma acquire_resume_spec p l d I A W timeout w eg :
  Core p l I 0 (W ∪ {[w]}) → w ∉ W → Announce p d A → 0 ≤ A →
  (d = false → circuit_state p ≠ ZEND_ASYNC_CIRCUIT_STATE_INACTIVE) →
  Z.of_nat (size W) < 2 ^ 31 - 1 →
  wp (acquire_resume timeout w eg) (Left d I 0 A W) p.
Proof.
  intros HC Hw HA HA0 Hd Hb. unfold acquire_resume. wp_apply resume_spec; [done..|].
  intros b p' (HC' & HA' & Hci). destruct eg as [e|].
  - rewrite Z.add_0_r in HA'. by eapply Left_finish.
  - rewrite <- Hci in Hd. by eapply acquire_retry_spec.
Qed.

(** ** The non-blocking acquire *)
Lemma try_acquire_spec p l d I A W : Core p l I 0 W → Announce p d (A + 1) → 0 ≤ A →
  (d = false → circuit_state p ≠ ZEND_ASYNC_CIRCUIT_STATE_INACTIVE) →
  wp zend_async_pool_try_acquire (Left d I 0 A W) p.
Proof.
  intros HC HA HA0 Hd. unfold zend_async_pool_try_acquire. rewrite wp_bind, wp_get, wp_if.
  destruct (p_closed p) eqn:Hcl; [by eapply Left_finish; [done|intros ?; congruence]|].
  rewrite wp_if. case_bool_decide as Hci.
  { eapply Left_finish; [done|]. intros _ Hd' _. by destruct (Hd Hd'). }
  pose proof HC as []. rewrite wp_if, (q_is_empty_spec _ l) by done.
  rewrite (total_small _ _ _ _ _ HC), (may_serve_spec _ _ _ _ _ HC).
  destruct (negb (bool_decide (l = [])) && _) eqn:E1.
  { apply andb_true_iff in E1 as [Hne%negb_true_iff%bool_decide_eq_false _]. by eapply take_branch_spec. }
  rewrite wp_if. destruct ((_ <? _) && _) eqn:E2.
  { apply andb_true_iff in E2 as [Hlt%Z.ltb_lt _]. by eapply create_branch_spec. }
  eapply Left_finish; [done|]. intros _ _ _. destruct (Z.eqb_spec (max_size p - active_count p - reserved_count p) 0).
  - lia.
  - rewrite andb_true_r in E1, E2. apply negb_false_iff, bool_decide_eq_true in E1 as ->.
    apply Z.ltb_ge in E2. cbn in E2. pose proof (reserved_small _ _ _ _ _ HC). lia.
Qed.

Lemma try_acquire_checked_spec p l d I L A W r a : Core p l (I + 1) L W → Announce p d A → 0 ≤ I →
  wp (try_acquire_checked r a) (Left d I L A W) p.
Proof.
  intros HC HA HI. unfold try_acquire_checked. rewrite wp_bind, wp_get.
  destruct (pool_call_before_acquire p a None) as [[] eg]; cbn; [by eapply check_out_spec|by eapply refuse_spec].
Qed.

Lemma try_acquire_destroyed_spec p l d I A W eg a : Core p l I 0 W → Announce p d (A + 1) → 0 ≤ A →
  (d = false → circuit_state p ≠ ZEND_ASYNC_CIRCUIT_STATE_INACTIVE) →
  wp (try_acquire_destroyed eg a) (Left d I 0 A W) p.
Proof.
  intros. unfold try_acquire_destroyed. destruct (pool_destroy_resource a eg).
  - by eapply wake_finish.
  - by eapply try_acquire_spec.
Qed.

Lemma try_acquire_created_spec p l d I L A W a : Core p l (I + 1) L W → Announce p d A → 0 ≤ I →
  wp (try_acquire_created a) (Left d I L A W) p.
Proof.
  intros HC HA HI. unfold try_acquire_created. rewrite wp_bind, wp_get.
  destruct (pool_create_resource p a) as [[r|] eg]; [by eapply check_out_spec|].
  eapply decr_wake_spec; [done..|]. intros p' HC' HA'. by eapply Left_finish.
Qed.

(** ** Release *)
Lemma Core_drop p l I L W : Core p l I (L + 1) W → 0 ≤ L → Core p l I L W.
Proof. intros [] HL. constructor; try done; lia. Qed.

(** A resource goes into idle, or is lost if the buffer cannot grow. *)
Lemma push_idle_spec p l I L W r : Core p l I (L + 1) W → 0 ≤ L →
  wp (zoom idle set_idle (q_push r true)) (λ _ p', ∃ q l', p' = set_idle q p ∧ Core p' l' I L W) p.
Proof.
  intros HC HL. rewrite wp_zoom. pose proof HC as [].
  wp_apply (q_push_spec _ l r true); [done|]. intros res q [Hq _]. destruct res.
  - destruct Hq as [Hq _]. exists q, (l ++ [r]). split; [done|].
    assert (Z.of_nat (length (l ++ [r])) = Z.of_nat (length l) + 1) by (rewrite length_app; cbn; lia).
    constructor; cbn; try done; lia.
  - subst q. exists (idle p), l. split; [done|]. replace (set_idle (idle p) p) with p by by destruct p.
    by apply Core_drop.
Qed.

Lemma pool_release_spec p l d I L A W r eg : Core p l I L W → Announce p d A →
  (obj_handle r = None → 0 < scalars_out p) → wp (zend_async_pool_release r eg) (Left d I L A W) p.
Proof.
  intros HC HA Hs. unfold zend_async_pool_release, pool_check_in. wp_simpl.
  destruct (active_count p =? 0); [by eapply Left_finish|]. pose proof HC as [].
  destruct (obj_handle r) as [h|] eqn:Hh.
  - case_bool_decide as Hin; [|by eapply Left_finish]. wp_simpl.
    eapply (Left_continue _ l) with (A' := A) (I' := I + 1) (L' := L); [done| |exact HA|cbn; lia..].
    assert (size (checked_out p) = S (size (checked_out p ∖ {[h]}))).
    { replace (checked_out p) with ({[h]} ∪ (checked_out p ∖ {[h]})) at 1
        by (symmetry; apply union_difference_singleton_L; done).
      rewrite size_union, size_singleton by set_solver. lia. }
    constructor; cbn; try done; lia.
  - wp_simpl. specialize (Hs eq_refl).
    eapply (Left_continue _ l) with (A' := A) (I' := I + 1) (L' := L); [done| |exact HA|cbn; lia..].
    constructor; cbn; try done; lia.
Qed.

Lemma release_checked_spec p l d I L A W r eg a : Core p l (I + 1) L W → Announce p d A → 0 ≤ I →
  wp (release_checked r eg a) (Left d I L A W) p.
Proof.
  intros HC HA HI. unfold release_checked. rewrite wp_bind, wp_get.
  destruct (pool_call_before_release p a eg) as [ok eg']. unfold active_decr. rewrite wp_bind, wp_modify.
  destruct ok; cbn [negb].
  - eapply (Left_continue _ l) with (A' := A + 1);
      [done|eapply (decr_Core _ _ I L (L + 1)); [done..|lia]|by eapply decr_Announce|cbn; lia..].
  - destruct eg' as [e|]; [destruct (pool_exception_ends_coroutine e)|];
      (eapply (Left_continue _ l) with (A' := A + 1);
      [done|eapply (decr_Core _ _ I L L); [done..|lia]|by eapply decr_Announce|cbn; lia..]).
Qed.

Lemma release_destroyed_spec p l d I L A W eg wake a : Core p l I L W →
  Announce p d (A + Z.of_nat (announcing (RelDestroy eg wake))) →
  wp (release_destroyed eg wake a) (Left d I L A W) p.
Proof.
  intros HC HA. unfold release_destroyed. destruct wake; cbn in HA.
  - rewrite wp_bind, wp_bind. wp_apply wake_spec; [done..|]. intros _ p' (HC' & HA' & _). wp_simpl.
    rewrite Z.add_simpl_r in HA'. by eapply Left_finish.
  - rewrite Z.add_0_r in HA. rewrite wp_bind, wp_ret. by eapply Left_finish.
Qed.

Lemma release_success_spec p l d I L A W r eg a : Core p l I (L + 1) W → Announce p d (A + 1) → 0 ≤ L →
  wp (release_reported_success r eg a) (Left d I L A W) p.
Proof.
  intros HC HA HL. unfold release_reported_success. rewrite wp_bind, wp_get, wp_if.
  destruct (p_closed p) eqn:Hcl.
  - eapply (Left_continue _ l) with (A' := A); [done|by apply Core_drop| |cbn; lia..]. intros ?. congruence.
  - rewrite wp_bind. wp_apply push_idle_spec; [done..|]. intros _ p' (q & l' & -> & HC').
    by eapply wake_finish.
Qed.

(** ** Close *)
Lemma wake_all_loop_spec fuel e p : (length (pool_waiters p) < fuel)%nat →
  wp (wake_all_loop fuel e) (λ _ p',
    p' = set_resumed (resumed p ++ ((λ w, (w, Some e)) <$> reverse (pool_waiters p)))
           (set_pool_waiters [] p)) p.
Proof.
  revert p. induction fuel as [|fuel IH]; intros p Hf; [lia|]. cbn [wake_all_loop].
  unfold pool_queue_pop_last. rewrite wp_bind, wp_bind, wp_get.
  destruct (pool_waiters p) as [|w queue _] eqn:E using rev_ind.
  { cbn. wp_simpl. rewrite app_nil_r. destruct p; cbn in *. by subst. }
  rewrite last_snoc, wp_bind, wp_modify, wp_ret. unfold resume_waiter. rewrite wp_bind, wp_modify.
  rewrite length_app in Hf. cbn in Hf. wp_apply IH.
  { cbn. rewrite E, removelast_last. lia. }
  intros _ p' ->. cbn. rewrite E, removelast_last, reverse_snoc. cbn. by rewrite <- app_assoc.
Qed.

Lemma close_loop_spec p l d I L A W first parked : Core p l I L W → Announce p d A →
  wp (close_loop first parked) (Left d I L A W) p.
Proof.
  intros HC HA. unfold close_loop. pose proof HC as [].
  rewrite wp_bind, wp_get, wp_if, (q_is_empty_spec _ l) by done.
  case_bool_decide as Hl; [by eapply Left_finish|]. destruct l as [|v l]; [done|].
  rewrite wp_bind. wp_apply take_idle_spec; [done|]. intros _ p' (_ & q & -> & Hq).
  eapply (Left_continue _ l) with (A' := A) (I' := I) (L' := L); [done| |exact HA|cbn; lia..].
  cbn in co_total0. constructor; cbn; try done; lia.
Qed.

Lemma pool_close_spec p l d I L A W active eg : Core p l I L W → Announce p d A →
  wp (zend_async_pool_close active eg) (Left d I L A W) p.
Proof.
  intros HC HA. unfold zend_async_pool_close, pool_stop_healthcheck_timer, pool_wake_all_with_exception.
  rewrite wp_bind, wp_get, wp_if. destruct (p_closed p) eqn:Hcl; [by eapply Left_finish|].
  pose proof HC as []. rewrite wp_bind, wp_modify, wp_bind, wp_modify, wp_bind. destruct active.
  - rewrite wp_bind, wp_get. wp_apply wake_all_loop_spec; [cbn; lia|]. intros _ p' ->.
    eapply close_loop_spec; [|intros Hf; done].
    constructor; cbn; try done; [constructor|set_solver].
  - rewrite wp_ret. eapply close_loop_spec; [|intros Hf; done]. by constructor.
Qed.

(** ** Healthcheck *)
Lemma healthcheck_next_spec p l d I L A W todo eg : Core p l I L W → Announce p d (A + 1) → 0 ≤ A →
  wp (healthcheck_next todo eg) (Left d I L A W) p.
Proof.
  intros HC HA HA0. unfold healthcheck_next, healthcheck_end.
  destruct todo as [|todo]; [by eapply wake_finish|].
  pose proof HC as []. rewrite wp_bind, wp_zoom. wp_apply (q_pop_spec _ l); [done|]. intros res q.
  destruct l as [|v l].
  - intros [-> ->]. replace (set_idle (idle p) p) with p by by destruct p. by eapply wake_finish.
  - intros (-> & Hq & _). unfold active_incr. rewrite wp_bind, wp_modify.
    eapply (Left_continue _ l) with (A' := A); [done|by apply (take_Core p v l)| |cbn; lia..].
    eapply (incr_Announce p); [done|cbn in *; lia|done].
Qed.

Lemma timer_spec p l d I L A W : Core p l I L W → Announce p d A → 0 ≤ A →
  wp pool_healthcheck_timer_callback (Left d I L A W) p.
Proof.
  intros HC HA HA0. unfold pool_healthcheck_timer_callback. rewrite wp_bind, wp_get, wp_if.
  destruct (p_closed p); [by eapply Left_finish|]. rewrite wp_if.
  destruct (negb _); [by eapply Left_finish|]. eapply healthcheck_next_spec; [done| |done].
  eapply Announce_mono; [|done]. lia.
Qed.

Lemma healthcheck_checked_spec p l d I L A W todo r eg a :
  Core p l (I + 1) L W → Announce p d A → 0 ≤ I → 0 ≤ L → 0 ≤ A →
  wp (healthcheck_checked todo r eg a) (Left d I L A W) p.
Proof.
  intros HC HA HI HL HA0. unfold healthcheck_checked. rewrite wp_bind, wp_get.
  destruct (pool_call_healthcheck p a eg) as [ok eg']. unfold active_decr. rewrite wp_bind, wp_modify.
  assert (∀ stop, wp (pcontinue (HcDestroy todo stop eg')) (Left d I L A W)
    (set_active_count (u32 (active_count p - 1)) p)) as Hd.
  { intros stop. eapply (Left_continue _ l) with (A' := A + 1);
      [done|eapply (decr_Core _ _ I L L); [done..|lia]|by eapply decr_Announce|cbn; lia..]. }
  destruct ok; [|done]. destruct (p_closed p); [done|].
  rewrite wp_bind. wp_apply (push_idle_spec _ l I L W); [eapply (decr_Core _ _ I L (L + 1)); [done..|lia]|done|].
  intros _ p' (q & l' & -> & HC'). eapply healthcheck_next_spec; [done| |done].
  change (Announce (set_active_count (u32 (active_count p - 1)) p) d (A + 1)). by eapply decr_Announce.
Qed.

Lemma healthcheck_destroyed_spec p l d I A W todo stop eg a :
  Core p l I 0 W → Announce p d (A + 1) → 0 ≤ A →
  wp (healthcheck_destroyed todo stop eg a) (Left d I 0 A W) p.
Proof.
  intros HC HA HA0. unfold healthcheck_destroyed. destruct stop; [by eapply wake_finish|].
  destruct (pool_destroy_resource a eg); [by eapply wake_finish|]. pose proof HC as [].
  rewrite wp_bind, wp_get, wp_if, (total_small _ _ _ _ _ HC). destruct (Z.ltb_spec (Z.of_nat (length l) + active_count p) (min_size p)).
  - eapply (Left_continue _ l) with (A' := A + 1) (I' := I) (L' := 1); [done| |done|cbn; lia..].
    constructor; try done; lia.
  - by eapply healthcheck_next_spec.
Qed.

Lemma healthcheck_created_spec p l d I L A W todo eg a :
  Core p l I (L + 1) W → Announce p d (A + 1) → 0 ≤ L → 0 ≤ A →
  wp (healthcheck_created todo eg a) (Left d I L A W) p.
Proof.
  intros HC HA HL HA0. unfold healthcheck_created. rewrite wp_bind, wp_get.
  destruct (pool_create_resource p a) as [[r|] [e|]].
  1, 2: rewrite wp_bind; wp_apply push_idle_spec; [done..|]; intros _ p' (q & l' & -> & HC');
    by eapply healthcheck_next_spec.
  - eapply wake_finish; [by eapply Core_drop|done].
  - eapply healthcheck_next_spec; [by eapply Core_drop|done..].
Qed.

(** ** Every step *)
Record PInv (s : psys (V := V) (Q := Q)) l : Prop := {
  pi_core : Core (ps_pool s) l (total_of inflight (ps_calls s)) (total_of limbo (ps_calls s))
    (wset (ps_calls s));
  pi_announce : Announce (ps_pool s) (ps_deactivated s) (total_of announcing (ps_calls s));
  pi_inj : ∀ id id' k k' w, ps_calls s !! id = Some k → ps_calls s !! id' = Some k' →
    waiter_of k = Some w → waiter_of k' = Some w → id = id';
  pi_size : Z.of_nat (size (ps_calls s)) < 2 ^ 31;
  pi_circuit : ps_deactivated s = false →
    circuit_state (ps_pool s) ≠ ZEND_ASYNC_CIRCUIT_STATE_INACTIVE
}.

(** The circuit is changed by its own operations only. *)
Definition same_circuit {A} (m : M (async_pool_t Q V) A) : Prop :=
  ∀ p a p', m p = Some (a, p') → circuit_state p' = circuit_state p.

Lemma same_ret {A} (a : A) : same_circuit (mret a).
Proof. by intros p ? ? [= <- <-]. Qed.
Lemma same_bind {A B} (m : M (async_pool_t Q V) A) (f : A → M (async_pool_t Q V) B) :
  same_circuit m → (∀ a, same_circuit (f a)) → same_circuit (m ≫= f).
Proof.
  intros Hm Hf p b p'. unfold mbind, M_bind. destruct (m p) as [[a p1]|] eqn:E; [|done].
  intros Hb. rewrite (Hf a p1 b p' Hb). by eapply Hm.
Qed.
Lemma same_get : same_circuit get.
Proof. by intros p ? ? [= <- <-]. Qed.
Lemma same_get_bind {B} (f : async_pool_t Q V → M (async_pool_t Q V) B) :
  (∀ p, same_circuit (f p)) → same_circuit (get ≫= f).
Proof. intros. by apply same_bind; [apply same_get|]. Qed.
Lemma same_assert b : same_circuit (ZEND_ASSERT b).
Proof. intros p a p'. unfold ZEND_ASSERT. by destruct b; intros [= <- <-]. Qed.
Lemma same_of_option {A} (o : option A) : same_circuit (of_option o).
Proof. intros p a p'. unfold of_option. by destruct o; intros [= <- <-]. Qed.
Lemma same_undefined {A} : same_circuit (A := A) undefined.
Proof. by intros p a p'. Qed.
Lemma same_modify f : (∀ p, circuit_state (f p) = circuit_state p) → same_circuit (modify f).
Proof. intros Hf p a p' [= _ <-]. apply Hf. Qed.
Lemma same_zoom {A} (m : M Q A) : same_circuit (zoom idle set_idle m).
Proof. intros p a p'. unfold zoom. by destruct (m (idle p)) as [[]|]; intros [= <- <-]. Qed.
End invariant.

Create HintDb circuit.
#[export] Hint Resolve same_ret same_get same_assert same_of_option same_undefined same_zoom : circuit.

(** Follows the structure of a computation. *)
Ltac same_circuit :=
  repeat first
    [ progress intros
    | solve [eauto with circuit]
    | apply same_bind
    | apply same_modify; reflexivity
    | match goal with |- same_circuit (match ?x with _ => _ end) => destruct x end ].

Section circuit.
Context {V Q : Type} `{!FifoBuffer Q V, !Resource V}.
Implicit Types (p : async_pool_t Q V) (l : list V) (calls : gmap nat (pcall (V := V))).
Implicit Types (k : pcall (V := V)) (id w : nat) (eg : option exception).

Lemma same_wake : same_circuit (pool_wake_waiter (V := V) (Q := Q)).
Proof. unfold pool_wake_waiter, resume_waiter. same_circuit. Qed.
Hint Resolve same_wake : circuit.
Lemma same_finish ok (v : option V) eg : same_circuit (pfinish (Q := Q) ok v eg).
Proof. unfold pfinish. same_circuit. Qed.
Lemma same_continue k : same_circuit (pcontinue (Q := Q) k).
Proof. unfold pcontinue. same_circuit. Qed.
Hint Resolve same_finish same_continue : circuit.
Lemma same_take : same_circuit (take_idle (V := V) (Q := Q)).
Proof. unfold take_idle. same_circuit. Qed.
Hint Resolve same_take : circuit.
Lemma same_retry t b : same_circuit (acquire_retry (V := V) (Q := Q) t b).
Proof.
  unfold acquire_retry, acquire_giveup, active_incr, pool_wait_for_resource, pool_queue_push. same_circuit.
Qed.
Lemma same_try : same_circuit (zend_async_pool_try_acquire (V := V) (Q := Q)).
Proof. unfold zend_async_pool_try_acquire, active_incr. same_circuit. Qed.
Lemma same_close_loop e e' : same_circuit (close_loop (V := V) (Q := Q) e e').
Proof. unfold close_loop. same_circuit. Qed.
Lemma same_hc_end e : same_circuit (healthcheck_end (V := V) (Q := Q) e).
Proof. unfold healthcheck_end. same_circuit. Qed.
Hint Resolve same_retry same_try same_close_loop same_hc_end : circuit.
Lemma same_hc_next n e : same_circuit (healthcheck_next (V := V) (Q := Q) n e).
Proof. unfold healthcheck_next, active_incr. same_circuit. Qed.
Lemma same_wake_all n e : same_circuit (wake_all_loop (V := V) (Q := Q) n e).
Proof.
  induction n; cbn; unfold pool_queue_pop_last, resume_waiter; same_circuit.
Qed.
Lemma same_check_out (r : V) : same_circuit (pool_check_out (Q := Q) r).
Proof. unfold pool_check_out. same_circuit. Qed.
Hint Resolve same_hc_next same_wake_all same_check_out : circuit.
Lemma same_resume w eg : same_circuit (wait_for_resource_resume (V := V) (Q := Q) w eg).
Proof. unfold wait_for_resource_resume, pool_queue_remove. same_circuit. Qed.
Hint Resolve same_resume : circuit.

Lemma same_hook k (a : answer V) m : hook_returned (Q := Q) k a = Some m → same_circuit m.
Proof.
  destruct k; intros [= <-];
    unfold acquire_checked, acquire_destroyed, acquire_created, try_acquire_checked, try_acquire_destroyed,
      try_acquire_created, release_checked, release_reported_failure, release_reported_success,
      release_destroyed, close_destroyed, healthcheck_checked, healthcheck_destroyed, healthcheck_created,
      active_decr; same_circuit.
Qed.
Lemma same_entries t r eg b :
  same_circuit (zend_async_pool_acquire (V := V) (Q := Q) t) ∧
  same_circuit (zend_async_pool_release (V := V) (Q := Q) r eg) ∧
  same_circuit (zend_async_pool_close (V := V) (Q := Q) b eg) ∧
  same_circuit (pool_healthcheck_timer_callback (V := V) (Q := Q)).
Proof.
  unfold zend_async_pool_acquire, zend_async_pool_release, pool_check_in, zend_async_pool_close,
    pool_stop_healthcheck_timer, pool_wake_all_with_exception, pool_healthcheck_timer_callback.
  split_and!; same_circuit.
Qed.

(** *** Lifting a step of one call to the system *)
Lemma wset_insert calls id k : calls !! id = None →
  wset (<[id := k]> calls) = wset calls ∪ waiter_set (inr k).
Proof.
  intros Hn. apply set_eq. intros w. rewrite elem_of_union, !elem_of_wset. cbn. split.
  - intros (id' & k' & Hk & Hw). destruct (decide (id' = id)) as [->|]; simplify_map_eq; [|by eauto].
    right. set_solver.
  - intros [(id' & k' & Hk & Hw)|Hw].
    + exists id', k'. split; [|done]. rewrite lookup_insert_ne; [done|]. congruence.
    + destruct (waiter_of k) eqn:E; [|set_solver]. apply elem_of_singleton in Hw as ->.
      exists id, k. by rewrite lookup_insert_eq.
Qed.
Lemma wset_delete calls id k : calls !! id = Some k →
  wset calls = wset (delete id calls) ∪ waiter_set (inr k).
Proof.
  intros Hk. rewrite <- (wset_insert _ id k) by by rewrite lookup_delete_eq. by rewrite insert_delete_id.
Qed.

Lemma lift_step s l id (m : M (async_pool_t Q V) pprogress) :
  let rest := delete id (ps_calls s) in
  PInv s l → Z.of_nat (size rest) < 2 ^ 31 - 1 → same_circuit m →
  wp m (Left (ps_deactivated s) (total_of inflight rest) (total_of limbo rest)
    (total_of announcing rest) (wset rest)) (ps_pool s) →
  ∃ s', prun_call id m s = Some s' ∧ ∃ l', PInv s' l'.
Proof.
  intros rest [] Hsz Hsame (r & p' & Hm & l' & HC & HA & Hdis)%wp_run.
  unfold prun_call. rewrite Hm. eexists. split; [done|]. exists l'.
  assert (rest !! id = None) as Hn by apply lookup_delete_eq.
  assert (∀ id1 id2 k1 k2 w, rest !! id1 = Some k1 → rest !! id2 = Some k2 →
    waiter_of k1 = Some w → waiter_of k2 = Some w → id1 = id2) as Hinj.
  { intros id1 id2 k1 k2 w [_ H1]%lookup_delete_Some [_ H2]%lookup_delete_Some. by eauto. }
  pose proof (Hsame _ _ _ Hm) as Hci. destruct r as [res|k]; cbn in HC, HA, Hdis.
  - rewrite !Z.add_0_r, union_empty_r_L in *. fold rest. constructor; cbn [ps_pool ps_calls ps_deactivated];
      [done..|lia|by rewrite Hci].
  - rewrite <- (insert_delete_eq (ps_calls s)). fold rest.
    constructor; cbn.
    + rewrite !total_insert, wset_insert by done. rewrite (Z.add_comm (Z.of_nat (inflight k))),
        (Z.add_comm (Z.of_nat (limbo k))). done.
    + rewrite total_insert by done. by rewrite Z.add_comm.
    + intros id1 id2 k1 k2 w. assert (∀ id' k', rest !! id' = Some k' → waiter_of k = Some w → waiter_of k' ≠ Some w).
      { intros id' k' Hk' Hw Hw'. rewrite Hw in Hdis. assert (w ∈ wset rest) by (apply elem_of_wset; eauto).
        set_solver. }
      destruct (decide (id1 = id)) as [->|], (decide (id2 = id)) as [->|]; simplify_map_eq; [done|naive_solver..|eauto].
    + rewrite map_size_insert_None by done. lia.
    + by rewrite Hci.
Qed.

(** The invariant seen from one call [k] among the others. *)
Lemma PInv_split s l id k : PInv s l → ps_calls s !! id = Some k →
  let rest := delete id (ps_calls s) in
  Core (ps_pool s) l (total_of inflight rest + Z.of_nat (inflight k))
    (total_of limbo rest + Z.of_nat (limbo k)) (wset rest ∪ waiter_set (inr k)) ∧
  Announce (ps_pool s) (ps_deactivated s) (total_of announcing rest + Z.of_nat (announcing k)) ∧
  (waiter_set (inr k) ## wset rest) ∧ Z.of_nat (size rest) < 2 ^ 31 - 1.
Proof.
  intros [] Hk. cbn zeta. rewrite (wset_delete _ _ _ Hk) in pi_core0.
  pose proof (total_delete inflight _ _ _ Hk). pose proof (total_delete limbo _ _ _ Hk).
  pose proof (total_delete announcing _ _ _ Hk).
  split_and!.
  - replace (_ + _) with (total_of inflight (ps_calls s)) by lia.
    replace (_ + _) with (total_of limbo (ps_calls s)) by lia. done.
  - replace (_ + _) with (total_of announcing (ps_calls s)) by lia. done.
  - cbn. destruct (waiter_of k) as [w|] eqn:Hw; [|set_solver]. intros w' ->%elem_of_singleton Hin.
    apply elem_of_wset in Hin as (id' & k' & [Hne Hk']%lookup_delete_Some & Hw').
    apply Hne. by eapply (pi_inj0 id id').
  - rewrite map_size_delete, Hk. assert (0 < size (ps_calls s))%nat; [|lia].
    apply Nat.neq_0_lt_0. intros E%map_size_empty_iff. by rewrite E, lookup_empty in Hk.
Qed.

Lemma limbo_none (ks : list (nat * pcall (V := V))) : (∀ x, x ∈ ks → uncounted x.2 = false) →
  sum_list_with limbo ks.*2 = 0%nat.
Proof.
  intros Hks. induction ks as [|[id k] ks IH]; [done|]. cbn.
  rewrite IH by (intros; apply Hks; by right). unfold limbo.
  pose proof (Hks (id, k) ltac:(by left)) as Hu. cbn in Hu. by rewrite Hu.
Qed.

Lemma calm_limbo o (s : psys (V := V) (Q := Q)) : calm o s = true →
  (∀ id a, o ≠ PHook id a ∨ ∃ k, ps_calls s !! id = Some k ∧ uncounted k = false) →
  total_of limbo (ps_calls s) = 0.
Proof.
  unfold calm. intros [Hall%bool_decide_eq_true|Ho]%orb_true_iff Hno.
  - unfold total_of. rewrite limbo_none; [done|].
    intros [id k] Hx%elem_of_map_to_list. by eapply (Hall id).
  - destruct o; try done. destruct (Hno id a) as [|(k & Hk & Hu)]; [done|]. rewrite Hk in Ho. congruence.
Qed.

Lemma limbo_rest s l id k : PInv s l → ps_calls s !! id = Some k → total_of limbo (ps_calls s) = 0 →
  total_of limbo (delete id (ps_calls s)) = 0.
Proof.
  intros _ Hk H0. pose proof (total_delete limbo _ _ _ Hk). pose proof (total_nonneg limbo (delete id (ps_calls s))).
  lia.
Qed.

Lemma hook_spec s l id k (a : answer V) m : PInv s l → ps_calls s !! id = Some k →
  (uncounted k = false → total_of limbo (delete id (ps_calls s)) = 0) → hook_returned k a = Some m →
  let rest := delete id (ps_calls s) in
  wp m (Left (ps_deactivated s) (total_of inflight rest) (total_of limbo rest)
    (total_of announcing rest) (wset rest)) (ps_pool s).
Proof.
  intros HI Hk HL Hm rest. destruct (PInv_split s l id k HI Hk) as (HC & HA & Hdis & Hsz).
  fold rest in HC, HA, Hdis, Hsz, HL. clearbody rest.
  pose proof (pi_circuit _ _ HI) as Hci. pose proof (size_wset rest).
  assert (Z.of_nat (size (wset rest)) < 2 ^ 31 - 1) as Hw by lia.
  pose proof (total_nonneg inflight rest). pose proof (total_nonneg limbo rest).
  pose proof (total_nonneg announcing rest).
  destruct k; simplify_eq/=; cbn in HC, HA, HL;
    rewrite ?union_empty_r_L, ?Z.add_0_r in HC; rewrite ?Z.add_0_r in HA.
  - by eapply acquire_checked_spec.
  - rewrite HL in * by done. by eapply acquire_destroyed_spec.
  - by eapply acquire_created_spec.
  - by eapply try_acquire_checked_spec.
  - rewrite HL in * by done. by eapply try_acquire_destroyed_spec.
  - by eapply try_acquire_created_spec.
  - by eapply release_checked_spec.
  - unfold release_reported_failure. rewrite wp_bind, wp_get.
    eapply (Left_continue _ l) with (A' := total_of announcing rest + 1); [done..|cbn; lia|cbn; lia|cbn; lia].
  - by eapply release_success_spec.
  - by eapply release_destroyed_spec.
  - by eapply close_loop_spec.
  - by eapply healthcheck_checked_spec.
  - rewrite HL in * by done. by eapply healthcheck_destroyed_spec.
  - by eapply healthcheck_created_spec.
Qed.

Lemma prun_op_spec s l (m : M (async_pool_t Q V) unit) deact p' :
  PInv s l → m (ps_pool s) = Some (tt, p') →
  (∃ x y, p' = set_h_strategy y (set_circuit_state x (ps_pool s)) ∧
    (ps_deactivated s || deact = false → x ≠ ZEND_ASYNC_CIRCUIT_STATE_INACTIVE)) →
  ∃ s', prun_op m deact s = Some s' ∧ ∃ l', PInv s' l'.
Proof.
  intros [] Hm (x & y & -> & Hx). unfold prun_op. rewrite Hm. eexists. split; [done|]. exists l.
  constructor; cbn; try done.
  - destruct pi_core0. by constructor.
  - intros Hcl [Hd _]%orb_false_iff. by apply pi_announce0.
Qed.

Lemma pexec_spec o s l : PInv s l → penabled o s = true → calm o s = true →
  ∃ s', pexec o s = Some s' ∧ ∃ l', PInv s' l'.
Proof.
  intros HI Hen Hcalm.
  pose proof (pi_circuit _ _ HI) as Hci. pose proof (size_wset (ps_calls s)) as Hws.
  pose proof (total_nonneg announcing (ps_calls s)) as HA0.
  assert (∀ id, bool_decide (ps_calls s !! id = None) && (Z.of_nat (size (ps_calls s)) <? 2 ^ 31 - 1) = true →
    ps_calls s !! id = None ∧ delete id (ps_calls s) = ps_calls s ∧ Z.of_nat (size (ps_calls s)) < 2 ^ 31 - 1) as Hfresh.
  { intros id [Hn%bool_decide_eq_true Hlt%Z.ltb_lt]%andb_true_iff. split_and!; [done|by apply delete_id|done]. }
  destruct o as [id t|id|id r eg|id act eg|id|id eg|id a| | | |b]; unfold penabled in Hen; unfold pexec.
  - apply Hfresh in Hen as (Hn & Hdel & Hsz). eapply lift_step; [done|by rewrite Hdel|apply same_retry|].
    rewrite Hdel. assert (total_of limbo (ps_calls s) = 0) as HL by (eapply calm_limbo; [done|]; intros; by left).
    pose proof (pi_core _ _ HI) as HC. rewrite HL in *. eapply acquire_retry_spec; [done| |lia|done|lia].
    eapply Announce_mono; [|apply HI]. lia.
  - apply Hfresh in Hen as (Hn & Hdel & Hsz). eapply lift_step; [done|by rewrite Hdel|apply same_try|].
    rewrite Hdel. assert (total_of limbo (ps_calls s) = 0) as HL by (eapply calm_limbo; [done|]; intros; by left).
    pose proof (pi_core _ _ HI) as HC. rewrite HL in *. eapply try_acquire_spec; [done| |lia|done].
    eapply Announce_mono; [|apply HI]. lia.
  - apply andb_true_iff in Hen as [(Hn & Hdel & Hsz)%Hfresh Hs].
    eapply lift_step; [done|by rewrite Hdel|apply (same_entries 0 r eg true)|].
    rewrite Hdel. eapply pool_release_spec; [apply HI..|]. intros E. rewrite E in Hs. by apply Z.ltb_lt in Hs.
  - apply Hfresh in Hen as (Hn & Hdel & Hsz).
    assert (∀ eg b, same_circuit (zend_async_pool_close (V := V) (Q := Q) b eg)) as Hsame.
    { intros. unfold zend_async_pool_close, pool_stop_healthcheck_timer, pool_wake_all_with_exception. same_circuit. }
    eapply lift_step; [done|by rewrite Hdel|apply Hsame|].
    rewrite Hdel. eapply pool_close_spec; apply HI.
  - apply andb_true_iff in Hen as [(Hn & Hdel & Hsz)%Hfresh _].
    eapply lift_step; [done|by rewrite Hdel| |].
    { unfold pool_healthcheck_timer_callback. same_circuit. }
    rewrite Hdel. eapply timer_spec; [apply HI..|done].
  - destruct (ps_calls s !! id) as [k|] eqn:Hk; [|done]. destruct k as [t w| | | | | | | | | | | | | |]; try done.
    destruct (PInv_split s l id _ HI Hk) as (HC & HA & Hdis & Hsz).
    pose proof (size_wset (delete id (ps_calls s))).
    assert (total_of limbo (delete id (ps_calls s)) = 0) as HL.
    { eapply limbo_rest; [done..|]. eapply calm_limbo; [done|]. intros; by left. }
    cbn in HC, HA, Hdis. rewrite HL, ?Z.add_0_r in HC. rewrite ?Z.add_0_r in HA.
    eapply lift_step; [done|done| |rewrite HL; eapply acquire_resume_spec; try done].
    + unfold acquire_resume. same_circuit.
    + set_solver.
    + apply total_nonneg.
    + lia.
  - destruct (ps_calls s !! id) as [k|] eqn:Hk; [|done]. cbn.
    destruct (hook_returned k a) as [m|] eqn:Hm; [|by destruct k]. cbn.
    eapply lift_step; [done|apply (PInv_split s l id k HI Hk)|by eapply same_hook|].
    eapply hook_spec; [done..| |done]. intros Hu. eapply limbo_rest; [done..|].
    eapply calm_limbo; [done|]. intros id' a'. destruct (decide (id' = id)) as [->|]; [right; eauto|left; congruence].
  - eapply prun_op_spec; [done..|]. by exists ZEND_ASYNC_CIRCUIT_STATE_ACTIVE, (h_strategy (ps_pool s)).
  - eapply prun_op_spec; [done..|]. exists ZEND_ASYNC_CIRCUIT_STATE_INACTIVE, (h_strategy (ps_pool s)).
    split; [done|]. by rewrite orb_true_r.
  - eapply prun_op_spec; [done..|]. by exists ZEND_ASYNC_CIRCUIT_STATE_RECOVERING, (h_strategy (ps_pool s)).
  - eapply prun_op_spec; [done..|]. exists (circuit_state (ps_pool s)), (if b then HFcall else HNull).
    split; [done|]. rewrite orb_false_r. done.
Qed.

(** ** Construction *)
Context `{!FifoCtor Q V}.

Lemma prewarm_spec n i answers p l : q_repr (idle p) l →
  wp (prewarm n i answers) (λ _ p', ∃ q l', p' = set_idle q p ∧ q_repr q l' ∧
    (length l' ≤ length l + n)%nat) p.
Proof.
  revert i p l. induction n as [|n IH]; intros i p l Hl; cbn [prewarm].
  { wp_simpl. exists (idle p), l. split_and!; [by destruct p|done|lia]. }
  rewrite wp_bind, wp_get. destruct (pool_create_resource p (answers i)) as [[r|] e].
  - rewrite wp_bind, wp_zoom. wp_apply (q_push_spec _ l r true); [done|]. intros res q [Hq _].
    destruct res.
    + destruct Hq as [Hq _]. eapply wp_mono; [by eapply (IH (S i) _ (l ++ [r]))|].
      intros _ p' (q' & l' & -> & Hq' & Hlen). exists q', l'. rewrite length_app in Hlen. cbn in Hlen.
      split_and!; [done..|lia].
    + subst q. eapply wp_mono; [by eapply (IH (S i) _ l)|].
      intros _ p' (q' & l' & -> & Hq' & Hlen). exists q', l'. split_and!; [done..|lia].
  - destruct e.
    + wp_simpl. exists (idle p), l. split_and!; [by destruct p|done|lia].
    + eapply wp_mono; [by eapply (IH (S i) _ l)|].
      intros _ p' (q' & l' & -> & Hq' & Hlen). exists q', l'. split_and!; [done..|lia].
Qed.

Lemma create_PInv buf0 hf hd hh ha hr mn mx interval answers tc e p :
  0 ≤ mn ≤ mx → mn ≤ 2 ^ 31 → mx < 2 ^ 32 →
  (∀ q, q_ctor (if 0 <? mn then mn else 4) buf0 ≠ Some (FAILURE, q)) →
  zend_async_pool_create buf0 hf hd hh ha hr mn mx interval answers tc = Some (e, p) →
  ∃ l, PInv (mk_psys p ∅ false) l.
Proof.
  intros Hmn Hmn' Hmx Hok Hc. unfold zend_async_pool_create in Hc.
  assert (1 ≤ (if 0 <? mn then mn else 4) ≤ 2 ^ 31) as Hn by (destruct (Z.ltb_spec 0 mn); lia).
  pose proof (q_ctor_spec _ buf0 Hn) as (r & q & Hr & Hspec)%wp_run. rewrite Hr in Hc. cbn in Hc.
  destruct r; [|by destruct (Hok _ Hr)]. destruct Hspec as [Hq _]; [done|].
  unfold mbind, M_bind in Hc.
  match type of Hc with context [prewarm _ _ _ ?x] => set (p0 := x) in * end.
  pose proof (prewarm_spec (Z.to_nat mn) 0 answers p0 [] Hq) as (e1 & p1 & Hrun & q1 & l & -> & Hq1 & Hlen)%wp_run.
  rewrite Hrun in Hc. cbn in Hlen. exists l.
  assert (∃ t, p = set_healthcheck_timer t (set_idle q1 p0)) as [t ->].
  { unfold pool_start_healthcheck_timer, mbind, M_bind, get, mret, M_ret, modify in Hc.
    destruct (healthcheck_interval_ms _ =? 0); [simplify_eq; by eexists|].
    destruct (negb _); [simplify_eq; by eexists|]. destruct (negb tc); simplify_eq; by eexists. }
  constructor; cbn.
  - change (Core (set_healthcheck_timer t (set_idle q1 p0)) l 0 0 ∅).
    constructor; cbn; try done; try lia; try set_solver. constructor.
  - by intros _ _ (w & ?%not_elem_of_nil & _).
  - intros * Hk. by rewrite lookup_empty in Hk.
  - rewrite map_size_empty. lia.
  - done.
Qed.

(** The states of a pool after its creation. *)
Definition prunning (s : psys (V := V) (Q := Q)) : Prop :=
  ∃ buf0 hf hd hh ha hr mn mx interval answers tc e p,
    (0 ≤ mn ≤ mx ∧ mn ≤ 2 ^ 31 ∧ mx < 2 ^ 32) ∧
    (∀ q, q_ctor (if 0 <? mn then mn else 4) buf0 ≠ Some (FAILURE, q)) ∧
    zend_async_pool_create buf0 hf hd hh ha hr mn mx interval answers tc = Some (e, p) ∧
    preachable (mk_psys p ∅ false) s.

Lemma prunning_PInv s : prunning s → ∃ l, PInv s l.
Proof.
  intros (buf0 & hf & hd & hh & ha & hr & mn & mx & interval & answers & tc & e & p & (? & ? & ?) & Hok & Hc & Hr).
  assert (∃ l, PInv (mk_psys p ∅ false) l) as Hinit by by eapply create_PInv.
  induction Hr as [|s o s' Hr IH Hen Hcalm Hex]; [done|]. destruct IH as [l IH].
  destruct (pexec_spec o s l IH Hen Hcalm) as (s1 & ? & ?). by simplify_eq.
Qed.
End circuit.
