(* ===== verification/PoolSafety.v ===== *)
(** * The pool under every interleaving

    What holds of a pool whatever its hooks let happen: the reservations are
    counted exactly and every step is defined, also while reportSuccess or the
    factory of the healthcheck is suspended, and for clients that release
    scalars nobody lent.  The counters of the places need the calm runs of
    [PoolProofs]. *)

From S2P Require Import Prelude CircularBuffer Pool PoolProofs.

Local Open Scope Z_scope.

Section safety.
Context {V Q : Type} `{!FifoBuffer Q V, !Resource V}.
Implicit Types (p : async_pool_t Q V) (l : list V) (calls : gmap nat (pcall (V := V))).
Implicit Types (k : pcall (V := V)) (id w : nat) (eg : option exception) (W : gset nat).

(** ** The steps that can happen

    A call that starts has a fresh name, and there are fewer than 2^31 at a time;
    the timer runs while it exists; a parked call is resumed and a hook returns. *)
Definition ppossible (o : pop) (s : psys (V := V) (Q := Q)) : bool :=
  match o with
  | PRelease id _ _ =>
    bool_decide (ps_calls s !! id = None) && (Z.of_nat (size (ps_calls s)) <? 2 ^ 31 - 1)
  | _ => penabled o s
  end.

Inductive pinterleaved (s0 : psys (V := V) (Q := Q)) : psys → Prop :=
| pint_init : pinterleaved s0 s0
| pint_step s o s' : pinterleaved s0 s → ppossible o s = true → pexec o s = Some s' → pinterleaved s0 s'.

Lemma penabled_possible o (s : psys (V := V) (Q := Q)) : penabled o s = true → ppossible o s = true.
Proof. destruct o; cbn; try done. by intros [? _]%andb_true_iff. Qed.

Lemma preachable_interleaved s0 (s : psys (V := V) (Q := Q)) : preachable s0 s → pinterleaved s0 s.
Proof. induction 1; [constructor|]. eapply pint_step; [done|by apply penabled_possible|done]. Qed.

(** ** The invariant

    [W] are the waiters of the parked calls. *)
Record Reserve p l W : Prop := {
  rs_repr : q_repr (idle p) l;
  rs_count : reserved_count p = Z.of_nat (size (reserved p));
  rs_reserved : reserved p ⊆ W;
  rs_nodup : NoDup (pool_waiters p);
  rs_queue : ∀ w, w ∈ pool_waiters p → w ∈ W;
  rs_fresh : ∀ w, w ∈ W → (w < next_pool_waiter p)%nat;
  rs_bound : Z.of_nat (size W) < 2 ^ 31
}.

Lemma Core_Reserve p l I L W : Core p l I L W → Reserve p l W.
Proof. by intros []. Qed.

(** Nothing but the waiters and the buffer matters. *)
Lemma Reserve_frame p p' l l' W : Reserve p l W → q_repr (idle p') l' →
  reserved_count p' = reserved_count p → reserved p' = reserved p →
  pool_waiters p' = pool_waiters p → next_pool_waiter p' = next_pool_waiter p → Reserve p' l' W.
Proof. intros [] Hq E1 E2 E3 E4. constructor; rewrite ?E1, ?E2, ?E3, ?E4; done. Qed.

Lemma reserve_small p l W : Reserve p l W → 0 ≤ reserved_count p < 2 ^ 31.
Proof.
  intros []. rewrite rs_count0. assert (size (reserved p) ≤ size W)%nat by by apply subseteq_size. lia.
Qed.

(** What a step leaves. *)
Definition Stays W (r : pprogress (V := V)) p' : Prop :=
  ∃ l', Reserve p' l' (W ∪ waiter_set r) ∧ waiter_set r ## W.

Lemma stays_finish p l W ok v eg : Reserve p l W → wp (pfinish ok v eg) (Stays W) p.
Proof. intros HC. unfold pfinish. wp_simpl. exists l. cbn. rewrite union_empty_r_L. split; [done|set_solver]. Qed.
Lemma stays_continue p l W k : waiter_of k = None → Reserve p l W → wp (pcontinue k) (Stays W) p.
Proof.
  intros Hw HC. unfold pcontinue. wp_simpl. exists l. cbn. rewrite Hw, union_empty_r_L. split; [done|set_solver].
Qed.
Hint Resolve stays_finish : pool_safety.

Ltac frame := eapply Reserve_frame; [eassumption| |done..]; cbn; try done;
  try (eapply rs_repr; eassumption).
(** A call goes on after changes that do not touch the waiters. *)
Ltac goes_on :=
  lazymatch goal with
  | |- wp (pfinish _ _ _) _ _ => eapply stays_finish
  | _ => eapply stays_continue; [done|]
  end; frame.

Lemma reserve_wake p l W : Reserve p l W → wp pool_wake_waiter (λ _ p', Reserve p' l W) p.
Proof.
  intros HC. unfold pool_wake_waiter, pool_queue_first_unreserved. rewrite wp_bind, wp_get.
  destruct (first_unreserved _ _) as [w|] eqn:Hw; wp_simpl; [|done].
  apply first_unreserved_Some in Hw as [Hin Hno]. split; [by apply bool_decide_eq_true|].
  pose proof (reserve_small _ _ _ HC). destruct HC.
  assert (size (reserved p ∪ {[w]}) = size (reserved p) + 1)%nat as Hsz
    by (rewrite size_union, size_singleton by set_solver; lia).
  constructor; cbn; try done; [|set_solver]. rewrite u32_small by lia. lia.
Qed.

Lemma wake_goes_on p l W (m : M (async_pool_t Q V) pprogress) : Reserve p l W →
  (∀ p', Reserve p' l W → wp m (Stays W) p') → wp (pool_wake_waiter;; m) (Stays W) p.
Proof. intros HC Hm. wp_apply reserve_wake; [done|]. eauto. Qed.
Lemma wake_stays p l W ok v eg : Reserve p l W → wp (pool_wake_waiter;; pfinish ok v eg) (Stays W) p.
Proof. intros HC. eapply wake_goes_on; [done|]. eauto with pool_safety. Qed.

Lemma reserve_take p v l W : Reserve p (v :: l) W → wp take_idle (λ _ p', Reserve p' l W) p.
Proof.
  intros HC. unfold take_idle. rewrite wp_bind, wp_zoom.
  wp_apply (q_pop_spec _ (v :: l)); [by eapply rs_repr|]. intros r q (-> & Hq & _).
  unfold wp, of_option. cbn. frame.
Qed.
Lemma reserve_push p l W r : Reserve p l W →
  wp (zoom idle set_idle (q_push r true)) (λ _ p', ∃ l', Reserve p' l' W) p.
Proof.
  intros HC. rewrite wp_zoom. wp_apply (q_push_spec _ l r true); [by eapply rs_repr|]. intros res q [Hq _].
  destruct res; [destruct Hq as [Hq _]; exists (l ++ [r]); frame|].
  subst q. exists l. frame.
Qed.

(** ** Each part of a call *)
Lemma giveup_stays p l W b e : Reserve p l W → wp (acquire_giveup b e) (Stays W) p.
Proof.
  intros HC. unfold acquire_giveup. destruct b; rewrite !wp_bind; [|by eapply stays_finish].
  wp_apply reserve_wake; [done|]. intros _ p' HC'. wp_simpl. by eapply stays_finish.
Qed.

Lemma park_stays p l W timeout : Reserve p l W → Z.of_nat (size W) < 2 ^ 31 - 1 →
  wp (pool_wait_for_resource timeout) (Stays W) p.
Proof.
  intros [] Hb. unfold pool_wait_for_resource, pool_queue_push, pcontinue. wp_simpl. exists l. cbn.
  assert (next_pool_waiter p ∉ W) as Hn by (intros ?%rs_fresh0; lia).
  split; [|set_solver]. constructor; cbn; try done.
  - set_solver.
  - apply NoDup_app. split_and!; [done| |apply NoDup_singleton].
    intros w Hw ->%list_elem_of_singleton. by apply Hn, rs_queue0.
  - intros w [?%rs_queue0| ->%list_elem_of_singleton]%elem_of_app; set_solver.
  - intros w [?%rs_fresh0| ->%elem_of_singleton]%elem_of_union; lia.
  - rewrite size_union, size_singleton by set_solver. lia.
Qed.

(** Taking an idle resource, when the buffer is not empty. *)
Lemma take_stays p l W (mk : V → pcall) : Reserve p l W → l ≠ [] → (∀ v, waiter_of (mk v) = None) →
  wp (resource ← take_idle; active_incr;; pcontinue (mk resource)) (Stays W) p.
Proof.
  intros HC Hne Hmk. destruct l as [|v l]; [done|]. wp_apply reserve_take; [done|].
  intros r p' HC'. unfold active_incr. rewrite wp_bind, wp_modify. eapply stays_continue; [done|]. frame.
Qed.

Lemma acquire_retry_stays p l W timeout b : Reserve p l W → Z.of_nat (size W) < 2 ^ 31 - 1 →
  wp (acquire_retry timeout b) (Stays W) p.
Proof.
  intros HC Hb. unfold acquire_retry. rewrite wp_bind, wp_get, wp_if.
  destruct (p_closed p); [by eapply giveup_stays|]. rewrite wp_if. case_bool_decide; [by eapply giveup_stays|].
  rewrite wp_if, (q_is_empty_spec _ l) by exact (rs_repr _ _ _ HC).
  destruct (negb (bool_decide (l = [])) && _) eqn:E1.
  { apply andb_true_iff in E1 as [Hne%negb_true_iff%bool_decide_eq_false _]. by eapply take_stays. }
  rewrite wp_if. destruct ((_ <? _) && _); [|by eapply park_stays].
  unfold active_incr. rewrite wp_bind, wp_modify. goes_on.
Qed.

Lemma try_acquire_stays p l W : Reserve p l W → wp zend_async_pool_try_acquire (Stays W) p.
Proof.
  intros HC. unfold zend_async_pool_try_acquire. rewrite wp_bind, wp_get, wp_if.
  destruct (p_closed p); [by eapply stays_finish|]. rewrite wp_if. case_bool_decide; [by eapply stays_finish|].
  rewrite wp_if, (q_is_empty_spec _ l) by exact (rs_repr _ _ _ HC).
  destruct (negb (bool_decide (l = [])) && _) eqn:E1.
  { apply andb_true_iff in E1 as [Hne%negb_true_iff%bool_decide_eq_false _]. by eapply take_stays. }
  rewrite wp_if. destruct ((_ <? _) && _); [|by eapply stays_finish].
  unfold active_incr. rewrite wp_bind, wp_modify. goes_on.
Qed.

Lemma check_out_stays p l W r eg : Reserve p l W →
  wp (pool_check_out r;; pfinish true (Some r) eg) (Stays W) p.
Proof.
  intros HC. unfold pool_check_out. rewrite wp_bind. destruct (obj_handle r); rewrite wp_modify; goes_on.
Qed.

Lemma resume_stays p l W w eg : Reserve p l (W ∪ {[w]}) → w ∉ W →
  wp (wait_for_resource_resume w eg) (λ _ p', Reserve p' l W) p.
Proof.
  intros HC Hw. unfold wait_for_resource_resume, pool_queue_remove. wp_simpl.
  pose proof (reserve_small _ _ _ HC) as Hrc.
  destruct (pool_queue_remove_spec w (pool_waiters p) (rs_nodup _ _ _ HC)) as [Hnd Hel].
  destruct (queue_remove w (pool_waiters p)) as [found rest]. cbn in Hnd, Hel.
  rewrite wp_bind, wp_modify, wp_ret. wp_simpl.
  assert (∀ rc, rc = Z.of_nat (size (reserved p ∖ {[w]})) →
    Reserve (set_reserved (reserved p ∖ {[w]}) (set_reserved_count rc (set_pool_waiters rest p))) l W) as Hleave.
  { intros rc ->. destruct HC. constructor; cbn; try done.
    - intros x [Hx%rs_reserved0 Hn]%elem_of_difference. set_solver.
    - intros x [Hx%rs_queue0 Hn]%Hel. set_solver.
    - intros x Hx. apply rs_fresh0. set_solver.
    - assert (size W ≤ size (W ∪ {[w]}))%nat by (apply subseteq_size; set_solver). lia. }
  pose proof (rs_count _ _ _ HC) as Hcount. case_bool_decide as Hres.
  - assert (size (reserved p) = S (size (reserved p ∖ {[w]}))) as Hsz.
    { replace (reserved p) with ({[w]} ∪ (reserved p ∖ {[w]})) at 1
        by (symmetry; apply union_difference_singleton_L; done).
      rewrite size_union, size_singleton by set_solver. lia. }
    wp_simpl. split; [apply Z.ltb_lt; lia|]. rewrite u32_small by (cbn; lia). cbn.
    specialize (Hleave (reserved_count p - 1) ltac:(lia)). destruct (bool_decide _ && _); wp_simpl; [|done].
    wp_apply reserve_wake; [done|]. intros _ p' HC'. by wp_simpl.
  - wp_simpl. cbn. apply (Hleave (reserved_count p)).
    by rewrite (difference_disjoint_L (reserved p) {[w]}) by set_solver.
Qed.

Lemma close_loop_stays p l W first parked : Reserve p l W → wp (close_loop first parked) (Stays W) p.
Proof.
  intros HC. unfold close_loop. rewrite wp_bind, wp_get, wp_if, (q_is_empty_spec _ l) by exact (rs_repr _ _ _ HC).
  case_bool_decide as Hl; [by eapply stays_finish|]. destruct l as [|v l]; [done|].
  rewrite wp_bind. wp_apply reserve_take; [done|]. intros r p' HC'. by eapply stays_continue.
Qed.

Lemma pool_close_stays p l W active eg : Reserve p l W → wp (zend_async_pool_close active eg) (Stays W) p.
Proof.
  intros HC. unfold zend_async_pool_close, pool_stop_healthcheck_timer, pool_wake_all_with_exception.
  rewrite wp_bind, wp_get, wp_if. destruct (p_closed p); [by eapply stays_finish|].
  rewrite wp_bind, wp_modify, wp_bind, wp_modify, wp_bind. destruct active.
  - rewrite wp_bind, wp_get. wp_apply wake_all_loop_spec; [cbn; lia|]. intros _ p' ->.
    eapply (close_loop_stays _ l). destruct HC. constructor; cbn; try done; [constructor|set_solver].
  - rewrite wp_ret. eapply (close_loop_stays _ l). frame.
Qed.

Lemma healthcheck_next_stays p l W todo eg : Reserve p l W → wp (healthcheck_next todo eg) (Stays W) p.
Proof.
  intros HC. unfold healthcheck_next, healthcheck_end. destruct todo as [|todo]; [by eapply wake_stays|].
  rewrite wp_bind, wp_zoom. wp_apply (q_pop_spec _ l); [apply HC|]. intros res q. destruct l as [|v l].
  - intros [-> ->]. replace (set_idle (idle p) p) with p by by destruct p. by eapply wake_stays.
  - intros (-> & Hq & _). unfold active_incr. rewrite wp_bind, wp_modify. goes_on.
Qed.
Lemma push_next_stays p l W r todo eg : Reserve p l W →
  wp (zoom idle set_idle (q_push r true);; healthcheck_next todo eg) (Stays W) p.
Proof.
  intros HC. rewrite wp_bind. wp_apply reserve_push; [done|]. intros _ p' [l' HC'].
  by eapply healthcheck_next_stays.
Qed.

(** *** The return of each hook *)
Lemma hook_stays k p l W (a : answer V) m : Reserve p l (W ∪ waiter_set (inr k)) →
  Z.of_nat (size W) < 2 ^ 31 - 1 → hook_returned k a = Some m → wp m (Stays W) p.
Proof.
  intros HC Hb Hm. assert (waiter_of k = None) as Hk by by destruct k.
  cbn in HC. rewrite Hk, union_empty_r_L in HC. clear Hk.
  destruct k as [t w|t r|t eg|t|r|eg| |r eg|r eg|r eg|eg wake|first parked|todo r eg|todo stop eg|todo eg];
    simplify_eq/=.
  - unfold acquire_checked. rewrite wp_bind, wp_get.
    destruct (pool_call_before_acquire p a None) as [[] eg]; cbn; [by eapply check_out_stays|].
    unfold active_decr. rewrite wp_bind, wp_modify. goes_on.
  - unfold acquire_destroyed. destruct (pool_destroy_resource a eg); [by eapply wake_stays|by eapply acquire_retry_stays].
  - unfold acquire_created. rewrite wp_bind, wp_get.
    destruct (pool_create_resource p a) as [[r|] eg]; [by eapply check_out_stays|].
    unfold active_decr. rewrite wp_bind, wp_modify. eapply wake_goes_on; [frame|].
    intros p' HC'. destruct eg; by eapply stays_finish.
  - unfold try_acquire_checked. rewrite wp_bind, wp_get.
    destruct (pool_call_before_acquire p a None) as [[] eg]; cbn; [by eapply check_out_stays|].
    unfold active_decr. rewrite wp_bind, wp_modify. goes_on.
  - unfold try_acquire_destroyed. destruct (pool_destroy_resource a eg); [by eapply wake_stays|by eapply try_acquire_stays].
  - unfold try_acquire_created. rewrite wp_bind, wp_get.
    destruct (pool_create_resource p a) as [[r|] eg]; [by eapply check_out_stays|].
    unfold active_decr. rewrite wp_bind, wp_modify. eapply wake_stays. frame.
  - unfold release_checked. rewrite wp_bind, wp_get. destruct (pool_call_before_release p a eg) as [ok eg'].
    unfold active_decr. rewrite wp_bind, wp_modify.
    destruct ok, eg' as [e|]; cbn; try destruct (pool_exception_ends_coroutine e); goes_on.
  - unfold release_reported_failure. rewrite wp_bind, wp_get. goes_on.
  - unfold release_reported_success. rewrite wp_bind, wp_get, wp_if. destruct (p_closed p); [goes_on|].
    rewrite wp_bind. wp_apply reserve_push; [done|]. intros _ p' [l' HC']. by eapply wake_stays.
  - unfold release_destroyed. destruct wake; rewrite !wp_bind; [|wp_simpl; by eapply stays_finish].
    wp_apply reserve_wake; [done|]. intros _ p' HC'. wp_simpl. by eapply stays_finish.
  - by eapply close_loop_stays.
  - unfold healthcheck_checked. rewrite wp_bind, wp_get. destruct (pool_call_healthcheck p a eg) as [ok eg'].
    unfold active_decr. rewrite wp_bind, wp_modify. destruct ok; [|goes_on].
    destruct (p_closed p); [goes_on|]. eapply push_next_stays. frame.
  - unfold healthcheck_destroyed, healthcheck_end. destruct stop; [by eapply wake_stays|].
    destruct (pool_destroy_resource a eg); [by eapply wake_stays|].
    rewrite wp_bind, wp_get, wp_if. destruct (_ <? _); [goes_on|by eapply healthcheck_next_stays].
  - unfold healthcheck_created, healthcheck_end. rewrite wp_bind, wp_get.
    destruct (pool_create_resource p a) as [[r|] [e|]]; try by eapply push_next_stays.
    + by eapply wake_stays.
    + by eapply healthcheck_next_stays.
Qed.

Lemma pool_release_stays p l W r eg : Reserve p l W → wp (zend_async_pool_release r eg) (Stays W) p.
Proof.
  intros HC. unfold zend_async_pool_release, pool_check_in. wp_simpl.
  destruct (active_count p =? 0); [by eapply stays_finish|].
  destruct (obj_handle r); [case_bool_decide; [|by eapply stays_finish]|]; wp_simpl; goes_on.
Qed.

Lemma timer_stays p l W : Reserve p l W → wp pool_healthcheck_timer_callback (Stays W) p.
Proof.
  intros HC. unfold pool_healthcheck_timer_callback. rewrite wp_bind, wp_get, wp_if.
  destruct (p_closed p); [by eapply stays_finish|]. rewrite wp_if.
  destruct (negb _); [by eapply stays_finish|by eapply healthcheck_next_stays].
Qed.

Lemma acquire_resume_stays p l W timeout w eg : Reserve p l (W ∪ {[w]}) → w ∉ W →
  Z.of_nat (size W) < 2 ^ 31 - 1 → wp (acquire_resume timeout w eg) (Stays W) p.
Proof.
  intros HC Hw Hb. unfold acquire_resume. wp_apply resume_stays; [done..|].
  intros b p' HC'. destruct eg; [by eapply stays_finish|by eapply acquire_retry_stays].
Qed.

(** ** Every step *)
Record PSafe (s : psys (V := V) (Q := Q)) l : Prop := {
  ps_reserve : Reserve (ps_pool s) l (wset (ps_calls s));
  ps_inj : ∀ id id' k k' w, ps_calls s !! id = Some k → ps_calls s !! id' = Some k' →
    waiter_of k = Some w → waiter_of k' = Some w → id = id';
  ps_size : Z.of_nat (size (ps_calls s)) < 2 ^ 31
}.

Lemma PInv_PSafe s l : PInv s l → PSafe s l.
Proof. intros []. constructor; [by eapply Core_Reserve|done..]. Qed.

Lemma safe_lift s l id (m : M (async_pool_t Q V) pprogress) :
  let rest := delete id (ps_calls s) in
  PSafe s l → Z.of_nat (size rest) < 2 ^ 31 - 1 → wp m (Stays (wset rest)) (ps_pool s) →
  ∃ s', prun_call id m s = Some s' ∧ ∃ l', PSafe s' l'.
Proof.
  intros rest [] Hsz (r & p' & Hm & l' & HC & Hdis)%wp_run.
  unfold prun_call. rewrite Hm. eexists. split; [done|]. exists l'.
  assert (rest !! id = None) as Hn by apply lookup_delete_eq.
  assert (∀ id1 id2 k1 k2 w, rest !! id1 = Some k1 → rest !! id2 = Some k2 →
    waiter_of k1 = Some w → waiter_of k2 = Some w → id1 = id2) as Hinj.
  { intros id1 id2 k1 k2 w [_ H1]%lookup_delete_Some [_ H2]%lookup_delete_Some. by eauto. }
  destruct r as [res|k]; cbn in HC, Hdis.
  - rewrite union_empty_r_L in HC. fold rest. constructor; cbn [ps_pool ps_calls]; [done..|lia].
  - rewrite <- (insert_delete_eq (ps_calls s)). fold rest. constructor; cbn.
    + by rewrite wset_insert.
    + intros id1 id2 k1 k2 w. assert (∀ id' k', rest !! id' = Some k' → waiter_of k = Some w → waiter_of k' ≠ Some w).
      { intros id' k' Hk' Hw Hw'. rewrite Hw in Hdis. assert (w ∈ wset rest) by (apply elem_of_wset; eauto).
        set_solver. }
      destruct (decide (id1 = id)) as [->|], (decide (id2 = id)) as [->|]; simplify_map_eq; [done|naive_solver..|eauto].
    + rewrite map_size_insert_None by done. lia.
Qed.

(** The invariant seen from one call. *)
Lemma PSafe_split s l id k : PSafe s l → ps_calls s !! id = Some k →
  let rest := delete id (ps_calls s) in
  Reserve (ps_pool s) l (wset rest ∪ waiter_set (inr k)) ∧ (waiter_set (inr k) ## wset rest) ∧
  Z.of_nat (size rest) < 2 ^ 31 - 1.
Proof.
  intros [] Hk. cbn zeta. rewrite (wset_delete _ _ _ Hk) in ps_reserve0. split_and!; [done| |].
  - cbn. destruct (waiter_of k) as [w|] eqn:Hw; [|set_solver]. intros w' ->%elem_of_singleton Hin.
    apply elem_of_wset in Hin as (id' & k' & [Hne Hk']%lookup_delete_Some & Hw').
    apply Hne. by eapply (ps_inj0 id id').
  - rewrite map_size_delete, Hk. assert (0 < size (ps_calls s))%nat; [|lia].
    apply Nat.neq_0_lt_0. intros E%map_size_empty_iff. by rewrite E, lookup_empty in Hk.
Qed.

Lemma safe_fresh s l id (m : M (async_pool_t Q V) pprogress) : PSafe s l →
  bool_decide (ps_calls s !! id = None) && (Z.of_nat (size (ps_calls s)) <? 2 ^ 31 - 1) = true →
  (∀ p l W, Reserve p l W → Z.of_nat (size W) < 2 ^ 31 - 1 → wp m (Stays W) p) →
  ∃ s', prun_call id m s = Some s' ∧ ∃ l', PSafe s' l'.
Proof.
  intros HS [Hn%bool_decide_eq_true Hlt%Z.ltb_lt]%andb_true_iff Hm.
  assert (delete id (ps_calls s) = ps_calls s) as Hdel by by apply delete_id.
  pose proof (size_wset (ps_calls s)). eapply safe_lift; [done|by rewrite Hdel|].
  rewrite Hdel. eapply Hm; [apply HS|lia].
Qed.

Lemma safe_op s l (m : M (async_pool_t Q V) unit) deact p' : PSafe s l → m (ps_pool s) = Some (tt, p') →
  (∃ x y, p' = set_h_strategy y (set_circuit_state x (ps_pool s))) →
  ∃ s', prun_op m deact s = Some s' ∧ ∃ l', PSafe s' l'.
Proof.
  intros [] Hm (x & y & ->). unfold prun_op. rewrite Hm. eexists. split; [done|]. exists l.
  constructor; cbn; try done. by destruct ps_reserve0.
Qed.

Lemma pexec_safe o s l : PSafe s l → ppossible o s = true → ∃ s', pexec o s = Some s' ∧ ∃ l', PSafe s' l'.
Proof.
  intros HS Hen. destruct o as [id t|id|id r eg|id act eg|id|id eg|id a| | | |b]; unfold ppossible, penabled in Hen; unfold pexec.
  - eapply safe_fresh; [done..|]. intros. by eapply acquire_retry_stays.
  - eapply safe_fresh; [done..|]. intros. by eapply try_acquire_stays.
  - eapply safe_fresh; [done..|]. intros. by eapply pool_release_stays.
  - eapply safe_fresh; [done..|]. intros. by eapply pool_close_stays.
  - apply andb_true_iff in Hen as [Hen _]. eapply safe_fresh; [done..|]. intros. by eapply timer_stays.
  - destruct (ps_calls s !! id) as [k|] eqn:Hk; [|done]. destruct k; try done.
    destruct (PSafe_split s l id _ HS Hk) as (HC & Hdis & Hsz). cbn in HC, Hdis.
    pose proof (size_wset (delete id (ps_calls s))).
    eapply safe_lift; [done..|]. eapply acquire_resume_stays; [done|set_solver|lia].
  - destruct (ps_calls s !! id) as [k|] eqn:Hk; [|done]. cbn.
    destruct (hook_returned k a) as [m|] eqn:Hm; [|by destruct k]. cbn.
    destruct (PSafe_split s l id _ HS Hk) as (HC & Hdis & Hsz).
    pose proof (size_wset (delete id (ps_calls s))).
    eapply safe_lift; [done..|]. eapply hook_stays; [done|lia|done].
  - eapply safe_op; [done..|]. by exists ZEND_ASYNC_CIRCUIT_STATE_ACTIVE, (h_strategy (ps_pool s)).
  - eapply safe_op; [done..|]. by exists ZEND_ASYNC_CIRCUIT_STATE_INACTIVE, (h_strategy (ps_pool s)).
  - eapply safe_op; [done..|]. by exists ZEND_ASYNC_CIRCUIT_STATE_RECOVERING, (h_strategy (ps_pool s)).
  - eapply safe_op; [done..|]. by exists (circuit_state (ps_pool s)), (if b then HFcall else HNull).
Qed.

(** ** The runs of a pool after its creation *)
Context `{!FifoCtor Q V}.

Definition pstarted (P : psys (V := V) (Q := Q) → Prop) : Prop :=
  ∃ buf0 hf hd hh ha hr mn mx interval answers tc e p,
    (0 ≤ mn ≤ mx ∧ mn ≤ 2 ^ 31 ∧ mx < 2 ^ 32) ∧
    (∀ q, q_ctor (if 0 <? mn then mn else 4) buf0 ≠ Some (FAILURE, q)) ∧
    zend_async_pool_create buf0 hf hd hh ha hr mn mx interval answers tc = Some (e, p) ∧
    P (mk_psys p ∅ false).

(** Any interleaving of possible steps. *)
Definition prunning_any (s : psys (V := V) (Q := Q)) : Prop := pstarted (λ s0, pinterleaved s0 s).

Lemma prunning_running_any s : prunning s → prunning_any s.
Proof.
  intros (? & ? & ? & ? & ? & ? & ? & ? & ? & ? & ? & ? & ? & ? & ? & ? & ?%preachable_interleaved).
  unfold prunning_any, pstarted. do 13 eexists. split_and!; try eassumption; lia.
Qed.

Lemma prunning_any_PSafe s : prunning_any s → ∃ l, PSafe s l.
Proof.
  intros (buf0 & hf & hd & hh & ha & hr & mn & mx & interval & answers & tc & e & p & (? & ? & ?) & Hok & Hc & Hr).
  assert (∃ l, PSafe (mk_psys p ∅ false) l) as Hinit.
  { destruct (create_PInv buf0 hf hd hh ha hr mn mx interval answers tc e p) as [l ?%PInv_PSafe]; eauto. }
  induction Hr as [|s o s' Hr IH Hen Hex]; [done|]. destruct IH as [l IH].
  destruct (pexec_safe o s l IH Hen) as (s1 & ? & ?). by simplify_eq.
Qed.
End safety.
