(* ===== verification/PoolTheorems.v ===== *)
(** * The properties of the pool

    What the invariant of [PoolProofs] says of every interleaving of calls and
    hooks, the outcomes of the operations, and the interleavings and arguments for
    which the code does not do what its comments promise. *)

From S2P Require Import Prelude CircularBuffer Pool PoolProofs PoolSafety.

Local Open Scope Z_scope.

(** ** Concrete pools

    Resources are integers: the non-negative ones are object handles, the others
    scalars. *)
#[local] Instance pdemo_resource : Resource Z := λ v, if v <? 0 then None else Some v.
#[local] Instance pdemo_ctor : FifoCtor (circular_buffer_t Z) Z :=
  circular_buffer_fifo_ctor Z demo_allocator demo_allocator_ok.

Fixpoint prun_all {V Q} `{!FifoBuffer Q V, !Resource V} (os : list (pop (V := V)))
    (s : psys (V := V) (Q := Q)) : option (psys (V := V) (Q := Q)) :=
  match os with
  | [] => Some s
  | o :: os => if penabled o s then pexec o s ≫= prun_all os else None
  end.

(** Every step is calm. *)
Fixpoint all_calm {V Q} `{!FifoBuffer Q V, !Resource V} (os : list (pop (V := V)))
    (s : psys (V := V) (Q := Q)) : bool :=
  match os with
  | [] => true
  | o :: os => calm o s && match pexec o s with Some s' => all_calm os s' | None => false end
  end.

Lemma prun_all_reachable {V Q} `{!FifoBuffer Q V, !Resource V} os (s0 s s' : psys (V := V) (Q := Q)) :
  preachable s0 s → prun_all os s = Some s' → all_calm os s = true → preachable s0 s'.
Proof.
  revert s. induction os as [|o os IH]; intros s Hr Hrun Hc; simpl in Hrun, Hc; [by simplify_eq|].
  apply andb_true_iff in Hc as [Ho Hc].
  destruct (penabled o s) eqn:He; [|done]. destruct (pexec o s) as [s1|] eqn:Hx; [|done].
  eapply IH; [|done..]. by eapply preach_step.
Qed.

Definition answer_ok (v : Z) : answer Z := mk_answer true v None.
Definition answer_no : answer Z := mk_answer false 0 None.
Definition answer_exn (e : exception) : answer Z := mk_answer true 0 (Some e).

(** A pool with every hook set, one or two places and no resource yet. *)
Definition pdemo_start (mn mx : Z) : option (psys (V := Z) (Q := circular_buffer_t Z)) :=
  '(_, p) ← zend_async_pool_create (zeroed demo_allocator) HFcall HFcall HFcall HFcall HFcall mn mx 10
    (λ i, answer_ok (100 + Z.of_nat i)) true;
  Some (mk_psys p ∅ false).

Definition pdemo_run (mn mx : Z) (os : list (pop (V := Z)))
    : option (psys (V := Z) (Q := circular_buffer_t Z)) := pdemo_start mn mx ≫= prun_all os.

(** The run succeeds and its last state passes the test. *)
Definition pdemo_test (mn mx : Z) (os : list (pop (V := Z)))
    (test : psys (V := Z) (Q := circular_buffer_t Z) → bool) : bool :=
  match pdemo_run mn mx os with Some s => test s | None => false end.

Lemma pdemo_test_run mn mx os test : pdemo_test mn mx os test = true →
  ∃ s, pdemo_run mn mx os = Some s ∧ test s = true.
Proof. unfold pdemo_test. destruct (pdemo_run mn mx os); naive_solver. Qed.

Definition pdemo_state (mx : Z) (os : list (pop (V := Z))) : psys (V := Z) (Q := circular_buffer_t Z) :=
  default (mk_psys (mk_pool false ZEND_ASYNC_CIRCUIT_STATE_ACTIVE HNull HNull HNull HNull HNull HNull 0 0
    (zeroed demo_allocator) 0 ∅ 0 [] ∅ 0%nat false 0 0 []) ∅ false) (pdemo_run 0 mx os).

Lemma pdemo_running mx os :
  (0 <=? mx) && (mx <? 2 ^ 32) && match pdemo_start 0 mx with Some s => all_calm os s | None => false end &&
    pdemo_test 0 mx os (λ _, true) = true →
  prunning (pdemo_state mx os).
Proof.
  intros [[[Hlo%Z.leb_le Hhi%Z.ltb_lt]%andb_true_iff Hcalm]%andb_true_iff Ht]%andb_true_iff.
  unfold pdemo_state, pdemo_test, pdemo_run in *. unfold pdemo_start in *.
  destruct (zend_async_pool_create _ _ _ _ _ _ _ _ _ _ _) as [[e p]|] eqn:Hc; [|done]. simpl in *.
  destruct (prun_all os _) as [s|] eqn:E; [|done]. simpl.
  unfold prunning. do 11 eexists. exists e, p. split; [|split; [|split; [exact Hc|]]]; [lia| |].
  - assert (match q_ctor 4 (zeroed demo_allocator) with Some (FAILURE, _) => false | _ => true end = true)
      as Hok by (vm_compute; reflexivity).
    intros q Hq. change (q_ctor 4 (zeroed demo_allocator) = Some (FAILURE, q)) in Hq. by rewrite Hq in Hok.
  - eapply prun_all_reachable; [constructor|done|done].
Qed.

Ltac pdemo_runs := apply pdemo_running; vm_compute; reflexivity.

(** One place: the first call creates the resource, the second waits, the first
    gives the resource back and the waiter is woken. *)
Definition pdemo_ops : list (pop (V := Z)) :=
  [PAcquire 0 0; PHook 0 (answer_ok 7); PAcquire 1 0; PRelease 2 7 None; PHook 2 (answer_ok 0);
   PHook 2 (answer_ok 0)].

(** ** Safety *)

(** A run in which the hooks may let anything happen: while reportSuccess of call 1
    is suspended, call 2 takes the place and call 1 goes on. *)
Definition pdemo_wild : list (pop (V := Z)) :=
  [PAcquire 0 0; PHook 0 (answer_ok 7); PRelease 1 7 None; PHook 1 (answer_ok 0); PAcquire 2 0;
   PHook 2 (answer_ok 8); PAcquire 3 0; PRelease 4 (-1) None].

Fixpoint all_possible {V Q} `{!FifoBuffer Q V, !Resource V} (os : list (pop (V := V)))
    (s : psys (V := V) (Q := Q)) : option (psys (V := V) (Q := Q)) :=
  match os with
  | [] => Some s
  | o :: os => if ppossible o s then pexec o s ≫= all_possible os else None
  end.

Lemma all_possible_interleaved {V Q} `{!FifoBuffer Q V, !Resource V} os (s0 s s' : psys (V := V) (Q := Q)) :
  pinterleaved s0 s → all_possible os s = Some s' → pinterleaved s0 s'.
Proof.
  revert s. induction os as [|o os IH]; intros s Hr Hrun; simpl in Hrun; [by simplify_eq|].
  destruct (ppossible o s) eqn:He; [|done]. destruct (pexec o s) as [s1|] eqn:Hx; [|done].
  eapply IH; [|done]. by eapply pint_step.
Qed.

Definition pdemo_any (os : list (pop (V := Z))) : psys (V := Z) (Q := circular_buffer_t Z) :=
  default (pdemo_state 1 []) (pdemo_start 0 1 ≫= all_possible os).

Lemma pdemo_running_any os :
  match pdemo_start 0 1 ≫= all_possible os with Some _ => true | None => false end = true →
  prunning_any (pdemo_any os).
Proof.
  intros Ht. unfold pdemo_any in *. unfold pdemo_start in *.
  destruct (zend_async_pool_create _ _ _ _ _ _ _ _ _ _ _) as [[e p]|] eqn:Hc; [|done]. simpl in *.
  destruct (all_possible os _) as [s|] eqn:E; [|done]. simpl.
  unfold prunning_any, pstarted. do 11 eexists. exists e, p. split; [|split; [|split; [exact Hc|]]]; [lia| |].
  - assert (match q_ctor 4 (zeroed demo_allocator) with Some (FAILURE, _) => false | _ => true end = true)
      as Hok by (vm_compute; reflexivity).
    intros q Hq. change (q_ctor 4 (zeroed demo_allocator) = Some (FAILURE, q)) in Hq. by rewrite Hq in Hok.
  - eapply all_possible_interleaved; [constructor|done].
Qed.

Ltac pdemo_runs_any := apply pdemo_running_any; vm_compute; reflexivity.

(** C7 No undefined behaviour in the pool, in any interleaving: from every state
    that the calls, hooks, timer and resumptions can reach, also when reportSuccess
    or the factory of a healthcheck is suspended and when a client releases
    scalars that were not lent, every step that can happen is defined: no
    reservation is consumed twice (the [ZEND_ASSERT]), no UNDEF value is taken from
    the idle buffer, and the loops end.  The bound is fewer than 2^31 calls at a
    time. *)
Theorem pool_no_undefined_behaviour {V Q} `{!FifoBuffer Q V, !Resource V, !FifoCtor Q V}
    (s : psys (V := V) (Q := Q)) (o : pop) :
  prunning_any s → ppossible o s = true → ∃ s', pexec o s = Some s'.
Proof. intros [l Hs]%prunning_any_PSafe Hen. destruct (pexec_safe o s l Hs Hen) as (s' & ? & _). eauto. Qed.

Lemma pool_no_undefined_behaviour_witness :
  ∃ s', pexec (PHook 1 (answer_ok 0)) (pdemo_any pdemo_wild) = Some s'.
Proof. apply pool_no_undefined_behaviour; [pdemo_runs_any|vm_compute; reflexivity..]. Defined.

(** C5 The accounting of [pool.h].  In every interleaving [reserved_count] is
    exactly the number of woken waiters that have not run, and each of them is
    parked.  In a calm run (no other step while a reportSuccess hook or the factory
    of the healthcheck runs, and scalars released only while some are lent) the
    idle and the active resources together never exceed [max_size], and
    [active_count] never falls below the resources lent and the calls that hold a
    place.  Without calm the second part fails: [suspended_hook_exceeds_max],
    [scalar_double_release_underflows]. *)
Theorem pool_accounting {V Q} `{!FifoBuffer Q V, !Resource V, !FifoCtor Q V}
    (s : psys (V := V) (Q := Q)) :
  let p := ps_pool s in
  (prunning_any s →
   reserved_count p = Z.of_nat (size (reserved p)) ∧
   ∀ w, w ∈ reserved p → ∃ id t, ps_calls s !! id = Some (AcqWait t w)) ∧
  (prunning s →
   zend_async_pool_count p = q_count (idle p) + active_count p ∧
   q_count (idle p) + active_count p ≤ max_size p ∧
   Z.of_nat (size (checked_out p)) + total_of inflight (ps_calls s) ≤ active_count p).
Proof.
  intros p. split.
  - intros [l [[] _ _]]%prunning_any_PSafe. split; [done|].
    intros w Hw%rs_reserved%elem_of_wset. destruct Hw as (id & k & Hk & Hw). destruct k; simplify_eq/=. eauto.
  - intros [l []]%prunning_PInv. pose proof (total_small _ _ _ _ _ pi_core) as Ht. pose proof pi_core as [].
    rewrite (q_count_spec _ l) in * by done. split_and!; [exact Ht|unfold p; lia..].
Qed.

Lemma pool_accounting_witness :
  let s := pdemo_state 1 pdemo_ops in
  let p := ps_pool s in
  zend_async_pool_count p = q_count (idle p) + active_count p ∧
  q_count (idle p) + active_count p ≤ max_size p ∧
  Z.of_nat (size (checked_out p)) + total_of inflight (ps_calls s) ≤ active_count p.
Proof. apply pool_accounting. pdemo_runs. Defined.

(** C6 No wakeup is lost in a calm run (see C5) of an open pool whose circuit was
    never inactive: as long as some waiter has no reservation, every place is taken
    or reserved, unless a call has just given one up and is about to wake a waiter
    for it.  With an inactive circuit a wakeup can be lost:
    [deactivation_loses_wakeup]. *)
Theorem pool_no_lost_wakeup {V Q} `{!FifoBuffer Q V, !Resource V, !FifoCtor Q V}
    (s : psys (V := V) (Q := Q)) (w : nat) :
  prunning s → p_closed (ps_pool s) = false → ps_deactivated s = false →
  w ∈ pool_waiters (ps_pool s) → w ∉ reserved (ps_pool s) →
  let p := ps_pool s in
  max_size p ≤ active_count p + reserved_count p + total_of announcing (ps_calls s).
Proof. intros [l []]%prunning_PInv Hcl Hd Hw Hn p. apply pi_announce; [done..|]. eauto. Qed.

Lemma pool_no_lost_wakeup_witness :
  let p := ps_pool (pdemo_state 1 [PAcquire 0 0; PHook 0 (answer_ok 7); PAcquire 1 0]) in
  max_size p ≤ active_count p + reserved_count p +
    total_of announcing (ps_calls (pdemo_state 1 [PAcquire 0 0; PHook 0 (answer_ok 7); PAcquire 1 0])).
Proof.
  apply (pool_no_lost_wakeup _ 0%nat); [pdemo_runs|vm_compute; reflexivity..| |].
  - apply list_elem_of_lookup_2 with 0%nat. vm_compute. reflexivity.
  - apply (bool_decide_eq_true_1 _). vm_compute. reflexivity.
Defined.

(** ** Outcomes *)

(** The call parks as the last waiter. *)
Definition parks {V Q} (t : Z) (p : async_pool_t Q V) (r : pprogress (V := V)) (p' : async_pool_t Q V) : Prop :=
  r = inr (AcqWait t (next_pool_waiter p)) ∧
  pool_waiters p' = pool_waiters p ++ [next_pool_waiter p] ∧ active_count p' = active_count p.

Lemma park_parks {V Q} t (p : async_pool_t Q V) : ∃ r p',
  pool_wait_for_resource t p = Some (r, p') ∧ parks t p r p'.
Proof.
  apply (wp_run _ (parks t p)). unfold pool_wait_for_resource, pool_queue_push, pcontinue. wp_simpl.
  by split_and!.
Qed.

(** What [acquire] does first, on every branch: it throws on a closed pool and
    while the circuit is inactive; it waits, as the last in the queue, when every
    place is taken or reserved for somebody else; otherwise it takes the oldest
    idle resource, or a place for a new one, and counts it as active before the
    hook runs. *)
Theorem acquire_outcome {V Q} `{!FifoBuffer Q V, !Resource V, !FifoCtor Q V}
    (s : psys (V := V) (Q := Q)) (t : Z) :
  prunning s →
  let p := ps_pool s in
  ∃ l r p', q_repr (idle p) l ∧ zend_async_pool_acquire t p = Some (r, p') ∧
    if p_closed p then r = inl (mk_presult false None (Some ExPoolClosed)) ∧ p' = p
    else if decide (circuit_state p = ZEND_ASYNC_CIRCUIT_STATE_INACTIVE) then
      r = inl (mk_presult false None (Some ExServiceUnavailable)) ∧ p' = p
    else if decide (active_count p + reserved_count p = max_size p) then parks t p r p'
    else match l with
         | v :: l' => r = inr (AcqBefore t v) ∧ q_repr (idle p') l' ∧
           active_count p' = active_count p + 1
         | [] => if active_count p <? max_size p then
                   r = inr (AcqFactory t) ∧ active_count p' = active_count p + 1
                 else parks t p r p'
         end.
Proof.
  intros [l []]%prunning_PInv p. fold p in pi_core. pose proof pi_core as [].
  match goal with |- ∃ l r p', _ ∧ _ ∧ @?Post l r p' => enough (wp (zend_async_pool_acquire t) (Post l) p)
    as (r & p' & ? & ?)%wp_run by (by exists l, r, p') end.
  cbn beta. unfold zend_async_pool_acquire, acquire_retry, acquire_giveup, active_incr, pcontinue, pfinish.
  rewrite wp_bind, wp_get. destruct (p_closed p); [wp_simpl; by split|].
  destruct (decide (circuit_state p = _)) as [Hci|Hci];
    [rewrite bool_decide_eq_true_2 by done; wp_simpl; by split|rewrite bool_decide_eq_false_2 by done].
  rewrite (q_is_empty_spec _ l), (total_small _ _ _ _ _ pi_core), (may_serve_spec _ _ _ _ _ pi_core) by done.
  pose proof (proj2 (wp_run _ _ _) (park_parks t p)) as Hpark.
  destruct (decide (active_count p + reserved_count p = max_size p)) as [Hfull|Hroom].
  { by rewrite (proj2 (Z.eqb_eq _ _)), !andb_false_r by lia. }
  rewrite (proj2 (Z.eqb_neq _ _)), !andb_true_r by lia. destruct l as [|v l].
  - rewrite bool_decide_eq_true_2 by done. cbn [negb andb length]. rewrite Z.add_0_l.
    destruct (Z.ltb_spec (active_count p) (max_size p)); [|done].
    wp_simpl. split; [done|]. cbn. by rewrite u32_small by lia.
  - rewrite bool_decide_eq_false_2 by done. cbn [negb]. wp_apply take_idle_spec; [done|].
    intros ? p' (-> & q & -> & Hq). wp_simpl. split_and!; [done..|]. cbn in *. by rewrite u32_small by lia.
Qed.

Lemma acquire_outcome_witness :
  let p := ps_pool (pdemo_state 1 pdemo_ops) in
  ∃ l r p', q_repr (idle p) l ∧ zend_async_pool_acquire 5 p = Some (r, p') ∧
    if p_closed p then r = inl (mk_presult false None (Some ExPoolClosed)) ∧ p' = p
    else if decide (circuit_state p = ZEND_ASYNC_CIRCUIT_STATE_INACTIVE) then
      r = inl (mk_presult false None (Some ExServiceUnavailable)) ∧ p' = p
    else if decide (active_count p + reserved_count p = max_size p) then parks 5 p r p'
    else match l with
         | v :: l' => r = inr (AcqBefore 5 v) ∧ q_repr (idle p') l' ∧
           active_count p' = active_count p + 1
         | [] => if active_count p <? max_size p then
                   r = inr (AcqFactory 5) ∧ active_count p' = active_count p + 1
                 else parks 5 p r p'
         end.
Proof. apply (acquire_outcome (pdemo_state 1 pdemo_ops) 5). pdemo_runs. Defined.

(** A resource that is not lent is refused: [release] of an object whose handle
    the pool has not handed out throws and changes nothing; after a release that
    was accepted a second one of the same object is refused, even while the
    beforeRelease hook of the first one still runs. *)
Theorem double_release_refused {V Q} `{!FifoBuffer Q V, !Resource V}
    (p : async_pool_t Q V) (r : V) (h : Z) (eg : option exception) :
  obj_handle r = Some h →
  let refused := inl (mk_presult false None (Some ExNotAcquired)) in
  if bool_decide (h ∈ checked_out p) && negb (active_count p =? 0) then
    ∃ p', zend_async_pool_release r eg p = Some (inr (RelBefore r eg), p') ∧
      zend_async_pool_release r eg p' = Some (refused, p')
  else zend_async_pool_release r eg p = Some (refused, p).
Proof.
  intros Hh refused. unfold zend_async_pool_release, pool_check_in, mbind, M_bind, get. rewrite Hh.
  destruct (active_count p =? 0) eqn:E0; [by rewrite andb_false_r|]. rewrite andb_true_r.
  case_bool_decide as Hin; [|done]. eexists. split; [done|]. cbn. rewrite E0, bool_decide_eq_false_2; [done|].
  set_solver.
Qed.

Lemma double_release_refused_witness :
  let p := ps_pool (pdemo_state 1 [PAcquire 0 0; PHook 0 (answer_ok 7)]) in
  ∃ p', zend_async_pool_release 7 None p = Some (inr (RelBefore 7 None), p') ∧
    zend_async_pool_release 7 None p' = Some (inl (mk_presult false None (Some ExNotAcquired)), p').
Proof.
  intros p. pose proof (double_release_refused p 7 7 None eq_refl) as H.
  assert (bool_decide (7 ∈ checked_out p) && negb (active_count p =? 0) = true) as E by (vm_compute; reflexivity).
  rewrite E in H. exact H.
Defined.

(** The closing call with the answers of its destructors, one after another. *)
Fixpoint run_close {V Q} `{!FifoBuffer Q V} (answers : list (answer V)) (r : pprogress (V := V))
    (p : async_pool_t Q V) : option (pprogress (V := V) * async_pool_t Q V) :=
  match r, answers with
  | inr (CloseDestroy first parked), a :: answers =>
    '(r, p) ← close_destroyed first parked a p; run_close answers r p
  | _, _ => Some (r, p)
  end.

(** The exception the loop reports: the last destructor's that threw. *)
Definition last_exn {V} (answers : list (answer V)) : option exception :=
  foldl (λ first a, restore (a_exn a) first) None answers.

Lemma run_close_spec {V Q} `{!FifoBuffer Q V, !Resource V} (answers : list (answer V)) l first parked
    (p : async_pool_t Q V) : q_repr (idle p) l → length answers = length l →
  ∃ r p' q, close_loop first parked p = Some (r, p') ∧
    run_close answers r p' = Some (inl (mk_presult true None
      (restore (foldl (λ first a, restore (a_exn a) first) first answers) parked)), set_idle q p) ∧
    q_repr q [].
Proof.
  revert answers first p. induction l as [|v l IH]; intros answers first p Hl Hlen.
  - destruct answers; [|done]. unfold close_loop, mbind, M_bind, get. rewrite (q_is_empty_spec _ []) by done.
    cbn. do 2 eexists. exists (idle p). split_and!; [done| |done]. by destruct p.
  - destruct answers as [|a answers]; [done|]. cbn in Hlen.
    unfold close_loop at 1, mbind, M_bind, get, take_idle. rewrite (q_is_empty_spec _ (v :: l)) by done.
    rewrite bool_decide_eq_false_2 by done. unfold zoom.
    pose proof (q_pop_spec _ (v :: l) Hl) as (res & q & Hpop & -> & Hq & _)%wp_run.
    unfold mbind, M_bind. rewrite Hpop. cbn.
    destruct (IH answers (restore (a_exn a) first) (set_idle q p) Hq ltac:(lia)) as (r & p' & q' & Hcl & Hrun & Hq').
    do 2 eexists. exists q'. split; [done|]. split; [|done]. cbn.
    unfold close_destroyed, pool_destroy_resource. replace (restore (a_exn a) None) with (a_exn a) by by destruct (a_exn a).
    rewrite Hcl. cbn. exact Hrun.
Qed.

(** Closing an open pool rejects every queued waiter exactly once with "Pool is
    closed" and stops the timer; the loop then ends after one destructor call per
    idle resource, whether they throw or not, with nothing left in the pool and
    the exception of a destructor that threw (or the one that was in flight). *)
Theorem pool_close_outcome {V Q} `{!FifoBuffer Q V, !Resource V, !FifoCtor Q V}
    (s : psys (V := V) (Q := Q)) (answers : list (answer V)) (eg : option exception) :
  prunning s → p_closed (ps_pool s) = false →
  Z.of_nat (length answers) = q_count (idle (ps_pool s)) →
  let p := ps_pool s in
  ∃ r p1 p', zend_async_pool_close true eg p = Some (r, p1) ∧
    run_close answers r p1 = Some (inl (mk_presult true None (restore (last_exn answers) eg)), p') ∧
    q_repr (idle p') [] ∧ p_closed p' = true ∧ healthcheck_timer p' = false ∧ pool_waiters p' = [] ∧
    resumed p' = resumed p ++ ((λ w, (w, Some ExPoolClosed)) <$> reverse (pool_waiters p)).
Proof.
  intros [l []]%prunning_PInv Hcl Hlen p. fold p in pi_core, Hcl, Hlen. pose proof pi_core as [].
  rewrite (q_count_spec _ l) in Hlen by done.
  unfold zend_async_pool_close, pool_wake_all_with_exception. unfold mbind at 1, M_bind at 1, get at 1. rewrite Hcl.
  unfold mbind at 1 2, M_bind at 1 2, modify at 1, pool_stop_healthcheck_timer, modify at 1.
  set (p0 := set_healthcheck_timer false (set_p_closed true p)).
  pose proof (wake_all_loop_spec (S (length (pool_waiters p0))) ExPoolClosed p0 ltac:(lia)) as ([] & p1 & Hw & ->)%wp_run.
  unfold mbind at 1 2, M_bind at 1 2, get at 1. rewrite Hw.
  match goal with |- context [close_loop None eg ?x] => set (p2 := x) end.
  destruct (run_close_spec answers l None eg p2 co_repr ltac:(lia)) as (r & p3 & q & Hloop & Hrun & Hq).
  exists r, p3, (set_idle q p2). by split_and!.
Qed.

Lemma pool_close_outcome_witness :
  let p := ps_pool (pdemo_state 1 pdemo_ops) in
  ∃ r p1 p', zend_async_pool_close true None p = Some (r, p1) ∧
    run_close [answer_exn ExOther] r p1 =
      Some (inl (mk_presult true None (restore (last_exn [answer_exn ExOther]) None)), p') ∧
    q_repr (idle p') [] ∧ p_closed p' = true ∧ healthcheck_timer p' = false ∧ pool_waiters p' = [] ∧
    resumed p' = resumed p ++ ((λ w, (w, Some ExPoolClosed)) <$> reverse (pool_waiters p)).
Proof.
  apply (pool_close_outcome (pdemo_state 1 pdemo_ops)); [pdemo_runs|vm_compute; reflexivity..].
Defined.

(** ** Where the code differs from what it means *)

(** The steps of a careless client: [penabled] is not asked. *)
Fixpoint prun_any {V Q} `{!FifoBuffer Q V, !Resource V} (os : list (pop (V := V)))
    (s : psys (V := V) (Q := Q)) : option (psys (V := V) (Q := Q)) :=
  match os with
  | [] => Some s
  | o :: os => pexec o s ≫= prun_any os
  end.

(** [max_size] can be exceeded when a hook suspends: [release] gives up its place
    before it calls reportSuccess and puts the resource into idle afterwards, and
    an acquire in between creates another one.  The healthcheck calls the factory
    without reserving the place, and a tryAcquire of that factory itself gets it.
    In both cases the pool of size 1 holds two resources. *)
Theorem suspended_hook_exceeds_max :
  (∃ s, pdemo_run 0 1 [PAcquire 0 0; PHook 0 (answer_ok 7); PRelease 1 7 None; PHook 1 (answer_ok 0);
          PAcquire 2 0; PHook 2 (answer_ok 8); PHook 1 (answer_ok 0)] = Some s ∧
     (zend_async_pool_count (ps_pool s) =? 2) && (max_size (ps_pool s) =? 1) = true) ∧
  (∃ s, pdemo_run 1 1 [PTimer 0; PHook 0 answer_no; PHook 0 (answer_ok 0); PTryAcquire 1;
          PHook 1 (answer_ok 8); PHook 0 (answer_ok 9)] = Some s ∧
     (zend_async_pool_count (ps_pool s) =? 2) && (max_size (ps_pool s) =? 1) = true).
Proof. split; apply pdemo_test_run; vm_compute; reflexivity. Qed.

(** A wakeup is lost when the circuit is deactivated during beforeAcquire: the
    acquire that destroys the refused resource then leaves with "Service is
    unavailable" and wakes nobody.  The only place is free, nobody is active, and
    the waiter stays without a reservation also after the circuit is activated
    again. *)
Theorem deactivation_loses_wakeup :
  ∃ s, pdemo_run 0 1 [PAcquire 0 0; PHook 0 (answer_ok 7); PRelease 1 7 None; PHook 1 (answer_ok 0);
          PHook 1 (answer_ok 0); PAcquire 2 0; PAcquire 3 0; PDeactivate; PHook 2 answer_no;
          PHook 2 (answer_ok 0); PActivate] = Some s ∧
    bool_decide (pool_waiters (ps_pool s) = [0%nat]) && bool_decide (reserved (ps_pool s) = ∅) &&
    (active_count (ps_pool s) =? 0) && (max_size (ps_pool s) =? 1) &&
    (size (ps_calls s) =? 1)%nat = true.
Proof. apply pdemo_test_run; vm_compute; reflexivity. Qed.

(** The healthcheck reserves places that do not exist: it wakes a waiter after
    every round, also when no capacity was freed, so that [ASYNC_POOL_UNRESERVED]
    wraps; a coroutine without a reservation then takes the released resource
    although two waiters hold one. *)
Theorem healthcheck_over_reserves :
  (∃ s, pdemo_run 0 1 [PAcquire 0 0; PHook 0 (answer_ok 7); PAcquire 1 0; PTimer 2] = Some s ∧
     (reserved_count (ps_pool s) =? 1) && (ASYNC_POOL_UNRESERVED (ps_pool s) =? 2 ^ 32 - 1) = true) ∧
  (∃ s, pdemo_run 0 1 [PAcquire 0 0; PHook 0 (answer_ok 7); PAcquire 1 0; PTimer 2; PAcquire 3 0;
          PRelease 4 7 None; PHook 4 (answer_ok 0); PHook 4 (answer_ok 0); PAcquire 5 0] = Some s ∧
     (reserved_count (ps_pool s) =? 2) &&
     match ps_calls s !! 5%nat with Some (AcqBefore _ 7) => true | _ => false end = true).
Proof. split; apply pdemo_test_run; vm_compute; reflexivity. Qed.

(** A pool closed by its own healthcheck hook keeps a resource: when the hook
    closes the pool and then reports the resource dead, the loop creates a
    replacement and puts it into the closed pool, whose idle resources were
    already destroyed and are not looked at again. *)
Theorem healthcheck_refills_closed_pool :
  ∃ s, pdemo_run 1 1 [PTimer 0; PClose 1 true None; PHook 0 answer_no; PHook 0 (answer_ok 0);
         PHook 0 (answer_ok 8)] = Some s ∧
    p_closed (ps_pool s) && (zend_async_pool_idle_count (ps_pool s) =? 1) &&
    (size (ps_calls s) =? 0)%nat = true.
Proof. apply pdemo_test_run; vm_compute; reflexivity. Qed.

(** A scalar resource released twice while beforeRelease runs wraps the counter:
    only [active_count] guards scalars, and it is decremented after the hook. *)
Theorem scalar_double_release_underflows :
  match pdemo_start 0 1 ≫= prun_any [PAcquire 0 0; PHook 0 (answer_ok (-1)); PRelease 1 (-1) None;
          PRelease 2 (-1) None; PHook 1 (answer_ok 0); PHook 2 (answer_ok 0)] with
  | Some s => active_count (ps_pool s) =? 2 ^ 32 - 1
  | None => false
  end = true.
Proof. vm_compute; reflexivity. Qed.

(** The sizes are truncated to 32 bits after they were checked: a pool
    constructed with [max = 2^32] has [max_size = 0], and its first acquire waits
    although nothing is lent. *)
Theorem pool_max_truncated :
  match pool_construct (V := Z) (zeroed demo_allocator) false false false false false 0 (2 ^ 32) 0
          (λ _, answer_no) true with
  | Some (inr (None, p)) =>
    (max_size p =? 0) && (active_count p =? 0) &&
    match zend_async_pool_acquire 0 p with Some (inr (AcqWait _ _), _) => true | _ => false end
  | _ => false
  end = true.
Proof. vm_compute; reflexivity. Qed.
