(* ===== verification/TaskGroup.v ===== *)
(** * Task groups and task sets: [src/task_group.c] and [src/task_group.h]

    A group runs callables as coroutines, at most [concurrency] at a time; the
    others wait as PENDING entries of [tasks], and a caller of spawn waits when
    [queue_limit] entries are pending.  The futures that all, race and any return
    and the events of waiting iterators are in the vector [waiter_events].  A
    TaskSet is a group whose entries are removed when they are delivered.

    [tasks] is an ordered hash table, here an association list in insertion order;
    [waiter_events] is a list with the swap removal of the C code.  A spawn that
    suspends is split at the suspension ([spawner]); everything else runs without
    interruption, and each operation is one step of [gexec].  What the engine
    does is a parameter of the step: whether a coroutine can be spawned in the
    group's scope, and how a coroutine ends.  [g_out] is the history of calls into
    the engine. *)

From S2P Require Import Prelude.
From stdpp Require Import strings.

Local Open Scope Z_scope.

(** ** Data *)

Inductive gkey := GStr (s : string) | GInt (n : Z).

#[export] Instance gkey_eq_dec : EqDecision gkey.
Proof. solve_decision. Defined.

Inductive task_group_waiter_type_t :=
| WAITER_TYPE_RACE
| WAITER_TYPE_ANY
| WAITER_TYPE_ALL
| WAITER_TYPE_ALL_IGNORE_ERRORS
| WAITER_TYPE_ITERATOR.

#[export] Instance waiter_type_eq_dec : EqDecision task_group_waiter_type_t.
Proof. solve_decision. Defined.

(** A slot of [tasks]: a [task_entry_t] in one of its states, or a result. *)
Inductive task (V E : Type) :=
| TASK_STATE_PENDING (fcall : nat)
| TASK_STATE_RUNNING
| TASK_STATE_ERROR (exception : E)
| TaskResult (value : V).
Arguments TASK_STATE_PENDING {V E}. Arguments TASK_STATE_RUNNING {V E}.
Arguments TASK_STATE_ERROR {V E}. Arguments TaskResult {V E}.

(** What a future is settled with. *)
Inductive outcome (V E : Type) :=
| OValue (v : V)
| OResults (r : list (gkey * V))
| OException (e : E)
| OComposite (es : list E).
Arguments OValue {V E}. Arguments OResults {V E}. Arguments OException {V E}.
Arguments OComposite {V E}.

Inductive geffect (V E : Type) :=
| Settled (future : nat) (o : outcome V E)
| IteratorNotified (waiter : nat)
| GroupNotified
| Started (k : gkey)
| SpawnRefused
| FinallyCalled (handlers : list nat)
| ScopeCancelled
| ErrorsReported (es : list E).
Arguments Settled {V E}. Arguments IteratorNotified {V E}. Arguments GroupNotified {V E}.
Arguments Started {V E}. Arguments SpawnRefused {V E}. Arguments FinallyCalled {V E}.
Arguments ScopeCancelled {V E}. Arguments ErrorsReported {V E}.

Record async_task_group_t (V E : Type) := mk_group {
  g_sealed : bool;
  g_completed : bool;
  g_closed : bool;
  g_task_set : bool;
  g_exception_handled : bool;
  g_scope : bool;                        (* not NULL *)
  concurrency : Z;
  queue_limit : Z;
  pending_count : Z;
  active_coroutines : Z;
  slot_waiters : list nat;
  slot_fired : gset nat;                 (* ghost: triggers with a wakeup pending *)
  g_tasks : list (gkey * task V E);
  waiter_events : list (nat * task_group_waiter_type_t);
  waiter_notify_index : nat;
  finally_handlers : list nat;
  next_key : Z;
  next_slot_trigger : nat;
  g_out : list (geffect V E)
}.
Arguments mk_group {V E}.
Arguments g_sealed {V E} _. Arguments g_completed {V E} _. Arguments g_closed {V E} _.
Arguments g_task_set {V E} _. Arguments g_exception_handled {V E} _. Arguments g_scope {V E} _.
Arguments concurrency {V E} _. Arguments queue_limit {V E} _. Arguments pending_count {V E} _.
Arguments active_coroutines {V E} _. Arguments slot_waiters {V E} _. Arguments slot_fired {V E} _.
Arguments g_tasks {V E} _. Arguments waiter_events {V E} _. Arguments waiter_notify_index {V E} _.
Arguments finally_handlers {V E} _. Arguments next_key {V E} _. Arguments next_slot_trigger {V E} _.
Arguments g_out {V E} _.

#[export] Instance async_task_group_eta V E : Eta (async_task_group_t V E) := λ g,
  mk_group (g_sealed g) (g_completed g) (g_closed g) (g_task_set g) (g_exception_handled g) (g_scope g)
    (concurrency g) (queue_limit g) (pending_count g) (active_coroutines g) (slot_waiters g)
    (slot_fired g) (g_tasks g) (waiter_events g) (waiter_notify_index g) (finally_handlers g)
    (next_key g) (next_slot_trigger g) (g_out g).

Section operations.
Context {V E : Type}.
Implicit Types (g : async_task_group_t V E) (k : gkey) (t : task V E).

Definition set_g_sealed (x : bool) g := ltac:(record_set g (@g_sealed V E) x).
Definition set_g_completed (x : bool) g := ltac:(record_set g (@g_completed V E) x).
Definition set_g_closed (x : bool) g := ltac:(record_set g (@g_closed V E) x).
Definition set_g_exception_handled (x : bool) g := ltac:(record_set g (@g_exception_handled V E) x).
Definition set_g_scope (x : bool) g := ltac:(record_set g (@g_scope V E) x).
Definition set_concurrency (x : Z) g := ltac:(record_set g (@concurrency V E) x).
Definition set_queue_limit (x : Z) g := ltac:(record_set g (@queue_limit V E) x).
Definition set_pending_count (x : Z) g := ltac:(record_set g (@pending_count V E) x).
Definition set_active_coroutines (x : Z) g := ltac:(record_set g (@active_coroutines V E) x).
Definition set_slot_waiters (x : list nat) g := ltac:(record_set g (@slot_waiters V E) x).
Definition set_slot_fired (x : gset nat) g := ltac:(record_set g (@slot_fired V E) x).
Definition set_g_tasks (x : list (gkey * task V E)) g := ltac:(record_set g (@g_tasks V E) x).
Definition set_waiter_events (x : list (nat * task_group_waiter_type_t)) g :=
  ltac:(record_set g (@waiter_events V E) x).
Definition set_waiter_notify_index (x : nat) g := ltac:(record_set g (@waiter_notify_index V E) x).
Definition set_finally_handlers (x : list nat) g := ltac:(record_set g (@finally_handlers V E) x).
Definition set_next_key (x : Z) g := ltac:(record_set g (@next_key V E) x).
Definition set_next_slot_trigger (x : nat) g := ltac:(record_set g (@next_slot_trigger V E) x).
Definition set_g_out (x : list (geffect V E)) g := ltac:(record_set g (@g_out V E) x).

Local Abbreviation GM := (M (async_task_group_t V E)).

Definition emit (e : geffect V E) : GM unit := modify (λ g, set_g_out (g_out g ++ [e]) g).

(** ** The hash table of tasks *)
Fixpoint hash_find k (l : list (gkey * task V E)) : option (task V E) :=
  match l with
  | [] => None
  | (k', t) :: l => if decide (k' = k) then Some t else hash_find k l
  end.
Definition hash_exists k (l : list (gkey * task V E)) : bool := bool_decide (k ∈ l.*1).
(** [zend_hash_add_new], after its assertion that the key does not exist. *)
Definition hash_add_new k t (l : list (gkey * task V E)) := l ++ [(k, t)].
Fixpoint hash_replace k t (l : list (gkey * task V E)) : list (gkey * task V E) :=
  match l with
  | [] => []
  | (k', t') :: l => if decide (k' = k) then (k, t) :: l else (k', t') :: hash_replace k t l
  end.
Fixpoint hash_del k (l : list (gkey * task V E)) : list (gkey * task V E) :=
  match l with
  | [] => []
  | (k', t') :: l => if decide (k' = k) then l else (k', t') :: hash_del k l
  end.

Definition task_is_pending t : bool := match t with TASK_STATE_PENDING _ => true | _ => false end.
Definition task_is_error t : bool := match t with TASK_STATE_ERROR _ => true | _ => false end.
Definition task_is_completed t : bool := match t with TaskResult _ => true | _ => false end.

Definition task_group_all_settled g : bool := active_coroutines g =? 0.
Definition task_group_has_pending g : bool := existsb (λ kt, task_is_pending kt.2) (g_tasks g).
Definition task_group_has_errors g : bool := existsb (λ kt, task_is_error kt.2) (g_tasks g).

Definition task_group_collect_results g : list (gkey * V) :=
  omap (λ kt, match kt.2 with TaskResult v => Some (kt.1, v) | _ => None end) (g_tasks g).
Definition task_group_collect_errors g : list (gkey * E) :=
  omap (λ kt, match kt.2 with TASK_STATE_ERROR e => Some (kt.1, e) | _ => None end) (g_tasks g).
Definition task_group_collect_composite_exception g : list E := (task_group_collect_errors g).*2.

(** ** Waiter events *)
Definition task_group_waiter_new (w : nat) (ty : task_group_waiter_type_t) : GM unit :=
  modify (λ g, set_waiter_events (waiter_events g ++ [(w, ty)]) g).

Definition task_group_waiter_event_remove (w : nat) : GM unit :=
  g ← get;
  match list_find (λ x, x.1 = w) (waiter_events g) with
  | None => mret tt
  | Some (i, _) =>
    modify (set_waiter_events (swap_remove i (waiter_events g)));;
    (if (i <? waiter_notify_index g)%nat
     then modify (λ g, set_waiter_notify_index (waiter_notify_index g - 1)%nat g)
     else mret tt)
  end.

Definition task_set_remove_entry k : GM unit :=
  modify (λ g, if g_task_set g then set_g_tasks (hash_del k (g_tasks g)) g else g).
Definition task_set_remove_all_entries : GM unit :=
  modify (λ g, if g_task_set g then set_g_tasks [] g else g).

Definition resolve_all (w : nat) (has_errors : bool) : GM unit :=
  g ← get;
  emit (Settled w (if has_errors then OComposite (task_group_collect_composite_exception g)
                   else OResults (task_group_collect_results g))).

(** The loop of [task_group_try_complete], whose [break] reaches [i++]. *)
Fixpoint complete_loop (fuel i : nat) (has_errors : bool) : GM unit :=
  match fuel with
  | O => undefined
  | S fuel =>
    g ← get;
    match waiter_events g !! i with
    | None => mret tt
    | Some (w, ty) =>
      match ty with
      | WAITER_TYPE_ALL =>
        resolve_all w has_errors;;
        task_set_remove_all_entries;;
        task_group_waiter_event_remove w;;
        complete_loop fuel (S i) has_errors
      | WAITER_TYPE_ALL_IGNORE_ERRORS =>
        resolve_all w false;;
        task_set_remove_all_entries;;
        task_group_waiter_event_remove w;;
        complete_loop fuel i has_errors
      | WAITER_TYPE_ANY =>
        resolve_all w true;;
        task_group_waiter_event_remove w;;
        complete_loop fuel (S i) has_errors
      | WAITER_TYPE_ITERATOR =>
        emit (IteratorNotified w);;
        complete_loop fuel (S (S i)) has_errors
      | WAITER_TYPE_RACE => complete_loop fuel (S (S i)) has_errors
      end
    end
  end.

(** The fuel is one more than the number of waiters. *)
Definition task_group_try_complete : GM unit :=
  g ← get;
  if (0 <? active_coroutines g) || task_group_has_pending g then mret tt
  else
    complete_loop (S (length (waiter_events g))) 0 (task_group_has_errors g);;
    g ← get;
    (if g_sealed g then modify (set_g_completed true) else mret tt);;
    emit GroupNotified;;
    modify (set_g_closed true);;
    (if bool_decide (finally_handlers g = []) then mret tt
     else if negb (g_scope g) then undefined
     else emit (FinallyCalled (finally_handlers g));; modify (set_finally_handlers [])).

(** ** Slots *)
Definition task_group_has_slot g : bool :=
  (concurrency g =? 0) || (active_coroutines g <? i32 (concurrency g)).
Definition task_group_queue_is_full g : bool :=
  (0 <? queue_limit g) && (queue_limit g <=? pending_count g).

Definition task_group_fire_one_slot_waiter : GM unit :=
  modify (λ g, match slot_waiters g with
               | [] => g
               | t :: _ => set_slot_fired (slot_fired g ∪ {[t]}) g
               end).
Definition task_group_fire_all_slot_waiters : GM unit :=
  modify (λ g, set_slot_fired (slot_fired g ∪ list_to_set (slot_waiters g)) g).

(** [spawnable]: the engine gives a coroutine; otherwise it has thrown.
    [pending]: the key is of a PENDING entry. *)
Definition task_group_spawn_coroutine k (pending spawnable : bool) : GM unit :=
  g ← get;
  if negb (g_scope g) then undefined
  else if negb spawnable then emit SpawnRefused
  else
    (if pending then
       modify (λ g, set_g_tasks (hash_replace k TASK_STATE_RUNNING (g_tasks g)) g);;
       g ← get;
       ZEND_ASSERT (0 <? pending_count g);;
       modify (set_pending_count (u32 (pending_count g - 1)));;
       task_group_fire_one_slot_waiter
     else
       ZEND_ASSERT (negb (hash_exists k (g_tasks g)));;
       modify (λ g, set_g_tasks (hash_add_new k TASK_STATE_RUNNING (g_tasks g)) g));;
    emit (Started k);;
    modify (λ g, set_active_coroutines (i32 (active_coroutines g + 1)) g).

(** The next PENDING entry at or after the internal pointer. *)
Fixpoint find_pending (pos : nat) (l : list (gkey * task V E)) : option (nat * gkey) :=
  match l with
  | [] => None
  | (k, t) :: l =>
    match pos with
    | O => if task_is_pending t then Some (0%nat, k) else (λ jk, (S jk.1, jk.2)) <$> find_pending 0 l
    | S pos => (λ jk, (S jk.1, jk.2)) <$> find_pending pos l
    end
  end.

(** [spawnable k]: the engine gives a coroutine for the task of key [k]. *)
Fixpoint drain_loop (fuel pos : nat) (spawnable : gkey → bool) : GM unit :=
  match fuel with
  | O => undefined
  | S fuel =>
    g ← get;
    if negb (task_group_has_slot g) then mret tt
    else match find_pending pos (g_tasks g) with
         | None => mret tt
         | Some (j, k) =>
           task_group_spawn_coroutine k true (spawnable k);;
           if negb (spawnable k) then mret tt else drain_loop fuel (S j) spawnable
         end
  end.

(** The fuel is one more than the number of entries. *)
Definition task_group_drain (spawnable : gkey → bool) : GM unit :=
  g ← get;
  if negb (g_scope g) then mret tt
  else drain_loop (S (length (g_tasks g))) 0 spawnable.

(** ** The end of a coroutine *)
Definition result_outcome (result : V + E) : outcome V E :=
  match result with inl v => OValue v | inr e => OException e end.

Fixpoint notify_loop (fuel : nat) k (result : V + E) : GM unit :=
  match fuel with
  | O => undefined
  | S fuel =>
    g ← get;
    match waiter_events g !! waiter_notify_index g with
    | None => mret tt
    | Some (w, ty) =>
      match ty with
      | WAITER_TYPE_RACE =>
        emit (Settled w (result_outcome result));;
        task_set_remove_entry k;;
        task_group_waiter_event_remove w;;
        notify_loop fuel k result
      | WAITER_TYPE_ANY =>
        match result with
        | inr _ => modify (set_waiter_notify_index (S (waiter_notify_index g)));; notify_loop fuel k result
        | inl v =>
          emit (Settled w (OValue v));;
          task_group_waiter_event_remove w;;
          notify_loop fuel k result
        end
      | WAITER_TYPE_ALL | WAITER_TYPE_ALL_IGNORE_ERRORS =>
        modify (set_waiter_notify_index (S (waiter_notify_index g)));; notify_loop fuel k result
      | WAITER_TYPE_ITERATOR =>
        modify (set_waiter_notify_index (S (waiter_notify_index g)));;
        emit (IteratorNotified w);;
        notify_loop fuel k result
      end
    end
  end.

(** The entry of the key must be RUNNING: its union is read as a coroutine. *)
Definition settle_entry k (result : V + E) : GM unit :=
  g ← get;
  match hash_find k (g_tasks g) with
  | None => mret tt
  | Some TASK_STATE_RUNNING =>
    match result with
    | inr e =>
      modify (set_g_tasks (hash_replace k (TASK_STATE_ERROR e) (g_tasks g)));;
      modify (set_g_exception_handled false)
    | inl v => modify (set_g_tasks (hash_replace k (TaskResult v) (g_tasks g)))
    end
  | Some _ => undefined
  end.

Definition task_group_on_coroutine_complete k (result : V + E) (spawnable : gkey → bool) : GM unit :=
  settle_entry k result;;
  modify (λ g, set_active_coroutines (i32 (active_coroutines g - 1)) g);;
  task_group_drain spawnable;;
  modify (set_waiter_notify_index 0);;
  g ← get;
  notify_loop (S (length (waiter_events g))) k result;;
  task_group_try_complete.

(** ** Spawn *)

(** A call of spawn parked on a slot trigger. *)
Record spawner := mk_spawner { sp_key : gkey; sp_fcall : nat; sp_trigger : nat }.

Inductive gerror := ErrSealed | ErrCompleted | ErrDuplicateKey | ErrEmpty | ErrPending.

(** The backpressure loop up to its suspension, and what follows it. *)
Definition spawn_or_wait k (fcall : nat) (spawnable : bool) : GM (option gerror + spawner) :=
  g ← get;
  if negb (task_group_has_slot g) && task_group_queue_is_full g then
    let t := next_slot_trigger g in
    modify (set_next_slot_trigger (S t));;
    modify (λ g, set_slot_waiters (slot_waiters g ++ [t]) g);;
    mret (inr (mk_spawner k fcall t))
  else if task_group_has_slot g then
    task_group_spawn_coroutine k false spawnable;;
    mret (inl (if spawnable then None else Some ErrPending))
  else
    ZEND_ASSERT (negb (hash_exists k (g_tasks g)));;
    modify (λ g, set_g_tasks (hash_add_new k (TASK_STATE_PENDING fcall) (g_tasks g)) g);;
    modify (λ g, set_pending_count (u32 (pending_count g + 1)) g);;
    mret (inl None).

Definition task_group_do_spawn k (fcall : nat) (spawnable : bool) : GM (option gerror + spawner) :=
  g ← get;
  if g_sealed g then mret (inl (Some ErrSealed))
  else if g_completed g then mret (inl (Some ErrCompleted))
  else if hash_exists k (g_tasks g) then mret (inl (Some ErrDuplicateKey))
  else spawn_or_wait k fcall spawnable.

(** After [ZEND_ASYNC_SUSPEND]; [exn]: an exception is pending. *)
Definition spawn_recheck (s : spawner) (exn spawnable : bool) : GM (option gerror + spawner) :=
  g ← get;
  if exn then mret (inl (Some ErrPending))
  else if g_sealed g then mret (inl (Some ErrSealed))
  else if g_completed g then mret (inl (Some ErrCompleted))
  else spawn_or_wait (sp_key s) (sp_fcall s) spawnable.
Definition spawn_resume (s : spawner) (exn spawnable : bool) : GM (option gerror + spawner) :=
  modify (λ g, set_slot_waiters (filter (λ x, x ≠ sp_trigger s) (slot_waiters g)) g);;
  modify (λ g, set_slot_fired (slot_fired g ∖ {[sp_trigger s]}) g);;
  spawn_recheck s exn spawnable.

(** The methods spawn and spawnWithKey. *)
Definition method_spawn (fcall : nat) (spawnable : bool) : GM (option gerror + spawner) :=
  g ← get;
  modify (set_next_key (u32 (next_key g + 1)));;
  task_group_do_spawn (GInt (next_key g)) fcall spawnable.
Definition method_spawnWithKey k (fcall : nat) (spawnable : bool) : GM (option gerror + spawner) :=
  task_group_do_spawn k fcall spawnable.

(** ** Futures *)
Definition method_all (ignore_errors : bool) (w : nat) : GM unit :=
  task_group_waiter_new w (if ignore_errors then WAITER_TYPE_ALL_IGNORE_ERRORS else WAITER_TYPE_ALL);;
  g ← get;
  if task_group_all_settled g && negb (task_group_has_pending g) then
    resolve_all w (negb ignore_errors && task_group_has_errors g);;
    task_set_remove_all_entries;;
    task_group_waiter_event_remove w
  else mret tt.

(** The first settled entry in spawn order. *)
Fixpoint first_settled (l : list (gkey * task V E)) : option (gkey * outcome V E) :=
  match l with
  | [] => None
  | (k, TaskResult v) :: _ => Some (k, OValue v)
  | (k, TASK_STATE_ERROR e) :: _ => Some (k, OException e)
  | _ :: l => first_settled l
  end.
Fixpoint first_result (l : list (gkey * task V E)) : option (gkey * outcome V E) :=
  match l with
  | [] => None
  | (k, TaskResult v) :: _ => Some (k, OValue v)
  | _ :: l => first_result l
  end.

Definition method_race (w : nat) : GM (option gerror) :=
  g ← get;
  if bool_decide (g_tasks g = []) then mret (Some ErrEmpty)
  else
    task_group_waiter_new w WAITER_TYPE_RACE;;
    match first_settled (g_tasks g) with
    | Some (k, o) =>
      emit (Settled w o);; task_set_remove_entry k;; task_group_waiter_event_remove w;; mret None
    | None => mret None
    end.

Definition method_any (w : nat) : GM (option gerror) :=
  g ← get;
  if bool_decide (g_tasks g = []) then mret (Some ErrEmpty)
  else
    task_group_waiter_new w WAITER_TYPE_ANY;;
    match first_result (g_tasks g) with
    | Some (k, o) =>
      emit (Settled w o);; task_set_remove_entry k;; task_group_waiter_event_remove w;; mret None
    | None =>
      if task_group_all_settled g && negb (task_group_has_pending g) then
        resolve_all w true;; task_group_waiter_event_remove w;; mret None
      else mret None
    end.

(** ** Closing *)
Definition method_close : GM unit :=
  g ← get;
  if g_sealed g then mret tt
  else
    modify (set_g_sealed true);;
    task_group_fire_all_slot_waiters;;
    task_group_try_complete.

(** [disposed]: the scope could be disposed at once; otherwise it is cancelled. *)
Definition method_cancel (disposed : bool) : GM unit :=
  g ← get;
  if g_sealed g then mret tt
  else
    modify (set_g_sealed true);;
    modify (set_g_exception_handled true);;
    task_group_fire_all_slot_waiters;;
    (if g_scope g && negb disposed then emit ScopeCancelled else mret tt);;
    task_group_try_complete.

Definition method_getErrors : GM (list (gkey * E)) :=
  modify (set_g_exception_handled true);; gets task_group_collect_errors.
Definition method_suppressErrors : GM unit := modify (set_g_exception_handled true).
Definition method_getResults g : list (gkey * V) := task_group_collect_results g.
Definition method_isClosed g : bool := g_sealed g.
Definition method_count g : nat := length (g_tasks g).
Definition method_isFinished g : bool := task_group_all_settled g && negb (task_group_has_pending g).

(** [awaitCompletion] up to its suspension on the group's event, and again after it. *)
Inductive await_step := AwaitThrows | AwaitReturns | AwaitSuspends.
Definition await_retry g : await_step :=
  if task_group_all_settled g && negb (task_group_has_pending g) then AwaitReturns else AwaitSuspends.
Definition method_awaitCompletion g : await_step :=
  if negb (g_sealed g) then AwaitThrows
  else if g_completed g then AwaitReturns
  else await_retry g.

Definition method_dispose (disposed : bool) : GM unit :=
  g ← get;
  if g_scope g && negb disposed then emit ScopeCancelled else mret tt.

(** [replay]: a subscriber that comes late is called at once. *)
Definition task_group_replay g : bool := task_group_all_settled g && negb (task_group_has_pending g).

Definition method_finally (h : nat) : GM unit :=
  g ← get;
  if g_completed g then emit (FinallyCalled [h])
  else modify (set_finally_handlers (finally_handlers g ++ [h])).

(** The destructor: [done]: the scope has no coroutine left. *)
Definition task_group_dtor_object (done : bool) : GM unit :=
  g ← get;
  (if bool_decide (slot_waiters g = []) then mret tt
   else modify (set_g_sealed true);; task_group_fire_all_slot_waiters);;
  (if negb (g_exception_handled g) && g_scope g && task_group_has_errors g
   then emit (ErrorsReported (task_group_collect_composite_exception g)) else mret tt);;
  (if g_scope g then
     modify (set_g_scope false);; (if done then mret tt else emit ScopeCancelled)
   else mret tt).

(** ** Iteration *)

(** What [task_group_iterator_move_forward] finds at its position. *)
Inductive iter_step := IterCurrent k (v : outcome V E) | IterEnd | IterWait.

Definition iterator_move_forward (position : nat) : GM (nat * iter_step) :=
  g ← get;
  match g_tasks g !! position with
  | Some (k, TaskResult v) =>
    task_set_remove_entry k;;
    mret ((if g_task_set g then position else S position), IterCurrent k (OValue v))
  | Some (k, TASK_STATE_ERROR e) =>
    task_set_remove_entry k;;
    mret ((if g_task_set g then position else S position), IterCurrent k (OException e))
  | Some _ => mret (position, IterWait)
  | None =>
    if g_sealed g && (active_coroutines g =? 0) && negb (task_group_has_pending g)
    then mret (position, IterEnd)
    else mret (position, IterWait)
  end.

Definition iterator_wait (w : nat) : GM unit := task_group_waiter_new w WAITER_TYPE_ITERATOR.
Definition task_group_get_iterator : GM unit := modify (set_g_exception_handled true).

(** ** Construction *)

Definition task_group_create_object : async_task_group_t V E :=
  mk_group false false false false false false 0 0 0 0 [] ∅ [] [] 0 [] 0 0 [].
Definition task_set_create_object : async_task_group_t V E :=
  mk_group false false false true false false 0 0 0 0 [] ∅ [] [] 0 [] 0 0 [].

(** [__construct]: [None] is the argument error; the scope is available. *)
Definition task_group_construct (task_set : bool) (conc : Z) (limit : option Z)
    : option (async_task_group_t V E) :=
  let UINT32_MAX := 2 ^ 32 - 1 in
  let g := if task_set then task_set_create_object else task_group_create_object in
  if (conc <? 0) || (UINT32_MAX <? conc) then None
  else if match limit with Some l => (l <? 0) || (UINT32_MAX <? l) | None => false end then None
  else
    let limit :=
      match limit with
      | Some l => u32 l
      | None =>
        if conc =? 0 then 0 else if UINT32_MAX / 2 <? conc then UINT32_MAX else u32 (conc * 2)
      end in
    Some (set_g_scope true (set_queue_limit limit (set_concurrency (u32 conc) g))).

(** The engine's entry: both limits are already of 32 bits. *)
Definition async_new_group (conc limit : Z) : async_task_group_t V E :=
  set_g_scope true (set_queue_limit limit (set_concurrency conc task_group_create_object)).

(** ** The group and the suspended callers *)
Record gsys := mk_gsys {
  gs_group : async_task_group_t V E;
  gs_spawners : gmap nat spawner
}.

Inductive gop :=
| GSpawn (id : nat) (fcall : nat) (spawnable : bool)
| GSpawnWithKey (id : nat) k (fcall : nat) (spawnable : bool)
| GResume (id : nat) (exn spawnable : bool)
| GComplete k (result : V + E) (spawnable : gkey → bool)
| GAll (ignore_errors : bool) (w : nat)
| GRace (w : nat)
| GAny (w : nat)
| GIterWait (w : nat)
| GWaiterDispose (w : nat)
| GGetIterator
| GIterNext (position : nat)
| GClose
| GCancel (disposed : bool)
| GGetErrors
| GSuppressErrors
| GFinally (h : nat)
| GDispose (disposed : bool)
| GDtor (done : bool).

Definition grun {A} (m : GM A) (s : gsys) : option gsys :=
  '(_, g) ← m (gs_group s); Some (mk_gsys g (gs_spawners s)).
Definition grun_spawn (id : nat) (m : GM (option gerror + spawner)) (s : gsys) : option gsys :=
  '(r, g) ← m (gs_group s);
  Some (mk_gsys g (match r with inl _ => delete id (gs_spawners s) | inr sp => <[id := sp]> (gs_spawners s) end)).

Definition gexec (o : gop) (s : gsys) : option gsys :=
  match o with
  | GSpawn id f ok => grun_spawn id (method_spawn f ok) s
  | GSpawnWithKey id k f ok => grun_spawn id (method_spawnWithKey k f ok) s
  | GResume id exn ok => sp ← gs_spawners s !! id; grun_spawn id (spawn_resume sp exn ok) s
  | GComplete k result ok => grun (task_group_on_coroutine_complete k result ok) s
  | GAll ignore w => grun (method_all ignore w) s
  | GRace w => grun (method_race w) s
  | GAny w => grun (method_any w) s
  | GIterWait w => grun (iterator_wait w) s
  | GWaiterDispose w => grun (task_group_waiter_event_remove w) s
  | GGetIterator => grun task_group_get_iterator s
  | GIterNext pos => grun (iterator_move_forward pos) s
  | GClose => grun method_close s
  | GCancel disposed => grun (method_cancel disposed) s
  | GGetErrors => grun method_getErrors s
  | GSuppressErrors => grun method_suppressErrors s
  | GFinally h => grun (method_finally h) s
  | GDispose disposed => grun (method_dispose disposed) s
  | GDtor done => grun (task_group_dtor_object done) s
  end.

(** The names of futures and iterator waiters already used. *)
Definition settled_names (o : list (geffect V E)) : list nat :=
  omap (λ e, match e with Settled w _ => Some w | _ => None end) o.

(** Which steps can happen: only a RUNNING coroutine ends, a parked spawner
    resumes when its trigger fired or an exception was thrown into it, futures
    and waiters are new objects, there are fewer than 2^31 tasks, and the methods
    are not called on a destroyed group.  The destructor runs once, and never
    with both finally handlers and running coroutines: each of these holds a
    reference on the group. *)
Definition genabled (o : gop) (s : gsys) : bool :=
  let g := gs_group s in
  let small := Z.of_nat (length (g_tasks g)) <? 2 ^ 31 - 1 in
  let new w := bool_decide (w ∉ (waiter_events g).*1) && bool_decide (w ∉ settled_names (g_out g)) in
  match o with
  | GSpawn id _ _ | GSpawnWithKey id _ _ _ =>
    g_scope g && bool_decide (gs_spawners s !! id = None) && small
  | GResume id exn _ =>
    match gs_spawners s !! id with
    | Some sp => (exn || bool_decide (sp_trigger sp ∈ slot_fired g)) && small
    | None => false
    end
  | GComplete k _ _ => match hash_find k (g_tasks g) with Some TASK_STATE_RUNNING => true | _ => false end
  | GAll _ w | GRace w | GAny w | GIterWait w => g_scope g && new w
  | GWaiterDispose w => bool_decide (w ∈ (waiter_events g).*1)
  | GDtor _ => g_scope g && (bool_decide (finally_handlers g = []) || (active_coroutines g =? 0))
  | _ => g_scope g
  end.
(** A resumed spawn would add a key that another spawn has taken meanwhile: the check
    for duplicates is not repeated. *)
Definition key_clash (o : gop) (s : gsys) : bool :=
  let g := gs_group s in
  match o with
  | GResume id exn ok =>
    match gs_spawners s !! id with
    | Some sp => negb (exn || g_sealed g || g_completed g) && hash_exists (sp_key sp) (g_tasks g) &&
        if task_group_has_slot g then ok else negb (task_group_queue_is_full g)
    | None => false
    end
  | _ => false
  end.

Inductive greachable (s0 : gsys) : gsys → Prop :=
| greach_init : greachable s0 s0
| greach_step s o s' : greachable s0 s → genabled o s = true →
  gexec o s = Some s' → greachable s0 s'.
End operations.
