(* ===== verification/TaskGroupProofs.v ===== *)
(** * Correctness of the task group

    The accounting invariant of a group and of the callers suspended in spawn,
    and its preservation by every step. *)

From S2P Require Import Prelude TaskGroup.
From stdpp Require Import strings.

Local Open Scope Z_scope.

(** ** The hash table of tasks *)

Section hash.
Context {V E : Type}.
Implicit Types (l : list (gkey * task V E)) (k : gkey) (t : task V E) (f : task V E → bool).

Definition task_is_running t : bool := match t with TASK_STATE_RUNNING => true | _ => false end.

(** The number of entries in a state. *)
Definition count f l : Z := Z.of_nat (length (filter (λ kt, f kt.2 = true) l)).

Lemma count_nil f : count f [] = 0.
Proof. done. Qed.
Lemma count_cons f k t l : count f ((k, t) :: l) = Z.b2z (f t) + count f l.
Proof. unfold count. rewrite filter_cons. cbn. destruct (f t); cbn; case_decide; cbn; lia || done. Qed.
Lemma count_app f l l' : count f (l ++ l') = count f l + count f l'.
Proof. unfold count. rewrite filter_app, length_app. lia. Qed.
Lemma count_add_new f k t l : count f (hash_add_new k t l) = count f l + Z.b2z (f t).
Proof. unfold hash_add_new. rewrite count_app, count_cons, count_nil. lia. Qed.
Lemma count_nonneg f l : 0 ≤ count f l.
Proof. unfold count. lia. Qed.
Lemma count_le f l : count f l ≤ Z.of_nat (length l).
Proof. unfold count. pose proof (length_filter (λ kt, f kt.2 = true) l). lia. Qed.

Lemma existsb_count f l : existsb (λ kt, f kt.2) l = false ↔ count f l = 0.
Proof.
  induction l as [|[k t] l IH]; [done|]. rewrite count_cons. cbn.
  pose proof (count_nonneg f l). rewrite orb_false_iff, IH. destruct (f t); cbn; split; lia || naive_solver lia.
Qed.

Lemma count_zero f l : (∀ kt, kt ∈ l → f kt.2 = false) → count f l = 0.
Proof.
  intros Hl. induction l as [|[k t] l IH]; [done|]. rewrite count_cons, IH by set_solver.
  pose proof (Hl (k, t) ltac:(left)) as Ht. cbn in Ht. by rewrite Ht.
Qed.
Lemma count_disjoint l :
  count task_is_pending l + count task_is_running l ≤ Z.of_nat (length l).
Proof. induction l as [|[k t] l IH]; [done|]. rewrite !count_cons. destruct t; cbn; lia. Qed.

Lemma hash_find_elem k l t : hash_find k l = Some t → (k, t) ∈ l.
Proof.
  induction l as [|[k' t'] l IH]; [done|]. cbn. case_decide; intros ?; simplify_eq; set_solver.
Qed.
Lemma hash_find_None k l : hash_find k l = None ↔ k ∉ l.*1.
Proof.
  induction l as [|[k' t'] l IH]; cbn; [set_solver|]. case_decide; [set_solver|]. rewrite IH. set_solver.
Qed.
Lemma hash_find_NoDup k l t : NoDup l.*1 → (k, t) ∈ l → hash_find k l = Some t.
Proof.
  induction l as [|[k' t'] l IH]; cbn; [set_solver|]. rewrite NoDup_cons. intros [Hk Hnd] [?|Hin]%elem_of_cons.
  - simplify_eq. by rewrite decide_True.
  - rewrite decide_False; [by apply IH|]. intros ->. apply Hk, list_elem_of_fmap. by exists (k, t).
Qed.
Lemma hash_find_count f k l t : hash_find k l = Some t → f t = true → 0 < count f l.
Proof.
  induction l as [|[k' t'] l IH]; [done|]. rewrite count_cons. cbn. pose proof (count_nonneg f l).
  case_decide; intros Hf Ht; simplify_eq; [rewrite Ht; cbn; lia|]. specialize (IH Hf Ht). destruct (f t'); cbn; lia.
Qed.

Lemma hash_replace_keys k t l : (hash_replace k t l).*1 = l.*1.
Proof. induction l as [|[k' t'] l IH]; cbn; [done|]. case_decide; cbn; congruence. Qed.
Lemma hash_replace_length k t l : length (hash_replace k t l) = length l.
Proof. by rewrite <- (length_fmap fst), hash_replace_keys, length_fmap. Qed.
Lemma hash_replace_count f k t t0 l : hash_find k l = Some t0 →
  count f (hash_replace k t l) = count f l - Z.b2z (f t0) + Z.b2z (f t).
Proof.
  induction l as [|[k' t'] l IH]; cbn; [done|]. case_decide; intros; simplify_eq; rewrite !count_cons.
  - lia.
  - rewrite IH by done. lia.
Qed.
Lemma hash_replace_insert k t t0 l j : NoDup l.*1 → l !! j = Some (k, t0) →
  hash_replace k t l = <[j := (k, t)]> l.
Proof.
  revert j. induction l as [|[k' t'] l IH]; intros [|j]; cbn; [done..| |]; rewrite NoDup_cons; intros [Hk Hnd] Hj.
  - simplify_eq. by rewrite decide_True.
  - rewrite decide_False; [by rewrite (IH j)|]. intros ->. apply Hk, list_elem_of_fmap.
    exists (k, t0). split; [done|]. by eapply list_elem_of_lookup_2.
Qed.
Lemma hash_find_replace k t l : k ∈ l.*1 → hash_find k (hash_replace k t l) = Some t.
Proof.
  induction l as [|[k' t'] l IH]; cbn; [set_solver|]. case_decide as Hd; cbn; [by rewrite decide_True|].
  rewrite decide_False by done. set_solver.
Qed.
(** An entry of another key is not touched. *)
Lemma hash_replace_other k k' t l : k' ≠ k → hash_find k' (hash_replace k t l) = hash_find k' l.
Proof.
  intros Hne. induction l as [|[k2 t2] l IH]; cbn; [done|]. case_decide as Hd; cbn.
  - subst. by rewrite !decide_False by congruence.
  - by rewrite IH.
Qed.

Lemma hash_del_None k l : hash_find k l = None → hash_del k l = l.
Proof. induction l as [|[k' t'] l IH]; cbn; [done|]. case_decide; [done|]. intros. by rewrite IH. Qed.
Lemma hash_del_sublist k l : sublist (hash_del k l) l.
Proof.
  induction l as [|[k' t'] l IH]; cbn; [done|].
  case_decide; [by apply sublist_cons|by apply sublist_skip].
Qed.
Lemma hash_del_count f k l t : hash_find k l = Some t →
  count f (hash_del k l) = count f l - Z.b2z (f t).
Proof.
  induction l as [|[k' t'] l IH]; cbn; [done|]. case_decide; intros; simplify_eq; rewrite !count_cons.
  - lia.
  - rewrite IH by done. lia.
Qed.
Lemma hash_del_find k l : NoDup l.*1 → hash_find k (hash_del k l) = None.
Proof.
  induction l as [|[k' t'] l IH]; cbn; [done|]. rewrite NoDup_cons. intros [Hk Hnd].
  case_decide as Hd; cbn; [subst; by apply hash_find_None|]. rewrite decide_False by done. auto.
Qed.

Lemma sublist_keys_NoDup l l' : sublist l' l → NoDup l.*1 → NoDup l'.*1.
Proof. intros Hs Hnd. eapply sublist_NoDup; [exact Hnd|by apply fmap_sublist]. Qed.

(** ** The internal pointer *)
Lemma find_pending_Some pos l j k : find_pending pos l = Some (j, k) →
  ∃ t, l !! j = Some (k, t) ∧ task_is_pending t = true ∧ (pos ≤ j)%nat ∧
    (∀ i kt, (pos ≤ i < j)%nat → l !! i = Some kt → task_is_pending kt.2 = false).
Proof.
  revert pos j. induction l as [|[k' t'] l IH]; intros pos j; cbn; [done|].
  destruct pos as [|pos].
  - destruct (task_is_pending t') eqn:Hp.
    + intros [= <- <-]. exists t'. repeat split; [done|lia|]. intros; lia.
    + intros ([j' k''] & Hf & [= -> ->])%fmap_Some. destruct (IH _ _ Hf) as (t & ? & ? & ? & Hb).
      exists t. repeat split; [done..|lia|]. intros [|i] kt Hi Hl; [by simplify_eq/=|]. apply (Hb i); [lia|done].
  - intros ([j' k''] & Hf & [= -> ->])%fmap_Some. destruct (IH _ _ Hf) as (t & ? & ? & ? & Hb).
    exists t. repeat split; [done..|lia|]. intros [|i] kt Hi Hl; [lia|]. apply (Hb i); [lia|done].
Qed.
Lemma find_pending_None pos l : find_pending pos l = None →
  ∀ i kt, (pos ≤ i)%nat → l !! i = Some kt → task_is_pending kt.2 = false.
Proof.
  revert pos. induction l as [|[k' t'] l IH]; intros pos; cbn; [done|].
  destruct pos as [|pos].
  - destruct (task_is_pending t') eqn:Hp; [done|]. intros Hf%fmap_None [|i] kt Hi Hl; [by simplify_eq/=|].
    apply (IH 0%nat Hf i); [lia|done].
  - intros Hf%fmap_None [|i] kt Hi Hl; [lia|]. apply (IH pos Hf i); [lia|done].
Qed.
End hash.

(** ** The invariant of the group *)

Section invariant.
Context {V E : Type}.
Implicit Types (g : async_task_group_t V E) (k : gkey) (t : task V E) (w : nat).

Lemma wp_emit (e : geffect V E) Φ g : wp (emit e) Φ g ↔ Φ tt (set_g_out (g_out g ++ [e]) g).
Proof. done. Qed.
Lemma wp_task_set_remove_entry k Φ g : wp (task_set_remove_entry k) Φ g ↔
  Φ tt (if g_task_set g then set_g_tasks (hash_del k (g_tasks g)) g else g).
Proof. done. Qed.
Lemma wp_task_set_remove_all Φ g : wp task_set_remove_all_entries Φ g ↔
  Φ tt (if g_task_set g then set_g_tasks [] g else g).
Proof. done. Qed.
Definition all_outcome (has_errors : bool) g : outcome V E :=
  if has_errors then OComposite (task_group_collect_composite_exception g)
  else OResults (task_group_collect_results g).
Lemma wp_resolve_all w b Φ g : wp (resolve_all w b) Φ g ↔
  Φ tt (set_g_out (g_out g ++ [Settled w (all_outcome b g)]) g).
Proof. done. Qed.
#[local] Hint Rewrite @wp_resolve_all @wp_emit @wp_task_set_remove_entry @wp_task_set_remove_all : wp.

Definition npending g : Z := count task_is_pending (g_tasks g).
Definition nrunning g : Z := count task_is_running (g_tasks g).
Definition names g : list nat := (waiter_events g).*1 ++ settled_names (g_out g).
(** A coroutine was refused by the engine. *)
Definition refused g : Prop := SpawnRefused ∈ g_out g.

(** The counters are exact and within the configured limits; a waiter is never
    settled twice; a completed group is at rest. *)
Record Core g : Prop := {
  core_keys : NoDup (g_tasks g).*1;
  core_pending : pending_count g = npending g;
  core_active : active_coroutines g = nrunning g;
  core_small : Z.of_nat (length (g_tasks g)) ≤ 2 ^ 31 - 1;
  core_concurrency : 0 ≤ concurrency g < 2 ^ 32;
  core_bound : 0 < concurrency g ≤ INT32_MAX → nrunning g ≤ concurrency g;
  core_limit : 0 < queue_limit g → npending g ≤ queue_limit g;
  core_names : NoDup (names g);
  core_fired : ∀ x, x ∈ slot_fired g → x ∈ slot_waiters g;
  core_completed : g_completed g = true → g_sealed g = true ∧ nrunning g = 0 ∧ npending g = 0;
  core_handlers : g_scope g = false → finally_handlers g = [] ∨ nrunning g = 0
}.

(** Work conservation: a task waits only while every slot is taken. *)
Definition Busy g : Prop :=
  g_scope g = true → ¬ refused g → task_group_has_slot g = true → npending g = 0.

Lemma has_pending_spec g : task_group_has_pending g = false ↔ npending g = 0.
Proof. apply existsb_count. Qed.
Lemma npending_bound g : 0 ≤ npending g ≤ Z.of_nat (length (g_tasks g)).
Proof. split; [apply count_nonneg|apply count_le]. Qed.
Lemma nrunning_bound g : 0 ≤ nrunning g ≤ Z.of_nat (length (g_tasks g)).
Proof. split; [apply count_nonneg|apply count_le]. Qed.

(** ** Steps that serve waiters

    They change neither the counters nor the tasks they count. *)
Definition Shrunk g g' : Prop :=
  g_out g `prefix_of` g_out g' ∧ ∀ x, x ∈ waiter_events g' → x ∈ waiter_events g.
#[export] Instance Shrunk_preorder : PreOrder Shrunk.
Proof. split; [done|]. intros g1 g2 g3 [] []. split; [by etrans|auto]. Qed.

Record Quiet g g' : Prop := {
  q_shrunk : Shrunk g g';
  q_sealed : g_sealed g' = g_sealed g;
  q_completed : g_completed g' = g_completed g;
  q_scope : g_scope g' = g_scope g;
  q_task_set : g_task_set g' = g_task_set g;
  q_concurrency : concurrency g' = concurrency g;
  q_limit : queue_limit g' = queue_limit g;
  q_pending_count : pending_count g' = pending_count g;
  q_active : active_coroutines g' = active_coroutines g;
  q_slot_waiters : slot_waiters g' = slot_waiters g;
  q_slot_fired : slot_fired g' = slot_fired g;
  q_next : next_slot_trigger g' = next_slot_trigger g;
  q_handlers : finally_handlers g' = finally_handlers g;
  q_tasks : g_tasks g' `sublist_of` g_tasks g;
  q_npending : npending g' = npending g;
  q_nrunning : nrunning g' = nrunning g;
  q_names : names g' ≡ₚ names g;
  q_refused : refused g' ↔ refused g
}.

#[export] Instance Quiet_preorder : PreOrder Quiet.
Proof.
  split.
  - intros g. by constructor.
  - intros g1 g2 g3 [] []. constructor; try congruence.
    + by etrans.
    + by etrans.
    + by etrans.
    + tauto.
Qed.

Lemma Quiet_Core g g' : Quiet g g' → Core g → Core g'.
Proof.
  intros Q C. destruct Q, C.
  pose proof (sublist_length _ _ q_tasks0). constructor.
  - by eapply sublist_keys_NoDup.
  - congruence.
  - congruence.
  - lia.
  - congruence.
  - rewrite q_concurrency0, q_nrunning0. done.
  - rewrite q_limit0, q_npending0. done.
  - by rewrite q_names0.
  - by rewrite q_slot_fired0, q_slot_waiters0.
  - rewrite q_completed0, q_sealed0, q_nrunning0, q_npending0. done.
  - rewrite q_scope0, q_handlers0, q_nrunning0. done.
Qed.
Lemma Quiet_Busy g g' : Quiet g g' → Busy g → Busy g'.
Proof.
  intros Q. unfold Busy, task_group_has_slot. destruct Q.
  rewrite q_scope0, q_refused0, q_concurrency0, q_active0, q_npending0. done.
Qed.

(** ** The vector of waiters *)
Lemma list_find_name (l : list (nat * task_group_waiter_type_t)) i w ty :
  NoDup l.*1 → l !! i = Some (w, ty) → list_find (λ x, x.1 = w) l = Some (i, (w, ty)).
Proof.
  intros Hnd Hi. apply list_find_Some. repeat split; [done..|].
  intros j y Hj Hlt Hy. cut (j = i); [lia|].
  eapply (NoDup_lookup l.*1 j i w); [done|..]; rewrite list_lookup_fmap; [by rewrite Hj; destruct y; simplify_eq/=|by rewrite Hi].
Qed.

Lemma settled_names_app (o o' : list (geffect V E)) :
  settled_names (o ++ o') = settled_names o ++ settled_names o'.
Proof. apply omap_app. Qed.

(** [g'] is [g] after [w], waiting at [i], was settled and removed, where the
    tasks became [l] and effects [es] followed. *)
Lemma Quiet_served g g' i w ty o : waiter_events g !! i = Some (w, ty) →
  waiter_events g' = swap_remove i (waiter_events g) →
  g_out g' = g_out g ++ [Settled w o] →
  g_tasks g' `sublist_of` g_tasks g → npending g' = npending g → nrunning g' = nrunning g →
  g_sealed g' = g_sealed g → g_completed g' = g_completed g → g_scope g' = g_scope g →
  g_task_set g' = g_task_set g → concurrency g' = concurrency g → queue_limit g' = queue_limit g →
  pending_count g' = pending_count g → active_coroutines g' = active_coroutines g →
  slot_waiters g' = slot_waiters g → slot_fired g' = slot_fired g →
  next_slot_trigger g' = next_slot_trigger g → finally_handlers g' = finally_handlers g → Quiet g g'.
Proof.
  intros Hi Hw Ho. intros. constructor; try done.
  - split; [by rewrite Ho; apply prefix_app_r|]. intros x Hx. rewrite Hw in Hx.
    rewrite <- (swap_remove_perm _ _ _ Hi). by right.
  - unfold names. pose proof (fmap_Permutation fst _ _ (swap_remove_perm _ _ _ Hi)) as Hp. cbn in Hp.
    rewrite Hw, Ho, settled_names_app, <- Hp. cbn. solve_Permutation.
  - unfold refused. rewrite Ho. set_solver.
Qed.

Lemma waiter_event_remove_spec g i w ty Φ :
  NoDup (waiter_events g).*1 → waiter_events g !! i = Some (w, ty) →
  (∀ n, ((waiter_notify_index g ≤ i)%nat → n = waiter_notify_index g) →
     Φ tt (set_waiter_notify_index n (set_waiter_events (swap_remove i (waiter_events g)) g))) →
  wp (task_group_waiter_event_remove w) Φ g.
Proof.
  intros Hnd Hi HΦ. unfold task_group_waiter_event_remove. wp_simpl.
  rewrite (list_find_name _ _ _ _ Hnd Hi). wp_simpl. cbn [waiter_notify_index set_waiter_events].
  destruct (_ <? _)%nat eqn:Hlt; wp_simpl.
  - apply HΦ. apply Nat.ltb_lt in Hlt. lia.
  - by apply (HΦ (waiter_notify_index g)).
Qed.

(** ** The notification of waiters *)

(** A completed task settles the waiters of this type. *)
Definition served (result : V + E) (ty : task_group_waiter_type_t) : bool :=
  match ty with
  | WAITER_TYPE_RACE => true
  | WAITER_TYPE_ANY => match result with inl _ => true | inr _ => false end
  | _ => false
  end.

Definition Notified result g g' : Prop :=
  Quiet g g' ∧
  waiter_events g' ≡ₚ filter (λ x, served result x.2 = false) (waiter_events g) ∧
  ∃ es, g_out g' = g_out g ++ es ∧
    ∀ w ty, (w, ty) ∈ waiter_events g → served result ty = true → Settled w (result_outcome result) ∈ es.

Lemma Notified_done result g :
  (∀ x, x ∈ waiter_events g → served result x.2 = false) → Notified result g g.
Proof.
  intros Hall. split_and!; [done|by rewrite filter_all|]. exists []. rewrite app_nil_r. split; [done|].
  intros w ty Hin Hs. specialize (Hall _ Hin). cbn in Hall. congruence.
Qed.
Lemma Notified_skip result g g1 g' es0 : Quiet g g1 → waiter_events g1 = waiter_events g →
  g_out g1 = g_out g ++ es0 → Notified result g1 g' → Notified result g g'.
Proof.
  intros Q Hw Ho (Q' & Hp & es & Ho' & Hes). rewrite Hw in *. split_and!; [by etrans|done|].
  exists (es0 ++ es). rewrite Ho', Ho, app_assoc. split; [done|]. intros. apply elem_of_app. eauto.
Qed.
Lemma Notified_serve result g g1 g' i w ty : Quiet g g1 → waiter_events g !! i = Some (w, ty) →
  served result ty = true → waiter_events g1 = swap_remove i (waiter_events g) →
  g_out g1 = g_out g ++ [Settled w (result_outcome result)] → Notified result g1 g' → Notified result g g'.
Proof.
  intros Q Hi Hs Hw Ho (Q' & Hp & es & Ho' & Hes). pose proof (swap_remove_perm _ _ _ Hi) as Hperm.
  rewrite <- Hw in Hperm. split_and!; [by etrans|..].
  - rewrite Hp, <- Hperm, filter_cons_False; [done|]. cbn. by rewrite Hs.
  - eexists. rewrite Ho', Ho, <- app_assoc. split; [done|]. intros w' ty'. rewrite <- Hperm.
    intros [[= -> ->]|Hin]%elem_of_cons Hs'; [set_solver|]. apply elem_of_app. eauto.
Qed.

(** [l] is left of the tasks of [g] after settled ones were delivered. *)
Definition Delivered (l : list (gkey * task V E)) g : Prop :=
  l `sublist_of` g_tasks g ∧ count task_is_pending l = npending g ∧ count task_is_running l = nrunning g.
Definition at_rest g : Prop := npending g = 0 ∧ nrunning g = 0.
Definition ended k g : Prop :=
  ∀ t, hash_find k (g_tasks g) = Some t → task_is_pending t = false ∧ task_is_running t = false.

Lemma Delivered_none g : Delivered (g_tasks g) g.
Proof. done. Qed.
Lemma Delivered_all g : at_rest g → Delivered [] g.
Proof. intros [Hp Hr]. split_and!; [apply sublist_nil_l|by rewrite Hp|by rewrite Hr]. Qed.
Lemma Delivered_one k g : ended k g → Delivered (hash_del k (g_tasks g)) g.
Proof.
  intros He. split; [apply hash_del_sublist|]. destruct (hash_find k (g_tasks g)) as [t|] eqn:Hf.
  - destruct (He t Hf) as [Hp Hr]. rewrite !(hash_del_count _ _ _ _ Hf), Hp, Hr. cbn. unfold npending, nrunning. lia.
  - by rewrite hash_del_None.
Qed.

(** A waiter is settled, tasks are delivered, and the waiter leaves the vector. *)
Lemma serve_spec g i w ty o l Φ : NoDup (names g) → waiter_events g !! i = Some (w, ty) → Delivered l g →
  (∀ g', Quiet g g' → waiter_events g' = swap_remove i (waiter_events g) →
     g_out g' = g_out g ++ [Settled w o] → g_tasks g' = l →
     ((waiter_notify_index g ≤ i)%nat → waiter_notify_index g' = waiter_notify_index g) → Φ tt g') →
  wp (task_group_waiter_event_remove w) Φ (set_g_tasks l (set_g_out (g_out g ++ [Settled w o]) g)).
Proof.
  intros Hn Hi (Hl & Hp & Hr) HΦ. apply (waiter_event_remove_spec _ i _ ty); cbn.
  - by apply NoDup_app in Hn as [? _].
  - done.
  - intros n Hx. apply HΦ; try done. by eapply (Quiet_served g _ i w ty o).
Qed.
Lemma set_same_tasks g : set_g_tasks (g_tasks g) g = g.
Proof. by destruct g. Qed.
(** The task set's variant, where the entries are removed only for a TaskSet. *)
Lemma serve_set_spec g i w ty o l Φ : NoDup (names g) → waiter_events g !! i = Some (w, ty) → Delivered l g →
  (∀ g', Quiet g g' → waiter_events g' = swap_remove i (waiter_events g) →
     g_out g' = g_out g ++ [Settled w o] → g_tasks g' = (if g_task_set g then l else g_tasks g) →
     ((waiter_notify_index g ≤ i)%nat → waiter_notify_index g' = waiter_notify_index g) → Φ tt g') →
  wp (task_group_waiter_event_remove w) Φ
    (if g_task_set g then set_g_tasks l (set_g_out (g_out g ++ [Settled w o]) g)
     else set_g_out (g_out g ++ [Settled w o]) g).
Proof.
  intros Hn Hi Hl HΦ. destruct (g_task_set g).
  - by eapply serve_spec.
  - rewrite <- (set_same_tasks (set_g_out _ _)). by eapply serve_spec.
Qed.

(** What the loop relies on: the waiters before the index stay. *)
Record Notifying k result g : Prop := {
  n_names : NoDup (names g);
  n_keys : NoDup (g_tasks g).*1;
  n_ended : ended k g;
  n_passed : Forall (λ x, served result x.2 = false) (take (waiter_notify_index g) (waiter_events g));
  n_index : (waiter_notify_index g ≤ length (waiter_events g))%nat
}.

Lemma Notifying_waiters k result g : Notifying k result g → NoDup (waiter_events g).*1.
Proof. intros [Hn _ _ _ _]. by apply NoDup_app in Hn as [? _]. Qed.

Lemma Notifying_served k result g g1 w ty : Notifying k result g →
  waiter_events g !! waiter_notify_index g = Some (w, ty) →
  waiter_events g1 = swap_remove (waiter_notify_index g) (waiter_events g) →
  waiter_notify_index g1 = waiter_notify_index g → Quiet g g1 → ended k g1 → Notifying k result g1.
Proof.
  intros N Hi Hw Hx Q He. destruct N, Q. constructor; [by rewrite q_names0|by eapply sublist_keys_NoDup|done|..].
  - by rewrite Hw, Hx, (swap_remove_take _ _ _ Hi).
  - rewrite Hw, Hx. apply lookup_lt_Some in Hi as Hlt. apply swap_remove_length in Hi. lia.
Qed.
Lemma Notifying_skipped k result g g1 w ty : Notifying k result g →
  waiter_events g !! waiter_notify_index g = Some (w, ty) → served result ty = false →
  waiter_events g1 = waiter_events g → waiter_notify_index g1 = S (waiter_notify_index g) →
  g_tasks g1 = g_tasks g → Quiet g g1 → Notifying k result g1.
Proof.
  intros N Hi Hs Hw Hx Ht Q. destruct N, Q.
  constructor; rewrite ?Ht, ?Hw, ?Hx; [by rewrite q_names0|done|unfold ended; by rewrite Ht| |].
  - rewrite (take_S_r _ _ _ Hi). apply Forall_app. auto.
  - by apply lookup_lt_Some in Hi.
Qed.

Lemma Quiet_skip g g1 es : (∀ e, e ∈ es → ∃ w, e = IteratorNotified w) →
  g1 = set_g_out (g_out g ++ es) (set_waiter_notify_index (S (waiter_notify_index g)) g) → Quiet g g1.
Proof.
  intros Hes ->. assert (settled_names es = []) as Hn.
  { destruct (settled_names es) as [|w ws] eqn:Hs; [done|]. exfalso.
    assert (w ∈ settled_names es) as (e & (w' & ->)%Hes & ?)%list_elem_of_omap by (rewrite Hs; left). done. }
  constructor; try done.
  - split; [by apply prefix_app_r|done].
  - unfold names. cbn -[settled_names]. by rewrite settled_names_app, Hn, app_nil_r.
  - unfold refused. cbn. rewrite elem_of_app. split; [|tauto]. intros [?|(w & ?)%Hes]; done.
Qed.

Lemma notify_loop_spec fuel k result g : Notifying k result g →
  (length (waiter_events g) - waiter_notify_index g < fuel)%nat →
  wp (notify_loop fuel k result) (λ _, Notified result g) g.
Proof.
  revert g. induction fuel as [|fuel IH]; intros g N Hf; [lia|]. cbn [notify_loop]. wp_simpl.
  destruct (_ !! _) as [[w ty]|] eqn:Hi; wp_simpl.
  2:{ apply Notified_done. intros x Hx. apply lookup_ge_None in Hi.
      pose proof (n_passed _ _ _ N) as Hp. rewrite take_ge in Hp by done. rewrite Forall_forall in Hp. auto. }
  apply lookup_lt_Some in Hi as Hlt.
  assert (∀ es m, (∀ e, e ∈ es → ∃ w, e = IteratorNotified w) → served result ty = false →
    m = set_g_out (g_out g ++ es) (set_waiter_notify_index (S (waiter_notify_index g)) g) →
    wp (notify_loop fuel k result) (λ _, Notified result g) m) as Hskip.
  { intros es m Hes Hs Hm. pose proof (Quiet_skip _ _ _ Hes Hm) as Q.
    eapply wp_mono; [apply IH|]; subst m.
    - by eapply Notifying_skipped.
    - cbn. lia.
    - cbn beta. intros _ g'. by eapply Notified_skip. }
  assert (∀ g1, served result ty = true → Quiet g g1 →
    waiter_events g1 = swap_remove (waiter_notify_index g) (waiter_events g) →
    g_out g1 = g_out g ++ [Settled w (result_outcome result)] → ended k g1 →
    ((waiter_notify_index g ≤ waiter_notify_index g)%nat → waiter_notify_index g1 = waiter_notify_index g) →
    wp (notify_loop fuel k result) (λ _, Notified result g) g1) as Hserve.
  { intros g1 Hs Q Hw Ho He Hx. eapply wp_mono; [apply IH|].
    - eapply Notifying_served; eauto.
    - rewrite Hw, Hx by done. apply swap_remove_length in Hi. lia.
    - cbn beta. intros _ g'. by eapply Notified_serve. }
  destruct ty; cbn [served] in *.
  - wp_simpl. eapply (serve_set_spec g); [apply N|done|exact (Delivered_one k g (n_ended _ _ _ N))|].
    intros g1 Q Hw Ho Ht Hx. apply Hserve; try done. unfold ended. rewrite Ht. destruct (g_task_set g); [|apply N].
    rewrite hash_del_find by apply N. done.
  - destruct result as [v|e]; wp_simpl.
    + rewrite <- (set_same_tasks (set_g_out _ _)). eapply (serve_spec g); [apply N|done|exact (Delivered_none g)|].
      intros g1 Q Hw Ho Ht Hx. apply Hserve; try done. unfold ended. rewrite Ht. apply N.
    + by apply (Hskip []); [set_solver|done|rewrite app_nil_r; destruct g].
  - by wp_simpl; apply (Hskip []); [set_solver|done|rewrite app_nil_r; destruct g].
  - by wp_simpl; apply (Hskip []); [set_solver|done|rewrite app_nil_r; destruct g].
  - wp_simpl. apply (Hskip [IteratorNotified w]); [set_solver|done..].
Qed.

(** ** Completion *)

Lemma Quiet_at_rest g g' : Quiet g g' → at_rest g → at_rest g'.
Proof. unfold at_rest. by intros [] [? ?]; split; congruence. Qed.

(** An effect that neither settles a waiter nor reports a refusal. *)
Definition harmless (e : geffect V E) : bool :=
  match e with Settled _ _ | SpawnRefused => false | _ => true end.
Lemma Quiet_emit g e : harmless e = true → Quiet g (set_g_out (g_out g ++ [e]) g).
Proof.
  intros He. constructor; try done.
  - split; [by apply prefix_app_r|done].
  - unfold names. cbn -[settled_names]. rewrite settled_names_app. destruct e; try done; cbn; by rewrite app_nil_r.
  - unfold refused. cbn. rewrite elem_of_app, list_elem_of_singleton. split; [|tauto]. by intros [?| <-].
Qed.

Lemma complete_loop_spec fuel i b g : NoDup (names g) → at_rest g →
  (length (waiter_events g) - i < fuel)%nat → wp (complete_loop fuel i b) (λ _, Quiet g) g.
Proof.
  revert i g. induction fuel as [|fuel IH]; intros i g Hn Hrest Hf; [lia|]. cbn [complete_loop]. wp_simpl.
  destruct (_ !! _) as [[w ty]|] eqn:Hi; wp_simpl; [|done].
  assert (∀ j g', (i ≤ j)%nat → Quiet g g' → waiter_events g' = swap_remove i (waiter_events g) →
    wp (complete_loop fuel j b) (λ _, Quiet g) g') as Hserve.
  { intros j g' Hj Q Hw. eapply wp_mono; [apply IH|].
    - by rewrite (q_names _ _ Q).
    - by eapply Quiet_at_rest.
    - rewrite Hw. apply lookup_lt_Some in Hi as Hlt. apply swap_remove_length in Hi. lia.
    - cbn beta. intros _ g2 Q2. by etrans. }
  assert (∀ j g', Quiet g g' → waiter_events g' = waiter_events g → (i < j)%nat →
    wp (complete_loop fuel j b) (λ _, Quiet g) g') as Hskip.
  { intros j g' Q Hw Hj. apply lookup_lt_Some in Hi as Hlt. eapply wp_mono; [apply IH|].
    - by rewrite (q_names _ _ Q).
    - by eapply Quiet_at_rest.
    - rewrite Hw. lia.
    - cbn beta. intros _ g2 Q2. by etrans. }
  destruct ty; wp_simpl.
  - apply Hskip; [done|done|lia].
  - rewrite <- (set_same_tasks (set_g_out _ _)). eapply (serve_spec g); [done..|exact (Delivered_none g)|].
    intros g1 Q Hw _ _ _. apply Hserve; [lia|done..].
  - eapply (serve_set_spec g); [done..|by apply Delivered_all|]. intros g1 Q Hw _ _ _. apply Hserve; [lia|done..].
  - eapply (serve_set_spec g); [done..|by apply Delivered_all|]. intros g1 Q Hw _ _ _. apply Hserve; [lia|done..].
  - apply Hskip; [by apply Quiet_emit|done|lia].
Qed.

(** What the callers suspended in spawn see of a step. *)
Record Frame g g' : Prop := {
  f_sealed : g_sealed g = true → g_sealed g' = true;
  f_scope : g_scope g' = g_scope g;
  f_slot_waiters : slot_waiters g' = slot_waiters g;
  f_next : next_slot_trigger g' = next_slot_trigger g;
  f_keys : ∀ k, k ∈ (g_tasks g').*1 → k ∈ (g_tasks g).*1;
  f_concurrency : concurrency g' = concurrency g;
  f_limit : queue_limit g' = queue_limit g;
  f_task_set : g_task_set g' = g_task_set g
}.
#[export] Instance Frame_preorder : PreOrder Frame.
Proof. split; [by constructor|]. intros g1 g2 g3 [] []. constructor; congruence || auto. Qed.

Lemma Quiet_Frame g g' : Quiet g g' → Frame g g'.
Proof.
  intros []. constructor; try congruence. intros k Hk. eapply elem_of_sublist; [exact Hk|by apply fmap_sublist].
Qed.

(** The invariant, work conservation and the frame, carried by most steps. *)
Definition Kept g g' : Prop := Core g' ∧ (Busy g → Busy g') ∧ Frame g g'.

Lemma Kept_trans g1 g2 g3 : Kept g1 g2 → Kept g2 g3 → Kept g1 g3.
Proof. intros (_ & ? & ?) (? & ? & ?). split_and!; [done|auto|by etrans]. Qed.
Lemma Kept_refl g : Core g → Kept g g.
Proof. done. Qed.
Lemma Quiet_Kept g g' : Core g → Quiet g g' → Kept g g'.
Proof.
  intros C Q. split_and!; [by eapply Quiet_Core|by eapply Quiet_Busy|by apply Quiet_Frame].
Qed.
Lemma Kept_completed g : Core g → g_sealed g = true → at_rest g → Kept g (set_g_completed true g).
Proof. intros [] Hs [Hp Hr]. split_and!; [|done|by constructor]. by constructor. Qed.
Lemma Kept_no_handlers g : Core g → Kept g (set_finally_handlers [] g).
Proof. intros []. split_and!; [|done|by constructor]. constructor; try done. by left. Qed.

Lemma try_complete_spec g : Core g → (g_scope g = false → finally_handlers g = []) →
  wp task_group_try_complete (λ _ g', Kept g g' ∧ Shrunk g g') g.
Proof.
  intros C Hh. unfold task_group_try_complete. wp_simpl.
  destruct (_ || _) eqn:Hb; wp_simpl; [done|].
  apply orb_false_iff in Hb as [Ha%Z.ltb_ge Hp%has_pending_spec]. pose proof (nrunning_bound g).
  rewrite (core_active _ C) in Ha. assert (at_rest g) as Hrest by (split; lia).
  eapply wp_mono; [apply complete_loop_spec; [apply C|done|lia]|]. cbn beta. intros _ g1 Q.
  pose proof (Quiet_Kept _ _ C Q) as K1. wp_simpl.
  eapply (wp_mono _ (λ _ g2, Kept g g2 ∧ Shrunk g g2 ∧ finally_handlers g2 = finally_handlers g1)).
  { pose proof (q_shrunk _ _ Q). destruct (g_sealed g1) eqn:Hs; wp_simpl; [|done]. split; [|done]. eapply Kept_trans; [done|].
    apply Kept_completed; [apply K1|done|by eapply Quiet_at_rest]. }
  intros _ g2 (K2 & S2 & Hf). wp_simpl.
  assert (Quiet g2 (set_g_closed true (set_g_out (g_out g2 ++ [GroupNotified]) g2))) as Q3.
  { etrans; [by apply (Quiet_emit _ GroupNotified)|by constructor]. }
  pose proof (Kept_trans _ _ _ K2 (Quiet_Kept _ _ (proj1 K2) Q3)) as K3.
  assert (Shrunk g (set_g_closed true (set_g_out (g_out g2 ++ [GroupNotified]) g2))) as S3.
  { etrans; [exact S2|apply Q3]. }
  destruct (bool_decide_reflect (finally_handlers g1 = [])) as [|Hne]; [done|].
  replace (g_scope g1) with true; cbn; wp_simpl.
  - split; [|etrans; [exact S3|split; [by apply prefix_app_r|done]]].
    pose proof (Quiet_Kept _ _ (proj1 K3) (Quiet_emit _ (FinallyCalled (finally_handlers g1)) eq_refl)) as K4.
    eapply Kept_trans; [exact K3|]. eapply Kept_trans; [exact K4|]. apply Kept_no_handlers, K4.
  - rewrite (q_scope _ _ Q). destruct (g_scope g) eqn:Hs; [done|].
    rewrite (q_handlers _ _ Q) in Hne. by rewrite Hh in Hne.
Qed.

(** ** Starting tasks *)

(** Only PENDING entries change, and only to RUNNING. *)
Record Drained g g' : Prop := {
  d_frame : Frame g g';
  d_sealed : g_sealed g' = g_sealed g;
  d_completed : g_completed g' = g_completed g;
  d_handlers : finally_handlers g' = finally_handlers g;
  d_waiters : waiter_events g' = waiter_events g;
  d_keys : (g_tasks g').*1 = (g_tasks g).*1;
  d_settled : settled_names (g_out g') = settled_names (g_out g);
  d_others : ∀ k t, hash_find k (g_tasks g) = Some t → task_is_pending t = false →
    hash_find k (g_tasks g') = Some t
}.
#[export] Instance Drained_preorder : PreOrder Drained.
Proof.
  split; [by constructor|]. intros g1 g2 g3 [] []. constructor; congruence || eauto. by etrans.
Qed.

(** The key of a pending entry and a free slot. *)
Record Startable k g : Prop := {
  s_core : Core g;
  s_scope : g_scope g = true;
  s_open : g_completed g = false;
  s_slot : task_group_has_slot g = true;
  s_pending : ∃ fcall, hash_find k (g_tasks g) = Some (TASK_STATE_PENDING fcall)
}.

Lemma Startable_room k g : Startable k g →
  0 < npending g ∧ nrunning g + 1 ≤ 2 ^ 31 - 1 ∧ npending g < 2 ^ 32 ∧
  (0 < concurrency g ≤ INT32_MAX → nrunning g + 1 ≤ concurrency g).
Proof.
  intros [[] _ _ Hslot [fcall Hf]]. pose proof (hash_find_count task_is_pending _ _ _ Hf eq_refl).
  pose proof (count_disjoint (g_tasks g)). pose proof (nrunning_bound g).
  unfold npending, nrunning in *. split_and!; [lia..|].
  intros Hc. unfold task_group_has_slot in Hslot. rewrite orb_true_iff, Z.eqb_eq, Z.ltb_lt in Hslot.
  unfold INT32_MAX in Hc. rewrite i32_small in Hslot by lia. lia.
Qed.

Lemma start_pending_spec k g : Startable k g →
  wp (task_group_spawn_coroutine k true true) (λ _ g', Core g' ∧ Drained g g' ∧
    g_tasks g' = hash_replace k TASK_STATE_RUNNING (g_tasks g)) g.
Proof.
  intros St. destruct (Startable_room k g St) as (Hp & Hr & Hp32 & Hb). destruct St as [C Hs Hc _ [fcall Hf]].
  unfold task_group_spawn_coroutine. wp_simpl. rewrite Hs. cbn [negb]. wp_simpl.
  cbn [pending_count set_g_tasks]. rewrite (core_pending _ C). split; [by apply Z.ltb_lt|].
  unfold task_group_fire_one_slot_waiter. wp_simpl.
  set (l := hash_replace k TASK_STATE_RUNNING (g_tasks g)).
  assert (count task_is_pending l = npending g - 1) as Hlp.
  { unfold l. rewrite (hash_replace_count _ _ _ _ _ Hf). cbn. unfold npending. lia. }
  assert (count task_is_running l = nrunning g + 1) as Hlr.
  { unfold l. rewrite (hash_replace_count _ _ _ _ _ Hf). cbn. unfold nrunning. lia. }
  set (g1 := set_pending_count _ _).
  set (g2 := match slot_waiters g1 with [] => g1 | _ => _ end).
  assert (∃ F, g2 = set_slot_fired F g1 ∧ (∀ x, x ∈ F → x ∈ slot_waiters g)) as (F & -> & HF).
  { subst g2 g1. cbn. destruct (slot_waiters g) as [|x xs] eqn:Hw.
    - exists (slot_fired g). split; [done|]. intros y Hy. rewrite <- Hw. by apply C.
    - eexists. split; [done|]. intros y [Hy|Hy]%elem_of_union; [rewrite <- Hw; by apply C|set_solver]. }
  destruct C. split_and!; [| |done].
  - constructor; unfold npending, nrunning, names in *; cbn -[settled_names] in *; fold l; rewrite ?Hlp, ?Hlr.
    + unfold l. by rewrite hash_replace_keys.
    + rewrite u32_small; lia.
    + pose proof (count_nonneg task_is_running (g_tasks g)). rewrite i32_small; lia.
    + unfold l. by rewrite hash_replace_length.
    + done.
    + done.
    + intros ?. lia.
    + by rewrite settled_names_app, app_nil_r.
    + done.
    + congruence.
    + congruence.
  - constructor; cbn -[settled_names]; try done.
    + constructor; cbn; try done. intros k'. fold l. unfold l. by rewrite hash_replace_keys.
    + apply hash_replace_keys.
    + by rewrite settled_names_app, app_nil_r.
    + intros k' t Hk' Ht. fold l. unfold l. rewrite hash_replace_other; [done|].
      intros ->. rewrite Hf in Hk'. by simplify_eq.
Qed.

(** A refused start leaves the entry pending. *)
Lemma spawn_refuse_spec k b g : g_scope g = true → Core g →
  wp (task_group_spawn_coroutine k b false) (λ _ g', Core g' ∧ Busy g' ∧ Drained g g' ∧ g_tasks g' = g_tasks g) g.
Proof.
  intros Hs C. unfold task_group_spawn_coroutine. wp_simpl. rewrite Hs. cbn [negb]. wp_simpl. split_and!; [| | |done].
  - destruct C. constructor; try done. unfold names in *. cbn -[settled_names].
    by rewrite settled_names_app, app_nil_r.
  - intros _ Hr. destruct Hr. unfold refused. cbn. set_solver.
  - constructor; try done. cbn -[settled_names]. by rewrite settled_names_app, app_nil_r.
Qed.

Lemma group_drain_loop_spec fuel pos sp g : Core g → g_scope g = true → g_completed g = false →
  (∀ i kt, (i < pos)%nat → g_tasks g !! i = Some kt → task_is_pending kt.2 = false) →
  (length (g_tasks g) - pos < fuel)%nat →
  wp (drain_loop fuel pos sp) (λ _ g', Core g' ∧ Busy g' ∧ Drained g g') g.
Proof.
  revert pos g. induction fuel as [|fuel IH]; intros pos g C Hs Hc Hpos Hf; [lia|]. cbn [drain_loop]. wp_simpl.
  destruct (task_group_has_slot g) eqn:Hslot; cbn [negb]; wp_simpl.
  2:{ split_and!; [done| |done]. intros _ _. congruence. }
  destruct (find_pending pos (g_tasks g)) as [[j k]|] eqn:Hfind; wp_simpl.
  2:{ split_and!; [done| |done]. intros _ _ _. apply count_zero. intros kt (i & Hi)%list_elem_of_lookup.
      destruct (decide (i < pos)%nat); [eauto|]. eapply find_pending_None; [exact Hfind| |exact Hi]. lia. }
  destruct (find_pending_Some _ _ _ _ Hfind) as (t & Hj & Ht & Hle & Hbetween).
  destruct t as [fcall| | |]; try done.
  assert (hash_find k (g_tasks g) = Some (TASK_STATE_PENDING fcall)) as Hk.
  { apply hash_find_NoDup; [apply C|]. by eapply list_elem_of_lookup_2. }
  destruct (sp k); cbn [negb].
  - eapply wp_mono; [apply start_pending_spec; constructor; eauto|]. cbn beta. intros _ g1 (C1 & D1 & Ht1).
    rewrite (hash_replace_insert _ _ _ _ _ (core_keys _ C) Hj) in Ht1.
    eapply wp_mono; [apply IH|].
    + done.
    + by rewrite (f_scope _ _ (d_frame _ _ D1)).
    + by rewrite (d_completed _ _ D1).
    + intros i kt Hi. rewrite Ht1. apply lookup_lt_Some in Hj as Hlt. destruct (decide (i = j)) as [->|Hne].
      * rewrite list_lookup_insert_eq by done. by intros [= <-].
      * rewrite list_lookup_insert_ne by done. intros Hkt.
        destruct (decide (i < pos)%nat); [by eapply Hpos|]. eapply Hbetween; [|done]. lia.
    + rewrite Ht1, length_insert. apply lookup_lt_Some in Hj. lia.
    + cbn beta. intros _ g2 (? & ? & ?). split_and!; [done..|by etrans].
  - eapply wp_mono; [by apply spawn_refuse_spec|]. cbn beta. intros _ g1 (? & ? & ? & _). by wp_simpl.
Qed.

Lemma group_drain_spec sp g : Core g → g_completed g = false →
  wp (task_group_drain sp) (λ _ g', Core g' ∧ Busy g' ∧ Drained g g') g.
Proof.
  intros C Hc. unfold task_group_drain. wp_simpl. destruct (g_scope g) eqn:Hs; cbn [negb]; wp_simpl.
  - apply group_drain_loop_spec; [done..| |lia]. intros; lia.
  - split_and!; [done| |done]. intros Hs'. congruence.
Qed.

(** ** The end of a coroutine *)

(** What a coroutine's end leaves in its slot. *)
Definition settled_task (result : V + E) : task V E :=
  match result with inl v => TaskResult v | inr e => TASK_STATE_ERROR e end.

Record Ended k result g g' : Prop := {
  e_core : Core g';
  e_frame : Frame g g';
  e_completed : g_completed g' = false;
  e_waiters : waiter_events g' = waiter_events g;
  e_out : g_out g' = g_out g;
  e_handlers : finally_handlers g' = finally_handlers g;
  e_tasks : g_tasks g' = hash_replace k (settled_task result) (g_tasks g)
}.

Lemma settle_spec k result g : Core g → hash_find k (g_tasks g) = Some TASK_STATE_RUNNING →
  wp (settle_entry k result;; modify (λ g, set_active_coroutines (i32 (active_coroutines g - 1)) g))
    (λ _, Ended k result g) g.
Proof.
  intros C Hf. unfold settle_entry. wp_simpl. rewrite Hf.
  assert (∀ b : bool, wp (modify (λ g, set_active_coroutines (i32 (active_coroutines g - 1)) g)) (λ _, Ended k result g)
    (let g1 := set_g_tasks (hash_replace k (settled_task result) (g_tasks g)) g in
     if b then set_g_exception_handled false g1 else g1)) as Hdec.
  { intros b. wp_simpl. set (l := hash_replace _ _ _).
    assert (count task_is_pending l = npending g) as Hlp.
    { unfold l. rewrite (hash_replace_count _ _ _ _ _ Hf). destruct result; cbn; unfold npending; lia. }
    assert (count task_is_running l = nrunning g - 1) as Hlr.
    { unfold l. rewrite (hash_replace_count _ _ _ _ _ Hf). destruct result; cbn; unfold nrunning; lia. }
    assert (0 < nrunning g) as Hpos by by eapply (hash_find_count task_is_running).
    assert (g_completed g = false) as Hc.
    { apply not_true_is_false. intros (_ & ? & _)%(core_completed _ C). lia. }
    pose proof (nrunning_bound g). destruct C.
    assert (finally_handlers g = [] ∨ g_scope g = true) as Hh.
    { destruct (g_scope g); [by right|]. destruct core_handlers0; [done|by left|lia]. }
    destruct b; (constructor; cbn; try done; [|constructor; cbn; try done; intros k'; unfold l; by rewrite hash_replace_keys]);
      (constructor; unfold npending, nrunning in *; cbn; fold l; rewrite ?Hlp, ?Hlr; try done;
       [unfold l; by rewrite hash_replace_keys|rewrite i32_small; lia|unfold l; by rewrite hash_replace_length
       |intros ?; lia|congruence|intros; destruct Hh; [by left|congruence]]). }
  destruct result as [v|e]; wp_simpl; [exact (Hdec false)|exact (Hdec true)].
Qed.

Definition Served result g g' : Prop :=
  (∀ w ty, (w, ty) ∈ waiter_events g → served result ty = true →
     Settled w (result_outcome result) ∈ g_out g') ∧
  (∀ x, x ∈ waiter_events g' → x ∈ waiter_events g ∧ served result x.2 = false).

Lemma Notified_Served result g g1 g' : Notified result g g1 → Shrunk g1 g' → Served result g g'.
Proof.
  intros (_ & Hp & es & Ho & Hes) [[es' Ho'] Hw]. split.
  - intros w ty Hin Hs. rewrite Ho', Ho. specialize (Hes w ty Hin Hs). set_solver.
  - intros x Hx%Hw. rewrite Hp in Hx. apply list_elem_of_filter in Hx as [? ?]. done.
Qed.

(** Settled entries survive the start of other tasks. *)
Lemma Ended_Drained_ended k result g g1 g2 : Ended k result g g1 → k ∈ (g_tasks g).*1 →
  Drained g1 g2 → ended k g2.
Proof.
  intros He Hk D t Ht.
  assert (hash_find k (g_tasks g1) = Some (settled_task result)) as Hf.
  { rewrite (e_tasks _ _ _ _ He). by apply hash_find_replace. }
  rewrite (d_others _ _ D _ _ Hf) in Ht by by destruct result.
  simplify_eq. by destruct result.
Qed.

Lemma complete_spec k result sp g : Core g → hash_find k (g_tasks g) = Some TASK_STATE_RUNNING →
  wp (task_group_on_coroutine_complete k result sp)
    (λ _ g', Core g' ∧ Busy g' ∧ Frame g g' ∧ Served result g g') g.
Proof.
  intros C Hf. unfold task_group_on_coroutine_complete.
  pose proof (settle_spec k result g C Hf) as Hset. rewrite wp_bind in Hset |- *.
  eapply wp_mono; [exact Hset|]. cbn beta. intros _ g0 H0. rewrite wp_bind.
  eapply wp_mono; [exact H0|]. cbn beta. intros _ g1 He. clear Hset H0 g0. rewrite wp_bind.
  eapply wp_mono; [apply group_drain_spec; apply He|]. cbn beta. intros _ g2 (C2 & B2 & D). wp_simpl.
  assert (Quiet g2 (set_waiter_notify_index 0 g2)) as Qi by by constructor.
  pose proof (Quiet_Core _ _ Qi C2) as C3.
  assert (k ∈ (g_tasks g).*1) as Hk.
  { apply hash_find_elem in Hf. apply list_elem_of_fmap. by exists (k, TASK_STATE_RUNNING). }
  eapply wp_mono; [apply (notify_loop_spec _ k result)|].
  - constructor; cbn.
    + apply C3.
    + apply C2.
    + exact (Ended_Drained_ended _ _ _ _ _ He Hk D).
    + constructor.
    + lia.
  - cbn. lia.
  - cbn beta. intros _ g4 N. pose proof (proj1 N) as Q4.
    assert (Frame g g2) as F2 by (etrans; [apply He|apply D]).
    eapply wp_mono; [apply try_complete_spec|].
    + by eapply Quiet_Core.
    + intros Hs. rewrite (q_handlers _ _ Q4). cbn.
      rewrite (q_scope _ _ Q4) in Hs. cbn in Hs. rewrite (f_scope _ _ F2) in Hs.
      rewrite (d_handlers _ _ D), (e_handlers _ _ _ _ He).
      destruct (core_handlers _ C Hs) as [|Hr]; [done|].
      pose proof (hash_find_count task_is_running _ _ _ Hf eq_refl). unfold nrunning in Hr. lia.
    + cbn beta. intros _ g5 [(C5 & B5 & F5) S5]. split_and!; [done| | |].
      * apply B5. by eapply Quiet_Busy.
      * etrans; [exact F2|]. etrans; [by apply Quiet_Frame|]. etrans; [by apply Quiet_Frame|done].
      * pose proof (Notified_Served _ _ _ _ N S5) as HS. unfold Served in *. cbn in HS.
        by rewrite (d_waiters _ _ D), (e_waiters _ _ _ _ He) in HS.
Qed.

(** ** Spawn *)

(** What a spawn that did not fail on its checks may do to the group. *)
Record Spawned k fcall (r : option gerror + spawner) g g' : Prop := {
  sd_core : Core g';
  sd_busy : Busy g → Busy g';
  sd_sealed : g_sealed g' = g_sealed g;
  sd_scope : g_scope g' = g_scope g;
  sd_result : match r with
    | inl _ => slot_waiters g' = slot_waiters g ∧ next_slot_trigger g' = next_slot_trigger g ∧
               (∀ k', k' ∈ (g_tasks g').*1 → k' = k ∨ k' ∈ (g_tasks g).*1)
    | inr sp => sp = mk_spawner k fcall (next_slot_trigger g) ∧
                slot_waiters g' = slot_waiters g ++ [next_slot_trigger g] ∧
                next_slot_trigger g' = S (next_slot_trigger g) ∧ g_tasks g' = g_tasks g
    end
}.

Lemma NoDup_keys_snoc k t g : NoDup (g_tasks g).*1 → k ∉ (g_tasks g).*1 →
  NoDup (hash_add_new k t (g_tasks g)).*1.
Proof. intros. unfold hash_add_new. rewrite fmap_app. apply NoDup_app. set_solver by apply NoDup_singleton. Qed.
Lemma keys_snoc k k' t g : k' ∈ (hash_add_new k t (g_tasks g)).*1 → k' = k ∨ k' ∈ (g_tasks g).*1.
Proof. unfold hash_add_new. rewrite fmap_app, elem_of_app. set_solver. Qed.

Lemma not_exists k g : k ∉ (g_tasks g).*1 → negb (hash_exists k (g_tasks g)) = true.
Proof. intros Hk. unfold hash_exists. by rewrite bool_decide_eq_false_2. Qed.

Lemma start_new_spec k g : Core g → k ∉ (g_tasks g).*1 → g_scope g = true → g_completed g = false →
  Z.of_nat (length (g_tasks g)) < 2 ^ 31 - 1 → task_group_has_slot g = true →
  wp (task_group_spawn_coroutine k false true) (λ _, Spawned k 0 (inl None) g) g.
Proof.
  intros C Hk Hs Hc Hsmall Hslot. unfold task_group_spawn_coroutine. wp_simpl. rewrite Hs. cbn [negb]. wp_simpl.
  split; [by apply not_exists|]. set (l := hash_add_new _ _ _).
  assert (count task_is_pending l = npending g) as Hlp by (unfold l; rewrite count_add_new; cbn; apply Z.add_0_r).
  assert (count task_is_running l = nrunning g + 1) as Hlr by (unfold l; by rewrite count_add_new).
  pose proof (nrunning_bound g). unfold task_group_has_slot in Hslot. rewrite orb_true_iff, Z.eqb_eq, Z.ltb_lt in Hslot.
  pose proof C as []. constructor; cbn; try done.
  - constructor; unfold npending, nrunning, names in *; cbn -[settled_names]; fold l; rewrite ?Hlp, ?Hlr; try done.
    + by apply NoDup_keys_snoc.
    + rewrite i32_small; lia.
    + unfold l, hash_add_new. rewrite length_app. cbn. lia.
    + unfold INT32_MAX in *. intros ?. rewrite i32_small in Hslot by lia. lia.
    + by rewrite settled_names_app, app_nil_r.
    + congruence.
    + congruence.
  - intros B Hs' Hr _. unfold npending, refused in *. cbn in *. fold l. rewrite Hlp. apply B; [done|set_solver|].
    unfold task_group_has_slot. by rewrite orb_true_iff, Z.eqb_eq, Z.ltb_lt.
  - split_and!; [done..|]. intros k'. apply keys_snoc.
Qed.

(** The result of a spawn does not depend on the error it reports. *)
Lemma Spawned_inl k f f' e e' g g' : Spawned k f (inl e) g g' → Spawned k f' (inl e') g g'.
Proof. by intros []; constructor. Qed.

Lemma refused_Spawned k f e g g' : Core g' → Busy g' → Drained g g' → g_tasks g' = g_tasks g →
  Spawned k f (inl e) g g'.
Proof.
  intros C B D Ht. pose proof (d_frame _ _ D) as F. constructor; [done|done|apply D|apply F|].
  split_and!; [apply F|apply F|]. rewrite Ht. by right.
Qed.

Lemma spawn_park_spec k fcall g : Core g →
  Spawned k fcall (inr (mk_spawner k fcall (next_slot_trigger g))) g
    (set_slot_waiters (slot_waiters g ++ [next_slot_trigger g])
       (set_next_slot_trigger (S (next_slot_trigger g)) g)).
Proof.
  intros []. constructor; try done. constructor; try done. cbn. intros x Hx. apply elem_of_app. auto.
Qed.

Lemma queue_spec k fcall g : Core g → k ∉ (g_tasks g).*1 → g_scope g = true → g_completed g = false →
  Z.of_nat (length (g_tasks g)) < 2 ^ 31 - 1 →
  task_group_has_slot g = false → task_group_queue_is_full g = false →
  Spawned k fcall (inl None) g
    (set_pending_count (u32 (pending_count g + 1))
       (set_g_tasks (hash_add_new k (TASK_STATE_PENDING fcall) (g_tasks g)) g)).
Proof.
  intros C Hk Hs Hc Hsmall Hslot Hfull. set (l := hash_add_new _ _ _).
  assert (count task_is_pending l = npending g + 1) as Hlp by (unfold l; by rewrite count_add_new).
  assert (count task_is_running l = nrunning g) as Hlr by (unfold l; rewrite count_add_new; apply Z.add_0_r).
  pose proof (npending_bound g). unfold task_group_queue_is_full in Hfull.
  rewrite andb_false_iff, Z.ltb_ge, Z.leb_gt in Hfull.
  pose proof C as []. constructor; cbn; try done.
  - constructor; unfold npending, nrunning, names in *; cbn -[settled_names]; fold l; rewrite ?Hlp, ?Hlr; try done.
    + by apply NoDup_keys_snoc.
    + rewrite u32_small; lia.
    + unfold l, hash_add_new. rewrite length_app. cbn. lia.
    + intros ?. lia.
    + congruence.
  - intros _ _ _. unfold task_group_has_slot in *. cbn. congruence.
  - split_and!; [done..|]. intros k'. apply keys_snoc.
Qed.

Lemma spawn_or_wait_spec k fcall ok g : Core g →
  ((if task_group_has_slot g then ok else negb (task_group_queue_is_full g)) = true → k ∉ (g_tasks g).*1) →
  g_scope g = true →
  g_completed g = false → Z.of_nat (length (g_tasks g)) < 2 ^ 31 - 1 →
  wp (spawn_or_wait k fcall ok) (λ r, Spawned k fcall r g) g.
Proof.
  intros C Hk Hs Hc Hsmall. unfold spawn_or_wait. wp_simpl.
  destruct (task_group_has_slot g) eqn:Hslot; cbn [negb andb].
  - destruct ok.
    + wp_apply start_new_spec; [by auto..|]. intros _ g'. wp_simpl. apply Spawned_inl.
    + wp_apply spawn_refuse_spec; [done..|]. intros _ g' (? & ? & ? & ?). wp_simpl. by apply refused_Spawned.
  - destruct (task_group_queue_is_full g) eqn:Hfull; wp_simpl.
    + exact (spawn_park_spec k fcall g C).
    + split; [by apply not_exists, Hk|]. exact (queue_spec k fcall g C (Hk eq_refl) Hs Hc Hsmall Hslot Hfull).
Qed.

(** ** The group and the callers suspended in spawn *)
Record Spawners g (sps : gmap nat spawner) : Prop := {
  sp_waiting : ∀ x, x ∈ slot_waiters g ↔ ∃ id sp, sps !! id = Some sp ∧ sp_trigger sp = x;
  sp_trigger_inj : ∀ id id' sp sp', sps !! id = Some sp → sps !! id' = Some sp' →
    sp_trigger sp = sp_trigger sp' → id = id';
  sp_fresh : ∀ x, x ∈ slot_waiters g → (x < next_slot_trigger g)%nat;
  sp_nodup : NoDup (slot_waiters g);
  sp_destroyed : ∀ id sp, sps !! id = Some sp → g_scope g = false → g_sealed g = true
}.

Lemma Frame_Spawners g g' sps : Frame g g' → Spawners g sps → Spawners g' sps.
Proof.
  intros [] []. constructor; rewrite ?f_slot_waiters0, ?f_next0, ?f_scope0; eauto.
Qed.

Lemma Spawners_parked g g' sps id k fcall sp : Spawners g sps → sps !! id = None →
  g_scope g = true →
  Spawned k fcall (inr sp) g g' → Spawners g' (<[id := sp]> sps).
Proof.
  intros S Hid Hs [_ _ Hse Hsc (-> & Hw & Hn & Ht)]. destruct S.
  assert (∀ id' sp', sps !! id' = Some sp' → sp_trigger sp' ≠ next_slot_trigger g) as Hlt.
  { intros id' sp' Hl Heq. assert (sp_trigger sp' ∈ slot_waiters g) as Hin by (apply sp_waiting0; eauto).
    apply sp_fresh0 in Hin. lia. }
  constructor; rewrite ?Hw, ?Hn, ?Ht.
  - intros x. rewrite elem_of_app, list_elem_of_singleton, sp_waiting0. split.
    + intros [(id' & sp' & Hl & <-)| ->]; [|exists id; eexists; by rewrite lookup_insert_eq].
      exists id', sp'. split; [|done]. rewrite lookup_insert_ne; [done|congruence].
    + intros (id' & sp' & [[<- <-]|[Hne Hl]]%lookup_insert_Some & <-); [by right|left; eauto].
  - intros i1 i2 s1 s2 [[<- <-]|[? H1]]%lookup_insert_Some [[<- <-]|[? H2]]%lookup_insert_Some Heq;
      [done|by destruct (Hlt _ _ H2)|by destruct (Hlt _ _ H1)|eauto].
  - intros x [Hx%sp_fresh0| ->%list_elem_of_singleton]%elem_of_app; lia.
  - apply NoDup_app. split_and!; [done| |apply NoDup_singleton].
    intros x Hx%sp_fresh0 ->%list_elem_of_singleton. lia.
  - congruence.
Qed.

Lemma Spawners_started g g' sps k fcall e : Spawners g sps → Spawned k fcall (inl e) g g' → Spawners g' sps.
Proof. intros [] [_ _ Hse Hsc (Hw & Hn & Ht)]. constructor; rewrite ?Hw, ?Hn, ?Hse, ?Hsc; eauto. Qed.
End invariant.
