(* ===== verification/TaskGroupTheorems.v ===== *)
(** * Theorems on task groups

    The invariant of the group and its suspended callers holds in every reachable
    state; what the futures are settled with; the behaviours the group gets wrong. *)

From S2P Require Import Prelude TaskGroup TaskGroupProofs.
From stdpp Require Import strings.

Local Open Scope Z_scope.

Section methods.
Context {V E : Type}.
Implicit Types (g : async_task_group_t V E) (k : gkey) (t : task V E) (w : nat).
Implicit Types (sps : gmap nat spawner) (s : gsys (V := V) (E := E)).

#[local] Hint Rewrite @wp_resolve_all @wp_emit @wp_task_set_remove_entry @wp_task_set_remove_all : wp.

(** ** The methods *)
Lemma add_waiter_Kept g w ty : Core g → w ∉ names g →
  Kept g (set_waiter_events (waiter_events g ++ [(w, ty)]) g).
Proof.
  intros C Hw. split_and!; [|done|by constructor]. destruct C. constructor; try done.
  unfold names in *. cbn -[settled_names]. rewrite fmap_app. cbn.
  rewrite <- app_assoc, (Permutation_app_comm [w]), app_assoc. apply NoDup_app.
  split_and!; [done| |apply NoDup_singleton]. by intros x Hx ->%list_elem_of_singleton.
Qed.
Lemma lookup_snoc {A} (l : list A) x : (l ++ [x]) !! length l = Some x.
Proof. by rewrite lookup_app_r, Nat.sub_diag by done. Qed.

Lemma at_rest_spec g : Core g →
  task_group_all_settled g && negb (task_group_has_pending g) = true ↔ at_rest g.
Proof.
  intros C. unfold at_rest, task_group_all_settled.
  rewrite andb_true_iff, negb_true_iff, has_pending_spec, Z.eqb_eq, (core_active _ C). tauto.
Qed.

Lemma elem_ended g k t : NoDup (g_tasks g).*1 → (k, t) ∈ g_tasks g →
  task_is_pending t = false → task_is_running t = false → ended k g.
Proof. intros Hnd Hin Hp Hr t' Ht'. rewrite (hash_find_NoDup _ _ _ Hnd Hin) in Ht'. by simplify_eq. Qed.
Lemma first_settled_elem (l : list (gkey * task V E)) k o : first_settled l = Some (k, o) →
  ∃ t, (k, t) ∈ l ∧ task_is_pending t = false ∧ task_is_running t = false.
Proof.
  induction l as [|[k' t'] l IH]; [done|]. cbn.
  destruct t'; intros Hf; try (destruct (IH Hf) as (t & ? & ?); exists t; split; [by right|done]);
    simplify_eq; eexists; (split; [by left|done]).
Qed.
Lemma first_result_elem (l : list (gkey * task V E)) k o : first_result l = Some (k, o) →
  ∃ t, (k, t) ∈ l ∧ task_is_pending t = false ∧ task_is_running t = false.
Proof.
  induction l as [|[k' t'] l IH]; [done|]. cbn.
  destruct t'; intros Hf; try (destruct (IH Hf) as (t & ? & ?); exists t; split; [by right|done]).
  simplify_eq. eexists. split; [by left|done].
Qed.

(** A new waiter settled at once. *)
Lemma serve_new_spec g w ty o l Φ : Core g → w ∉ names g → Delivered l g →
  (∀ g', Kept g g' → Φ tt g') →
  let g1 := set_waiter_events (waiter_events g ++ [(w, ty)]) g in
  wp (task_group_waiter_event_remove w) Φ
    (if g_task_set g then set_g_tasks l (set_g_out (g_out g ++ [Settled w o]) g1)
     else set_g_out (g_out g ++ [Settled w o]) g1).
Proof.
  intros C Hw Hl HΦ g1. destruct (add_waiter_Kept g w ty C Hw) as (C1 & B1 & F1).
  eapply (serve_set_spec g1); [apply C1|apply lookup_snoc|exact Hl|].
  intros g' Q _ _ _ _. apply HΦ. eapply Kept_trans; [done|by apply Quiet_Kept].
Qed.

Lemma all_spec ig w g : Core g → w ∉ names g → wp (method_all ig w) (λ _, Kept g) g.
Proof.
  intros C Hw. pose proof (add_waiter_Kept g w) as Hadd.
  unfold method_all, task_group_waiter_new. wp_simpl. case_match eqn:Hr; wp_simpl; [|by apply Hadd].
  eapply (serve_new_spec g w); [done|done| |done].
  apply Delivered_all, at_rest_spec; [done|exact Hr].
Qed.
Lemma race_spec w g : Core g → w ∉ names g → wp (method_race w) (λ _, Kept g) g.
Proof.
  intros C Hw. unfold method_race, task_group_waiter_new. wp_simpl.
  case_match; wp_simpl; [by apply Kept_refl|].
  destruct (first_settled _) as [[k o]|] eqn:Hf; wp_simpl; [|by apply add_waiter_Kept].
  destruct (first_settled_elem _ _ _ Hf) as (t & Ht & Hp & Hr).
  eapply (serve_new_spec g w); [done|done| |done].
    exact (Delivered_one k g (elem_ended g k t (core_keys _ C) Ht Hp Hr)).
Qed.
Lemma any_spec w g : Core g → w ∉ names g → wp (method_any w) (λ _, Kept g) g.
Proof.
  intros C Hw. unfold method_any, task_group_waiter_new. wp_simpl.
  case_match; wp_simpl; [by apply Kept_refl|].
  destruct (first_result _) as [[k o]|] eqn:Hf; wp_simpl.
  - destruct (first_result_elem _ _ _ Hf) as (t & Ht & Hp & Hr).
    eapply (serve_new_spec g w); [done|done| |done].
    exact (Delivered_one k g (elem_ended g k t (core_keys _ C) Ht Hp Hr)).
  - case_match; wp_simpl; [|by apply add_waiter_Kept].
    destruct (add_waiter_Kept g w WAITER_TYPE_ANY C Hw) as (C1 & B1 & F1).
    rewrite <- (set_same_tasks (set_g_out _ _)).
    eapply (serve_spec (set_waiter_events (waiter_events g ++ [(w, WAITER_TYPE_ANY)]) g));
      [apply C1|apply lookup_snoc|exact (Delivered_none g)|].
    intros g' Q _ _ _ _. wp_simpl. eapply Kept_trans; [done|by apply Quiet_Kept].
Qed.

(** Sealing wakes every suspended spawner. *)
Lemma Kept_sealed g : Core g →
  Kept g (set_slot_fired (slot_fired g ∪ list_to_set (slot_waiters g)) (set_g_sealed true g)).
Proof.
  intros C. split_and!; [|done|by constructor]. pose proof C as []. constructor; try done; cbn.
  - intros x [?|?%elem_of_list_to_set]%elem_of_union; auto.
  - by intros (_ & ? & ?)%core_completed.
Qed.
Lemma group_close_spec g : Core g → g_scope g = true → wp method_close (λ _, Kept g) g.
Proof.
  intros C Hs. unfold method_close, task_group_fire_all_slot_waiters. wp_simpl.
  case_match; wp_simpl; [by apply Kept_refl|]. pose proof (Kept_sealed g C) as K.
  eapply wp_mono; [apply try_complete_spec; [apply K|cbn; congruence]|]. cbn beta.
  intros _ g' [K' _]. by eapply Kept_trans.
Qed.
Lemma Quiet_handled b g : Quiet g (set_g_exception_handled b g).
Proof. by constructor. Qed.
Lemma cancel_spec d g : Core g → g_scope g = true → wp (method_cancel d) (λ _, Kept g) g.
Proof.
  intros C Hs. unfold method_cancel, task_group_fire_all_slot_waiters. wp_simpl.
  case_match; wp_simpl; [by apply Kept_refl|]. pose proof (Kept_sealed g C) as K0.
  pose proof (Quiet_Kept _ _ (proj1 K0) (Quiet_handled true _)) as K1. pose proof (Kept_trans _ _ _ K0 K1) as K.
  match type of K1 with Kept _ ?x => set (g1 := x) in * end.
  change (wp (if g_scope g && negb d then emit ScopeCancelled else mret tt)
    (λ _, wp task_group_try_complete (λ _, Kept g)) g1).
  eapply (wp_mono _ (λ _ g2, Kept g g2 ∧ g_scope g2 = true)).
  - rewrite Hs. destruct d; cbn [negb andb]; wp_simpl; [done|]. split; [|done].
    eapply Kept_trans; [exact K|]. by apply Quiet_Kept, Quiet_emit; [apply K|].
  - intros _ g2 [K2 Hs2]. eapply wp_mono; [apply try_complete_spec; [apply K2|congruence]|]. cbn beta.
    intros _ g' [K' _]. by eapply Kept_trans.
Qed.
Lemma finally_spec h g : Core g → g_scope g = true → wp (method_finally h) (λ _, Kept g) g.
Proof.
  intros C Hs. unfold method_finally. wp_simpl. case_match; wp_simpl.
  - by apply Quiet_Kept, Quiet_emit.
  - split_and!; [|done|by constructor]. destruct C. constructor; try done. cbn. congruence.
Qed.
Lemma dispose_spec d g : Core g → wp (method_dispose d) (λ _, Kept g) g.
Proof.
  intros C. unfold method_dispose. wp_simpl. case_match; wp_simpl; [|by apply Kept_refl].
  by apply Quiet_Kept, Quiet_emit.
Qed.
Lemma Quiet_delivered l g : Delivered l g → Quiet g (set_g_tasks l g).
Proof. by intros (? & ? & ?); constructor. Qed.
Lemma deliver_spec k t g : Core g → (k, t) ∈ g_tasks g → task_is_pending t = false → task_is_running t = false →
  Kept g (if g_task_set g then set_g_tasks (hash_del k (g_tasks g)) g else g).
Proof.
  intros C Hin Hp Hr. destruct (g_task_set g); [|by apply Kept_refl].
  apply Quiet_Kept, Quiet_delivered, Delivered_one; [done|]. eapply elem_ended; [apply C|done..].
Qed.
Lemma iterator_spec pos g : Core g → wp (iterator_move_forward pos) (λ _, Kept g) g.
Proof.
  intros C. unfold iterator_move_forward. wp_simpl.
  destruct (g_tasks g !! pos) as [[k t]|] eqn:Hl.
  - apply list_elem_of_lookup_2 in Hl. destruct t; wp_simpl; try (by apply Kept_refl); by eapply deliver_spec.
  - case_match; wp_simpl; by apply Kept_refl.
Qed.
Lemma waiter_dispose_spec w g : Core g → w ∈ (waiter_events g).*1 →
  wp (task_group_waiter_event_remove w) (λ _, Kept g) g.
Proof.
  intros C ([w' ty] & -> & (i & Hi)%list_elem_of_lookup)%list_elem_of_fmap.
  assert (NoDup (waiter_events g).*1) as Hnd by by pose proof (core_names _ C) as [? _]%NoDup_app.
  eapply waiter_event_remove_spec; [done|exact Hi|]. intros n _.
  split_and!; [|done|by constructor]. pose proof (core_names _ C) as Hn. destruct C. constructor; try done.
  unfold names in *. cbn -[settled_names] in *.
  pose proof (fmap_Permutation fst _ _ (swap_remove_perm _ _ _ Hi)) as Hp. cbn in Hp. rewrite <- Hp in Hn.
  cbn in Hn. by apply NoDup_cons in Hn as [_ ?].
Qed.

(** ** The invariant of the group and its suspended callers *)
Record GInv s : Prop := {
  gi_core : Core (gs_group s);
  gi_busy : Busy (gs_group s);
  gi_spawners : Spawners (gs_group s) (gs_spawners s)
}.

Lemma grun_kept {A} (m : M _ A) s : GInv s → wp m (λ _, Kept (gs_group s)) (gs_group s) →
  ∃ s', grun m s = Some s' ∧ GInv s'.
Proof.
  intros [C B S] (a & g' & Hm & (C' & B' & F))%wp_run. unfold grun. rewrite Hm. cbn. eexists. split; [done|].
  constructor; cbn; [done|auto|by eapply Frame_Spawners].
Qed.

Lemma grun_spawn_spec id m k fcall s : GInv s → gs_spawners s !! id = None →
  wp m (λ r g', (∃ e, r = inl e ∧ Kept (gs_group s) g') ∨
    (g_scope (gs_group s) = true ∧
     (∃ g1, Kept (gs_group s) g1 ∧ g_tasks g1 = g_tasks (gs_group s) ∧ Spawned k fcall r g1 g'))) (gs_group s) →
  ∃ s', grun_spawn id m s = Some s' ∧ GInv s'.
Proof.
  intros [C B S] Hid (r & g' & Hm & Hr)%wp_run. unfold grun_spawn. rewrite Hm. cbn. eexists. split; [done|].
  destruct Hr as [(e & -> & C' & B' & F)|(Hs & g1 & (C1 & B1 & F1) & Ht1 & Sd)].
  - rewrite delete_id by done. constructor; cbn; [done|auto|by eapply Frame_Spawners].
  - assert (Spawners g1 (gs_spawners s)) as S1 by by eapply Frame_Spawners.
    constructor; cbn; [apply Sd|by apply Sd, B1|]. destruct r as [e|sp].
    + rewrite delete_id by done. by eapply Spawners_started.
    + eapply Spawners_parked; [done..| |exact Sd]. by rewrite (f_scope _ _ F1).
Qed.

Lemma do_spawn_spec k fcall ok g0 g : Kept g0 g → g_tasks g = g_tasks g0 → g_scope g0 = true →
  Z.of_nat (length (g_tasks g)) < 2 ^ 31 - 1 →
  wp (task_group_do_spawn k fcall ok) (λ r g', (∃ e, r = inl e ∧ Kept g0 g') ∨
    (g_scope g0 = true ∧
     (∃ g1, Kept g0 g1 ∧ g_tasks g1 = g_tasks g0 ∧ Spawned k fcall r g1 g'))) g.
Proof.
  intros K Ht Hs Hsmall. unfold task_group_do_spawn. wp_simpl.
  case_match; wp_simpl; [eauto|]. destruct (g_completed g) eqn:Hc; wp_simpl; [eauto|].
  destruct (hash_exists k (g_tasks g)) eqn:He; wp_simpl; [eauto|].
  apply bool_decide_eq_false in He. destruct K as (C & B & F).
  eapply wp_mono; [apply spawn_or_wait_spec; [done..| |done|done]|].
  - by rewrite (f_scope _ _ F).
  - cbn beta. intros r g' Sd. right. rewrite <- Ht. split_and!; [done..|]. by exists g.
Qed.

Lemma next_key_Kept n g : Core g → Kept g (set_next_key n g).
Proof. intros C. split_and!; [|done|by constructor]. by destruct C. Qed.

Lemma spawn_step id fcall ok s : GInv s → genabled (GSpawn id fcall ok) s = true →
  ∃ s', gexec (GSpawn id fcall ok) s = Some s' ∧ GInv s'.
Proof.
  cbn. intros I [[Hs Hid%bool_decide_eq_true]%andb_true_iff Hsm%Z.ltb_lt]%andb_true_iff.
  eapply (grun_spawn_spec _ _ (GInt (next_key (gs_group s))) fcall); [done|done|].
  unfold method_spawn. wp_simpl.
  by apply do_spawn_spec; [apply next_key_Kept, I|..].
Qed.
Lemma spawn_key_step id k fcall ok s : GInv s → genabled (GSpawnWithKey id k fcall ok) s = true →
  ∃ s', gexec (GSpawnWithKey id k fcall ok) s = Some s' ∧ GInv s'.
Proof.
  cbn. intros I [[Hs Hid%bool_decide_eq_true]%andb_true_iff Hsm%Z.ltb_lt]%andb_true_iff.
  eapply (grun_spawn_spec _ _ k fcall); [done|done|]. by apply do_spawn_spec; [apply Kept_refl, I|..].
Qed.

(** A resumed spawner first leaves [slot_waiters]. *)
Definition unpark (sp : spawner) g : async_task_group_t V E :=
  set_slot_fired (slot_fired g ∖ {[sp_trigger sp]})
    (set_slot_waiters (filter (λ x, x ≠ sp_trigger sp) (slot_waiters g)) g).

Lemma unpark_inv id sp s : GInv s → gs_spawners s !! id = Some sp →
  GInv (mk_gsys (unpark sp (gs_group s)) (delete id (gs_spawners s))).
Proof.
  intros [C B S] Hid. constructor; cbn; [|done|].
  - destruct C. constructor; try done. cbn. intros x [Hx%core_fired Hne]%elem_of_difference.
    apply list_elem_of_filter. set_solver.
  - assert (∀ id' sp', delete id (gs_spawners s) !! id' = Some sp' →
      gs_spawners s !! id' = Some sp' ∧ sp_trigger sp' ≠ sp_trigger sp) as Hdel.
    { intros id' sp' [Hne Hl]%lookup_delete_Some. split; [done|]. intros Heq. destruct Hne.
      symmetry. by eapply (sp_trigger_inj _ _ S). }
    pose proof S as [Hw Hi Hf Hnd Hd]. constructor; cbn.
    + intros x. rewrite list_elem_of_filter, Hw. split.
      * intros (Hne & id' & sp' & Hl & <-). exists id', sp'. split; [|done]. apply lookup_delete_Some.
        split; [|done]. intros <-. by simplify_eq.
      * intros (id' & sp' & [Hl Hne]%Hdel & <-). eauto.
    + intros ???? [? _]%Hdel [? _]%Hdel. eauto.
    + intros x [_ Hx]%list_elem_of_filter. auto.
    + by apply NoDup_filter.
    + intros ?? [? _]%Hdel. eauto.
Qed.

Lemma resume_step id exn ok s : GInv s → genabled (GResume id exn ok) s = true →
  key_clash (GResume id exn ok) s = false →
  ∃ s', gexec (GResume id exn ok) s = Some s' ∧ GInv s'.
Proof.
  cbn. intros I. destruct (gs_spawners s !! id) as [sp|] eqn:Hid; [|done]. cbn.
  intros [_ Hsm%Z.ltb_lt]%andb_true_iff Hclash. pose proof (unpark_inv _ _ _ I Hid) as I1.
  pose proof (sp_destroyed _ _ (gi_spawners _ I) _ _ Hid) as Hdes.
  assert (∃ s', grun_spawn id (spawn_recheck sp exn ok) (mk_gsys (unpark sp (gs_group s)) (delete id (gs_spawners s))) = Some s'
    ∧ GInv s') as (s' & Hrun & I').
  { apply (grun_spawn_spec _ _ (sp_key sp) (sp_fcall sp)); [done|cbn; by rewrite lookup_delete_eq|].
    - unfold spawn_recheck. wp_simpl. destruct exn; wp_simpl; [left; eexists; split; [done|apply Kept_refl, I1]|].
      destruct (g_sealed _) eqn:Hse; wp_simpl; [left; eexists; split; [done|apply Kept_refl, I1]|].
      destruct (g_completed _) eqn:Hco; wp_simpl; [left; eexists; split; [done|apply Kept_refl, I1]|].
      assert (g_scope (gs_group s) = true) as Hs.
      { destruct (g_scope (gs_group s)) eqn:Hs; [done|]. by specialize (Hdes eq_refl). }
      eapply wp_mono; [apply spawn_or_wait_spec; [apply I1| |done..]|].
      { intros Hadd. cbn in Hse, Hco, Hadd |- *. cbn in Hclash.
        change (task_group_has_slot (unpark sp (gs_group s))) with (task_group_has_slot (gs_group s)) in Hadd.
        change (task_group_queue_is_full (unpark sp (gs_group s))) with (task_group_queue_is_full (gs_group s)) in Hadd.
        rewrite Hadd, andb_true_r in Hclash. by apply bool_decide_eq_false in Hclash. }
      cbn beta. intros r g' Sd. right.
      split; [done|]. eexists. split_and!; [apply Kept_refl, I1|done|done]. }
  exists s'. split; [|done]. rewrite <- Hrun. unfold grun_spawn. cbn [gs_group gs_spawners].
  change (spawn_resume sp exn ok (gs_group s)) with (spawn_recheck sp exn ok (unpark sp (gs_group s))).
  destruct (spawn_recheck _ _ _ _) as [[[e|sp'] g']|]; cbn; [|by rewrite insert_delete_eq|done].
  by rewrite delete_delete_eq.
Qed.

(** The destructor seals a group whose spawners still wait, so that none retries. *)
Lemma dtor_step done_ s : GInv s → genabled (GDtor done_) s = true →
  ∃ s', gexec (GDtor done_) s = Some s' ∧ GInv s'.
Proof.
  cbn. intros I [Hs Hh]%andb_true_iff. pose proof (gi_core _ I) as C.
  set (g := gs_group s) in *.
  assert (wp (task_group_dtor_object done_) (λ _ g', ∃ g1, Kept g g1 ∧
    (∀ id sp, gs_spawners s !! id = Some sp → g_sealed g1 = true) ∧ finally_handlers g1 = finally_handlers g ∧
    nrunning g1 = nrunning g ∧
    g' = set_g_scope false g1) g) as Hwp.
  { unfold task_group_dtor_object, task_group_fire_all_slot_waiters. wp_simpl.
    eapply (wp_mono _ (λ _ g1, Kept g g1 ∧ (∀ id sp, gs_spawners s !! id = Some sp → g_sealed g1 = true) ∧
      finally_handlers g1 = finally_handlers g ∧ nrunning g1 = nrunning g)).
    - destruct (bool_decide_reflect (slot_waiters g = [])) as [He|]; wp_simpl.
      + split_and!; [by apply Kept_refl| |done..]. intros id sp Hl.
        assert (sp_trigger sp ∈ slot_waiters g) as Hin by (apply (gi_spawners _ I); eauto).
        rewrite He in Hin. by apply not_elem_of_nil in Hin.
      + split_and!; [exact (Kept_sealed g C)|done..].
    - intros _ g1 (K1 & Hse & Hf1 & Hr1). wp_simpl.
      eapply (wp_mono _ (λ _ g2, Kept g g2 ∧ (∀ id sp, gs_spawners s !! id = Some sp → g_sealed g2 = true) ∧
        finally_handlers g2 = finally_handlers g ∧ nrunning g2 = nrunning g)).
      + case_match; wp_simpl; [|done]. split_and!; [|done..].
        eapply Kept_trans; [exact K1|]. by apply Quiet_Kept, Quiet_emit; [apply K1|].
      + intros _ g2 (K2 & Hse2 & Hf2 & Hr2). rewrite Hs. wp_simpl. destruct done_; wp_simpl; [by exists g2|].
        exists (set_g_out (g_out g2 ++ [ScopeCancelled]) g2). split_and!; [|done..].
        eapply Kept_trans; [exact K2|]. by apply Quiet_Kept, Quiet_emit; [apply K2|]. }
  apply wp_run in Hwp as ([] & g' & Hm & g1 & (C1 & B1 & F1) & Hse & Hf & Hr & ->).
  unfold grun. fold g. rewrite Hm. cbn. eexists. split; [done|].
  assert (finally_handlers g1 = [] ∨ nrunning g1 = 0) as Hh1.
  { rewrite Hf, Hr. apply orb_true_iff in Hh as [?%bool_decide_eq_true|Ha%Z.eqb_eq]; [by left|].
    right. by rewrite <- (core_active _ C). }
  pose proof (Frame_Spawners _ _ _ F1 (gi_spawners _ I)) as S1.
  constructor; cbn.
  - destruct C1. by constructor.
  - intros Hs'. done.
  - destruct S1. constructor; eauto.
Qed.

Lemma complete_step k result sp s : GInv s → genabled (GComplete k result sp) s = true →
  ∃ s', gexec (GComplete k result sp) s = Some s' ∧ GInv s'.
Proof.
  cbn. intros I He. destruct (hash_find k _) as [[]|] eqn:Hf; try done.
  pose proof (complete_spec k result sp _ (gi_core _ I) Hf) as (a & g' & Hm & C' & B' & F & _)%wp_run.
  unfold grun. rewrite Hm. cbn. eexists. split; [done|].
  constructor; cbn; [done..|]. by eapply Frame_Spawners; [|apply I].
Qed.

Lemma new_waiter_names w g : bool_decide (w ∉ (waiter_events g).*1) && bool_decide (w ∉ settled_names (g_out g)) = true →
  w ∉ names g.
Proof.
  rewrite andb_true_iff, !bool_decide_eq_true. unfold names. rewrite elem_of_app. tauto.
Qed.

(** Every enabled step without a clash of keys runs to its end and keeps the invariant. *)
Lemma gexec_inv o s : GInv s → genabled o s = true → key_clash o s = false →
  ∃ s', gexec o s = Some s' ∧ GInv s'.
Proof.
  intros I He Hu. pose proof (gi_core _ I) as C.
  destruct o; [by apply spawn_step|by apply spawn_key_step|by apply resume_step|by apply complete_step|..];
    try (by apply dtor_step); apply grun_kept; try done; cbn in He;
    try (apply andb_true_iff in He as [Hs Hn%new_waiter_names]).
  - by apply all_spec.
  - by apply race_spec.
  - by apply any_spec.
  - by apply add_waiter_Kept.
  - apply waiter_dispose_spec; [done|by apply bool_decide_eq_true in He].
  - by apply (Quiet_Kept _ _ C), Quiet_handled.
  - by apply iterator_spec.
  - by apply group_close_spec.
  - by apply cancel_spec.
  - by apply (Quiet_Kept _ _ C), Quiet_handled.
  - by apply (Quiet_Kept _ _ C), Quiet_handled.
  - by apply finally_spec.
  - by apply dispose_spec.
Qed.

(** A group with 32-bit limits and nothing in it. *)
Lemma fresh_inv (task_set : bool) conc limit : 0 ≤ conc < 2 ^ 32 →
  GInv (mk_gsys (set_g_scope true (set_queue_limit limit (set_concurrency conc
    (if task_set then task_set_create_object else task_group_create_object)))) ∅).
Proof.
  intros Hc. destruct task_set; (constructor; cbn; [|done|]);
    (constructor; unfold npending, nrunning; cbn -[count]; rewrite ?count_nil; try done;
     try apply NoDup_nil_2; try (intros; lia); set_solver).
Qed.
Lemma construct_inv task_set conc limit g : task_group_construct task_set conc limit = Some g →
  GInv (mk_gsys g ∅).
Proof.
  unfold task_group_construct. case_match eqn:Hc; [done|]. case_match eqn:Hl; [done|]. intros [= <-].
  apply orb_false_iff in Hc as [?%Z.ltb_ge ?%Z.ltb_ge]. rewrite (u32_small conc) by lia.
  apply fresh_inv. lia.
Qed.

(** With a clash of keys the step fails. *)
Lemma spawn_clash_undefined k fcall ok g : hash_exists k (g_tasks g) = true →
  (if task_group_has_slot g then ok else negb (task_group_queue_is_full g)) = true → spawn_or_wait k fcall ok g = None.
Proof.
  intros Hk Hadd. unfold spawn_or_wait, mbind, M_bind, get. destruct (task_group_has_slot g); cbn [negb andb].
  - unfold task_group_spawn_coroutine, mbind, M_bind, get. destruct (negb (g_scope g)); [done|].
    rewrite Hadd. cbn [negb]. unfold ZEND_ASSERT. by rewrite Hk.
  - destruct (task_group_queue_is_full g); [done|]. unfold ZEND_ASSERT. by rewrite Hk.
Qed.
Lemma clash_undefined o s : key_clash o s = true → gexec o s = None.
Proof.
  destruct o as [| |id exn ok| | | | | | | | | | | | | | |]; try done. cbn.
  destruct (gs_spawners s !! id) as [sp|]; [|done]. cbn.
  intros [[[[-> Hse]%orb_false_iff Hco]%negb_true_iff%orb_false_iff Hk]%andb_true_iff Hadd]%andb_true_iff.
  unfold grun_spawn. change (spawn_resume sp false ok (gs_group s)) with (spawn_recheck sp false ok (unpark sp (gs_group s))).
  unfold spawn_recheck, mbind, M_bind, get. cbn [unpark set_slot_fired set_slot_waiters g_sealed g_completed].
  rewrite Hse, Hco, spawn_clash_undefined; done.
Qed.

Lemma greachable_inv s0 s : GInv s0 → greachable s0 s → GInv s.
Proof.
  intros I0. induction 1 as [|s o s' _ IH He Hx]; [done|].
  destruct (key_clash o s) eqn:Hc; [by rewrite clash_undefined in Hx|].
  destruct (gexec_inv o s IH He Hc) as (s1 & Hx' & I1). congruence.
Qed.
End methods.

(** ** The last completion *)

Section last.
Context {V E : Type}.
Implicit Types (g : async_task_group_t V E).
#[local] Hint Rewrite @wp_resolve_all @wp_emit @wp_task_set_remove_entry @wp_task_set_remove_all : wp.

Lemma drain_nothing sp g Φ : npending g = 0 → Φ tt g → wp (task_group_drain sp) Φ g.
Proof.
  intros Hp HΦ. unfold task_group_drain. wp_simpl. destruct (negb (g_scope g)); [done|].
  cbn [drain_loop]. wp_simpl. destruct (negb (task_group_has_slot g)); [done|].
  destruct (find_pending _ _) as [[j k]|] eqn:Hf; [|done].
  destruct (find_pending_Some _ _ _ _ Hf) as (t & Hl & Ht & _).
  apply existsb_count in Hp. apply list_elem_of_lookup_2, list_elem_of_In in Hl.
  assert (existsb (λ kt, task_is_pending kt.2) (g_tasks g) = true) as Hex; [|congruence].
  apply existsb_exists. by exists (k, t).
Qed.

Lemma complete_one_all g w b Φ : waiter_events g = [(w, WAITER_TYPE_ALL)] →
  (∀ g', g_out g' = g_out g ++ [Settled w (all_outcome b g)] → finally_handlers g' = finally_handlers g →
     g_scope g' = g_scope g → Φ tt g') →
  wp (complete_loop 2 0 b) Φ g.
Proof.
  intros Hw HΦ. cbn [complete_loop]. wp_simpl. rewrite Hw. cbn [lookup list_lookup]. wp_simpl.
  set (g1 := if g_task_set _ then _ else _).
  assert (waiter_events g1 = [(w, WAITER_TYPE_ALL)] ∧ g_out g1 = g_out g ++ [Settled w (all_outcome b g)] ∧
    finally_handlers g1 = finally_handlers g ∧ g_scope g1 = g_scope g) as (Hw1 & Ho1 & Hf1 & Hs1).
  { subst g1. by destruct (g_task_set _). }
  clearbody g1. eapply (waiter_event_remove_spec _ 0 _ WAITER_TYPE_ALL); rewrite Hw1; [apply NoDup_singleton|done|].
  intros n _. cbn. by apply HΦ.
Qed.

Lemma try_complete_one_all g w o : waiter_events g = [(w, WAITER_TYPE_ALL)] → active_coroutines g = 0 →
  npending g = 0 → (g_scope g = false → finally_handlers g = []) →
  o = all_outcome (task_group_has_errors g) g →
  wp task_group_try_complete (λ _ g', Settled w o ∈ g_out g') g.
Proof.
  intros Hw Ha Hp%has_pending_spec Hh ->. unfold task_group_try_complete. wp_simpl. rewrite Ha, Hp, Hw. cbn [orb Z.ltb Z.compare length].
  rewrite wp_bind. apply (complete_one_all g w); [done|]. intros g' Ho Hf Hs. wp_simpl.
  eapply (wp_mono _ (λ _ g2, g_out g2 = g_out g')); [by case_match|]. intros _ g2 Ho2. wp_simpl.
  case_match eqn:Hb; wp_simpl; [cbn; rewrite Ho2, Ho; set_solver|].
  destruct (g_scope g') eqn:Hs'; cbn [negb]; wp_simpl; [cbn; rewrite Ho2, Ho; set_solver|].
  apply bool_decide_eq_false in Hb. destruct Hb. rewrite Hf. apply Hh. congruence.
Qed.
End last.

(** ** Runs of a group *)
Definition group_init {V E} (task_set : bool) (conc : Z) (limit : option Z) : option (gsys (V := V) (E := E)) :=
  g ← task_group_construct task_set conc limit; Some (mk_gsys g ∅).

(** A run of enabled steps. *)
Fixpoint gruns {V E} (os : list (gop (V := V) (E := E))) (s : gsys) : option gsys :=
  match os with
  | [] => Some s
  | o :: os => if genabled o s then s' ← gexec o s; gruns os s' else None
  end.

Lemma gruns_reachable {V E} (os : list (gop (V := V) (E := E))) s0 s s' :
  greachable s0 s → gruns os s = Some s' → greachable s0 s'.
Proof.
  revert s. induction os as [|o os IH]; intros s Hr; cbn; [by intros [= <-]|].
  destruct (genabled o s) eqn:He; [|done].
  destruct (gexec o s) as [s1|] eqn:Hx; [|done]. cbn. apply IH. by eapply greach_step.
Qed.
Lemma group_init_inv {V E} ts conc limit (s0 : gsys (V := V) (E := E)) :
  group_init ts conc limit = Some s0 → GInv s0.
Proof.
  unfold group_init. intros (g & Hg & [= <-])%bind_Some. by apply construct_inv in Hg.
Qed.

(** The run of the witnesses: one slot, a queue of one; a running, a queued and a
    suspended task and a race future. *)
Definition gdemo_ops : list (gop (V := Z) (E := Z)) :=
  [GSpawn 0 0 true; GSpawn 0 0 true; GSpawn 1 0 true; GRace 10].
Definition all_spawnable : gkey → bool := λ _, true.
Definition gtest (ts : bool) (conc : Z) (limit : option Z) (os : list (gop (V := Z) (E := Z)))
    (P : gsys → bool) : bool :=
  match (s ← group_init ts conc limit; gruns os s) with Some s => P s | None => false end.
Lemma gtest_reachable ts conc limit os P : gtest ts conc limit os P = true →
  ∃ s0 s, group_init ts conc limit = Some s0 ∧ greachable s0 s ∧ P s = true.
Proof.
  unfold gtest. destruct (mbind _ _) as [s|] eqn:Hd; [|done]. apply bind_Some in Hd as (s0 & H0 & Hr).
  intros HP. exists s0, s. split_and!; [done| |done]. eapply gruns_reachable; [apply greach_init|exact Hr].
Qed.
Lemma gdemo_reachable os P : gtest false 1 (Some 1) (gdemo_ops ++ os) P = true →
  ∃ s0 s, group_init false 1 (Some 1) = Some s0 ∧ greachable s0 s ∧ P s = true.
Proof. apply gtest_reachable. Qed.

(** ** Safety *)


(** C8 Accounting of the task group: in every reachable state the keys are distinct,
    [pending_count] and [active_coroutines] are the numbers of PENDING and RUNNING
    entries, at most [concurrency] tasks run at a time (for a concurrency that fits
    an int32), at most [queue_limit] wait, the suspended spawners are exactly the
    slot waiters, and a completed group is sealed with every task settled.  A state is
    reached by enabled steps that run to their end: one that fails the assertion of
    [zend_hash_add_new] (see [key_clash]) reaches none. *)
Theorem group_accounting {V E} ts conc limit (s0 s : gsys (V := V) (E := E)) :
  group_init ts conc limit = Some s0 → greachable s0 s →
  let g := gs_group s in
  NoDup (g_tasks g).*1 ∧
  pending_count g = count task_is_pending (g_tasks g) ∧
  active_coroutines g = count task_is_running (g_tasks g) ∧
  (0 < concurrency g ≤ INT32_MAX → active_coroutines g ≤ concurrency g) ∧
  (0 < queue_limit g → pending_count g ≤ queue_limit g) ∧
  (∀ x, x ∈ slot_waiters g ↔ ∃ id sp, gs_spawners s !! id = Some sp ∧ sp_trigger sp = x) ∧
  (g_completed g = true → g_sealed g = true ∧ active_coroutines g = 0 ∧ pending_count g = 0).
Proof.
  intros H0 Hr. cbn. destruct (greachable_inv s0 s (group_init_inv _ _ _ _ H0) Hr) as [C _ S].
  rewrite (core_active _ C), (core_pending _ C).
  split_and!; [apply C|done|done|apply C|apply C|apply S|apply C].
Qed.
Lemma group_accounting_witness :
  ∃ s0 s, group_init (V := Z) (E := Z) false 1 (Some 1) = Some s0 ∧ greachable s0 s ∧
    (slot_waiters (gs_group s) = [0%nat] ∧ pending_count (gs_group s) = count task_is_pending (g_tasks (gs_group s))).
Proof.
  destruct (gdemo_reachable [] (λ s, bool_decide (slot_waiters (gs_group s) = [0%nat])))
    as (s0 & s & H0 & Hr & Hw%bool_decide_eq_true); [vm_compute; reflexivity|].
  destruct (group_accounting _ _ _ s0 s H0 Hr) as (_ & Hp & _). by exists s0, s.
Defined.

(** C38 Work conservation: while the group has its scope and the engine never refused
    a coroutine, no task is PENDING while the code's own test [task_group_has_slot]
    finds a free slot; for a concurrency below 2^31 that test says that fewer than
    [concurrency] tasks run (or that there is no limit). *)
Theorem group_work_conserving {V E} ts conc limit (s0 s : gsys (V := V) (E := E)) :
  group_init ts conc limit = Some s0 → greachable s0 s →
  g_scope (gs_group s) = true → SpawnRefused ∉ g_out (gs_group s) →
  task_group_has_slot (gs_group s) = true → task_group_has_pending (gs_group s) = false.
Proof.
  intros H0 Hr Hs Hf Hslot. apply has_pending_spec.
  by apply (gi_busy _ (greachable_inv s0 s (group_init_inv _ _ _ _ H0) Hr)).
Qed.
Lemma group_work_conserving_witness :
  ∃ s0 s, group_init (V := Z) (E := Z) false 1 (Some 1) = Some s0 ∧ greachable s0 s ∧
    task_group_has_slot (gs_group s) = true ∧ task_group_has_pending (gs_group s) = false.
Proof.
  destruct (gdemo_reachable [GComplete (GInt 0) (inl 7) all_spawnable; GComplete (GInt 1) (inl 8) all_spawnable]
    (λ s, g_scope (gs_group s) && task_group_has_slot (gs_group s) &&
       forallb (λ e, match e with SpawnRefused => false | _ => true end) (g_out (gs_group s))))
    as (s0 & s & H0 & Hr & [[Hs Hslot]%andb_true_iff Hf]%andb_true_iff); [vm_compute; reflexivity|].
  exists s0, s. split_and!; [done..|].
  apply (group_work_conserving _ _ _ s0 s H0 Hr Hs); [|done].
  intros Hin%list_elem_of_In. rewrite forallb_forall in Hf. by specialize (Hf _ Hin).
Defined.

(** C39 A future of all, race or any is settled at most once: the settled futures are
    distinct and none of them is still in the vector of waiters. *)
Theorem future_settled_once {V E} ts conc limit (s0 s : gsys (V := V) (E := E)) :
  group_init ts conc limit = Some s0 → greachable s0 s →
  NoDup (settled_names (g_out (gs_group s))) ∧ NoDup (waiter_events (gs_group s)).*1 ∧
  (∀ w, w ∈ settled_names (g_out (gs_group s)) → w ∉ (waiter_events (gs_group s)).*1).
Proof.
  intros H0 Hr. destruct (greachable_inv s0 s (group_init_inv _ _ _ _ H0) Hr) as [C _ _].
  pose proof (core_names _ C) as (Hw & Hd & Ho)%NoDup_app. split_and!; [done..|].
  intros w Hin Hin'. by apply (Hd w).
Qed.
Lemma future_settled_once_witness :
  ∃ s0 s, group_init (V := Z) (E := Z) false 1 (Some 1) = Some s0 ∧ greachable s0 s ∧
    settled_names (g_out (gs_group s)) = [10%nat] ∧ (10%nat ∉ (waiter_events (gs_group s)).*1).
Proof.
  destruct (gdemo_reachable [GComplete (GInt 0) (inl 7) all_spawnable]
    (λ s, bool_decide (settled_names (g_out (gs_group s)) = [10%nat])))
    as (s0 & s & H0 & Hr & Hn%bool_decide_eq_true); [vm_compute; reflexivity|].
  destruct (future_settled_once _ _ _ s0 s H0 Hr) as (_ & _ & Hd). exists s0, s. split_and!; [done..|].
  apply Hd. rewrite Hn. by left.
Defined.

(** C13 The end of a coroutine serves the waiters: every race future gets the outcome
    of that task, on success every any future gets its value, and exactly the other
    waiters (or fewer, when the group completes) stay in the vector, although each
    removal moves the last waiter into the freed place. *)
Theorem completion_serves_waiters {V E} ts conc limit (s0 s s' : gsys (V := V) (E := E)) k result sp :
  group_init ts conc limit = Some s0 → greachable s0 s → genabled (GComplete k result sp) s = true →
  gexec (GComplete k result sp) s = Some s' →
  (∀ w, (w, WAITER_TYPE_RACE) ∈ waiter_events (gs_group s) →
     Settled w (result_outcome result) ∈ g_out (gs_group s')) ∧
  (∀ w v, result = inl v → (w, WAITER_TYPE_ANY) ∈ waiter_events (gs_group s) →
     Settled w (OValue v) ∈ g_out (gs_group s')) ∧
  (∀ w ty, (w, ty) ∈ waiter_events (gs_group s') → (w, ty) ∈ waiter_events (gs_group s) ∧
     ty ≠ WAITER_TYPE_RACE ∧ (ty = WAITER_TYPE_ANY → ∃ e, result = inr e)).
Proof.
  intros H0 Hr He Hx. destruct (greachable_inv s0 s (group_init_inv _ _ _ _ H0) Hr) as [C _ _].
  cbn in He, Hx. destruct (hash_find k _) as [[]|] eqn:Hf; try done.
  pose proof (complete_spec k result sp _ C Hf) as (a & g' & Hm & _ & _ & _ & Hs & Hw)%wp_run.
  unfold grun in Hx. rewrite Hm in Hx. cbn in Hx. simplify_eq. split_and!.
  - intros w Hin. by apply (Hs w WAITER_TYPE_RACE).
  - intros w v -> Hin. by apply (Hs w WAITER_TYPE_ANY).
  - intros w ty [Hin Hserved]%Hw. cbn in Hserved. split_and!; [done|by intros ->|].
    intros ->. destruct result; [done|eauto].
Qed.
Lemma completion_serves_waiters_witness :
  ∃ s0 s s', group_init (V := Z) (E := Z) false 1 (Some 1) = Some s0 ∧ greachable s0 s ∧
    gexec (GComplete (GInt 0) (inl 7) all_spawnable) s = Some s' ∧ Settled 10 (OValue 7) ∈ g_out (gs_group s').
Proof.
  destruct (gdemo_reachable []
    (λ s, genabled (GComplete (GInt 0) (inl 7) all_spawnable) s &&
       bool_decide ((10%nat, WAITER_TYPE_RACE) ∈ waiter_events (gs_group s)) &&
       match gexec (GComplete (GInt 0) (inl 7) all_spawnable) s with Some _ => true | None => false end))
    as (s0 & s & H0 & Hr & [[He Hw%bool_decide_eq_true]%andb_true_iff Hx]%andb_true_iff); [vm_compute; reflexivity|].
  destruct (gexec _ s) as [s'|] eqn:Hs'; [|done]. exists s0, s, s'. split_and!; [done..|].
  destruct (completion_serves_waiters _ _ _ s0 s s' _ _ _ H0 Hr He Hs') as [Hrace _]. exact (Hrace _ Hw).
Defined.

(** The last completion settles a pending all() future: when the ending task is
    the only one left and the future the only waiter, the future gets the results of
    every task in spawn order, or the exceptions of the failed ones, this task's
    outcome included. *)
Theorem last_completion_settles_all {V E} ts conc limit (s0 s s' : gsys (V := V) (E := E)) k result sp w :
  group_init ts conc limit = Some s0 → greachable s0 s → genabled (GComplete k result sp) s = true →
  gexec (GComplete k result sp) s = Some s' →
  waiter_events (gs_group s) = [(w, WAITER_TYPE_ALL)] →
  active_coroutines (gs_group s) = 1 → task_group_has_pending (gs_group s) = false →
  let tasks := hash_replace k (settled_task result) (g_tasks (gs_group s)) in
  let settled := set_g_tasks tasks (gs_group s) in
  Settled w (if task_group_has_errors settled then OComposite (task_group_collect_composite_exception settled)
             else OResults (task_group_collect_results settled)) ∈ g_out (gs_group s').
Proof.
  intros H0 Hr He Hx Hw Ha Hp. destruct (greachable_inv s0 s (group_init_inv _ _ _ _ H0) Hr) as [C _ _].
  cbn in He, Hx. destruct (hash_find k _) as [[]|] eqn:Hf; try done. clear He.
  assert (wp (task_group_on_coroutine_complete k result sp) (λ _ g', Settled w (let settled := set_g_tasks
    (hash_replace k (settled_task result) (g_tasks (gs_group s))) (gs_group s) in
    all_outcome (task_group_has_errors settled) settled) ∈ g_out g') (gs_group s)) as (a & g' & Hm & Hin)%wp_run.
  2:{ unfold grun in Hx. rewrite Hm in Hx. cbn in Hx. by simplify_eq. }
  pose proof (settle_spec k result _ C Hf) as Hset. unfold task_group_on_coroutine_complete.
  rewrite wp_bind in Hset |- *. eapply wp_mono; [exact Hset|]. cbn beta. intros _ g0 Hd. rewrite wp_bind.
  eapply wp_mono; [exact Hd|]. cbn beta. intros _ g1 He. clear Hset Hd g0. rewrite wp_bind.
  assert (nrunning (gs_group s) = 1) as Hn by (rewrite <- (core_active _ C); done).
  assert (npending g1 = 0 ∧ nrunning g1 = 0) as [Hp1 Hr1].
  { apply has_pending_spec in Hp. unfold npending, nrunning in *. rewrite (e_tasks _ _ _ _ He).
    rewrite !(hash_replace_count _ _ _ _ _ Hf). destruct result; cbn; lia. }
  apply drain_nothing; [done|]. wp_simpl. cbn [waiter_events set_waiter_notify_index].
  rewrite (e_waiters _ _ _ _ He), Hw. cbn [length notify_loop]. wp_simpl.
  cbn [waiter_events set_waiter_notify_index waiter_notify_index]. rewrite (e_waiters _ _ _ _ He), Hw. cbn [lookup list_lookup].
  wp_simpl. cbn [waiter_events set_waiter_notify_index waiter_notify_index]. rewrite (e_waiters _ _ _ _ He), Hw.
  cbn [lookup list_lookup]. wp_simpl. apply try_complete_one_all.
  - cbn. by rewrite (e_waiters _ _ _ _ He).
  - cbn. by rewrite (core_active _ (e_core _ _ _ _ He)).
  - done.
  - cbn. rewrite (e_handlers _ _ _ _ He), (f_scope _ _ (e_frame _ _ _ _ He)). intros Hs.
    destruct (core_handlers _ C Hs); [done|lia].
  - unfold all_outcome, task_group_has_errors, task_group_collect_composite_exception, task_group_collect_errors,
      task_group_collect_results. cbn. by rewrite (e_tasks _ _ _ _ He).
Qed.
Lemma last_completion_settles_all_witness :
  ∃ s0 s s', group_init (V := Z) (E := Z) false 2 None = Some s0 ∧ greachable s0 s ∧
    gexec (GComplete (GInt 0) (inl 1) all_spawnable) s = Some s' ∧
    Settled 10 (OResults [(GInt 0, 1); (GStr "b", 2)]) ∈ g_out (gs_group s').
Proof.
  destruct (gtest_reachable false 2 None
    [GSpawn 0 0 true; GSpawnWithKey 0 (GStr "b") 0 true; GAll false 10; GComplete (GStr "b") (inl 2) all_spawnable]
    (λ s, genabled (GComplete (GInt 0) (inl 1) all_spawnable) s &&
       match gexec (GComplete (GInt 0) (inl 1) all_spawnable) s with Some _ => true | None => false end &&
       bool_decide (waiter_events (gs_group s) = [(10%nat, WAITER_TYPE_ALL)]) &&
       (active_coroutines (gs_group s) =? 1) && negb (task_group_has_pending (gs_group s)) &&
       match g_tasks (gs_group s) with
       | [(GInt 0, TASK_STATE_RUNNING); (GStr b, TaskResult 2)] => bool_decide (b = "b"%string)
       | _ => false
       end))
    as (s0 & s & H0 & Hr & [[[[[He Hx]%andb_true_iff Hw%bool_decide_eq_true]%andb_true_iff Ha%Z.eqb_eq]%andb_true_iff
          Hp%negb_true_iff]%andb_true_iff Ht]%andb_true_iff); [vm_compute; reflexivity|].
  destruct (gexec _ s) as [s'|] eqn:Hs'; [|done]. exists s0, s, s'. split_and!; [done..|].
  pose proof (last_completion_settles_all _ _ _ s0 s s' _ _ _ _ H0 Hr He Hs' Hw Ha Hp) as Hin.
  repeat (case_match; try done). apply bool_decide_eq_true in Ht. subst. exact Hin.
Defined.

(** A spawner that resumes on a sealed group throws and changes nothing but its own
    registration; in particular after the destructor, which seals a group whose
    spawners still wait before it clears the scope. *)
Theorem resumed_spawner_on_sealed_group {V E} ts conc limit (s0 s : gsys (V := V) (E := E)) id sp ok :
  group_init ts conc limit = Some s0 → greachable s0 s → gs_spawners s !! id = Some sp →
  (g_sealed (gs_group s) = true ∨ g_scope (gs_group s) = false) →
  ∃ g', spawn_resume sp false ok (gs_group s) = Some (inl (Some ErrSealed), g') ∧
    g_tasks g' = g_tasks (gs_group s) ∧ g_out g' = g_out (gs_group s) ∧ sp_trigger sp ∉ slot_waiters g'.
Proof.
  intros H0 Hr Hid Hs. destruct (greachable_inv s0 s (group_init_inv _ _ _ _ H0) Hr) as [_ _ S].
  assert (g_sealed (gs_group s) = true) as Hse by (destruct Hs; [done|by eapply (sp_destroyed _ _ S)]).
  exists (unpark sp (gs_group s)). split_and!; [|done|done|].
  - change (spawn_recheck sp false ok (unpark sp (gs_group s)) = Some (inl (Some ErrSealed), unpark sp (gs_group s))).
    assert (g_sealed (unpark sp (gs_group s)) = true) as Hu by exact Hse.
    unfold spawn_recheck, mbind, M_bind, get. by rewrite Hu.
  - cbn. rewrite list_elem_of_filter. naive_solver.
Qed.
Lemma resumed_spawner_on_sealed_group_witness :
  ∃ s0 s sp g', group_init (V := Z) (E := Z) false 1 (Some 1) = Some s0 ∧ greachable s0 s ∧
    gs_spawners s !! 1%nat = Some sp ∧ g_scope (gs_group s) = false ∧
    spawn_resume sp false true (gs_group s) = Some (inl (Some ErrSealed), g').
Proof.
  destruct (gdemo_reachable [GDtor false] (λ s, negb (g_scope (gs_group s)) &&
    match gs_spawners s !! 1%nat with Some _ => true | None => false end))
    as (s0 & s & H0 & Hr & [Hs%negb_true_iff Hi]%andb_true_iff); [vm_compute; reflexivity|].
  destruct (gs_spawners s !! 1%nat) as [sp|] eqn:Hid; [|done].
  destruct (resumed_spawner_on_sealed_group _ _ _ s0 s 1 sp true H0 Hr Hid (or_intror Hs)) as (g' & Hg & _).
  by exists s0, s, sp, g'.
Defined.

(** ** Behaviours the group gets wrong *)

(** The loop of [task_group_try_complete] skips a waiter: after it removed an all()
    future it advances past the waiter that the swap moved into the freed place.  With
    two all() futures on one group the second is never settled, although every task is
    settled and the group is sealed and completed, so that no later step of a
    coroutine can settle it. *)
Theorem second_all_future_never_settled :
  gtest false 0 None
    [GSpawn 0 0 true; GAll false 10; GAll false 11; GClose; GComplete (GInt 0) (inl 5) all_spawnable]
    (λ s, let g := gs_group s in g_completed g && (active_coroutines g =? 0) && (pending_count g =? 0) &&
       bool_decide (settled_names (g_out g) = [10%nat]) &&
       bool_decide (waiter_events g = [(11%nat, WAITER_TYPE_ALL)])) = true.
Proof. vm_compute. reflexivity. Qed.

(** A lost wakeup of suspended spawners: a spawner is woken only when a PENDING task
    starts.  With one slot and a queue of one, two spawners wait; the first one woken
    finds the slot free and starts its task directly, which wakes nobody: when that
    task ends too, the second spawner stays suspended although the slot and the queue
    are empty and no coroutine is left that could wake it. *)
Theorem suspended_spawner_never_woken :
  gtest false 1 (Some 1)
    [GSpawn 0 0 true; GSpawn 0 0 true; GSpawn 1 0 true; GSpawn 2 0 true;
     GComplete (GInt 0) (inl 5) all_spawnable; GComplete (GInt 1) (inl 5) all_spawnable;
     GResume 1 false true; GComplete (GInt 2) (inl 5) all_spawnable]
    (λ s, let g := gs_group s in bool_decide (slot_waiters g = [1%nat]) &&
       bool_decide (slot_fired g = ∅) && (active_coroutines g =? 0) && (pending_count g =? 0) &&
       task_group_has_slot g && negb (g_sealed g)) = true.
Proof. vm_compute. reflexivity. Qed.

(** A concurrency above INT32_MAX, which the constructor accepts up to UINT32_MAX, is
    compared as a negative int32: no slot is ever free and no task starts. *)
Theorem huge_concurrency_starts_nothing :
  gtest false (2 ^ 31) None [GSpawn 0 0 true; GSpawn 0 0 true]
    (λ s, let g := gs_group s in (active_coroutines g =? 0) && (pending_count g =? 2) &&
       negb (task_group_has_slot g) && bool_decide (length (g_out g) = 0%nat)) = true.
Proof. vm_compute. reflexivity. Qed.

(** cancel() leaves the queued tasks in the table: the end of a cancelled coroutine
    starts them, or, when the scope refuses, they stay PENDING and the group never
    completes. *)
Theorem cancelled_group_keeps_queue :
  gtest false 1 (Some 0)
    [GSpawn 0 0 true; GSpawn 0 0 true; GCancel false; GComplete (GInt 0) (inr 1) all_spawnable]
    (λ s, let g := gs_group s in (active_coroutines g =? 1) && g_sealed g &&
       match hash_find (GInt 1) (g_tasks g) with Some TASK_STATE_RUNNING => true | _ => false end) = true ∧
  gtest false 1 (Some 0)
    [GSpawn 0 0 true; GSpawn 0 0 true; GCancel false; GComplete (GInt 0) (inr 1) (λ _, false)]
    (λ s, let g := gs_group s in (active_coroutines g =? 0) && (pending_count g =? 1) && g_sealed g &&
       negb (g_completed g)) = true.
Proof. split; vm_compute; reflexivity. Qed.

(** The key of a suspended spawn is not checked again: another spawn may take it
    meanwhile, and [zend_hash_add_new] is then called for a key that exists. *)
Theorem duplicate_key_after_suspension :
  gtest false 1 (Some 1)
    [GSpawn 0 0 true; GSpawn 0 0 true; GSpawnWithKey 1 (GStr "k") 0 true; GSpawnWithKey 2 (GStr "k") 0 true;
     GComplete (GInt 0) (inl 5) all_spawnable; GResume 1 false true;
     GComplete (GInt 1) (inl 5) all_spawnable]
    (λ s, genabled (GResume 2 false true) s && key_clash (GResume 2 false true) s) = true.
Proof. vm_compute. reflexivity. Qed.

(** A pending joinAny() of a task set does not remove the entry it delivers, which
    a later joinNext() delivers again. *)
Theorem pending_joinAny_keeps_entry :
  gtest true 0 None
    [GSpawn 0 0 true; GAny 10; GComplete (GInt 0) (inl 5) all_spawnable; GRace 11]
    (λ s, bool_decide (settled_names (g_out (gs_group s)) = [10%nat; 11%nat])) = true.
Proof. vm_compute. reflexivity. Qed.
