(* ===== verification/Scope.v ===== *)
(** * Scopes: [src/scope.c], [src/scope.h], and the cancellation of a coroutine
    ([async_coroutine_cancel] of [src/coroutine.c])

    A scope owns coroutines and child scopes.  Exceptions of its coroutines climb
    to the parent scopes until a handler absorbs them, cancellations descend to the
    children, and a scope is freed when it and its children are at rest.

    Scopes and coroutines are records in finite maps from addresses; following a
    pointer to a freed scope is [undefined].  What the engine and the listeners
    answer is a parameter ([scope_env]).  The engine's header gives three names to
    calls of [can_be_disposed] ([ZEND_ASYNC_SCOPE_IS_COMPLETELY_DONE] and so on);
    their arguments are the parameter [ScopeMacros].  Recursion over the tree of
    scopes is by fuel, [scope_fuel] of the state. *)

From S2P Require Import Prelude.

Local Open Scope Z_scope.

(** ** Data *)

Record async_coroutine_t := mk_coroutine {
  co_scope : option nat;
  co_zombie : bool;
  co_started : bool;
  co_finished : bool;
  co_cancelled : bool;
  co_protected : bool;
  co_deferred : bool;           (* deferred_cancellation != NULL *)
  co_queued : bool;             (* the waker is in the queue *)
  co_waker_cancelled : bool     (* the waker's error is a cancellation *)
}.

Record async_scope_t := mk_scope {
  sc_closed : bool;
  sc_cancelled : bool;
  sc_disposing : bool;
  sc_safely : bool;             (* DISPOSE_SAFELY *)
  sc_pinned : bool;             (* OWNER_PINNED *)
  sc_bailout : bool;
  sc_handled : bool;            (* EXCEPTION_HANDLED of the event *)
  ref_count : Z;
  parent_scope : option nat;
  child_scopes : list nat;      (* scope.scopes *)
  coroutines : list nat;
  active_coroutines_count : Z;
  zombie_coroutines_count : Z;
  exception_fci : bool;
  child_exception_fci : bool;
  scope_object : bool;          (* not NULL *)
  finally_handlers : list nat
}.

#[export] Instance async_coroutine_eta : Eta async_coroutine_t := λ c,
  mk_coroutine (co_scope c) (co_zombie c) (co_started c) (co_finished c) (co_cancelled c)
    (co_protected c) (co_deferred c) (co_queued c) (co_waker_cancelled c).
#[export] Instance async_scope_eta : Eta async_scope_t := λ s,
  mk_scope (sc_closed s) (sc_cancelled s) (sc_disposing s) (sc_safely s) (sc_pinned s) (sc_bailout s)
    (sc_handled s) (ref_count s) (parent_scope s) (child_scopes s) (coroutines s)
    (active_coroutines_count s) (zombie_coroutines_count s) (exception_fci s) (child_exception_fci s)
    (scope_object s) (finally_handlers s).

Definition set_co_zombie (x : bool) (c : async_coroutine_t) := ltac:(record_set c co_zombie x).
Definition set_co_started (x : bool) (c : async_coroutine_t) := ltac:(record_set c co_started x).
Definition set_co_protected (x : bool) (c : async_coroutine_t) := ltac:(record_set c co_protected x).
Definition set_co_finished (x : bool) (c : async_coroutine_t) := ltac:(record_set c co_finished x).
Definition set_co_cancelled (x : bool) (c : async_coroutine_t) := ltac:(record_set c co_cancelled x).
Definition set_co_deferred (x : bool) (c : async_coroutine_t) := ltac:(record_set c co_deferred x).
Definition set_co_queued (x : bool) (c : async_coroutine_t) := ltac:(record_set c co_queued x).
Definition set_co_waker_cancelled (x : bool) (c : async_coroutine_t) := ltac:(record_set c co_waker_cancelled x).
Definition set_co_scope (x : option nat) (c : async_coroutine_t) := ltac:(record_set c co_scope x).

Definition set_sc_closed (x : bool) (s : async_scope_t) := ltac:(record_set s sc_closed x).
Definition set_sc_cancelled (x : bool) (s : async_scope_t) := ltac:(record_set s sc_cancelled x).
Definition set_sc_disposing (x : bool) (s : async_scope_t) := ltac:(record_set s sc_disposing x).
Definition set_sc_safely (x : bool) (s : async_scope_t) := ltac:(record_set s sc_safely x).
Definition set_sc_pinned (x : bool) (s : async_scope_t) := ltac:(record_set s sc_pinned x).
Definition set_sc_handled (x : bool) (s : async_scope_t) := ltac:(record_set s sc_handled x).
Definition set_ref_count (x : Z) (s : async_scope_t) := ltac:(record_set s ref_count x).
Definition set_parent_scope (x : option nat) (s : async_scope_t) := ltac:(record_set s parent_scope x).
Definition set_child_scopes (x : list nat) (s : async_scope_t) := ltac:(record_set s child_scopes x).
Definition set_coroutines (x : list nat) (s : async_scope_t) := ltac:(record_set s coroutines x).
Definition set_active (x : Z) (s : async_scope_t) := ltac:(record_set s active_coroutines_count x).
Definition set_zombie (x : Z) (s : async_scope_t) := ltac:(record_set s zombie_coroutines_count x).
Definition set_exception_fci (x : bool) (s : async_scope_t) := ltac:(record_set s exception_fci x).
Definition set_child_exception_fci (x : bool) (s : async_scope_t) := ltac:(record_set s child_exception_fci x).
Definition set_finally_handlers (x : list nat) (s : async_scope_t) := ltac:(record_set s finally_handlers x).
Definition set_scope_object (x : bool) (s : async_scope_t) := ltac:(record_set s scope_object x).

(** Calls into the engine and into user code. *)
Inductive seffect :=
| Notified (s : nat) (error : bool)
| HandlerCalled (s : nat)
| ChildHandlerCalled (s : nat)
| SpawnAndThrow (s : nat)
| FinallySpawned (s : nat) (handlers : list nat)
| Enqueued (c : nat)
| CancellationApplied (c : nat)
| CoroutineCountDecreased (c : nat)
| Freed (s : nat).

#[export] Instance seffect_eq_dec : EqDecision seffect.
Proof. solve_decision. Defined.

Record sworld := mk_sworld {
  scopes : gmap nat async_scope_t;
  routines : gmap nat async_coroutine_t;
  next_scope : nat;
  next_routine : nat;
  current : option nat;          (* running, and not about to wait *)
  eg_exception : bool;
  s_out : list seffect
}.
#[export] Instance sworld_eta : Eta sworld := λ w,
  mk_sworld (scopes w) (routines w) (next_scope w) (next_routine w) (current w) (eg_exception w) (s_out w).
Definition set_scopes (x : gmap nat async_scope_t) (w : sworld) := ltac:(record_set w scopes x).
Definition set_routines (x : gmap nat async_coroutine_t) (w : sworld) := ltac:(record_set w routines x).
Definition set_next_scope (x : nat) (w : sworld) := ltac:(record_set w next_scope x).
Definition set_next_routine (x : nat) (w : sworld) := ltac:(record_set w next_routine x).
Definition set_eg (x : bool) (w : sworld) := ltac:(record_set w eg_exception x).
Definition set_s_out (x : list seffect) (w : sworld) := ltac:(record_set w s_out x).

(** The answers of user code and of the engine, per scope. *)
Record scope_env := mk_env {
  handler_absorbs : nat → bool;        (* the exception handler returns; it throws otherwise *)
  child_handler_absorbs : nat → bool;
  listener_handles : nat → bool;       (* a listener marks the exception as handled *)
  listener_throws : nat → bool;
  finally_spawned : nat → bool;        (* the coroutine of the finally handlers was spawned *)
  in_scheduler : bool;
  spawn_and_throw : bool
}.

(** The arguments with which the engine's macros call [can_be_disposed], and its
    operations on a vector of scopes. *)
Class ScopeMacros := {
  completed_args : bool * bool;
  completely_done_args : bool * bool;
  can_be_disposed_args : bool * bool;
  scope_add_child : nat → list nat → list nat;
  scope_remove_child : nat → list nat → list nat
}.
(** What the program relies on: zombies count for
    [COMPLETELY_DONE] and not for [COMPLETED], a disposal asks for the owner's
    consent, and the removed child leaves the others. *)
Class ScopeMacrosSpec `{!ScopeMacros} : Prop := {
  completed_args_spec : completed_args = (false, false);
  completely_done_args_spec : completely_done_args = (true, false);
  can_be_disposed_args_spec : can_be_disposed_args = (true, true);
  scope_add_child_spec : ∀ c l, scope_add_child c l ≡ₚ c :: l;
  scope_remove_child_spec : ∀ c l x, x ∈ scope_remove_child c l ↔ x ∈ l ∧ x ≠ c;
  scope_remove_child_nodup : ∀ c l, NoDup l → NoDup (scope_remove_child c l)
}.

Abbreviation SM := (M sworld).

Definition semit (e : seffect) : SM unit := modify (λ w, set_s_out (s_out w ++ [e]) w).
Definition get_scope (s : nat) : SM async_scope_t := w ← get; of_option (scopes w !! s).
Definition upd_scope (s : nat) (f : async_scope_t → async_scope_t) : SM unit :=
  sc ← get_scope s; modify (λ w, set_scopes (<[s := f sc]> (scopes w)) w).
Definition get_routine (c : nat) : SM async_coroutine_t := w ← get; of_option (routines w !! c).
Definition upd_routine (c : nat) (f : async_coroutine_t → async_coroutine_t) : SM unit :=
  co ← get_routine c; modify (λ w, set_routines (<[c := f co]> (routines w)) w).

(** Deep enough for every walk over the scopes: see [scope_potential]. *)
Definition scope_fuel (w : sworld) : nat := S (2 * (next_scope w + size (scopes w))).

Section operations.
Context `{!ScopeMacros} (env : scope_env).

(** ** Coroutines of a scope *)
Definition async_scope_add_coroutine (s c : nat) : SM unit :=
  upd_scope s (λ sc, set_coroutines (coroutines sc ++ [c]) sc);;
  upd_routine c (set_co_scope (Some s));;
  co ← get_routine c;
  if co_zombie co
  then upd_scope s (λ sc, set_zombie (u32 (zombie_coroutines_count sc + 1)) sc)
  else upd_scope s (λ sc, set_active (u32 (active_coroutines_count sc + 1)) sc).

Definition async_scope_remove_coroutine (s c : nat) : SM unit :=
  sc ← get_scope s;
  match list_find (.= c) (coroutines sc) with
  | None => mret tt
  | Some (i, _) =>
    co ← get_routine c;
    (if negb (co_zombie co) && (0 <? active_coroutines_count sc)
     then upd_scope s (set_active (u32 (active_coroutines_count sc - 1)))
     else if 0 <? zombie_coroutines_count sc
     then upd_scope s (set_zombie (u32 (zombie_coroutines_count sc - 1)))
     else mret tt);;
    upd_scope s (set_coroutines (swap_remove i (coroutines sc)))
  end.

(** ** Completion *)
Fixpoint scope_can_be_disposed (fuel : nat) (m : gmap nat async_scope_t) (s : nat)
    (with_zombies can_be_disposed : bool) : option bool :=
  match fuel with
  | O => None
  | S fuel =>
    sc ← m !! s;
    if negb can_be_disposed && (sc_closed sc || sc_cancelled sc) then Some true
    else if 0 <? (if with_zombies then u32 (active_coroutines_count sc + zombie_coroutines_count sc)
                  else active_coroutines_count sc) then Some false
    else if can_be_disposed && sc_pinned sc then Some false
    else if can_be_disposed && negb (sc_cancelled sc || negb (scope_object sc)) then Some false
    else (fix children l :=
            match l with
            | [] => Some true
            | c :: l => b ← scope_can_be_disposed fuel m c with_zombies can_be_disposed;
                        if (b : bool) then children l else Some false
            end) (child_scopes sc)
  end.
Definition can_be_disposed (s : nat) (with_zombies can_be_disposed : bool) : SM bool :=
  w ← get; of_option (scope_can_be_disposed (scope_fuel w) (scopes w) s with_zombies can_be_disposed).
Definition SCOPE_IS_COMPLETELY_DONE (s : nat) : SM bool :=
  can_be_disposed s completely_done_args.1 completely_done_args.2.
Definition SCOPE_IS_COMPLETED (s : nat) : SM bool := can_be_disposed s completed_args.1 completed_args.2.
Definition SCOPE_CAN_BE_DISPOSED (s : nat) : SM bool :=
  can_be_disposed s can_be_disposed_args.1 can_be_disposed_args.2.

(** [ZEND_ASYNC_CALLBACKS_NOTIFY] of the scope's event. *)
Definition scope_notify (s : nat) (error : bool) : SM unit :=
  semit (Notified s error);;
  (if listener_handles env s && error then upd_scope s (set_sc_handled true) else mret tt);;
  if listener_throws env s then modify (set_eg true) else mret tt.

Fixpoint check_completion_and_notify (fuel s : nat) (with_zombies : bool) : SM unit :=
  match fuel with
  | O => undefined
  | S fuel =>
    b ← can_be_disposed s with_zombies false;
    if (b : bool) then
      scope_notify s false;;
      sc ← get_scope s;
      match parent_scope sc with
      | Some p => check_completion_and_notify fuel p with_zombies
      | None => mret tt
      end
    else mret tt
  end.
Definition scope_check_completion_and_notify (s : nat) (with_zombies : bool) : SM unit :=
  w ← get; check_completion_and_notify (scope_fuel w) s with_zombies.

(** The callback of a caller of [awaitAfterCancellation]: [error_fci] is the answer
    of the error handler, if there is one (whether it returns). *)
Inductive awaiter_action := AwaiterThrows | AwaiterResumed | AwaiterWaits.
Definition callback_resolve_when_zombie_completed (s : nat) (error : bool) (error_fci : option bool)
    : SM awaiter_action :=
  if error && bool_decide (error_fci = None) then
    upd_scope s (set_sc_handled true);; mret AwaiterThrows
  else
    (if error then upd_scope s (set_sc_handled true) else mret tt);;
    if error && bool_decide (error_fci = Some false) then mret AwaiterThrows
    else
      done ← SCOPE_IS_COMPLETELY_DONE s;
      mret (if (done : bool) then AwaiterResumed else AwaiterWaits).

Definition async_scope_mark_coroutine_zombie (c : nat) : SM unit :=
  co ← get_routine c;
  s ← of_option (co_scope co);
  if co_zombie co then mret tt
  else
    upd_routine c (set_co_zombie true);;
    upd_scope s (λ sc,
      if 0 <? active_coroutines_count sc
      then set_zombie (u32 (zombie_coroutines_count sc + 1))
             (set_active (u32 (active_coroutines_count sc - 1)) sc)
      else sc);;
    scope_check_completion_and_notify s false.

(** ** Cancellation of a coroutine *)
Definition scheduler_enqueue (c : nat) : SM unit :=
  co ← get_routine c;
  if co_queued co then mret tt else upd_routine c (set_co_queued true);; semit (Enqueued c).
Definition apply_cancellation (c : nat) : SM unit :=
  upd_routine c (set_co_waker_cancelled true);; semit (CancellationApplied c).

Definition async_coroutine_cancel (c : nat) (is_safely : bool) : SM unit :=
  w ← get;
  co ← get_routine c;
  if co_finished co then mret tt
  else if bool_decide (current w = Some c) then upd_routine c (set_co_cancelled true)
  else if co_protected co then upd_routine c (set_co_deferred true)
  else
    upd_routine c (set_co_cancelled true);;
    if negb (co_started co) then
      (if negb (co_queued co) then scheduler_enqueue c else mret tt);;
      apply_cancellation c;;
      scheduler_enqueue c
    else if is_safely then
      async_scope_mark_coroutine_zombie c;;
      semit (CoroutineCountDecreased c)
    else
      (if co_cancelled co && co_waker_cancelled co then mret tt else apply_cancellation c);;
      scheduler_enqueue c.

(** The coroutine is taken from the queue and runs for the first time. *)
Definition async_coroutine_execute_start (c : nat) : SM unit :=
  upd_routine c (λ co, set_co_started true (set_co_queued false (set_co_waker_cancelled false co))).

(** Before and after the closure of [Async\protect]; the result of [protect_leave]:
    the deferred cancellation is thrown. *)
Definition protect_enter (c : nat) : SM unit := upd_routine c (set_co_protected true).
Definition protect_leave (c : nat) : SM bool :=
  upd_routine c (set_co_protected false);;
  co ← get_routine c;
  if co_deferred co then upd_routine c (λ co, set_co_deferred false (set_co_cancelled true co));; mret true
  else mret false.

(** ** Creation *)
Definition async_new_scope (parent : option nat) (with_zend_object : bool) : SM nat :=
  w ← get;
  let s := next_scope w in
  safely ← match parent with
           | Some p => sc ← get_scope p; mret (sc_safely sc)
           | None => mret (negb with_zend_object)
           end;
  modify (set_next_scope (S s));;
  modify (λ w, set_scopes (<[s := mk_scope false false false safely false false false 1 parent [] [] 0 0
                                  false false with_zend_object []]> (scopes w)) w);;
  (match parent with
   | Some p => upd_scope p (λ sc, set_child_scopes (scope_add_child s (child_scopes sc)) sc)
   | None => mret tt
   end);;
  mret s.

(** The part of [spawn] that concerns the scope: [scope_before_coroutine_enqueue]. *)
Definition spawn_in_scope (s : nat) : SM (option nat) :=
  sc ← get_scope s;
  if sc_closed sc then mret None
  else
    w ← get;
    let c := next_routine w in
    modify (set_next_routine (S c));;
    modify (λ w, set_routines (<[c := mk_coroutine None false false false false false false true false]> (routines w)) w);;
    async_scope_add_coroutine s c;;
    mret (Some c).

(** [async_scope_call_finally_handlers] and [async_call_finally_handlers]: the
    handlers run in a coroutine of a new child scope, and hold a reference. *)
Definition async_scope_call_finally_handlers (s : nat) : SM bool :=
  sc ← get_scope s;
  if bool_decide (finally_handlers sc = []) then mret false
  else
    upd_scope s (set_finally_handlers []);;
    if sc_bailout sc || negb (finally_spawned env s) then mret false
    else
      child ← async_new_scope (Some s) false;
      spawn_in_scope child;;
      upd_scope s (λ sc, set_ref_count (ref_count sc + 1) sc);;
      semit (FinallySpawned s (finally_handlers sc));;
      mret true.

(** ** Exceptions and cancellation *)

(** [EG(exception)] is taken over by the caller. *)
Definition take_exception : SM bool :=
  w ← get; modify (set_eg false);; mret (eg_exception w).

Definition try_to_handle_exception (s : nat) (from : option nat) (coroutine : option nat) : SM bool :=
  sc ← get_scope s;
  if negb (exception_fci sc) && negb (child_exception_fci sc) then mret false
  else if sc_bailout sc then mret false
  else
    let outside := in_scheduler env || bool_decide (coroutine = None) in
    if outside && spawn_and_throw env then
      semit (SpawnAndThrow (default s from));; mret true
    else if bool_decide (coroutine = None) then undefined
    else
      absorbed ← (if bool_decide (is_Some from) && child_exception_fci sc then
                    semit (ChildHandlerCalled s);;
                    if child_handler_absorbs env s then mret true
                    else modify (set_eg true);; mret false
                  else mret false);
      if (absorbed : bool) then mret true
      else if exception_fci sc then
        w ← get;
        if eg_exception w then mret false
        else
          semit (HandlerCalled s);;
          if handler_absorbs env s then mret true
          else modify (set_eg true);; mret false
      else mret false.

(** [error]: the exception is not NULL; [from]: the child scope it comes from. *)
Fixpoint catch_or_cancel (fuel s : nat) (coroutine from : option nat) (error is_safely is_cancellation : bool)
    : SM bool :=
  match fuel with
  | O => undefined
  | S fuel =>
    sc ← get_scope s;
    if is_cancellation && sc_closed sc then mret true
    else
      done ← (if is_cancellation then SCOPE_IS_COMPLETELY_DONE s else mret false);
      if (done : bool) then
        upd_scope s (set_sc_closed true);;
        async_scope_call_finally_handlers s;;
        mret true
      else if negb error && negb is_cancellation then mret true
      else
        handled ← (if negb is_cancellation && (exception_fci sc || child_exception_fci sc)
                   then try_to_handle_exception s from coroutine else mret false);
        if (handled : bool) then mret true
        else
          upd_scope s (set_sc_cancelled true);;
          take_exception;;
          critical ← (fix children l :=
                        match l with
                        | [] => mret false
                        | c :: l =>
                          catch_or_cancel fuel c coroutine (Some s) is_cancellation is_safely true;;
                          e ← take_exception;
                          r ← children l;
                          mret ((e : bool) || (r : bool))
                        end) (child_scopes sc);
          (fix cancel l :=
             match l with
             | [] => mret tt
             | c :: l => async_coroutine_cancel c is_safely;; cancel l
             end) (coroutines sc);;
          e ← take_exception;
          scope_notify s true;;
          e' ← take_exception;
          if (critical : bool) || (e : bool) || (e' : bool) then modify (set_eg true);; mret false
          else
            sc ← get_scope s;
            if sc_handled sc then mret true
            else match parent_scope sc with
                 | Some p =>
                   if is_cancellation then mret false
                   else catch_or_cancel fuel p coroutine (Some s) true is_safely false
                 | None => mret false
                 end
  end.
Definition scope_catch_or_cancel (s : nat) (coroutine from : option nat) (error is_safely is_cancellation : bool)
    : SM bool :=
  w ← get; catch_or_cancel (scope_fuel w) s coroutine from error is_safely is_cancellation.

(** ** Disposal *)
Definition unlink (s : nat) (parent : option nat) : SM unit :=
  match parent with
  | Some p => upd_scope p (λ sc, set_child_scopes (scope_remove_child s (child_scopes sc)) sc)
  | None => mret tt
  end.

Fixpoint dispose (fuel s : nat) : SM bool :=
  match fuel with
  | O => undefined
  | S fuel =>
    sc ← get_scope s;
    if sc_disposing sc then mret true
    else if 1 <? ref_count sc then
      upd_scope s (set_ref_count (ref_count sc - 1));;
      scope_notify s false;;
      mret true
    else
      (if ref_count sc =? 0 then upd_scope s (set_ref_count 1) else mret tt);;
      upd_scope s (set_sc_disposing true);;
      ZEND_ASSERT (bool_decide (coroutines sc = []));;
      failed ← (fix children l :=
                  match l with
                  | [] => mret false
                  | c :: l =>
                    upd_scope c (set_parent_scope None);;
                    dispose fuel c;;
                    w ← get;
                    if eg_exception w then mret true else children l
                  end) (child_scopes sc);
      if (failed : bool) then upd_scope s (set_sc_disposing false);; mret false
      else
        scope_notify s false;;
        critical ← take_exception;
        spawned ← async_scope_call_finally_handlers s;
        if (spawned : bool) then
          (if (critical : bool) then semit (SpawnAndThrow s) else mret tt);;
          upd_scope s (set_sc_disposing false);; mret true
        else
          sc ← get_scope s;
          upd_scope s (set_ref_count (ref_count sc - 1));;
          if 0 <? ref_count sc - 1 then upd_scope s (set_sc_disposing false);; mret true
          else
            unlink s (parent_scope sc);;
            modify (λ w, set_scopes (delete s (scopes w)) w);;
            semit (Freed s);;
            (if (critical : bool) then modify (set_eg true) else mret tt);;
            mret true
  end.
Definition scope_dispose (s : nat) : SM bool := w ← get; dispose (scope_fuel w) s.

(** The loop of [scope_try_to_dispose]: the vector may shrink under the index. *)
Fixpoint dispose_children (fuel s i : nat) : SM bool :=
  match fuel with
  | O => undefined
  | S fuel =>
    sc ← get_scope s;
    match child_scopes sc !! i with
    | None => mret true
    | Some c =>
      scope_dispose c;;
      w ← get;
      if eg_exception w then mret false else dispose_children fuel s (S i)
    end
  end.

Definition scope_try_to_dispose (s : nat) : SM bool :=
  sc ← get_scope s;
  if sc_disposing sc then mret true
  else
    ok ← SCOPE_CAN_BE_DISPOSED s;
    if negb ok then mret false
    else
      upd_scope s (set_sc_disposing true);;
      disposed ← dispose_children (S (length (child_scopes sc))) s 0;
      upd_scope s (set_sc_disposing false);;
      if (disposed : bool) then scope_dispose s;; mret true else mret false.

Definition async_scope_notify_coroutine_finished (c : nat) : SM unit :=
  co ← get_routine c;
  s ← of_option (co_scope co);
  async_scope_remove_coroutine s c;;
  scope_check_completion_and_notify s true;;
  scope_try_to_dispose s;;
  mret tt.

(** The part of [async_coroutine_finalize] that concerns the scope: [exception] is
    an exception that neither a listener nor a handler of the coroutine has taken.
    The result: the exception remains. *)
Definition async_coroutine_finalize (c : nat) (exception : bool) : SM bool :=
  upd_routine c (set_co_finished true);;
  co ← get_routine c;
  match co_scope co with
  | None => mret exception
  | Some s =>
    caught ← (if exception then
                sc ← get_scope s; scope_catch_or_cancel s (Some c) None true (sc_safely sc) false
              else mret false);
    async_scope_notify_coroutine_finished c;;
    upd_routine c (set_co_scope None);;
    mret (exception && negb caught)
  end.

(** The Scope object is destroyed: its coroutines are cancelled. *)
Definition scope_destroy (s : nat) : SM unit :=
  upd_scope s (set_scope_object false);;
  disposed ← scope_try_to_dispose s;
  if (disposed : bool) then mret tt
  else sc ← get_scope s; scope_catch_or_cancel s None None true (sc_safely sc) true;; mret tt.

(** ** Methods of a Scope object that still has its scope *)
Definition method_cancel (s : nat) (cancellation : bool) : SM unit :=
  sc ← get_scope s; scope_catch_or_cancel s None None cancellation (sc_safely sc) true;; mret tt.
Definition method_asNotSafely (s : nat) : SM unit := upd_scope s (set_sc_safely false).
Definition method_allowZombies (s : nat) : SM unit := upd_scope s (set_sc_safely true).
Definition method_finally (s h : nat) : SM unit :=
  upd_scope s (λ sc, set_finally_handlers (finally_handlers sc ++ [h]) sc).

(** What an owner outside of this file does, a task group for instance. *)
Definition set_owner_pinned (s : nat) (pinned : bool) : SM unit := upd_scope s (set_sc_pinned pinned).
Definition method_setExceptionHandler (s : nat) : SM unit := upd_scope s (set_exception_fci true).
Definition method_setChildScopeExceptionHandler (s : nat) : SM unit := upd_scope s (set_child_exception_fci true).
Definition method_isFinished (s : option nat) : SM bool :=
  match s with None => mret true | Some s => SCOPE_IS_COMPLETED s end.
(** [started]: the timer takes the callback, which holds a reference. *)
Definition method_disposeAfterTimeout (s : nat) (started : bool) : SM unit :=
  sc ← get_scope s;
  if sc_closed sc || (bool_decide (coroutines sc = []) && bool_decide (child_scopes sc = [])) then mret tt
  else if started then upd_scope s (set_ref_count (ref_count sc + 1)) else mret tt.

Fixpoint contains_coroutine (fuel : nat) (m : gmap nat async_scope_t) (s c : nat) (depth : Z) : option (bool * bool) :=
  match fuel with
  | O => None
  | S fuel =>
    if 64 <? depth then Some (false, true)
    else
      sc ← m !! s;
      if bool_decide (c ∈ coroutines sc) then Some (true, false)
      else (fix children l :=
              match l with
              | [] => Some (false, false)
              | x :: l =>
                xc ← m !! x;
                if bool_decide (coroutines xc = []) && bool_decide (child_scopes xc = []) then children l
                else
                  '(found, e) ← contains_coroutine fuel m x c (depth + 1);
                  if (found : bool) then Some (true, e)
                  else '(r, e') ← children l; Some (r, (e : bool) || (e' : bool))
              end) (child_scopes sc)
  end.
(** The result, and whether the depth limit threw. *)
Definition async_scope_contains_coroutine (w : sworld) (s c : nat) : option (bool * bool) :=
  contains_coroutine (scope_fuel w) (scopes w) s c 0.

(** ** Waiting for a scope *)
Inductive await_outcome := AwaitReturns | AwaitThrowsCancelled | AwaitThrowsError | AwaitWaits.

(** [s]: [None] when the scope is gone; [c]: the coroutine that calls. *)
Definition method_awaitCompletion (s : option nat) (c : nat) : SM await_outcome :=
  match s with
  | None => mret AwaitReturns
  | Some s =>
    sc ← get_scope s;
    if sc_closed sc then mret AwaitReturns
    else if sc_cancelled sc then mret AwaitThrowsCancelled
    else
      w ← get;
      '(found, e) ← of_option (async_scope_contains_coroutine w s c);
      if (found : bool) || (e : bool) then mret AwaitThrowsError
      else if (active_coroutines_count sc =? 0) && bool_decide (child_scopes sc = []) then mret AwaitReturns
      else mret AwaitWaits
  end.
Definition async_scope_await_after_cancellation (s c : nat) : SM await_outcome :=
  sc ← get_scope s;
  if sc_closed sc then mret AwaitReturns
  else
    w ← get;
    '(found, e) ← of_option (async_scope_contains_coroutine w s c);
    if (found : bool) || (e : bool) then mret AwaitThrowsError
    else if bool_decide (coroutines sc = []) && bool_decide (child_scopes sc = []) then mret AwaitReturns
    else mret AwaitWaits.
Definition method_awaitAfterCancellation (s : option nat) (c : nat) : SM await_outcome :=
  match s with
  | None => mret AwaitReturns
  | Some s =>
    sc ← get_scope s;
    if sc_closed sc then mret AwaitReturns
    else if negb (sc_cancelled sc) then mret AwaitThrowsError
    else async_scope_await_after_cancellation s c
  end.
End operations.
