(* ===== verification/ScopeProofs.v ===== *)
(** * Correctness of scopes

    The invariant of the tree of scopes and its coroutines, the termination of the
    walks over the tree, and the steps that cancel one coroutine. *)

From S2P Require Import Prelude Scope.

(** ** The invariant *)

(** The number of coroutines of [l] that are zombies, or that are not. *)
Definition is_zombie (rs : gmap nat async_coroutine_t) (c : nat) : bool :=
  match rs !! c with Some co => co_zombie co | None => false end.
Definition members (z : bool) (rs : gmap nat async_coroutine_t) (l : list nat) : Z :=
  Z.of_nat (length (filter (λ c, is_zombie rs c = z) l)).

Lemma members_nil z rs : members z rs [] = 0%Z.
Proof. done. Qed.
Lemma members_cons z rs c l :
  members z rs (c :: l) = (Z.b2z (Bool.eqb (is_zombie rs c) z) + members z rs l)%Z.
Proof. unfold members. rewrite filter_cons. case_decide; destruct (is_zombie rs c), z; cbn; done || lia. Qed.
Lemma members_app z rs l l' : members z rs (l ++ l') = (members z rs l + members z rs l')%Z.
Proof. unfold members. rewrite filter_app, length_app. lia. Qed.
Lemma members_nonneg z rs l : (0 ≤ members z rs l)%Z.
Proof. unfold members. lia. Qed.
Lemma members_total rs l : (members false rs l + members true rs l)%Z = Z.of_nat (length l).
Proof. induction l as [|c l IH]; [done|]. rewrite !members_cons. destruct (is_zombie rs c); cbn [Bool.eqb Z.b2z length]; lia. Qed.
Lemma members_perm z rs l l' : l ≡ₚ l' → members z rs l = members z rs l'.
Proof. intros Hp. unfold members. by rewrite Hp. Qed.
Lemma members_ext z rs rs' l : (∀ c, c ∈ l → is_zombie rs' c = is_zombie rs c) →
  members z rs' l = members z rs l.
Proof.
  induction l as [|c l IH]; intros Hl; [done|]. rewrite !members_cons, IH by set_solver.
  rewrite (Hl c) by set_solver. done.
Qed.
Lemma members_pos rs l c : c ∈ l → (0 < members (is_zombie rs c) rs l)%Z.
Proof.
  intros (l1 & l2 & ->)%list_elem_of_split. rewrite members_app, members_cons, Bool.eqb_reflx.
  change (Z.b2z true) with 1%Z.
  pose proof (members_nonneg (is_zombie rs c) rs l1). pose proof (members_nonneg (is_zombie rs c) rs l2). lia.
Qed.
(** One coroutine of the list becomes a zombie. *)
Lemma members_zombified rs rs' l c : NoDup l → c ∈ l → is_zombie rs c = false → is_zombie rs' c = true →
  (∀ x, x ≠ c → is_zombie rs' x = is_zombie rs x) →
  members false rs' l = (members false rs l - 1)%Z ∧ members true rs' l = (members true rs l + 1)%Z.
Proof.
  intros Hnd (l1 & l2 & ->)%list_elem_of_split Hz Hz' Hx.
  apply NoDup_app in Hnd as (_ & H12 & [Hc _]%NoDup_cons).
  assert (∀ z, members z rs' l1 = members z rs l1 ∧ members z rs' l2 = members z rs l2) as Heq.
  { intros z. split; apply members_ext; intros x Hin; apply Hx; intros ->; [|done]. by eapply H12; [|left]. }
  rewrite !members_app, !members_cons, Hz, Hz'. cbn [Bool.eqb Z.b2z]. destruct (Heq true), (Heq false). lia.
Qed.

(** The scopes whose finally handlers have not run. *)
Definition has_finally (sc : async_scope_t) : Prop := finally_handlers sc ≠ [].
#[export] Instance has_finally_dec sc : Decision (has_finally sc) := _.
Definition with_finally (m : gmap nat async_scope_t) : nat := size (filter (λ x, has_finally x.2) m).
Lemma with_finally_le m : with_finally m ≤ size m.
Proof.
  unfold with_finally. induction m as [|i x m Hi IH] using map_ind; [done|].
  rewrite map_filter_insert, map_size_insert, Hi. case_decide.
  - rewrite map_size_insert, map_lookup_filter, Hi. cbn. lia.
  - rewrite delete_id by done. lia.
Qed.
Lemma with_finally_same m s sc sc' : m !! s = Some sc → (finally_handlers sc' = [] ∨ finally_handlers sc' = finally_handlers sc) →
  with_finally (<[s := sc']> m) ≤ with_finally m.
Proof.
  intros Hs Hf. unfold with_finally. rewrite map_filter_insert. case_decide as Hd; cbn in Hd.
  - rewrite map_size_insert. assert (filter (λ x, has_finally x.2) m !! s = Some sc) as ->; [|done].
    apply map_lookup_filter_Some. split; [done|]. unfold has_finally in *. cbn in *. naive_solver congruence.
  - rewrite map_filter_delete. apply map_subseteq_size, delete_subseteq.
Qed.
Lemma with_finally_cleared m s sc sc' : m !! s = Some sc → has_finally sc → finally_handlers sc' = [] →
  S (with_finally (<[s := sc']> m)) = with_finally m.
Proof.
  intros Hs Hf Hf'. unfold with_finally. rewrite map_filter_insert, decide_False by (cbn; unfold has_finally; congruence).
  assert (filter (λ x, has_finally x.2) m !! s = Some sc) as Hin by by apply map_lookup_filter_Some.
  rewrite map_filter_delete, map_size_delete, Hin.
  assert (size (filter (λ x, has_finally x.2) m) ≠ 0); [|cbn; lia].
  intros H0%map_size_empty_inv. by rewrite H0, lookup_empty in Hin.
Qed.
Lemma with_finally_fresh m s sc : m !! s = None → finally_handlers sc = [] →
  with_finally (<[s := sc]> m) = with_finally m.
Proof.
  intros Hs Hf. unfold with_finally. rewrite map_filter_insert, decide_False by (cbn; unfold has_finally; congruence).
  by rewrite delete_id.
Qed.

(** Parents and children know each other, and a child is younger than its parent. *)
Record Links (m : gmap nat async_scope_t) : Prop := {
  l_child : ∀ s sc c, m !! s = Some sc → c ∈ child_scopes sc →
    s < c ∧ ∃ csc, m !! c = Some csc ∧ parent_scope csc = Some s;
  l_parent : ∀ s sc p, m !! s = Some sc → parent_scope sc = Some p →
    p < s ∧ ∃ psc, m !! p = Some psc ∧ s ∈ child_scopes psc;
  l_nodup : ∀ s sc, m !! s = Some sc → NoDup (child_scopes sc)
}.

(** The vector of a scope holds its coroutines, and the counts are right. *)
Record Counted (m : gmap nat async_scope_t) (rs : gmap nat async_coroutine_t) : Prop := {
  c_nodup : ∀ s sc, m !! s = Some sc → NoDup (coroutines sc);
  c_member : ∀ s sc c, m !! s = Some sc → c ∈ coroutines sc →
    ∃ co, rs !! c = Some co ∧ co_scope co = Some s;
  c_scope : ∀ c co s, rs !! c = Some co → co_scope co = Some s → co_finished co = false →
    ∃ sc, m !! s = Some sc ∧ c ∈ coroutines sc;
  c_active : ∀ s sc, m !! s = Some sc → active_coroutines_count sc = members false rs (coroutines sc);
  c_zombie : ∀ s sc, m !! s = Some sc → zombie_coroutines_count sc = members true rs (coroutines sc)
}.

Record Tree (w : sworld) : Prop := {
  t_next : ∀ s sc, scopes w !! s = Some sc → s < next_scope w;
  t_routines : ∀ c co, routines w !! c = Some co → c < next_routine w;
  t_small : (Z.of_nat (next_routine w + with_finally (scopes w)) < 2 ^ 32)%Z;
  t_links : Links (scopes w);
  t_counted : Counted (scopes w) (routines w)
}.

Lemma t_child w : Tree w → ∀ s sc c, scopes w !! s = Some sc → c ∈ child_scopes sc →
  s < c ∧ ∃ csc, scopes w !! c = Some csc ∧ parent_scope csc = Some s.
Proof. intros T. apply l_child, T. Qed.
Lemma t_parent w : Tree w → ∀ s sc p, scopes w !! s = Some sc → parent_scope sc = Some p →
  p < s ∧ ∃ psc, scopes w !! p = Some psc ∧ s ∈ child_scopes psc.
Proof. intros T. apply l_parent, T. Qed.
Lemma t_member w : Tree w → ∀ s sc c, scopes w !! s = Some sc → c ∈ coroutines sc →
  ∃ co, routines w !! c = Some co ∧ co_scope co = Some s.
Proof. intros T. apply c_member, T. Qed.

(** An entry is replaced by one with the same relatives. *)
Lemma Links_update m s sc sc' : m !! s = Some sc → parent_scope sc' = parent_scope sc →
  child_scopes sc' = child_scopes sc → Links m → Links (<[s := sc']> m).
Proof.
  intros Hs Hp Hch L.
  assert (∀ x xc', <[s := sc']> m !! x = Some xc' → ∃ xc, m !! x = Some xc ∧
            parent_scope xc' = parent_scope xc ∧ child_scopes xc' = child_scopes xc) as Hback.
  { intros x xc' [[<- <-]|[_ Hx]]%lookup_insert_Some; eauto. }
  assert (∀ x xc, m !! x = Some xc → ∃ xc', <[s := sc']> m !! x = Some xc' ∧
            parent_scope xc' = parent_scope xc ∧ child_scopes xc' = child_scopes xc) as Hforth.
  { intros x xc Hx. destruct (decide (s = x)) as [<-|Hne]; [|exists xc; by rewrite lookup_insert_ne].
    simplify_eq. exists sc'. by rewrite lookup_insert_eq. }
  constructor.
  - intros x xc' c (xc & Hx & _ & ->)%Hback Hc. destruct (l_child _ L _ _ _ Hx Hc) as (Hlt & csc & Hcs & Hpc).
    split; [done|]. destruct (Hforth _ _ Hcs) as (csc' & ? & Hpc' & _). exists csc'. by rewrite Hpc'.
  - intros x xc' p (xc & Hx & -> & _)%Hback Hxp. destruct (l_parent _ L _ _ _ Hx Hxp) as (Hlt & psc & Hps & Hin).
    split; [done|]. destruct (Hforth _ _ Hps) as (psc' & ? & _ & Hch'). exists psc'. by rewrite Hch'.
  - intros x xc' (xc & Hx & _ & ->)%Hback. by eapply l_nodup.
Qed.

(** An entry is replaced by one with the same coroutines. *)
Lemma Counted_update m rs s sc sc' : m !! s = Some sc → coroutines sc' = coroutines sc →
  active_coroutines_count sc' = active_coroutines_count sc →
  zombie_coroutines_count sc' = zombie_coroutines_count sc → Counted m rs → Counted (<[s := sc']> m) rs.
Proof.
  intros Hs Hc Ha Hz []. constructor.
  - intros x xc [[<- <-]|[_ Hx]]%lookup_insert_Some; [rewrite Hc|]; eauto.
  - intros x xc c [[<- <-]|[_ Hx]]%lookup_insert_Some; [rewrite Hc|]; eauto.
  - intros c co x Hco Hx Hf. destruct (c_scope0 _ _ _ Hco Hx Hf) as (xc & Hxc & Hin).
    destruct (decide (x = s)) as [->|Hne]; [|exists xc; by rewrite lookup_insert_ne].
    simplify_eq. exists sc'. by rewrite lookup_insert_eq, Hc.
  - intros x xc [[<- <-]|[_ Hx]]%lookup_insert_Some; [rewrite Ha, Hc|]; eauto.
  - intros x xc [[<- <-]|[_ Hx]]%lookup_insert_Some; [rewrite Hz, Hc|]; eauto.
Qed.

(** A coroutine is replaced by one of the same scope. *)
Lemma is_zombie_insert rs c co x : is_zombie (<[c := co]> rs) x = if decide (c = x) then co_zombie co else is_zombie rs x.
Proof. unfold is_zombie. case_decide; [subst; by rewrite lookup_insert_eq|by rewrite lookup_insert_ne]. Qed.
Lemma Counted_routine m rs c co co' : rs !! c = Some co → co_scope co' = co_scope co →
  co_zombie co' = co_zombie co → (co_finished co' = false → co_finished co = false) →
  Counted m rs → Counted m (<[c := co']> rs).
Proof.
  intros Hc Hsc Hz Hf [].
  assert (∀ x, is_zombie (<[c := co']> rs) x = is_zombie rs x) as Hzx.
  { intros x. rewrite is_zombie_insert. case_decide; [|done]. subst. unfold is_zombie. by rewrite Hc. }
  constructor; [done| | | |].
  - intros s sc x Hs Hx. destruct (c_member0 _ _ _ Hs Hx) as (xc & Hxc & Hxs).
    destruct (decide (x = c)) as [->|Hne]; [exists co'; rewrite lookup_insert_eq; split; [done|congruence]|].
    exists xc. by rewrite lookup_insert_ne.
  - intros x xc s [[<- <-]|[_ Hx]]%lookup_insert_Some; [rewrite Hsc|]; eauto.
  - intros s sc Hs. rewrite (c_active0 _ _ Hs). symmetry. by apply members_ext.
  - intros s sc Hs. rewrite (c_zombie0 _ _ Hs). symmetry. by apply members_ext.
Qed.

(** Distinct coroutines below [next_routine]. *)
Lemma Tree_bound w s sc : Tree w → scopes w !! s = Some sc → length (coroutines sc) ≤ next_routine w.
Proof.
  intros T Hs.
  assert (coroutines sc ⊆+ seq 0 (next_routine w)) as Hsub.
  { apply NoDup_submseteq; [by eapply c_nodup, Hs; apply T|]. intros c Hc. apply elem_of_seq.
    destruct (t_member _ T _ _ _ Hs Hc) as (co & Hco & _). apply (t_routines _ T) in Hco. lia. }
  apply submseteq_length in Hsub. by rewrite length_seq in Hsub.
Qed.
Lemma Tree_counts w s sc : Tree w → scopes w !! s = Some sc →
  (0 ≤ active_coroutines_count sc)%Z ∧ (0 ≤ zombie_coroutines_count sc)%Z ∧
  (active_coroutines_count sc + zombie_coroutines_count sc = Z.of_nat (length (coroutines sc)))%Z ∧
  (Z.of_nat (length (coroutines sc)) < 2 ^ 32)%Z.
Proof.
  intros T Hs. pose proof (Tree_bound _ _ _ T Hs). pose proof (t_small _ T).
  rewrite (c_active _ _ (t_counted _ T) _ _ Hs), (c_zombie _ _ (t_counted _ T) _ _ Hs).
  rewrite members_total. split_and!; [apply members_nonneg..|done|lia].
Qed.

(** ** [scope_can_be_disposed] against a reference definition *)

(** Without the owner's consent: every scope that is reached without passing a
    closed or cancelled one has no (active) coroutine. *)
Inductive AtRest (m : gmap nat async_scope_t) (zombies : bool) : nat → Prop :=
| rest_over s sc : m !! s = Some sc → sc_closed sc || sc_cancelled sc = true → AtRest m zombies s
| rest_idle s sc : m !! s = Some sc →
    (if zombies then coroutines sc = [] else active_coroutines_count sc = 0%Z) →
    (∀ c, c ∈ child_scopes sc → AtRest m zombies c) → AtRest m zombies s.

(** With it: every scope of the subtree is empty, not pinned, and cancelled or
    without its object. *)
Inductive Disposable (m : gmap nat async_scope_t) : nat → Prop :=
| disposable s sc : m !! s = Some sc → coroutines sc = [] → sc_pinned sc = false →
    (sc_cancelled sc = true ∨ scope_object sc = false) →
    (∀ c, c ∈ child_scopes sc → Disposable m c) → Disposable m s.

Lemma idle_count w s sc : Tree w → scopes w !! s = Some sc →
  (0 <? u32 (active_coroutines_count sc + zombie_coroutines_count sc))%Z = false ↔ coroutines sc = [].
Proof.
  intros T Hs. destruct (Tree_counts _ _ _ T Hs) as (_ & _ & Hsum & Hlen).
  rewrite Hsum, u32_small by lia. rewrite Z.ltb_ge. destruct (coroutines sc); cbn; split; lia || done.
Qed.

(** The loop over the children. *)
Lemma children_loop (f : nat → option bool) (P : nat → Prop) l :
  (∀ c, c ∈ l → ∃ b, f c = Some b ∧ (b = true ↔ P c)) →
  ∃ b, (fix children l :=
          match l with
          | [] => Some true
          | c :: l => b ← f c; if (b : bool) then children l else Some false
          end) l = Some b ∧ (b = true ↔ ∀ c, c ∈ l → P c).
Proof.
  induction l as [|c l IH]; intros Hl; [exists true; set_solver|].
  destruct (Hl c) as (b & Hb & HP); [by left|]. rewrite Hb. cbn. destruct b.
  - destruct IH as (b' & Hb' & HP'); [set_solver|]. exists b'. rewrite Hb'. split; [done|]. set_solver.
  - exists false. split; [done|]. split; [done|]. intros Hall. apply HP, Hall. by left.
Qed.

Lemma can_be_disposed_rest w fuel s zombies : Tree w → is_Some (scopes w !! s) → next_scope w - s < fuel →
  ∃ b, scope_can_be_disposed fuel (scopes w) s zombies false = Some b ∧ (b = true ↔ AtRest (scopes w) zombies s).
Proof.
  intros T. revert s. induction fuel as [|fuel IH]; intros s [sc Hs] Hf; [lia|]. cbn. rewrite Hs. cbn.
  destruct (sc_closed sc || sc_cancelled sc) eqn:Hc.
  { exists true. split; [done|]. split; [intros _; by eapply rest_over|done]. }
  assert ((0 <? (if zombies then u32 (active_coroutines_count sc + zombie_coroutines_count sc)
                 else active_coroutines_count sc))%Z = false ↔
          (if zombies then coroutines sc = [] else active_coroutines_count sc = 0%Z)) as Hidle.
  { destruct zombies; [by apply idle_count with w s|]. rewrite Z.ltb_ge.
    destruct (Tree_counts _ _ _ T Hs) as (? & _). split; lia. }
  destruct (0 <? _)%Z.
  { exists false. split; [done|]. split; [done|]. intros Hr. inversion Hr as [s' sc' Hs' Ho|s' sc' Hs' Hi _]; simplify_eq;
      [congruence|by apply Hidle in Hi]. }
  destruct (children_loop (λ c, scope_can_be_disposed fuel (scopes w) c zombies false)
    (AtRest (scopes w) zombies) (child_scopes sc)) as (b & Hb & HP).
  { intros c Hin. destruct (t_child _ T _ _ _ Hs Hin) as (Hlt & csc & Hcs & _). pose proof (t_next _ T _ _ Hcs).
    apply IH; [by exists csc|]. pose proof (t_next _ T _ _ Hs). lia. }
  exists b. split; [exact Hb|]. rewrite HP. split.
  - intros Hall. eapply rest_idle; [done| |done]. by apply Hidle.
  - intros Hr. inversion Hr as [s' sc' Hs' Ho|s' sc' Hs' Hi Hch]; simplify_eq; [congruence|done].
Qed.

Lemma can_be_disposed_disposable w fuel s : Tree w → is_Some (scopes w !! s) → next_scope w - s < fuel →
  ∃ b, scope_can_be_disposed fuel (scopes w) s true true = Some b ∧ (b = true ↔ Disposable (scopes w) s).
Proof.
  intros T. revert s. induction fuel as [|fuel IH]; intros s [sc Hs] Hf; [lia|]. cbn. rewrite Hs. cbn.
  pose proof (idle_count _ _ _ T Hs) as Hidle.
  destruct (0 <? _)%Z.
  { exists false. split; [done|]. split; [done|]. intros Hr. inversion Hr as [s' sc' Hs' Hi Hpi Hor Hch]; simplify_eq.
    by apply Hidle in Hi. }
  destruct (sc_pinned sc) eqn:Hp.
  { exists false. split; [done|]. split; [done|]. intros Hr. inversion Hr; simplify_eq. congruence. }
  destruct (negb (sc_cancelled sc || negb (scope_object sc))) eqn:Ho.
  { exists false. split; [done|]. split; [done|]. intros Hr. inversion Hr as [s' sc' Hs' _ _ Hor _]; simplify_eq.
    destruct (sc_cancelled sc), (scope_object sc); naive_solver. }
  destruct (children_loop (λ c, scope_can_be_disposed fuel (scopes w) c true true)
    (Disposable (scopes w)) (child_scopes sc)) as (b & Hb & HP).
  { intros c Hin. destruct (t_child _ T _ _ _ Hs Hin) as (Hlt & csc & Hcs & _). pose proof (t_next _ T _ _ Hcs).
    apply IH; [by exists csc|]. pose proof (t_next _ T _ _ Hs). lia. }
  exists b. split; [exact Hb|]. rewrite HP. split.
  - intros Hall. econstructor; [done|by apply Hidle|done| |done].
    destruct (sc_cancelled sc), (scope_object sc); naive_solver.
  - intros Hr. inversion Hr; simplify_eq. done.
Qed.

(** ** Potential and monotonicity

    The identifiers that will ever be used are bounded: a scope with finally
    handlers creates at most one more scope. *)
Definition scope_potential (w : sworld) : nat := next_scope w + with_finally (scopes w).

(** The coroutine has got a cancellation or does not need one. *)
Definition hit (co : async_coroutine_t) : bool := co_finished co || co_cancelled co || co_deferred co.

Record grows (sc sc' : async_scope_t) : Prop := {
  g_parent : parent_scope sc' = parent_scope sc;
  g_coroutines : coroutines sc' = coroutines sc;
  g_closed : sc_closed sc = true → sc_closed sc' = true;
  g_cancelled : sc_cancelled sc = true → sc_cancelled sc' = true;
  g_children : child_scopes sc' = child_scopes sc ∨ sc_closed sc' = true
}.
#[export] Instance grows_preorder : PreOrder grows.
Proof.
  split; [intros ?; by constructor; auto|]. intros s1 s2 s3 [] []. constructor; [congruence|congruence|auto|auto|].
  destruct g_children1; [|by right]. destruct g_children0; [left; congruence|right; auto].
Qed.

(** What the steps that cancel leave alone. *)
Record Mono (w w' : sworld) : Prop := {
  m_scopes : ∀ s sc, scopes w !! s = Some sc → ∃ sc', scopes w' !! s = Some sc' ∧ grows sc sc';
  m_routines : ∀ c co, routines w !! c = Some co →
    ∃ co', routines w' !! c = Some co' ∧ co_scope co' = co_scope co ∧
      (hit co = true → hit co' = true) ∧ (co_finished co = true → co_finished co' = true);
  m_potential : scope_potential w' ≤ scope_potential w;
  m_finally : with_finally (scopes w') ≤ with_finally (scopes w);
  m_out : s_out w `prefix_of` s_out w'
}.
#[export] Instance Mono_preorder : PreOrder Mono.
Proof.
  split.
  - intros w. constructor; [intros s sc Hs; by exists sc|intros c co Hc; by exists co|done..].
  - intros w1 w2 w3 [S1 R1 P1 F1 O1] [S2 R2 P2 F2 O2]. constructor.
    + intros s sc (sc1 & H1 & G1)%S1. destruct (S2 _ _ H1) as (sc2 & H2 & G2). exists sc2. split; [done|by etrans].
    + intros c co (co1 & H1 & E1 & G1 & D1)%R1. destruct (R2 _ _ H1) as (co2 & H2 & E2 & G2 & D2). exists co2.
      split_and!; [done|congruence|auto|auto].
    + lia.
    + lia.
    + by etrans.
Qed.

(** ** Updates that keep the invariant *)
Definition Ok (w w' : sworld) : Prop := Tree w' ∧ Mono w w'.
Lemma Ok_refl w : Tree w → Ok w w.
Proof. done. Qed.
Lemma Ok_trans w1 w2 w3 : Ok w1 w2 → Ok w2 w3 → Ok w1 w3.
Proof. intros [_ M1] [T2 M2]. split; [done|by etrans]. Qed.

(** An update of flags, handlers and reference count. *)
Record plain (sc sc' : async_scope_t) : Prop := {
  p_grows : grows sc sc';
  p_children : child_scopes sc' = child_scopes sc;
  p_active : active_coroutines_count sc' = active_coroutines_count sc;
  p_zombie : zombie_coroutines_count sc' = zombie_coroutines_count sc;
  p_finally : finally_handlers sc' = [] ∨ finally_handlers sc' = finally_handlers sc
}.
Lemma Ok_plain w s sc sc' : Tree w → scopes w !! s = Some sc → plain sc sc' →
  Ok w (set_scopes (<[s := sc']> (scopes w)) w).
Proof.
  intros T Hs [[Gp Gc Gcl Gca _] Gch Ga Gz Gf]. pose proof (with_finally_same _ _ _ sc' Hs Gf) as Hwf. split.
  - destruct T. constructor; cbn; [|done|lia|by eapply Links_update|by eapply Counted_update].
    intros x xc [[<- <-]|[_ Hx]]%lookup_insert_Some; eauto.
  - constructor; cbn; [|intros c co Hc; by exists co|unfold scope_potential; cbn; lia|lia|done].
    intros x xc Hx. destruct (decide (x = s)) as [->|Hne]; [|exists xc; by rewrite lookup_insert_ne].
    simplify_eq. exists sc'. rewrite lookup_insert_eq. split; [done|]. constructor; auto.
Qed.

(** ** The program logic of scopes *)
Lemma wp_option {S A} (o : option A) (Φ : A → S → Prop) w : wp (of_option o) Φ w ↔ ∃ a, o = Some a ∧ Φ a w.
Proof. unfold wp, of_option. destruct o; cbn; naive_solver. Qed.
Lemma wp_semit e Φ w : wp (semit e) Φ w ↔ Φ tt (set_s_out (s_out w ++ [e]) w).
Proof. done. Qed.
Lemma wp_get_scope s sc Φ w : scopes w !! s = Some sc → Φ sc w → wp (get_scope s) Φ w.
Proof. intros Hs HΦ. unfold get_scope. wp_simpl. rewrite wp_option. eauto. Qed.
Lemma wp_upd_scope s sc f Φ w : scopes w !! s = Some sc →
  Φ tt (set_scopes (<[s := f sc]> (scopes w)) w) → wp (upd_scope s f) Φ w.
Proof. intros Hs HΦ. unfold upd_scope. wp_simpl. by eapply wp_get_scope. Qed.
Lemma wp_get_routine c co Φ w : routines w !! c = Some co → Φ co w → wp (get_routine c) Φ w.
Proof. intros Hs HΦ. unfold get_routine. wp_simpl. rewrite wp_option. eauto. Qed.
Lemma wp_upd_routine c co f Φ w : routines w !! c = Some co →
  Φ tt (set_routines (<[c := f co]> (routines w)) w) → wp (upd_routine c f) Φ w.
Proof. intros Hs HΦ. unfold upd_routine. wp_simpl. by eapply wp_get_routine. Qed.

Lemma Ok_out w e : Tree w → Ok w (set_s_out (s_out w ++ [e]) w).
Proof.
  intros T. split; [by destruct T|]. constructor; cbn; [intros s sc Hs; by exists sc|intros c co Hc; by exists co|done..|].
  by apply prefix_app_r.
Qed.
Lemma Ok_eg w b : Tree w → Ok w (set_eg b w).
Proof.
  intros T. split; [by destruct T|]. constructor; cbn; [intros s sc Hs; by exists sc|intros c co Hc; by exists co|done..].
Qed.
Lemma Ok_routine w c co co' : Tree w → routines w !! c = Some co → co_scope co' = co_scope co →
  co_zombie co' = co_zombie co → (co_finished co' = false → co_finished co = false) → (hit co = true → hit co' = true) →
  Ok w (set_routines (<[c := co']> (routines w)) w).
Proof.
  intros T Hc Hsc Hz Hf Hh. split.
  - destruct T. constructor; cbn; [done| |done|done|by eapply Counted_routine].
    intros x xc [[<- <-]|[_ Hx]]%lookup_insert_Some; eauto.
  - constructor; cbn; [intros s sc Hs; by exists sc| |done..].
    intros x xc Hx. destruct (decide (x = c)) as [->|Hne]; [|exists xc; by rewrite lookup_insert_ne].
    simplify_eq. exists co'. rewrite lookup_insert_eq. split_and!; [done..|].
    destruct (co_finished co'); naive_solver.
Qed.

(** A coroutine becomes a zombie: its scope moves it from one count to the other. *)
Lemma Counted_zombie m rs c co s sc : Counted m rs → rs !! c = Some co → m !! s = Some sc →
  c ∈ coroutines sc → co_zombie co = false → (Z.of_nat (length (coroutines sc)) < 2 ^ 32)%Z →
  (0 < active_coroutines_count sc)%Z ∧
  Counted (<[s := set_zombie (u32 (zombie_coroutines_count sc + 1))
                    (set_active (u32 (active_coroutines_count sc - 1)) sc)]> m)
    (<[c := set_co_zombie true co]> rs).
Proof.
  intros C Hc Hs Hin Hz Hlen. pose proof (c_active _ _ C _ _ Hs) as Ha. pose proof (c_zombie _ _ C _ _ Hs) as Hzo.
  assert (is_zombie rs c = false) as Hzc by (unfold is_zombie; by rewrite Hc).
  assert (0 < active_coroutines_count sc)%Z as Hpos by (rewrite Ha, <- Hzc; by apply members_pos).
  split; [done|]. pose proof (members_total rs (coroutines sc)). pose proof (members_nonneg true rs (coroutines sc)).
  set (rs' := <[c := set_co_zombie true co]> rs).
  assert (∀ x, x ≠ c → is_zombie rs' x = is_zombie rs x) as Hother.
  { intros x Hne. unfold rs'. rewrite is_zombie_insert. by rewrite decide_False by congruence. }
  destruct (members_zombified rs rs' (coroutines sc) c) as [Hf Ht]; [by eapply c_nodup|done|done| |done|].
  { unfold rs'. rewrite is_zombie_insert. by rewrite decide_True. }
  assert (∀ x xc z, s ≠ x → m !! x = Some xc → members z rs' (coroutines xc) = members z rs (coroutines xc)) as Hms.
  { intros x xc z Hne Hx. apply members_ext. intros y Hy. apply Hother. intros ->.
    destruct (c_member _ _ C _ _ _ Hx Hy) as (co1 & Hco1 & ?).
    destruct (c_member _ _ C _ _ _ Hs Hin) as (co2 & Hco2 & ?). congruence. }
  constructor.
  - intros x xc [[<- <-]|[_ Hx]]%lookup_insert_Some; cbn; by eapply c_nodup.
  - intros x xc y Hx Hy. assert (∃ xc0, m !! x = Some xc0 ∧ y ∈ coroutines xc0) as (xc0 & Hx0 & Hy0).
    { apply lookup_insert_Some in Hx as [[<- <-]|[_ Hx]]; eauto. }
    destruct (c_member _ _ C _ _ _ Hx0 Hy0) as (yc & Hyc & Hys). unfold rs'.
    destruct (decide (y = c)) as [->|Hne]; [|exists yc; by rewrite lookup_insert_ne].
    simplify_eq. eexists. rewrite lookup_insert_eq. done.
  - intros y yc x Hy Hx Hfin. assert (∃ yc0, rs !! y = Some yc0 ∧ co_scope yc0 = Some x ∧ co_finished yc0 = false)
      as (yc0 & Hy0 & Hx0 & Hf0).
    { apply lookup_insert_Some in Hy as [[<- <-]|[_ Hy]]; eauto. }
    destruct (c_scope _ _ C _ _ _ Hy0 Hx0 Hf0) as (xc & Hxc & Hxin).
    destruct (decide (x = s)) as [->|Hne]; [|exists xc; by rewrite lookup_insert_ne].
    simplify_eq. eexists. by rewrite lookup_insert_eq.
  - intros x xc [[<- <-]|[Hne Hx]]%lookup_insert_Some; cbn; [|rewrite (Hms x xc _ Hne Hx); by eapply c_active].
    rewrite Hf, u32_small by lia. lia.
  - intros x xc [[<- <-]|[Hne Hx]]%lookup_insert_Some; cbn; [|rewrite (Hms x xc _ Hne Hx); by eapply c_zombie].
    rewrite Ht, u32_small by lia. lia.
Qed.
Lemma Ok_zombie w c co s sc : Tree w → routines w !! c = Some co → scopes w !! s = Some sc → c ∈ coroutines sc →
  co_zombie co = false →
  Ok w (set_scopes (<[s := if (0 <? active_coroutines_count sc)%Z
                           then set_zombie (u32 (zombie_coroutines_count sc + 1))
                                  (set_active (u32 (active_coroutines_count sc - 1)) sc)
                           else sc]> (scopes w))
          (set_routines (<[c := set_co_zombie true co]> (routines w)) w)).
Proof.
  intros T Hc Hs Hin Hz. destruct (Tree_counts _ _ _ T Hs) as (_ & _ & _ & Hlen).
  destruct (Counted_zombie _ _ c co s sc (t_counted _ T) Hc Hs Hin Hz Hlen) as [Hpos C].
  rewrite (proj2 (Z.ltb_lt _ _) Hpos). set (sc' := set_zombie _ _) in *.
  pose proof (with_finally_same _ _ _ sc' Hs (or_intror eq_refl)) as Hwf. split.
  - destruct T. constructor; cbn; [| |lia|by eapply Links_update|done].
    + intros x xc [[<- <-]|[_ Hx]]%lookup_insert_Some; eauto.
    + intros x xc [[<- <-]|[_ Hx]]%lookup_insert_Some; eauto.
  - constructor; cbn; [| |unfold scope_potential; cbn; lia|lia|done].
    + intros x xc Hx. destruct (decide (x = s)) as [->|Hne]; [|exists xc; by rewrite lookup_insert_ne].
      simplify_eq. exists sc'. rewrite lookup_insert_eq. split; [done|]. constructor; cbn; auto.
    + intros y yc Hy. destruct (decide (y = c)) as [->|Hne]; [|exists yc; by rewrite lookup_insert_ne].
      simplify_eq. eexists. by rewrite lookup_insert_eq.
Qed.

(** ** Creation *)
Lemma fresh_scope_none w : Tree w → scopes w !! next_scope w = None.
Proof. intros T. destruct (scopes w !! next_scope w) eqn:Hl; [|done]. apply (t_next _ T) in Hl. lia. Qed.

Lemma Links_fresh m n sc : Links m → m !! n = None → child_scopes sc = [] → parent_scope sc = None →
  Links (<[n := sc]> m).
Proof.
  intros L Hn Hch Hp. constructor.
  - intros x xc c [[<- <-]|[_ Hx]]%lookup_insert_Some Hc; [rewrite Hch in Hc; by apply not_elem_of_nil in Hc|].
    destruct (l_child _ L _ _ _ Hx Hc) as (? & csc & ? & ?). split; [done|]. exists csc.
    rewrite lookup_insert_ne; [done|congruence].
  - intros x xc p [[<- <-]|[_ Hx]]%lookup_insert_Some Hxp; [congruence|].
    destruct (l_parent _ L _ _ _ Hx Hxp) as (? & psc & ? & ?). split; [done|]. exists psc.
    rewrite lookup_insert_ne; [done|congruence].
  - intros x xc [[<- <-]|[_ Hx]]%lookup_insert_Some; [rewrite Hch; apply NoDup_nil_2|by eapply l_nodup].
Qed.
Lemma Links_child m p psc n sc l : Links m → m !! p = Some psc → m !! n = None → p < n →
  child_scopes sc = [] → parent_scope sc = Some p → l ≡ₚ n :: child_scopes psc →
  Links (<[p := set_child_scopes l psc]> (<[n := sc]> m)).
Proof.
  intros L Hp Hn Hlt Hch Hsp Hl.
  assert (∀ x xc, m !! x = Some xc → ∃ xc', <[p := set_child_scopes l psc]> (<[n := sc]> m) !! x = Some xc' ∧
            parent_scope xc' = parent_scope xc ∧ ∀ c, c ∈ child_scopes xc → c ∈ child_scopes xc') as Hforth.
  { intros x xc Hx. destruct (decide (x = p)) as [->|Hne].
    - simplify_eq. rewrite lookup_insert_eq. eexists. split; [done|]. split; [done|]. intros c Hc. cbn.
      rewrite Hl. by right.
    - exists xc. rewrite !lookup_insert_ne by congruence. done. }
  constructor.
  - intros x xc c [[<- <-]|[Hne [[<- <-]|[_ Hx]]%lookup_insert_Some]]%lookup_insert_Some Hc.
    + cbn in Hc. rewrite Hl in Hc. apply elem_of_cons in Hc as [->|Hc].
      * split; [done|]. exists sc. rewrite lookup_insert_ne, lookup_insert_eq by lia. done.
      * destruct (l_child _ L _ _ _ Hp Hc) as (? & csc & Hcs & Hpc). split; [done|].
        destruct (Hforth _ _ Hcs) as (csc' & ? & Hpc' & _). exists csc'. by rewrite Hpc'.
    + rewrite Hch in Hc. by apply not_elem_of_nil in Hc.
    + destruct (l_child _ L _ _ _ Hx Hc) as (? & csc & Hcs & Hpc). split; [done|].
      destruct (Hforth _ _ Hcs) as (csc' & ? & Hpc' & _). exists csc'. by rewrite Hpc'.
  - intros x xc q [[<- <-]|[Hne [[<- <-]|[_ Hx]]%lookup_insert_Some]]%lookup_insert_Some Hq.
    + cbn in Hq. destruct (l_parent _ L _ _ _ Hp Hq) as (? & qsc & Hqs & Hin). split; [done|].
      destruct (Hforth _ _ Hqs) as (qsc' & ? & _ & ?). eauto.
    + assert (q = p) as -> by congruence. split; [done|]. eexists. rewrite lookup_insert_eq. split; [done|]. cbn.
      rewrite Hl. by left.
    + destruct (l_parent _ L _ _ _ Hx Hq) as (? & qsc & Hqs & Hin). split; [done|].
      destruct (Hforth _ _ Hqs) as (qsc' & ? & _ & ?). eauto.
  - intros x xc [[<- <-]|[Hne [[<- <-]|[_ Hx]]%lookup_insert_Some]]%lookup_insert_Some.
    + cbn. rewrite Hl. apply NoDup_cons. split; [|by eapply l_nodup]. intros Hin.
      destruct (l_child _ L _ _ _ Hp Hin) as (_ & ? & ? & _). congruence.
    + rewrite Hch. apply NoDup_nil_2.
    + by eapply l_nodup.
Qed.
Lemma Counted_fresh m rs n sc : Counted m rs → m !! n = None → coroutines sc = [] →
  active_coroutines_count sc = 0%Z → zombie_coroutines_count sc = 0%Z → Counted (<[n := sc]> m) rs.
Proof.
  intros [] Hn Hco Ha Hz. constructor.
  - intros x xc [[<- <-]|[_ Hx]]%lookup_insert_Some; [rewrite Hco; apply NoDup_nil_2|eauto].
  - intros x xc c [[<- <-]|[_ Hx]]%lookup_insert_Some Hc; [rewrite Hco in Hc; by apply not_elem_of_nil in Hc|eauto].
  - intros c co x Hc Hx Hf. destruct (c_scope0 _ _ _ Hc Hx Hf) as (xc & Hxc & Hin). exists xc. split; [|done].
    rewrite lookup_insert_ne; [done|congruence].
  - intros x xc [[<- <-]|[_ Hx]]%lookup_insert_Some; [by rewrite Ha, Hco|eauto].
  - intros x xc [[<- <-]|[_ Hx]]%lookup_insert_Some; [by rewrite Hz, Hco|eauto].
Qed.

Definition fresh_scope (parent : option nat) (safely with_object : bool) : async_scope_t :=
  mk_scope false false false safely false false false 1 parent [] [] 0 0 false false with_object [].

Lemma Tree_root w safely obj : Tree w →
  Tree (set_scopes (<[next_scope w := fresh_scope None safely obj]> (scopes w)) (set_next_scope (S (next_scope w)) w)).
Proof.
  intros T. pose proof (fresh_scope_none _ T) as Hnew. destruct T. constructor; cbn.
  - intros x xc [[<- <-]|[_ Hx]]%lookup_insert_Some; [lia|]. apply t_next0 in Hx. lia.
  - done.
  - by rewrite with_finally_fresh.
  - by apply Links_fresh.
  - by apply Counted_fresh.
Qed.
Lemma Tree_new_child w p psc safely obj l : Tree w → scopes w !! p = Some psc → l ≡ₚ next_scope w :: child_scopes psc →
  Tree (set_scopes (<[p := set_child_scopes l psc]> (<[next_scope w := fresh_scope (Some p) safely obj]> (scopes w)))
          (set_next_scope (S (next_scope w)) w)).
Proof.
  intros T Hp Hl. pose proof (fresh_scope_none _ T) as Hnew. pose proof (t_next _ T _ _ Hp) as Hlt.
  assert (<[next_scope w := fresh_scope (Some p) safely obj]> (scopes w) !! p = Some psc) as Hp'.
  { by rewrite lookup_insert_ne by lia. }
  destruct T. constructor; cbn.
  - intros x xc [[<- <-]|[_ [[<- <-]|[_ Hx]]%lookup_insert_Some]]%lookup_insert_Some; [lia..|]. apply t_next0 in Hx. lia.
  - done.
  - pose proof (with_finally_same _ _ _ (set_child_scopes l psc) Hp' (or_intror eq_refl)) as Hwf.
    rewrite (with_finally_fresh (scopes w)) in Hwf by done. lia.
  - by apply Links_child.
  - eapply Counted_update; [exact Hp'|done..|]. by apply Counted_fresh.
Qed.

(** A new coroutine [c] in the scope [s]. *)
Lemma Counted_spawn m rs s sc c co : Counted m rs → m !! s = Some sc → rs !! c = None →
  co_scope co = Some s → co_zombie co = false → (Z.of_nat (S (length (coroutines sc))) < 2 ^ 32)%Z →
  Counted (<[s := set_active (u32 (active_coroutines_count sc + 1)) (set_coroutines (coroutines sc ++ [c]) sc)]> m)
    (<[c := co]> rs).
Proof.
  intros C Hs Hnone Hco Hz Hlen.
  assert (∀ x xc, m !! x = Some xc → c ∉ coroutines xc) as Hfresh.
  { intros x xc Hx Hin. destruct (c_member _ _ C _ _ _ Hx Hin) as (co' & Hl & _). congruence. }
  assert (∀ x xc z, m !! x = Some xc → members z (<[c := co]> rs) (coroutines xc) = members z rs (coroutines xc)) as Hms.
  { intros x xc z Hx. apply members_ext. intros y Hy. rewrite is_zombie_insert, decide_False; [done|].
    intros <-. by eapply Hfresh. }
  pose proof (members_total rs (coroutines sc)). pose proof (members_nonneg true rs (coroutines sc)).
  pose proof (members_nonneg false rs (coroutines sc)). constructor.
  - intros x xc [[<- <-]|[_ Hx]]%lookup_insert_Some; cbn; [|by eapply c_nodup]. apply NoDup_app.
    split_and!; [by eapply c_nodup| |apply NoDup_singleton]. intros y Hy ->%list_elem_of_singleton. by eapply Hfresh.
  - intros x xc y [[<- <-]|[_ Hx]]%lookup_insert_Some Hy; cbn in Hy.
    + apply elem_of_app in Hy as [Hy| ->%list_elem_of_singleton]; [|exists co; by rewrite lookup_insert_eq].
      destruct (c_member _ _ C _ _ _ Hs Hy) as (yc & Hyc & Hys). exists yc. rewrite lookup_insert_ne; [done|congruence].
    + destruct (c_member _ _ C _ _ _ Hx Hy) as (yc & Hyc & Hys). exists yc. rewrite lookup_insert_ne; [done|congruence].
  - intros y yc x [[<- <-]|[_ Hy]]%lookup_insert_Some Hx Hf.
    + rewrite Hco in Hx. simplify_eq. eexists. rewrite lookup_insert_eq. split; [done|]. cbn. set_solver.
    + destruct (c_scope _ _ C _ _ _ Hy Hx Hf) as (xc & Hxc & Hin).
      destruct (decide (x = s)) as [->|Hne]; [|exists xc; by rewrite lookup_insert_ne].
      simplify_eq. eexists. rewrite lookup_insert_eq. split; [done|]. cbn. set_solver.
  - intros x xc [[<- <-]|[_ Hx]]%lookup_insert_Some; cbn; [|rewrite (Hms _ _ _ Hx); by eapply c_active].
    rewrite members_app, (Hms _ _ _ Hs), members_cons, members_nil, is_zombie_insert, decide_True, Hz by done.
    cbn [Bool.eqb Z.b2z]. rewrite (c_active _ _ C _ _ Hs), u32_small; lia.
  - intros x xc [[<- <-]|[_ Hx]]%lookup_insert_Some; cbn; [|rewrite (Hms _ _ _ Hx); by eapply c_zombie].
    rewrite members_app, (Hms _ _ _ Hs), members_cons, members_nil, is_zombie_insert, decide_True, Hz by done.
    cbn [Bool.eqb Z.b2z]. rewrite (c_zombie _ _ C _ _ Hs). lia.
Qed.
Lemma Tree_spawn w s sc co : Tree w → scopes w !! s = Some sc → co_scope co = Some s → co_zombie co = false →
  (Z.of_nat (S (next_routine w) + with_finally (scopes w)) < 2 ^ 32)%Z →
  Tree (set_scopes (<[s := set_active (u32 (active_coroutines_count sc + 1))
                            (set_coroutines (coroutines sc ++ [next_routine w]) sc)]> (scopes w))
         (set_routines (<[next_routine w := co]> (routines w)) (set_next_routine (S (next_routine w)) w))).
Proof.
  intros T Hs Hco Hz Hsmall. pose proof (Tree_bound _ _ _ T Hs).
  assert (routines w !! next_routine w = None) as Hnone.
  { destruct (routines w !! next_routine w) eqn:Hl; [|done]. apply (t_routines _ T) in Hl. lia. }
  pose proof T as []. constructor; cbn.
  - intros x xc [[<- <-]|[_ Hx]]%lookup_insert_Some; eauto.
  - intros y yc [[<- <-]|[_ Hy]]%lookup_insert_Some; [lia|]. apply t_routines0 in Hy. lia.
  - match goal with |- context [with_finally (<[s := ?sc']> _)] =>
      pose proof (with_finally_same _ _ _ sc' Hs (or_intror eq_refl)) end. lia.
  - by eapply Links_update.
  - apply Counted_spawn; [done..|lia].
Qed.

(** ** What a cancellation reaches *)

(** The scope and its ancestors. *)
Inductive Above (w : sworld) : nat → nat → Prop :=
| above_self s : Above w s s
| above_parent s sc p x : scopes w !! s = Some sc → parent_scope sc = Some p → Above w p x → Above w s x.

Lemma Above_mono w w' s x : Mono w w' → Above w s x → Above w' s x.
Proof.
  intros Mo. induction 1 as [|s sc p x Hs Hp _ IH]; [constructor|].
  destruct (m_scopes _ _ Mo _ _ Hs) as (sc' & Hs' & G). eapply above_parent; [done| |done].
  by rewrite (g_parent _ _ G).
Qed.

(** The loop of [scope_catch_or_cancel] over the coroutines. *)
Lemma cancel_routines_loop (f : nat → SM unit) l w0 w :
  Ok w0 w → (∀ c w1, c ∈ l → Ok w0 w1 → wp (f c) (λ _ w2, Ok w1 w2 ∧ ∃ co, routines w2 !! c = Some co ∧ hit co = true) w1) →
  wp ((fix cancel l := match l with [] => mret tt | c :: l => f c;; cancel l end) l)
    (λ _ w', Ok w w' ∧ ∀ c, c ∈ l → ∃ co, routines w' !! c = Some co ∧ hit co = true) w.
Proof.
  revert w. induction l as [|c l IH]; intros w O Hf.
  { rewrite wp_ret. split; [apply Ok_refl, O|]. intros c Hc. by apply not_elem_of_nil in Hc. }
  rewrite wp_bind. eapply wp_mono; [apply Hf; [left|done]|]. cbn beta. intros _ w1 (O1 & co & Hc & Hh).
  eapply wp_mono; [apply IH; [by eapply Ok_trans|intros; apply Hf; [by right|done]]|].
  cbn beta. intros _ w3 [O3 S3]. split; [by eapply Ok_trans|]. intros d [->|Hd]%elem_of_cons; [|auto].
  destruct (m_routines _ _ (proj2 O3) _ _ Hc) as (co' & ? & _ & ? & _). eauto.
Qed.

Section specs.
Context `{!ScopeMacros, !ScopeMacrosSpec} (env : scope_env).

Lemma scope_fuel_potential w : scope_potential w < scope_fuel w.
Proof. unfold scope_potential, scope_fuel. pose proof (with_finally_le (scopes w)). lia. Qed.
Lemma Tree_potential w s sc : Tree w → scopes w !! s = Some sc → s < scope_potential w.
Proof. intros T Hs. pose proof (t_next _ T _ _ Hs). unfold scope_potential. lia. Qed.

Lemma rest_spec s zombies w Φ : Tree w → is_Some (scopes w !! s) →
  (∀ b, (b = true ↔ AtRest (scopes w) zombies s) → Φ b w) → wp (can_be_disposed s zombies false) Φ w.
Proof.
  intros T Hs HΦ. unfold can_be_disposed. wp_simpl. rewrite wp_option.
  destruct (can_be_disposed_rest w (scope_fuel w) s zombies T Hs) as (b & Hb & HP); [unfold scope_fuel; lia|].
  exists b. auto.
Qed.
Lemma completely_done_spec s w Φ : Tree w → is_Some (scopes w !! s) →
  (∀ b, (b = true ↔ AtRest (scopes w) true s) → Φ b w) → wp (SCOPE_IS_COMPLETELY_DONE s) Φ w.
Proof. unfold SCOPE_IS_COMPLETELY_DONE. rewrite completely_done_args_spec. apply rest_spec. Qed.

Lemma notify_spec s e w : Tree w → is_Some (scopes w !! s) → wp (scope_notify env s e) (λ _, Ok w) w.
Proof.
  intros T [sc Hs]. unfold scope_notify. rewrite wp_bind, wp_semit.
  pose proof (Ok_out w (Notified s e) T) as O1. set (w1 := set_s_out _ w) in *. rewrite wp_bind.
  eapply (wp_mono _ (λ _, Ok w)).
  - case_match; [|done]. apply (wp_upd_scope s sc); [done|]. eapply Ok_trans; [exact O1|].
    apply (Ok_plain w1 s sc); [apply O1|done|]. constructor; try done; [constructor; auto|auto].
  - intros _ w2 O2. case_match; [|done]. rewrite wp_modify. eapply Ok_trans; [exact O2|]. apply Ok_eg, O2.
Qed.

Lemma check_completion_spec fuel s zombies w : Tree w → is_Some (scopes w !! s) → s < fuel →
  wp (check_completion_and_notify env fuel s zombies) (λ _, Ok w) w.
Proof.
  revert s w. induction fuel as [|fuel IH]; intros s w T Hs Hf; [lia|]. cbn [check_completion_and_notify].
  rewrite wp_bind. apply rest_spec; [done..|]. intros b _. destruct b; [|by apply Ok_refl].
  rewrite wp_bind. eapply wp_mono; [by apply notify_spec|]. cbn beta. intros _ w1 O1.
  destruct Hs as [sc Hs]. destruct (m_scopes _ _ (proj2 O1) _ _ Hs) as (sc1 & Hs1 & G1).
  rewrite wp_bind. eapply wp_get_scope; [exact Hs1|]. destruct (parent_scope sc1) as [p|] eqn:Hp; [|done].
  destruct (t_parent _ (proj1 O1) _ _ _ Hs1 Hp) as (Hlt & psc & Hps & _).
  eapply wp_mono; [apply IH; [apply O1|by exists psc|lia]|]. cbn beta. intros _ w2 O2. by eapply Ok_trans.
Qed.

Lemma mark_zombie_spec c co s w : Tree w → routines w !! c = Some co → co_scope co = Some s → co_finished co = false →
  wp (async_scope_mark_coroutine_zombie env c) (λ _, Ok w) w.
Proof.
  intros T Hc Hcs Hfin. destruct (c_scope _ _ (t_counted _ T) _ _ _ Hc Hcs Hfin) as (sc & Hs & Hin).
  unfold async_scope_mark_coroutine_zombie. rewrite wp_bind. eapply wp_get_routine; [exact Hc|].
  rewrite wp_bind, wp_option. exists s. split; [done|]. destruct (co_zombie co) eqn:Hz; [by apply Ok_refl|].
  rewrite wp_bind. eapply wp_upd_routine; [exact Hc|]. rewrite wp_bind.
  eapply (wp_upd_scope s sc); [exact Hs|].
  set (w1 := set_scopes _ _). assert (Ok w w1) as O1 by exact (Ok_zombie w c co s sc T Hc Hs Hin Hz).
  unfold scope_check_completion_and_notify. wp_simpl.
  eapply wp_mono; [apply check_completion_spec|].
  - apply O1.
  - subst w1. cbn. apply lookup_insert_is_Some'. auto.
  - pose proof (scope_fuel_potential w1). destruct (m_scopes _ _ (proj2 O1) _ _ Hs) as (sc1 & Hs1 & _).
    pose proof (Tree_potential _ _ _ (proj1 O1) Hs1). lia.
  - cbn beta. intros _ w2 O2. by eapply Ok_trans.
Qed.

Lemma enqueue_spec c co w : Tree w → routines w !! c = Some co → wp (scheduler_enqueue c) (λ _, Ok w) w.
Proof.
  intros T Hc. unfold scheduler_enqueue. rewrite wp_bind. eapply wp_get_routine; [exact Hc|].
  case_match; [by apply Ok_refl|]. rewrite wp_bind. eapply wp_upd_routine; [exact Hc|]. rewrite wp_semit.
  assert (Ok w (set_routines (<[c := set_co_queued true co]> (routines w)) w)) as O by by apply (Ok_routine w c co).
  eapply Ok_trans; [exact O|]. apply (Ok_out (set_routines _ w)), O.
Qed.
Lemma apply_cancellation_spec c co w : Tree w → routines w !! c = Some co → wp (apply_cancellation c) (λ _, Ok w) w.
Proof.
  intros T Hc. unfold apply_cancellation. rewrite wp_bind. eapply wp_upd_routine; [exact Hc|]. rewrite wp_semit.
  assert (Ok w (set_routines (<[c := set_co_waker_cancelled true co]> (routines w)) w)) as O by by apply (Ok_routine w c co).
  eapply Ok_trans; [exact O|]. apply (Ok_out (set_routines _ w)), O.
Qed.

Lemma coroutine_cancel_spec c co s safely w : Tree w → routines w !! c = Some co → co_scope co = Some s →
  wp (async_coroutine_cancel env c safely)
    (λ _ w', Ok w w' ∧ ∃ co', routines w' !! c = Some co' ∧ hit co' = true) w.
Proof.
  intros T Hc Hcs. unfold async_coroutine_cancel. wp_simpl. eapply wp_get_routine; [exact Hc|].
  destruct (co_finished co) eqn:Hfin.
  { split; [by apply Ok_refl|]. exists co. unfold hit. by rewrite Hfin. }
  assert (∀ co1, co_scope co1 = co_scope co → co_zombie co1 = co_zombie co → co_finished co1 = co_finished co → hit co1 = true →
    let w1 := set_routines (<[c := co1]> (routines w)) w in
    Ok w w1 ∧ routines w1 !! c = Some co1) as Hset.
  { intros co1 H1 H2 H3 H4. split; [apply (Ok_routine w c co); [done..|congruence|done]|]. cbn. by rewrite lookup_insert_eq. }
  case_bool_decide.
  { eapply wp_upd_routine; [exact Hc|]. destruct (Hset (set_co_cancelled true co)) as [O Hl];
      [done..|unfold hit; cbn; by rewrite orb_true_r|]. split; [done|]. eexists. split; [exact Hl|].
    unfold hit. cbn. by rewrite orb_true_r. }
  case_match.
  { eapply wp_upd_routine; [exact Hc|]. destruct (Hset (set_co_deferred true co)) as [O Hl];
      [done..|unfold hit; cbn; by rewrite orb_true_r|]. split; [done|]. eexists. split; [exact Hl|].
    unfold hit. cbn. by rewrite orb_true_r. }
  wp_simpl. eapply wp_upd_routine; [exact Hc|].
  destruct (Hset (set_co_cancelled true co)) as [O Hl]; [done..|unfold hit; cbn; by rewrite orb_true_r|].
  set (w1 := set_routines _ w) in *.
  eapply (wp_mono _ (λ _, Ok w1)).
  2:{ intros _ w2 O2. split; [by eapply Ok_trans|]. destruct (m_routines _ _ (proj2 O2) _ _ Hl) as (co2 & Hl2 & _ & Hh & _).
      exists co2. split; [done|]. apply Hh. unfold hit. cbn. by rewrite orb_true_r. }
  clear Hset. clearbody w1. pose proof (proj1 O) as T1.
  assert (∀ w2 m Φ, Ok w1 w2 → (∀ co2 w', Tree w' → routines w' !! c = Some co2 → wp m (λ _, Ok w') w') →
    (∀ w3, Ok w1 w3 → Φ tt w3) → wp m Φ w2) as Hthen.
  { intros w2 m Φ O2 Hm HΦ. destruct (m_routines _ _ (proj2 O2) _ _ Hl) as (co2 & Hl2 & _).
    eapply wp_mono; [eapply Hm; [apply O2|exact Hl2]|]. cbn beta. intros [] w3 O3. apply HΦ. by eapply Ok_trans. }
  case_match.
  - wp_simpl. eapply (wp_mono _ (λ _, Ok w1)).
    { case_match; [|by apply Ok_refl]. by eapply enqueue_spec. }
    intros _ w2 O2. wp_simpl. eapply Hthen; [done|intros; by eapply apply_cancellation_spec|].
    intros w3 O3. eapply Hthen; [done|intros; by eapply enqueue_spec|done].
  - case_match.
    + wp_simpl. eapply wp_mono; [eapply mark_zombie_spec; [done|exact Hl|done..]|]. cbn beta. intros _ w2 O2.
      rewrite wp_semit. eapply Ok_trans; [exact O2|]. apply Ok_out, O2.
    + wp_simpl. eapply (wp_mono _ (λ _, Ok w1)).
      { case_match; [by apply Ok_refl|]. by eapply apply_cancellation_spec. }
      intros _ w2 O2. eapply Hthen; [done|intros; by eapply enqueue_spec|done].
Qed.

(** ** New scopes and coroutines *)
Lemma new_child_spec p psc obj w Φ : Tree w → scopes w !! p = Some psc →
  (∀ w', Tree w' → routines w' = routines w → next_routine w' = next_routine w → s_out w' = s_out w →
     next_scope w' = S (next_scope w) → current w' = current w → eg_exception w' = eg_exception w →
     scopes w' = <[p := set_child_scopes (scope_add_child (next_scope w) (child_scopes psc)) psc]>
                   (<[next_scope w := fresh_scope (Some p) (sc_safely psc) obj]> (scopes w)) →
     Φ (next_scope w) w') →
  wp (async_new_scope (Some p) obj) Φ w.
Proof.
  intros T Hp HΦ. pose proof (t_next _ T _ _ Hp) as Hlt. unfold async_new_scope. wp_simpl.
  eapply wp_get_scope; [exact Hp|]. rewrite wp_ret. wp_simpl.
  eapply (wp_upd_scope p psc); [cbn; rewrite lookup_insert_ne by lia; done|]. rewrite wp_ret.
  apply HΦ; try done. apply (Tree_new_child w p psc); [done..|]. apply scope_add_child_spec.
Qed.

Lemma spawn_spec s sc w Φ : Tree w → scopes w !! s = Some sc → sc_closed sc = false →
  (Z.of_nat (S (next_routine w) + with_finally (scopes w)) < 2 ^ 32)%Z →
  (∀ w' co, Tree w' → s_out w' = s_out w → next_scope w' = next_scope w → current w' = current w →
     eg_exception w' = eg_exception w → next_routine w' = S (next_routine w) →
     routines w' = <[next_routine w := co]> (routines w) →
     scopes w' = <[s := set_active (u32 (active_coroutines_count sc + 1))
                          (set_coroutines (coroutines sc ++ [next_routine w]) sc)]> (scopes w) →
     Φ (Some (next_routine w)) w') →
  wp (spawn_in_scope s) Φ w.
Proof.
  intros T Hs Hc Hsm HΦ. unfold spawn_in_scope. wp_simpl. eapply wp_get_scope; [exact Hs|]. rewrite Hc. wp_simpl.
  unfold async_scope_add_coroutine. wp_simpl. eapply (wp_upd_scope s sc); [done|]. wp_simpl.
  eapply wp_upd_routine; [cbn; by rewrite lookup_insert_eq|]. wp_simpl.
  eapply wp_get_routine; [cbn; by rewrite lookup_insert_eq|]. cbn [co_zombie set_co_scope].
  eapply wp_upd_scope; [cbn; by rewrite lookup_insert_eq|]. rewrite wp_ret.
  match goal with |- Φ _ ?w' => set (w2 := w') end.
  assert (w2 = set_scopes (<[s := set_active (u32 (active_coroutines_count sc + 1))
                            (set_coroutines (coroutines sc ++ [next_routine w]) sc)]> (scopes w))
         (set_routines (<[next_routine w := mk_coroutine (Some s) false false false false false false true false]>
            (routines w)) (set_next_routine (S (next_routine w)) w))) as ->.
  { unfold w2, set_scopes, set_routines, set_next_routine. cbn. by rewrite !insert_insert_eq. }
  eapply HΦ; try done. by apply Tree_spawn.
Qed.

Lemma finally_call_spec s sc w : Tree w → scopes w !! s = Some sc → sc_closed sc = true →
  wp (async_scope_call_finally_handlers env s) (λ _ w', Ok w w' ∧
    ∀ x xc, x ≠ s → scopes w !! x = Some xc → scopes w' !! x = Some xc) w.
Proof.
  intros T Hs Hc. unfold async_scope_call_finally_handlers. wp_simpl. eapply wp_get_scope; [exact Hs|].
  case_bool_decide as Hf; [split; [by apply Ok_refl|done]|]. wp_simpl. eapply (wp_upd_scope s sc); [exact Hs|].
  assert (plain sc (set_finally_handlers [] sc)) as Hpl.
  { constructor; try done; [constructor; auto|by left]. }
  pose proof (Ok_plain w s sc _ T Hs Hpl) as O1. set (w1 := set_scopes _ w) in *.
  assert (S (with_finally (scopes w1)) = with_finally (scopes w)) as Hwf by by eapply with_finally_cleared.
  assert (scopes w1 !! s = Some (set_finally_handlers [] sc)) as Hs1 by (cbn; by rewrite lookup_insert_eq).
  assert (∀ x xc, x ≠ s → scopes w !! x = Some xc → scopes w1 !! x = Some xc) as Hx1.
  { intros x xc Hne Hx. cbn. by rewrite lookup_insert_ne. }
  case_match; [done|]. wp_simpl. eapply (new_child_spec s); [apply O1|exact Hs1|].
  intros w2 T2 Hr2 Hnr2 Ho2 Hn2 Hcu2 Heg2 Hsc2. wp_simpl.
  pose proof (t_next _ T _ _ Hs) as Hlt.
  assert (next_scope w1 = next_scope w) as Hn1 by done.
  assert (scopes w1 !! next_scope w1 = None) as Hnone.
  { destruct (scopes w1 !! next_scope w1) eqn:Hl; [|done]. apply (t_next _ (proj1 O1)) in Hl. lia. }
  assert (with_finally (scopes w2) ≤ with_finally (scopes w1)) as Hwf2.
  { rewrite Hsc2. etrans; [eapply with_finally_same; [rewrite lookup_insert_ne by lia; exact Hs1|by right]|].
    by rewrite with_finally_fresh. }
  assert (scopes w2 !! next_scope w1 = Some (fresh_scope (Some s) (sc_safely sc) false)) as Hs2.
  { rewrite Hsc2, lookup_insert_ne by lia. by rewrite lookup_insert_eq. }
  eapply spawn_spec; [done|exact Hs2|done| |].
  { rewrite Hnr2. cbn. pose proof (t_small _ T). lia. }
  intros w3 co T3 Ho3 Hn3 Hcu3 Heg3 Hnr3 Hr3 Hsc3. wp_simpl.
  assert (∃ sc3, scopes w3 !! s = Some sc3 ∧ grows sc sc3) as (sc3 & Hs3 & G3).
  { rewrite Hsc3, lookup_insert_ne, Hsc2, lookup_insert_eq by lia. eexists. split; [done|]. constructor; cbn; auto. }
  assert (with_finally (scopes w3) ≤ with_finally (scopes w2)) as Hwf3.
  { rewrite Hsc3. eapply with_finally_same; [exact Hs2|by right]. }
  assert (Ok w w3) as O3.
  { split; [done|]. constructor.
    - intros x xc Hx. destruct (decide (x = s)) as [->|Hne]; [simplify_eq; eauto|]. exists xc. split; [|done].
      pose proof (t_next _ T _ _ Hx). rewrite Hsc3, lookup_insert_ne, Hsc2, !lookup_insert_ne by lia.
      cbn. by rewrite lookup_insert_ne.
    - intros y yc Hy. exists yc. split_and!; [|done..]. rewrite Hr3, Hr2, Hnr2. cbn.
      rewrite lookup_insert_ne; [done|]. apply (t_routines _ T) in Hy. lia.
    - unfold scope_potential. rewrite Hn3, Hn2, Hn1. lia.
    - lia.
    - rewrite Ho3, Ho2. done. }
  eapply (wp_upd_scope s sc3); [exact Hs3|]. wp_simpl. rewrite wp_semit, wp_ret. split.
  2:{ intros x xc Hne Hx. cbn. pose proof (t_next _ T _ _ Hx).
      rewrite lookup_insert_ne, Hsc3, lookup_insert_ne, Hsc2, !lookup_insert_ne by lia. by apply Hx1. }
  eapply Ok_trans; [exact O3|].
  assert (Ok w3 (set_scopes (<[s := set_ref_count (ref_count sc3 + 1) sc3]> (scopes w3)) w3)) as O4.
  { apply (Ok_plain w3 s sc3); [done..|]. constructor; try done; [constructor; auto|by right]. }
  eapply Ok_trans; [exact O4|]. apply (Ok_out (set_scopes _ _)), O4.
Qed.

(** ** Exceptions and cancellation *)
Lemma handle_spec s from co w : Tree w → is_Some (scopes w !! s) → is_Some co ∨ spawn_and_throw env = true →
  wp (try_to_handle_exception env s from co) (λ _, Ok w) w.
Proof.
  intros T [sc Hs] Hco. unfold try_to_handle_exception. wp_simpl. eapply wp_get_scope; [exact Hs|].
  case_match; [by apply Ok_refl|]. case_match; [by apply Ok_refl|].
  destruct ((in_scheduler env || bool_decide (co = None)) && spawn_and_throw env) eqn:Hout; wp_simpl.
  { rewrite wp_semit. by apply Ok_out. }
  case_bool_decide as Hn.
  { subst co. destruct Hco as [[]|Hsp]; [done|]. rewrite Hsp, orb_true_r in Hout. done. }
  rewrite wp_bind. eapply (wp_mono _ (λ _, Ok w)).
  { case_match; [|by apply Ok_refl]. wp_simpl. rewrite wp_semit. pose proof (Ok_out w (ChildHandlerCalled s) T) as O1.
    case_match; wp_simpl; [done|]. eapply Ok_trans; [exact O1|]. apply Ok_eg, O1. }
  intros b w1 O1. destruct b; [done|]. case_match; [|done]. wp_simpl. case_match; [done|]. wp_simpl. rewrite wp_semit.
  pose proof (Ok_trans _ _ _ O1 (Ok_out w1 (HandlerCalled s) (proj1 O1))) as O2.
  case_match; wp_simpl; [done|]. eapply Ok_trans; [exact O2|]. apply Ok_eg, O2.
Qed.

End specs.
