(* ===== verification/ScopeCalm.v ===== *)
(** * No exception is left behind

    When no listener throws, the operations of scopes leave [EG(exception)] as they
    found it, empty: a handler that throws is merged into the exception that climbs. *)

From S2P Require Import Prelude Scope.

Definition calm {A} (m : SM A) : Prop := ∀ w a w',
  m w = Some (a, w') → eg_exception w = false → eg_exception w' = false.
(** The result is [false] as well. *)
Definition mild (m : SM bool) : Prop := ∀ w a w',
  m w = Some (a, w') → eg_exception w = false → eg_exception w' = false ∧ a = false.
(** Whatever was there before. *)
Definition settles {A} (m : SM A) : Prop := ∀ w a w', m w = Some (a, w') → eg_exception w' = false.

(** ** Rules *)
Lemma bind_inv {A B} (m : SM A) (k : A → SM B) w b w' : (m ≫= k) w = Some (b, w') →
  ∃ a w1, m w = Some (a, w1) ∧ k a w1 = Some (b, w').
Proof. unfold mbind, M_bind. destruct (m w) as [[a w1]|]; [|done]. eauto. Qed.

Lemma calm_bind {A B} (m : SM A) (k : A → SM B) : calm m → (∀ a, calm (k a)) → calm (m ≫= k).
Proof. intros Hm Hk w b w' (a & w1 & H1 & H2)%bind_inv Hw. eapply Hk; [exact H2|]. by eapply Hm. Qed.
Lemma calm_bind_mild {B} (m : SM bool) (k : bool → SM B) : mild m → calm (k false) → calm (m ≫= k).
Proof. intros Hm Hk w b w' (a & w1 & H1 & H2)%bind_inv Hw. destruct (Hm _ _ _ H1 Hw) as [? ->]. by eapply Hk. Qed.
Lemma mild_bind {A} (m : SM A) (k : A → SM bool) : calm m → (∀ a, mild (k a)) → mild (m ≫= k).
Proof. intros Hm Hk w b w' (a & w1 & H1 & H2)%bind_inv Hw. eapply Hk; [exact H2|]. by eapply Hm. Qed.
Lemma mild_bind_mild (m : SM bool) (k : bool → SM bool) : mild m → mild (k false) → mild (m ≫= k).
Proof. intros Hm Hk w b w' (a & w1 & H1 & H2)%bind_inv Hw. destruct (Hm _ _ _ H1 Hw) as [? ->]. by eapply Hk. Qed.
Lemma settles_bind {A B} (m : SM A) (k : A → SM B) : (∀ a, settles (k a)) → settles (m ≫= k).
Proof. intros Hk w b w' (a & w1 & H1 & H2)%bind_inv. by eapply Hk. Qed.

Lemma calm_ret {A} (a : A) : calm (mret a).
Proof. by intros w a' w' [= _ <-]. Qed.
Lemma mild_ret : mild (mret false).
Proof. by intros w a' w' [= <- <-]. Qed.
Lemma calm_undefined {A} : calm (@undefined sworld A).
Proof. done. Qed.
Lemma calm_get : calm get.
Proof. by intros w a' w' [= _ <-]. Qed.
Lemma calm_of_option {A} (o : option A) : calm (of_option o).
Proof. intros w a w'. unfold of_option. destruct o; [|done]. by intros [= _ <-]. Qed.
Lemma calm_modify f : (∀ w, eg_exception (f w) = eg_exception w) → calm (modify f).
Proof. intros Hf w a w' [= _ <-]. by rewrite Hf. Qed.
Lemma calm_assert b : calm (ZEND_ASSERT b).
Proof. unfold ZEND_ASSERT. destruct b; [apply calm_ret|done]. Qed.
Lemma mild_take : mild take_exception.
Proof. by intros w a w' [= <- <-] ->. Qed.
Lemma settles_take {B} (k : bool → SM B) : (∀ a, calm (k a)) → settles (take_exception ≫= k).
Proof. intros Hk w b w' (a & w1 & [= <- <-] & H2)%bind_inv. by eapply Hk. Qed.

Create HintDb calm.
#[export] Hint Resolve calm_ret calm_undefined calm_get calm_of_option calm_assert mild_ret mild_take : calm.
#[export] Hint Extern 1 (calm (modify _)) => (apply calm_modify; done) : calm.

(** Goes through the binds and the tests of a computation. *)
Ltac solve_calm := repeat first
  [ progress auto with calm | apply calm_bind; [|intros ?] | apply mild_bind; [|intros ?] | progress case_match ].

Lemma calm_semit e : calm (semit e).
Proof. unfold semit. solve_calm. Qed.
Lemma calm_get_scope s : calm (get_scope s).
Proof. unfold get_scope. solve_calm. Qed.
Lemma calm_get_routine c : calm (get_routine c).
Proof. unfold get_routine. solve_calm. Qed.
#[export] Hint Resolve calm_semit calm_get_scope calm_get_routine : calm.
Lemma calm_upd_scope s f : calm (upd_scope s f).
Proof. unfold upd_scope. solve_calm. Qed.
Lemma calm_upd_routine c f : calm (upd_routine c f).
Proof. unfold upd_routine. solve_calm. Qed.
#[export] Hint Resolve calm_upd_scope calm_upd_routine : calm.

Section calm.
Context `{!ScopeMacros} (env : scope_env) (no_throw : ∀ s, listener_throws env s = false).

Lemma calm_notify s e : calm (scope_notify env s e).
Proof. unfold scope_notify. rewrite no_throw. solve_calm. Qed.
Lemma calm_can_be_disposed s z b : calm (can_be_disposed s z b).
Proof. unfold can_be_disposed. solve_calm. Qed.
#[local] Hint Resolve calm_notify calm_can_be_disposed : calm.
Lemma calm_done s : calm (SCOPE_IS_COMPLETELY_DONE s).
Proof. apply calm_can_be_disposed. Qed.
#[local] Hint Resolve calm_done : calm.
Lemma calm_check_completion fuel s z : calm (check_completion_and_notify env fuel s z).
Proof. revert s. induction fuel as [|fuel IH]; intros s; cbn [check_completion_and_notify]; solve_calm. Qed.
#[local] Hint Resolve calm_check_completion : calm.
Lemma calm_mark_zombie c : calm (async_scope_mark_coroutine_zombie env c).
Proof. unfold async_scope_mark_coroutine_zombie, scope_check_completion_and_notify. solve_calm. Qed.
Lemma calm_enqueue c : calm (scheduler_enqueue c).
Proof. unfold scheduler_enqueue. solve_calm. Qed.
#[local] Hint Resolve calm_mark_zombie calm_enqueue : calm.
Lemma calm_coroutine_cancel c safely : calm (async_coroutine_cancel env c safely).
Proof. unfold async_coroutine_cancel, apply_cancellation. solve_calm. Qed.
Lemma calm_new_scope p obj : calm (async_new_scope p obj).
Proof. unfold async_new_scope. solve_calm. Qed.
Lemma calm_spawn s : calm (spawn_in_scope s).
Proof. unfold spawn_in_scope, async_scope_add_coroutine. solve_calm. Qed.
#[local] Hint Resolve calm_coroutine_cancel calm_new_scope calm_spawn : calm.
Lemma calm_finally s : calm (async_scope_call_finally_handlers env s).
Proof. unfold async_scope_call_finally_handlers. solve_calm. Qed.
#[local] Hint Resolve calm_finally : calm.

(** A handler that absorbs the exception leaves none. *)
Lemma handle_calm s from co w w' : try_to_handle_exception env s from co w = Some (true, w') →
  eg_exception w = false → eg_exception w' = false.
Proof.
  intros (sc & w1 & (w0 & w0' & [= <- <-] & H1)%bind_inv & Hr)%bind_inv Hw. unfold of_option in H1.
  destruct (scopes w !! s) as [sc0|]; [|done]. injection H1 as <- <-.
  cbv zeta in Hr. destruct (negb _ && _); [done|]. destruct (sc_bailout _); [done|].
  destruct (_ && spawn_and_throw env); [by injection Hr as <-|]. destruct (bool_decide (co = None)); [done|].
  apply bind_inv in Hr as (b & w1 & Hb & Hr).
  assert (eg_exception w1 = false ∨ b = false) as Hw1.
  { destruct (_ && _); [|injection Hb as <- <-; by right].
    destruct (child_handler_absorbs env s); injection Hb as <- <-; [by left|by right]. }
  destruct b; [injection Hr as <-; by destruct Hw1|]. destruct (exception_fci sc0); [|done].
  apply bind_inv in Hr as (x & w2 & [= <- <-] & Hr). destruct (eg_exception w1) eqn:Heg; [done|].
  destruct (handler_absorbs env s); [by injection Hr as <-|done].
Qed.

(** ** [scope_catch_or_cancel] *)
Lemma mild_children (f : nat → SM bool) l : (∀ c, calm (f c)) →
  mild ((fix children l :=
           match l with
           | [] => mret false
           | c :: l => f c;; e ← take_exception; r ← children l; mret ((e : bool) || (r : bool))
           end) l).
Proof.
  intros Hf. induction l as [|c l IH]; [apply mild_ret|]. apply mild_bind; [apply Hf|]. intros _.
  apply mild_bind_mild; [apply mild_take|]. apply mild_bind_mild; [exact IH|apply mild_ret].
Qed.
Lemma calm_routines (f : nat → SM unit) l : (∀ c, calm (f c)) →
  calm ((fix cancel l := match l with [] => mret tt | c :: l => f c;; cancel l end) l).
Proof. intros Hf. induction l as [|c l IH]; [apply calm_ret|]. by apply calm_bind. Qed.

Lemma calm_catch fuel s co from err safely canc : calm (catch_or_cancel env fuel s co from err safely canc).
Proof.
  revert s from err canc. induction fuel as [|fuel IH]; intros s from err canc; [done|]. cbn [catch_or_cancel].
  apply calm_bind; [auto with calm|]. intros sc.
  destruct (canc && sc_closed sc); [auto with calm|]. apply calm_bind; [destruct canc; auto with calm|].
  intros finished. destruct finished; [solve_calm|]. destruct (negb err && negb canc); [auto with calm|].
  intros w b w' (handled & w1 & Hh & Hr)%bind_inv Hw. destruct handled.
  { injection Hr as _ <-. destruct (negb canc && _); [by eapply handle_calm|done]. }
  clear w Hw Hh. revert w1 b w' Hr. match goal with |- ∀ w1 b w', ?m w1 = _ → _ => enough (settles m) as Hs by exact Hs end.
  apply settles_bind. intros _. apply settles_take. intros _.
  apply calm_bind_mild; [by apply mild_children|]. apply calm_bind; [apply calm_routines; auto with calm|]. intros _.
  apply calm_bind_mild; [apply mild_take|]. apply calm_bind; [auto with calm|]. intros _.
  apply calm_bind_mild; [apply mild_take|]. cbn [orb]. solve_calm.
Qed.
Lemma calm_catch_or_cancel s co from err safely canc : calm (scope_catch_or_cancel env s co from err safely canc).
Proof. unfold scope_catch_or_cancel. apply calm_bind; [auto with calm|]. intros ?. apply calm_catch. Qed.
End calm.
