(* ===== verification/ScopeSweep.v ===== *)
(** * What cancellation and exceptions reach

    [scope_catch_or_cancel] walks down the tree, and up for an exception.  The walk
    down ends at scopes that were closed or cancelled before ([Open] describes what
    lies above them), and it marks nothing outside of the subtree, so what it did in
    one branch still holds when it has gone through the others. *)

From S2P Require Import Prelude Scope ScopeProofs ScopeCalm.

(** ** Marks

    The flags and the children of a scope. *)
Definition marks (sc : async_scope_t) : bool * bool * list nat := (sc_closed sc, sc_cancelled sc, child_scopes sc).

(** The scopes outside of [P] keep their marks. *)
Definition Spared (P : nat → Prop) (w w' : sworld) : Prop :=
  ∀ x sc, scopes w !! x = Some sc → ¬ P x → ∃ sc', scopes w' !! x = Some sc' ∧ marks sc' = marks sc.

Lemma Spared_same P w w' : scopes w' = scopes w → Spared P w w'.
Proof. intros E x sc Hx _. exists sc. by rewrite E. Qed.
Lemma Spared_mono (P Q : nat → Prop) w w' : (∀ x, P x → Q x) → Spared P w w' → Spared Q w w'.
Proof. intros HPQ HS x sc Hx Hn. apply HS; auto. Qed.
Lemma Spared_trans P w1 w2 w3 : Spared P w1 w2 → Spared P w2 w3 → Spared P w1 w3.
Proof.
  intros S1 S2 x sc Hx Hn. destruct (S1 _ _ Hx Hn) as (sc2 & Hx2 & E2).
  destruct (S2 _ _ Hx2 Hn) as (sc3 & Hx3 & E3). exists sc3. split; [done|congruence].
Qed.
Lemma Spared_insert (P : nat → Prop) w s sc : P s → Spared P w (set_scopes (<[s := sc]> (scopes w)) w).
Proof.
  intros Hs x xc Hx Hn. exists xc. cbn. rewrite lookup_insert_ne; [done|]. by intros ->.
Qed.

(** *** Computations that mark no scope *)
Definition unmarking {A} (m : SM A) : Prop := ∀ w a w', m w = Some (a, w') → Spared (λ _, False) w w'.

Lemma unmarking_bind {A B} (m : SM A) (k : A → SM B) : unmarking m → (∀ a, unmarking (k a)) → unmarking (m ≫= k).
Proof. intros Hm Hk w b w' (a & w1 & H1 & H2)%bind_inv. eapply Spared_trans; [by eapply Hm|by eapply Hk]. Qed.
Lemma unmarking_ret {A} (a : A) : unmarking (mret a).
Proof. intros w a' w' [= _ <-]. by apply Spared_same. Qed.
Lemma unmarking_undefined {A} : unmarking (@undefined sworld A).
Proof. done. Qed.
Lemma unmarking_get : unmarking get.
Proof. intros w a w' [= _ <-]. by apply Spared_same. Qed.
Lemma unmarking_of_option {A} (o : option A) : unmarking (of_option o).
Proof. intros w a w'. unfold of_option. destruct o; [|done]. intros [= _ <-]. by apply Spared_same. Qed.
Lemma unmarking_modify f : (∀ w, scopes (f w) = scopes w) → unmarking (modify f).
Proof. intros Hf w a w' [= _ <-]. apply Spared_same, Hf. Qed.
Create HintDb unmarking.
#[export] Hint Resolve unmarking_ret unmarking_undefined unmarking_get unmarking_of_option : unmarking.
#[export] Hint Extern 1 (unmarking (modify _)) => (apply unmarking_modify; done) : unmarking.
Ltac solve_unmarking := repeat first
  [ progress auto with unmarking | apply unmarking_bind; [|intros ?] | progress case_match ].

Lemma unmarking_semit e : unmarking (semit e).
Proof. unfold semit. solve_unmarking. Qed.
Lemma unmarking_get_scope s : unmarking (get_scope s).
Proof. unfold get_scope. solve_unmarking. Qed.
Lemma unmarking_get_routine c : unmarking (get_routine c).
Proof. unfold get_routine. solve_unmarking. Qed.
#[export] Hint Resolve unmarking_semit unmarking_get_scope unmarking_get_routine : unmarking.
Lemma unmarking_upd_routine c f : unmarking (upd_routine c f).
Proof. unfold upd_routine. solve_unmarking. Qed.
Lemma unmarking_upd_scope s f : (∀ sc, marks (f sc) = marks sc) → unmarking (upd_scope s f).
Proof.
  intros Hf w a w' (sc & w1 & (w0 & w2 & [= <- <-] & H1)%bind_inv & [= _ <-])%bind_inv.
  unfold of_option in H1. destruct (scopes w !! s) as [sc0|] eqn:Hs; [|done]. injection H1 as <- <-.
  intros x xc Hx _. cbn. destruct (decide (x = s)) as [->|Hne]; [|exists xc; by rewrite lookup_insert_ne].
  simplify_eq. exists (f sc0). by rewrite lookup_insert_eq.
Qed.
#[export] Hint Resolve unmarking_upd_routine : unmarking.
#[export] Hint Extern 1 (unmarking (upd_scope _ _)) => (apply unmarking_upd_scope; intros ?; try case_match; done) : unmarking.

Section unmarking.
Context `{!ScopeMacros} (env : scope_env).
Lemma unmarking_notify s e : unmarking (scope_notify env s e).
Proof. unfold scope_notify. solve_unmarking. Qed.
Lemma unmarking_can_be_disposed s z b : unmarking (can_be_disposed s z b).
Proof. unfold can_be_disposed. solve_unmarking. Qed.
#[local] Hint Resolve unmarking_notify unmarking_can_be_disposed : unmarking.
Lemma unmarking_check_completion fuel s z : unmarking (check_completion_and_notify env fuel s z).
Proof. revert s. induction fuel as [|fuel IH]; intros s; cbn [check_completion_and_notify]; solve_unmarking. Qed.
#[local] Hint Resolve unmarking_check_completion : unmarking.
Lemma unmarking_mark_zombie c : unmarking (async_scope_mark_coroutine_zombie env c).
Proof. unfold async_scope_mark_coroutine_zombie, scope_check_completion_and_notify. solve_unmarking. Qed.
Lemma unmarking_enqueue c : unmarking (scheduler_enqueue c).
Proof. unfold scheduler_enqueue. solve_unmarking. Qed.
#[local] Hint Resolve unmarking_mark_zombie unmarking_enqueue : unmarking.
Lemma unmarking_coroutine_cancel c safely : unmarking (async_coroutine_cancel env c safely).
Proof. unfold async_coroutine_cancel, apply_cancellation. solve_unmarking. Qed.
Lemma unmarking_handle s from co : unmarking (try_to_handle_exception env s from co).
Proof. unfold try_to_handle_exception. solve_unmarking. Qed.
Lemma unmarking_routines (f : nat → SM unit) l : (∀ c, unmarking (f c)) →
  unmarking ((fix cancel l := match l with [] => mret tt | c :: l => f c;; cancel l end) l).
Proof. intros Hf. induction l as [|c l IH]; [apply unmarking_ret|]. by apply unmarking_bind. Qed.
End unmarking.

(** A specification and a frame. *)
Lemma wp_unmarking {A} (m : SM A) Φ w : wp m Φ w → unmarking m → wp m (λ a w', Φ a w' ∧ Spared (λ _, False) w w') w.
Proof. rewrite !wp_run. intros (a & w' & Hm & HΦ) Hc. exists a, w'. split_and!; [done..|by eapply Hc]. Qed.

(** ** Ancestors *)
Lemma Above_back w w' s x : Tree w → Mono w w' → is_Some (scopes w !! s) → Above w' s x → Above w s x.
Proof.
  intros T Mo Hs HA. induction HA as [|s sc' p x Hs' Hp _ IH]; [constructor|]. destruct Hs as [sc Hs].
  destruct (m_scopes _ _ Mo _ _ Hs) as (sc1 & Hs1 & G). simplify_eq. rewrite (g_parent _ _ G) in Hp.
  destruct (t_parent _ T _ _ _ Hs Hp) as (_ & psc & Hps & _). eapply above_parent; [done..|]. apply IH. by exists psc.
Qed.
Lemma Above_le w s x : Tree w → Above w s x → x ≤ s.
Proof. intros T. induction 1 as [|s sc p x Hs Hp _ IH]; [done|]. destruct (t_parent _ T _ _ _ Hs Hp). lia. Qed.
Lemma Above_trans w x y z : Above w x y → Above w y z → Above w x z.
Proof. induction 1; [done|]. intros. eapply above_parent; eauto. Qed.
Lemma Above_linear w y a b : Above w y a → Above w y b → Above w a b ∨ Above w b a.
Proof.
  induction 1 as [y|y sc p a Hy Hp HA IH]; intros Hb; [by left|].
  inversion Hb as [|? sc' p' ? Hy' Hp' Hb']; simplify_eq; [|auto]. right. eapply above_parent; eauto.
Qed.
Lemma Above_dec w s x : Tree w → is_Some (scopes w !! s) → Above w s x ∨ ¬ Above w s x.
Proof.
  intros T. induction (lt_wf s) as [s _ IH]. intros [sc Hs]. destruct (decide (s = x)) as [->|Hne]; [left; constructor|].
  destruct (parent_scope sc) as [p|] eqn:Hp.
  - destruct (t_parent _ T _ _ _ Hs Hp) as (Hlt & psc & Hps & _).
    destruct (IH p Hlt) as [HA|HA]; [by exists psc|left; by eapply above_parent|right].
    intros HA'. inversion HA'; simplify_eq; done.
  - right. intros HA'. inversion HA'; simplify_eq; done.
Qed.
(** The children of a scope have nothing in common. *)
Lemma Above_siblings w s k k' kc kc' y : Tree w → scopes w !! k = Some kc → parent_scope kc = Some s →
  scopes w !! k' = Some kc' → parent_scope kc' = Some s → k ≠ k' → Above w y k → ¬ Above w y k'.
Proof.
  intros T Hk Hp Hk' Hp' Hne HA HA'.
  destruct (Above_linear _ _ _ _ HA HA') as [HL|HL]; inversion HL as [|? ? ? ? ? ? HL']; simplify_eq;
    apply Above_le in HL'; try done;
    [destruct (t_parent _ T _ _ _ Hk' Hp')|destruct (t_parent _ T _ _ _ Hk Hp)]; lia.
Qed.
Lemma Above_child w s sc k : Tree w → scopes w !! s = Some sc → k ∈ child_scopes sc → Above w k s.
Proof.
  intros T Hs Hk. destruct (t_child _ T _ _ _ Hs Hk) as (_ & kc & Hkc & Hp). eapply above_parent; [done..|constructor].
Qed.

(** ** What a cancellation reaches

    [Open m s x]: going down from [s] to [x] one passes no scope that is closed or
    cancelled, [x] included. *)
Inductive Open (m : gmap nat async_scope_t) : nat → nat → Prop :=
| open_here s sc : m !! s = Some sc → sc_closed sc = false → sc_cancelled sc = false → Open m s s
| open_below s sc k x : m !! s = Some sc → sc_closed sc = false → sc_cancelled sc = false →
    k ∈ child_scopes sc → Open m k x → Open m s x.
(** Some coroutine is reached from [x]. *)
Definition Busy (m : gmap nat async_scope_t) (x : nat) : Prop :=
  ∃ y yc, Open m x y ∧ m !! y = Some yc ∧ coroutines yc ≠ [].

Definition all_hit (w : sworld) (l : list nat) : Prop := ∀ c, c ∈ l → ∃ co, routines w !! c = Some co ∧ hit co = true.
Definition is_cancelled (w : sworld) (x : nat) : Prop := ∃ xc, scopes w !! x = Some xc ∧ sc_cancelled xc = true.

(** Of what was reached from [s] in [w], the coroutines have got their cancellation
    in [w'] and the scopes above them are cancelled. *)
Definition Swept (w w' : sworld) (s : nat) : Prop :=
  ∀ x xc, Open (scopes w) s x → scopes w !! x = Some xc →
    all_hit w' (coroutines xc) ∧ (Busy (scopes w) x → is_cancelled w' x).
(** The scope itself is cancelled, with its coroutines, and its children are swept. *)
Definition Halted (w w' : sworld) (s : nat) : Prop :=
  ∀ sc, scopes w !! s = Some sc →
    is_cancelled w' s ∧ all_hit w' (coroutines sc) ∧ ∀ k, k ∈ child_scopes sc → Swept w w' k.

Lemma all_hit_mono w w' l : Mono w w' → all_hit w l → all_hit w' l.
Proof. intros Mo Hl c (co & Hc & Hh)%Hl. destruct (m_routines _ _ Mo _ _ Hc) as (co' & ? & _ & ? & _). eauto. Qed.
Lemma is_cancelled_mono w w' x : Mono w w' → is_cancelled w x → is_cancelled w' x.
Proof. intros Mo (xc & Hx & Hc). destruct (m_scopes _ _ Mo _ _ Hx) as (xc' & ? & G). exists xc'. split; [done|by apply G]. Qed.
Lemma Swept_mono w w1 w2 s : Mono w1 w2 → Swept w w1 s → Swept w w2 s.
Proof.
  intros Mo HS x xc Hx Hxc. destruct (HS _ _ Hx Hxc) as [Hh Hb].
  split; [by eapply all_hit_mono|]. intros ?. eapply is_cancelled_mono; eauto.
Qed.
Lemma Halted_mono w w1 w2 s : Mono w1 w2 → Halted w w1 s → Halted w w2 s.
Proof.
  intros Mo HS sc Hs. destruct (HS _ Hs) as (Hc & Hh & Hk).
  split_and!; [by eapply is_cancelled_mono|by eapply all_hit_mono|]. intros k ?. eapply Swept_mono; eauto.
Qed.
Lemma Halted_Swept w w' s : Halted w w' s → Swept w w' s.
Proof.
  intros HS x xc Hx Hxc. inversion Hx as [? sc Hs|? sc k ? Hs _ _ Hk Hkx]; simplify_eq.
  - destruct (HS _ Hxc) as (Hc & Hh & _). auto.
  - destruct (HS _ Hs) as (_ & _ & Hch). by apply (Hch k Hk).
Qed.

(** What a frame outside of the subtree leaves open. *)
Lemma Open_spared P w w1 k x : Tree w → Spared P w w1 → (∀ y, Above w y k → ¬ P y) →
  Open (scopes w) k x → Open (scopes w1) k x.
Proof.
  intros T HS HP HO. induction HO as [s sc Hs Hcl Hca|s sc k x Hs Hcl Hca Hk HO IH];
    (destruct (HS s sc Hs) as (sc1 & Hs1 & E); [apply HP; constructor|]); injection E as E1 E2 E3.
  - eapply open_here; [done|congruence..].
  - eapply (open_below _ _ sc1 k); [done|congruence|congruence|congruence|]. apply IH. intros y Hy. apply HP.
    eapply Above_trans; [done|]. by eapply Above_child.
Qed.
Lemma Open_above w s x : Tree w → Open (scopes w) s x → Above w x s.
Proof.
  intros T HO. induction HO as [|s sc k x Hs _ _ Hk HO IH]; [constructor|].
  eapply Above_trans; [done|]. by eapply Above_child.
Qed.
Lemma Busy_spared P w w1 x : Ok w w1 → Tree w → Spared P w w1 → (∀ y, Above w y x → ¬ P y) →
  Busy (scopes w) x → Busy (scopes w1) x.
Proof.
  intros [_ Mo] T HS HP (y & yc & HO & Hy & Hc). destruct (m_scopes _ _ Mo _ _ Hy) as (yc1 & Hy1 & G).
  exists y, yc1. split_and!; [by eapply Open_spared|done|]. by rewrite (g_coroutines _ _ G).
Qed.
Lemma Swept_transfer P w w1 w2 k : Tree w → Ok w w1 → Spared P w w1 → (∀ y, Above w y k → ¬ P y) →
  Swept w1 w2 k → Swept w w2 k.
Proof.
  intros T O HS HP Hsw x xc Hx Hxc. destruct (m_scopes _ _ (proj2 O) _ _ Hxc) as (xc1 & Hx1 & G).
  destruct (Hsw x xc1) as [Hh Hb]; [by eapply Open_spared|done|]. rewrite (g_coroutines _ _ G) in Hh.
  split; [done|]. intros HB. apply Hb. eapply (Busy_spared P w); [done..| |done]. intros y Hy. apply HP.
  eapply Above_trans; [done|]. by eapply Open_above.
Qed.
Lemma Halted_transfer P w w1 w2 k : Tree w → Ok w w1 → Spared P w w1 → (∀ y, Above w y k → ¬ P y) →
  Halted w1 w2 k → Halted w w2 k.
Proof.
  intros T O HS HP Hh kc Hk. destruct (HS k kc Hk) as (kc1 & Hk1 & E); [apply HP; constructor|]. injection E as _ _ E3.
  destruct (m_scopes _ _ (proj2 O) _ _ Hk) as (kc1' & Hk1' & G). simplify_eq.
  destruct (Hh _ Hk1) as (? & ? & Hch). rewrite (g_coroutines _ _ G) in *. split_and!; [done..|].
  intros d Hd. eapply Swept_transfer; [done..| |apply Hch; by rewrite E3]. intros y Hy. apply HP.
  eapply Above_trans; [done|]. by eapply Above_child.
Qed.

(** *** The loop over the children of [s] *)
Lemma sweep_children (f : nat → SM bool) s l w : Tree w → NoDup l →
  (∀ k, k ∈ l → ∃ kc, scopes w !! k = Some kc ∧ parent_scope kc = Some s) →
  (∀ k w1, k ∈ l → Ok w w1 → wp (f k) (λ _ w2, Ok w1 w2 ∧ Spared (λ x, Above w1 x k) w1 w2 ∧ Swept w1 w2 k) w1) →
  wp ((fix children l :=
         match l with
         | [] => mret false
         | c :: l => f c;; e ← take_exception; r ← children l; mret ((e : bool) || (r : bool))
         end) l) (λ _ w', Ok w w' ∧ Spared (λ x, Above w x s) w w' ∧ ∀ k, k ∈ l → Swept w w' k) w.
Proof.
  revert w. induction l as [|k l IH]; intros w T Hnd Hl Hf.
  { rewrite wp_ret. split_and!; [by apply Ok_refl|by apply Spared_same|]. by intros k ?%not_elem_of_nil. }
  apply NoDup_cons in Hnd as [Hk Hnd]. destruct (Hl k) as (kc & Hkc & Hp); [by left|].
  rewrite wp_bind. eapply wp_mono; [apply Hf; [by left|by apply Ok_refl]|]. cbn beta. intros _ w1 (O1 & S1 & W1).
  unfold take_exception. wp_simpl. pose proof (Ok_trans _ _ _ O1 (Ok_eg w1 false (proj1 O1))) as O2.
  assert (Spared (λ x, Above w x k) w (set_eg false w1)) as S2.
  { eapply Spared_trans; [done|by apply Spared_same]. }
  set (w2 := set_eg false w1) in *.
  assert (Swept w w2 k) as W2 by (eapply (Swept_mono _ w1); [apply (Ok_eg w1 false), O1|done]). clearbody w2.
  eapply wp_mono; [apply IH; [apply O2|done| |]|].
  - intros k' Hk'. destruct (Hl k') as (kc' & Hkc' & Hp'); [by right|].
    destruct (m_scopes _ _ (proj2 O2) _ _ Hkc') as (kc2 & Hkc2 & G). exists kc2. by rewrite (g_parent _ _ G).
  - intros k' w' Hk' O'. apply Hf; [by right|]. by eapply Ok_trans.
  - cbn beta. intros r w3 (O3 & S3 & W3). rewrite wp_ret. split_and!; [by eapply Ok_trans| |].
    + intros x xc Hx Hn. destruct (S2 _ _ Hx) as (xc2 & Hx2 & E2).
      { intros HA. apply Hn. eapply Above_trans; [done|]. eapply above_parent; [done..|constructor]. }
      destruct (S3 _ _ Hx2) as (xc3 & Hx3 & E3).
      { intros HA. apply Hn. eapply Above_back; [done|apply O2|by exists xc|done]. }
      exists xc3. split; [done|congruence].
    + intros k' [->|Hk']%elem_of_cons; [eapply Swept_mono; [apply O3|done]|].
      eapply (Swept_transfer (λ x, Above w x k)); [done..| |by apply W3]. intros y Hy HA.
      destruct (Hl k') as (kc' & Hkc' & Hp'); [by right|].
      eapply (Above_siblings w s k k'); [done|exact Hkc|done|exact Hkc'|done| |done..]. by intros ->.
Qed.

(** ** [scope_catch_or_cancel] *)
Section specs.
Context `{!ScopeMacros, !ScopeMacrosSpec} (env : scope_env).

(** The part that cancels the scope, its children and its coroutines and notifies
    the listeners; [k] is the rest. *)
Lemma wp_halt (rec : nat → SM bool) s sc safely w (k : bool → bool → bool → SM bool) Φ :
  Tree w → scopes w !! s = Some sc →
  (∀ c w1, c ∈ child_scopes sc → Ok w w1 →
     wp (rec c) (λ _ w2, Ok w1 w2 ∧ Spared (λ x, Above w1 x c) w1 w2 ∧ Swept w1 w2 c) w1) →
  (∀ critical e e' w', Ok w w' → Spared (λ x, Above w x s) w w' → Halted w w' s → eg_exception w' = false →
     wp (k critical e e') Φ w') →
  wp (upd_scope s (set_sc_cancelled true);;
      take_exception;;
      critical ← (fix children l :=
                    match l with
                    | [] => mret false
                    | c :: l => rec c;; e ← take_exception; r ← children l; mret ((e : bool) || (r : bool))
                    end) (child_scopes sc);
      (fix cancel l :=
         match l with [] => mret tt | c :: l => async_coroutine_cancel env c safely;; cancel l end) (coroutines sc);;
      e ← take_exception;
      scope_notify env s true;;
      e' ← take_exception;
      k critical e e') Φ w.
Proof.
  intros T Hs Hrec HΦ. wp_simpl. eapply (wp_upd_scope s sc); [exact Hs|]. unfold take_exception. wp_simpl.
  match goal with |- wp _ _ ?x => set (w2 := x) end.
  assert (Ok w w2) as O2.
  { assert (Ok w (set_scopes (<[s := set_sc_cancelled true sc]> (scopes w)) w)) as Oc.
    { apply (Ok_plain w s sc); [done..|]. constructor; try done; [constructor; auto|by right]. }
    eapply Ok_trans; [exact Oc|]. apply Ok_eg, Oc. }
  assert (Spared (λ x, x = s) w w2) as S2.
  { eapply Spared_trans; [by apply (Spared_insert _ w s (set_sc_cancelled true sc))|by apply Spared_same]. }
  assert (is_cancelled w2 s) as C2 by (exists (set_sc_cancelled true sc); cbn; by rewrite lookup_insert_eq).
  clearbody w2. eapply wp_mono; [eapply (sweep_children _ s); [apply O2|by eapply l_nodup, Hs; apply T| |]|].
  { intros c Hc. destruct (t_child _ T _ _ _ Hs Hc) as (_ & cc & Hcc & Hp).
    destruct (m_scopes _ _ (proj2 O2) _ _ Hcc) as (cc2 & Hcc2 & G). exists cc2. by rewrite (g_parent _ _ G). }
  { intros c w1 Hc O1. apply Hrec; [done|]. by eapply Ok_trans. }
  cbn beta. intros critical w3 (O3 & S3 & W3). wp_simpl.
  eapply wp_mono; [apply wp_unmarking; [eapply (cancel_routines_loop _ _ w); [by eapply Ok_trans|]|
    by apply unmarking_routines; intros ?; apply unmarking_coroutine_cancel]|].
  { intros c wc Hc Oc. destruct (t_member _ T _ _ _ Hs Hc) as (cco & Hcco & Hcsc).
    destruct (m_routines _ _ (proj2 Oc) _ _ Hcco) as (cco' & Hcco' & Hsc' & _).
    eapply coroutine_cancel_spec; [apply Oc|exact Hcco'|by rewrite Hsc', Hcsc]. }
  cbn beta. intros _ w4 [[O4 S4] U4]. wp_simpl.
  match goal with |- wp _ _ ?x => set (w5 := x) end. pose proof (Ok_eg w4 false (proj1 O4)) as O5. fold w5 in O5.
  assert (Spared (λ _, False) w4 w5) as U5 by by apply Spared_same.
  pose proof (Ok_trans _ _ _ O2 (Ok_trans _ _ _ O3 (Ok_trans _ _ _ O4 O5))) as O05. clearbody w5.
  destruct (m_scopes _ _ (proj2 O05) _ _ Hs) as (sc5 & Hs5 & _).
  eapply wp_mono; [apply wp_unmarking; [eapply notify_spec; [apply O05|by exists sc5]|apply unmarking_notify]|].
  cbn beta. intros _ w6 [O6 U6]. wp_simpl. pose proof (Ok_eg w6 false (proj1 O6)) as O7.
  pose proof (Ok_trans _ _ _ O4 (Ok_trans _ _ _ O5 (Ok_trans _ _ _ O6 O7))) as O37.
  assert (Spared (λ _, False) w3 (set_eg false w6)) as U37.
  { repeat (eapply Spared_trans; [eassumption|]). by apply Spared_same. }
  pose proof (Ok_trans _ _ _ O5 (Ok_trans _ _ _ O6 O7)) as O47. pose proof (Ok_trans _ _ _ O3 O37) as O27.
  apply HΦ; [exact (Ok_trans _ _ _ O2 O27)| | |done].
  - intros x xc Hx Hn. destruct (S2 _ _ Hx) as (xc2 & Hx2 & E2); [intros ->; apply Hn; constructor|].
    destruct (S3 _ _ Hx2) as (xc3 & Hx3 & E3).
    { intros HA. apply Hn. eapply Above_back; [done|apply O2|by exists xc|done]. }
    destruct (U37 _ _ Hx3) as (xc7 & Hx7 & E7); [tauto|]. exists xc7. split; [done|congruence].
  - intros sc' Hs'. simplify_eq. split_and!.
    + eapply is_cancelled_mono; [apply O27|done].
    + eapply all_hit_mono; [apply O47|exact S4].
    + intros c Hc. eapply (Swept_transfer (λ x, x = s) w w2); [done..| |eapply Swept_mono; [apply O37|by apply W3]].
      intros y HA ->. apply Above_le in HA; [|done]. destruct (t_child _ T _ _ _ Hs Hc). lia.
Qed.

(** *** Downwards *)

(** The scope has been dealt with. *)
Definition marked (w : sworld) (s : nat) : Prop :=
  ∃ sc, scopes w !! s = Some sc ∧ sc_closed sc || sc_cancelled sc = true.

Lemma marked_cancelled w s : is_cancelled w s → marked w s.
Proof. intros (sc & Hs & Hc). exists sc. split; [done|]. by rewrite Hc, orb_true_r. Qed.

(** Nothing is reached from a scope at rest. *)
Lemma rest_not_busy m s x : AtRest m true s → Open m s x → ∀ xc, m !! x = Some xc → coroutines xc = [].
Proof.
  intros HR HO. revert HR. induction HO as [s sc Hs Hcl Hca|s sc k x Hs Hcl Hca Hk HO IH]; intros HR xc Hx;
    (inversion HR as [? sc' Hs' Hov|? sc' Hs' Hi Hch]; simplify_eq; [by rewrite Hcl, Hca in Hov|]); [done|].
  by apply IH; [apply Hch|].
Qed.
Lemma Open_trans m s x y : Open m s x → Open m x y → Open m s y.
Proof. induction 1; [done|]. intros. eapply open_below; eauto. Qed.

Lemma sweep_spec fuel s co from err safely w : Tree w → is_Some (scopes w !! s) → scope_potential w - s < fuel →
  wp (catch_or_cancel env fuel s co from err safely true)
    (λ _ w', Ok w w' ∧ Spared (λ x, Above w x s) w w' ∧ Swept w w' s ∧ marked w' s) w.
Proof.
  revert s from err w. induction fuel as [|fuel IH]; intros s from err w T [sc Hs] Hf; [lia|].
  pose proof (Tree_potential _ _ _ T Hs) as Hpot. cbn [catch_or_cancel]. wp_simpl. eapply wp_get_scope; [exact Hs|].
  cbn [andb negb]. destruct (sc_closed sc) eqn:Hcl.
  { rewrite wp_ret. split_and!; [by apply Ok_refl|by apply Spared_same| |].
    - intros x xc Hx. inversion Hx; simplify_eq; congruence.
    - exists sc. by rewrite Hcl. }
  wp_simpl. apply completely_done_spec; [done|by exists sc|]. intros b Hb. destruct b.
  { pose proof (proj1 Hb eq_refl) as HR. wp_simpl. eapply (wp_upd_scope s sc); [exact Hs|].
    assert (Ok w (set_scopes (<[s := set_sc_closed true sc]> (scopes w)) w)) as O1.
    { apply (Ok_plain w s sc); [done..|]. constructor; try done; [constructor; auto|by right]. }
    wp_simpl. eapply wp_mono; [eapply (finally_call_spec env s (set_sc_closed true sc)); [apply O1|cbn; by rewrite lookup_insert_eq|done]|].
    cbn beta. intros _ w2 [O2 F2]. rewrite wp_ret. split_and!; [by eapply Ok_trans| | |].
    - intros x xc Hx Hn. exists xc. split; [|done]. assert (x ≠ s) as Hne by (intros ->; apply Hn; constructor).
      apply F2; [done|]. cbn. by rewrite lookup_insert_ne.
    - intros x xc Hx Hxc. pose proof (rest_not_busy _ _ _ HR Hx _ Hxc) as ->. split; [by intros c ?%not_elem_of_nil|].
      intros (y & yc & Hy & Hyc & []). eapply rest_not_busy; [exact HR| |exact Hyc]. by eapply Open_trans.
    - destruct (m_scopes _ _ (proj2 O2) s (set_sc_closed true sc)) as (sc2 & Hs2 & G); [cbn; by rewrite lookup_insert_eq|].
      exists sc2. split; [done|]. by rewrite (g_closed _ _ G eq_refl). }
  rewrite andb_false_r. cbn [andb]. rewrite wp_bind, wp_ret. cbv beta iota. eapply (wp_halt (λ c, catch_or_cancel env fuel c co (Some s) true safely true)); [done|exact Hs| |].
  { intros c w1 Hc O1. destruct (t_child _ T _ _ _ Hs Hc) as (Hlt & csc & Hcs & _).
    destruct (m_scopes _ _ (proj2 O1) _ _ Hcs) as (csc' & Hcs' & _).
    pose proof (m_potential _ _ (proj2 O1)). pose proof (Tree_potential _ _ _ T Hcs).
    eapply wp_mono; [apply IH; [apply O1|by exists csc'|lia]|]. cbn beta. tauto. }
  intros critical e e' w7 O7 S7 H7 Heg.
  assert (∀ w8, Ok w7 w8 → scopes w8 = scopes w7 →
    Ok w w8 ∧ Spared (λ x, Above w x s) w w8 ∧ Swept w w8 s ∧ marked w8 s) as Hend.
  { intros w8 O8 E8. assert (Halted w w8 s) as H8 by (eapply Halted_mono; [apply O8|done]).
    split_and!; [by eapply Ok_trans|eapply Spared_trans; [done|by apply Spared_same]|by apply Halted_Swept|].
    apply marked_cancelled, (H8 _ Hs). }
  destruct (critical || e || e').
  { wp_simpl. apply Hend; [apply Ok_eg, O7|done]. }
  destruct (m_scopes _ _ (proj2 O7) _ _ Hs) as (sc7 & Hs7 & G7). wp_simpl. eapply wp_get_scope; [exact Hs7|].
  assert (Ok w7 w7) as Orefl by apply Ok_refl, O7.
  destruct (sc_handled sc7); [by apply Hend|]. destruct (parent_scope sc7); by apply Hend.
Qed.

(** *** Upwards *)

(** The scopes above [s], when the parent [p] and what is above it have been dealt
    with after [s]. *)
Lemma halted_above w w7 w8 s sc p : Tree w → Ok w w7 → Ok w7 w8 → Spared (λ x, Above w x s) w w7 → Halted w w7 s →
  scopes w !! s = Some sc → parent_scope sc = Some p → (∀ a, Above w7 p a → Halted w7 w8 a) →
  ∀ a, Above w s a → Halted w w8 a.
Proof.
  intros T O7 O8 S7 H7 Hs Hp H8. enough (∀ n a, s - a < n → Above w s a → Halted w w8 a) as Hn by eauto.
  induction n as [|n IH]; intros a Hn HA; [lia|].
  inversion HA as [|? sc' p' ? Hs' Hp' HA']; simplify_eq; [eapply Halted_mono; [apply O8|done]|].
  destruct (t_parent _ T _ _ _ Hs Hp) as (Hlt & _). pose proof (Above_le _ _ _ T HA') as Hle.
  intros ac Ha. destruct (S7 a ac Ha) as (ac7 & Ha7 & E); [intros HA2%Above_le; [lia|done]|]. injection E as _ _ E.
  destruct (m_scopes _ _ (proj2 O7) _ _ Ha) as (ac7' & Ha7' & G). simplify_eq.
  destruct (H8 a (Above_mono _ _ _ _ (proj2 O7) HA') _ Ha7) as (Hc & Hh & Hch). rewrite (g_coroutines _ _ G) in Hh.
  split_and!; [done..|]. intros k Hk. destruct (t_child _ T _ _ _ Ha Hk) as (Hak & kc & Hkc & Hpk).
  assert (Above w s k ∨ ∀ y, Above w y k → ¬ Above w y s) as [Hsk|Hno].
  { destruct (Above_dec w s k T ltac:(by exists sc)) as [|Hno]; [by left|right]. intros y Hy Hy'.
    destruct (Above_linear _ _ _ _ Hy Hy') as [HL|]; [|done].
    inversion HL as [|? kc' a' ? Hk' Ha'' HL']; simplify_eq; [by apply Hno; constructor|]. apply Above_le in HL'; [lia|done]. }
  - apply Halted_Swept, IH; [|done]. apply Above_le in Hsk; [lia|done].
  - eapply (Swept_transfer (λ x, Above w x s)); [done|exact O7|done|done|]. apply Hch. by rewrite E.
Qed.

Lemma climb_spec fuel s co from safely w : Tree w → is_Some (scopes w !! s) → scope_potential w + s < fuel →
  is_Some co ∨ spawn_and_throw env = true →
  wp (catch_or_cancel env fuel s co from true safely false)
    (λ r w', Ok w w' ∧ (r = false → eg_exception w' = false → ∀ a, Above w s a → Halted w w' a)) w.
Proof.
  revert s from w. induction fuel as [|fuel IH]; intros s from w T [sc Hs] Hf Hco; [lia|].
  cbn [catch_or_cancel]. wp_simpl. eapply wp_get_scope; [exact Hs|]. cbn [andb negb]. wp_simpl.
  eapply (wp_mono _ (λ _ w1, Ok w w1 ∧ Spared (λ _, False) w w1)).
  { destruct (exception_fci sc || child_exception_fci sc); [|rewrite wp_ret; split; [by apply Ok_refl|by apply Spared_same]].
    apply wp_unmarking; [apply handle_spec; [done|by exists sc|done]|apply unmarking_handle]. }
  intros b w1 [O1 S1]. destruct b; [by rewrite wp_ret|]. cbv beta iota.
  destruct (m_scopes _ _ (proj2 O1) _ _ Hs) as (sc1 & Hs1 & G1). destruct (S1 _ _ Hs) as (sc1' & Hs1' & E1); [tauto|].
  rewrite Hs1 in Hs1'. injection Hs1' as <-. assert (child_scopes sc1 = child_scopes sc) as Ech by exact (f_equal snd E1).
  rewrite <- (g_coroutines _ _ G1), <- Ech.
  pose proof (m_potential _ _ (proj2 O1)) as Hp1.
  eapply (wp_halt (λ c, catch_or_cancel env fuel c co (Some s) false safely true)); [apply O1|exact Hs1| |].
  { intros c w2 Hc O2. destruct (t_child _ (proj1 O1) _ _ _ Hs1 Hc) as (Hlt & csc & Hcs & _).
    destruct (m_scopes _ _ (proj2 O2) _ _ Hcs) as (csc' & Hcs' & _).
    pose proof (m_potential _ _ (proj2 O2)). pose proof (Tree_potential _ _ _ T Hs).
    eapply wp_mono; [apply sweep_spec; [apply O2|by exists csc'|lia]|]. cbn beta. tauto. }
  intros critical e e' w7 O7 S7 H7 Heg. pose proof (Ok_trans _ _ _ O1 O7) as O07.
  assert (Halted w w7 s) as H07.
  { eapply (Halted_transfer (λ _, False)); [done|exact O1|done|tauto|done]. }
  assert (Spared (λ x, Above w x s) w w7) as S07.
  { intros x xc Hx Hn. destruct (S1 _ _ Hx) as (xc1 & Hx1 & Ex1); [tauto|].
    destruct (S7 _ _ Hx1) as (xc7 & Hx7 & Ex7); [|exists xc7; split; [done|congruence]].
    intros HA. apply Hn. eapply Above_back; [done|apply O1|by exists xc|done]. }
  destruct (critical || e || e').
  { wp_simpl. split; [eapply Ok_trans; [exact O07|apply Ok_eg, O7]|done]. }
  destruct (m_scopes _ _ (proj2 O07) _ _ Hs) as (sc7 & Hs7 & G7). wp_simpl. eapply wp_get_scope; [exact Hs7|].
  destruct (sc_handled sc7); [by split|]. destruct (parent_scope sc7) as [p|] eqn:Hp.
  2:{ split; [done|]. intros _ _ a HA. inversion HA as [|? ? ? ? Hs' Hp']; simplify_eq; [done|].
      rewrite (g_parent _ _ G7) in Hp. congruence. }
  destruct (t_parent _ (proj1 O7) _ _ _ Hs7 Hp) as (Hlt & psc & Hps & _).
  pose proof (m_potential _ _ (proj2 O07)). rewrite (g_parent _ _ G7) in Hp.
  eapply wp_mono; [apply IH; [apply O7|by exists psc|lia|done]|].
  cbn beta. intros r w8 [O8 H8]. split; [by eapply Ok_trans|]. intros Hr He.
  eapply (halted_above w w7 w8 s sc p); try done. by apply H8.
Qed.

(** ** The whole operation *)
Lemma scope_cancel_spec s co from err safely w : Tree w → is_Some (scopes w !! s) →
  wp (scope_catch_or_cancel env s co from err safely true)
    (λ _ w', Ok w w' ∧ Spared (λ x, Above w x s) w w' ∧ Swept w w' s ∧ marked w' s) w.
Proof.
  intros T [sc Hs]. unfold scope_catch_or_cancel. wp_simpl. apply sweep_spec; [done|by exists sc|].
  pose proof (with_finally_le (scopes w)). unfold scope_potential, scope_fuel. lia.
Qed.
Lemma catch_spec s co from safely w : Tree w → is_Some (scopes w !! s) → is_Some co ∨ spawn_and_throw env = true →
  wp (scope_catch_or_cancel env s co from true safely false)
    (λ r w', Ok w w' ∧ (r = false → eg_exception w' = false → ∀ a, Above w s a → Halted w w' a)) w.
Proof.
  intros T [sc Hs] Hc. unfold scope_catch_or_cancel. wp_simpl. apply climb_spec; [done|by exists sc| |done].
  pose proof (t_next _ T _ _ Hs). pose proof (with_finally_le (scopes w)). unfold scope_potential, scope_fuel. lia.
Qed.
End specs.
