(* ===== verification/ScopeDisposal.v ===== *)
(** * Disposal of scopes

    A scope whose subtree is empty is freed, together with the subtree, when no
    finally handler keeps a scope of it alive and no listener throws. *)

From S2P Require Import Prelude Scope ScopeProofs ScopeCalm ScopeSweep.

(** ** The tree while some scopes are being disposed

    [X]: the scopes whose children are being disposed of; their vectors may hold
    freed scopes. *)
Record Partly (X : list nat) (w : sworld) : Prop := {
  d_next : ∀ s sc, scopes w !! s = Some sc → s < next_scope w;
  d_child : ∀ s sc c, scopes w !! s = Some sc → s ∉ X → c ∈ child_scopes sc →
    ∃ csc, scopes w !! c = Some csc ∧ parent_scope csc = Some s;
  d_parent : ∀ s sc p, scopes w !! s = Some sc → parent_scope sc = Some p →
    p < s ∧ ∃ psc, scopes w !! p = Some psc ∧ (p ∉ X → s ∈ child_scopes psc);
  d_nodup : ∀ s sc, scopes w !! s = Some sc → s ∉ X → NoDup (child_scopes sc)
}.

(** Flags change, and links are cut; the coroutines stay. *)
Record frozen (sc sc' : async_scope_t) : Prop := {
  f_coroutines : coroutines sc' = coroutines sc;
  f_active : active_coroutines_count sc' = active_coroutines_count sc;
  f_zombie : zombie_coroutines_count sc' = zombie_coroutines_count sc;
  f_finally : finally_handlers sc' = finally_handlers sc;
  f_parent : parent_scope sc' = parent_scope sc ∨ parent_scope sc' = None;
  f_children : ∀ c, c ∈ child_scopes sc' → c ∈ child_scopes sc
}.
#[export] Instance frozen_preorder : PreOrder frozen.
Proof.
  split; [intros ?; constructor; auto|]. intros s1 s2 s3 [] []. constructor; try congruence; [|auto].
  destruct f_parent1; [|by right]. destruct f_parent0; [left|right]; congruence.
Qed.

Record Shrunk (w w' : sworld) : Prop := {
  s_routines : routines w' = routines w;
  s_next_routine : next_routine w' = next_routine w;
  s_next_scope : next_scope w' = next_scope w;
  s_current : current w' = current w;
  s_calm : eg_exception w = false → eg_exception w' = false;
  s_back : ∀ s sc', scopes w' !! s = Some sc' → ∃ sc, scopes w !! s = Some sc ∧ frozen sc sc';
  s_gone : ∀ s sc, scopes w !! s = Some sc → scopes w' !! s = None → coroutines sc = []
}.
#[export] Instance Shrunk_preorder : PreOrder Shrunk.
Proof.
  split.
  - intros w. constructor; [done..| |congruence]. intros s sc Hs. by exists sc.
  - intros w1 w2 w3 [] []. constructor; [congruence..|auto| |].
    + intros s sc3 (sc2 & H2 & F2)%s_back1. destruct (s_back0 _ _ H2) as (sc1 & H1 & F1).
      exists sc1. split; [done|by etrans].
    + intros s sc1 H1 H3. destruct (scopes w2 !! s) as [sc2|] eqn:H2; [|by eapply s_gone0].
      destruct (s_back0 _ _ H2) as (sc1' & H1' & F1). simplify_eq. rewrite <- (f_coroutines _ _ F1). by eapply s_gone1.
Qed.

(** Nothing keeps a scope alive. *)
Definition quiet (w : sworld) : Prop := ∀ s sc, scopes w !! s = Some sc → finally_handlers sc = [].
Lemma quiet_with_finally w : quiet w ↔ with_finally (scopes w) = 0.
Proof.
  unfold with_finally. rewrite map_size_empty_iff, map_empty_filter. unfold quiet, map_Forall, has_finally. cbn.
  split; intros H s sc Hs; specialize (H s sc Hs); [naive_solver|]. by destruct (finally_handlers sc) eqn:?; [|destruct H].
Qed.
Lemma Shrunk_quiet w w' : Shrunk w w' → quiet w → quiet w'.
Proof. intros S Q s sc (sc0 & Hs & F)%S. rewrite (f_finally _ _ F). by eapply Q. Qed.
Lemma Mono_quiet w w' : Mono w w' → quiet w → quiet w'.
Proof. rewrite !quiet_with_finally. intros Mo. pose proof (m_finally _ _ Mo). lia. Qed.

Lemma Tree_Partly w : Tree w → Partly [] w.
Proof.
  intros T. constructor.
  - apply T.
  - intros s sc c Hs _ Hc. by apply (t_child _ T _ _ _ Hs).
  - intros s sc p Hs Hp. destruct (t_parent _ T _ _ _ Hs Hp) as (? & psc & ? & ?). eauto.
  - intros s sc Hs _. by eapply l_nodup; [apply T|].
Qed.
Lemma Partly_Tree w w' : Tree w → quiet w → Shrunk w w' → Partly [] w' → Tree w'.
Proof.
  intros T Q S D. pose proof (Shrunk_quiet _ _ S Q) as Q'. constructor.
  - apply D.
  - intros c co. rewrite (s_routines _ _ S), (s_next_routine _ _ S). apply T.
  - pose proof (t_small _ T). apply quiet_with_finally in Q'. rewrite (s_next_routine _ _ S). lia.
  - constructor.
    + intros s sc c Hs Hc. destruct (d_child _ _ D _ _ _ Hs (not_elem_of_nil _) Hc) as (csc & Hcs & Hp).
      split; [|eauto]. by eapply d_parent.
    + intros s sc p Hs Hp. destruct (d_parent _ _ D _ _ _ Hs Hp) as (? & psc & ? & Hin). split; [done|].
      exists psc. split; [done|]. apply Hin, not_elem_of_nil.
    + intros s sc Hs. eapply d_nodup; [done..|apply not_elem_of_nil].
  - pose proof (t_counted _ T) as C. rewrite (s_routines _ _ S). constructor.
    + intros s sc (sc0 & Hs & F)%S. rewrite (f_coroutines _ _ F). by eapply c_nodup.
    + intros s sc c (sc0 & Hs & F)%S. rewrite (f_coroutines _ _ F). by eapply c_member.
    + intros c co s Hc Hs Hf. destruct (c_scope _ _ C _ _ _ Hc Hs Hf) as (sc & Hsc & Hin).
      destruct (scopes w' !! s) as [sc'|] eqn:Hs'.
      * exists sc'. split; [done|]. destruct (s_back _ _ S _ _ Hs') as (sc0 & ? & F). simplify_eq.
        by rewrite (f_coroutines _ _ F).
      * rewrite (s_gone _ _ S _ _ Hsc Hs') in Hin. by apply not_elem_of_nil in Hin.
    + intros s sc (sc0 & Hs & F)%S. rewrite (f_active _ _ F), (f_coroutines _ _ F). by eapply c_active.
    + intros s sc (sc0 & Hs & F)%S. rewrite (f_zombie _ _ F), (f_coroutines _ _ F). by eapply c_zombie.
Qed.

(** A set of scopes that is closed under children and has no coroutines. *)
Definition Hollow (P : nat → Prop) (w : sworld) : Prop :=
  ∀ s sc, P s → scopes w !! s = Some sc → coroutines sc = [] ∧ ∀ c, c ∈ child_scopes sc → P c.
Lemma Shrunk_hollow P w w' : Shrunk w w' → Hollow P w → Hollow P w'.
Proof.
  intros S H s sc HP (sc0 & Hs & F)%S. destruct (H _ _ HP Hs) as [Hc Hch]. rewrite (f_coroutines _ _ F).
  split; [done|]. intros c Hin. apply Hch. by apply F.
Qed.

(** What a disposal leaves alone: the entries of [X] and of their children. *)
Definition Kept (X : list nat) (w w' : sworld) : Prop := ∀ x xc, scopes w !! x = Some xc →
  (x ∈ X ∨ ∃ p, parent_scope xc = Some p ∧ p ∈ X) → scopes w' !! x = Some xc.
Lemma Kept_then X w1 w2 w3 : Kept X w1 w2 → Kept X w2 w3 → Kept X w1 w3.
Proof. intros K1 K2 x xc Hx HX. eapply K2; [by eapply K1|done]. Qed.

(** And the scopes outside [P], up to the vector of the parent. *)
Definition Outside (P : nat → Prop) (parent : option nat) (w w' : sworld) : Prop := ∀ x xc,
  scopes w !! x = Some xc → ¬ P x →
  ∃ l, scopes w' !! x = Some (set_child_scopes l xc) ∧ (parent ≠ Some x → l = child_scopes xc).
Lemma set_child_same sc : set_child_scopes (child_scopes sc) sc = sc.
Proof. by destruct sc. Qed.
Lemma Outside_refl P p w : Outside P p w w.
Proof. intros x xc Hx _. exists (child_scopes xc). by rewrite set_child_same. Qed.
Lemma Outside_trans P p w1 w2 w3 : Outside P p w1 w2 → Outside P p w2 w3 → Outside P p w1 w3.
Proof.
  intros O1 O2 x xc Hx HP. destruct (O1 _ _ Hx HP) as (l1 & H1 & E1). destruct (O2 _ _ H1 HP) as (l2 & H2 & E2).
  exists l2. split; [by destruct xc|]. intros Hp. rewrite (E2 Hp). by rewrite <- (E1 Hp).
Qed.
Lemma Outside_weaken P p w w' : Outside P None w w' → Outside P p w w'.
Proof. intros O x xc Hx HP. destruct (O _ _ Hx HP) as (l & H & E). exists l. split; [done|]. intros _. by apply E. Qed.

(** ** Single steps *)
Lemma Shrunk_update w s sc sc' : scopes w !! s = Some sc → frozen sc sc' →
  Shrunk w (set_scopes (<[s := sc']> (scopes w)) w).
Proof.
  intros Hs F. constructor; cbn; [done..| |].
  - intros x xc [[<- <-]|[_ Hx]]%lookup_insert_Some; eauto. exists xc. done.
  - intros x xc Hx [Hn _]%lookup_insert_None. congruence.
Qed.
Lemma Partly_update X w s sc sc' : scopes w !! s = Some sc → parent_scope sc' = parent_scope sc →
  child_scopes sc' = child_scopes sc → Partly X w → Partly X (set_scopes (<[s := sc']> (scopes w)) w).
Proof.
  intros Hs Hp Hch D.
  assert (∀ x xc', <[s := sc']> (scopes w) !! x = Some xc' → ∃ xc, scopes w !! x = Some xc ∧
            parent_scope xc' = parent_scope xc ∧ child_scopes xc' = child_scopes xc) as Hback.
  { intros x xc' [[<- <-]|[_ Hx]]%lookup_insert_Some; eauto. }
  assert (∀ x xc, scopes w !! x = Some xc → ∃ xc', <[s := sc']> (scopes w) !! x = Some xc' ∧
            parent_scope xc' = parent_scope xc ∧ child_scopes xc' = child_scopes xc) as Hforth.
  { intros x xc Hx. destruct (decide (s = x)) as [<-|Hne]; [|exists xc; by rewrite lookup_insert_ne].
    simplify_eq. exists sc'. by rewrite lookup_insert_eq. }
  constructor; cbn.
  - intros x xc' (xc & Hx & _)%Hback. by eapply d_next.
  - intros x xc' c (xc & Hx & _ & ->)%Hback HX Hc. destruct (d_child _ _ D _ _ _ Hx HX Hc) as (csc & Hcs & Hpc).
    destruct (Hforth _ _ Hcs) as (csc' & ? & Hpc' & _). exists csc'. by rewrite Hpc'.
  - intros x xc' p (xc & Hx & -> & _)%Hback Hxp. destruct (d_parent _ _ D _ _ _ Hx Hxp) as (Hlt & psc & Hps & Hin).
    split; [done|]. destruct (Hforth _ _ Hps) as (psc' & ? & _ & Hch'). exists psc'. by rewrite Hch'.
  - intros x xc' (xc & Hx & _ & ->)%Hback. by eapply d_nodup.
Qed.
(** The children of [s] will be disposed of. *)
Lemma Partly_weaken X s w : Partly X w → Partly (s :: X) w.
Proof.
  intros D. constructor; [apply D| | |].
  - intros x xc c Hx HX. eapply d_child; [done..|]. by intros ?; apply HX; right.
  - intros x xc p Hx Hp. destruct (d_parent _ _ D _ _ _ Hx Hp) as (Hlt & psc & Hps & Hin). split; [done|].
    exists psc. split; [done|]. intros HX. apply Hin. by intros ?; apply HX; right.
  - intros x xc Hx HX. eapply d_nodup; [done..|]. by intros ?; apply HX; right.
Qed.
(** A child of [s] forgets its parent. *)
Lemma Partly_orphan X w s c csc : Partly X w → s ∈ X → scopes w !! c = Some csc → parent_scope csc = Some s →
  Partly X (set_scopes (<[c := set_parent_scope None csc]> (scopes w)) w).
Proof.
  intros D HsX Hc Hp. constructor; cbn.
  - intros x xc [[<- <-]|[_ Hx]]%lookup_insert_Some; by eapply d_next.
  - assert (∀ x xc, scopes w !! x = Some xc → x ∉ X → ∀ d, d ∈ child_scopes xc →
      ∃ dsc, <[c := set_parent_scope None csc]> (scopes w) !! d = Some dsc ∧ parent_scope dsc = Some x) as Hchild.
    { intros x xc Hx HX d Hd. destruct (d_child _ _ D _ _ _ Hx HX Hd) as (dsc & Hds & Hdp). exists dsc.
      rewrite lookup_insert_ne; [done|]. intros <-. congruence. }
    intros x xc d [[<- <-]|[_ Hx]]%lookup_insert_Some HX Hd; [by apply (Hchild c csc Hc)|by apply (Hchild x xc)].
  - intros x xc p [[<- <-]|[Hne Hx]]%lookup_insert_Some Hxp; [done|].
    destruct (d_parent _ _ D _ _ _ Hx Hxp) as (Hlt & psc & Hps & Hin). split; [done|].
    destruct (decide (c = p)) as [<-|Hcp]; [|exists psc; by rewrite lookup_insert_ne].
    simplify_eq. eexists. rewrite lookup_insert_eq. split; [done|]. done.
  - intros x xc [[<- <-]|[_ Hx]]%lookup_insert_Some; [exact (d_nodup _ _ D c csc Hc)|exact (d_nodup _ _ D x xc Hx)].
Qed.
(** A scope without children is deleted. *)
Lemma Partly_delete X w s sc : Partly (s :: X) w → scopes w !! s = Some sc → parent_scope sc = None →
  (∀ x xc, scopes w !! x = Some xc → parent_scope xc ≠ Some s) →
  Partly X (set_scopes (delete s (scopes w)) w).
Proof.
  intros D Hs Hp Hno. constructor; cbn.
  - intros x xc [_ Hx]%lookup_delete_Some. by eapply d_next.
  - intros x xc c [Hne Hx]%lookup_delete_Some HX Hc.
    assert (x ∉ s :: X) as HX' by (rewrite not_elem_of_cons; split; [congruence|done]).
    destruct (d_child _ _ D _ _ _ Hx HX' Hc) as (csc & Hcs & Hpc).
    exists csc. split; [|done]. apply lookup_delete_Some. split; [|done]. intros <-. congruence.
  - intros x xc p [Hne Hx]%lookup_delete_Some Hxp. destruct (d_parent _ _ D _ _ _ Hx Hxp) as (Hlt & psc & Hps & Hin).
    split; [done|]. assert (s ≠ p) as Hsp by (intros <-; exact (Hno x xc Hx Hxp)). exists psc.
    split; [by apply lookup_delete_Some|]. intros HX. apply Hin. by rewrite not_elem_of_cons.
  - intros x xc [Hne Hx]%lookup_delete_Some HX. eapply d_nodup; [done..|]. by rewrite not_elem_of_cons.
Qed.
(** The same for a child of [p], with the vector [l] of [p] after it left. *)
Lemma Partly_unlink X w s sc p psc l : Partly (s :: X) w → scopes w !! s = Some sc → parent_scope sc = Some p →
  scopes w !! p = Some psc → p ∉ X → (∀ x, x ∈ l ↔ x ∈ child_scopes psc ∧ x ≠ s) → NoDup l →
  (∀ x xc, scopes w !! x = Some xc → parent_scope xc ≠ Some s) →
  Partly X (set_scopes (delete s (<[p := set_child_scopes l psc]> (scopes w))) w).
Proof.
  intros D Hs Hp Hps HpX Hl Hnd Hno. destruct (d_parent _ _ D _ _ _ Hs Hp) as (Hlt & _).
  assert (p ∉ s :: X) as HpX' by (rewrite not_elem_of_cons; split; [lia|done]).
  assert (∀ x xc, delete s (<[p := set_child_scopes l psc]> (scopes w)) !! x = Some xc →
    x ≠ s ∧ ∃ xc0, scopes w !! x = Some xc0 ∧ parent_scope xc = parent_scope xc0 ∧
      (∀ c, c ∈ child_scopes xc ↔ c ∈ child_scopes xc0 ∧ (x = p → c ≠ s))) as Hback.
  { intros x xc [Hne Hx]%lookup_delete_Some. split; [done|].
    apply lookup_insert_Some in Hx as [[<- <-]|[Hxp Hx]]; [|exists xc; naive_solver].
    exists psc. split_and!; [done|done|]. cbn. intros c. rewrite Hl. naive_solver. }
  assert (∀ x xc, scopes w !! x = Some xc → x ≠ s →
    ∃ xc', delete s (<[p := set_child_scopes l psc]> (scopes w)) !! x = Some xc' ∧ parent_scope xc' = parent_scope xc ∧
      (∀ c, c ∈ child_scopes xc' ↔ c ∈ child_scopes xc ∧ (x = p → c ≠ s))) as Hforth.
  { intros x xc Hx Hne. rewrite lookup_delete_ne by done. destruct (decide (p = x)) as [<-|Hpx].
    - simplify_eq. eexists. rewrite lookup_insert_eq. split_and!; [done|done|]. cbn. intros c. rewrite Hl. naive_solver.
    - exists xc. rewrite lookup_insert_ne by done. naive_solver. }
  constructor; cbn.
  - intros x xc (_ & xc0 & Hx & _)%Hback. by eapply d_next.
  - intros x xc c (Hne & xc0 & Hx & _ & Hch)%Hback HX [Hc Hcs]%Hch.
    assert (x ∉ s :: X) as HX' by by rewrite not_elem_of_cons.
    destruct (d_child _ _ D _ _ _ Hx HX' Hc) as (csc & Hcl & Hpc).
    destruct (Hforth c csc Hcl) as (csc' & ? & Hpc' & _).
    { intros ->. simplify_eq. by apply Hcs. }
    exists csc'. by rewrite Hpc'.
  - intros x xc q (Hne & xc0 & Hx & -> & _)%Hback Hq. destruct (d_parent _ _ D _ _ _ Hx Hq) as (? & qsc & Hqs & Hin).
    split; [done|]. assert (q ≠ s) as Hqs' by (intros ->; exact (Hno x _ Hx Hq)).
    destruct (Hforth _ _ Hqs Hqs') as (qsc' & ? & _ & Hch). exists qsc'. split; [done|]. intros HqX.
    apply Hch. split; [|done]. apply Hin. by rewrite not_elem_of_cons.
  - intros x xc [Hne Hx]%lookup_delete_Some HX. apply lookup_insert_Some in Hx as [[<- <-]|[_ Hx]]; [done|].
    eapply d_nodup; [done..|]. by rewrite not_elem_of_cons.
Qed.

Lemma Shrunk_delete w s sc : scopes w !! s = Some sc → coroutines sc = [] →
  Shrunk w (set_scopes (delete s (scopes w)) w).
Proof.
  intros Hs Hc. constructor; cbn; [done..| |].
  - intros x xc [_ Hx]%lookup_delete_Some. by exists xc.
  - intros x xc Hx [->|Hn]%lookup_delete_None; congruence.
Qed.
Lemma Partly_same X w w' : scopes w' = scopes w → next_scope w' = next_scope w → Partly X w → Partly X w'.
Proof. intros Hs Hn []. constructor; rewrite ?Hs, ?Hn; done. Qed.
Lemma Shrunk_out w o : Shrunk w (set_s_out o w).
Proof. constructor; cbn; [done..| |congruence]. intros s sc Hs. by exists sc. Qed.
Lemma Shrunk_calm w : Shrunk w (set_eg false w).
Proof. constructor; cbn; [done..| |congruence]. intros s sc Hs. by exists sc. Qed.

(** The subtree of a scope. *)
Definition Child (m : gmap nat async_scope_t) (p c : nat) : Prop := ∃ psc, m !! p = Some psc ∧ c ∈ child_scopes psc.
Abbreviation Under m := (rtc (Child m)).

(** ** [scope_dispose] *)
Section disposal.
Context `{!ScopeMacros, !ScopeMacrosSpec} (env : scope_env) (no_throw : ∀ s, listener_throws env s = false).

Lemma wp_quiet_notify s Φ w : Φ tt (set_s_out (s_out w ++ [Notified s false]) w) → wp (scope_notify env s false) Φ w.
Proof.
  intros HΦ. unfold scope_notify. wp_simpl. rewrite wp_semit, andb_false_r. wp_simpl. by rewrite no_throw.
Qed.
Lemma wp_no_finally s sc Φ w : scopes w !! s = Some sc → finally_handlers sc = [] → Φ false w →
  wp (async_scope_call_finally_handlers env s) Φ w.
Proof.
  intros Hs Hf HΦ. unfold async_scope_call_finally_handlers. wp_simpl. eapply wp_get_scope; [exact Hs|].
  by rewrite bool_decide_true.
Qed.

Record Post (X : list nat) (P : nat → Prop) (s : nat) (sc : async_scope_t) (w : sworld) (r : bool) (w' : sworld) : Prop := {
  p_true : r = true;
  p_shrunk : Shrunk w w';
  p_partly : Partly X w';
  p_kept : Kept X w w';
  p_outside : Outside P (parent_scope sc) w w';
  p_freed : sc_disposing sc = false → (ref_count sc ≤ 1)%Z → scopes w' !! s = None
}.

(** While [s] is being disposed of. *)
Record Going (X Y : list nat) (P : nat → Prop) (s : nat) (sc : async_scope_t) (w w1 : sworld) (sc1 : async_scope_t) : Prop := {
  o_shrunk : Shrunk w w1;
  o_partly : Partly Y w1;
  o_kept : Kept X w w1;
  o_outside : Outside P None w w1;
  o_lookup : scopes w1 !! s = Some sc1;
  o_children : child_scopes sc1 = child_scopes sc;
  o_parent : parent_scope sc1 = parent_scope sc
}.
Lemma Going_start X P s sc w : Partly X w → scopes w !! s = Some sc → Going X X P s sc w w sc.
Proof. intros D Hs. constructor; try done; [by intros ?|apply Outside_refl]. Qed.
Lemma Going_update X Y P s sc w w1 sc1 sc2 : Going X Y P s sc w w1 sc1 → P s → s ∉ X →
  (∀ p, parent_scope sc = Some p → p ∉ X) → frozen sc1 sc2 → parent_scope sc2 = parent_scope sc1 →
  child_scopes sc2 = child_scopes sc1 →
  Going X Y P s sc w (set_scopes (<[s := sc2]> (scopes w1)) w1) sc2.
Proof.
  intros [S D K O Hs Hch Hp] HP HsX HpX F Hp2 Hch2. constructor; cbn; [| | | | |congruence..].
  - etrans; [exact S|by eapply Shrunk_update].
  - by eapply Partly_update.
  - eapply Kept_then; [exact K|]. intros x xc Hx HX. cbn. rewrite lookup_insert_ne; [done|]. intros <-.
    simplify_eq. destruct HX as [HX|(p & Hxp & HX)]; [done|]. apply (HpX p); [congruence|done].
  - eapply Outside_trans; [exact O|]. intros x xc Hx HPx. exists (child_scopes xc). split; [|done]. cbn.
    rewrite set_child_same, lookup_insert_ne; [done|]. by intros <-.
  - by rewrite lookup_insert_eq.
Qed.

Lemma dispose_loop (f : nat → SM bool) s X P l w :
  Partly (s :: X) w → eg_exception w = false → Hollow P w → quiet w → is_Some (scopes w !! s) → NoDup l →
  (∀ x, x ∈ l ↔ ∃ xc, scopes w !! x = Some xc ∧ parent_scope xc = Some s) → (∀ c, c ∈ l → P c) →
  (∀ x, x ∈ X → x < s) →
  (∀ c csc w1, next_scope w1 = next_scope w → P c → s < c → scopes w1 !! c = Some csc → parent_scope csc = None →
     Partly (s :: X) w1 → eg_exception w1 = false → Hollow P w1 → quiet w1 → wp (f c) (Post (s :: X) P c csc w1) w1) →
  wp ((fix children l :=
         match l with
         | [] => mret false
         | c :: l =>
           upd_scope c (set_parent_scope None);;
           f c;;
           w ← get;
           if eg_exception w then mret true else children l
         end) l)
    (λ r w', r = false ∧ Shrunk w w' ∧ Partly (s :: X) w' ∧ Kept X w w' ∧ Outside P None w w' ∧
       scopes w' !! s = scopes w !! s ∧ ∀ x xc, scopes w' !! x = Some xc → parent_scope xc ≠ Some s) w.
Proof.
  revert w. induction l as [|c l IH]; intros w D Heg HP Hq Hs Hnd Hl HlP HX Hf.
  { rewrite wp_ret. split_and!; [done..|by intros ?|apply Outside_refl|done|]. intros x xc Hx Hp.
    assert (x ∈ []) as Hin by (apply Hl; eauto). by apply not_elem_of_nil in Hin. }
  apply NoDup_cons in Hnd as [Hcl Hnd]. destruct (proj1 (Hl c)) as (csc & Hcs & Hcp); [by left|].
  assert (s < c) as Hlt by by eapply (d_parent _ _ D).
  rewrite wp_bind. eapply (wp_upd_scope c csc); [exact Hcs|]. cbn beta. set (w1 := set_scopes _ w).
  assert (Shrunk w w1) as S1.
  { eapply Shrunk_update; [exact Hcs|]. constructor; auto. }
  assert (Partly (s :: X) w1) as D1 by (eapply Partly_orphan; [done|by left|done..]).
  rewrite wp_bind. eapply wp_mono.
  { apply (Hf c (set_parent_scope None csc) w1); [done|by apply HlP; left|done|cbn; by rewrite lookup_insert_eq|done..| |].
    - by eapply Shrunk_hollow.
    - by eapply Shrunk_quiet. }
  cbn beta. intros r w2 [_ S2 D2 K2 O2 _]. assert (Shrunk w w2) as S12 by (etrans; [exact S1|exact S2]).
  rewrite wp_bind, wp_get. rewrite (s_calm _ _ S12 Heg).
  assert (∀ x xc, x ≠ c → scopes w !! x = Some xc → (x = s ∨ x ∈ X ∨ ∃ p, parent_scope xc = Some p ∧ (p = s ∨ p ∈ X)) →
    scopes w2 !! x = Some xc) as Hkeep.
  { intros x xc Hne Hx Hin. apply K2; [cbn; by rewrite lookup_insert_ne|]. rewrite elem_of_cons.
    destruct Hin as [->|[?|(p & ? & Hp)]]; [by left; left|by left; right|]. right. exists p. by rewrite elem_of_cons. }
  eapply wp_mono; [apply IH|].
  - done.
  - by apply S12.
  - by eapply Shrunk_hollow.
  - by eapply Shrunk_quiet.
  - destruct Hs as [sc Hs]. exists sc. apply Hkeep; [lia|done|by left].
  - done.
  - intros x. split.
    + intros Hx. destruct (proj1 (Hl x)) as (xc & Hxc & Hxp); [by right|]. exists xc. split; [|done].
      apply Hkeep; [by intros ->|done|]. right. right. exists s. auto.
    + intros (xc2 & Hx2 & Hxp2). destruct (s_back _ _ S2 _ _ Hx2) as (xc1 & Hx1 & F).
      destruct (f_parent _ _ F) as [Hp|Hp]; [|congruence]. cbn in Hx1.
      apply lookup_insert_Some in Hx1 as [[<- <-]|[Hne Hx1]]; [cbn in Hp; congruence|].
      assert (x ∈ c :: l) as Hin by (apply Hl; exists xc1; split; [done|congruence]).
      apply elem_of_cons in Hin as [->|]; [done|done].
  - intros d Hd. apply HlP. by right.
  - done.
  - intros d dsc w3 Hn. apply Hf. by rewrite Hn, (s_next_scope _ _ S12).
  - cbn beta. intros r3 w3 (-> & S3 & D3 & K3 & O3 & Hs3 & Hno). split_and!; [done|by etrans|done| | | |done].
    + eapply Kept_then; [|exact K3]. intros x xc Hx Hin. apply Hkeep; [|done|naive_solver].
      intros ->. destruct Hin as [HcX%HX|(p & Hp & HpX%HX)]; [lia|]. simplify_eq. lia.
    + eapply Outside_trans; [|exact O3]. eapply (Outside_trans _ _ _ w1); [|exact O2].
      intros x xc Hx HPx. exists (child_scopes xc). split; [|done]. rewrite set_child_same. cbn.
      rewrite lookup_insert_ne; [done|]. intros <-. apply HPx, HlP. by left.
    + rewrite Hs3. destruct Hs as [sc Hs]. rewrite Hs. apply Hkeep; [lia|done|by left].
Qed.

(** The last steps: the scope leaves its parent and is freed. *)
Lemma free_spec X P s sc w w1 sc1 : Going X (s :: X) P s sc w w1 sc1 → P s → quiet w1 →
  (∀ x, x ∈ X → x < s) → parent_scope sc = None ∨ X = [] → coroutines sc1 = [] →
  (∀ x xc, scopes w1 !! x = Some xc → parent_scope xc ≠ Some s) →
  wp (unlink s (parent_scope sc1)) (λ _ w', Post X P s sc w true
        (set_s_out (s_out w' ++ [Freed s]) (set_scopes (delete s (scopes w')) w'))) w1.
Proof.
  intros [S D K O Hs Hch Hp] HP Hq HX Hroot Hco Hno.
  destruct (parent_scope sc1) as [p|] eqn:Hp1; cbn [unlink].
  - assert (X = []) as -> by (destruct Hroot as [Hr|?]; [congruence|done]). clear HX.
    destruct (d_parent _ _ D _ _ _ Hs Hp1) as (Hlt & psc & Hps & _).
    eapply (wp_upd_scope p psc); [exact Hps|]. cbn beta.
    set (l := scope_remove_child s (child_scopes psc)). set (w2 := set_scopes (<[p := _]> _) w1).
    assert (Shrunk w1 w2) as S2.
    { eapply Shrunk_update; [exact Hps|]. constructor; auto. cbn. intros c Hc. by apply scope_remove_child_spec in Hc as []. }
    constructor.
    + done.
    + etrans; [exact S|]. etrans; [exact S2|].
      etrans; [|apply Shrunk_out]. eapply Shrunk_delete; [|exact Hco]. cbn. by rewrite lookup_insert_ne by lia.
    + eapply (Partly_same _ (set_scopes (delete s (<[p := set_child_scopes l psc]> (scopes w1))) w1)); [done..|].
      eapply Partly_unlink; [exact D|done|done|done|apply not_elem_of_nil|apply scope_remove_child_spec| |done].
      apply scope_remove_child_nodup. apply (d_nodup _ _ D _ _ Hps). rewrite elem_of_cons. intros [?|?%not_elem_of_nil]; lia.
    + intros x xc _ [?%not_elem_of_nil|(q & _ & ?%not_elem_of_nil)]; done.
    + intros x xc Hx HPx. destruct (O _ _ Hx HPx) as (l1 & Hl1 & E1).
      assert (x ≠ s) as Hxs by by intros ->. cbn. rewrite lookup_delete_ne by done.
      destruct (decide (p = x)) as [<-|Hpx].
      * rewrite lookup_insert_eq. simplify_eq. exists l. split; [by destruct xc|]. congruence.
      * rewrite lookup_insert_ne by done. exists l1. split; [done|]. intros _. by apply E1.
    + intros _ _. cbn. by rewrite lookup_delete_eq.
  - rewrite wp_ret. constructor.
    + done.
    + etrans; [exact S|].
      etrans; [|apply Shrunk_out]. by eapply Shrunk_delete.
    + eapply (Partly_same _ (set_scopes (delete s (scopes w1)) w1)); [done..|]. by eapply Partly_delete.
    + eapply Kept_then; [exact K|]. intros x xc Hx Hin. cbn. rewrite lookup_delete_ne; [done|].
      intros <-. simplify_eq. destruct Hin as [?%HX|(q & ? & _)]; [lia|congruence].
    + intros x xc Hx HPx. destruct (O _ _ Hx HPx) as (l1 & Hl1 & E1). exists l1. split; [|intros _; by apply E1]. cbn.
      rewrite lookup_delete_ne; [done|]. by intros <-.
    + intros _ _. cbn. by rewrite lookup_delete_eq.
Qed.

Lemma dispose_tree_spec fuel s X P sc w :
  Partly X w → scopes w !! s = Some sc → P s → Hollow P w → quiet w → eg_exception w = false →
  (∀ x, x ∈ X → x < s) → parent_scope sc = None ∨ X = [] → next_scope w - s < fuel →
  wp (dispose env fuel s) (Post X P s sc w) w.
Proof.
  revert s X sc w. induction fuel as [|fuel IH]; intros s X sc w D Hs HP Hh Hq Heg HX Hroot Hf; [lia|].
  assert (s ∉ X) as HsX by (intros ?%HX; lia).
  assert (∀ p, parent_scope sc = Some p → p ∉ X) as HpX.
  { intros p Hp. destruct Hroot as [?| ->]; [congruence|apply not_elem_of_nil]. }
  pose proof (Going_start X P s sc w D Hs) as G0.
  cbn [dispose]. wp_simpl. eapply wp_get_scope; [exact Hs|].
  destruct (sc_disposing sc) eqn:Hdisp.
  { rewrite wp_ret. constructor; [done..|by intros ?|apply Outside_refl|congruence]. }
  destruct (Z.ltb_spec 1 (ref_count sc)) as [Href|Href].
  { wp_simpl. eapply (wp_upd_scope s sc); [exact Hs|]. wp_simpl. apply wp_quiet_notify. rewrite wp_ret.
    destruct (Going_update X X P s sc w w sc (set_ref_count (ref_count sc - 1) sc) G0) as [S1 D1 K1 O1 _ _ _];
      [done..|by constructor; auto|done|done|].
    constructor; [done| |by eapply Partly_same; [| |exact D1]|exact K1|by apply Outside_weaken|lia].
    etrans; [exact S1|apply Shrunk_out]. }
  wp_simpl. eapply (wp_mono _ (λ _ w1, ∃ sc1, Going X X P s sc w w1 sc1 ∧ frozen sc sc1 ∧ (ref_count sc1 ≤ 1)%Z)).
  { case_match; [|exists sc; done]. eapply (wp_upd_scope s sc); [exact Hs|]. exists (set_ref_count 1 sc).
    split; [|split; [by constructor; auto|cbn; lia]]. eapply Going_update; [done..|by constructor; auto|done|done]. }
  intros _ w1 (sc1 & G1 & F1 & Hr1). wp_simpl. eapply (wp_upd_scope s sc1); [exact (o_lookup _ _ _ _ _ _ _ _ G1)|].
  assert (frozen sc1 (set_sc_disposing true sc1)) as F2 by by constructor; auto.
  pose proof (Going_update _ _ _ _ _ _ _ _ _ G1 HP HsX HpX F2 eq_refl eq_refl) as G2.
  set (sc2 := set_sc_disposing true sc1) in *. set (w2 := set_scopes _ w1) in *. clearbody w2.
  destruct (Hh _ _ HP Hs) as [Hco HchP]. wp_simpl. split; [by apply bool_decide_eq_true|].
  pose proof (o_shrunk _ _ _ _ _ _ _ _ G2) as S2. pose proof (o_lookup _ _ _ _ _ _ _ _ G2) as Hs2.
  wp_simpl. eapply wp_mono.
  { eapply (dispose_loop (dispose env fuel) s X P (child_scopes sc) w2).
    - apply Partly_weaken, G2.
    - by apply S2.
    - by eapply Shrunk_hollow.
    - by eapply Shrunk_quiet.
    - by exists sc2.
    - rewrite <- (o_children _ _ _ _ _ _ _ _ G2). by eapply (d_nodup _ _ (o_partly _ _ _ _ _ _ _ _ G2)).
    - intros x. rewrite <- (o_children _ _ _ _ _ _ _ _ G2). split.
      + by apply (d_child _ _ (o_partly _ _ _ _ _ _ _ _ G2) _ _ _ Hs2).
      + intros (xc & Hx & Hxp). destruct (d_parent _ _ (o_partly _ _ _ _ _ _ _ _ G2) _ _ _ Hx Hxp) as (_ & psc & Hps & Hin).
        simplify_eq. by apply Hin.
    - done.
    - done.
    - intros c csc w3 Hn3 HPc Hlt Hc3 Hp3 D3 Heg3 Hh3 Hq3. apply IH; [done..| |by left|].
      + intros x [->|Hx%HX]%elem_of_cons; lia.
      + pose proof (d_next _ _ (o_partly _ _ _ _ _ _ _ _ G0) _ _ Hs). rewrite Hn3, (s_next_scope _ _ S2). lia. }
  cbn beta. intros r w3 (-> & S3 & D3 & K3 & O3 & Hs3 & Hno). wp_simpl. apply wp_quiet_notify.
  unfold take_exception. wp_simpl. set (w4 := set_eg false _).
  assert (Shrunk w w4) as S4.
  { etrans; [exact S2|]. etrans; [exact S3|]. etrans; [apply Shrunk_out|apply Shrunk_calm]. }
  assert (scopes w4 !! s = Some sc2) as Hs4 by (rewrite <- Hs2; exact Hs3).
  assert (Going X (s :: X) P s sc w w4 sc2) as G4.
  { constructor; [exact S4|by eapply Partly_same; [| |exact D3]| | |exact Hs4|apply G2|apply G2].
    - eapply Kept_then; [apply G2|exact K3].
    - eapply Outside_trans; [apply G2|exact O3]. }
  assert (eg_exception w3 = false) as Heg3 by by apply S3, S2.
  assert (quiet w4) as Hq4 by by eapply Shrunk_quiet.
  eapply wp_no_finally; [exact Hs4|by apply (Hq4 _ _ Hs4)|]. wp_simpl. eapply wp_get_scope; [exact Hs4|]. wp_simpl.
  assert (Going X (s :: X) P s sc w (set_scopes (<[s := set_ref_count (ref_count sc2 - 1) sc2]> (scopes w4)) w4)
            (set_ref_count (ref_count sc2 - 1) sc2)) as G5.
  { eapply Going_update; [exact G4|done..|by constructor; auto|done|done]. }
  eapply (wp_upd_scope s sc2); [exact Hs4|]. rewrite (proj2 (Z.ltb_ge _ _)) by (cbn; lia).
  change (eg_exception (set_s_out _ w3)) with (eg_exception w3). rewrite Heg3.
  set (w5 := set_scopes _ w4) in *. wp_simpl. eapply wp_mono.
  - apply (free_spec X P s sc w w5 (set_ref_count (ref_count sc2 - 1) sc2)); [exact G5|done| |done|done| |].
    + eapply Shrunk_quiet; [apply G5|done].
    + change (coroutines sc2 = []). rewrite (f_coroutines _ _ F2), (f_coroutines _ _ F1). done.
    + intros x xc Hx. destruct (decide (x = s)) as [->|Hne].
      * subst w5. cbn in Hx. rewrite lookup_insert_eq in Hx. simplify_eq. apply (Hno s sc2). by rewrite Hs3.
      * apply (Hno x xc). subst w5. cbn in Hx. by rewrite lookup_insert_ne in Hx.
  - cbn beta. intros _ w6 HPost. wp_simpl. rewrite wp_semit. by wp_simpl.
Qed.

(** A state between two operations, in which nothing keeps a scope alive. *)
Record Still (w : sworld) : Prop := {
  st_tree : Tree w;
  st_quiet : quiet w;
  st_calm : eg_exception w = false
}.
Lemma Still_Shrunk w w' : Still w → Shrunk w w' → Partly [] w' → Still w'.
Proof.
  intros [T Q E] S D. split; [by eapply Partly_Tree|by eapply Shrunk_quiet|by apply S].
Qed.

Lemma scope_dispose_spec s sc P w : Still w → scopes w !! s = Some sc → P s → Hollow P w →
  wp (scope_dispose env s) (λ r w', r = true ∧ Still w' ∧ Shrunk w w' ∧ Outside P (parent_scope sc) w w' ∧
    (sc_disposing sc = false → (ref_count sc ≤ 1)%Z → scopes w' !! s = None)) w.
Proof.
  intros St Hs HP Hh. pose proof (Tree_Partly _ (st_tree _ St)) as D. unfold scope_dispose. wp_simpl.
  eapply wp_mono; [apply (dispose_tree_spec _ s [] P sc); [done..|apply St|apply St| |by right|]|].
  - by intros x ?%not_elem_of_nil.
  - unfold scope_fuel. lia.
  - cbn beta. intros r w' [Hr S D' _ O Hf]. split_and!; [done|by eapply Still_Shrunk|done..].
Qed.

(** ** [scope_try_to_dispose] *)

Lemma Under_order w s x : Tree w → Under (scopes w) s x → s ≤ x.
Proof.
  intros T. induction 1 as [s|s c x (sc & Hs & Hc) _ IH]; [lia|]. destruct (t_child _ T _ _ _ Hs Hc) as [? _]. lia.
Qed.
Lemma Disposable_under m s x : Disposable m s → Under m s x → Disposable m x.
Proof.
  intros D. induction 1 as [|s c x (sc & Hs & Hc) _ IH]; [done|]. inversion D; simplify_eq. auto.
Qed.
Lemma Disposable_hollow w s : Disposable (scopes w) s → Hollow (Under (scopes w) s) w.
Proof.
  intros D x xc HU Hx. pose proof (Disposable_under _ _ _ D HU) as Dx. inversion Dx; simplify_eq. split; [done|].
  intros c Hc. eapply rtc_r; [exact HU|]. by exists xc.
Qed.
(** Below [s]. *)
Lemma Hollow_below P s w : Tree w → Hollow P w → Hollow (λ x, P x ∧ s < x) w.
Proof.
  intros T Hh x xc [HP Hlt] Hx. destruct (Hh _ _ HP Hx) as [Hc Hch]. split; [done|]. intros c Hin. split; [auto|].
  destruct (t_child _ T _ _ _ Hx Hin) as [? _]. lia.
Qed.

Lemma dispose_children_spec fuel s i sc P w : Still w → scopes w !! s = Some sc → Hollow P w → P s →
  length (child_scopes sc) - i < fuel →
  wp (dispose_children env fuel s i) (λ r w', r = true ∧ Still w' ∧ Shrunk w w' ∧
    (∃ l, scopes w' !! s = Some (set_child_scopes l sc)) ∧ Outside P None w w') w.
Proof.
  revert i sc w. induction fuel as [|fuel IH]; intros i sc w St Hs Hh HP Hf; [lia|]. cbn [dispose_children]. wp_simpl.
  eapply wp_get_scope; [exact Hs|]. destruct (child_scopes sc !! i) as [c|] eqn:Hi.
  2:{ split_and!; [done..| |apply Outside_refl]. exists (child_scopes sc). by rewrite set_child_same. }
  pose proof (lookup_lt_Some _ _ _ Hi) as Hlen. apply list_elem_of_lookup_2 in Hi.
  destruct (t_child _ (st_tree _ St) _ _ _ Hs Hi) as (Hlt & csc & Hcs & Hcp). wp_simpl.
  eapply wp_mono; [apply (scope_dispose_spec c csc (λ x, P x ∧ s < x)); [done..| |]|].
  { split; [|done]. by eapply Hh. }
  { by apply Hollow_below; [apply St|]. }
  cbn beta. intros r w1 (-> & St1 & S1 & O1 & _). wp_simpl. rewrite (st_calm _ St1), Hcp in *.
  destruct (O1 s sc Hs) as (l & Hl & _); [lia|].
  assert (length l ≤ length (child_scopes sc)) as Hle.
  { apply submseteq_length, NoDup_submseteq; [exact (l_nodup _ (t_links _ (st_tree _ St1)) _ _ Hl)|].
    destruct (s_back _ _ S1 _ _ Hl) as (sc0 & ? & F). simplify_eq. apply (f_children _ _ F). }
  eapply wp_mono; [eapply (IH (S i)); [done|exact Hl|by eapply Shrunk_hollow|done|cbn; lia]|].
  cbn beta. intros r w2 (-> & St2 & S2 & (l2 & Hl2) & O2). split_and!; [done..|by etrans| |].
  - exists l2. by destruct sc.
  - eapply Outside_trans; [|exact O2]. intros x xc Hx HPx. destruct (O1 _ _ Hx) as (lx & Hlx & Ex); [naive_solver|].
    exists lx. split; [done|]. intros _. apply Ex. intros [= ->]. done.
Qed.

Lemma Still_plain w s sc sc' : Still w → scopes w !! s = Some sc → plain sc sc' →
  Still (set_scopes (<[s := sc']> (scopes w)) w).
Proof.
  intros [T Q E] Hs Hp. destruct (Ok_plain w s sc sc' T Hs Hp) as [T' M']. split; [done|by eapply Mono_quiet|done].
Qed.

Lemma disposable_spec s w Φ : Tree w → is_Some (scopes w !! s) →
  (∀ b, (b = true ↔ Disposable (scopes w) s) → Φ b w) → wp (SCOPE_CAN_BE_DISPOSED s) Φ w.
Proof.
  intros T Hs HΦ. unfold SCOPE_CAN_BE_DISPOSED, can_be_disposed. rewrite can_be_disposed_args_spec. wp_simpl.
  rewrite wp_option. destruct (can_be_disposed_disposable w (scope_fuel w) s T Hs) as (b & Hb & HP); [unfold scope_fuel; lia|].
  exists b. auto.
Qed.

Lemma try_to_dispose_spec s sc w : Still w → scopes w !! s = Some sc → sc_disposing sc = false →
  wp (scope_try_to_dispose env s) (λ r w', (r = true ↔ Disposable (scopes w) s) ∧ (r = false → w' = w) ∧
    Still w' ∧ Shrunk w w' ∧ Outside (Under (scopes w) s) (parent_scope sc) w w' ∧
    (r = true → (ref_count sc ≤ 1)%Z → scopes w' !! s = None)) w.
Proof.
  intros St Hs Hd. pose proof (st_tree _ St) as T. unfold scope_try_to_dispose. wp_simpl. eapply wp_get_scope; [exact Hs|].
  rewrite Hd. wp_simpl. apply disposable_spec; [done|by exists sc|]. intros b Hb. destruct b.
  2:{ wp_simpl. split_and!; [done..|apply Outside_refl|done]. }
  pose proof (Disposable_hollow _ _ (proj1 Hb eq_refl)) as Hh. set (P := Under (scopes w) s) in *.
  assert (P s) as HP by apply rtc_refl. cbn [negb]. wp_simpl. eapply (wp_upd_scope s sc); [exact Hs|].
  set (w1 := set_scopes _ w). assert (Shrunk w w1) as S1 by (eapply Shrunk_update; [exact Hs|by constructor; auto]).
  assert (Still w1) as St1.
  { eapply Still_plain; [done|exact Hs|]. constructor; try done; [constructor; auto|by right]. }
  assert (∀ f, Outside P (parent_scope sc) w (set_scopes (<[s := f]> (scopes w)) w)) as Hout.
  { intros f x xc Hx HPx. exists (child_scopes xc). split; [|done]. cbn.
    rewrite set_child_same, lookup_insert_ne; [done|]. by intros <-. }
  pose proof (Hout (set_sc_disposing true sc)) as O1. fold w1 in O1.
  assert (scopes w1 !! s = Some (set_sc_disposing true sc)) as Hs1 by (cbn; by rewrite lookup_insert_eq).
  clear Hout. clearbody w1. wp_simpl.
  eapply wp_mono; [eapply (dispose_children_spec _ s 0 _ P); [done|exact Hs1|by eapply Shrunk_hollow|done|cbn; lia]|].
  cbn beta. intros r w2 (-> & St2 & S2 & (l & Hs2) & O2). wp_simpl. eapply wp_upd_scope; [exact Hs2|].
  set (w3 := set_scopes _ w2). assert (Shrunk w2 w3) as S3 by (eapply Shrunk_update; [exact Hs2|by constructor; auto]).
  assert (Still w3) as St3.
  { eapply Still_plain; [done|exact Hs2|]. constructor; try done; [constructor; auto|by right]. }
  assert (Shrunk w w3) as S13 by (etrans; [exact S1|]; etrans; [exact S2|exact S3]).
  assert (Outside P (parent_scope sc) w w3) as O3.
  { eapply Outside_trans; [exact O1|]. eapply Outside_trans; [apply Outside_weaken; exact O2|].
    intros x xc Hx HPx. exists (child_scopes xc). split; [|done]. cbn.
    rewrite set_child_same, lookup_insert_ne; [done|]. by intros <-. }
  wp_simpl. eapply wp_mono; [eapply (scope_dispose_spec s _ P); [done|cbn; apply lookup_insert_eq|done|by eapply Shrunk_hollow]|].
  cbn beta. intros r w4 (-> & St4 & S4 & O4 & Hf). wp_simpl. split_and!; [naive_solver|done|done|by etrans| |].
  - by eapply Outside_trans.
  - intros _ Hr. by apply Hf.
Qed.
End disposal.

(** ** A coroutine leaves its scope *)
Definition left_scope (zombie : bool) (i : nat) (sc : async_scope_t) : async_scope_t :=
  set_coroutines (swap_remove i (coroutines sc))
    (if zombie then set_zombie (zombie_coroutines_count sc - 1) sc else set_active (active_coroutines_count sc - 1) sc).

Lemma Counted_remove m rs s sc c co i : Counted m rs → m !! s = Some sc → coroutines sc !! i = Some c →
  rs !! c = Some co → co_finished co = true →
  Counted (<[s := left_scope (co_zombie co) i sc]> m) rs.
Proof.
  intros C Hs Hi Hc Hf. pose proof (swap_remove_perm _ _ _ Hi) as Hperm.
  assert (is_zombie rs c = co_zombie co) as Hz by (unfold is_zombie; by rewrite Hc).
  assert (coroutines (left_scope (co_zombie co) i sc) = swap_remove i (coroutines sc)) as Hleft.
  { unfold left_scope. by destruct (co_zombie co). }
  assert (∀ z, members z rs (coroutines sc) = (Z.b2z (Bool.eqb (co_zombie co) z) + members z rs (swap_remove i (coroutines sc)))%Z) as Hm.
  { intros z. by rewrite (members_perm _ _ _ _ (symmetry Hperm)), members_cons, Hz. }
  constructor.
  - intros x xc [[<- <-]|[_ Hx]]%lookup_insert_Some; [|by eapply c_nodup]. rewrite Hleft.
    pose proof (c_nodup _ _ C _ _ Hs) as Hnd. rewrite <- Hperm in Hnd. by apply NoDup_cons in Hnd as [].
  - intros x xc y [[<- <-]|[_ Hx]]%lookup_insert_Some Hy; [|by eapply c_member]. rewrite Hleft in Hy.
    eapply (c_member _ _ C); [exact Hs|]. rewrite <- Hperm. by right.
  - intros y yc x Hy Hx Hyf. destruct (c_scope _ _ C _ _ _ Hy Hx Hyf) as (xc & Hxc & Hin).
    destruct (decide (s = x)) as [<-|Hne]; [|exists xc; by rewrite lookup_insert_ne].
    simplify_eq. eexists. rewrite lookup_insert_eq. split; [done|]. rewrite Hleft. rewrite <- Hperm in Hin.
    apply elem_of_cons in Hin as [->|]; [congruence|done].
  - intros x xc [[<- <-]|[_ Hx]]%lookup_insert_Some; [|by eapply c_active]. rewrite Hleft.
    pose proof (c_active _ _ C _ _ Hs) as Ha. rewrite Hm in Ha. unfold left_scope. destruct (co_zombie co); cbn in *; lia.
  - intros x xc [[<- <-]|[_ Hx]]%lookup_insert_Some; [|by eapply c_zombie]. rewrite Hleft.
    pose proof (c_zombie _ _ C _ _ Hs) as Ha. rewrite Hm in Ha. unfold left_scope. destruct (co_zombie co); cbn in *; lia.
Qed.

Lemma Tree_remove w s sc c co i : Tree w → scopes w !! s = Some sc → coroutines sc !! i = Some c →
  routines w !! c = Some co → co_finished co = true →
  Tree (set_scopes (<[s := left_scope (co_zombie co) i sc]> (scopes w)) w).
Proof.
  intros T Hs Hi Hc Hf. set (sc' := left_scope _ _ _).
  assert (finally_handlers sc' = finally_handlers sc) as Hfin by (unfold sc', left_scope; by destruct (co_zombie co)).
  pose proof (with_finally_same _ _ _ sc' Hs (or_intror Hfin)) as Hwf. pose proof T as []. constructor; cbn.
  - intros x xc [[<- <-]|[_ Hx]]%lookup_insert_Some; eauto.
  - done.
  - lia.
  - eapply Links_update; [exact Hs|unfold sc', left_scope; by destruct (co_zombie co)..|done].
  - by eapply Counted_remove.
Qed.

Lemma remove_spec s sc c co w Φ : Tree w → scopes w !! s = Some sc → c ∈ coroutines sc →
  routines w !! c = Some co → co_finished co = true →
  (∀ i, coroutines sc !! i = Some c →
     Tree (set_scopes (<[s := left_scope (co_zombie co) i sc]> (scopes w)) w) →
     Φ tt (set_scopes (<[s := left_scope (co_zombie co) i sc]> (scopes w)) w)) →
  wp (async_scope_remove_coroutine s c) Φ w.
Proof.
  intros T Hs Hin Hc Hf HΦ. unfold async_scope_remove_coroutine. wp_simpl. eapply wp_get_scope; [exact Hs|].
  destruct (list_find (.= c) (coroutines sc)) as [[i x]|] eqn:Hl.
  2:{ apply list_find_None in Hl. rewrite Forall_forall in Hl. by destruct (Hl c). }
  apply list_find_Some in Hl as (Hi & -> & _). specialize (HΦ i Hi (Tree_remove _ _ _ _ _ _ T Hs Hi Hc Hf)).
  destruct (Tree_counts _ _ _ T Hs) as (Ha0 & Hz0 & Hsum & Hlen).
  pose proof (members_pos (routines w) _ _ Hin) as Hpos. unfold is_zombie in Hpos at 1. rewrite Hc in Hpos.
  wp_simpl. eapply wp_get_routine; [exact Hc|]. wp_simpl. destruct (co_zombie co) eqn:Hz; cbn [negb andb].
  - rewrite <- (c_zombie _ _ (t_counted _ T) _ _ Hs) in Hpos. rewrite (proj2 (Z.ltb_lt _ _) Hpos).
    eapply (wp_upd_scope s sc); [exact Hs|]. eapply wp_upd_scope; [cbn; apply lookup_insert_eq|].
    cbn. rewrite u32_small, insert_insert_eq by lia. exact HΦ.
  - rewrite <- (c_active _ _ (t_counted _ T) _ _ Hs) in Hpos. rewrite (proj2 (Z.ltb_lt _ _) Hpos).
    eapply (wp_upd_scope s sc); [exact Hs|]. eapply wp_upd_scope; [cbn; apply lookup_insert_eq|].
    cbn. rewrite u32_small, insert_insert_eq by lia. exact HΦ.
Qed.

Lemma wp_calm {A} (m : SM A) Φ w : wp m Φ w → calm m → eg_exception w = false →
  wp m (λ a w', Φ a w' ∧ eg_exception w' = false) w.
Proof. rewrite !wp_run. intros (a & w' & Hm & HΦ) Hc Hw. exists a, w'. split_and!; [done..|by eapply Hc]. Qed.

Section finish.
Context `{!ScopeMacros, !ScopeMacrosSpec} (env : scope_env) (no_throw : ∀ s, listener_throws env s = false).

Lemma set_s_out_twice o o' w : set_s_out o' (set_s_out o w) = set_s_out o' w.
Proof. done. Qed.
Lemma set_s_out_same w : set_s_out (s_out w) w = w.
Proof. by destruct w. Qed.

(** The listeners hear of it, and that is all. *)
Lemma quiet_check_completion fuel s zombies w : Tree w → is_Some (scopes w !! s) → s < fuel →
  wp (check_completion_and_notify env fuel s zombies) (λ _ w', ∃ o, w' = set_s_out o w) w.
Proof.
  revert s w. induction fuel as [|fuel IH]; intros s w T Hs Hf; [lia|]. cbn [check_completion_and_notify].
  wp_simpl. apply rest_spec; [done..|]. intros b _. destruct b; [|exists (s_out w); by rewrite set_s_out_same].
  wp_simpl. apply wp_quiet_notify; [done|]. set (w1 := set_s_out _ w). pose proof (Ok_out w (Notified s false) T) as [T1 _].
  destruct Hs as [sc Hs]. wp_simpl. eapply (wp_get_scope s sc); [exact Hs|].
  destruct (parent_scope sc) as [p|] eqn:Hp; [|by eexists].
  destruct (t_parent _ T _ _ _ Hs Hp) as (Hlt & psc & Hps & _).
  eapply wp_mono; [apply IH; [exact T1|by exists psc|lia]|]. cbn beta. intros _ w2 (o & ->). by eexists.
Qed.

Lemma Still_out w o : Still w → Still (set_s_out o w).
Proof. intros [T Q E]. split; [by destruct T|done..]. Qed.
Lemma Still_routine w c co co' : Still w → routines w !! c = Some co → co_scope co' = co_scope co →
  co_zombie co' = co_zombie co → (co_finished co' = false → co_finished co = false) → (hit co = true → hit co' = true) →
  Still (set_routines (<[c := co']> (routines w)) w).
Proof. intros [T Q E] Hc H1 H2 H3 H4. by destruct (Ok_routine w c co co' T Hc H1 H2 H3 H4). Qed.

(** The outcome of [async_scope_notify_coroutine_finished], [w1] being the state
    after the coroutine has left. *)
Definition Finished (s : nat) (sc1 : async_scope_t) (w1 w' : sworld) : Prop :=
  Still w' ∧ Shrunk w1 w' ∧ Outside (Under (scopes w1) s) (parent_scope sc1) w1 w' ∧
  (sc_disposing sc1 = false → Disposable (scopes w1) s → (ref_count sc1 ≤ 1)%Z → scopes w' !! s = None) ∧
  (¬ Disposable (scopes w1) s → scopes w' = scopes w1).

Lemma notify_finished_spec s sc c co w : Still w → scopes w !! s = Some sc → c ∈ coroutines sc →
  routines w !! c = Some co → co_scope co = Some s → co_finished co = true →
  wp (async_scope_notify_coroutine_finished env c) (λ _ w', ∃ i, coroutines sc !! i = Some c ∧
    let sc1 := left_scope (co_zombie co) i sc in
    Finished s sc1 (set_scopes (<[s := sc1]> (scopes w)) w) w') w.
Proof.
  intros St Hs Hin Hc Hcs Hf. unfold async_scope_notify_coroutine_finished. wp_simpl.
  eapply wp_get_routine; [exact Hc|]. wp_simpl. rewrite wp_option. exists s. split; [done|]. wp_simpl.
  eapply remove_spec; [apply St|done..|]. intros i Hi T1. set (sc1 := left_scope _ i sc) in *. set (w1 := set_scopes _ w) in *.
  assert (scopes w1 !! s = Some sc1) as Hs1 by (cbn; apply lookup_insert_eq).
  assert (Still w1) as St1.
  { split; [done| |apply St]. intros x xc. unfold w1. cbn. intros [[<- <-]|[_ Hx]]%lookup_insert_Some; [|by eapply (st_quiet _ St)].
    rewrite <- (st_quiet _ St _ _ Hs). unfold sc1, left_scope. by destruct (co_zombie co). }
  wp_simpl. unfold scope_check_completion_and_notify. wp_simpl.
  eapply wp_mono; [apply quiet_check_completion; [done|by exists sc1|]|].
  { pose proof (Tree_potential _ _ _ T1 Hs1). pose proof (scope_fuel_potential w1). lia. }
  cbn beta. intros _ w2 (o & ->). wp_simpl. set (w2 := set_s_out o w1).
  assert (Shrunk w1 w2) as S2 by apply Shrunk_out. pose proof (Still_out _ o St1 : Still w2) as St2.
  destruct (sc_disposing sc1) eqn:Hd.
  { unfold scope_try_to_dispose. wp_simpl. eapply (wp_get_scope s sc1); [exact Hs1|]. rewrite Hd. wp_simpl.
    exists i. split; [done|]. cbn zeta. fold sc1 w1.
    split_and!; [done..|exact (Outside_refl _ _ w2)|by rewrite Hd|done]. }
  eapply wp_mono; [eapply (try_to_dispose_spec env no_throw s sc1 w2); done|]. cbn beta.
  intros r w3 (Hr & Hno & St3 & S3 & O3 & Hfree). rewrite wp_ret. exists i. split; [done|]. cbn zeta. fold sc1 w1.
  split_and!; [done|by etrans|exact O3| |].
  - intros _ Hdis. apply Hfree. by apply Hr.
  - intros Hdis. destruct r; [by destruct Hdis; apply Hr|]. by rewrite Hno.
Qed.

Lemma Still_leave w c co : Still w → routines w !! c = Some co → co_finished co = true →
  (∀ s sc, scopes w !! s = Some sc → c ∉ coroutines sc) →
  Still (set_routines (<[c := set_co_scope None co]> (routines w)) w).
Proof.
  intros [T Q E] Hc Hf Hno. split; [|done..]. pose proof (t_counted _ T) as C. pose proof (t_routines _ T) as Hroutines.
  destruct T. constructor; cbn; [done| |done..|].
  { intros x xc [[<- <-]|[_ Hx]]%lookup_insert_Some; eauto. }
  assert (∀ x, is_zombie (<[c := set_co_scope None co]> (routines w)) x = is_zombie (routines w) x) as Hzx.
  { intros x. rewrite is_zombie_insert. case_decide; [|done]. subst. unfold is_zombie. by rewrite Hc. }
  constructor; [apply C| | | |].
  - intros s sc x Hs Hx. destruct (c_member _ _ C _ _ _ Hs Hx) as (xc & Hxc & Hxs). exists xc.
    rewrite lookup_insert_ne; [done|]. intros <-. by eapply Hno.
  - intros x xc s [[<- <-]|[_ Hx]]%lookup_insert_Some; [done|]. by eapply c_scope.
  - intros s sc Hs. rewrite (c_active _ _ C _ _ Hs). symmetry. by apply members_ext.
  - intros s sc Hs. rewrite (c_zombie _ _ C _ _ Hs). symmetry. by apply members_ext.
Qed.

Lemma finalize_spec c co s sc exception w : Still w → routines w !! c = Some co → co_scope co = Some s →
  co_finished co = false → scopes w !! s = Some sc →
  wp (async_coroutine_finalize env c exception) (λ r w', Still w' ∧
    (exception = false → r = false) ∧
    (∃ co', routines w' !! c = Some co' ∧ co_finished co' = true ∧ co_scope co' = None) ∧
    (exception = false → ∃ i, coroutines sc !! i = Some c ∧
       let sc1 := left_scope (co_zombie co) i sc in
       (sc_disposing sc1 = false → Disposable (<[s := sc1]> (scopes w)) s → (ref_count sc1 ≤ 1)%Z → scopes w' !! s = None) ∧
       (¬ Disposable (<[s := sc1]> (scopes w)) s → scopes w' = <[s := sc1]> (scopes w)))) w.
Proof.
  intros St Hc Hcs Hf Hs. destruct (c_scope _ _ (t_counted _ (st_tree _ St)) _ _ _ Hc Hcs Hf) as (sc' & ? & Hin). simplify_eq.
  unfold async_coroutine_finalize. wp_simpl. eapply wp_upd_routine; [exact Hc|]. set (w1 := set_routines _ w).
  assert (Still w1) as St1.
  { eapply Still_routine; [done|exact Hc|done..|]. unfold hit. by cbn. }
  wp_simpl. eapply wp_get_routine; [cbn; apply lookup_insert_eq|]. change (co_scope (set_co_finished true co)) with (co_scope co).
  rewrite Hcs. wp_simpl.
  eapply (wp_mono _ (λ caught w2, Still w2 ∧ Mono w1 w2 ∧ (exception = false → w2 = w1))).
  { destruct exception; [|done]. wp_simpl. eapply (wp_get_scope s sc); [exact Hs|].
    eapply wp_mono; [apply wp_calm; [|by apply calm_catch_or_cancel|apply St1]|].
    { apply (catch_spec env s (Some c) None (sc_safely sc)); [apply St1|by exists sc|]. eauto. }
    cbn beta. intros r w2 [[[T2 Mo2] _] Heg2]. split_and!; [|done..]. split; [done| |done]. eapply Mono_quiet, St1. done. }
  intros caught w2 (St2 & Mo2 & Hno). wp_simpl.
  destruct (m_routines _ _ Mo2 c (set_co_finished true co)) as (co2 & Hc2 & Hcs2 & _ & Hf2); [cbn; apply lookup_insert_eq|].
  specialize (Hf2 eq_refl). change (co_scope (set_co_finished true co)) with (co_scope co) in Hcs2. rewrite Hcs in Hcs2.
  destruct (m_scopes _ _ Mo2 s sc Hs) as (sc2 & Hs2 & G2).
  eapply wp_mono; [eapply (notify_finished_spec s sc2 c co2 w2); [done|done| |done..]; by rewrite (g_coroutines _ _ G2)|].
  cbn beta zeta. intros _ w3 (i & Hi & St3 & S3 & _ & Hfree & Hkeep).
  assert (routines w3 !! c = Some co2) as Hc3 by by rewrite (s_routines _ _ S3).
  wp_simpl. eapply wp_upd_routine; [exact Hc3|]. wp_simpl. split_and!.
  - apply Still_leave; [done..|]. intros x xc Hx Hin3. destruct (s_back _ _ S3 _ _ Hx) as (xc1 & Hx1 & F).
    rewrite (f_coroutines _ _ F) in Hin3. cbn in Hx1. apply lookup_insert_Some in Hx1 as [[<- <-]|[Hne Hx1]].
    + pose proof (swap_remove_perm _ _ _ Hi) as Hperm. pose proof (c_nodup _ _ (t_counted _ (st_tree _ St2)) _ _ Hs2) as Hnd.
      rewrite <- Hperm in Hnd. apply NoDup_cons in Hnd as [Hnin _]. apply Hnin. unfold left_scope in Hin3.
      by destruct (co_zombie co2).
    + destruct (t_member _ (st_tree _ St2) _ _ _ Hx1 Hin3) as (co4 & Hc4 & Hs4). congruence.
  - by intros ->.
  - exists (set_co_scope None co2). cbn. by rewrite lookup_insert_eq.
  - intros Hex. specialize (Hno Hex) as ->. cbn in Hc2. rewrite lookup_insert_eq in Hc2.
    change (scopes w1 !! s = Some sc2) in Hs2. cbn in Hs2. simplify_eq. exists i. split; [done|]. split; [done|].
    intros Hd. by apply Hkeep in Hd.
Qed.
End finish.
