(* ===== verification/ScopeTheorems.v ===== *)
(** * What scopes guarantee

    The theorems about the operations of [Scope]: what the recursive tests answer,
    the invariant of every reachable state and the absence of undefined behaviour,
    what cancellations and exceptions reach, what a finished coroutine frees, and,
    as counterexamples, where the code falls short of its comments. *)

From S2P Require Import Prelude Scope ScopeProofs ScopeCalm ScopeSweep ScopeDisposal.

(** ** The search for a coroutine *)
Definition Inside (m : gmap nat async_scope_t) (s c : nat) : Prop :=
  ∃ x xc, Under m s x ∧ m !! x = Some xc ∧ c ∈ coroutines xc.
Definition Deep (m : gmap nat async_scope_t) (s : nat) (d : Z) : Prop :=
  ∃ n x, nsteps (Child m) n s x ∧ (64 < d + Z.of_nat n)%Z.
Definition search_correct m s c d (r : bool * bool) : Prop :=
  (r.1 = true → Inside m s c) ∧ (r.1 = false → r.2 = false → ¬ Inside m s c) ∧ (r.2 = true → Deep m s d).

Lemma Inside_child m s k c : Child m s k → Inside m k c → Inside m s c.
Proof. intros Hk (x & xc & HU & ?). exists x, xc. split; [by eapply rtc_l|done]. Qed.
Lemma Deep_child m s k d : Child m s k → Deep m k (d + 1) → Deep m s d.
Proof. intros Hk (n & x & Hn & Hd). exists (S n), x. split; [by econstructor|lia]. Qed.
Lemma Inside_here m s sc c : m !! s = Some sc → Inside m s c → c ∈ coroutines sc ∨ ∃ k, k ∈ child_scopes sc ∧ Inside m k c.
Proof.
  intros Hs (x & xc & HU & Hx & Hc). inversion HU as [|? k ? (sc' & ? & Hk) HU']; simplify_eq; [by left|].
  right. exists k. split; [done|]. by exists x, xc.
Qed.

(** The loop over the children [l] of [s]. *)
Lemma search_children m s c d (f : nat → option (bool * bool)) l :
  (∀ k, k ∈ l → Child m s k ∧ is_Some (m !! k) ∧ ∃ r, f k = Some r ∧ search_correct m k c (d + 1) r) →
  ∃ r, (fix children l :=
          match l with
          | [] => Some (false, false)
          | x :: l =>
            xc ← m !! x;
            if bool_decide (coroutines xc = []) && bool_decide (child_scopes xc = []) then children l
            else
              '(found, e) ← f x;
              if (found : bool) then Some (true, e)
              else '(r, e') ← children l; Some (r, (e : bool) || (e' : bool))
          end) l = Some r ∧
    (r.1 = true → Inside m s c) ∧ (r.1 = false → r.2 = false → ∀ k, k ∈ l → ¬ Inside m k c) ∧ (r.2 = true → Deep m s d).
Proof.
  induction l as [|k l IH]; intros Hl.
  { exists (false, false). split_and!; [done|done| |done]. by intros _ _ k ?%not_elem_of_nil. }
  destruct (Hl k) as (Hk & [kc Hkc] & r & Hr & Hfound & Hnot & Hdeep); [by left|].
  destruct IH as (r' & Hr' & Hfound' & Hnot' & Hdeep'); [intros; apply Hl; by right|]. rewrite Hkc. cbn [mbind option_bind].
  destruct (bool_decide (coroutines kc = []) && bool_decide (child_scopes kc = [])) eqn:Hskip.
  { exists r'. split_and!; [done|done| |done]. intros H1 H2 x [->|Hx]%elem_of_cons; [|by apply Hnot'].
    apply andb_true_iff in Hskip as [He1%bool_decide_eq_true He2%bool_decide_eq_true].
    intros [Hin|(y & Hy & _)]%(Inside_here m k kc); [rewrite He1 in Hin|rewrite He2 in Hy|done]; by eapply not_elem_of_nil. }
  rewrite Hr. destruct r as [found e]. cbn [mbind option_bind]. destruct found.
  { exists (true, e). split_and!; [done|intros _; by eapply Inside_child, Hfound|done|].
    intros He. by eapply Deep_child, Hdeep. }
  rewrite Hr'. destruct r' as [found' e']. cbn [mbind option_bind]. exists (found', e || e'). cbn in *. split_and!; [done..| |].
  - intros H1 [He He']%orb_false_iff x [->|Hx]%elem_of_cons; [by apply Hnot|by apply Hnot'].
  - intros [He|He]%orb_true_iff; [by eapply Deep_child, Hdeep|by apply Hdeep'].
Qed.

Lemma contains_coroutine_correct fuel w s c d : Tree w → is_Some (scopes w !! s) → next_scope w - s < fuel →
  ∃ r, contains_coroutine fuel (scopes w) s c d = Some r ∧ search_correct (scopes w) s c d r.
Proof.
  intros T. revert s d. induction fuel as [|fuel IH]; intros s d [sc Hs] Hf; [lia|]. cbn [contains_coroutine].
  destruct (Z.ltb_spec 64 d) as [Hd|Hd].
  { exists (false, true). split; [done|]. split_and!; [done..|]. intros _. exists 0, s. split; [constructor|lia]. }
  rewrite Hs. cbn [mbind option_bind]. case_bool_decide as Hc.
  { exists (true, false). split; [done|]. split_and!; [|done..]. intros _. exists s, sc. split; [apply rtc_refl|done]. }
  destruct (search_children (scopes w) s c d (λ x, contains_coroutine fuel (scopes w) x c (d + 1)) (child_scopes sc))
    as (r & Hr & Hfound & Hnot & Hdeep).
  { intros k Hk. destruct (t_child _ T _ _ _ Hs Hk) as (Hlt & kc & Hkc & _). split; [by exists sc|].
    split; [by exists kc|]. apply IH; [by exists kc|]. pose proof (t_next _ T _ _ Hs). lia. }
  exists r. split; [exact Hr|]. split_and!; [done| |done]. intros H1 H2 [?|(k & Hk & HI)]%(Inside_here _ _ sc); [done| |done].
  by eapply Hnot.
Qed.

(** ** The operations and the states they reach

    In a run without finally handlers and without listeners that throw. *)
Inductive scope_op :=
| OpNewScope (parent : option nat) (with_zend_object : bool)
| OpSpawn (s : nat)
| OpSwitch (c : option nat)
| OpCancelCoroutine (c : nat) (is_safely : bool)
| OpStart (c : nat)
| OpProtect (c : nat) (enter : bool)
| OpFinalize (c : nat) (exception : bool)
| OpCancel (s : nat) (cancellation : bool)
| OpDestroy (s : nat)
| OpAllowZombies (s : nat) (safely : bool)
| OpPin (s : nat) (pinned : bool)
| OpHandler (s : nat) (child : bool)
| OpTimeout (s : nat) (started : bool)
| OpAwaiterCalled (s : nat) (error : bool) (error_fci : option bool).

Section system.
Context `{!ScopeMacros} (env : scope_env).

Definition run_op (op : scope_op) : SM unit :=
  match op with
  | OpNewScope p obj => async_new_scope p obj;; mret tt
  | OpSpawn s => spawn_in_scope s;; mret tt
  | OpSwitch c => modify (λ w, mk_sworld (scopes w) (routines w) (next_scope w) (next_routine w) c (eg_exception w) (s_out w))
  | OpCancelCoroutine c safely => async_coroutine_cancel env c safely
  | OpStart c => async_coroutine_execute_start c
  | OpProtect c enter => if enter then protect_enter c else protect_leave c;; mret tt
  | OpFinalize c exception => async_coroutine_finalize env c exception;; mret tt
  | OpCancel s cancellation => method_cancel env s cancellation
  | OpDestroy s => scope_destroy env s
  | OpAllowZombies s safely => if safely then method_allowZombies s else method_asNotSafely s
  | OpPin s pinned => set_owner_pinned s pinned
  | OpHandler s child => if child then method_setChildScopeExceptionHandler s else method_setExceptionHandler s
  | OpTimeout s started => method_disposeAfterTimeout s started
  | OpAwaiterCalled s error fci => callback_resolve_when_zombie_completed s error fci;; mret tt
  end.

(** The object exists, and the number of coroutines fits its counter. *)
Definition live_scope (w : sworld) (s : nat) : bool := bool_decide (is_Some (scopes w !! s)).
Definition live_coroutine (w : sworld) (c : nat) : bool :=
  match routines w !! c with
  | Some co => bool_decide (is_Some (co_scope co)) && negb (co_finished co)
  | None => false
  end.
Definition allowed (w : sworld) (op : scope_op) : bool :=
  match op with
  | OpNewScope None _ | OpSwitch _ => true
  | OpNewScope (Some s) _ | OpCancel s _ | OpDestroy s | OpAllowZombies s _ | OpPin s _ | OpHandler s _
  | OpTimeout s _ | OpAwaiterCalled s _ _ => live_scope w s
  | OpSpawn s => live_scope w s && (Z.of_nat (S (next_routine w)) <? 2 ^ 32)%Z
  | OpCancelCoroutine c _ | OpStart c | OpProtect c _ | OpFinalize c _ => live_coroutine w c
  end.

Definition scope_init : sworld := mk_sworld ∅ ∅ 0 0 None false [].
Inductive scope_reachable : sworld → Prop :=
| reach_init : scope_reachable scope_init
| reach_op w op w' : scope_reachable w → allowed w op = true → run_op op w = Some (tt, w') → scope_reachable w'.

(** A run given by its operations. *)
Fixpoint play (ops : list scope_op) (w : sworld) : option sworld :=
  match ops with
  | [] => Some w
  | op :: ops => if allowed w op then '(_, w') ← run_op op w; play ops w' else None
  end.
Lemma play_reachable ops w w' : scope_reachable w → play ops w = Some w' → scope_reachable w'.
Proof.
  revert w. induction ops as [|op ops IH]; intros w Hw Hp; [by injection Hp as <-|]. cbn [play] in Hp.
  destruct (allowed w op) eqn:Ha; [|done]. destruct (run_op op w) as [[[] w1]|] eqn:Hr; [|done].
  eapply IH; [|exact Hp]. by eapply reach_op.
Qed.
End system.

Section invariant.
Context `{!ScopeMacros, !ScopeMacrosSpec} (env : scope_env) (no_throw : ∀ s, listener_throws env s = false).

Lemma Still_ok w w' : Still w → Ok w w' → eg_exception w' = false → Still w'.
Proof. intros St [T Mo] E. split; [done| |done]. by eapply Mono_quiet, St. Qed.
Lemma Still_upd s f w : Still w → live_scope w s = true → (∀ sc, plain sc (f sc)) → wp (upd_scope s f) (λ _, Still) w.
Proof.
  intros St [sc Hs]%bool_decide_eq_true Hf. eapply (wp_upd_scope s sc); [exact Hs|]. by eapply Still_plain.
Qed.
Lemma Still_calm {A} (m : SM A) w : Still w → calm m → wp m (λ _, Ok w) w → wp m (λ _, Still) w.
Proof.
  intros St Hc Hm. eapply wp_mono; [apply wp_calm; [exact Hm|done|apply St]|]. cbn beta. intros _ w' [O E].
  by eapply Still_ok.
Qed.
Lemma wp_drop {A} (m : SM A) (P : sworld → Prop) w : wp m (λ _, P) w → wp (m;; mret tt) (λ _, P) w.
Proof. intros Hm. rewrite wp_bind. eapply wp_mono; [exact Hm|]. cbn beta. intros a w' HP. by rewrite wp_ret. Qed.

Lemma new_scope_still p obj w : Still w → match p with Some p => live_scope w p = true | None => True end →
  wp (async_new_scope p obj) (λ _, Still) w.
Proof.
  intros St Hp. destruct p as [p|].
  - apply bool_decide_eq_true in Hp as [psc Hp]. eapply new_child_spec; [apply St|exact Hp|].
    intros w' T' _ _ _ _ _ Heg Hsc. split; [done| |rewrite Heg; apply St]. intros s sc. rewrite Hsc.
    intros [[<- <-]|[_ [[<- <-]|[_ Hs]]%lookup_insert_Some]]%lookup_insert_Some; [exact (st_quiet _ St p psc Hp)|done|].
    by eapply (st_quiet _ St).
  - unfold async_new_scope. wp_simpl.
    split; [exact (Tree_root w (negb obj) obj (st_tree _ St))| |apply St].
    intros s sc. cbn. intros [[<- <-]|[_ Hs]]%lookup_insert_Some; [done|].
    by eapply (st_quiet _ St).
Qed.
Lemma spawn_still s w : Still w → live_scope w s = true → (Z.of_nat (S (next_routine w)) < 2 ^ 32)%Z →
  wp (spawn_in_scope s) (λ _, Still) w.
Proof.
  intros St [sc Hs]%bool_decide_eq_true Hn. destruct (sc_closed sc) eqn:Hc.
  - unfold spawn_in_scope. wp_simpl. eapply wp_get_scope; [exact Hs|]. by rewrite Hc, wp_ret.
  - eapply spawn_spec; [apply St|exact Hs|done| |].
    { pose proof (proj1 (quiet_with_finally w) (st_quiet _ St)). lia. }
    intros w' co T' _ _ _ Heg _ _ Hsc. split; [done| |rewrite Heg; apply St]. intros x xc. rewrite Hsc.
    intros [[<- <-]|[_ Hx]]%lookup_insert_Some; [exact (st_quiet _ St s sc Hs)|by eapply (st_quiet _ St)].
Qed.
Lemma cancel_still s err safely w : Still w → live_scope w s = true →
  wp (scope_catch_or_cancel env s None None err safely true) (λ _ w', Still w' ∧ Mono w w' ∧ Swept w w' s ∧ marked w' s) w.
Proof.
  intros St Hs%bool_decide_eq_true. eapply wp_mono.
  { apply wp_calm; [|by apply calm_catch_or_cancel|apply St].
    apply (scope_cancel_spec env s None None err safely); [apply St|exact Hs]. }
  cbn beta. intros r w' [(O & _ & Hs1 & Hs2) E]. split_and!; [by eapply Still_ok|apply O|done|done].
Qed.
Lemma await_callback_still s e fci w : Still w → live_scope w s = true →
  wp (callback_resolve_when_zombie_completed s e fci) (λ _, Still) w.
Proof.
  intros St Hl. unfold callback_resolve_when_zombie_completed.
  assert (∀ w', Still w' → is_Some (scopes w' !! s) → wp (done ← SCOPE_IS_COMPLETELY_DONE s;
    mret (if (done : bool) then AwaiterResumed else AwaiterWaits)) (λ _, Still) w') as Hrest.
  { intros w' St' Hs'. rewrite wp_bind. by apply completely_done_spec; [apply St'|..]. }
  assert (wp (upd_scope s (set_sc_handled true)) (λ _ w', Still w' ∧ is_Some (scopes w' !! s)) w) as Hhandled.
  { pose proof Hl as [sc Hs]%bool_decide_eq_true. eapply (wp_upd_scope s sc); [exact Hs|]. split.
    - eapply Still_plain; [done|exact Hs|]. constructor; try done; [constructor; auto|by right].
    - cbn. rewrite lookup_insert_eq. eauto. }
  destruct (e && bool_decide (fci = None)).
  { wp_simpl. eapply wp_mono; [exact Hhandled|]. cbn beta. intros _ w' [St' _]. by wp_simpl. }
  wp_simpl. eapply (wp_mono _ (λ _ w', Still w' ∧ is_Some (scopes w' !! s))).
  { destruct e; [done|]. split; [done|by apply bool_decide_eq_true in Hl]. }
  intros _ w' [St' Hs']. destruct (e && bool_decide (fci = Some false)); [by wp_simpl|]. by apply Hrest.
Qed.
Lemma destroy_object_spec s w : Still w → live_scope w s = true →
  wp (scope_destroy env s) (λ _ w', Still w' ∧ (scopes w' !! s = None ∨ marked w' s ∨
     ∃ sc, scopes w !! s = Some sc ∧ ((1 < ref_count sc)%Z ∨ sc_disposing sc = true))) w.
Proof.
  intros St [sc Hs]%bool_decide_eq_true. unfold scope_destroy. wp_simpl. eapply (wp_upd_scope s sc); [exact Hs|].
  set (sc1 := set_scope_object false sc). set (w1 := set_scopes _ w).
  assert (Still w1) as St1.
  { eapply Still_plain; [done|exact Hs|]. constructor; try done; [constructor; auto|by right]. }
  assert (scopes w1 !! s = Some sc1) as Hs1 by (cbn; apply lookup_insert_eq). wp_simpl.
  destruct (sc_disposing sc) eqn:Hd.
  { unfold scope_try_to_dispose. wp_simpl. eapply wp_get_scope; [exact Hs1|]. cbn [sc1 set_scope_object sc_disposing].
    rewrite Hd. wp_simpl. split; [done|]. right. right. eauto. }
  eapply wp_mono; [by eapply (try_to_dispose_spec env no_throw s sc1)|]. cbn beta.
  intros r w2 (_ & Hno & St2 & _ & _ & Hfree). destruct r.
  - wp_simpl. split; [done|]. destruct (Z.le_gt_cases (ref_count sc) 1) as [Hr|Hr]; [left; by apply Hfree|].
    right. right. exists sc. auto.
  - rewrite (Hno eq_refl) in *. wp_simpl. eapply wp_get_scope; [exact Hs1|]. wp_simpl.
    eapply wp_mono; [apply cancel_still; [done|by apply bool_decide_eq_true; exists sc1]|]. cbn beta.
    intros r w3 (St3 & _ & _ & S3). wp_simpl. auto.
Qed.

Lemma run_op_still op w : Still w → allowed w op = true → wp (run_op env op) (λ _, Still) w.
Proof.
  intros St Ha. destruct op as [p obj|s|c|c safely|c|c enter|c exc|s e|s|s safely|s p|s child|s started|s e fci]; cbn [run_op allowed] in *.
  - apply wp_drop, new_scope_still; [done|by destruct p].
  - apply andb_true_iff in Ha as [Hs Hn%Z.ltb_lt]. by apply wp_drop, spawn_still.
  - wp_simpl. by destruct St as [[] Q E].
  - unfold live_coroutine in Ha. destruct (routines w !! c) as [co|] eqn:Hc; [|done].
    apply andb_true_iff in Ha as [[s Hs]%bool_decide_eq_true _]. apply Still_calm; [done|by apply calm_coroutine_cancel|].
    eapply wp_mono; [eapply coroutine_cancel_spec; [apply St|done..]|]. by intros _ w' [O _].
  - unfold live_coroutine in Ha. destruct (routines w !! c) as [co|] eqn:Hc; [|done].
    eapply wp_upd_routine; [exact Hc|]. by apply (Still_routine w c co).
  - unfold live_coroutine in Ha. destruct (routines w !! c) as [co|] eqn:Hc; [|done]. destruct enter.
    { eapply wp_upd_routine; [exact Hc|]. by apply (Still_routine w c co). }
    unfold protect_leave. wp_simpl. eapply wp_upd_routine; [exact Hc|]. wp_simpl.
    set (w1 := set_routines _ w). assert (Still w1) as St1 by by apply (Still_routine w c co).
    assert (routines w1 !! c = Some (set_co_protected false co)) as Hc1 by (cbn; apply lookup_insert_eq).
    eapply wp_get_routine; [exact Hc1|]. cbn [co_deferred set_co_protected]. destruct (co_deferred co); [|by wp_simpl].
    wp_simpl. eapply wp_upd_routine; [exact Hc1|]. apply (Still_routine w1 c _ _ St1 Hc1); try done.
    intros _. unfold hit. cbn. by rewrite orb_true_r.
  - unfold live_coroutine in Ha. destruct (routines w !! c) as [co|] eqn:Hc; [|done].
    apply andb_true_iff in Ha as [[s Hcs]%bool_decide_eq_true Hf%negb_true_iff].
    destruct (c_scope _ _ (t_counted _ (st_tree _ St)) _ _ _ Hc Hcs Hf) as (sc & Hs & _).
    apply wp_drop. eapply wp_mono; [by eapply (finalize_spec env no_throw c co s sc)|]. by intros r w' [St' _].
  - unfold method_cancel. pose proof Ha as [sc Hs]%bool_decide_eq_true. wp_simpl. eapply wp_get_scope; [exact Hs|].
    wp_simpl. eapply wp_mono; [by apply cancel_still|]. cbn beta. intros r w' [St' _]. by wp_simpl.
  - eapply wp_mono; [by apply destroy_object_spec|]. by intros _ w' [St' _].
  - destruct safely; (apply Still_upd; [done..|]); intros sc; (constructor; try done; [constructor; auto|by right]).
  - apply Still_upd; [done..|]. intros sc. constructor; try done; [constructor; auto|by right].
  - destruct child; (apply Still_upd; [done..|]); intros sc; (constructor; try done; [constructor; auto|by right]).
  - unfold method_disposeAfterTimeout. pose proof Ha as [sc Hs]%bool_decide_eq_true. wp_simpl.
    eapply wp_get_scope; [exact Hs|]. destruct (_ || _); [done|]. destruct started; [|done].
    apply Still_upd; [done..|]. intros sc'. constructor; try done; [constructor; auto|by right].
  - by apply wp_drop, await_callback_still.
Qed.

Lemma reachable_still w : scope_reachable env w → Still w.
Proof.
  induction 1 as [|w op w' _ St Ha Hr].
  - split; [|done|done]. constructor; [done..|constructor; done|constructor; done].
  - pose proof (run_op_still op w St Ha) as (u & w1 & Hr' & St')%wp_run. rewrite Hr in Hr'. by injection Hr' as <- <-.
Qed.
Lemma reachable_lookup w s : scope_reachable env w → live_scope w s = true → ∃ sc, Tree w ∧ scopes w !! s = Some sc.
Proof. intros St%reachable_still [sc Hs]%bool_decide_eq_true. exists sc. split; [apply St|done]. Qed.
End invariant.

(** ** A concrete engine, and environments for the witnesses *)
#[export] Instance demo_macros : ScopeMacros := {|
  completed_args := (false, false);
  completely_done_args := (true, false);
  can_be_disposed_args := (true, true);
  scope_add_child c l := l ++ [c];
  scope_remove_child c l := filter (.≠ c) l
|}.
#[export] Instance demo_macros_spec : ScopeMacrosSpec.
Proof.
  split; [done..| | |]; cbn.
  - intros c l. symmetry. apply Permutation_cons_append.
  - intros c l x. rewrite list_elem_of_filter. tauto.
  - intros c l. by apply NoDup_filter.
Qed.
Definition env0 : scope_env := mk_env (λ _, true) (λ _, true) (λ _, false) (λ _, false) (λ _, true) false false.
Lemma env0_no_throw s : listener_throws env0 s = false.
Proof. done. Qed.
(** Handlers and listeners throw, and finally handlers run. *)
Definition env_throws : scope_env := mk_env (λ _, false) (λ _, false) (λ _, false) (λ _, true) (λ _, true) false false.

Definition run0 (ops : list scope_op) : sworld := default scope_init (play env0 ops scope_init).
Lemma run0_reachable ops : bool_decide (is_Some (play env0 ops scope_init)) = true → scope_reachable env0 (run0 ops).
Proof.
  intros [w Hw]%bool_decide_eq_true. unfold run0. rewrite Hw. eapply play_reachable; [apply reach_init|exact Hw].
Qed.
Lemma run0_tree ops : bool_decide (is_Some (play env0 ops scope_init)) = true → Tree (run0 ops).
Proof. intros Hr%run0_reachable. by apply (reachable_still env0). Qed.

(** Scope 0 with the coroutine 0 and the child scope 1 with the coroutine 1. *)
Definition family : list scope_op := [OpNewScope None true; OpNewScope (Some 0) true; OpSpawn 0; OpSpawn 1].

(** ** The invariant, and no undefined behaviour *)

(** C17 In every state that the operations without finally handlers reach while no
    listener throws, the tree is well formed: parents and children know each other
    and have no cycle, each vector holds its coroutines once, and the two counters
    of a scope are the numbers of its zombies and of its other coroutines.  With a
    finally handler it can fail: [finally_handler_leaves_dangling_child]. *)
Theorem scope_tree_invariant `{!ScopeMacros, !ScopeMacrosSpec} env w :
  (∀ s, listener_throws env s = false) → scope_reachable env w →
  Tree w ∧ (∀ s sc, scopes w !! s = Some sc → finally_handlers sc = []) ∧ eg_exception w = false.
Proof. intros Hn Hw%reachable_still; [|done]. split_and!; apply Hw. Qed.
Lemma scope_tree_invariant_witness : let w := run0 (family ++ [OpCancel 0 true; OpFinalize 1 false]) in
  scope_reachable env0 w ∧ Tree w.
Proof.
  intros w. assert (scope_reachable env0 w) as Hw by (apply run0_reachable; vm_compute; reflexivity).
  split; [exact Hw|]. exact (proj1 (scope_tree_invariant env0 w env0_no_throw Hw)).
Defined.

(** C14 No operation on live objects has undefined behaviour: no freed scope is
    read, no assertion fails and no recursion is endless, and the run goes on. *)
Theorem scope_operations_defined `{!ScopeMacros, !ScopeMacrosSpec} env w op :
  (∀ s, listener_throws env s = false) → scope_reachable env w → allowed w op = true →
  ∃ w', run_op env op w = Some (tt, w') ∧ scope_reachable env w'.
Proof.
  intros Hn Hw Ha. pose proof (run_op_still env Hn op w (reachable_still env Hn w Hw) Ha) as ([] & w' & Hr & _)%wp_run.
  exists w'. split; [done|]. by eapply reach_op.
Qed.
Lemma scope_operations_defined_witness :
  ∃ w', run_op env0 (OpDestroy 0) (run0 family) = Some (tt, w') ∧ scope_reachable env0 w'.
Proof.
  apply (scope_operations_defined env0 (run0 family) (OpDestroy 0) env0_no_throw); [apply run0_reachable|];
    vm_compute; reflexivity.
Defined.

(** C19 The recursive tests of the code answer the reference definitions and change
    nothing: a scope is completed, or completely done, when every scope that is
    reached without passing a closed or cancelled one is idle ([AtRest]), and can be
    disposed of when its whole subtree is empty and released ([Disposable]). *)
Theorem scope_tests_decide `{!ScopeMacros, !ScopeMacrosSpec} w s : Tree w → live_scope w s = true →
  (∃ b, SCOPE_IS_COMPLETED s w = Some (b, w) ∧ (b = true ↔ AtRest (scopes w) false s)) ∧
  (∃ b, SCOPE_IS_COMPLETELY_DONE s w = Some (b, w) ∧ (b = true ↔ AtRest (scopes w) true s)) ∧
  (∃ b, SCOPE_CAN_BE_DISPOSED s w = Some (b, w) ∧ (b = true ↔ Disposable (scopes w) s)).
Proof.
  intros T Hs%bool_decide_eq_true.
  assert (∀ (m : SM bool) (P : Prop), (∀ Φ, (∀ b : bool, (b = true ↔ P) → Φ b w) → wp m Φ w) →
    ∃ b, m w = Some (b, w) ∧ (b = true ↔ P)) as Hrun.
  { intros m P Hm.
    destruct (proj1 (wp_run _ _ _) (Hm (λ b w', w' = w ∧ (b = true ↔ P)) (λ b Hb, conj eq_refl Hb)))
      as (b & w' & Hr & -> & HP).
    by exists b. }
  split_and!; apply Hrun; intros Φ HΦ.
  - unfold SCOPE_IS_COMPLETED. rewrite completed_args_spec. by apply rest_spec.
  - by apply completely_done_spec.
  - by apply disposable_spec.
Qed.
Lemma scope_tests_decide_witness : ∃ b, SCOPE_CAN_BE_DISPOSED 0 (run0 family) = Some (b, run0 family) ∧
  (b = true ↔ Disposable (scopes (run0 family)) 0).
Proof. apply (scope_tests_decide (run0 family) 0); [apply run0_tree|]; vm_compute; reflexivity. Defined.

(** ** Cancellation *)

(** C15 What the cancellation of a scope reaches, whatever handlers, listeners and
    finally handlers do.  The walk goes down through scopes that are neither closed
    nor cancelled yet ([Open]).  Every coroutine of a scope it reaches is finished or
    cancelled afterwards, or will be at the end of its protected section; every
    scope it reaches that has a coroutine below is cancelled; the scope itself is
    closed or cancelled.  Outside of the subtree no scope is closed, cancelled or
    relinked.  Nothing is said below a scope that was closed or cancelled before
    ([second_cancel_spares_coroutines]), nor of an idle scope's children, which stay
    open ([idle_cancel_spares_children]). *)
Theorem cancel_stops_subtree `{!ScopeMacros, !ScopeMacrosSpec} env w s co from err safely :
  Tree w → live_scope w s = true →
  ∃ r w', scope_catch_or_cancel env s co from err safely true w = Some (r, w') ∧ Tree w' ∧
    (∀ x xc, Open (scopes w) s x → scopes w !! x = Some xc →
       (∀ c, c ∈ coroutines xc → ∃ co', routines w' !! c = Some co' ∧ hit co' = true) ∧
       (Busy (scopes w) x → ∃ xc', scopes w' !! x = Some xc' ∧ sc_cancelled xc' = true)) ∧
    (∃ sc', scopes w' !! s = Some sc' ∧ sc_closed sc' || sc_cancelled sc' = true) ∧
    (∀ x xc, scopes w !! x = Some xc → ¬ Above w x s →
       ∃ xc', scopes w' !! x = Some xc' ∧ marks xc' = marks xc).
Proof.
  intros T Hs%bool_decide_eq_true.
  pose proof (scope_cancel_spec env s co from err safely w T Hs) as (r & w' & Hr & [T' _] & Hsp & Hsw & Hm)%wp_run.
  exists r, w'. split_and!; [done|done|exact Hsw|exact Hm|exact Hsp].
Qed.
Lemma cancel_stops_subtree_witness : ∃ r w',
  scope_catch_or_cancel env_throws 0 None None false true true (run0 family) = Some (r, w') ∧ Tree w' ∧
  ∃ co', routines w' !! 1 = Some co' ∧ hit co' = true.
Proof.
  destruct (cancel_stops_subtree env_throws (run0 family) 0 None None false true) as (r & w' & Hr & T & Hsw & _);
    [apply run0_tree; vm_compute; reflexivity|vm_compute; reflexivity|].
  exists r, w'. split; [exact Hr|]. split; [exact T|].
  destruct (scopes (run0 family) !! 1) as [xc|] eqn:Hx; [|vm_compute in Hx; discriminate Hx].
  refine (proj1 (Hsw 1 xc _ Hx) 1 _).
  - destruct (scopes (run0 family) !! 0) as [sc|] eqn:Hs; [|vm_compute in Hs; discriminate Hs].
    assert (sc_closed sc = false ∧ sc_cancelled sc = false ∧ child_scopes sc = [1]) as (? & ? & Hch)
      by (vm_compute in Hs; injection Hs as <-; done).
    assert (sc_closed xc = false ∧ sc_cancelled xc = false) as (? & ?) by (vm_compute in Hx; injection Hx as <-; done).
    apply (open_below _ _ sc 1); [done..|rewrite Hch; left|by apply (open_here _ _ xc)].
  - vm_compute in Hx. injection Hx as <-. left.
Defined.

(** C16 An exception that climbs: when no handler and no listener takes it (the
    result is [false]) and no listener threw on the way (which would end the climb:
    no exception is left pending), the scope of the coroutine and every scope above
    it is cancelled with its own coroutines, and the walk of C15 has gone through
    each of their children as they were before. *)
Theorem unhandled_exception_stops_ancestors `{!ScopeMacros, !ScopeMacrosSpec} env w s c from safely :
  Tree w → live_scope w s = true →
  ∃ r w', scope_catch_or_cancel env s (Some c) from true safely false w = Some (r, w') ∧ Tree w' ∧
    (r = false → eg_exception w' = false → ∀ a ac, Above w s a → scopes w !! a = Some ac →
      (∃ ac', scopes w' !! a = Some ac' ∧ sc_cancelled ac' = true) ∧
      (∀ d, d ∈ coroutines ac → ∃ co', routines w' !! d = Some co' ∧ hit co' = true) ∧
      ∀ k, k ∈ child_scopes ac → Swept w w' k).
Proof.
  intros T Hs%bool_decide_eq_true.
  pose proof (catch_spec env s (Some c) from safely w T Hs ltac:(eauto)) as (r & w' & Hr & [T' _] & Hc)%wp_run.
  exists r, w'. split_and!; [done..|]. intros Hf Heg a ac HA Ha. exact (Hc Hf Heg a HA ac Ha).
Qed.
Lemma unhandled_exception_stops_ancestors_witness : ∃ w',
  scope_catch_or_cancel env0 1 (Some 1) None true true false (run0 family) = Some (false, w') ∧
  ∃ ac', scopes w' !! 0 = Some ac' ∧ sc_cancelled ac' = true.
Proof.
  destruct (unhandled_exception_stops_ancestors env0 (run0 family) 1 1 None true) as (r & w' & Hr & _ & Hs);
    [apply run0_tree; vm_compute; reflexivity|vm_compute; reflexivity|].
  assert (r = false ∧ eg_exception w' = false) as [-> Heg].
  { vm_compute in Hr. injection Hr as <- <-. done. }
  exists w'. split; [exact Hr|]. destruct (scopes (run0 family) !! 0) as [sc|] eqn:Hsc; [|vm_compute in Hsc; discriminate Hsc].
  apply (Hs eq_refl Heg 0 sc); [|exact Hsc].
  eapply above_parent; [vm_compute; reflexivity|vm_compute; reflexivity|apply above_self].
Defined.

(** A coroutine in a protected section is not cancelled: the cancellation waits,
    nothing else happens, and it is thrown at the end of the section. *)
Theorem protected_section_defers `{!ScopeMacros} env w c co safely : routines w !! c = Some co →
  co_protected co = true → co_finished co = false → current w ≠ Some c →
  ∃ w1, async_coroutine_cancel env c safely w = Some (tt, w1) ∧
    scopes w1 = scopes w ∧ s_out w1 = s_out w ∧ routines w1 = <[c := set_co_deferred true co]> (routines w) ∧
    ∃ w2 co2, protect_leave c w1 = Some (true, w2) ∧ routines w2 !! c = Some co2 ∧
      co_cancelled co2 = true ∧ co_protected co2 = false ∧ co_deferred co2 = false.
Proof.
  intros Hc Hp Hf Hcur. set (w1 := set_routines (<[c := set_co_deferred true co]> (routines w)) w).
  assert (wp (async_coroutine_cancel env c safely) (λ _ w', w' = w1) w) as ([] & w' & Hr & ->)%wp_run.
  { unfold async_coroutine_cancel. wp_simpl. eapply wp_get_routine; [exact Hc|].
    rewrite Hf, bool_decide_false, Hp by done. by eapply wp_upd_routine; [exact Hc|]. }
  exists w1. split_and!; [done..|].
  assert (wp (protect_leave c) (λ b w2, b = true ∧ ∃ co2, routines w2 !! c = Some co2 ∧
    co_cancelled co2 = true ∧ co_protected co2 = false ∧ co_deferred co2 = false) w1) as (b & w2 & Hr2 & -> & co2 & H2)%wp_run.
  { unfold protect_leave. wp_simpl. eapply wp_upd_routine; [cbn; apply lookup_insert_eq|]. wp_simpl.
    eapply wp_get_routine; [cbn; apply lookup_insert_eq|]. cbn [co_deferred set_co_protected set_co_deferred]. wp_simpl.
    eapply wp_upd_routine; [cbn; apply lookup_insert_eq|]. wp_simpl. split; [done|].
    eexists. cbn. rewrite lookup_insert_eq. split; [done|]. done. }
  by exists w2, co2.
Qed.
Lemma protected_section_defers_witness : let w := run0 (family ++ [OpStart 0; OpProtect 0 true]) in
  ∃ w1, async_coroutine_cancel env0 0 true w = Some (tt, w1) ∧ s_out w1 = s_out w.
Proof.
  intros w. destruct (protected_section_defers env0 w 0 (mk_coroutine (Some 0) false true false false true false false false) true)
    as (w1 & H1 & _ & H2 & _); [vm_compute; reflexivity..|vm_compute; discriminate|]. exists w1. split; [exact H1|exact H2].
Defined.

(** ** Disposal *)

(** C18 A coroutine that finishes without an exception, in a state reached without
    finally handlers and while no listener throws, leaves its scope.  If the scope's
    subtree is then empty and released, the scope is not being disposed of and it
    has one reference, it is freed.  If its subtree is not, the scope's vector and
    counter are all that changes in the tree.  (With further references the
    disposal consumes one of them: [timeout_reference_is_consumed].) *)
Theorem finished_coroutine_frees_scope `{!ScopeMacros, !ScopeMacrosSpec} env w c co s sc :
  (∀ x, listener_throws env x = false) → scope_reachable env w →
  routines w !! c = Some co → co_scope co = Some s → co_finished co = false → scopes w !! s = Some sc →
  ∃ w' co' i, async_coroutine_finalize env c false w = Some (false, w') ∧ Tree w' ∧
    routines w' !! c = Some co' ∧ co_finished co' = true ∧ co_scope co' = None ∧ coroutines sc !! i = Some c ∧
    let sc1 := left_scope (co_zombie co) i sc in
    (sc_disposing sc = false → Disposable (<[s := sc1]> (scopes w)) s → (ref_count sc ≤ 1)%Z → scopes w' !! s = None) ∧
    (¬ Disposable (<[s := sc1]> (scopes w)) s → scopes w' = <[s := sc1]> (scopes w)).
Proof.
  intros Hn Hw Hc Hcs Hf Hs.
  pose proof (finalize_spec env Hn c co s sc false w (reachable_still env Hn w Hw) Hc Hcs Hf Hs)
    as (r & w' & Hr & St & Hres & (co' & Hco' & Hf' & Hs') & Hfree)%wp_run.
  rewrite (Hres eq_refl) in Hr. destruct (Hfree eq_refl) as (i & Hi & Hfree1 & Hfree2). exists w', co', i.
  split_and!; [done|apply St|done..|]. cbn zeta. split; [|done]. unfold left_scope in *. by destruct (co_zombie co).
Qed.
Lemma finished_coroutine_frees_scope_witness :
  let w := run0 [OpNewScope None true; OpSpawn 0; OpStart 0; OpDestroy 0] in
  ∃ w', async_coroutine_finalize env0 0 false w = Some (false, w') ∧ Tree w' ∧ scopes w' !! 0 = None.
Proof.
  intros w.
  destruct (finished_coroutine_frees_scope env0 w 0 (mk_coroutine (Some 0) false true false true false false true true) 0
    (mk_scope false true false false false false false 1 None [] [0] 1 0 false false false []))
    as (w' & co' & i & Hr & T & _ & _ & _ & Hi & Hfree & _);
    [done|apply run0_reachable; vm_compute; reflexivity|vm_compute; reflexivity..|].
  exists w'. split_and!; [exact Hr|exact T|]. destruct i as [|i]; [|done]. apply Hfree; [done| |cbn; lia].
  eapply disposable; [vm_compute; reflexivity|done|done|by left|]. intros c Hc. cbn in Hc. by apply not_elem_of_nil in Hc.
Defined.

(** When the last reference to a Scope object goes, the scope is freed at once, or it
    is closed or cancelled, unless a reference of a timer keeps it or it is being
    disposed of already. *)
Theorem destroyed_object_releases_scope `{!ScopeMacros, !ScopeMacrosSpec} env w s :
  (∀ x, listener_throws env x = false) → scope_reachable env w → live_scope w s = true →
  ∃ w', scope_destroy env s w = Some (tt, w') ∧ Tree w' ∧ (scopes w' !! s = None ∨ marked w' s ∨
    ∃ sc, scopes w !! s = Some sc ∧ ((1 < ref_count sc)%Z ∨ sc_disposing sc = true)).
Proof.
  intros Hn Hw Hs. pose proof (destroy_object_spec env Hn s w (reachable_still env Hn w Hw) Hs) as ([] & w' & Hr & St & Ho)%wp_run.
  exists w'. split_and!; [done|apply St|done].
Qed.
Lemma destroyed_object_releases_scope_witness : ∃ w', scope_destroy env0 0 (run0 family) = Some (tt, w') ∧ Tree w'.
Proof.
  destruct (destroyed_object_releases_scope env0 (run0 family) 0) as (w' & Hr & T & _);
    [done|apply run0_reachable; vm_compute; reflexivity|vm_compute; reflexivity|].
  exists w'. split; [exact Hr|exact T].
Defined.

(** ** Waiting *)

(** The guard against deadlocks: the search ends, what it finds is there, and when
    it finds nothing and does not give up, the coroutine is not in the subtree.  It
    gives up only below depth 64.  So a coroutine of the subtree never waits for the
    completion of the scope. *)
Theorem await_completion_guard `{!ScopeMacros} w s c : Tree w → live_scope w s = true →
  ∃ o, method_awaitCompletion (Some s) c w = Some (o, w) ∧
    (o = AwaitWaits → ¬ Inside (scopes w) s c) ∧
    (o = AwaitThrowsError → Inside (scopes w) s c ∨ Deep (scopes w) s 0).
Proof.
  intros T [sc Hs]%bool_decide_eq_true.
  destruct (contains_coroutine_correct (scope_fuel w) w s c 0 T) as ([found e] & Hr & Hfound & Hnot & Hdeep);
    [by exists sc|unfold scope_fuel; lia|].
  assert (wp (method_awaitCompletion (Some s) c) (λ o w', w' = w ∧ (o = AwaitWaits → ¬ Inside (scopes w) s c) ∧
    (o = AwaitThrowsError → Inside (scopes w) s c ∨ Deep (scopes w) s 0)) w) as (o & w' & Ho & -> & HP)%wp_run; [|by exists o].
  unfold method_awaitCompletion. wp_simpl. eapply wp_get_scope; [exact Hs|].
  destruct (sc_closed sc); [by wp_simpl|]. destruct (sc_cancelled sc); [by wp_simpl|]. wp_simpl. rewrite wp_option.
  exists (found, e). split; [exact Hr|]. destruct (found || e) eqn:He; wp_simpl.
  - split; [done|]. split; [done|]. intros _. apply orb_true_iff in He as [->| ->]; [left; by apply Hfound|right; by apply Hdeep].
  - apply orb_false_iff in He as [-> ->]. destruct (_ && _); (split; [done|]); (split; [|done]); [done|].
    intros _. by apply Hnot.
Qed.
Lemma await_completion_guard_witness :
  ∃ o, method_awaitCompletion (Some 0) 1 (run0 family) = Some (o, run0 family) ∧
    (o = AwaitWaits → ¬ Inside (scopes (run0 family)) 0 1).
Proof.
  destruct (await_completion_guard (run0 family) 0 1) as (o & Hr & Hi & _);
    [apply run0_tree; vm_compute; reflexivity|vm_compute; reflexivity|]. exists o. split; [exact Hr|exact Hi].
Defined.

(** ** Where the code falls short of its comments *)

(** The scope can be reached, and it is gone. *)
Definition dangling (w : sworld) (p c : nat) : bool :=
  match scopes w !! p with
  | Some sc => bool_decide (c ∈ child_scopes sc) && bool_decide (scopes w !! c = None)
  | None => false
  end.

(** Counterexample: the disposal frees the children before it starts the finally
    handlers, which keep the scope alive, with the freed children in its vector; the
    next walk over the tree reads a freed scope. *)
Theorem finally_handler_leaves_dangling_child :
  ∃ w, (method_finally 0 5;; scope_destroy env0 0)
         (run0 [OpNewScope None true; OpNewScope (Some 0) false; OpNewScope (Some 0) false]) = Some (tt, w) ∧
    Freed 2 ∈ s_out w ∧ dangling w 0 2 = true ∧ SCOPE_IS_COMPLETED 0 w = None.
Proof. eexists. split; [vm_compute; reflexivity|]. split; [|vm_compute; auto]. apply list_elem_of_In. cbn. tauto. Qed.

(** Counterexample: the comment of [async_scope_await_after_cancellation] promises
    to resume the awaiter when no coroutine and no zombie is left; but a cancelled
    scope counts as done, so the first coroutine that finishes resumes the awaiter
    while another one is active. *)
Theorem await_after_cancellation_resumes_early :
  let w := run0 [OpNewScope None true; OpSpawn 0; OpSpawn 0; OpCancel 0 true; OpFinalize 0 false] in
  scope_reachable env0 w ∧ option_map fst (callback_resolve_when_zombie_completed 0 false None w) = Some AwaiterResumed ∧
  active_coroutines_count <$> scopes w !! 0 = Some 1%Z.
Proof. split; [apply run0_reachable; vm_compute; reflexivity|]. vm_compute. auto. Qed.

(** Counterexample: a scope whose only child is idle is finished, and yet
    [awaitCompletion] waits, for a notification that nothing will send. *)
Theorem await_completion_waits_for_idle_child :
  let w := run0 [OpNewScope None true; OpNewScope (Some 0) true] in
  scope_reachable env0 w ∧ option_map fst (method_isFinished (Some 0) w) = Some true ∧
  option_map fst (method_awaitCompletion (Some 0) 7 w) = Some AwaitWaits.
Proof. split; [apply run0_reachable; vm_compute; reflexivity|]. vm_compute. auto. Qed.

(** Counterexample: the reference of [disposeAfterTimeout] does not survive a
    second disposal: the coroutine that finishes takes the reference of the owner, and
    the disposal of the parent frees the scope that the timer still points to. *)
Theorem timeout_reference_is_consumed :
  let w := run0 [OpNewScope None true; OpNewScope (Some 0) true; OpSpawn 1; OpTimeout 1 true; OpDestroy 1;
                 OpFinalize 0 false] in
  ref_count <$> scopes w !! 1 = Some 1%Z ∧
  ∃ w', run_op env0 (OpDestroy 0) w = Some (tt, w') ∧ scope_reachable env0 w' ∧ scopes w' !! 1 = None ∧
    Freed 1 ∈ s_out w'.
Proof.
  split; [vm_compute; reflexivity|]. eexists. split; [vm_compute; reflexivity|]. split_and!.
  - eapply (play_reachable env0 [OpNewScope None true; OpNewScope (Some 0) true; OpSpawn 1; OpTimeout 1 true; OpDestroy 1;
      OpFinalize 0 false; OpDestroy 0]); [apply reach_init|vm_compute; reflexivity].
  - vm_compute. reflexivity.
  - apply list_elem_of_In. cbn. tauto.
Qed.

(** Counterexample: a scope that was cancelled still accepts coroutines, and the
    next cancellation finds it done: it is closed and they are not cancelled. *)
Theorem second_cancel_spares_coroutines :
  let w := run0 [OpNewScope None true; OpSpawn 0; OpCancel 0 true; OpSpawn 0; OpCancel 0 true] in
  scope_reachable env0 w ∧ sc_closed <$> scopes w !! 0 = Some true ∧ hit <$> routines w !! 1 = Some false.
Proof. split; [apply run0_reachable; vm_compute; reflexivity|]. vm_compute. auto. Qed.

(** Counterexample: a scope without coroutines below is closed by its cancellation,
    and its children, which can still get coroutines, are neither closed nor cancelled. *)
Theorem idle_cancel_spares_children :
  let w := run0 [OpNewScope None true; OpNewScope (Some 0) true; OpCancel 0 true; OpSpawn 1] in
  scope_reachable env0 w ∧ sc_closed <$> scopes w !! 0 = Some true ∧
  (λ sc, sc_closed sc || sc_cancelled sc) <$> scopes w !! 1 = Some false ∧ hit <$> routines w !! 0 = Some false.
Proof. split; [apply run0_reachable; vm_compute; reflexivity|]. vm_compute. auto. Qed.

(** Counterexample: each safe cancellation of a started coroutine takes one off the
    number of live coroutines, the second one of the same coroutine as well. *)
Theorem safe_cancel_discounts_twice :
  let w := run0 [OpNewScope None true; OpSpawn 0; OpStart 0; OpCancelCoroutine 0 true; OpCancelCoroutine 0 true] in
  scope_reachable env0 w ∧
  length (filter (.= CoroutineCountDecreased 0) (s_out w)) = 2.
Proof. split; [apply run0_reachable; vm_compute; reflexivity|]. vm_compute. reflexivity. Qed.

(** Counterexample: protected sections do not nest: the end of the inner one
    exposes the rest of the outer one. *)
Theorem inner_protect_ends_outer :
  let w := run0 [OpNewScope None true; OpSpawn 0; OpStart 0; OpProtect 0 true; OpProtect 0 true; OpProtect 0 false;
                 OpCancelCoroutine 0 false] in
  scope_reachable env0 w ∧ co_cancelled <$> routines w !! 0 = Some true.
Proof. split; [apply run0_reachable; vm_compute; reflexivity|]. vm_compute. reflexivity. Qed.
