(* ===== verification/Iterator.v ===== *)
(** * Concurrent iteration: [src/iterator.c], [src/iterator.h], and the microtask
    queue ([execute_microtasks] of [src/scheduler.c], [add_microtask] of
    [src/async_API.c])

    An iterator calls a handler for each element of an array or of an iterator
    object.  The handler may suspend; the scheduler then runs the iterator's
    microtask, which spawns one more coroutine ("worker") on the same iterator, up
    to the limit [concurrency].

    A worker is cut at each call that can suspend: the functions of the iterator
    object, which PHP code may implement, and the handler.  [resume] is what it does
    from one cut to the next, and workers interleave freely.  An array is the list of
    its elements; nothing else changes it during the iteration. *)

From S2P Require Import Prelude.

Local Open Scope Z_scope.

Inductive async_iterator_state_t :=
  ASYNC_ITERATOR_INIT | ASYNC_ITERATOR_MOVING | ASYNC_ITERATOR_STARTED | ASYNC_ITERATOR_FINISHED.
#[export] Instance async_iterator_state_eq_dec : EqDecision async_iterator_state_t.
Proof. solve_decision. Defined.

(** The functions of an iterator object on its state [I]: [zend_object_iterator]. *)
Record zend_object_iterator (I E : Type) := mk_object_iterator {
  fn_rewind : I → I;
  fn_valid : I → bool * I;
  fn_get_current_data : I → option E;
  fn_move_forward : I → I
}.
Arguments mk_object_iterator {I E}.
Arguments fn_rewind {I E}.
Arguments fn_valid {I E}.
Arguments fn_get_current_data {I E}.
Arguments fn_move_forward {I E}.

Section iterator.
Context {I E X : Type} (zend_iterator : zend_object_iterator I E).
(** Cancellations, and the engine's exceptions for an exit. *)
Context (is_cancellation : X → bool).

(** What is iterated: an array with the position, or the state of an object. *)
Inductive target := TArray (array : list E) (position : nat) | TObject (it : I).

(** What a call answers: [HFalse] is the value [false] of PHP, which ends the
    iteration. *)
Inductive handler_result := HSuccess | HFalse | HFailure | HThrow (e : X).

(** Where a worker is.  [prev]: [prev_ref_count] of [ITERATOR_SAFE_MOVING_START]. *)
Inductive worker :=
| WSpawned
| WRewind (prev : Z)
| WValid
| WCurrent (prev : Z)
| WKey (current : E) (prev : Z)
| WForward (current : E) (prev : Z)
| WHandler (current : E).

Record async_iterator_t := mk_iterator {
  it_state : async_iterator_state_t;
  active_coroutines : Z;
  concurrency : Z;
  ref_count : Z;                  (* of the microtask *)
  is_cancelled : bool;            (* the microtask *)
  it_target : target;
  it_exception : list X;          (* the last one and its chain of previous ones *)
  completion_event : bool;        (* not NULL *)
  (* the rest of the system *)
  queued : Z;                     (* entries of the microtask queue *)
  workers : gmap nat worker;
  next_worker : nat;
  scope_cancelled : bool;
  notified : list (list X);       (* notifications of the completion event *)
  handled : list E;               (* elements given to the handler, in order *)
  owner : bool;                   (* the caller waits and holds a reference *)
  released : bool;                (* [fcall] and [zend_iterator] are NULL *)
  it_freed : bool
}.

#[export] Instance async_iterator_eta : Eta async_iterator_t := λ i,
  mk_iterator (it_state i) (active_coroutines i) (concurrency i) (ref_count i) (is_cancelled i) (it_target i)
    (it_exception i) (completion_event i) (queued i) (workers i) (next_worker i) (scope_cancelled i) (notified i)
    (handled i) (owner i) (released i) (it_freed i).
Definition set_it_state x (i : async_iterator_t) := ltac:(record_set i it_state x).
Definition set_active_coroutines x (i : async_iterator_t) := ltac:(record_set i active_coroutines x).
Definition set_ref_count x (i : async_iterator_t) := ltac:(record_set i ref_count x).
Definition set_is_cancelled x (i : async_iterator_t) := ltac:(record_set i is_cancelled x).
Definition set_it_target x (i : async_iterator_t) := ltac:(record_set i it_target x).
Definition set_it_exception x (i : async_iterator_t) := ltac:(record_set i it_exception x).
Definition set_completion_event x (i : async_iterator_t) := ltac:(record_set i completion_event x).
Definition set_queued x (i : async_iterator_t) := ltac:(record_set i queued x).
Definition set_workers x (i : async_iterator_t) := ltac:(record_set i workers x).
Definition set_next_worker x (i : async_iterator_t) := ltac:(record_set i next_worker x).
Definition set_scope_cancelled x (i : async_iterator_t) := ltac:(record_set i scope_cancelled x).
Definition set_notified x (i : async_iterator_t) := ltac:(record_set i notified x).
Definition set_handled x (i : async_iterator_t) := ltac:(record_set i handled x).
Definition set_owner x (i : async_iterator_t) := ltac:(record_set i owner x).
Definition set_released x (i : async_iterator_t) := ltac:(record_set i released x).
Definition set_it_freed x (i : async_iterator_t) := ltac:(record_set i it_freed x).

Abbreviation IM := (M async_iterator_t).

(** Every use of the iterator: it must not be freed. *)
Definition alive : IM async_iterator_t := i ← get; if it_freed i then undefined else mret i.

(** ** References and completion *)

(** [ZEND_ASYNC_CALLBACKS_NOTIFY_AND_CLOSE] of the completion event, if there is one. *)
Definition complete_event : IM unit :=
  i ← get;
  when (completion_event i) (modify (set_completion_event false);; modify (set_notified (notified i ++ [it_exception i]))).

Definition iterator_dtor : IM unit :=
  i ← alive;
  if 1 <? ref_count i then modify (set_ref_count (ref_count i - 1))
  else
    modify (set_ref_count 0);;
    complete_event;;
    modify (set_it_exception []);;
    modify (set_it_freed true).

Definition iterator_release_coroutine : IM unit :=
  i ← alive;
  if 1 <? active_coroutines i then modify (set_active_coroutines (active_coroutines i - 1))
  else
    modify (set_active_coroutines 0);;
    modify (set_it_state ASYNC_ITERATOR_FINISHED);;
    complete_event.

Definition add_microtask : IM unit :=
  i ← alive;
  when (negb (is_cancelled i)) (modify (set_queued (queued i + 1));; modify (set_ref_count (ref_count i + 1))).

(** A coroutine is created for the iterator; [spawned]: the engine gives one. *)
Definition spawn_worker : IM unit :=
  modify (λ i, set_workers (<[next_worker i := WSpawned]> (workers i)) i);;
  modify (λ i, set_next_worker (S (next_worker i)) i).
Definition iterator_microtask (spawned : bool) : IM unit :=
  i ← alive;
  if bool_decide (it_state i = ASYNC_ITERATOR_FINISHED) ||
     ((0 <? concurrency i) && (concurrency i <=? active_coroutines i)) then mret tt
  else if negb spawned then mret tt
  else
    modify (set_ref_count (ref_count i + 1));;
    modify (set_active_coroutines (u32 (active_coroutines i + 1)));;
    spawn_worker.

(** One turn of the loop of [execute_microtasks]. *)
Definition execute_microtask (spawned : bool) : IM unit :=
  i ← alive;
  modify (set_queued (queued i - 1));;
  when (negb (is_cancelled i)) (iterator_microtask spawned);;
  modify (λ i, if 0 <? ref_count i then set_ref_count (ref_count i - 1) i else i);;
  i ← get;
  when (ref_count i <=? 0) iterator_dtor.

Definition async_iterator_run_in_coroutine (spawned : bool) : IM unit :=
  i ← alive;
  when spawned (modify (set_active_coroutines (u32 (active_coroutines i + 1)));; spawn_worker).

(** ** The body of a worker *)
Definition park (w : nat) (p : worker) : IM unit := modify (λ i, set_workers (<[w := p]> (workers i)) i).

Definition finish_iteration : IM unit :=
  modify (set_it_state ASYNC_ITERATOR_FINISHED);; modify (set_is_cancelled true).

(** [async_apply_exception]: [EG(exception)] takes the place of [*to_exception], which
    becomes its previous one, unless it is a cancellation. *)
Definition async_apply_exception (e : option X) (to_exception : list X) : list X :=
  match e with
  | Some e => if is_cancellation e then to_exception else e :: to_exception
  | None => to_exception
  end.
Definition async_iterator_apply_exception (e : option X) : IM unit :=
  i ← alive;
  modify (set_it_exception (async_apply_exception e (it_exception i)));;
  i ← get;
  match it_exception i with
  | [] => mret tt
  | _ => when (negb (scope_cancelled i)) (modify (set_scope_cancelled true))
  end.

(** The worker leaves [iterate]: the end of [async_iterator_run] and of
    [coroutine_entry]. *)
Definition leave (w : nat) (e : option X) : IM unit :=
  async_iterator_apply_exception e;;
  i ← alive;
  when (bool_decide (it_state i = ASYNC_ITERATOR_FINISHED) && (active_coroutines i =? 0)) complete_event;;
  modify (λ i, set_workers (delete w (workers i)) i);;
  iterator_release_coroutine;;
  iterator_dtor.

Definition ITERATOR_SAFE_MOVING_START : IM Z :=
  i ← alive;
  modify (set_it_state ASYNC_ITERATOR_MOVING);;
  modify (set_is_cancelled true);;
  mret (ref_count i).
Definition ITERATOR_SAFE_MOVING_END (prev_ref_count : Z) : IM unit :=
  modify (set_it_state ASYNC_ITERATOR_STARTED);;
  modify (set_is_cancelled false);;
  i ← alive;
  when (negb (prev_ref_count =? ref_count i)) add_microtask.

(** A use of [fcall] or [zend_iterator], which [iterate_end] sets to NULL. *)
Definition callable : IM unit := i ← alive; ZEND_ASSERT (negb (released i)).
Definition call_handler (w : nat) (current : E) : IM unit :=
  callable;;
  modify (λ i, set_handled (handled i ++ [current]) i);;
  park w (WHandler current).

(** The head of the loop: one element of the array, or a call of [valid]. *)
Definition iterate_loop (w : nat) : IM unit :=
  i ← alive;
  match it_state i with
  | ASYNC_ITERATOR_FINISHED | ASYNC_ITERATOR_MOVING => leave w None
  | _ =>
    match it_target i with
    | TArray array position =>
      match array !! position with
      | None => finish_iteration;; leave w None
      | Some current =>
        modify (set_it_target (TArray array (S position)));;
        call_handler w current
      end
    | TObject _ => callable;; park w WValid
    end
  end.

Definition start (w : nat) : IM unit :=
  add_microtask;;
  i ← alive;
  match it_state i, it_target i with
  | ASYNC_ITERATOR_MOVING, _ => leave w None
  | ASYNC_ITERATOR_INIT, TObject _ =>
    modify (set_it_state ASYNC_ITERATOR_STARTED);;
    callable;;
    prev ← ITERATOR_SAFE_MOVING_START;
    park w (WRewind prev)
  | _, TObject _ => callable;; iterate_loop w
  | _, TArray _ _ => iterate_loop w
  end.

(** Applies a function to the state of the iterator object. *)
Definition on_object (f : I → I) : IM unit :=
  i ← get;
  match it_target i with TObject it => modify (set_it_target (TObject (f it))) | _ => mret tt end.

(** The call at which the worker stands returns, or it throws [e] (a call of
    [valid] that throws answers false).  [effect]: what the handler did to the state
    of the iterator object before it returned. *)
Definition resume (w : nat) (r : handler_result) (effect : I → I) : IM unit :=
  i ← alive;
  p ← of_option (workers i !! w);
  let thrown := match r with HThrow e => Some e | _ => None end in
  let failed := bool_decide (is_Some thrown) in
  match p with
  | WSpawned => start w
  | WRewind prev =>
    on_object (fn_rewind zend_iterator);;
    ITERATOR_SAFE_MOVING_END prev;;
    if failed then finish_iteration;; leave w thrown else iterate_loop w
  | WValid =>
    match it_target i with
    | TObject it =>
      let '(valid, it) := fn_valid zend_iterator it in
      modify (set_it_target (TObject it));;
      if valid && negb failed then
        callable;;
        prev ← ITERATOR_SAFE_MOVING_START;
        park w (WCurrent prev)
      else finish_iteration;; leave w thrown
    | _ => undefined
    end
  | WCurrent prev =>
    ITERATOR_SAFE_MOVING_END prev;;
    if failed then finish_iteration;; leave w thrown
    else
      match it_target i with
      | TObject it =>
        match fn_get_current_data zend_iterator it with
        | None => finish_iteration;; leave w None
        | Some current =>
          callable;;
          prev ← ITERATOR_SAFE_MOVING_START;
          park w (WKey current prev)
        end
      | _ => undefined
      end
  | WKey current prev =>
    ITERATOR_SAFE_MOVING_END prev;;
    if failed then finish_iteration;; leave w thrown
    else
      callable;;
      prev ← ITERATOR_SAFE_MOVING_START;
      park w (WForward current prev)
  | WForward current prev =>
    on_object (fn_move_forward zend_iterator);;
    ITERATOR_SAFE_MOVING_END prev;;
    if failed then finish_iteration;; leave w thrown else call_handler w current
  | WHandler current =>
    on_object effect;;
    match r with
    | HSuccess => iterate_loop w
    | HFalse => finish_iteration;; iterate_loop w
    | HFailure => finish_iteration;; leave w None
    | HThrow e => finish_iteration;; leave w (Some e)
    end
  end.

(** A coroutine that is cancelled before it starts; [rethrow]: the variant that
    throws the iterator's exception. *)
Definition coroutine_extended_dispose (w : nat) (rethrow : bool) : IM unit :=
  i ← alive;
  when rethrow (modify (set_it_exception []));;
  modify (λ i, set_workers (delete w (workers i)) i);;
  iterator_release_coroutine;;
  iterator_dtor.

(** A new iterator, run in a coroutine; [awaited]: the caller holds a reference and
    waits for the completion event, as [Async\iterate] does. *)
Definition async_iterator_new (t : target) (limit : Z) : async_iterator_t :=
  mk_iterator ASYNC_ITERATOR_INIT 0 (u32 limit) 1 false t [] false 0 ∅ 0 false [] [] false false false.
Definition launch (awaited : bool) : IM unit :=
  async_iterator_run_in_coroutine true;;
  when awaited
    (modify (λ i, set_ref_count (ref_count i + 1) i);;
     modify (set_owner true);;
     modify (set_completion_event true)).

(** The caller goes on after its waits and drops its reference: the end of
    [Async\iterate].  It releases the callback and the iterator object itself, although
    a worker may be left: a cancellation ends a wait, and a scope that was cancelled
    counts as completed. *)
Definition iterate_end : IM unit :=
  i ← alive;
  modify (set_released true);;
  modify (set_owner false);;
  modify (set_it_exception []);;
  iterator_dtor.
End iterator.
