(* ===== verification/IteratorProofs.v ===== *)
(** * Steps of a concurrent iteration and their invariant

    [iter_step] lists what can happen to an iterator: the scheduler runs a microtask,
    a worker goes on, a worker is cancelled before it starts, the caller ends, with or
    without workers left.  The
    invariant [Inv] accounts for references and slots; [ArrInv] adds what holds when
    an array is iterated. *)

From S2P Require Import Prelude Iterator.
From stdpp Require Import tactics.

Local Open Scope Z_scope.

Section steps.
Context {I E X : Type} (zend_iterator : zend_object_iterator I E) (is_cancellation : X → bool).
(** The argument [concurrency] of the caller. *)
Context (limit : Z).
Abbreviation iter := (@async_iterator_t I E X).
Implicit Types (i : iter) (w : nat).

Inductive iter_step :=
| SMicrotask (spawned : bool)
| SResume (w : nat) (r : @handler_result X) (effect : I → I)
| SDispose (w : nat) (rethrow : bool)
| SEnd
| SInterrupt.

Definition run_step (s : iter_step) : M iter unit :=
  match s with
  | SMicrotask spawned => execute_microtask spawned
  | SResume w r effect => resume zend_iterator is_cancellation w r effect
  | SDispose w rethrow => coroutine_extended_dispose w rethrow
  | SEnd | SInterrupt => iterate_end
  end.

(** The scheduler runs what is queued, a coroutine starts without an argument, only a
    coroutine that has not started is disposed of, and the caller ends at any time: when
    no worker is left, or before that, because its waits were interrupted or the scope
    of the iterator was cancelled. *)
Definition enabled (s : iter_step) i : bool :=
  match s with
  | SMicrotask _ => (0 <? queued i) && (Z.of_nat (size (workers i)) <? 2 ^ 32 - 1)
  | SResume w r _ =>
    match workers i !! w, r with
    | Some WSpawned, HSuccess => true
    | Some WSpawned, _ | None, _ => false
    | Some _, _ => true
    end
  | SDispose w _ => match workers i !! w with Some WSpawned => true | _ => false end
  | SEnd => owner i && bool_decide (workers i = ∅)
  | SInterrupt => owner i && bool_decide (workers i ≠ ∅)
  end.

(** Whether the loop goes on to a call of the handler or of the iterator object. *)
Definition loop_calls (st : async_iterator_state_t) (t : target (I := I) (E := E)) : bool :=
  match st, t with
  | ASYNC_ITERATOR_FINISHED, _ | ASYNC_ITERATOR_MOVING, _ => false
  | _, TArray array position => bool_decide (is_Some (array !! position))
  | _, TObject _ => true
  end.
(** Whether a worker at [p] that goes on with the answer [r] gets to the next call. *)
Definition worker_calls (p : worker (E := E)) (r : @handler_result X) i : bool :=
  match p, r, it_target i with
  | WSpawned, _, TArray _ _ => loop_calls (it_state i) (it_target i)
  | WSpawned, _, TObject _ => negb (bool_decide (it_state i = ASYNC_ITERATOR_MOVING))
  | WHandler _, HSuccess, _ => loop_calls (it_state i) (it_target i)
  | WHandler _, _, _ | _, HThrow _, _ => false
  | WValid, _, TObject it => (fn_valid zend_iterator it).1
  | WCurrent _, _, TObject it => bool_decide (is_Some (fn_get_current_data zend_iterator it))
  | _, _, _ => true
  end.
(** The step calls through a pointer that the caller has released. *)
Definition calls_released (s : iter_step) i : bool :=
  match s with
  | SResume w r _ => released i && match workers i !! w with Some p => worker_calls p r i | None => false end
  | _ => false
  end.

(** Runs from a new iterator, latest step first. *)
Inductive iter_run (awaited : bool) (t : target (I := I) (E := E)) : list iter_step → iter → Prop :=
| run_launch i : launch awaited (async_iterator_new t limit) = Some (tt, i) → iter_run awaited t [] i
| run_more tr s i i' :
    iter_run awaited t tr i → enabled s i = true → run_step s i = Some (tt, i') →
    iter_run awaited t (s :: tr) i'.

(** ** The invariant *)
Definition object_phase (p : worker (E := E)) : bool :=
  match p with WSpawned | WHandler _ => false | _ => true end.
Definition is_object (t : target (I := I) (E := E)) : bool := match t with TObject _ => true | _ => false end.

Record Inv (awaited : bool) i : Prop := {
  I_ref : ref_count i = queued i + Z.of_nat (size (workers i)) + Z.b2z (owner i);
  I_active : active_coroutines i = Z.of_nat (size (workers i));
  I_queued : 0 ≤ queued i;
  I_bound : Z.of_nat (size (workers i)) < 2 ^ 32;
  I_concurrency : concurrency i = u32 limit;
  I_limit : 0 < concurrency i → active_coroutines i ≤ concurrency i;
  I_phase : ∀ w p, workers i !! w = Some p → object_phase p = true → is_object (it_target i) = true;
  I_next : ∀ w, is_Some (workers i !! w) → (w < next_worker i)%nat;
  I_owner : owner i = true → awaited = true ∧ released i = false;
  I_busy : workers i ≠ ∅ → completion_event i = awaited ∧ notified i = [];
  I_idle : workers i = ∅ → it_state i = ASYNC_ITERATOR_FINISHED ∧ completion_event i = false ∧
    length (notified i) = (if awaited then 1 else 0)%nat;
  I_freed : it_freed i = bool_decide (ref_count i = 0)
}.

Lemma busy i w p : workers i !! w = Some p → workers i ≠ ∅.
Proof. intros Hw He. by rewrite He in Hw. Qed.
Lemma busy_size i w p : workers i !! w = Some p → 1 ≤ Z.of_nat (size (workers i)).
Proof.
  intros Hw%busy. assert (size (workers i) ≠ 0)%nat; [by intros ?%map_size_empty_inv|lia].
Qed.
Lemma Zb2z_nonneg b : 0 ≤ Z.b2z b.
Proof. by destruct b. Qed.
Lemma Inv_alive awaited i w p : Inv awaited i → workers i !! w = Some p → it_freed i = false.
Proof.
  intros Hi Hw%busy_size. rewrite (I_freed _ _ Hi). apply bool_decide_eq_false_2.
  rewrite (I_ref _ _ Hi). pose proof (I_queued _ _ Hi). destruct (owner i); cbn; lia.
Qed.

(** Changes that the invariant does not see. *)
Lemma Inv_quiet awaited i i' : Inv awaited i → workers i ≠ ∅ →
  ref_count i' = ref_count i → queued i' = queued i → workers i' = workers i → owner i' = owner i →
  active_coroutines i' = active_coroutines i → concurrency i' = concurrency i →
  is_object (it_target i') = is_object (it_target i) → next_worker i' = next_worker i → released i' = released i →
  completion_event i' = completion_event i → notified i' = notified i → it_freed i' = it_freed i →
  Inv awaited i'.
Proof.
  intros [] ? E1 E2 E3 E4 E5 E6 E7 E8 E9 E10 E11 E12.
  constructor; rewrite ?E1, ?E2, ?E3, ?E4, ?E5, ?E6, ?E7, ?E8, ?E9, ?E10, ?E11, ?E12; done.
Qed.

Lemma Inv_park awaited i w p p' : Inv awaited i → workers i !! w = Some p →
  (object_phase p' = true → is_object (it_target i) = true) →
  Inv awaited (set_workers (<[w := p']> (workers i)) i).
Proof.
  intros [] Hw Hp'. assert (size (<[w:=p']> (workers i)) = size (workers i)) as Hs by (by rewrite map_size_insert_Some).
  constructor; cbn; rewrite ?Hs; try done.
  - intros w' q [[<- <-]|[? Hq]]%lookup_insert_Some; eauto.
  - intros w' Hq. destruct (decide (w' = w)) as [->|]; [by apply I_next0; eexists|].
    apply I_next0. by rewrite lookup_insert_ne in Hq.
  - intros _. by apply I_busy0, (busy i w p).
  - by intros ?%insert_non_empty.
Qed.

(** ** Specifications of the shared parts *)
Abbreviation leave := (leave is_cancellation).

Lemma wp_alive i (Φ : iter → iter → Prop) : it_freed i = false → wp alive Φ i ↔ Φ i i.
Proof. intros Hf. unfold alive. wp_simpl. by rewrite Hf. Qed.

Lemma add_microtask_spec awaited i w p : Inv awaited i → workers i !! w = Some p →
  wp add_microtask (λ _ i', i' = (if is_cancelled i then i
    else set_ref_count (ref_count i + 1) (set_queued (queued i + 1) i)) ∧ Inv awaited i') i.
Proof.
  intros Hi Hw. unfold add_microtask. rewrite wp_bind, wp_alive by (by eapply Inv_alive).
  pose proof (I_queued _ _ Hi). pose proof (busy_size _ _ _ Hw). wp_simpl. destruct (is_cancelled i); cbn; [done|].
  split; [done|]. destruct Hi. constructor; cbn; try done; try lia.
  rewrite I_freed0. apply bool_decide_ext. pose proof (Zb2z_nonneg (owner i)). lia.
Qed.

(** A worker [w] leaves; [e]: the exception of its coroutine. *)
Record Left (awaited : bool) (w : nat) (chain : list X) i i' : Prop := {
  L_inv : Inv awaited i';
  L_workers : workers i' = delete w (workers i);
  L_target : it_target i' = it_target i;
  L_handled : handled i' = handled i;
  L_queued : queued i' = queued i;
  L_cancelled : is_cancelled i' = is_cancelled i;
  L_owner : owner i' = owner i;
  L_released : released i' = released i;
  L_state : it_state i' = if decide (delete w (workers i) = ∅) then ASYNC_ITERATOR_FINISHED else it_state i;
  L_busy : delete w (workers i) ≠ ∅ → it_exception i' = chain;
  L_idle : delete w (workers i) = ∅ → notified i' = if awaited then [chain] else []
}.

Lemma iterator_release_spec awaited i w p : Inv awaited i → workers i !! w = Some p →
  wp (modify (λ i, set_workers (delete w (workers i)) i);; iterator_release_coroutine;; iterator_dtor)
     (λ _ i', Left awaited w (it_exception i) i i') i.
Proof.
  intros Hi Hw. pose proof (Inv_alive _ _ _ _ Hi Hw) as Hf. pose proof (busy_size _ _ _ Hw) as Hb.
  pose proof (busy _ _ _ Hw) as Hne. pose proof (Zb2z_nonneg (owner i)) as Hz.
  assert (Z.of_nat (size (delete w (workers i))) = Z.of_nat (size (workers i)) - 1) as Hs.
  { rewrite map_size_delete_Some by eauto. lia. }
  assert (delete w (workers i) = ∅ ↔ Z.of_nat (size (workers i)) = 1) as He.
  { rewrite <- map_size_empty_iff. lia. }
  rewrite wp_bind, wp_modify. unfold iterator_release_coroutine, iterator_dtor, complete_event.
  destruct Hi. destruct (I_busy0 Hne) as [Hev Hnot].
  rewrite wp_bind. wp_simpl. rewrite wp_alive by done. cbn.
  destruct (Z.ltb_spec 1 (active_coroutines i)) as [H1|H1].
  - assert (delete w (workers i) ≠ ∅) as Hd by (rewrite He; lia).
    wp_simpl. rewrite wp_alive by done. cbn. rewrite (proj2 (Z.ltb_lt 1 (ref_count i))) by lia.
    wp_simpl. cbn. constructor; cbn; try done; [|by rewrite decide_False].
    constructor; cbn; try done; try lia.
    + intros w' q [? Hq]%lookup_delete_Some. eauto.
    + intros w' Hq. apply I_next0. rewrite lookup_delete_is_Some in Hq. tauto.
    + rewrite Hf. symmetry. apply bool_decide_eq_false_2. lia.
  - assert (delete w (workers i) = ∅) as Hd by (rewrite He; lia).
    wp_simpl. cbn. rewrite Hev, Hnot, Hd.
    destruct awaited; wp_simpl; (rewrite wp_alive by done); cbn;
      (destruct (Z.ltb_spec 1 (ref_count i)) as [H2|H2]; wp_simpl; cbn; rewrite ?Hev; wp_simpl);
      (constructor; cbn; try done; [|by rewrite decide_True]).
    all: constructor; cbn; rewrite ?map_size_empty; try done; try lia.
    all: try (intros ? ?; rewrite lookup_empty; done).
    all: try (intros ?; rewrite lookup_empty; by intros [? ?]).
    all: try (intros _; cbn; rewrite ?Hev, ?Hnot; done).
    all: rewrite ?Hf; symmetry; try apply bool_decide_eq_false_2; lia.
Qed.

Lemma apply_exception_spec awaited i w p e : Inv awaited i → workers i !! w = Some p →
  wp (async_iterator_apply_exception is_cancellation e) (λ _ i', Inv awaited i' ∧ ∃ b,
    i' = set_scope_cancelled b (set_it_exception (async_apply_exception is_cancellation e (it_exception i)) i)) i.
Proof.
  intros Hi Hw. unfold async_iterator_apply_exception. rewrite wp_bind, wp_alive by (by eapply Inv_alive).
  wp_simpl. cbn. destruct (async_apply_exception _ _ _) eqn:Ha; [|destruct (scope_cancelled i) eqn:Hs]; wp_simpl; cbn.
  all: split; [by apply (Inv_quiet awaited i); [|eapply busy|..]|].
  - by exists (scope_cancelled i).
  - exists true. by rewrite <- Hs.
  - by exists true.
Qed.

Lemma leave_spec awaited i w p e : Inv awaited i → workers i !! w = Some p →
  wp (leave w e) (λ _ i', Left awaited w (async_apply_exception is_cancellation e (it_exception i)) i i') i.
Proof.
  intros Hi Hw. unfold Iterator.leave. wp_apply apply_exception_spec; [done..|].
  intros _ i1 [Hi1 [b Hb]]. assert (workers i1 !! w = Some p) as Hw1 by (by rewrite Hb).
  pose proof (busy_size _ _ _ Hw1) as Hs. pose proof (I_active _ _ Hi1) as Ha.
  rewrite wp_bind, wp_alive by (by eapply Inv_alive).
  rewrite (proj2 (Z.eqb_neq (active_coroutines i1) 0)), andb_false_r by lia. rewrite wp_bind, wp_when.
  eapply wp_mono; [by eapply iterator_release_spec|]. intros _ i' []. subst i1. by constructor.
Qed.

(** What every step of a worker guarantees; [thrown]: what its coroutine throws. *)
Definition Resumed (awaited : bool) (thrown : option X) i i' : Prop :=
  let chain := async_apply_exception is_cancellation thrown (it_exception i) in
  Inv awaited i' ∧ (workers i' ≠ ∅ → it_exception i' = chain) ∧
  (workers i' = ∅ → notified i' = if awaited then [chain] else []).

Lemma Left_resumed awaited w e i i1 i' : it_exception i1 = it_exception i →
  Left awaited w (async_apply_exception is_cancellation e (it_exception i1)) i1 i' → Resumed awaited e i i'.
Proof.
  intros He []. unfold Resumed. rewrite L_workers0, <- He. done.
Qed.
Lemma parked_resumed awaited i w p p' i1 : Inv awaited i1 → workers i1 !! w = Some p →
  (object_phase p' = true → is_object (it_target i1) = true) → it_exception i1 = it_exception i →
  wp (park w p') (λ _, Resumed awaited None i) i1.
Proof.
  intros Hi Hw Hp He. unfold park. wp_simpl. split; [by eapply Inv_park|]. cbn.
  split; [by rewrite He|]. by intros ?%insert_non_empty.
Qed.

Lemma wp_callable i w p awaited (Φ : unit → iter → Prop) : Inv awaited i → workers i !! w = Some p →
  released i = false → wp callable Φ i ↔ Φ tt i.
Proof.
  intros Hi Hw Hr. unfold callable. rewrite wp_bind, wp_alive by (by eapply Inv_alive). rewrite wp_assert, Hr. naive_solver.
Qed.
Lemma released_call i b : (released i = true → b = false) → b = true → released i = false.
Proof. destruct (released i); [|done]. intros Hr Hb. by rewrite Hr in Hb. Qed.

Lemma moving_start_spec awaited i w p : Inv awaited i → workers i !! w = Some p →
  wp ITERATOR_SAFE_MOVING_START (λ prev i', prev = ref_count i ∧
    i' = set_is_cancelled true (set_it_state ASYNC_ITERATOR_MOVING i) ∧ Inv awaited i') i.
Proof.
  intros Hi Hw. unfold ITERATOR_SAFE_MOVING_START. rewrite wp_bind, wp_alive by (by eapply Inv_alive).
  wp_simpl. split_and!; [done..|]. by apply (Inv_quiet awaited i); [|eapply busy|..].
Qed.
Lemma moving_end_spec awaited i w p prev : Inv awaited i → workers i !! w = Some p →
  wp (ITERATOR_SAFE_MOVING_END prev) (λ _ i', Inv awaited i' ∧
    let i1 := set_is_cancelled false (set_it_state ASYNC_ITERATOR_STARTED i) in
    i' = if prev =? ref_count i then i1
         else set_ref_count (ref_count i + 1) (set_queued (queued i + 1) i1)) i.
Proof.
  intros Hi Hw. unfold ITERATOR_SAFE_MOVING_END. wp_simpl.
  assert (Inv awaited (set_is_cancelled false (set_it_state ASYNC_ITERATOR_STARTED i))) as Hi1.
  { by apply (Inv_quiet awaited i); [|eapply busy|..]. }
  rewrite wp_alive by (by eapply (Inv_alive _ _ w p)). cbn. destruct (prev =? ref_count i); cbn; [done|].
  eapply wp_mono; [by eapply (add_microtask_spec _ _ w p)|]. by intros _ ? [-> ?].
Qed.

Lemma finish_leave_spec awaited i w p e : Inv awaited i → workers i !! w = Some p →
  wp (finish_iteration;; leave w e) (λ _, Resumed awaited e i) i.
Proof.
  intros Hi Hw. unfold finish_iteration. wp_simpl. eapply wp_mono.
  - apply (leave_spec awaited _ w p); [|done]. by apply (Inv_quiet awaited i); [|eapply busy|..].
  - intros ? i' H. by eapply Left_resumed; [|exact H].
Qed.
Lemma leave_resumed awaited i w p e : Inv awaited i → workers i !! w = Some p →
  wp (leave w e) (λ _, Resumed awaited e i) i.
Proof.
  intros Hi Hw. eapply wp_mono; [by eapply leave_spec|]. intros ? i' H. by eapply Left_resumed; [|exact H].
Qed.

(** ** The loop and a step of a worker *)
Abbreviation iterate_loop := (iterate_loop is_cancellation).

Lemma call_handler_spec awaited i w p current : Inv awaited i → workers i !! w = Some p → released i = false →
  wp (call_handler w current) (λ _, Resumed awaited None i) i.
Proof.
  intros Hi Hw Hr. unfold call_handler. rewrite wp_bind, (wp_callable _ w p awaited) by done. wp_simpl.
  apply (parked_resumed awaited i w p); [|done..].
  by apply (Inv_quiet awaited i); [|eapply busy|..].
Qed.

Lemma iterate_loop_spec awaited i w p : Inv awaited i → workers i !! w = Some p →
  (released i = true → loop_calls (it_state i) (it_target i) = false) →
  wp (iterate_loop w) (λ _, Resumed awaited None i) i.
Proof.
  intros Hi Hw Hr. unfold Iterator.iterate_loop. rewrite wp_bind, wp_alive by (by eapply Inv_alive).
  assert (wp (leave w None) (λ _, Resumed awaited None i) i) as Hl by (by eapply leave_resumed).
  assert (loop_calls (it_state i) (it_target i) = loop_calls ASYNC_ITERATOR_STARTED (it_target i) →
    wp (match it_target i with
    | TArray array position =>
      match array !! position with
      | Some current =>
        modify (set_it_target (TArray array (S position)));; call_handler w current
      | None => finish_iteration;; leave w None
      end
    | TObject _ => callable;; park w WValid
    end) (λ _, Resumed awaited None i) i) as Hn; [|destruct (it_state i); by auto].
  intros Hst. rewrite Hst in Hr. destruct (it_target i) as [array position|it] eqn:Ht.
  - destruct (array !! position) as [current|] eqn:Hc; [|by eapply finish_leave_spec].
    assert (released i = false) as Hrel.
    { apply (released_call _ _ Hr). cbn. by rewrite Hc. }
    rewrite wp_bind, wp_modify. eapply wp_mono; [by apply (call_handler_spec awaited _ w p); [|done..];
      apply (Inv_quiet awaited i); [|eapply busy|..]; rewrite ?Ht|done].
  - rewrite wp_bind, (wp_callable _ w p awaited) by (done || by apply (released_call _ _ Hr)).
    apply (parked_resumed awaited i w p); try done. by rewrite Ht.
Qed.

Lemma start_spec awaited i w p : Inv awaited i → workers i !! w = Some p →
  (released i = true → worker_calls WSpawned HSuccess i = false) →
  wp (start is_cancellation w) (λ _, Resumed awaited None i) i.
Proof.
  intros Hi Hw Hr. unfold start. wp_apply add_microtask_spec; [done..|]. intros _ i1 [He Hi1].
  assert (workers i1 = workers i ∧ it_exception i1 = it_exception i ∧ it_state i1 = it_state i ∧
    it_target i1 = it_target i ∧ released i1 = released i) as (Ew & Hx & Es & Et & Er).
  { subst i1. by destruct (is_cancelled i). }
  rewrite <- Ew in Hw. clear He. cbn [worker_calls] in Hr. rewrite <- Es, <- Et, <- Er in Hr. clear Ew Es Et Er.
  rewrite wp_bind, wp_alive by (by eapply Inv_alive).
  assert (∀ m, wp m (λ _, Resumed awaited None i1) i1 → wp m (λ _ : unit, Resumed awaited None i) i1) as Hto.
  { intros m Hm. eapply wp_mono; [exact Hm|]. unfold Resumed. by rewrite Hx. }
  assert (loop_calls (it_state i1) (it_target i1) = true → worker_calls WSpawned HSuccess i1 = true) as Hlc.
  { cbn. by destruct (it_target i1), (it_state i1). }
  assert (wp (iterate_loop w) (λ _, Resumed awaited None i1) i1) as Hloop.
  { eapply iterate_loop_spec; [done..|]. intros Hrel. specialize (Hr Hrel). cbn in Hlc. rewrite Hr in Hlc.
    by destruct (loop_calls _ _); [specialize (Hlc eq_refl)|]. }
  destruct (it_state i1) eqn:Hst, (it_target i1) eqn:Ht; cbn in Hr; apply Hto; try exact Hloop;
    try (by eapply leave_resumed); try (rewrite wp_bind, (wp_callable _ w p awaited) by (done || by apply (released_call _ _ Hr)); exact Hloop).
  rewrite wp_bind, wp_modify. set (i2 := set_it_state _ i1).
  assert (Inv awaited i2) as Hi2 by (by apply (Inv_quiet awaited i1); [|eapply busy|..]).
  rewrite wp_bind, (wp_callable _ w p awaited) by (done || by apply (released_call _ _ Hr)).
  wp_apply (moving_start_spec awaited i2 w p); [done..|]. intros prev i3 (-> & -> & Hi3).
  apply (parked_resumed awaited _ w p); try done. cbn. by rewrite Ht.
Qed.

Lemma Resumed_from awaited thrown i i1 i' : it_exception i1 = it_exception i →
  Resumed awaited thrown i1 i' → Resumed awaited thrown i i'.
Proof. unfold Resumed. by intros ->. Qed.

(** The next function of the iterator object is called, in a safe block. *)
Lemma safe_call_spec awaited i i0 w p K : Inv awaited i → workers i !! w = Some p →
  is_object (it_target i) = true → it_exception i = it_exception i0 → released i = false →
  wp (callable;; prev ← ITERATOR_SAFE_MOVING_START; park w (K prev)) (λ _, Resumed awaited None i0) i.
Proof.
  intros Hi Hw Ht Hx Hr. rewrite wp_bind, (wp_callable _ w p awaited) by done.
  wp_apply (moving_start_spec awaited i w p); [done..|]. intros prev i3 (-> & -> & Hi3).
  apply (parked_resumed awaited _ w p); done.
Qed.

(** A function of the iterator object returned. *)
Lemma safe_return_spec awaited i w p prev thrown (k : M iter unit) :
  Inv awaited i → workers i !! w = Some p →
  (thrown = None → ∀ i1, Inv awaited i1 → workers i1 = workers i → it_target i1 = it_target i →
    it_exception i1 = it_exception i → released i1 = released i → it_state i1 = ASYNC_ITERATOR_STARTED →
    wp k (λ _, Resumed awaited None i) i1) →
  wp (ITERATOR_SAFE_MOVING_END prev;;
      if bool_decide (is_Some thrown) then finish_iteration;; leave w thrown else k)
     (λ _, Resumed awaited thrown i) i.
Proof.
  intros Hi Hw Hk. wp_apply moving_end_spec; [done..|]. intros _ i1 [Hi1 He].
  assert (workers i1 = workers i ∧ it_target i1 = it_target i ∧ it_exception i1 = it_exception i ∧
    released i1 = released i ∧ it_state i1 = ASYNC_ITERATOR_STARTED) as (Ew & Et & Ex & Er & Es).
  { cbv zeta in He. subst i1. by destruct (prev =? ref_count i). }
  destruct thrown as [e|]; [rewrite bool_decide_eq_true_2 by done|rewrite bool_decide_eq_false_2 by (by intros [])].
  - eapply wp_mono; [eapply finish_leave_spec; [done|by rewrite Ew]|]. intros ? i'. by apply Resumed_from.
  - by apply Hk.
Qed.

(** What the coroutine throws when it goes on at [p] with the answer [r]. *)
Definition thrown_at (p : worker (E := E)) (r : @handler_result X) : option X :=
  match p, r with
  | WSpawned, _ => None
  | _, HThrow e => Some e
  | _, _ => None
  end.

Lemma on_object_spec awaited i w p (f : I → I) : Inv awaited i → workers i !! w = Some p →
  wp (on_object f) (λ _ i', Inv awaited i' ∧ workers i' = workers i ∧ it_exception i' = it_exception i ∧
    is_object (it_target i') = is_object (it_target i) ∧ released i' = released i ∧ it_state i' = it_state i ∧
    ∀ st, loop_calls st (it_target i') = loop_calls st (it_target i)) i.
Proof.
  intros Hi Hw. unfold on_object. wp_simpl. destruct (it_target i) as [|it] eqn:Ht; wp_simpl.
  - by rewrite Ht.
  - split; [|done]. by apply (Inv_quiet awaited i); [|eapply busy|..]; rewrite ?Ht.
Qed.

Lemma iterator_resume_spec awaited i w p r effect : Inv awaited i → workers i !! w = Some p →
  (released i = true → worker_calls p r i = false) →
  wp (resume zend_iterator is_cancellation w r effect) (λ _, Resumed awaited (thrown_at p r) i) i.
Proof.
  intros Hi Hw Hr. unfold resume. rewrite wp_bind, wp_alive by (by eapply Inv_alive).
  rewrite wp_bind, (wp_defined _ p) by done.
  assert (object_phase p = true → ∃ it, it_target i = TObject it) as Hit.
  { intros Hp. pose proof (I_phase _ _ Hi w p Hw Hp) as Ht. destruct (it_target i); naive_solver. }
  set (thrown := match r with HThrow e => Some e | _ => None end).
  assert (thrown = None → match r with HThrow _ => False | _ => True end) as Hthr by (by destruct r).
  destruct p as [|prev| |prev|current prev|current prev|current].
  - eapply start_spec; [done..|]. by destruct r.
  - wp_apply on_object_spec; [done..|]. intros _ i1 (Hi1 & Ew & Ex & Et & Er & _ & Hlc).
    eapply wp_mono; [|intros ? i'; by apply Resumed_from].
    apply (safe_return_spec awaited _ w (WRewind prev)); [done|by rewrite Ew|].
    intros Hnt i2 Hi2 Ew2 Et2 Ex2 Er2 Es2.
    eapply wp_mono; [eapply iterate_loop_spec; [done|by rewrite Ew2, Ew|]|intros ? i'; by apply Resumed_from].
    rewrite Er2, Er. intros Hrel%Hr. specialize (Hthr Hnt). by destruct r.
  - destruct (Hit eq_refl) as [it Ht]. rewrite Ht. destruct (fn_valid zend_iterator it) as [valid it'] eqn:Hv.
    rewrite wp_bind, wp_modify. set (i1 := set_it_target _ i).
    assert (Inv awaited i1) as Hi1 by (by apply (Inv_quiet awaited i); [|eapply busy|..]; rewrite ?Ht).
    destruct (bool_decide (is_Some thrown)) eqn:Hb; [rewrite andb_false_r|rewrite andb_true_r].
    + eapply wp_mono; [by eapply (finish_leave_spec _ i1)|]. intros ? i'. by apply Resumed_from.
    + assert (thrown_at WValid r = None ∧ thrown = None) as [Hn Hnt].
      { apply bool_decide_eq_false in Hb. destruct r; try done. by destruct Hb. }
      rewrite Hn, Hnt. destruct valid.
      * eapply (safe_call_spec _ i1); [done..|]. apply (released_call _ _ Hr). cbn. rewrite Ht, Hv. by destruct r.
      * eapply wp_mono; [by eapply (finish_leave_spec _ i1)|]. intros ? i'. by apply Resumed_from.
  - destruct (Hit eq_refl) as [it Ht].
    apply (safe_return_spec awaited _ w (WCurrent prev)); [done..|]. intros Hnt i1 Hi1 Ew Et Ex Er _.
    rewrite Ht. destruct (fn_get_current_data zend_iterator it) as [current|] eqn:Hc.
    + eapply safe_call_spec; [done|by rewrite Ew|by rewrite Et, Ht|done|]. rewrite Er. apply (released_call _ _ Hr).
      cbn. rewrite Ht, Hc. specialize (Hthr Hnt). by destruct r.
    + eapply wp_mono; [eapply finish_leave_spec; [done|by rewrite Ew]|]. intros ? i'. by apply Resumed_from.
  - destruct (Hit eq_refl) as [it Ht].
    apply (safe_return_spec awaited _ w (WKey current prev)); [done..|]. intros Hnt i1 Hi1 Ew Et Ex Er _.
    eapply safe_call_spec; [done|by rewrite Ew|by rewrite Et, Ht|done|]. rewrite Er. apply (released_call _ _ Hr).
    specialize (Hthr Hnt). by destruct r.
  - wp_apply on_object_spec; [done..|]. intros _ i1 (Hi1 & Ew & Ex & Et & Er & _).
    eapply wp_mono; [|intros ? i'; by apply Resumed_from].
    apply (safe_return_spec awaited _ w (WForward current prev)); [done|by rewrite Ew|].
    intros Hnt i2 Hi2 Ew2 _ Ex2 Er2 _.
    eapply wp_mono; [eapply call_handler_spec; [done|by rewrite Ew2, Ew|]|intros ? i'; by apply Resumed_from].
    rewrite Er2, Er. apply (released_call _ _ Hr). specialize (Hthr Hnt). by destruct r.
  - wp_apply on_object_spec; [done..|]. intros _ i1 (Hi1 & Ew & Ex & _ & Er & Es & Hlc).
    assert (workers i1 !! w = Some (WHandler current)) as Hw1 by (by rewrite Ew).
    eapply wp_mono; [|intros ? i'; by apply Resumed_from].
    destruct r; cbn; try by eapply finish_leave_spec.
    + eapply iterate_loop_spec; [done..|]. rewrite Er, Es, Hlc. exact Hr.
    + unfold finish_iteration. wp_simpl. set (i2 := set_is_cancelled _ _).
      assert (Inv awaited i2) as Hi2 by (by apply (Inv_quiet awaited i1); [|eapply busy|..]).
      eapply wp_mono; [by eapply iterate_loop_spec|]. intros ? i'. by apply Resumed_from.
Qed.

(** ** Calls through a released pointer *)
Lemma bind_undefined {A B} (m : M iter A) (k : A → M iter B) Ψ i :
  wp m Ψ i → (∀ a i1, Ψ a i1 → k a i1 = None) → (m ≫= k) i = None.
Proof. intros (a & i1 & Hm & HΨ)%wp_run Hk. unfold mbind, M_bind. rewrite Hm. auto. Qed.
Lemma alive_run {B} (k : iter → M iter B) i : (alive ≫= k) i = if it_freed i then None else k i i.
Proof. unfold alive, mbind, M_bind, get, mret, M_ret, undefined. by destruct (it_freed i). Qed.
Lemma callable_undefined {B} (k : unit → M iter B) i : released i = true → (callable ≫= k) i = None.
Proof. intros Hr. unfold callable, alive, mbind, M_bind, get, ZEND_ASSERT. destruct (it_freed i); [done|]. cbn. by rewrite Hr. Qed.
Lemma modify_run {B} f (k : unit → M iter B) i : (modify f ≫= k) i = k tt (f i).
Proof. done. Qed.
Lemma call_handler_undefined w current i : released i = true → call_handler w current i = None.
Proof. intros Hr. by apply callable_undefined. Qed.
Lemma iterate_loop_undefined w i : released i = true → loop_calls (it_state i) (it_target i) = true → iterate_loop w i = None.
Proof.
  intros Hr Hl. unfold Iterator.iterate_loop. rewrite alive_run. destruct (it_freed i); [done|].
  destruct (it_state i), (it_target i) as [array position|it]; cbn in Hl; try done;
    try (by apply callable_undefined); destruct (array !! position); try done; by apply call_handler_undefined.
Qed.
Lemma start_undefined awaited i w p : Inv awaited i → workers i !! w = Some p → released i = true →
  worker_calls WSpawned HSuccess i = true → start is_cancellation w i = None.
Proof.
  intros Hi Hw Hr Hc. eapply bind_undefined; [by eapply add_microtask_spec|]. intros _ i1 [He Hi1].
  assert (workers i1 = workers i ∧ it_state i1 = it_state i ∧ it_target i1 = it_target i ∧ released i1 = released i)
    as (Ew & Es & Et & Er) by (subst i1; by destruct (is_cancelled i)).
  cbn [worker_calls] in Hc. rewrite <- Ew in Hw. rewrite <- Es, <- Et in Hc. rewrite <- Er in Hr. clear He Ew Es Et Er.
  rewrite alive_run. destruct (it_freed i1); [done|].
  pose proof (iterate_loop_undefined w i1 Hr) as Hl.
  destruct (it_state i1), (it_target i1) as [array position|it]; cbn in Hc; try done; try (by apply Hl);
    rewrite ?modify_run; by apply callable_undefined.
Qed.
Lemma returned_undefined awaited i w p prev thrown (k : M iter unit) : Inv awaited i → workers i !! w = Some p →
  thrown = None →
  (∀ i1, released i1 = released i → it_state i1 = ASYNC_ITERATOR_STARTED → it_target i1 = it_target i → k i1 = None) →
  (ITERATOR_SAFE_MOVING_END prev;;
   if bool_decide (is_Some thrown) then finish_iteration;; leave w thrown else k) i = None.
Proof.
  intros Hi Hw -> Hk. eapply bind_undefined; [by eapply moving_end_spec|]. intros _ i1 [_ He].
  rewrite bool_decide_eq_false_2 by (by intros []). cbv zeta in He. apply Hk; subst i1; by destruct (prev =? ref_count i).
Qed.
Lemma resume_undefined awaited i w p r effect : Inv awaited i → workers i !! w = Some p → released i = true →
  worker_calls p r i = true → resume zend_iterator is_cancellation w r effect i = None.
Proof.
  intros Hi Hw Hr Hc. unfold resume. rewrite alive_run. destruct (it_freed i) eqn:Hf; [done|].
  unfold mbind at 1, M_bind at 1, of_option. rewrite Hw. cbn [fmap option_fmap option_map].
  assert (p ≠ WSpawned → match r with HThrow e => Some e | _ => None end = None) as Hn by (by destruct p, r).
  destruct p as [|prev| |prev|current prev|current prev|current].
  - eapply start_undefined; [done..|]. by destruct r.
  - eapply bind_undefined; [by eapply on_object_spec|]. intros _ i1 (Hi1 & Ew & _ & Et & Er & Es & Hlc).
    eapply returned_undefined; [done|by rewrite Ew|by apply Hn|]. intros i2 Er2 Es2 Et2.
    apply iterate_loop_undefined; [congruence|]. rewrite Es2, Et2.
    pose proof (I_phase _ _ Hi w _ Hw eq_refl) as Ho. rewrite <- Et in Ho. by destruct (it_target i1).
  - rewrite Hn by done. cbn in Hc. destruct (it_target i) as [|it]; [by destruct r|].
    destruct (fn_valid zend_iterator it) as [valid it']. assert (valid = true) as -> by (by destruct r).
    rewrite modify_run. by apply callable_undefined.
  - eapply returned_undefined; [done..|by apply Hn|]. intros i1 Er _ _. cbn in Hc.
    destruct (it_target i) as [|it]; [done|]. destruct (fn_get_current_data zend_iterator it); [|by destruct r].
    apply callable_undefined. congruence.
  - eapply returned_undefined; [done..|by apply Hn|]. intros i1 Er _ _. apply callable_undefined. congruence.
  - eapply bind_undefined; [by eapply on_object_spec|]. intros _ i1 (Hi1 & Ew & _ & _ & Er & _).
    eapply returned_undefined; [done|by rewrite Ew|by apply Hn|]. intros i2 Er2 _ _. apply call_handler_undefined. congruence.
  - eapply bind_undefined; [by eapply on_object_spec|]. intros _ i1 (Hi1 & Ew & _ & _ & Er & Es & Hlc).
    destruct r; try done. apply iterate_loop_undefined; [congruence|]. by rewrite Es, Hlc.
Qed.

(** ** The other steps *)
Lemma ref_nonneg awaited i : Inv awaited i → 0 ≤ ref_count i.
Proof.
  intros Hi. rewrite (I_ref _ _ Hi). pose proof (I_queued _ _ Hi). pose proof (Zb2z_nonneg (owner i)). lia.
Qed.
Lemma referenced awaited i : Inv awaited i → 0 < ref_count i → it_freed i = false.
Proof. intros Hi ?. rewrite (I_freed _ _ Hi). apply bool_decide_eq_false_2. lia. Qed.

(** [spawn_worker] with a slot and a reference. *)
Definition spawned_from i : iter :=
  set_next_worker (S (next_worker i)) (set_workers (<[next_worker i := WSpawned]> (workers i))
    (set_active_coroutines (u32 (active_coroutines i + 1)) (set_ref_count (ref_count i + 1) i))).

(** What a microtask leaves: the handler spawned a worker or not. *)
Record Executed (awaited : bool) i i' : Prop := {
  X_inv : Inv awaited i';
  X_queued : queued i' = queued i - 1;
  X_target : it_target i' = it_target i;
  X_handled : handled i' = handled i;
  X_cancelled : is_cancelled i' = is_cancelled i;
  X_state : it_state i' = it_state i;
  X_owner : owner i' = owner i;
  X_notified : notified i' = notified i;
  X_exception : workers i' ≠ ∅ → it_exception i' = it_exception i;
  X_workers : workers i' = workers i ∨
    workers i' = <[next_worker i := WSpawned]> (workers i) ∧ workers i ≠ ∅ ∧ is_cancelled i = false ∧
    it_state i ≠ ASYNC_ITERATOR_FINISHED ∧ workers i !! next_worker i = None
}.

Lemma spawned_from_inv awaited i : Inv awaited i → workers i ≠ ∅ → Z.of_nat (size (workers i)) < 2 ^ 32 - 1 →
  (0 < concurrency i → active_coroutines i < concurrency i) →
  workers i !! next_worker i = None ∧ Inv awaited (spawned_from i).
Proof.
  intros Hi Hne Hb Hc. assert (workers i !! next_worker i = None) as Hn.
  { apply eq_None_not_Some. intros ?%(I_next _ _ Hi). lia. }
  pose proof (ref_nonneg _ _ Hi). pose proof (Zb2z_nonneg (owner i)).
  split; [done|]. destruct Hi. unfold spawned_from.
  constructor; cbn -[Z.of_nat u32 size]; rewrite ?map_size_insert_None by done; rewrite ?u32_small by lia; try lia; try done.
  - intros w q [[<- <-]|[? Hq]]%lookup_insert_Some; [done|]. by eapply I_phase0.
  - intros w [<-|[? Hw%I_next0]]%lookup_insert_is_Some; lia.
  - intros _. by apply I_busy0.
  - by intros ?%insert_non_empty.
  - rewrite I_freed0. apply bool_decide_ext. rewrite I_ref0.
    assert (size (workers i) ≠ 0)%nat by (by intros ?%map_size_empty_inv). lia.
Qed.

(** The reference of a queue entry is dropped. *)
Lemma consume_spec awaited i : Inv awaited i → 0 < queued i →
  wp (modify (λ i, if 0 <? ref_count i then set_ref_count (ref_count i - 1) i else i);;
      i ← get; when (ref_count i <=? 0) iterator_dtor)
     (λ _ i', Executed awaited i i' ∧ workers i' = workers i) (set_queued (queued i - 1) i).
Proof.
  intros Hi Hq. pose proof (ref_nonneg _ _ Hi) as Hr. pose proof (Zb2z_nonneg (owner i)) as Hz.
  pose proof (I_ref _ _ Hi) as Href. pose proof (referenced _ _ Hi ltac:(lia)) as Hf.
  rewrite wp_bind, wp_modify. cbn. rewrite (proj2 (Z.ltb_lt 0 (ref_count i))) by lia.
  rewrite wp_bind, wp_get, wp_when. cbn. destruct (Z.leb_spec (ref_count i - 1) 0) as [H1|H1].
  - assert (workers i = ∅) as Hw by (apply map_size_empty_inv; lia).
    assert (owner i = false) as Ho by (destruct (owner i); cbn in *; [lia|done]).
    destruct (I_idle _ _ Hi Hw) as (Hst & Hev & Hlen).
    unfold iterator_dtor. rewrite wp_bind, wp_alive by done. cbn.
    rewrite (proj2 (Z.ltb_ge 1 (ref_count i - 1))) by lia. unfold complete_event. wp_simpl. cbn. rewrite Hev. wp_simpl.
    split; [|done]. constructor; cbn; try done; [|by left].
    rewrite Hw in *. destruct Hi. constructor; cbn; rewrite ?Hw, ?Ho in *; try done; lia.
  - cbn. split; [|done]. constructor; cbn; try done; [|by left]. destruct Hi. constructor; cbn; try done; try lia.
    rewrite Hf. symmetry. apply bool_decide_eq_false_2. lia.
Qed.

Lemma iterator_microtask_spec i spawned : it_freed i = false →
  wp (iterator_microtask spawned) (λ _ i', i' = i ∨ i' = spawned_from i ∧
    it_state i ≠ ASYNC_ITERATOR_FINISHED ∧ (0 < concurrency i → active_coroutines i < concurrency i)) i.
Proof.
  intros Hf. unfold iterator_microtask. rewrite wp_bind, wp_alive by done.
  destruct (bool_decide _ || _) eqn:Hb; [by left|]. destruct spawned; [|by left]. cbn.
  apply orb_false_iff in Hb as [Hs%bool_decide_eq_false Hc].
  unfold spawn_worker. wp_simpl. right. split_and!; [done..|]. intros H0.
  rewrite (proj2 (Z.ltb_lt _ _) H0) in Hc. apply Z.leb_gt in Hc. lia.
Qed.

Lemma execute_microtask_spec awaited i spawned : Inv awaited i → 0 < queued i →
  Z.of_nat (size (workers i)) < 2 ^ 32 - 1 →
  wp (execute_microtask spawned) (λ _, Executed awaited i) i.
Proof.
  intros Hi Hq Hb. pose proof (Zb2z_nonneg (owner i)) as Hz. pose proof (I_ref _ _ Hi) as Href.
  pose proof (referenced _ _ Hi ltac:(lia)) as Hf.
  unfold execute_microtask. rewrite wp_bind, wp_alive by done. rewrite wp_bind, wp_modify, wp_bind, wp_when. cbn.
  pose proof (consume_spec awaited i Hi Hq) as Hc.
  destruct (is_cancelled i) eqn:Hca; cbn.
  { eapply wp_mono; [exact Hc|]. by intros ? i' []. }
  eapply wp_mono; [by apply iterator_microtask_spec|]. intros _ i1 [->|(-> & Hst & Hlim)].
  { eapply wp_mono; [exact Hc|]. by intros ? i' []. }
  assert (workers i ≠ ∅) as Hne by (intros He; by apply (I_idle _ _ Hi) in He as [??]).
  destruct (spawned_from_inv awaited i Hi Hne Hb Hlim) as [Hn Hi1].
  change (spawned_from (set_queued (queued i - 1) i)) with (set_queued (queued (spawned_from i) - 1) (spawned_from i)).
  eapply wp_mono; [by apply consume_spec|]. intros _ i' [[] Hw]. constructor; try done.
  right. by rewrite Hw.
Qed.

Lemma iterator_dispose_spec awaited i w p rethrow : Inv awaited i → workers i !! w = Some p →
  wp (coroutine_extended_dispose w rethrow)
     (λ _, Left awaited w (if rethrow then [] else it_exception i) i) i.
Proof.
  intros Hi Hw. unfold coroutine_extended_dispose. rewrite wp_bind, wp_alive by (by eapply Inv_alive).
  rewrite wp_bind, wp_when. destruct rethrow; [rewrite wp_modify|by eapply iterator_release_spec].
  eapply wp_mono; [eapply (iterator_release_spec awaited _ w p); [|done];
    by apply (Inv_quiet awaited i); [|eapply busy|..]|].
  intros _ i' []. by constructor.
Qed.

Lemma iterate_end_spec awaited i : Inv awaited i → owner i = true → workers i = ∅ →
  wp iterate_end (λ _ i', Inv awaited i' ∧ workers i' = ∅ ∧ it_target i' = it_target i ∧ handled i' = handled i ∧
    queued i' = queued i ∧ owner i' = false ∧ it_state i' = it_state i ∧ notified i' = notified i) i.
Proof.
  intros Hi Ho Hw. pose proof (I_ref _ _ Hi) as Href. pose proof (I_queued _ _ Hi) as Hq. rewrite Ho in Href.
  destruct (I_idle _ _ Hi Hw) as (Hst & Hev & Hlen). cbn in Href.
  pose proof (referenced _ _ Hi ltac:(lia)) as Hf.
  unfold iterate_end, iterator_dtor. rewrite wp_bind, wp_alive by done. wp_simpl. rewrite wp_alive by done. cbn.
  rewrite Hw, map_size_empty in Href. cbn in Href.
  destruct (Z.ltb_spec 1 (ref_count i)) as [H1|H1]; unfold complete_event; wp_simpl; cbn; rewrite ?Hev; wp_simpl.
  all: split; [|done].
  all: destruct Hi; constructor; cbn; rewrite ?Hw in *; rewrite ?map_size_empty in *; try done; try lia.
  rewrite Hf. symmetry. apply bool_decide_eq_false_2. lia.
Qed.

(** The caller gives up its wait. *)
Lemma interrupt_spec awaited i : Inv awaited i → owner i = true → workers i ≠ ∅ →
  wp iterate_end (λ _ i', Inv awaited i' ∧ i' = set_ref_count (ref_count i - 1)
    (set_it_exception [] (set_owner false (set_released true i)))) i.
Proof.
  intros Hi Ho Hw. pose proof (I_ref _ _ Hi) as Href. pose proof (I_queued _ _ Hi) as Hq. rewrite Ho in Href. cbn in Href.
  assert (1 ≤ Z.of_nat (size (workers i))) as Hs.
  { assert (size (workers i) ≠ 0)%nat; [by intros ?%map_size_empty_inv|lia]. }
  pose proof (referenced _ _ Hi ltac:(lia)) as Hf.
  unfold iterate_end, iterator_dtor. rewrite wp_bind, wp_alive by done. wp_simpl. rewrite wp_alive by done. cbn.
  rewrite (proj2 (Z.ltb_lt 1 (ref_count i))) by lia. wp_simpl. split; [|done].
  destruct Hi. constructor; cbn; try done; try lia. rewrite Hf. symmetry. apply bool_decide_eq_false_2. lia.
Qed.

(** ** Runs *)
Lemma launch_inv awaited t :
  wp (launch awaited) (λ _ i, Inv awaited i ∧ workers i = {[0%nat := WSpawned]} ∧ it_target i = t ∧ handled i = [] ∧
    queued i = 0 ∧ it_state i = ASYNC_ITERATOR_INIT ∧ is_cancelled i = false ∧ it_exception i = [] ∧
    notified i = [] ∧ owner i = awaited ∧ released i = false ∧ concurrency i = u32 limit) (async_iterator_new t limit).
Proof.
  unfold launch, async_iterator_run_in_coroutine, async_iterator_new, spawn_worker.
  rewrite wp_bind, wp_bind, wp_alive by done. wp_simpl. cbn -[u32].
  assert (Z.of_nat (size (<[0%nat:=WSpawned]> ∅ : gmap nat (worker (E := E)))) = 1) as Hs by done.
  pose proof (Z.mod_pos_bound limit (2 ^ 32) ltac:(lia)) as Hu. fold (u32 limit) in Hu.
  destruct awaited; wp_simpl; cbn -[u32].
  all: split; [|done].
  all: constructor; cbn -[u32 size]; rewrite ?Hs; try done; try lia.
  all: try (intros w p [[<- <-]|[? ?]]%lookup_insert_Some; [done|by rewrite lookup_empty in *]).
  all: try (intros w [<-|[? [? ?]]]%lookup_insert_is_Some; [cbn; lia|by rewrite lookup_empty in *]).
  all: change (u32 (0 + 1)) with 1; lia.
Qed.

(** The exceptions that workers threw and the iterator keeps, the last one first:
    cancellations are left out, and a coroutine that is disposed of and rethrows, or a
    caller that gives up its wait, takes what there is. *)
Fixpoint thrown_chain (tr : list iter_step) : list X :=
  match tr with
  | [] => []
  | SResume _ (HThrow e) _ :: tr => async_apply_exception is_cancellation (Some e) (thrown_chain tr)
  | SDispose _ true :: _ | SInterrupt :: _ => []
  | _ :: tr => thrown_chain tr
  end.

Definition Traced (awaited : bool) (tr : list iter_step) i : Prop :=
  Inv awaited i ∧ (workers i ≠ ∅ → it_exception i = thrown_chain tr) ∧
  (workers i = ∅ → notified i = if awaited then [thrown_chain tr] else []).

Lemma step_undefined awaited s i : Inv awaited i → calls_released s i = true → run_step s i = None.
Proof.
  intros Hi. destruct s as [|w r effect| | |]; try done. cbn. intros [Hr Hc]%andb_true_iff.
  destruct (workers i !! w) as [p|] eqn:Hw; [|done]. by eapply resume_undefined.
Qed.
Lemma step_spec awaited tr s i : Traced awaited tr i → enabled s i = true → calls_released s i = false →
  wp (run_step s) (λ _, Traced awaited (s :: tr)) i.
Proof.
  intros (Hi & Hx & Hn) He Hcr. destruct s as [spawned|w r effect|w rethrow| |]; cbn in He |- *.
  - apply andb_true_iff in He as [Hq%Z.ltb_lt Hb%Z.ltb_lt].
    eapply wp_mono; [by apply execute_microtask_spec|]. intros _ i' []. split_and!; [done|..].
    + intros Hne. rewrite X_exception0 by done. apply Hx. destruct X_workers0 as [<-|(_ & ? & _)]; done.
    + intros Hw. rewrite X_notified0. apply Hn. destruct X_workers0 as [<-|(Hw' & _)]; [done|].
      rewrite Hw' in Hw. by apply insert_non_empty in Hw.
  - destruct (workers i !! w) as [p|] eqn:Hw; [|done].
    pose proof (Hx (busy _ _ _ Hw)) as Hc.
    assert (match r with HThrow e => async_apply_exception is_cancellation (Some e) (thrown_chain tr)
      | _ => thrown_chain tr end = async_apply_exception is_cancellation (thrown_at p r) (it_exception i)) as Hch.
    { rewrite Hc. destruct p, r; done. }
    eapply wp_mono; [eapply iterator_resume_spec; [done..|]|].
    { intros Hr. cbn in Hcr. by rewrite Hr, Hw in Hcr. }
    intros _ i' (Hi' & Hb & Hd). unfold Traced.
    rewrite <- Hch in Hb, Hd. by destruct r.
  - destruct (workers i !! w) as [p|] eqn:Hw; [|done].
    pose proof (Hx (busy _ _ _ Hw)) as Hc.
    eapply wp_mono; [by eapply iterator_dispose_spec|]. intros _ i' []. unfold Traced. rewrite L_workers0.
    destruct rethrow; [done|]. by rewrite Hc in *.
  - apply andb_true_iff in He as [Ho Hw%bool_decide_eq_true].
    eapply wp_mono; [by apply iterate_end_spec|]. intros _ i' (Hi' & Hw' & _ & _ & _ & _ & _ & Hn').
    split_and!; [done|by rewrite Hw'|]. intros _. rewrite Hn'. by apply Hn.
  - apply andb_true_iff in He as [Ho Hw%bool_decide_eq_true].
    eapply wp_mono; [by apply interrupt_spec|]. intros _ i' [Hi' ->]. by split_and!.
Qed.

Lemma run_step_calls awaited s i x : Inv awaited i → run_step s i = Some x → calls_released s i = false.
Proof.
  intros Hi Hs. destruct (calls_released s i) eqn:Hc; [|done]. by rewrite (step_undefined awaited) in Hs.
Qed.

Lemma run_traced awaited t tr i : iter_run awaited t tr i → Traced awaited tr i.
Proof.
  induction 1 as [i Hl|tr s i i' Hr IH He Hs].
  - pose proof (launch_inv awaited t) as H. unfold wp in H. rewrite Hl in H.
    destruct H as (Hi & Hw & _ & _ & _ & _ & _ & Hx & _). split_and!; [done..|by rewrite Hx|].
    intros He. by rewrite Hw in He.
  - pose proof (step_spec _ _ _ _ IH He (run_step_calls _ _ _ _ (proj1 IH) Hs)) as H. unfold wp in H. by rewrite Hs in H.
Qed.

(** ** Arrays

    The elements are given out in order, each one once; the state is never MOVING. *)
Record ArrInv (array : list E) i : Prop := {
  A_target : it_target i = TArray array (length (handled i));
  A_handled : handled i = take (length (handled i)) array;
  A_state : it_state i = ASYNC_ITERATOR_INIT ∨ it_state i = ASYNC_ITERATOR_FINISHED;
  A_cancelled : workers i ≠ ∅ → (is_cancelled i = true ↔ it_state i = ASYNC_ITERATOR_FINISHED);
  A_phase : ∀ w p, workers i !! w = Some p → object_phase p = false
}.

Definition finished i : bool := bool_decide (it_state i = ASYNC_ITERATOR_FINISHED).

(** The measure: a worker 1, a queued microtask 2, an element left 3. *)
Definition mu (array : list E) i : Z :=
  Z.of_nat (size (workers i)) + 2 * queued i + 3 * (Z.of_nat (length array) - Z.of_nat (length (handled i))) +
  (if finished i then 0 else 2) + Z.b2z (owner i).

(** A finished iteration has given out every element. *)
Definition Exhausted (array : list E) i : Prop :=
  it_state i = ASYNC_ITERATOR_FINISHED → length (handled i) = length array.

Lemma A_length array i : ArrInv array i → (length (handled i) ≤ length array)%nat.
Proof. intros Ha. rewrite (A_handled _ _ Ha), length_take. lia. Qed.

Lemma Left_array awaited array w p chain i i' : ArrInv array i → workers i !! w = Some p →
  Left awaited w chain i i' → ArrInv array i' ∧ mu array i' ≤ mu array i - 1 ∧
  (it_state i = ASYNC_ITERATOR_FINISHED → Exhausted array i → Exhausted array i').
Proof.
  intros [] Hw []. pose proof (busy _ _ _ Hw) as Hne. pose proof (busy_size _ _ _ Hw) as Hs.
  assert (Z.of_nat (size (workers i')) = Z.of_nat (size (workers i)) - 1) as Hsz.
  { rewrite L_workers0, map_size_delete_Some by eauto. lia. }
  assert (it_state i' = it_state i ∨ it_state i' = ASYNC_ITERATOR_FINISHED) as Hst.
  { rewrite L_state0. case_decide; auto. }
  split_and!.
  - constructor; rewrite ?L_target0, ?L_handled0; try done.
    + destruct Hst as [->| ->]; auto.
    + rewrite L_workers0. intros Hd. rewrite L_cancelled0, L_state0, decide_False by done. auto.
    + rewrite L_workers0. intros w' q [_ ?]%lookup_delete_Some. eauto.
  - unfold mu, finished. rewrite Hsz, L_queued0, L_handled0, L_owner0.
    destruct Hst as [->| ->]; [lia|]. rewrite (bool_decide_eq_true_2 (_ = _)) by done. case_bool_decide; lia.
  - intros Hf He _. rewrite L_handled0. auto.
Qed.

(** What a step of a worker of an array does; [n]: the decrease of the measure. *)
Definition ArrStepped (array : list E) (n : Z) i i' : Prop :=
  ArrInv array i' ∧ mu array i' ≤ mu array i - n ∧ (Exhausted array i → Exhausted array i').

Lemma finish_leave_array awaited array i w p e : Inv awaited i → ArrInv array i → workers i !! w = Some p →
  wp (finish_iteration;; leave w e) (λ _ i', ArrInv array i' ∧
    mu array i' ≤ mu array i - (if finished i then 1 else 3) ∧
    (length (handled i) = length array → Exhausted array i')) i.
Proof.
  intros Hi Ha Hw. unfold finish_iteration. rewrite !wp_bind, !wp_modify. set (i1 := set_is_cancelled _ _).
  assert (Inv awaited i1) as Hi1 by (by apply (Inv_quiet awaited i); [|eapply busy|..]).
  assert (ArrInv array i1) as Ha1 by (destruct Ha; by constructor; cbn; auto).
  eapply wp_mono; [by apply (leave_spec awaited i1 w p)|].
  intros ? i' Hl. destruct (Left_array _ _ _ _ _ _ _ Ha1 Hw Hl) as (Ha' & Hmu & Hex).
  split_and!; [done| |intros Hl2; apply Hex; [done|by intros _]].
  assert (mu array i1 = mu array i - (if finished i then 0 else 2)) as Hm; [|destruct (finished i); lia].
  unfold mu, finished. cbn. repeat case_bool_decide; try done; lia.
Qed.

Lemma iterate_loop_array awaited array i w p : Inv awaited i → ArrInv array i → workers i !! w = Some p →
  (released i = true → loop_calls (it_state i) (it_target i) = false) →
  wp (iterate_loop w) (λ _, ArrStepped array (if finished i then 1 else 3) i) i.
Proof.
  intros Hi Ha Hw Hr. unfold Iterator.iterate_loop. rewrite wp_bind, wp_alive by (by eapply Inv_alive).
  pose proof (A_length _ _ Ha) as Hlen. unfold finished.
  destruct (A_state _ _ Ha) as [Hs|Hs]; rewrite Hs; cbn.
  - rewrite (A_target _ _ Ha). destruct (array !! length (handled i)) as [current|] eqn:Hc.
    + pose proof (lookup_lt_Some _ _ _ Hc) as Hlt.
      rewrite wp_bind, wp_modify. unfold call_handler. set (i1 := set_it_target _ i).
      assert (Inv awaited i1) as Hi1.
      { apply (Inv_quiet awaited i); try done; [by eapply busy|]. by rewrite (A_target _ _ Ha). }
      assert (released i = false) as Hrel.
      { apply (released_call _ _ Hr). rewrite Hs, (A_target _ _ Ha). cbn. by rewrite Hc. }
      rewrite wp_bind, (wp_callable i1 w p awaited) by done. unfold park. wp_simpl. cbn.
      pose proof (A_handled _ _ Ha) as Hh.
      assert (handled i ++ [current] = take (S (length (handled i))) array) as Hh'.
      { rewrite (take_S_r _ _ _ Hc), <- Hh. done. }
      split_and!.
      * constructor; cbn; rewrite ?length_app, ?Nat.add_1_r; try done; [by left| |].
        -- intros _. apply (A_cancelled _ _ Ha), (busy _ _ _ Hw).
        -- intros w' q [[<- <-]|[? Hq]]%lookup_insert_Some; [done|by eapply A_phase].
      * unfold mu, finished. cbn. rewrite length_app, map_size_insert_Some by eauto. cbn.
        repeat case_bool_decide; try congruence; lia.
      * intros _. unfold Exhausted. cbn. by rewrite Hs.
    + eapply wp_mono; [by eapply finish_leave_array|]. intros _ i' (? & Hmu & Hex). unfold finished in Hmu.
      rewrite Hs in Hmu. split_and!; [done..|]. intros _. apply Hex. apply lookup_ge_None in Hc. lia.
  - eapply wp_mono; [by eapply leave_spec|]. intros ? i' Hl.
    destruct (Left_array _ _ _ _ _ _ _ Ha Hw Hl) as (? & ? & ?). split_and!; auto.
Qed.

Lemma start_array awaited array i w : Inv awaited i → ArrInv array i → workers i !! w = Some WSpawned →
  (released i = true → worker_calls WSpawned HSuccess i = false) →
  wp (start is_cancellation w) (λ _, ArrStepped array 1 i) i.
Proof.
  intros Hi Ha Hw Hr. unfold start. pose proof (busy _ _ _ Hw) as Hne.
  wp_apply add_microtask_spec; [done..|]. intros _ i1 [He Hi1].
  pose proof (A_cancelled _ _ Ha Hne) as Hc.
  assert (it_state i1 = it_state i ∧ it_target i1 = it_target i ∧ workers i1 = workers i ∧ handled i1 = handled i ∧
    owner i1 = owner i ∧ is_cancelled i1 = is_cancelled i ∧ released i1 = released i ∧
    queued i1 = queued i + (if finished i then 0 else 1)) as (Es & Et & Ew & Eh & Eo & Ec & Er & Eq).
  { unfold finished. subst i1. destruct (is_cancelled i) eqn:Hca; cbn.
    - rewrite bool_decide_eq_true_2 by tauto. split_and!; try done; lia.
    - rewrite bool_decide_eq_false_2 by (by rewrite <- Hc). done. }
  assert (ArrInv array i1) as Ha1 by (destruct Ha; by constructor; rewrite ?Es, ?Et, ?Ew, ?Eh, ?Ec).
  rewrite wp_bind, wp_alive by (by eapply Inv_alive; [|rewrite Ew]).
  assert (wp (iterate_loop w) (λ _, ArrStepped array 1 i) i1) as Hloop.
  { eapply wp_mono; [eapply (iterate_loop_array awaited); [done..|by rewrite Ew|]|].
    { rewrite Er, Es, Et. intros Hrel%Hr. cbn in Hrel. by rewrite (A_target _ _ Ha) in Hrel |- *. }
    intros _ i' (? & Hmu & Hex).
    split_and!; [done| |].
    - unfold mu at 2 in Hmu. unfold finished in *. rewrite Eq, Ew, Eh, Eo, Es in Hmu. unfold mu, finished in *.
      destruct (bool_decide (it_state i = _)); lia.
    - intros Hx. apply Hex. unfold Exhausted. by rewrite Es, Eh. }
  rewrite (A_target _ _ Ha1). destruct (A_state _ _ Ha1) as [-> | ->]; exact Hloop.
Qed.

Lemma resume_array awaited array i w p r effect : Inv awaited i → ArrInv array i → workers i !! w = Some p →
  (released i = true → worker_calls p r i = false) →
  wp (resume zend_iterator is_cancellation w r effect) (λ _ i', ArrInv array i' ∧ mu array i' ≤ mu array i - 1 ∧
    (r = HSuccess → Exhausted array i → Exhausted array i')) i.
Proof.
  intros Hi Ha Hw Hr. pose proof (A_phase _ _ Ha _ _ Hw) as Hp.
  unfold resume. rewrite wp_bind, wp_alive by (by eapply Inv_alive).
  rewrite wp_bind. unfold of_option, wp at 1. rewrite Hw. cbn.
  destruct p as [| | | | | |current]; try done.
  - eapply wp_mono; [eapply start_array; [done..|]; by destruct r|]. intros _ i' (? & ? & ?). auto.
  - unfold on_object. wp_simpl. rewrite (A_target _ _ Ha). wp_simpl. destruct r.
    + eapply wp_mono; [by eapply iterate_loop_array|]. intros _ i' (? & Hmu & ?).
      split_and!; [done|destruct (finished i); lia|auto].
    + unfold finish_iteration. wp_simpl. set (i1 := set_is_cancelled _ _).
      assert (Inv awaited i1) as Hi1 by (by apply (Inv_quiet awaited i); [|eapply busy|..]).
      assert (ArrInv array i1) as Ha1 by (destruct Ha; by constructor; cbn; auto).
      eapply wp_mono; [by eapply iterate_loop_array|]. intros _ i' (? & Hmu & ?).
      split_and!; [done| |done].
      assert (mu array i1 = mu array i - (if finished i then 0 else 2)) as Hm; [|destruct (finished i), (finished i1); lia].
      unfold mu, finished. cbn. repeat case_bool_decide; try done; lia.
    + eapply wp_mono; [by eapply finish_leave_array|]. intros _ i' (? & Hmu & ?).
      split_and!; [done|destruct (finished i); lia|done].
    + eapply wp_mono; [by eapply finish_leave_array|]. intros _ i' (? & Hmu & ?).
      split_and!; [done|destruct (finished i); lia|done].
Qed.

(** Nobody stops the iteration: no handler fails or answers false, and no worker is
    cancelled. *)
Definition calm (s : iter_step) : bool :=
  match s with SResume _ HSuccess _ | SMicrotask _ | SEnd | SInterrupt => true | _ => false end.

Lemma step_array awaited array s i : Inv awaited i → ArrInv array i → enabled s i = true → calls_released s i = false →
  wp (run_step s) (λ _ i', ArrInv array i' ∧ mu array i' ≤ mu array i - 1 ∧
    (calm s = true → Exhausted array i → Exhausted array i')) i.
Proof.
  intros Hi Ha He Hcr. destruct s as [spawned|w r effect|w rethrow| |]; cbn in He |- *.
  - apply andb_true_iff in He as [Hq%Z.ltb_lt Hb%Z.ltb_lt].
    eapply wp_mono; [by apply execute_microtask_spec|]. intros _ i' []. destruct Ha.
    assert (Z.of_nat (size (workers i')) ≤ Z.of_nat (size (workers i)) + 1) as Hs.
    { destruct X_workers0 as [->|(-> & _ & _ & _ & Hn)]; [|rewrite map_size_insert_None by done]; lia. }
    split_and!.
    + constructor; rewrite ?X_target0, ?X_handled0, ?X_state0, ?X_cancelled0; try done.
      * intros Hne. destruct X_workers0 as [Hw|(_ & ? & _)]; [rewrite Hw in Hne|]; auto.
      * intros w p. destruct X_workers0 as [->|(-> & _)]; [apply A_phase0|].
        intros [[<- <-]|[_ ?]]%lookup_insert_Some; [done|eauto].
    + unfold mu, finished. rewrite X_queued0, X_handled0, X_state0, X_owner0. lia.
    + intros _. unfold Exhausted. by rewrite X_state0, X_handled0.
  - destruct (workers i !! w) as [p|] eqn:Hw; [|done].
    eapply wp_mono; [eapply resume_array; [done..|]|].
    { intros Hr. cbn in Hcr. by rewrite Hr, Hw in Hcr. }
    intros _ i' (? & ? & Hex). split_and!; [done..|].
    intros Hr. apply Hex. by destruct r.
  - destruct (workers i !! w) as [p|] eqn:Hw; [|done].
    eapply wp_mono; [by eapply iterator_dispose_spec|]. intros ? i' Hl.
    destruct (Left_array _ _ _ _ _ _ _ Ha Hw Hl) as (? & ? & ?). done.
  - apply andb_true_iff in He as [Ho Hw%bool_decide_eq_true].
    eapply wp_mono; [by apply iterate_end_spec|]. intros _ i' (Hi' & Ew & Et & Eh & Eq & Eo & Es & En).
    split_and!.
    + destruct Ha. constructor; rewrite ?Et, ?Eh, ?Es, ?Ew; try done.
    + unfold mu, finished. rewrite Ew, Eq, Eh, Es, Eo, Hw, Ho. cbn. lia.
    + intros _. unfold Exhausted. by rewrite Es, Eh.
  - apply andb_true_iff in He as [Ho Hw%bool_decide_eq_true].
    eapply wp_mono; [by apply (interrupt_spec awaited)|]. intros _ i' [Hi' ->]. split_and!.
    + destruct Ha. by constructor.
    + unfold mu, finished. cbn. rewrite Ho. cbn. lia.
    + done.
Qed.

Definition array_start (array : list E) : target (I := I) (E := E) := TArray array 0.

Lemma run_array awaited array tr i : iter_run awaited (array_start array) tr i →
  ArrInv array i ∧ Z.of_nat (length tr) + mu array i ≤ 3 * Z.of_nat (length array) + 4 ∧
  (Forall (λ s, calm s = true) tr → Exhausted array i).
Proof.
  induction 1 as [i Hl|tr s i i' Hr (Ha & Hmu & Hex) He Hs].
  - pose proof (launch_inv awaited (array_start array)) as H. unfold wp in H. rewrite Hl in H.
    destruct H as (_ & Hw & Ht & Hh & Hq & Hst & Hc & _ & _ & Ho & _). split_and!.
    + constructor; rewrite ?Hh, ?Hst, ?Hc; try done; [by left|]. rewrite Hw.
      by intros w p [<- <-]%lookup_singleton_Some.
    + unfold mu, finished. rewrite Hw, Hq, Hh, Hst, Ho, map_size_singleton. cbn. case_bool_decide; [done|]. destruct awaited; cbn; lia.
    + intros _. unfold Exhausted. by rewrite Hst.
  - destruct (run_traced _ _ _ _ Hr) as [Hi _].
    pose proof (step_array _ _ _ _ Hi Ha He (run_step_calls _ _ _ _ Hi Hs)) as H. unfold wp in H. rewrite Hs in H.
    destruct H as (Ha' & Hmu' & Hex'). split_and!; [done|cbn [length]; lia|].
    intros Hcs. inversion_clear Hcs. auto.
Qed.

Lemma mu_nonneg awaited array i : Inv awaited i → ArrInv array i → 0 ≤ mu array i.
Proof.
  intros Hi Ha%A_length. unfold mu. pose proof (I_queued _ _ Hi). pose proof (Zb2z_nonneg (owner i)).
  destruct (finished i); lia.
Qed.
End steps.
