(* ===== verification/IteratorTheorems.v ===== *)
(** * Theorems on concurrent iteration

    Every run of an iterator is free of undefined behaviour and notifies the caller
    once; an array is iterated completely, in order and in a bounded number of steps,
    whatever the interleaving of its workers; a worker on an iterator object follows
    the sequential traversal.  Then behaviours that the code gets wrong. *)

From S2P Require Import Prelude Iterator IteratorProofs.
From stdpp Require Import tactics.

Local Open Scope Z_scope.

(** A sequence of steps, each of them enabled. *)
Fixpoint play {I E X} (zi : zend_object_iterator I E) (c : X → bool) (tr : list (@iter_step I X))
  (i : @async_iterator_t I E X) : option (@async_iterator_t I E X) :=
  match tr with
  | [] => Some i
  | s :: tr =>
    if enabled s i then '(_, i') ← run_step zi c s i; play zi c tr i' else None
  end.

Section iteration.
Context {I E X : Type} (zi : zend_object_iterator I E) (is_cancellation : X → bool).
Abbreviation iter := (@async_iterator_t I E X).
Abbreviation run := (iter_run zi is_cancellation).

(** What a sequence of steps makes of a new iterator. *)
Definition scenario limit awaited t tr : option iter :=
  '(_, i) ← launch awaited (async_iterator_new t limit); play zi is_cancellation tr i.

Lemma play_app tr1 tr2 (i : iter) :
  play zi is_cancellation (tr1 ++ tr2) i = (i' ← play zi is_cancellation tr1 i; play zi is_cancellation tr2 i').
Proof.
  revert i. induction tr1 as [|s tr1 IH]; intros i; [done|]. cbn. destruct (enabled s i); [|done].
  by destruct (run_step zi is_cancellation s i) as [[[] i1]|]; cbn.
Qed.
Lemma play_run limit awaited t tr0 tr i0 i :
  run limit awaited t tr0 i0 → play zi is_cancellation tr i0 = Some i → run limit awaited t (rev tr ++ tr0) i.
Proof.
  revert tr0 i0. induction tr as [|s tr IH]; intros tr0 i0 Hr Hp; cbn in Hp; [by simplify_eq|].
  destruct (enabled s i0) eqn:He; [|done]. destruct (run_step zi is_cancellation s i0) as [[[] i1]|] eqn:Hs; [|done].
  cbn [rev]. rewrite <- app_assoc. apply (IH (s :: tr0) i1); [|done]. by eapply run_more.
Qed.
Lemma scenario_run limit awaited t tr i : scenario limit awaited t tr = Some i → run limit awaited t (rev tr) i.
Proof.
  unfold scenario. destruct (launch awaited _) as [[[] i0]|] eqn:Hl; [|done]. cbn. intros Hp.
  rewrite <- (app_nil_r (rev tr)). eapply play_run; [|done]. by apply run_launch.
Qed.

(** C30 From every reachable state a step that the system can take runs to its end, unless it
    calls through a pointer that was released, which happens exactly when the caller has
    given up its wait (or ended on a cancelled scope) and a worker that it left behind
    goes on to the next call.  So a freed iterator is never used, also not by workers
    that outlive the caller, and a phase of an object iteration never meets an array. *)
Theorem iteration_safe limit awaited t tr (i : iter) s :
  run limit awaited t tr i → enabled s i = true →
  ((∃ i', run_step zi is_cancellation s i = Some (tt, i')) ↔ calls_released zi s i = false).
Proof.
  intros Hr He. pose proof (run_traced _ _ _ _ _ _ _ Hr) as Ht. split.
  - intros [i' Hs]. by apply (run_step_calls zi is_cancellation limit awaited s i (tt, i') (proj1 Ht)).
  - intros Hc. pose proof (step_spec zi is_cancellation limit _ _ _ _ Ht He Hc) as H.
    apply wp_run in H as ([] & i' & Hs & _). eauto.
Qed.

(** C29 While a worker is left the completion event has not fired, and at most [concurrency]
    workers hold a slot; when the last one is gone the iteration is finished and the
    event has fired once, with the exceptions that the workers threw, each one the
    previous of the next ([thrown_chain]: without cancellations, and without what the
    caller took when it gave up its wait or a disposed coroutine rethrew).  The iterator
    is freed exactly when no worker, no queued microtask and no caller is left. *)
Theorem iteration_completes_once limit t tr (i : iter) : run limit true t tr i →
  active_coroutines i = Z.of_nat (size (workers i)) ∧
  (0 < u32 limit → active_coroutines i ≤ u32 limit) ∧
  (it_freed i = true ↔ workers i = ∅ ∧ queued i = 0 ∧ owner i = false) ∧
  if bool_decide (workers i = ∅)
  then it_state i = ASYNC_ITERATOR_FINISHED ∧ completion_event i = false ∧ notified i = [thrown_chain is_cancellation tr]
  else completion_event i = true ∧ notified i = [] ∧ it_exception i = thrown_chain is_cancellation tr.
Proof.
  intros (Hi & Hx & Hn)%run_traced. destruct Hi. split_and!; [done|by rewrite <- I_concurrency| |].
  - rewrite I_freed, bool_decide_eq_true, I_ref. rewrite <- map_size_empty_iff.
    pose proof (Zb2z_nonneg (owner i)). destruct (owner i); cbn in *; split; try lia; intros; split_and!; try done; lia.
  - clear I_freed. case_bool_decide as He; [destruct (I_idle He) as (? & ? & _)|destruct (I_busy He)]; auto.
Qed.

(** C21 However the workers of an array iteration interleave, the handler gets the elements
    in order and each one at most once; a run takes at most 3 steps for each element
    and 4 more.  When nothing more can happen the iterator has been freed, and if
    nobody stopped the iteration the handler got all the elements. *)
Theorem array_iteration_total limit awaited array tr (i : iter) : run limit awaited (TArray array 0) tr i →
  handled i = take (length (handled i)) array ∧ (length tr ≤ 3 * length array + 4)%nat ∧
  ((∀ s, enabled s i = false) →
    it_freed i = true ∧ (Forall (λ s, calm s = true) tr → handled i = array)).
Proof.
  intros Hr. destruct (run_array _ _ _ _ _ _ _ Hr) as (Ha & Hmu & Hex).
  destruct (run_traced _ _ _ _ _ _ _ Hr) as [Hi _]. pose proof (mu_nonneg _ _ _ _ Hi Ha).
  split_and!; [apply (A_handled _ _ Ha)|lia|]. intros Hstuck.
  assert (workers i = ∅) as Hw.
  { destruct (map_choose_or_empty (workers i)) as [(w & p & Hp)|]; [|done].
    specialize (Hstuck (SResume w HSuccess id)). cbn in Hstuck. rewrite Hp in Hstuck. by destruct p. }
  pose proof (Hstuck (SMicrotask true)) as Hm. pose proof (Hstuck SEnd) as He. cbn in Hm, He.
  rewrite Hw, map_size_empty, andb_true_r in Hm. rewrite Hw, bool_decide_eq_true_2, andb_true_r in He by done.
  apply Z.ltb_ge in Hm. destruct Hi. split.
  - rewrite I_freed. apply bool_decide_eq_true. rewrite I_ref, Hw, He, map_size_empty. cbn. lia.
  - intros Hc. destruct (I_idle Hw) as [Hf _]. rewrite (A_handled _ _ Ha), (Hex Hc Hf). by rewrite firstn_all.
Qed.

(** ** Iterator objects *)

(** The traversal of an iterator object by one loop. *)
Fixpoint traversal (fuel : nat) (it : I) : option (list E) :=
  match fuel with
  | O => None
  | S fuel =>
    let '(valid, it) := fn_valid zi it in
    if valid then
      match fn_get_current_data zi it with
      | None => Some []
      | Some e => (e ::.) <$> traversal fuel (fn_move_forward zi it)
      end
    else Some []
  end.

(** The worker at [w] goes on, and the function it called answers. *)
Definition next (w : nat) : @iter_step I X := SResume w HSuccess (λ it, it).

Definition live (i : iter) : Prop := it_freed i = false ∧ released i = false.
Lemma wp_called i (Φ : unit → iter → Prop) : live i → wp callable Φ i ↔ Φ tt i.
Proof. intros [Hf Hr]. unfold callable. rewrite wp_bind, wp_alive by done. rewrite wp_assert, Hr. naive_solver. Qed.

(** The state of the iterator in a safe block that worker [w] opens at phase [p]. *)
Definition moving (w : nat) (p : worker) (i : iter) : iter :=
  set_workers (<[w := p]> (workers i)) (set_is_cancelled true (set_it_state ASYNC_ITERATOR_MOVING i)).
Definition moved (i : iter) : iter := set_is_cancelled false (set_it_state ASYNC_ITERATOR_STARTED i).

Lemma moving_wp i w K : live i → wp (callable;; prev ← ITERATOR_SAFE_MOVING_START; park w (K prev))
  (λ _ i', i' = moving w (K (ref_count i)) i) i.
Proof.
  intros Hl. rewrite wp_bind, wp_called by done. unfold ITERATOR_SAFE_MOVING_START, park.
  rewrite wp_bind, wp_bind, wp_alive by apply Hl. wp_simpl. done.
Qed.
Lemma moved_wp i (Φ : unit → iter → Prop) : live i → wp (ITERATOR_SAFE_MOVING_END (ref_count i)) Φ i ↔ Φ tt (moved i).
Proof.
  intros Hl. unfold ITERATOR_SAFE_MOVING_END. wp_simpl. rewrite wp_alive by apply Hl. cbn. by rewrite Z.eqb_refl.
Qed.

Lemma valid_wp w i it it' : live i → workers i !! w = Some WValid → it_target i = TObject it →
  fn_valid zi it = (true, it') →
  wp (resume zi is_cancellation w HSuccess (λ it, it))
     (λ _ i', i' = moving w (WCurrent (ref_count i)) (set_it_target (TObject it') i)) i.
Proof.
  intros Hl Hw Ht Hv. unfold resume. rewrite wp_bind, wp_alive by apply Hl. rewrite wp_bind.
  unfold of_option, wp at 1. rewrite Hw. cbn. rewrite Ht, Hv, wp_bind, wp_modify. cbn. by apply (moving_wp (set_it_target (TObject it') i) w WCurrent).
Qed.
Lemma current_wp w i it current : live i → workers i !! w = Some (WCurrent (ref_count i)) → it_target i = TObject it →
  fn_get_current_data zi it = Some current →
  wp (resume zi is_cancellation w HSuccess (λ it, it))
     (λ _ i', i' = moving w (WKey current (ref_count i)) (moved i)) i.
Proof.
  intros Hl Hw Ht Hc. unfold resume. rewrite wp_bind, wp_alive by apply Hl. rewrite wp_bind.
  unfold of_option, wp at 1. rewrite Hw. cbn. rewrite wp_bind, moved_wp by done. rewrite Ht, Hc. cbn.
  by apply (moving_wp (moved i) w (WKey current)).
Qed.
Lemma key_wp w i current : live i → workers i !! w = Some (WKey current (ref_count i)) →
  wp (resume zi is_cancellation w HSuccess (λ it, it))
     (λ _ i', i' = moving w (WForward current (ref_count i)) (moved i)) i.
Proof.
  intros Hl Hw. unfold resume. rewrite wp_bind, wp_alive by apply Hl. rewrite wp_bind.
  unfold of_option, wp at 1. rewrite Hw. cbn. rewrite wp_bind, moved_wp by done. cbn.
  by apply (moving_wp (moved i) w (WForward current)).
Qed.
Lemma forward_wp w i it current : live i → workers i !! w = Some (WForward current (ref_count i)) →
  it_target i = TObject it →
  wp (resume zi is_cancellation w HSuccess (λ it, it))
     (λ _ i', i' = set_workers (<[w := WHandler current]> (workers i))
       (set_handled (handled i ++ [current]) (moved (set_it_target (TObject (fn_move_forward zi it)) i)))) i.
Proof.
  intros Hl Hw Ht. unfold resume. rewrite wp_bind, wp_alive by apply Hl. rewrite wp_bind.
  unfold of_option, wp at 1. rewrite Hw. cbn. unfold on_object. wp_simpl. rewrite Ht. wp_simpl.
  rewrite (moved_wp (set_it_target _ i)) by done. cbn. unfold call_handler.
  rewrite wp_bind, wp_called by done. unfold park. wp_simpl. done.
Qed.
Lemma handler_wp w i it current : live i → workers i !! w = Some (WHandler current) →
  it_target i = TObject it → it_state i = ASYNC_ITERATOR_STARTED →
  wp (resume zi is_cancellation w HSuccess (λ it, it)) (λ _ i', i' = set_workers (<[w := WValid]> (workers i)) i) i.
Proof.
  intros Hl Hw Ht Hs. unfold resume. rewrite wp_bind, wp_alive by apply Hl. rewrite wp_bind.
  unfold of_option, wp at 1. rewrite Hw. cbn. unfold on_object. wp_simpl. rewrite Ht. wp_simpl.
  unfold iterate_loop. rewrite wp_bind, wp_alive by apply Hl. cbn. rewrite Hs.
  rewrite wp_bind, wp_called by done. unfold park. wp_simpl. cbn. by rewrite <- Ht; destruct i.
Qed.

(** A microtask is queued for the next worker. *)
Definition queued_once (i : iter) : iter := set_ref_count (ref_count i + 1) (set_queued (queued i + 1) i).
Lemma start_wp w i it : live i → workers i !! w = Some WSpawned → it_target i = TObject it →
  it_state i = ASYNC_ITERATOR_INIT → is_cancelled i = false →
  wp (resume zi is_cancellation w HSuccess (λ it, it))
     (λ _ i', i' = moving w (WRewind (ref_count i + 1)) (set_it_state ASYNC_ITERATOR_STARTED (queued_once i))) i.
Proof.
  intros Hl Hw Ht Hs Hc. unfold resume. rewrite wp_bind, wp_alive by apply Hl. rewrite wp_bind.
  unfold of_option, wp at 1. rewrite Hw. cbn. unfold start, add_microtask. wp_simpl.
  rewrite wp_alive by apply Hl. rewrite Hc. cbn. wp_simpl. rewrite wp_alive by apply Hl. cbn. rewrite Ht, Hs.
  rewrite wp_bind, wp_modify.
  by apply (moving_wp (set_it_state ASYNC_ITERATOR_STARTED (queued_once i)) w WRewind).
Qed.
Lemma rewind_wp w i it : live i → workers i !! w = Some (WRewind (ref_count i)) → it_target i = TObject it →
  wp (resume zi is_cancellation w HSuccess (λ it, it))
     (λ _ i', i' = set_workers (<[w := WValid]> (workers i)) (moved (set_it_target (TObject (fn_rewind zi it)) i))) i.
Proof.
  intros Hl Hw Ht. unfold resume. rewrite wp_bind, wp_alive by apply Hl. rewrite wp_bind.
  unfold of_option, wp at 1. rewrite Hw. cbn. unfold on_object. wp_simpl. rewrite Ht. wp_simpl.
  rewrite (moved_wp (set_it_target _ i)) by done. cbn. unfold iterate_loop.
  rewrite wp_bind, wp_alive by apply Hl. cbn. rewrite wp_bind, wp_called by done. unfold park. wp_simpl. done.
Qed.

Lemma play_next w p i i' tr : workers i !! w = Some p →
  wp (resume zi is_cancellation w HSuccess (λ it, it)) (λ _ i1, i1 = i') i →
  play zi is_cancellation (next w :: tr) i = play zi is_cancellation tr i'.
Proof.
  intros Hw (b & i1 & Hr & ->)%wp_run. cbn. rewrite Hw. destruct p; cbn; by rewrite Hr.
Qed.

(** A worker that is about to call [valid] while no other one is in a safe block. *)
Definition looping (w : nat) (it : I) (i : iter) : Prop :=
  live i ∧ workers i !! w = Some WValid ∧ it_state i = ASYNC_ITERATOR_STARTED ∧ it_target i = TObject it.

(** One turn of the loop, from the call of [valid] to the next one. *)
Lemma object_turn w it it' current i : looping w it i → fn_valid zi it = (true, it') →
  fn_get_current_data zi it' = Some current →
  ∃ i', (∀ tr, play zi is_cancellation (replicate 5 (next w) ++ tr) i = play zi is_cancellation tr i') ∧
    looping w (fn_move_forward zi it') i' ∧ delete w (workers i') = delete w (workers i) ∧
    handled i' = handled i ++ [current].
Proof.
  intros (Hl & Hw & Hs & Ht) Hv Hc. eexists. split.
  - intros tr. cbn [replicate app].
    erewrite play_next; [|done|by eapply valid_wp].
    erewrite play_next; [|by apply lookup_insert_eq|eapply current_wp; [done|by apply lookup_insert_eq|done..]].
    erewrite play_next; [|by apply lookup_insert_eq|eapply key_wp; [done|by apply lookup_insert_eq]].
    erewrite play_next; [|by apply lookup_insert_eq|eapply forward_wp; [done|by apply lookup_insert_eq|done]].
    erewrite play_next; [reflexivity|by apply lookup_insert_eq|
      eapply handler_wp; [done|by apply lookup_insert_eq|done..]].
  - unfold looping. cbn. by rewrite !insert_insert_eq, lookup_insert_eq, delete_insert_eq.
Qed.

(** Where the traversal stops: [valid] answers false, or there is no element. *)
Definition at_end (it : I) : Prop :=
  let '(valid, it') := fn_valid zi it in valid = true → fn_get_current_data zi it' = None.

Lemma object_loop fuel w it i es : looping w it i → traversal fuel it = Some es →
  ∃ n i' it', play zi is_cancellation (replicate n (next w)) i = Some i' ∧ looping w it' i' ∧ at_end it' ∧
    delete w (workers i') = delete w (workers i) ∧ handled i' = handled i ++ es.
Proof.
  revert it i es. induction fuel as [|fuel IH]; intros it i es Hloop; [done|]. cbn.
  destruct (fn_valid zi it) as [valid it'] eqn:Hv.
  assert (at_end it → ∃ n i' it'', play zi is_cancellation (replicate n (next w)) i = Some i' ∧ looping w it'' i' ∧
    at_end it'' ∧ delete w (workers i') = delete w (workers i) ∧ handled i' = handled i ++ []) as Hend.
  { intros He. exists 0%nat, i, it. by rewrite app_nil_r. }
  destruct valid; [|intros [= <-]; apply Hend; unfold at_end; by rewrite Hv].
  destruct (fn_get_current_data zi it') as [current|] eqn:Hc; [|intros [= <-]; apply Hend; unfold at_end; by rewrite Hv].
  intros (es' & Htr & ->)%fmap_Some.
  destruct (object_turn w it it' current i Hloop Hv Hc) as (i1 & Hp1 & Hl1 & Hd1 & Hh1).
  destruct (IH _ _ _ Hl1 Htr) as (n & i' & it2 & Hp & Hl' & He & Hd & Hh).
  exists (5 + n)%nat, i', it2. rewrite replicate_add, Hp1, Hd, Hh, Hh1, <- app_assoc. done.
Qed.

(** The last steps: the worker leaves. *)
Lemma object_end limit awaited w it i : Inv limit awaited i → looping w it i → at_end it →
  ∃ n i', play zi is_cancellation (replicate n (next w)) i = Some i' ∧
    workers i' = delete w (workers i) ∧ handled i' = handled i.
Proof.
  intros Hi (Hl & Hw & Hs & Ht) He. unfold at_end in He.
  assert (∀ (i1 : iter) p, Inv limit awaited i1 → workers i1 !! w = Some p →
    wp (finish_iteration;; leave is_cancellation w None)
       (λ _ (i' : iter), workers i' = delete w (workers i1) ∧ handled i' = handled i1) i1) as Hleave.
  { intros i1 p Hi1 Hw1. unfold finish_iteration. wp_simpl. eapply wp_mono.
    - apply (leave_spec is_cancellation limit awaited _ w p); [|done]. by apply (Inv_quiet limit awaited i1); [|eapply busy|..].
    - intros ? i' []. done. }
  destruct (fn_valid zi it) as [[] it'] eqn:Hv.
  - specialize (He eq_refl). set (i1 := set_it_target (TObject it') i).
    assert (Inv limit awaited i1) as Hi1 by (by apply (Inv_quiet limit awaited i); [|eapply busy|..]; rewrite ?Ht).
    set (i2 := moving w (WCurrent (ref_count i)) i1).
    assert (Inv limit awaited i2) as Hi2.
    { apply (Inv_park limit awaited (set_is_cancelled true (set_it_state ASYNC_ITERATOR_MOVING i1)) w WValid); try done.
      by apply (Inv_quiet limit awaited i1); [|eapply busy|..]. }
    assert (wp (resume zi is_cancellation w HSuccess (λ it, it))
      (λ _ i', workers i' = delete w (workers i2) ∧ handled i' = handled i2) i2) as H.
    { unfold resume. rewrite wp_bind, wp_alive by apply Hl. rewrite wp_bind. unfold of_option, wp at 1.
      cbn. rewrite lookup_insert_eq. cbn. rewrite wp_bind.
      assert (∀ Φ, wp (ITERATOR_SAFE_MOVING_END (ref_count i)) Φ i2 ↔ Φ tt (moved i2)) as ->.
      { intros Φ. by apply (moved_wp i2). }
      cbn. rewrite He.
      apply (Hleave (moved i2) (WCurrent (ref_count i))); [|apply lookup_insert_eq].
      apply (Inv_quiet limit awaited i2); try done. by apply insert_non_empty. }
    apply wp_run in H as (u & i' & Hr & Hw' & Hh'). exists 2%nat, i'. cbn [replicate].
    erewrite (play_next w WValid i i2); [|done|by apply (valid_wp w i it it')].
    erewrite (play_next w (WCurrent (ref_count i)) i2 i'); [|apply lookup_insert_eq|].
    + split; [done|]. rewrite Hw', Hh'. cbn. by rewrite delete_insert_eq.
    + apply wp_run. eauto.
  - assert (wp (resume zi is_cancellation w HSuccess (λ it, it))
      (λ _ i', workers i' = delete w (workers i) ∧ handled i' = handled i) i) as H.
    { unfold resume. rewrite wp_bind, wp_alive by apply Hl. rewrite wp_bind. unfold of_option, wp at 1.
      rewrite Hw. cbn. rewrite Ht, Hv, wp_bind, wp_modify. cbn.
      apply (Hleave (set_it_target (TObject it') i) WValid); [|done].
      by apply (Inv_quiet limit awaited i); [|eapply busy|..]; rewrite ?Ht. }
    apply wp_run in H as (u & i' & Hr & Hw' & Hh'). exists 1%nat, i'. cbn [replicate].
    erewrite (play_next w WValid i i'); [done|done|]. apply wp_run. eauto.
Qed.

(** A worker that nobody interrupts gives the handler of an iterator object exactly the
    elements of the sequential traversal, then it leaves and the iteration is
    finished: the safe blocks do not disturb each other. *)
Theorem object_iteration_traverses limit awaited it fuel es : traversal fuel (fn_rewind zi it) = Some es →
  ∃ n i, scenario limit awaited (TObject it) (replicate n (next 0)) = Some i ∧
    handled i = es ∧ workers i = ∅ ∧ it_state i = ASYNC_ITERATOR_FINISHED.
Proof.
  intros Htr. set (t := TObject it : target (I := I) (E := E)).
  destruct (launch awaited (async_iterator_new t limit : iter)) as [[[] i0]|] eqn:Hl0; [|by destruct awaited].
  pose proof (run_launch zi is_cancellation limit awaited t _ Hl0) as Hr0.
  assert (∃ i1, (∀ tr, play zi is_cancellation (next 0 :: next 0 :: tr) i0 = play zi is_cancellation tr i1) ∧
    looping 0 (fn_rewind zi it) i1 ∧ workers i1 = {[0%nat := WValid]} ∧ handled i1 = []) as (i1 & Hp1 & Hloop & Hw1 & Hh1).
  { pose proof (launch_inv (X := X) limit awaited t) as H. unfold wp in H. rewrite Hl0 in H.
    destruct H as (Hi0 & Hw0 & Ht0 & Hh0 & _ & Hs0 & Hc0 & _ & _ & _ & Hrel0 & _).
    assert (workers i0 !! 0%nat = Some WSpawned) as Hw by (by rewrite Hw0).
    assert (live i0) as Hlive.
    { split; [by eapply Inv_alive|done]. }
    eexists. split.
    - intros tr. erewrite play_next; [|done|by eapply start_wp].
      erewrite play_next; [reflexivity|by apply lookup_insert_eq|eapply rewind_wp; [done|by apply lookup_insert_eq|done]].
    - unfold looping. cbn. rewrite insert_insert_eq, Hw0, insert_singleton_eq. done. }
  destruct (object_loop _ _ _ _ _ Hloop Htr) as (n & i2 & it2 & Hp2 & Hloop2 & Hend & Hd2 & Hh2).
  assert (run limit awaited t (rev (next 0 :: next 0 :: replicate n (next 0)) ++ []) i2) as Hr2.
  { eapply play_run; [done|]. by rewrite Hp1. }
  destruct (run_traced _ _ _ _ _ _ _ Hr2) as [Hi2 _].
  destruct (object_end _ _ _ _ _ Hi2 Hloop2 Hend) as (m & i3 & Hp3 & Hw3 & Hh3).
  assert (run limit awaited t (rev (replicate m (next 0)) ++ rev (next 0 :: next 0 :: replicate n (next 0)) ++ []) i3)
    as Hr3 by (by eapply play_run).
  destruct (run_traced _ _ _ _ _ _ _ Hr3) as [Hi3 _].
  assert (workers i3 = ∅) as Hw by (by rewrite Hw3, Hd2, Hw1, delete_singleton_eq).
  exists (2 + (n + m))%nat, i3. unfold scenario. rewrite Hl0. cbn [mbind option_bind].
  rewrite !replicate_add. cbn [replicate app]. rewrite Hp1, play_app, Hp2. cbn [mbind option_bind].
  split_and!; [done|by rewrite Hh3, Hh2, Hh1|done|]. by apply (I_idle _ _ _ Hi3).
Qed.
End iteration.

(** ** Concrete iterations *)

(** An iterator object over a list, with the position. *)
Definition list_iterator : zend_object_iterator (list nat * nat) nat := {|
  fn_rewind '(l, _) := (l, O);
  fn_valid '(l, n) := (bool_decide (n < length l)%nat, (l, n));
  fn_get_current_data '(l, n) := l !! n;
  fn_move_forward '(l, n) := (l, S n)
|}.
Definition cancelled_by (e : nat) : bool := Nat.eqb e 0.
Abbreviation sample := (scenario list_iterator cancelled_by).
Abbreviation step := (@iter_step (list nat * nat) nat).
Definition over (w : nat) (r : handler_result) : step := SResume w r (λ it, it).
Definition on (w : nat) : step := over w HSuccess.
Definition three : target (I := list nat * nat) (E := nat) := TArray [10; 20; 30]%nat 0.

(** Two workers take turns; the second one throws. *)
Definition two_workers : list step := [on 0; SMicrotask true; on 1; on 0; over 1 (HThrow 7%nat)].

Lemma iteration_safe_witness : ∃ i i', sample 2 true three two_workers = Some i ∧
  run_step list_iterator cancelled_by (on 0) i = Some (tt, i').
Proof.
  eexists. edestruct (iteration_safe list_iterator cancelled_by 2 true three (rev two_workers)) as [_ H].
  - apply scenario_run. vm_compute. reflexivity.
  - instantiate (1 := on 0). vm_compute. reflexivity.
  - destruct H as [i' Hi']; [vm_compute; reflexivity|]. exists i'. split; [vm_compute; reflexivity|exact Hi'].
Defined.

Lemma iteration_completes_once_witness : ∃ i, sample 2 true three (two_workers ++ [on 0]) = Some i ∧
  notified i = [[7%nat]] ∧
  active_coroutines i = Z.of_nat (size (workers i)).
Proof.
  eexists. split; [vm_compute; reflexivity|]. split; [vm_compute; reflexivity|].
  eapply (iteration_completes_once list_iterator cancelled_by 2 three (rev (two_workers ++ [on 0]))).
  apply scenario_run. vm_compute. reflexivity.
Defined.

Definition whole_array : list step :=
  [on 0; SMicrotask true; on 1; on 1; on 0; SMicrotask true; on 1; SEnd].
Lemma array_iteration_total_witness : ∃ i, sample 2 true three whole_array = Some i ∧
  it_freed i = true ∧ handled i = [10; 20; 30]%nat.
Proof.
  eexists. split; [vm_compute; reflexivity|].
  edestruct (array_iteration_total list_iterator cancelled_by 2 true [10; 20; 30]%nat (rev whole_array)) as (_ & _ & H).
  - apply scenario_run. vm_compute. reflexivity.
  - destruct H as [Hf Hh].
    + intros [?|w r ?|w ?| |]; try reflexivity; cbn; by rewrite lookup_empty.
    + split; [exact Hf|]. apply Hh. unfold whole_array. cbn. by repeat constructor.
Defined.

Lemma object_iteration_traverses_witness :
  ∃ n i, sample 0 true (TObject ([10; 20; 30]%nat, 5%nat)) (replicate n (next 0)) = Some i ∧
  handled i = [10; 20; 30]%nat ∧ workers i = ∅ ∧ it_state i = ASYNC_ITERATOR_FINISHED.
Proof.
  apply (object_iteration_traverses list_iterator cancelled_by 0 true _ 4). vm_compute. reflexivity.
Defined.

(** ** Behaviours of the code *)

Definition object_three : target (I := list nat * nat) (E := nat) := TObject ([10; 20; 30]%nat, O).
(** Worker 0 brings the first element to the handler; worker 1 is spawned meanwhile. *)
Definition first_element : list step := [on 0; on 0; on 0; on 0; on 0; on 0; SMicrotask true; on 1].

(** The answer [false] of a handler, which ends the iteration, is lost while another
    worker is in a function of the iterator object: the end of that worker's safe
    block sets the state back, and the remaining elements are handled. *)
Theorem stop_request_lost :
  let stopped := first_element ++ [on 1; over 0 HFalse] in
  ((λ i, (it_state i, handled i)) <$> sample 2 true object_three stopped)
    = Some (ASYNC_ITERATOR_FINISHED, [10]%nat) ∧
  (handled <$> sample 2 true object_three (stopped ++ replicate 8 (on 1))) = Some [10; 20; 30]%nat.
Proof. vm_compute. split; reflexivity. Qed.

(** [valid] is called outside of the safe blocks.  When it suspends, a second worker
    enters the traversal: both get the same element, and the next one is skipped. *)
Theorem suspended_valid_duplicates_element :
  ((λ i, (it_state i, handled i, size (workers i))) <$> sample 2 true object_three
      (first_element ++ [on 0; on 1; on 0; on 1; on 0; on 1; on 0; on 1; on 0; on 1; on 0; on 0; on 1]))
    = Some (ASYNC_ITERATOR_FINISHED, [10; 20; 20]%nat, 0%nat).
Proof. vm_compute. reflexivity. Qed.

(** A cancellation of the caller ends its waits while a worker is still in a handler: the
    callback is released, and when that handler returns the worker goes on to the next
    element and calls through a NULL pointer.  If the handler fails instead, the worker
    leaves and frees the iterator. *)
Theorem interrupted_caller_releases_callback :
  (λ i, (workers i !! 0%nat, run_step list_iterator cancelled_by (on 0) i,
     (λ r, it_freed r.2) <$> run_step list_iterator cancelled_by (over 0 HFailure) i)) <$>
    sample 0 true three [on 0; SMicrotask false; SInterrupt] = Some (Some (WHandler 10%nat), None, Some true).
Proof. vm_compute. reflexivity. Qed.
