(* ===== verification/Future.v ===== *)
(** * Futures and their chains: [src/future.c], [src/future.h]

    A future is an event that is resolved once, with a value or an exception.  [map],
    [catch] and [finally] attach child futures to a Future object; when the future is
    resolved, a coroutine walks the queue of objects whose children are due, calls the
    mapper of each child and resolves the child, which may put the child's own object
    into the queue.

    The walk is an iterator of [src/iterator.c] without a limit on its workers, whose
    functions do not suspend; a turn of its loop is one step here ([turn]), cut in two
    where the mapper, which is PHP code, is called.

    Futures, objects and walks stay in their tables for good: the reference counts that
    free them are not modelled, only those of the values that mappers return.  The
    engine never refuses a coroutine here. *)

From S2P Require Import Prelude.

Local Open Scope nat_scope.

Inductive async_future_mapper_type_t :=
  ASYNC_FUTURE_MAPPER_SUCCESS | ASYNC_FUTURE_MAPPER_CATCH | ASYNC_FUTURE_MAPPER_FINALLY.

(** The core event.  [result]: UNDEF is [None]. *)
Record zend_future_t (V X : Type) := mk_future {
  completed : bool;               (* the event is closed *)
  result : option V;
  exception : option X;
  callbacks : list nat;           (* the coroutines that await it *)
  resolve_callbacks : list nat;   (* the Future objects that subscribed *)
  exception_handled : bool;
  exception_caught : bool;
  used : bool;
  ignored : bool
}.
Arguments mk_future {V X}.
Arguments completed {V X}.
Arguments result {V X}.
Arguments exception {V X}.
Arguments callbacks {V X}.
Arguments resolve_callbacks {V X}.
Arguments exception_handled {V X}.
Arguments exception_caught {V X}.
Arguments used {V X}.
Arguments ignored {V X}.

(** The object Future.  [child_futures]: NULL is [None]. *)
Record async_future_t := mk_future_obj {
  event : nat;
  child_futures : option (list nat);
  mapper : nat;
  mapper_type : async_future_mapper_type_t
}.

(** The iterator over the queue and the iterator of [src/iterator.c] that runs it.
    [queue_pos]: [None] until the first element is taken. *)
Record future_iterator_t := mk_future_iterator {
  future_queue : list nat;
  queue_pos : option nat;
  current_parent : option nat;
  child_pos : nat;
  started : bool;                 (* not ASYNC_ITERATOR_INIT *)
  finished : bool;                (* ASYNC_ITERATOR_FINISHED *)
  queued : nat                    (* its entries of the microtask queue *)
}.

(** A coroutine of this file: a worker of an iterator before a turn of its loop, the
    single mapper of a future that was completed already, or a mapper that was called
    for child [c] of event [parent]; [fallback]: [fallback_exception]. *)
Inductive job (X : Type) :=
| JStart (it : nat)
| JLoop (it : nat)
| JSingle (parent c : nat)
| JMapping (it : option nat) (parent c : nat) (fallback : option X).
Arguments JStart {X}.
Arguments JLoop {X}.
Arguments JSingle {X}.
Arguments JMapping {X}.

(** What a mapper does: it returns a value or throws. *)
Inductive called (V X : Type) := Returned (v : V) | Thrown (e : X).
Arguments Returned {V X}.
Arguments Thrown {V X}.

(** The argument of a mapper; UNDEF is passed as NULL. *)
Inductive argument (V X : Type) := AValue (v : option V) | AException (e : X).
Arguments AValue {V X}.
Arguments AException {V X}.

(** What others see: coroutines that are woken, mappers that are called, exceptions
    that leave a coroutine of this file and cancel its scope, and the references to
    values that [retval] of [process_future_mapper] takes and drops. *)
Inductive effect (V X : Type) :=
| EWake (coroutine e : nat)
| ECall (mapper : nat) (arg : argument V X)
| EAcquire (v : V)
| ERelease (v : V)
| EEscaped (e : X).
Arguments EWake {V X}.
Arguments ECall {V X}.
Arguments EAcquire {V X}.
Arguments ERelease {V X}.
Arguments EEscaped {V X}.

Record futures_t (V X : Type) := mk_futures {
  events : gmap nat (zend_future_t V X);
  objects : gmap nat async_future_t;
  iterators : gmap nat future_iterator_t;
  jobs : gmap nat (job X);
  next : nat;                     (* a name never used before *)
  effects : list (effect V X)
}.
Arguments mk_futures {V X}.
Arguments events {V X}.
Arguments objects {V X}.
Arguments iterators {V X}.
Arguments jobs {V X}.
Arguments next {V X}.
Arguments effects {V X}.

Section record_updates.
Context {V X : Type}.
#[export] Instance zend_future_eta : Eta (zend_future_t V X) := λ f,
  mk_future (completed f) (result f) (exception f) (callbacks f) (resolve_callbacks f) (exception_handled f)
    (exception_caught f) (used f) (ignored f).
Definition set_completed x (f : zend_future_t V X) := ltac:(record_set f (@completed V X) x).
Definition set_result x (f : zend_future_t V X) := ltac:(record_set f (@result V X) x).
Definition set_exception x (f : zend_future_t V X) := ltac:(record_set f (@exception V X) x).
Definition set_callbacks x (f : zend_future_t V X) := ltac:(record_set f (@callbacks V X) x).
Definition set_resolve_callbacks x (f : zend_future_t V X) := ltac:(record_set f (@resolve_callbacks V X) x).
Definition set_exception_handled x (f : zend_future_t V X) := ltac:(record_set f (@exception_handled V X) x).
Definition set_exception_caught x (f : zend_future_t V X) := ltac:(record_set f (@exception_caught V X) x).
Definition set_used x (f : zend_future_t V X) := ltac:(record_set f (@used V X) x).
Definition set_ignored x (f : zend_future_t V X) := ltac:(record_set f (@ignored V X) x).
#[export] Instance futures_eta : Eta (futures_t V X) := λ s,
  mk_futures (events s) (objects s) (iterators s) (jobs s) (next s) (effects s).
Definition set_events x (s : futures_t V X) := ltac:(record_set s (@events V X) x).
Definition set_objects x (s : futures_t V X) := ltac:(record_set s (@objects V X) x).
Definition set_iterators x (s : futures_t V X) := ltac:(record_set s (@iterators V X) x).
Definition set_jobs x (s : futures_t V X) := ltac:(record_set s (@jobs V X) x).
Definition set_next x (s : futures_t V X) := ltac:(record_set s (@next V X) x).
Definition set_effects x (s : futures_t V X) := ltac:(record_set s (@effects V X) x).
End record_updates.
#[export] Instance async_future_eta : Eta async_future_t := λ o,
  mk_future_obj (event o) (child_futures o) (mapper o) (mapper_type o).
Definition set_child_futures x (o : async_future_t) := ltac:(record_set o child_futures x).
#[export] Instance future_iterator_eta : Eta future_iterator_t := λ i,
  mk_future_iterator (future_queue i) (queue_pos i) (current_parent i) (child_pos i) (started i) (finished i) (queued i).
Definition set_future_queue x (i : future_iterator_t) := ltac:(record_set i future_queue x).
Definition set_queue_pos x (i : future_iterator_t) := ltac:(record_set i queue_pos x).
Definition set_current_parent x (i : future_iterator_t) := ltac:(record_set i current_parent x).
Definition set_child_pos x (i : future_iterator_t) := ltac:(record_set i child_pos x).
Definition set_started x (i : future_iterator_t) := ltac:(record_set i started x).
Definition set_finished x (i : future_iterator_t) := ltac:(record_set i finished x).
Definition set_queued x (i : future_iterator_t) := ltac:(record_set i queued x).

(** What the engine does that this file relies on: what the macros
    [ZEND_FUTURE_COMPLETE] and [ZEND_FUTURE_REJECT] store before they resolve the
    future, whether one of the awaiting coroutines takes the exception, and which values
    carry a reference count ([Z_REFCOUNTED]). *)
Class FutureMacros (V X : Type) := {
  store_result : V → zend_future_t V X → zend_future_t V X;
  store_exception : X → zend_future_t V X → zend_future_t V X;
  awaiter_handles : list nat → bool;
  refcounted : V → bool
}.

Section futures.
Context {V X : Type} `{FutureMacros V X} (php_null : V) (zend_exception_set_previous : X → X → X).
Abbreviation FM := (M (futures_t V X)).

Definition get_event (e : nat) : FM (zend_future_t V X) := s ← get; of_option (events s !! e).
Definition upd_event (e : nat) (f : zend_future_t V X → zend_future_t V X) : FM unit :=
  modify (λ s, set_events (alter f e (events s)) s).
Definition get_object (o : nat) : FM async_future_t := s ← get; of_option (objects s !! o).
Definition get_iterator (it : nat) : FM future_iterator_t := s ← get; of_option (iterators s !! it).
Definition upd_iterator (it : nat) (f : future_iterator_t → future_iterator_t) : FM unit :=
  modify (λ s, set_iterators (alter f it (iterators s)) s).
Definition set_job (j : nat) (b : job X) : FM unit := modify (λ s, set_jobs (<[j := b]> (jobs s)) s).
Definition emit (x : effect V X) : FM unit := modify (λ s, set_effects (effects s ++ [x]) s).
Definition fresh : FM nat := s ← get; modify (set_next (S (next s)));; mret (next s).
Definition spawn (b : job X) : FM unit := j ← fresh; set_job j b.

Definition has_children (o : async_future_t) : bool :=
  match child_futures o with Some (_ :: _) => true | _ => false end.

(** ** Resolution *)

Definition future_iterator_create (first : nat) : FM nat :=
  it ← fresh;
  modify (λ s, set_iterators (<[it := mk_future_iterator [first] None None 0 false false 0]> (iterators s)) s);;
  mret it.

(** [iterator]: the walk that resolves the event, or NULL. *)
Definition async_future_callback_handler (e : nat) (future_obj : nat) (iterator : option nat) : FM unit :=
  o ← get_object future_obj;
  if negb (has_children o) then mret tt
  else
    match iterator with
    | Some existing =>
      upd_iterator existing (λ i, set_future_queue (future_queue i ++ [future_obj]) i);;
      upd_event e (set_exception_handled true)
    | None => it ← future_iterator_create future_obj; spawn (JStart it)
    end.

Fixpoint vector_notify (e : nat) (subscribers : list nat) (iterator : option nat) : FM unit :=
  match subscribers with
  | [] => mret tt
  | o :: subscribers => async_future_callback_handler e o iterator;; vector_notify e subscribers iterator
  end.

(** The awaiting coroutines are woken with the result or the exception. *)
Fixpoint wake_all (e : nat) (coroutines : list nat) : FM unit :=
  match coroutines with
  | [] => mret tt
  | c :: coroutines => emit (EWake c e);; wake_all e coroutines
  end.
Definition callbacks_notify (e : nat) : FM unit :=
  f ← get_event e;
  wake_all e (callbacks f);;
  when (bool_decide (is_Some (exception f)) && awaiter_handles (callbacks f)) (upd_event e (set_exception_handled true)).

Definition zend_future_resolve (e : nat) (iterator : option nat) : FM unit :=
  f ← get_event e;
  if completed f then mret tt
  else
    upd_event e (set_completed true);;
    callbacks_notify e;;
    vector_notify e (resolve_callbacks f) iterator;;
    upd_event e (set_resolve_callbacks []);;
    f ← get_event e;
    when (exception_handled f) (upd_event e (set_exception_caught true)).

Definition ZEND_FUTURE_COMPLETE_WITH_ITERATOR (e : nat) (v : V) (iterator : option nat) : FM unit :=
  upd_event e (store_result v);; zend_future_resolve e iterator.
Definition ZEND_FUTURE_REJECT_WITH_ITERATOR (e : nat) (x : X) (iterator : option nat) : FM unit :=
  upd_event e (store_exception x);; zend_future_resolve e iterator.

(** ** FutureState and Future *)

(** [complete] and [error] of a FutureState with a local event: false when it throws. *)
Definition FutureState_complete (e : nat) (v : V) : FM bool :=
  f ← get_event e;
  if completed f then mret false else ZEND_FUTURE_COMPLETE_WITH_ITERATOR e v None;; mret true.
Definition FutureState_error (e : nat) (x : X) : FM bool :=
  f ← get_event e;
  if completed f then mret false else ZEND_FUTURE_REJECT_WITH_ITERATOR e x None;; mret true.
Definition Future_cancel (o : nat) (cancellation : X) : FM unit :=
  ob ← get_object o;
  f ← get_event (event ob);
  if completed f then mret tt else ZEND_FUTURE_REJECT_WITH_ITERATOR (event ob) cancellation None.

Definition new_future : zend_future_t V X := mk_future false None None [] [] false false false false.
(** A new event, with or without the object of class Future. *)
Definition async_new_future : FM nat :=
  e ← fresh; modify (λ s, set_events (<[e := new_future]> (events s)) s);; mret e.
Definition async_new_future_obj (e m : nat) (ty : async_future_mapper_type_t) : FM nat :=
  o ← fresh; modify (λ s, set_objects (<[o := mk_future_obj e None m ty]> (objects s)) s);; mret o.

(** [await]: the outcome of a future that is completed, or the coroutine waits. *)
Definition Future_await (o coroutine : nat) : FM (option (option V * option X)) :=
  ob ← get_object o;
  upd_event (event ob) (set_used true);;
  f ← get_event (event ob);
  if completed f then
    when (bool_decide (is_Some (exception f))) (upd_event (event ob) (set_exception_caught true));;
    mret (Some (result f, exception f))
  else
    upd_event (event ob) (set_callbacks (callbacks f ++ [coroutine]));;
    mret None.

(** [map], [catch] and [finally]: the child is returned. *)
Definition async_future_create_mapper (source m : nat) (ty : async_future_mapper_type_t) : FM nat :=
  src ← get_object source;
  e ← async_new_future;
  target ← async_new_future_obj e m ty;
  upd_event (event src) (set_used true);;
  f ← get_event (event src);
  if completed f then spawn (JSingle (event src) target);; mret target
  else
    when (bool_decide (child_futures src = None))
      (modify (λ s, set_objects (<[source := set_child_futures (Some []) src]> (objects s)) s);;
       upd_event (event src) (set_resolve_callbacks (resolve_callbacks f ++ [source])));;
    modify (λ s, set_objects (alter (λ o, set_child_futures (Some (default [] (child_futures o) ++ [target])) o)
                               source (objects s)) s);;
    mret target.

(** ** Mappers *)
Definition acquire (v : option V) : FM unit := match v with Some v => emit (EAcquire v) | None => mret tt end.
(** [zval_ptr_dtor]; [owned]: the variable still holds its reference.  To drop a
    reference that was dropped before is undefined, unless the value has no count. *)
Definition release (owned : bool) (v : option V) : FM unit :=
  match v with
  | Some v => if owned || negb (refcounted v) then emit (ERelease v) else undefined
  | None => mret tt
  end.

(** [process_future_mapper] after the call of the mapper, if there was one ([r]); it
    answers the exception that it throws. *)
Definition mapper_finish (it : option nat) (parent c : nat) (fallback : option X) (r : option (called V X)) :
  FM (option X) :=
  p ← get_event parent;
  ob ← get_object c;
  let retval := match r with Some (Returned v) => Some v | _ => None end in
  acquire retval;;
  held ←
    match mapper_type ob with
    | ASYNC_FUTURE_MAPPER_FINALLY =>
      release true retval;;
      match result p with
      | Some _ => acquire (result p);; mret (result p, true)
      | None => mret (retval, false)
      end
    | _ => mret (retval, true)
    end;
  let '(retval, owned) := held in
  let fallback :=
    match r, fallback with
    | Some (Thrown x), Some previous => Some (zend_exception_set_previous x previous)
    | Some (Thrown x), None => Some x
    | _, _ => fallback
    end in
  thrown ←
    match fallback with
    | Some x =>
      ZEND_FUTURE_REJECT_WITH_ITERATOR (event ob) x it;;
      f ← get_event (event ob);
      release owned retval;;
      mret (if exception_handled f then None else Some x)
    | None =>
      held ←
        match retval with
        | Some _ => mret (retval, owned)
        | None => acquire (result p);; mret (result p, true)
        end;
      let '(retval, owned) := held in
      ZEND_FUTURE_COMPLETE_WITH_ITERATOR (event ob) (default php_null retval) it;;
      release owned retval;;
      mret None
    end;
  f ← get_event (event ob);
  when (exception_caught f) (upd_event parent (set_exception_caught true));;
  mret thrown.

(** [process_future_mapper] up to the call of the mapper: [None] when the mapper was
    called, and otherwise the exception thrown. *)
Definition call_mapper (j : nat) (it : option nat) (parent c m : nat) (arg : argument V X) (fallback : option X) :
  FM (option (option X)) :=
  emit (ECall m arg);; set_job j (JMapping it parent c fallback);; mret None.
Definition process_future_mapper (j : nat) (it : option nat) (parent c : nat) : FM (option (option X)) :=
  ob ← get_object c;
  f ← get_event (event ob);
  if completed f then mret (Some None)
  else
    p ← get_event parent;
    match mapper_type ob, exception p with
    | ASYNC_FUTURE_MAPPER_SUCCESS, None => call_mapper j it parent c (mapper ob) (AValue (result p)) None
    | ASYNC_FUTURE_MAPPER_CATCH, Some x =>
      upd_event parent (set_exception_caught true);;
      upd_event parent (set_exception_handled true);;
      call_mapper j it parent c (mapper ob) (AException x) None
    | ASYNC_FUTURE_MAPPER_FINALLY, None => call_mapper j it parent c (mapper ob) (AValue (result p)) None
    | ASYNC_FUTURE_MAPPER_FINALLY, Some x => call_mapper j it parent c (mapper ob) (AException x) (Some x)
    | _, fallback => thrown ← mapper_finish it parent c fallback None; mret (Some thrown)
    end.

(** ** The walk *)

(** The place of the queue after the last one that was taken; the end is its length. *)
Definition next_queue_pos (i : future_iterator_t) : nat :=
  match queue_pos i with
  | None => 0
  | Some pos => if pos <? length (future_queue i) then S pos else pos
  end.
(** One round for each object of the queue that has no children. *)
Fixpoint future_iterator_next_parent (fuel : nat) (it : nat) : FM bool :=
  match fuel with
  | O => undefined
  | S fuel =>
    upd_iterator it (set_current_parent None);;
    i ← get_iterator it;
    let pos := next_queue_pos i in
    if bool_decide (future_queue i = []) then mret false
    else
      upd_iterator it (set_queue_pos (Some pos));;
      match future_queue i !! pos with
      | None => mret false
      | Some o =>
        upd_iterator it (set_current_parent (Some o));;
        ob ← get_object o;
        if has_children ob then upd_iterator it (set_child_pos 0);; mret true
        else future_iterator_next_parent fuel it
      end
  end.
Definition next_parent (it : nat) : FM bool :=
  i ← get_iterator it; future_iterator_next_parent (S (S (length (future_queue i)))) it.

(** The parent and the child at the position. *)
Definition future_iterator_get_current_data (it : nat) : FM (option (nat * nat)) :=
  i ← get_iterator it;
  match current_parent i with
  | None => mret None
  | Some o =>
    ob ← get_object o;
    mret ((o,.) <$> (default [] (child_futures ob) !! child_pos i))
  end.

(** The child at the position, or the first one of the next parent that has any. *)
Definition future_iterator_valid (it : nat) : FM bool :=
  current ← future_iterator_get_current_data it;
  match current with
  | Some _ => mret true
  | None => next_parent it
  end.
Definition future_iterator_move_forward (it : nat) : FM unit :=
  upd_iterator it (λ i, set_child_pos (S (child_pos i)) i).
Definition future_iterator_rewind (it : nat) : FM unit :=
  upd_iterator it (λ i, set_queue_pos None (set_current_parent None i));;
  _ ← next_parent it; mret tt.

(** A coroutine ends; an exception it leaves cancels its scope. *)
Definition leave (j : nat) (thrown : option X) : FM unit :=
  modify (λ s, set_jobs (delete j (jobs s)) s);;
  match thrown with Some x => emit (EEscaped x) | None => mret tt end.

(** The handler returned to the loop. *)
Definition handler_returned (j it : nat) (thrown : option X) : FM unit :=
  match thrown with
  | Some _ => upd_iterator it (set_finished true);; leave j thrown
  | None => set_job j (JLoop it)
  end.

(** A turn of the loop of [iterate] with [future_mappers_handler]. *)
Definition turn (j it : nat) : FM unit :=
  i ← get_iterator it;
  if finished i then leave j None
  else
    valid ← future_iterator_valid it;
    current ← future_iterator_get_current_data it;
    match valid, current with
    | true, Some (parent, c) =>
      future_iterator_move_forward it;;
      ob ← get_object parent;
      done ← process_future_mapper j (Some it) (event ob) c;
      match done with
      | Some thrown => handler_returned j it thrown
      | None => mret tt
      end
    | _, _ => upd_iterator it (set_finished true);; leave j None
    end.

(** A worker starts: [async_iterator_run] and the head of [iterate]. *)
Definition start (j it : nat) : FM unit :=
  i ← get_iterator it;
  when (negb (finished i)) (upd_iterator it (λ i, set_queued (S (queued i)) i));;
  when (negb (started i || finished i)) (upd_iterator it (set_started true);; future_iterator_rewind it);;
  set_job j (JLoop it).

(** The scheduler runs a microtask of the iterator. *)
Definition microtask (it : nat) : FM unit :=
  i ← get_iterator it;
  upd_iterator it (set_queued (queued i - 1));;
  when (negb (finished i)) (spawn (JStart it)).

(** Job [j] goes on; [r]: what the mapper does that it called. *)
Definition run_job (j : nat) (r : called V X) : FM unit :=
  s ← get;
  b ← of_option (jobs s !! j);
  match b with
  | JStart it => start j it
  | JLoop it => turn j it
  | JSingle parent c =>
    done ← process_future_mapper j None parent c;
    match done with Some thrown => leave j thrown | None => mret tt end
  | JMapping it parent c fallback =>
    thrown ← mapper_finish it parent c fallback (Some r);
    match it with
    | Some it => handler_returned j it thrown
    | None => leave j thrown
    end
  end.

(** ** Coroutines that are cancelled before they start *)

(** The walk that a coroutine works on. *)
Definition works_on (b : job X) : option nat :=
  match b with
  | JStart it | JLoop it => Some it
  | JMapping it _ _ _ => it
  | JSingle _ _ => None
  end.
(** [active_coroutines]: the coroutines of the walk that were spawned and have not ended. *)
Definition active_coroutines (it : nat) (s : futures_t V X) : nat :=
  length (filter (λ jb, works_on jb.2 = Some it) (map_to_list (jobs s))).

(** The last coroutine of a walk finishes it. *)
Definition iterator_release_coroutine (it : nat) : FM unit :=
  s ← get;
  when (active_coroutines it s <=? 1) (upd_iterator it (set_finished true)).

(** The [extended_dispose] of job [j], whose coroutine is cancelled before it starts:
    [coroutine_extended_dispose], or [future_mapper_context_dispose] for a single
    mapper.  Neither settles a child. *)
Definition extended_dispose (j : nat) : FM unit :=
  s ← get;
  b ← of_option (jobs s !! j);
  match b with
  | JStart it => iterator_release_coroutine it
  | _ => mret tt
  end;;
  modify (λ s, set_jobs (delete j (jobs s)) s).
End futures.
