(* ===== verification/FutureProofs.v ===== *)
(** * The invariant of futures and their chains

    [Evolves] is what every operation guarantees: names stay valid, a completed future
    keeps its outcome, children are only added.  [Wf] says that everything that is
    named exists; [Chain] says that no child is forgotten: a child whose source is
    completed is settled, is being mapped, or is ahead of the position of a walk. *)

From S2P Require Import Prelude Future.
From stdpp Require Import tactics.

Local Open Scope nat_scope.

(** What is assumed of the engine's macros: they store into a future that is not
    completed and leave a completed one as it is; without awaiting coroutines nobody
    takes an exception. *)
Class FutureMacrosSpec (V X : Type) `{FutureMacros V X} := {
  store_result_ok v (f : zend_future_t V X) : store_result v f = if completed f then f else set_result (Some v) f;
  store_exception_ok x (f : zend_future_t V X) :
    store_exception x f = if completed f then f else set_exception (Some x) f;
  awaiter_handles_nil : awaiter_handles [] = false
}.

Section proofs.
Context {V X : Type} `{FutureMacrosSpec V X}.
Abbreviation state := (futures_t V X).
Implicit Types (s : state) (e o c j it : nat).

(** ** Monotonicity *)
Definition outcome (f : zend_future_t V X) : option V * option X := (result f, exception f).

Record Evolves s s' : Prop := {
  ev_event e f : events s !! e = Some f → ∃ f', events s' !! e = Some f' ∧
    (completed f = true → completed f' = true ∧ outcome f' = outcome f);
  ev_object o ob : objects s !! o = Some ob → ∃ ob', objects s' !! o = Some ob' ∧ event ob' = event ob ∧
    mapper_type ob' = mapper_type ob ∧
    ∀ l, child_futures ob = Some l → ∃ l', child_futures ob' = Some (l ++ l');
  ev_iterator it : is_Some (iterators s !! it) → is_Some (iterators s' !! it);
  ev_effects : effects s `prefix_of` effects s'
}.
#[export] Instance Evolves_preorder : PreOrder Evolves.
Proof.
  split.
  - intros s. constructor; try done; [eauto|]. intros o ob Ho. exists ob. split_and!; try done.
    intros l ->. exists []. by rewrite app_nil_r.
  - intros s1 s2 s3 [] []. constructor; [| |by auto|by etrans].
    + intros e f He. destruct (ev_event0 e f He) as (f2 & He2 & Hc2).
      destruct (ev_event1 e f2 He2) as (f3 & He3 & Hc3). exists f3. split; [done|]. intros Hc.
      destruct (Hc2 Hc) as [? <-]. by apply Hc3.
    + intros o ob Ho. destruct (ev_object0 o ob Ho) as (ob2 & Ho2 & Hev2 & Ht2 & Hc2).
      destruct (ev_object1 o ob2 Ho2) as (ob3 & Ho3 & Hev3 & Ht3 & Hc3). exists ob3.
      split_and!; [done|congruence..|]. intros l Hl. destruct (Hc2 l Hl) as [l2 Hl2].
      destruct (Hc3 _ Hl2) as [l3 Hl3]. exists (l2 ++ l3). by rewrite app_assoc.
Qed.

(** Nothing escaped from a mapper without being handled. *)
Definition quiet s : Prop := ∀ x, EEscaped x ∉ effects s.

Definition is_started s it : Prop := is_Some (iterators s !! it).

(** The fallback of a mapper that was called for a child of type [ty]. *)
Definition fallback_of (ty : async_future_mapper_type_t) (p : zend_future_t V X) : option X :=
  match ty with ASYNC_FUTURE_MAPPER_FINALLY => exception p | _ => None end.
(** Whether the mapper of such a child is called. *)
Definition calls (ty : async_future_mapper_type_t) (p : zend_future_t V X) : bool :=
  match ty, exception p with
  | ASYNC_FUTURE_MAPPER_SUCCESS, Some _ | ASYNC_FUTURE_MAPPER_CATCH, None => false
  | _, _ => true
  end.

(** A child [c] of the event [e] that a job refers to. *)
Definition is_source (derived : list (nat * nat)) s e c : Prop :=
  (e, c) ∈ derived ∧ (∃ p, events s !! e = Some p ∧ completed p = true) ∧ is_Some (objects s !! c).
Definition job_ok (derived : list (nat * nat)) (b : job X) s : Prop :=
  match b with
  | JStart it | JLoop it => is_Some (iterators s !! it)
  | JSingle e c => is_source derived s e c
  | JMapping walk e c fallback =>
    (∀ k, walk = Some k → is_Some (iterators s !! k)) ∧ is_source derived s e c ∧
    ∃ p ob, events s !! e = Some p ∧ objects s !! c = Some ob ∧ calls (mapper_type ob) p = true ∧
      fallback = fallback_of (mapper_type ob) p
  end.

Record Wf (derived : list (nat * nat)) s : Prop := {
  wf_next_event e : is_Some (events s !! e) → e < next s;
  wf_next_object o : is_Some (objects s !! o) → o < next s;
  wf_next_iterator it : is_Some (iterators s !! it) → it < next s;
  wf_next_job j : is_Some (jobs s !! j) → j < next s;
  wf_object o ob : objects s !! o = Some ob → is_Some (events s !! event ob) ∧
    ∀ c, c ∈ default [] (child_futures ob) → is_Some (objects s !! c);
  wf_subscriber e f o : events s !! e = Some f → o ∈ resolve_callbacks f → ∃ ob, objects s !! o = Some ob ∧ event ob = e;
  wf_iterator it i : iterators s !! it = Some i → (∀ o, o ∈ future_queue i → ∃ ob, objects s !! o = Some ob ∧
      ∃ f, events s !! event ob = Some f ∧ completed f = true) ∧
    (∀ o, current_parent i = Some o → o ∈ future_queue i);
  wf_job j b : jobs s !! j = Some b → job_ok derived b s;
  wf_derived e c : (e, c) ∈ derived → is_Some (events s !! e) ∧ is_Some (objects s !! c);
  wf_unique e1 e2 c : (e1, c) ∈ derived → (e2, c) ∈ derived → e1 = e2;
  wf_child o ob c : objects s !! o = Some ob → c ∈ default [] (child_futures ob) → (event ob, c) ∈ derived
}.

(** ** No child is forgotten *)
(** The walk [i] has yet to come to child number [k] of object [o]. *)
Definition Remaining (i : future_iterator_t) (o k : nat) : Prop :=
  (current_parent i = Some o ∧ child_pos i ≤ k) ∨
  ∃ n, future_queue i !! n = Some o ∧ (∀ p, queue_pos i = Some p → p < n).

(** [e] is completed and [c], one of its derived objects, is not. *)
Definition due s e c : Prop :=
  (∃ f, events s !! e = Some f ∧ completed f = true) ∧
  ∃ ob f, objects s !! c = Some ob ∧ events s !! event ob = Some f ∧ completed f = false.
Definition child_of s e c o k : Prop :=
  ∃ ob, objects s !! o = Some ob ∧ event ob = e ∧ default [] (child_futures ob) !! k = Some c.

(** [ex]: objects that are about to be put into a queue; [hand]: the children that a
    running job is about to settle. *)
Record Chain (derived : list (nat * nat)) (ex hand : list nat) s : Prop := {
  ch_subscribed e c f : (e, c) ∈ derived → events s !! e = Some f → completed f = false →
    ∃ o k, child_of s e c o k ∧ o ∈ resolve_callbacks f;
  ch_subscriber o ob f : objects s !! o = Some ob → child_futures ob ≠ None → events s !! event ob = Some f →
    completed f = false → o ∈ resolve_callbacks f;
  ch_due e c : (e, c) ∈ derived → c ∉ hand → due s e c →
    (∃ j, jobs s !! j = Some (JSingle e c)) ∨
    (∃ j walk fb, jobs s !! j = Some (JMapping walk e c fb)) ∨
    (∃ o k, child_of s e c o k ∧ (o ∈ ex ∨
      ∃ it i, iterators s !! it = Some i ∧ finished i = false ∧ Remaining i o k));
  ch_worker it i : iterators s !! it = Some i → finished i = false →
    ∃ j b, jobs s !! j = Some b ∧ works_on b = Some it;
  ch_unique j1 j2 b1 b2 it : jobs s !! j1 = Some b1 → jobs s !! j2 = Some b2 →
    works_on b1 = Some it → works_on b2 = Some it → j1 = j2;
  ch_busy j b it : jobs s !! j = Some b → works_on b = Some it →
    ∃ i, iterators s !! it = Some i ∧ finished i = false ∧ (started i = match b with JStart _ => false | _ => true end);
  ch_position it i : iterators s !! it = Some i → finished i = false →
    if started i then ∃ p o, queue_pos i = Some p ∧ future_queue i !! p = Some o ∧ current_parent i = Some o
    else queue_pos i = None ∧ current_parent i = None ∧ ∃ o q ob, future_queue i = o :: q ∧
      objects s !! o = Some ob ∧ has_children ob = true
}.

Definition Good (calm : bool) (derived : list (nat * nat)) (ex hand : list nat) s : Prop :=
  Wf derived s ∧ (calm = true → quiet s → Chain derived ex hand s).

(** ** Small steps *)

(** A change of an event that leaves open what is open: of flags, of the awaiting
    coroutines, or of the outcome of a future that is not completed. *)
Definition flags_only (g : zend_future_t V X → zend_future_t V X) (f : zend_future_t V X) : Prop :=
  completed (g f) = completed f ∧ resolve_callbacks (g f) = resolve_callbacks f ∧
  (completed f = true → outcome (g f) = outcome f).

Lemma upd_event_evolves e g s : (∀ f, events s !! e = Some f → flags_only g f) →
  Evolves s (set_events (alter g e (events s)) s).
Proof.
  intros Hg. constructor; cbn; try done.
  - intros e' f He. destruct (decide (e' = e)) as [->|]; [rewrite lookup_alter_eq, He|rewrite lookup_alter_ne by done; eauto].
    destruct (Hg f He) as (Hc & Hr & Ho). exists (g f). split; [done|]. intros Hf. rewrite Hc. auto.
  - intros o ob Ho. exists ob. split_and!; try done. intros l ->. exists []. by rewrite app_nil_r.
Qed.

(** States that differ in flags and effects. *)
Record Same s s' : Prop := {
  sm_evolves : Evolves s s';
  sm_objects : objects s' = objects s;
  sm_iterators : iterators s' = iterators s;
  sm_jobs : jobs s' = jobs s;
  sm_next : next s' = next s;
  sm_event e : (λ f, (completed f, resolve_callbacks f)) <$> events s' !! e =
               (λ f, (completed f, resolve_callbacks f)) <$> events s !! e
}.
#[export] Instance Same_preorder : PreOrder Same.
Proof.
  split.
  - intros s. by constructor.
  - intros s1 s2 s3 [] []. constructor; [by etrans|congruence..|]. intros e. by rewrite sm_event1.
Qed.
Lemma Same_event s s' e f' : Same s s' → events s' !! e = Some f' →
  ∃ f, events s !! e = Some f ∧ completed f' = completed f ∧ resolve_callbacks f' = resolve_callbacks f.
Proof.
  intros Hs He. pose proof (sm_event _ _ Hs e) as Hm. rewrite He in Hm. cbn in Hm.
  destruct (events s !! e) as [f|]; cbn in Hm; [|done]. exists f. by simplify_eq.
Qed.
Lemma Same_event_dom s s' e : Same s s' → is_Some (events s' !! e) ↔ is_Some (events s !! e).
Proof.
  intros Hs. pose proof (sm_event _ _ Hs e) as Hm. rewrite <- (fmap_is_Some (λ f, (completed f, resolve_callbacks f))).
  by rewrite Hm, fmap_is_Some.
Qed.

Lemma upd_event_same e g s : (∀ f, events s !! e = Some f → flags_only g f) →
  Same s (set_events (alter g e (events s)) s).
Proof.
  intros Hg. constructor; try done; [by apply upd_event_evolves|]. intros e'. cbn.
  destruct (decide (e' = e)) as [->|]; [|by rewrite lookup_alter_ne].
  rewrite lookup_alter_eq. destruct (events s !! e) as [f|] eqn:Hf; [|done]. cbn.
  destruct (Hg f eq_refl) as (-> & -> & _). done.
Qed.
Lemma effects_same l s : Same s (set_effects (effects s ++ l) s).
Proof.
  constructor; try done. constructor; cbn; try done; [eauto| |by apply prefix_app_r].
  intros o ob Ho. exists ob. split_and!; try done. intros k ->. exists []. by rewrite app_nil_r.
Qed.

Lemma quiet_evolves s s' : Evolves s s' → quiet s' → quiet s.
Proof. intros [_ _ _ [l He]] Hq x Hx. apply (Hq x). rewrite He. set_solver. Qed.

Lemma is_source_evolves derived s s' e c : Evolves s s' → is_source derived s e c → is_source derived s' e c.
Proof.
  intros [] (Hd & (p & Hp & Hc) & [ob Ho]). split_and!; [done|..].
  - destruct (ev_event0 _ _ Hp) as (p' & ? & H'). destruct (H' Hc). eauto.
  - destruct (ev_object0 _ _ Ho) as (ob' & ? & _). eauto.
Qed.
Lemma job_ok_evolves derived s s' b : Evolves s s' → job_ok derived b s → job_ok derived b s'.
Proof.
  intros Hev. destruct b as [it|it|e c|walk e c fb]; cbn; try apply (ev_iterator _ _ Hev).
  - by apply is_source_evolves.
  - intros (Hw & Hs & p & ob & Hp & Ho & Hc & ->). split_and!.
    + intros k Hk. by apply (ev_iterator _ _ Hev), Hw.
    + by apply (is_source_evolves _ s).
    + destruct Hs as (_ & (p0 & Hp0 & Hcp) & _). assert (p0 = p) as -> by congruence.
      destruct (ev_event _ _ Hev _ _ Hp) as (p' & Hp' & H'). destruct (H' Hcp) as [_ Ho'].
      destruct (ev_object _ _ Hev _ _ Ho) as (ob' & Hob' & _ & Ht & _). injection Ho' as _ Hx.
      exists p', ob'. rewrite Ht. unfold calls, fallback_of in *. by rewrite Hx.
Qed.

Lemma due_same s s' e c : Same s s' → due s' e c → due s e c.
Proof.
  intros Hs [(f & He & Hc) (ob & f2 & Ho & He2 & Hc2)]. rewrite (sm_objects _ _ Hs) in Ho.
  destruct (Same_event _ _ _ _ Hs He) as (g & ? & ? & _), (Same_event _ _ _ _ Hs He2) as (g2 & ? & ? & _).
  split; [exists g|exists ob, g2]; split_and!; congruence.
Qed.

(** [Wf] looks at events only for their existence, completion and subscribers. *)
Lemma wf_event_change derived s s' : Evolves s s' → objects s' = objects s → iterators s' = iterators s →
  jobs s' = jobs s → next s' = next s →
  (∀ e f', events s' !! e = Some f' → ∃ f, events s !! e = Some f ∧ ∀ o, o ∈ resolve_callbacks f' → o ∈ resolve_callbacks f) →
  Wf derived s → Wf derived s'.
Proof.
  intros Hev Eo Ei Ej En Hinv [].
  assert (∀ e, is_Some (events s !! e) → is_Some (events s' !! e)) as Hdom.
  { intros e [f Hf]. destruct (ev_event _ _ Hev _ _ Hf) as (? & ? & _). eauto. }
  constructor; rewrite ?En, ?Eo, ?Ei, ?Ej; try done.
  - intros e [f' He]. destruct (Hinv _ _ He) as (f & Hf & _). eauto.
  - intros o ob Ho. destruct (wf_object0 o ob Ho). auto.
  - intros e f' o He Ho. destruct (Hinv _ _ He) as (f & Hf & Hr). eauto.
  - intros it i Hi. destruct (wf_iterator0 it i Hi) as [Hq Hp]. split; [|done]. intros o Ho.
    destruct (Hq o Ho) as (ob & Hob & f & Hf & Hc). exists ob. split; [done|].
    destruct (ev_event _ _ Hev _ _ Hf) as (f' & Hf' & H'). destruct (H' Hc). eauto.
  - intros j b Hj. apply (job_ok_evolves _ s); [done|eauto].
  - intros e c Hd. destruct (wf_derived0 e c Hd). auto.
Qed.

Lemma good_same calm derived ex hand s s' : Same s s' → Good calm derived ex hand s → Good calm derived ex hand s'.
Proof.
  intros Hs [Hwf Hch]. pose proof (sm_evolves _ _ Hs) as Hev. split.
  - apply (wf_event_change derived s); try apply Hs; try done. intros e f' He.
    destruct (Same_event _ _ _ _ Hs He) as (f & Hf & _ & Hr). exists f. by rewrite Hr.
  - intros Hcalm Hq. destruct (Hch Hcalm (quiet_evolves _ _ Hev Hq)).
    constructor; unfold child_of; rewrite ?(sm_objects _ _ Hs), ?(sm_iterators _ _ Hs), ?(sm_jobs _ _ Hs); try done.
    + intros e c f Hd He Hc. destruct (Same_event _ _ _ _ Hs He) as (g & Hg & Hcg & Hr). rewrite Hr. apply ch_subscribed0; congruence.
    + intros o ob f Ho Hch' He Hc. destruct (Same_event _ _ _ _ Hs He) as (g & Hg & Hcg & ->). eapply ch_subscriber0; [done..|congruence].
    + intros e c Hd Hh Hdue. apply ch_due0; [done|done|]. by apply (due_same s s').
Qed.

Lemma good_hand_mono calm derived ex hand c s : Good calm derived ex hand s → Good calm derived ex (c :: hand) s.
Proof.
  intros [Hwf Hch]. split; [done|]. intros Hc Hq. specialize (Hch Hc Hq). constructor; try apply Hch.
  intros e c' Hd Hh. apply (ch_due _ _ _ _ Hch); [done|]. set_solver.
Qed.

(** ** Resolution *)

(** Futures that are open afterwards were open before, with the same outcome. *)
Definition pending_ok s s' : Prop := ∀ e f', events s' !! e = Some f' → completed f' = false →
  ∃ f, events s !! e = Some f ∧ completed f = false ∧ outcome f' = outcome f.
#[export] Instance pending_ok_preorder : PreOrder pending_ok.
Proof.
  split; [intros s e f; eauto|]. intros s1 s2 s3 H1 H2 e f3 He Hc.
  destruct (H2 e f3 He Hc) as (f2 & He2 & Hc2 & ->). destruct (H1 e f2 He2 Hc2) as (f1 & ? & ? & ->). eauto.
Qed.
Lemma pending_event e g s : (∀ f, completed (g f) = false → completed f = false ∧ outcome (g f) = outcome f) →
  pending_ok s (set_events (alter g e (events s)) s).
Proof.
  intros Hg e' f' He Hc. cbn in He. destruct (decide (e' = e)) as [->|]; [|rewrite lookup_alter_ne in He by done; eauto].
  rewrite lookup_alter_eq in He. destruct (events s !! e) as [f|]; cbn in He; [|done]. simplify_eq.
  destruct (Hg f Hc). eauto.
Qed.
Lemma pending_same_events s s' : events s' = events s → pending_ok s s'.
Proof. intros Heq e f. rewrite Heq. eauto. Qed.

(** The events [T] are the only ones that an operation may complete. *)
Section closing.
Context (T : nat → Prop).
Definition closes_only s s' : Prop := ∀ e f f', events s !! e = Some f → completed f = false →
  events s' !! e = Some f' → completed f' = true → T e.

(** What a resolution keeps: jobs, and walks up to new elements of their queues. *)
Record Keeps s s' : Prop := {
  kp_evolves : Evolves s s';
  kp_closes : closes_only s s';
  kp_pending : pending_ok s s';
  kp_jobs : jobs s ⊆ jobs s';
  kp_objects : objects s' = objects s;
  kp_iterators it i : iterators s !! it = Some i → ∃ q,
    iterators s' !! it = Some (set_future_queue (future_queue i ++ q) i)
}.
#[export] Instance Keeps_preorder : PreOrder Keeps.
Proof.
  split.
  - intros s. constructor; try done; [intros e f f'; congruence|].
    intros it i Hi. exists []. rewrite app_nil_r. by destruct i.
  - intros s1 s2 s3 [] []. constructor; [by etrans| |by etrans|by etrans|congruence|].
    { intros e f f3 He Hc He3 Hc3. destruct (ev_event _ _ kp_evolves0 e f He) as (f2 & He2 & _).
      destruct (completed f2) eqn:Hc2; eauto. }
    intros it i Hi.
    destruct (kp_iterators0 it i Hi) as [q Hq]. destruct (kp_iterators1 _ _ Hq) as [q2 Hq2].
    exists (q ++ q2). rewrite Hq2. cbn. by rewrite app_assoc.
Qed.
Lemma Same_keeps s s' : Same s s' → pending_ok s s' → Keeps s s'.
Proof.
  intros Hs ?. pose proof Hs as []. constructor; [done| |done|by rewrite sm_jobs0|done|].
  { intros e f f' He Hc He' Hc'. destruct (Same_event _ _ _ _ Hs He') as (g & ? & ? & _). congruence. }
  intros it i Hi. exists [].
  rewrite sm_iterators0, app_nil_r, Hi. by destruct i.
Qed.

(** The walk that resolves an event exists, and it is not finished. *)
Definition walk_ok (calm : bool) (walk : option nat) s : Prop := ∀ k, walk = Some k →
  is_Some (iterators s !! k) ∧ (calm = true → quiet s → ∃ i, iterators s !! k = Some i ∧ finished i = false).
Lemma walk_ok_keeps calm walk s s' : Keeps s s' → walk_ok calm walk s → walk_ok calm walk s'.
Proof.
  intros [] Hw k Hk. destruct (Hw k Hk) as [[i Hi] Hf]. split.
  - destruct (kp_iterators0 _ _ Hi) as [q ->]. eauto.
  - intros Hc Hq. destruct (Hf Hc (quiet_evolves _ _ kp_evolves0 Hq)) as (i' & Hi' & Hfin).
    destruct (kp_iterators0 _ _ Hi') as [q ->]. eexists. split; [done|]. done.
Qed.

Lemma has_children_spec ob : has_children ob = false → default [] (child_futures ob) = [].
Proof. unfold has_children. destruct (child_futures ob) as [[|]|]; done. Qed.

(** A new element at the end of a queue. *)
Lemma push_evolves k o s i : iterators s !! k = Some i →
  Keeps s (set_iterators (alter (λ i, set_future_queue (future_queue i ++ [o]) i) k (iterators s)) s).
Proof.
  intros Hk. constructor; cbn; try done; [|intros e f f' ? ? ? ?; cbn in *; congruence|by apply pending_same_events|].
  - constructor; cbn; try done; [eauto| |].
    + intros o' ob Ho. exists ob. split_and!; try done. intros l ->. exists []. by rewrite app_nil_r.
    + intros it Hit. by rewrite lookup_alter_is_Some.
  - intros it i' Hi'. destruct (decide (it = k)) as [->|].
    + exists [o]. by rewrite lookup_alter_eq, Hi'.
    + exists []. rewrite lookup_alter_ne, app_nil_r by done. rewrite Hi'. by destruct i'.
Qed.

Lemma Remaining_push i o k q : Remaining i o k → Remaining (set_future_queue (future_queue i ++ q) i) o k.
Proof.
  intros [?|(n & Hn & Hp)]; [by left|]. right. exists n. split; [|done]. cbn. by apply lookup_app_l_Some.
Qed.

(** A child that is due stays accounted for when walks only grow. *)
Lemma ch_due_keeps derived ex hand s s' e c : Keeps s s' → Chain derived ex hand s → (e, c) ∈ derived → c ∉ hand →
  due s e c →
    (∃ j, jobs s' !! j = Some (JSingle e c)) ∨
    (∃ j walk fb, jobs s' !! j = Some (JMapping walk e c fb)) ∨
    (∃ o k, child_of s' e c o k ∧ (o ∈ ex ∨
      ∃ it i, iterators s' !! it = Some i ∧ finished i = false ∧ Remaining i o k)).
Proof.
  intros Hk Hch Hd Hh Hdue. destruct (ch_due _ _ _ _ Hch e c Hd Hh Hdue) as [[j Hj]|[(j & w & fb & Hj)|(o & k & Hc & Ho)]].
  - left. exists j. by eapply lookup_weaken, kp_jobs.
  - right; left. exists j, w, fb. by eapply lookup_weaken, kp_jobs.
  - right; right. exists o, k. unfold child_of in *. rewrite (kp_objects _ _ Hk). split; [done|].
    destruct Ho as [?|(it & i & Hi & Hf & Hr)]; [by left|right].
    destruct (kp_iterators _ _ Hk it i Hi) as [q Hq]. exists it. eexists. split_and!; [done..|]. by apply Remaining_push.
Qed.

Lemma push_good calm derived ex hand k o ob s : Good calm derived (o :: ex) hand s →
  objects s !! o = Some ob → (∃ f, events s !! event ob = Some f ∧ completed f = true) →
  walk_ok calm (Some k) s →
  Good calm derived ex hand (set_iterators (alter (λ i, set_future_queue (future_queue i ++ [o]) i) k (iterators s)) s).
Proof.
  intros [Hwf Hch] Ho Hev Hw. destruct (Hw k eq_refl) as [[i Hi] Hfin].
  pose proof (push_evolves k o s i Hi) as Hk. set (s' := set_iterators _ s) in *.
  assert (∀ it i', iterators s' !! it = Some i' → (it = k ∧ i' = set_future_queue (future_queue i ++ [o]) i) ∨
    (it ≠ k ∧ iterators s !! it = Some i')) as Hinv.
  { intros it i' Hi'. cbn in Hi'. destruct (decide (it = k)) as [->|].
    - rewrite lookup_alter_eq, Hi in Hi'. cbn in Hi'. left. by simplify_eq.
    - rewrite lookup_alter_ne in Hi' by done. by right. }
  split.
  - destruct Hwf. constructor; try done.
    + intros it [i' Hi']. destruct (Hinv _ _ Hi') as [[-> _]|[_ ?]]; [apply wf_next_iterator0|apply wf_next_iterator0]; eauto.
    + intros it i' Hi'. destruct (Hinv _ _ Hi') as [[-> ->]|[_ Hit]]; [|by apply (wf_iterator0 it)].
      destruct (wf_iterator0 k i Hi) as [Hq Hp]. cbn. split.
      * intros o' [?| ->%list_elem_of_singleton]%elem_of_app; [by apply Hq|]. exists ob. done.
      * intros o' Ho'. apply elem_of_app. left. auto.
    + intros j b Hj. apply (job_ok_evolves _ s); [apply Hk|eauto].
  - intros Hc Hq. specialize (Hch Hc (quiet_evolves _ _ (kp_evolves _ _ Hk) Hq)).
    destruct (Hfin Hc (quiet_evolves _ _ (kp_evolves _ _ Hk) Hq)) as (i0 & Hi0 & Hf). simplify_eq.
    constructor; try apply Hch.
    + intros e c Hd Hh Hdue. destruct (ch_due_keeps _ _ _ _ s' e c Hk Hch Hd Hh Hdue) as [?|[?|(o' & n & Hcn & [Hox|?])]]; eauto 9.
      right; right. exists o', n. split; [done|]. apply elem_of_cons in Hox as [->|?]; [right|by left].
      exists k. eexists. split_and!; [cbn; rewrite lookup_alter_eq, Hi; done|done|].
      right. exists (length (future_queue i)). cbn. split; [by rewrite lookup_app_r, Nat.sub_diag by done|].
      intros p Hp. pose proof (ch_position _ _ _ _ Hch k i Hi Hf) as Hpos. destruct (started i).
      * destruct Hpos as (p' & o'' & Hp' & Hl & _). simplify_eq. by apply lookup_lt_Some in Hl.
      * destruct Hpos as (Hn & _). congruence.
    + intros it i' Hi' Hf'. destruct (Hinv _ _ Hi') as [[-> ->]|[_ Hit]]; by eapply (ch_worker _ _ _ _ Hch).
    + intros j b it Hj Hb. destruct (ch_busy _ _ _ _ Hch j b it Hj Hb) as (i' & Hi' & Hf' & Hs').
      destruct (kp_iterators _ _ Hk it i' Hi') as [q Hq']. eexists. split; [exact Hq'|done].
    + intros it i' Hi' Hf'. destruct (Hinv _ _ Hi') as [[-> ->]|[_ Hit]]; [|by apply (ch_position _ _ _ _ Hch it)].
      pose proof (ch_position _ _ _ _ Hch k i Hi Hf) as Hpos. cbn. destruct (started i).
      * destruct Hpos as (p & o' & ? & ? & ?). exists p, o'. split_and!; [done| |done]. by apply lookup_app_l_Some.
      * destruct Hpos as (? & ? & o' & q & ob' & -> & ? & ?). split_and!; [done..|]. exists o', (q ++ [o]), ob'. done.
Qed.

(** A walk that starts at object [o], and its coroutine. *)
Definition with_walk (o : nat) s : state :=
  let it := next s in
  set_jobs (<[S it := JStart it]> (jobs s)) (set_next (S (S it))
    (set_iterators (<[it := mk_future_iterator [o] None None 0 false false 0]> (iterators s)) s)).

Lemma fresh_iterator derived s : Wf derived s → iterators s !! next s = None.
Proof. intros Hwf. apply eq_None_not_Some. intros ?%(wf_next_iterator _ _ Hwf). lia. Qed.
Lemma fresh_job derived s n : Wf derived s → next s ≤ n → jobs s !! n = None.
Proof. intros Hwf Hn. apply eq_None_not_Some. intros ?%(wf_next_job _ _ Hwf). lia. Qed.

Lemma with_walk_keeps derived o s : Wf derived s → Keeps s (with_walk o s).
Proof.
  intros Hwf. pose proof (fresh_iterator _ _ Hwf) as Hi. pose proof (fresh_job _ _ (S (next s)) Hwf ltac:(lia)) as Hj.
  constructor; cbn; try done; [|intros e f f' ? ? ? ?; cbn in *; congruence|by apply pending_same_events|..].
  - constructor; cbn; try done; [eauto| |].
    + intros o' ob Ho. exists ob. split_and!; try done. intros l ->. exists []. by rewrite app_nil_r.
    + intros it Hit. rewrite lookup_insert_is_Some'. by right.
  - by apply insert_subseteq.
  - intros it i Hit. exists []. rewrite lookup_insert_ne by congruence. rewrite app_nil_r, Hit. by destruct i.
Qed.

Lemma with_walk_good calm derived ex hand o ob s : Good calm derived (o :: ex) hand s →
  objects s !! o = Some ob → has_children ob = true →
  (∃ f, events s !! event ob = Some f ∧ completed f = true) →
  Good calm derived ex hand (with_walk o s).
Proof.
  intros [Hwf Hch] Ho Hchild Hev. pose proof (with_walk_keeps _ o _ Hwf) as Hk.
  pose proof (fresh_iterator _ _ Hwf) as Hi. pose proof (fresh_job _ _ (S (next s)) Hwf ltac:(lia)) as Hj.
  assert (∀ j b it, jobs s !! j = Some b → works_on b = Some it → is_Some (iterators s !! it)) as Hworks.
  { intros j b it Hjb Hb. pose proof (wf_job _ _ Hwf j b Hjb) as Hok. destruct b; cbn in *; simplify_eq; try done.
    by apply Hok. }
  split.
  - pose proof Hwf as Hwf'. destruct Hwf. unfold with_walk. constructor; cbn; try done.
    + intros e He%wf_next_event0. lia.
    + intros e He%wf_next_object0. lia.
    + intros it [<-|Hit%wf_next_iterator0]%lookup_insert_is_Some'; lia.
    + intros j [<-|Hjb%wf_next_job0]%lookup_insert_is_Some'; lia.
    + intros it i [[<- <-]|[_ Hit]]%lookup_insert_Some; [|by eapply wf_iterator0]. cbn. split; [|done].
      intros o' ->%list_elem_of_singleton. exists ob. done.
    + intros j b [[<- <-]|[_ Hjb]]%lookup_insert_Some; [cbn; by rewrite lookup_insert_eq|].
      apply (job_ok_evolves _ s); [apply Hk|eauto].
  - intros Hc Hq. specialize (Hch Hc (quiet_evolves _ _ (kp_evolves _ _ Hk) Hq)).
    constructor; try apply Hch; unfold with_walk; cbn.
    + intros e c Hd Hh Hdue.
      destruct (ch_due_keeps _ _ _ _ (with_walk o s) e c Hk Hch Hd Hh Hdue) as [?|[?|(o' & n & Hcn & [Hox|?])]]; eauto 9.
      right; right. exists o', n. split; [done|]. apply elem_of_cons in Hox as [->|?]; [right|by left].
      exists (next s). eexists. split_and!; [by rewrite lookup_insert_eq|done|]. right. exists 0. done.
    + intros it i [[<- <-]|[Hne Hit]]%lookup_insert_Some Hf.
      * exists (S (next s)), (JStart (next s)). by rewrite lookup_insert_eq.
      * destruct (ch_worker _ _ _ _ Hch it i Hit Hf) as (j & b & Hjb & Hb). exists j, b. split; [|done].
        rewrite lookup_insert_ne; [done|congruence].
    + intros j1 j2 b1 b2 it [[<- <-]|[Hn1 Hj1]]%lookup_insert_Some [[<- <-]|[Hn2 Hj2]]%lookup_insert_Some Hb1 Hb2;
        cbn in *; simplify_eq; try done.
      * destruct (Hworks _ _ _ Hj2 Hb2). congruence.
      * destruct (Hworks _ _ _ Hj1 Hb1). congruence.
      * by eapply (ch_unique _ _ _ _ Hch).
    + intros j b it [[<- <-]|[Hn Hjb]]%lookup_insert_Some Hb.
      * cbn in Hb. simplify_eq. rewrite lookup_insert_eq. eauto.
      * destruct (ch_busy _ _ _ _ Hch j b it Hjb Hb) as (i & Hit & ?). exists i.
        rewrite lookup_insert_ne; [done|congruence].
    + intros it i [[<- <-]|[Hne Hit]]%lookup_insert_Some Hf; [|by apply (ch_position _ _ _ _ Hch it)].
      cbn. split_and!; [done..|]. exists o, [], ob. done.
Qed.

Lemma handler_spec calm derived ex hand e o ob walk s : Good calm derived (o :: ex) hand s →
  objects s !! o = Some ob → event ob = e → (∃ f, events s !! e = Some f ∧ completed f = true) →
  walk_ok calm walk s →
  wp (async_future_callback_handler e o walk) (λ _ s', Good calm derived ex hand s' ∧ Keeps s s') s.
Proof.
  intros HG Ho <- Hev Hw. unfold async_future_callback_handler, get_object. rewrite wp_bind, wp_bind, wp_get.
  unfold of_option, wp at 1. rewrite Ho. cbn. destruct (has_children ob) eqn:Hchild; cbn.
  - destruct walk as [k|].
    + rewrite wp_bind. unfold upd_iterator, upd_event. rewrite !wp_modify.
      destruct (Hw k eq_refl) as [[i Hi] _]. pose proof (push_good _ _ _ _ k o ob s HG Ho Hev Hw) as HG1.
      pose proof (push_evolves k o s i Hi) as Hk. set (s1 := set_iterators _ s) in *.
      assert (Same s1 (set_events (alter (set_exception_handled true) (event ob) (events s1)) s1)) as Hs.
      { by apply upd_event_same. }
      split; [by eapply good_same|]. etrans; [exact Hk|]. apply Same_keeps; [done|]. by apply pending_event.
    + unfold future_iterator_create, spawn, fresh, set_job. wp_simpl. cbn.
      pose proof (with_walk_good calm derived ex hand o ob s HG Ho Hchild Hev) as HG1.
      split; [exact HG1|]. exact (with_walk_keeps derived o s (proj1 HG)).
  - split; [|done]. destruct HG as [Hwf Hch]. split; [done|]. intros Hc Hq.
    specialize (Hch Hc Hq). constructor; try apply Hch. intros e c Hd Hh Hdue.
    destruct (ch_due _ _ _ _ Hch e c Hd Hh Hdue) as [?|[?|(o' & n & Hcn & [Hox|?])]]; eauto 9.
    right; right. exists o', n. split; [done|]. apply elem_of_cons in Hox as [->|?]; [|by left].
    destruct Hcn as (ob' & Ho' & _ & Hn). simplify_eq. by rewrite has_children_spec in Hn.
Qed.

Lemma vector_notify_spec calm derived ex hand e subs walk s : Good calm derived (subs ++ ex) hand s →
  (∀ o, o ∈ subs → ∃ ob, objects s !! o = Some ob ∧ event ob = e) →
  (∃ f, events s !! e = Some f ∧ completed f = true) → walk_ok calm walk s →
  wp (vector_notify e subs walk) (λ _ s', Good calm derived ex hand s' ∧ Keeps s s') s.
Proof.
  revert s. induction subs as [|o subs IH]; intros s HG Ho Hev Hw; [done|]. cbn [vector_notify].
  destruct (Ho o) as (ob & Hob & He); [by left|].
  rewrite wp_bind. eapply wp_mono; [by eapply (handler_spec calm derived (subs ++ ex))|]. intros _ s1 [HG1 Hk1].
  eapply wp_mono; [apply IH; [done| | |by eapply walk_ok_keeps]|].
  - intros o' Ho'. rewrite (kp_objects _ _ Hk1). apply Ho. by right.
  - destruct Hev as (f & Hf & Hc). destruct (ev_event _ _ (kp_evolves _ _ Hk1) e f Hf) as (f' & ? & H').
    destruct (H' Hc). eauto.
  - intros _ s2 [HG2 Hk2]. split; [done|]. by etrans.
Qed.

Lemma wp_get_event e f s (Φ : zend_future_t V X → state → Prop) : events s !! e = Some f → wp (get_event e) Φ s ↔ Φ f s.
Proof. intros He. unfold get_event. rewrite wp_bind, wp_get. unfold of_option, wp. by rewrite He. Qed.
Lemma wp_get_object o ob s (Φ : async_future_t → state → Prop) : objects s !! o = Some ob → wp (get_object o) Φ s ↔ Φ ob s.
Proof. intros Ho. unfold get_object. rewrite wp_bind, wp_get. unfold of_option, wp. by rewrite Ho. Qed.
Lemma wp_get_iterator it i s (Φ : future_iterator_t → state → Prop) : iterators s !! it = Some i → wp (get_iterator it) Φ s ↔ Φ i s.
Proof. intros Hi. unfold get_iterator. rewrite wp_bind, wp_get. unfold of_option, wp. by rewrite Hi. Qed.

Definition with_event e (g : zend_future_t V X → zend_future_t V X) s : state := set_events (alter g e (events s)) s.
Lemma with_event_eq e g f s : events s !! e = Some f → events (with_event e g s) !! e = Some (g f).
Proof. intros He. cbn. by rewrite lookup_alter_eq, He. Qed.

Lemma wp_upd_event e g s (Φ : unit → state → Prop) : wp (upd_event e g) Φ s ↔ Φ tt (with_event e g s).
Proof. done. Qed.

Lemma fut_wake_all_spec e l s : wp (wake_all e l) (λ _ s', Same s s' ∧ pending_ok s s' ∧ ∃ l', effects s' = effects s ++ l' ∧
  ∀ x, EEscaped x ∉ l') s.
Proof.
  revert s. induction l as [|c l IH]; intros s; cbn [wake_all].
  - split_and!; [done..|]. exists []. rewrite app_nil_r. split; [done|]. intros x. set_solver.
  - rewrite wp_bind. unfold emit. rewrite wp_modify. eapply wp_mono; [apply IH|].
    intros _ s' (Hs & Hp & l' & He & Hl). split_and!; [etrans; [apply (effects_same [EWake c e])|done]|by etrans; [by apply pending_same_events|]|].
    exists (EWake c e :: l'). rewrite He. cbn. rewrite <- app_assoc. split; [done|]. intros x. set_solver.
Qed.
Lemma callbacks_notify_spec e f s : events s !! e = Some f → wp (callbacks_notify e) (λ _ s', Same s s' ∧
  pending_ok s s' ∧ ∃ l', effects s' = effects s ++ l' ∧ ∀ x, EEscaped x ∉ l') s.
Proof.
  intros He. unfold callbacks_notify. rewrite wp_bind, (wp_get_event e f) by done.
  wp_apply fut_wake_all_spec. intros _ s1 (Hs1 & Hp1 & Hl). rewrite wp_when. destruct (_ && _); [|done].
  unfold upd_event. rewrite wp_modify. split_and!; [etrans; [done|]; by apply upd_event_same|etrans; [done|]; by apply pending_event|done].
Qed.

(** The event is marked as completed: its subscribers are about to be told. *)
Lemma completed_keeps e f s : T e → events s !! e = Some f → completed f = false → Keeps s (with_event e (set_completed true) s).
Proof.
  intros HT He Hc. constructor; try done; [| |by apply pending_event|intros it i Hi; exists []; rewrite app_nil_r; by destruct i].
  2: { intros e' f1 f2 He1 Hc1 He2 Hc2. cbn in He2. destruct (decide (e' = e)) as [->|]; [done|].
    rewrite lookup_alter_ne in He2 by done. congruence. }
  constructor; cbn; try done.
  - intros e' f' He'. destruct (decide (e' = e)) as [->|].
    + rewrite lookup_alter_eq, He. eexists. split; [done|]. intros ?. congruence.
    + rewrite lookup_alter_ne by done. eauto.
  - intros o ob Ho. exists ob. split_and!; try done. intros l ->. exists []. by rewrite app_nil_r.
Qed.
Lemma completed_good calm derived ex hand e f s : T e → Good calm derived ex hand s → events s !! e = Some f → completed f = false →
  Good calm derived (resolve_callbacks f ++ ex) hand (with_event e (set_completed true) s).
Proof.
  intros HT [Hwf Hch] He Hc. pose proof (completed_keeps e f s HT He Hc) as Hk. pose proof (kp_evolves _ _ Hk) as Hev.
  set (s' := with_event _ _ s) in *.
  assert (∀ e' f', events s' !! e' = Some f' → ∃ g, events s !! e' = Some g ∧
    resolve_callbacks f' = resolve_callbacks g ∧ (e' = e ∨ e' ≠ e ∧ f' = g)) as Hinv.
  { intros e' f' He'. cbn in He'. destruct (decide (e' = e)) as [->|].
    - rewrite lookup_alter_eq, He in He'. cbn in He'. simplify_eq. eauto.
    - rewrite lookup_alter_ne in He' by done. eauto 9. }
  split.
  - apply (wf_event_change derived s); try done. intros e' f' He'.
    destruct (Hinv _ _ He') as (g & Hg & Hr & _). exists g. by rewrite Hr.
  - intros Hcalm Hq. specialize (Hch Hcalm (quiet_evolves _ _ Hev Hq)). constructor; try apply Hch.
    + intros e' c f' Hd He' Hc'. destruct (Hinv _ _ He') as (g & Hg & _ & [->|[_ ->]]).
      * cbn in He'. rewrite lookup_alter_eq, He in He'. cbn in He'. by simplify_eq.
      * by apply (ch_subscribed _ _ _ _ Hch).
    + intros o ob f' Ho Hcn He' Hc'. destruct (Hinv _ _ He') as (g & Hg & _ & [Heq|[_ ->]]).
      * rewrite Heq in He'. cbn in He'. rewrite lookup_alter_eq, He in He'. cbn in He'. by simplify_eq.
      * by eapply (ch_subscriber _ _ _ _ Hch).
    + intros e' c Hd Hh [(f1 & He1 & Hc1) (ob & f2 & Ho & He2 & Hc2)].
      assert (∃ g, events s !! event ob = Some g ∧ completed g = false) as (g2 & Hg2 & Hcg2).
      { destruct (Hinv _ _ He2) as (g & Hg & _ & [Heq|[_ ->]]); [|eauto]. exists f. rewrite Heq. done. }
      destruct (Hinv _ _ He1) as (g1 & Hg1 & _ & [->|[_ ->]]).
      * rewrite He in Hg1. simplify_eq. destruct (ch_subscribed _ _ _ _ Hch e c g1 Hd He Hc) as (o & k & Hcn & Ho').
        right; right. exists o, k. split; [done|]. left. set_solver.
      * assert (due s e' c) as Hdue by (split; [eauto|exists ob, g2; done]).
        destruct (ch_due _ _ _ _ Hch e' c Hd Hh Hdue) as [?|[?|(o & k & Hcn & [?|?])]]; eauto 9.
        right; right. exists o, k. split; [done|]. left. set_solver.
Qed.

Lemma unsubscribe_keeps e s : Keeps s (with_event e (set_resolve_callbacks []) s).
Proof.
  constructor; try done; [| |by apply pending_event|intros it i Hi; exists []; rewrite app_nil_r; by destruct i].
  2: { intros e' f1 f2 He1 Hc1 He2 Hc2. cbn in He2. destruct (decide (e' = e)) as [->|].
    - rewrite lookup_alter_eq, He1 in He2. cbn in He2. simplify_eq. cbn in Hc2. congruence.
    - rewrite lookup_alter_ne in He2 by done. congruence. }
  constructor; cbn; try done.
  - intros e' f' He'. destruct (decide (e' = e)) as [->|].
    + rewrite lookup_alter_eq, He'. by eexists.
    + rewrite lookup_alter_ne by done. eauto.
  - intros o ob Ho. exists ob. split_and!; try done. intros l ->. exists []. by rewrite app_nil_r.
Qed.
Lemma unsubscribe_good calm derived ex hand e f s : Good calm derived ex hand s → events s !! e = Some f → completed f = true →
  Good calm derived ex hand (with_event e (set_resolve_callbacks []) s).
Proof.
  intros [Hwf Hch] He Hc. pose proof (unsubscribe_keeps e s) as Hk. pose proof (kp_evolves _ _ Hk) as Hev.
  set (s' := with_event _ _ s) in *.
  assert (∀ e' f', events s' !! e' = Some f' → ∃ g, events s !! e' = Some g ∧ completed f' = completed g ∧
    (resolve_callbacks f' = [] ∧ e' = e ∨ f' = g)) as Hinv.
  { intros e' f' He'. cbn in He'. destruct (decide (e' = e)) as [->|].
    - rewrite lookup_alter_eq, He in He'. cbn in He'. simplify_eq. exists f. split_and!; [done|done|by left].
    - rewrite lookup_alter_ne in He' by done. eauto 9. }
  split.
  - apply (wf_event_change derived s); try done. intros e' f' He'.
    destruct (Hinv _ _ He') as (g & Hg & _ & [[Hr _]| ->]); [|eauto]. exists g. split; [done|]. intros o. rewrite Hr. set_solver.
  - intros Hcalm Hq. specialize (Hch Hcalm (quiet_evolves _ _ Hev Hq)). constructor; try apply Hch.
    + intros e' c f' Hd He' Hc'. destruct (Hinv _ _ He') as (g & Hg & Hcg & [[_ Heq]| ->]).
      { rewrite Heq, He in Hg. simplify_eq. congruence. }
      by apply (ch_subscribed _ _ _ _ Hch).
    + intros o ob f' Ho Hcn He' Hc'. destruct (Hinv _ _ He') as (g & Hg & Hcg & [[_ Heq]| ->]).
      { rewrite Heq, He in Hg. simplify_eq. congruence. }
      by eapply (ch_subscriber _ _ _ _ Hch).
    + intros e' c Hd Hh [(f1 & He1 & Hc1) (ob & f2 & Ho & He2 & Hc2)]. apply (ch_due _ _ _ _ Hch); [done..|].
      destruct (Hinv _ _ He1) as (g1 & ? & ? & _), (Hinv _ _ He2) as (g2 & ? & ? & _).
      split; [exists g1; split; [done|congruence]|exists ob, g2; split_and!; [exact Ho|done|congruence]].
Qed.

(** The event is resolved: its outcome stays, and its subscribers' children are taken care of. *)
Lemma resolve_spec calm derived ex hand e f walk s : T e → Good calm derived ex hand s → events s !! e = Some f →
  completed f = false → walk_ok calm walk s →
  wp (zend_future_resolve e walk) (λ _ s', Good calm derived ex hand s' ∧ Keeps s s' ∧
    ∃ f', events s' !! e = Some f' ∧ completed f' = true ∧ outcome f' = outcome f) s.
Proof.
  intros HT HG He Hc Hw. unfold zend_future_resolve. rewrite wp_bind, (wp_get_event e f) by done. rewrite Hc. cbv iota.
  rewrite wp_bind, wp_upd_event.
  pose proof (completed_good _ _ _ _ _ _ _ HT HG He Hc) as HG1. pose proof (completed_keeps _ _ _ HT He Hc) as Hk1.
  pose proof (with_event_eq e (set_completed true) f s He) as He1.
  set (s1 := with_event e _ s) in *.
  wp_apply (callbacks_notify_spec e); [done|]. intros _ s2 (Hs2 & Hp2 & _).
  pose proof (good_same _ _ _ _ _ _ Hs2 HG1) as HG2. pose proof (Same_keeps _ _ Hs2 Hp2) as Hk2.
  destruct (ev_event _ _ (kp_evolves _ _ Hk2) _ _ He1) as (f2 & He2 & H2). destruct (H2 eq_refl) as [Hc2 Ho2].
  assert (∀ o, o ∈ resolve_callbacks f → ∃ ob, objects s2 !! o = Some ob ∧ event ob = e) as Hsub.
  { intros o Ho. rewrite (kp_objects _ _ Hk2), (kp_objects _ _ Hk1). by eapply (wf_subscriber _ _ (proj1 HG)). }
  wp_apply (vector_notify_spec calm derived ex hand e); [done|done|eauto|by eapply walk_ok_keeps, walk_ok_keeps|].
  intros _ s3 [HG3 Hk3]. destruct (ev_event _ _ (kp_evolves _ _ Hk3) _ _ He2) as (f3 & He3 & H3). destruct (H3 Hc2) as [Hc3 Ho3].
  rewrite wp_bind, wp_upd_event.
  pose proof (unsubscribe_good _ _ _ _ _ _ _ HG3 He3 Hc3) as HG4. pose proof (unsubscribe_keeps e s3) as Hk4.
  pose proof (with_event_eq e (set_resolve_callbacks []) f3 s3 He3) as He4. set (s4 := with_event e _ s3) in *.
  rewrite wp_bind, (wp_get_event e _ _ _ He4), wp_when.
  assert (Keeps s s4) as Hk by (by repeat (etrans; [eassumption|])).
  assert (outcome (set_resolve_callbacks [] f3) = outcome f) as Ho4 by (unfold outcome in *; cbn in *; congruence).
  destruct (exception_handled _).
  - rewrite wp_upd_event.
    assert (Same s4 (with_event e (set_exception_caught true) s4)) as Hs5 by (by apply upd_event_same).
    split_and!; [by eapply good_same|etrans; [done|apply Same_keeps; [done|by apply pending_event]]|].
    eexists. split; [by apply with_event_eq|]. done.
  - split_and!; [done..|]. eauto.
Qed.

(** What is stored and then resolved; [o]: the outcome that is stored. *)
Lemma fut_settle_spec calm derived ex hand e f g walk s : T e → Good calm derived ex hand s → events s !! e = Some f →
  walk_ok calm walk s → g f = (if completed f then f else g f) →
  (completed f = false → completed (g f) = false ∧ resolve_callbacks (g f) = resolve_callbacks f) →
  wp (upd_event e g;; zend_future_resolve e walk) (λ _ s', Good calm derived ex hand s' ∧ Keeps s s' ∧
    ∃ f', events s' !! e = Some f' ∧ completed f' = true ∧ outcome f' = outcome (g f)) s.
Proof.
  intros HT HG He Hw Hg Hopen. rewrite wp_bind, wp_upd_event.
  assert (Same s (with_event e g s)) as Hs.
  { apply upd_event_same. intros f0 He0. rewrite He in He0. injection He0 as <-.
    destruct (completed f) eqn:Hc; [unfold flags_only; rewrite Hg; done|].
    destruct (Hopen eq_refl) as [? ?]. unfold flags_only. split_and!; [congruence|done|congruence]. }
  pose proof (good_same _ _ _ _ _ _ Hs HG) as HG1. pose proof (with_event_eq e g f s He) as He1.
  destruct (completed f) eqn:Hc.
  - unfold zend_future_resolve. rewrite wp_bind, (wp_get_event e (g f)) by done. rewrite Hg, Hc. cbv iota. rewrite wp_ret.
    split_and!; [done| |exists f; rewrite He1, Hg; done].
    apply Same_keeps; [done|]. intros e' f' He' Hc'. cbn in He'. destruct (decide (e' = e)) as [->|].
    + rewrite lookup_alter_eq, He in He'. cbn in He'. simplify_eq. congruence.
    + rewrite lookup_alter_ne in He' by done. eauto.
  - destruct (Hopen eq_refl) as [Hcg _].
    assert (walk_ok calm walk (with_event e g s)) as Hw1.
    { intros k Hk. destruct (Hw k Hk) as [? Hf]. split; [done|]. intros ? Hq. apply Hf; [done|].
      by apply (quiet_evolves _ _ (sm_evolves _ _ Hs)). }
    eapply wp_mono; [by eapply resolve_spec|]. intros _ s' (HG' & Hk & f' & He' & Hc' & Ho').
    split_and!; [done| |eauto]. constructor; try apply Hk.
    + etrans; [apply Hs|apply Hk].
    + intros e2 f1 f2 He2 Hc2 He3 Hc3. destruct (ev_event _ _ (sm_evolves _ _ Hs) e2 f1 He2) as (g2 & Hg2 & _).
      destruct (Same_event _ _ _ _ Hs Hg2) as (g1 & Hg1 & Hcg1 & _).
      eapply (kp_closes _ _ Hk e2 g2 f2); [done|congruence|done..].
    + intros e2 f2 He2 Hc2. destruct (kp_pending _ _ Hk e2 f2 He2 Hc2) as (f1 & Hf1 & Hcf1 & ->). cbn in Hf1.
      destruct (decide (e2 = e)) as [->|]; [congruence|]. rewrite lookup_alter_ne in Hf1 by done. eauto.
Qed.

Abbreviation COMPLETE := ZEND_FUTURE_COMPLETE_WITH_ITERATOR.
Abbreviation REJECT := ZEND_FUTURE_REJECT_WITH_ITERATOR.
Lemma fut_complete_spec calm derived ex hand e f v walk s : T e → Good calm derived ex hand s → events s !! e = Some f →
  walk_ok calm walk s →
  wp (COMPLETE e v walk) (λ _ s', Good calm derived ex hand s' ∧ Keeps s s' ∧
    ∃ f', events s' !! e = Some f' ∧ completed f' = true ∧
      outcome f' = if completed f then outcome f else (Some v, exception f)) s.
Proof.
  intros HT HG He Hw. eapply wp_mono; [eapply (fut_settle_spec _ _ _ _ e f)|]; try done; rewrite ?store_result_ok.
  - by destruct (completed f).
  - intros Hc. rewrite Hc. by split.
  - intros _ s' (? & ? & f' & ? & ? & Ho). split_and!; [done..|]. exists f'. split_and!; [done..|]. rewrite Ho.
    by destruct (completed f).
Qed.
Lemma reject_spec calm derived ex hand e f x walk s : T e → Good calm derived ex hand s → events s !! e = Some f →
  walk_ok calm walk s →
  wp (REJECT e x walk) (λ _ s', Good calm derived ex hand s' ∧ Keeps s s' ∧
    ∃ f', events s' !! e = Some f' ∧ completed f' = true ∧
      outcome f' = if completed f then outcome f else (result f, Some x)) s.
Proof.
  intros HT HG He Hw. eapply wp_mono; [eapply (fut_settle_spec _ _ _ _ e f)|]; try done; rewrite ?store_exception_ok.
  - by destruct (completed f).
  - intros Hc. rewrite Hc. by split.
  - intros _ s' (? & ? & f' & ? & ? & Ho). split_and!; [done..|]. exists f'. split_and!; [done..|]. rewrite Ho.
    by destruct (completed f).
Qed.

(** A child whose event is completed needs no hand. *)
Lemma hand_settled calm derived ex hand c ob f s : Good calm derived ex (c :: hand) s → objects s !! c = Some ob →
  events s !! event ob = Some f → completed f = true → Good calm derived ex hand s.
Proof.
  intros [Hwf Hch] Ho He Hc. split; [done|]. intros Hcalm Hq. specialize (Hch Hcalm Hq).
  constructor; try apply Hch. intros e c' Hd Hh Hdue. apply (ch_due _ _ _ _ Hch); [done| |done].
  intros [->|?]%elem_of_cons; [|done]. destruct Hdue as [_ (ob' & f' & Ho' & He' & Hc')]. congruence.
Qed.
Lemma emit_good calm derived ex hand x s : Good calm derived ex hand s →
  wp (emit x) (λ _ s', Good calm derived ex hand s' ∧ Keeps s s' ∧ effects s' = effects s ++ [x] ∧ events s' = events s) s.
Proof.
  intros HG. unfold emit. rewrite wp_modify. pose proof (effects_same [x] s) as Hs.
  split_and!; [by eapply good_same|apply Same_keeps; [done|by apply pending_same_events]|done..].
Qed.

(** ** Mappers *)

Context (php_null : V) (set_previous : X → X → X).

Lemma retval_acquire_spec calm derived ex hand v s : Good calm derived ex hand s →
  wp (acquire v) (λ _ s', Good calm derived ex hand s' ∧ Keeps s s' ∧ events s' = events s) s.
Proof.
  intros HG. destruct v; [|done]. eapply wp_mono; [by eapply emit_good|]. intros _ s' (? & ? & _ & ?). done.
Qed.
Lemma retval_release_spec calm derived ex hand owned v s : Good calm derived ex hand s →
  (owned = false → ∀ w, v = Some w → refcounted w = false) →
  wp (release owned v) (λ _ s', Good calm derived ex hand s' ∧ Keeps s s' ∧ events s' = events s) s.
Proof.
  intros HG Hw. destruct v as [w|]; [|done]. unfold release.
  replace (owned || negb (refcounted w)) with true by (destruct owned; [done|by rewrite (Hw eq_refl w)]).
  eapply wp_mono; [by eapply emit_good|]. intros _ s' (? & ? & _ & ?). done.
Qed.

(** What [retval] holds after the mapper, before it is passed on. *)
Definition returned (ty : async_future_mapper_type_t) (p : zend_future_t V X) (r : option (called V X)) : option V :=
  let retval := match r with Some (Returned v) => Some v | _ => None end in
  match ty with
  | ASYNC_FUTURE_MAPPER_FINALLY => match result p with Some v => Some v | None => retval end
  | _ => retval
  end.
Definition rejection (fallback : option X) (r : option (called V X)) : option X :=
  match r, fallback with
  | Some (Thrown x), Some previous => Some (set_previous x previous)
  | Some (Thrown x), None => Some x
  | _, _ => fallback
  end.

(** The value that a [finally] mapper of a source without a value returns is dropped at
    once and again at the end. *)
Definition twice_released (ty : async_future_mapper_type_t) (p : zend_future_t V X) (r : option (called V X)) : bool :=
  match ty, r, result p with
  | ASYNC_FUTURE_MAPPER_FINALLY, Some (Returned w), None => refcounted w
  | _, _, _ => false
  end.
(** Whether [retval] still holds its reference when it is passed on. *)
Definition still_owned (ty : async_future_mapper_type_t) (p : zend_future_t V X) : bool :=
  match ty with ASYNC_FUTURE_MAPPER_FINALLY => bool_decide (is_Some (result p)) | _ => true end.
Lemma not_twice ty p r w : twice_released ty p r = false → still_owned ty p = false → returned ty p r = Some w → refcounted w = false.
Proof.
  unfold twice_released, still_owned, returned. destruct ty; [done..|]. case_bool_decide as Hr; [done|].
  destruct (result p); [by destruct Hr|]. intros Ht _ Hw. destruct r as [[]|]; by simplify_eq.
Qed.

(** The outcome that [mapper_finish] gives an open child. *)
Definition finished_outcome (ty : async_future_mapper_type_t) (p : zend_future_t V X) (fb : option X) (r : option (called V X)) :
  option V * option X :=
  match rejection fb r with
  | Some x => (None, Some x)
  | None => (Some (default php_null (match returned ty p r with Some v => Some v | None => result p end)), None)
  end.

Lemma mapper_finish_spec calm derived hand e p c ob f walk fb r s :
  T (event ob) → Good calm derived [] (c :: hand) s → events s !! e = Some p → objects s !! c = Some ob →
  events s !! event ob = Some f → (completed f = false → outcome f = (None, None)) →
  walk_ok calm walk s → twice_released (mapper_type ob) p r = false →
  wp (mapper_finish php_null set_previous walk e c fb r) (λ _ s', Good calm derived [] hand s' ∧ Keeps s s' ∧
    ∃ f', events s' !! event ob = Some f' ∧ completed f' = true ∧
      outcome f' = if completed f then outcome f else finished_outcome (mapper_type ob) p fb r) s.
Proof.
  intros HT HG He Ho Hf Hpend Hw Htw. unfold mapper_finish.
  rewrite wp_bind, (wp_get_event e p) by done. rewrite wp_bind, (wp_get_object c ob) by done.
  set (retval0 := match r with Some (Returned v) => Some v | _ => None end).
  wp_apply retval_acquire_spec; [done|]. intros _ s1 (HG1 & Hk1 & Ev1).
  assert (wp (match mapper_type ob with
      | ASYNC_FUTURE_MAPPER_FINALLY =>
        release true retval0;;
        match result p with Some _ => acquire (result p);; mret (result p, true) | None => mret (retval0, false) end
      | _ => mret (retval0, true)
      end) (λ v s', v = (returned (mapper_type ob) p r, still_owned (mapper_type ob) p) ∧ Good calm derived [] (c :: hand) s' ∧ Keeps s s' ∧ events s' = events s) s1) as H2.
  { unfold returned, still_owned. fold retval0. destruct (mapper_type ob); [done..|].
    wp_apply retval_release_spec; [done|done|]. intros _ s2 (HG2 & Hk2 & Ev2).
    assert (Keeps s s2) by (by etrans). assert (events s2 = events s) by congruence.
    destruct (result p) as [v|]; [|done].
    wp_apply retval_acquire_spec; [done|]. intros _ s3 (HG3 & Hk3 & Ev3). wp_simpl. split_and!; [done..|by etrans|congruence]. }
  rewrite wp_bind. eapply wp_mono; [exact H2|]. intros retval s2 (-> & HG2 & Hk2 & Ev2). cbv beta iota zeta. clear H2 HG1 Hk1 Ev1.
  set (owned := still_owned _ _).
  assert (walk_ok calm walk s2) as Hw2 by (by eapply walk_ok_keeps).
  assert (events s2 !! event ob = Some f) as Hf2 by (by rewrite Ev2).
  fold (rejection fb r).
  set (target := finished_outcome (mapper_type ob) p fb r).
  set (post := λ s', Good calm derived [] hand s' ∧ Keeps s s' ∧ ∃ f', events s' !! event ob = Some f' ∧ completed f' = true ∧
    outcome f' = if completed f then outcome f else target).
  assert (∀ s' f' out, Good calm derived [] (c :: hand) s' → Keeps s2 s' → events s' !! event ob = Some f' → completed f' = true →
    outcome f' = (if completed f then outcome f else out) → (completed f = false → out = target) → post s') as Hpost.
  { intros s' f' out HG' Hk' Hf' Hc' Hout Hot. assert (Keeps s s') by (by etrans). split_and!; [|done|].
    - eapply (hand_settled _ _ _ _ c ob); [done| |done..]. by rewrite (kp_objects _ _ H1).
    - exists f'. split_and!; [done..|]. rewrite Hout. destruct (completed f); auto. }
  rewrite wp_bind. apply (wp_mono _ (λ _, post)).
  - unfold target, finished_outcome in Hpost. destruct (rejection fb r) as [x|].
    + wp_apply (reject_spec calm derived [] (c :: hand) (event ob) f); [done..|]. intros _ s3 (HG3 & Hk3 & f3 & Hf3 & Hc3 & Ho3).
      rewrite wp_bind, (wp_get_event _ _ _ _ Hf3). wp_apply retval_release_spec; [done|by intros; eapply not_twice|]. intros _ s4 (HG4 & Hk4 & Ev4).
      wp_simpl. eapply (Hpost s4 f3); [done|by etrans|by rewrite Ev4|done|exact Ho3|].
      intros Hc. injection (Hpend Hc) as Hres Hexc. by rewrite ?Hres, ?Hexc.
    + rewrite wp_bind. apply (wp_mono _ (λ v s', v.1 = match returned (mapper_type ob) p r with Some v => Some v | None => result p end ∧
        (v.2 = false → ∀ w, v.1 = Some w → refcounted w = false) ∧ Good calm derived [] (c :: hand) s' ∧ Keeps s2 s' ∧ events s' = events s2)).
      { pose proof (λ w, not_twice (mapper_type ob) p r w Htw) as Hnt. destruct (returned _ _ _); [rewrite wp_ret; split_and!; [done|intros ? w; by apply Hnt|done..]|].
        wp_apply retval_acquire_spec; [done|]. intros _ s3 (? & ? & ?). wp_simpl. done. }
      intros [v own] s3 (Hv & Hown & HG3 & Hk3 & Ev3). cbn [fst snd] in Hv, Hown. cbv beta iota zeta.
      wp_apply (fut_complete_spec calm derived [] (c :: hand) (event ob) f); [done|done|by rewrite Ev3|by eapply walk_ok_keeps|].
      intros _ s4 (HG4 & Hk4 & f4 & Hf4 & Hc4 & Ho4). wp_apply retval_release_spec; [done|done|]. rewrite <- Hv in Hpost. intros _ s5 (HG5 & Hk5 & Ev5).
      wp_simpl. eapply (Hpost s5 f4); [done|by etrans; [|etrans]|by rewrite Ev5|done|exact Ho4|].
      intros Hc. injection (Hpend Hc) as Hres Hexc. by rewrite ?Hres, ?Hexc.
  - intros thrown s3 (HG3 & Hk3 & f3 & Hf3 & Hc3 & Ho3). rewrite wp_bind, (wp_get_event _ _ _ _ Hf3), wp_bind, wp_when.
    destruct (exception_caught f3); [|split_and!; [done..|by exists f3]]. rewrite wp_upd_event. wp_simpl.
    assert (Same s3 (with_event e (set_exception_caught true) s3)) as Hs by (by apply upd_event_same).
    assert (Keeps s3 (with_event e (set_exception_caught true) s3)) as Hk by (by apply Same_keeps, pending_event).
    split_and!; [by eapply good_same|by etrans|].
    destruct (ev_event _ _ (kp_evolves _ _ Hk) _ _ Hf3) as (f4 & Hf4 & H4). destruct (H4 Hc3) as [? Ho4].
    exists f4. rewrite Ho4. done.
Qed.
Lemma bind_run {A B} (m : M state A) (k : A → M state B) s r : (m ≫= k) s = Some r →
  ∃ a s', m s = Some (a, s') ∧ k a s' = Some r.
Proof. unfold mbind, M_bind. destruct (m s) as [[a s']|]; [eauto|done]. Qed.
(** The other case: nothing is defined. *)
Lemma mapper_finish_twice e p c ob walk fb r s x : events s !! e = Some p → objects s !! c = Some ob →
  mapper_finish php_null set_previous walk e c fb r s = Some x → twice_released (mapper_type ob) p r = false.
Proof.
  intros He Ho. unfold mapper_finish, twice_released. intros Hx.
  apply bind_run in Hx as (p' & s1 & Hp & Hx). unfold get_event, mbind, M_bind, of_option in Hp. cbn in Hp. rewrite He in Hp.
  cbn in Hp. injection Hp as <- <-.
  apply bind_run in Hx as (ob' & s1 & Hp & Hx). unfold get_object, mbind, M_bind, of_option in Hp. cbn in Hp. rewrite Ho in Hp.
  cbn in Hp. injection Hp as <- <-.
  destruct (mapper_type ob); [done..|]. destruct r as [[w|y]|]; [|done..]. destruct (result p) as [v|]; [done|].
  destruct (refcounted w) eqn:Hr; [exfalso|done].
  apply bind_run in Hx as (? & s1 & _ & Hx). apply bind_run in Hx as ([retval owned] & s2 & Hheld & Hx).
  apply bind_run in Hheld as (? & ? & _ & Hheld). injection Hheld as <- <- <-. cbv beta iota zeta in Hx.
  apply bind_run in Hx as (? & ? & Hx & _).
  destruct fb as [y|]; apply bind_run in Hx as (? & ? & Hh & Hx).
  - apply bind_run in Hx as (? & ? & _ & Hx). apply bind_run in Hx as (? & ? & Hx & _). unfold release in Hx. by rewrite Hr in Hx.
  - injection Hh as <- <-. cbv beta iota zeta in Hx.
    apply bind_run in Hx as (? & ? & _ & Hx). apply bind_run in Hx as (? & ? & Hx & _). unfold release in Hx. by rewrite Hr in Hx.
Qed.

(** ** Jobs and walks *)
Definition with_iterator it i s : state := set_iterators (<[it := i]> (iterators s)) s.
Lemma wp_upd_iterator it i g s (Φ : unit → state → Prop) : iterators s !! it = Some i →
  wp (upd_iterator it g) Φ s ↔ Φ tt (with_iterator it (g i) s).
Proof.
  intros Hi. unfold upd_iterator, with_iterator. rewrite wp_modify.
  replace (alter g it (iterators s)) with (<[it := g i]> (iterators s)); [done|].
  apply map_eq. intros k. destruct (decide (k = it)) as [->|].
  - by rewrite lookup_insert_eq, lookup_alter_eq, Hi.
  - by rewrite lookup_insert_ne, lookup_alter_ne.
Qed.
Lemma with_iterator_twice it i1 i2 s : with_iterator it i2 (with_iterator it i1 s) = with_iterator it i2 s.
Proof. unfold with_iterator. cbn. by rewrite insert_insert_eq. Qed.
Lemma with_iterator_eq it i s : iterators (with_iterator it i s) !! it = Some i.
Proof. apply lookup_insert_eq. Qed.

Lemma with_iterator_evolves it i s : Evolves s (with_iterator it i s).
Proof.
  constructor; cbn; try done; [eauto| |].
  - intros o' ob Ho. exists ob. split_and!; try done. intros l ->. exists []. by rewrite app_nil_r.
  - intros it' Hit. rewrite lookup_insert_is_Some'. by right.
Qed.

Lemma wf_with_iterator derived it i i' s : Wf derived s → iterators s !! it = Some i → future_queue i' = future_queue i →
  (∀ o, current_parent i' = Some o → o ∈ future_queue i) → Wf derived (with_iterator it i' s).
Proof.
  intros [] Hi Eq Hcur. constructor; try done; cbn.
  - intros it' [<-|Hit]%lookup_insert_is_Some'; [apply wf_next_iterator0; eauto|auto].
  - intros it' i2 [[<- <-]|[_ Hi2]]%lookup_insert_Some; [|by eapply wf_iterator0]. rewrite Eq. split; [|done].
    by apply (wf_iterator0 it i).
  - intros j b Hj. apply (job_ok_evolves _ s); [apply with_iterator_evolves|eauto].
Qed.
Lemma wf_jobs derived s m : Wf derived s →
  (∀ j b, m !! j = Some b → jobs s !! j = Some b ∨ job_ok derived b s ∧ j < next s) → Wf derived (set_jobs m s).
Proof.
  intros Hwf Hm. pose proof Hwf as []. constructor; try done; cbn.
  - intros j [b Hj]. destruct (Hm j b Hj) as [?|[_ ?]]; [|done]. apply wf_next_job0. eauto.
  - intros j b Hj. destruct (Hm j b Hj) as [?|[? _]]; [|done]. eauto.
Qed.

Definition is_start (b : job X) : bool := match b with JStart _ => true | _ => false end.
(** The child that a job is to settle. *)
Definition holds (b : job X) e c : Prop := b = JSingle e c ∨ ∃ walk fb, b = JMapping walk e c fb.

Lemma replace_good calm derived ex hand hand' s j b b' : Good calm derived ex hand s → jobs s !! j = Some b →
  works_on b' = works_on b → is_start b' = is_start b → job_ok derived b' s →
  (∀ e c, (e, c) ∈ derived → due s e c → c ∉ hand' → holds b e c ∨ c ∈ hand → holds b' e c) →
  Good calm derived ex hand' (set_jobs (<[j := b']> (jobs s)) s).
Proof.
  intros [Hwf Hch] Hj Hwo Hst Hok Hhold. pose proof (wf_next_job _ _ Hwf j (mk_is_Some _ _ Hj)) as Hlt. split.
  - apply wf_jobs; [done|]. intros j' b2 [[<- <-]|[_ ?]]%lookup_insert_Some; auto.
  - intros Hc Hq. specialize (Hch Hc Hq).
    assert (∀ j' b2, <[j:=b']> (jobs s) !! j' = Some b2 → ∃ b1, jobs s !! j' = Some b1 ∧ works_on b2 = works_on b1 ∧
      is_start b2 = is_start b1) as Hinv.
    { intros j' b2 [[<- <-]|[_ ?]]%lookup_insert_Some; eauto. }
    constructor; try apply Hch; cbn.
    + intros e c Hd Hh Hdue.
      match goal with |- ?G => assert (holds b' e c → G) as Hb' end.
      { intros [->|(walk & fb & ->)]; [left|right; left]; exists j; [|exists walk, fb]; by rewrite lookup_insert_eq. }
      destruct (decide (c ∈ hand)) as [Hin|Hin]; [refine (Hb' (Hhold e c Hd Hdue Hh (or_intror Hin)))|].
      destruct (ch_due _ _ _ _ Hch e c Hd Hin Hdue) as [[j1 Hj1]|[(j1 & walk & fb & Hj1)|?]]; [| |by right; right].
      * destruct (decide (j1 = j)) as [->|]; [|by left; exists j1; rewrite lookup_insert_ne].
        refine (Hb' (Hhold e c Hd Hdue Hh (or_introl _))). left. rewrite Hj in Hj1. by simplify_eq.
      * destruct (decide (j1 = j)) as [->|]; [|by right; left; exists j1, walk, fb; rewrite lookup_insert_ne].
        refine (Hb' (Hhold e c Hd Hdue Hh (or_introl _))). right. rewrite Hj in Hj1. simplify_eq; eauto.
    + intros it i Hi Hf. destruct (ch_worker _ _ _ _ Hch it i Hi Hf) as (j1 & b1 & Hj1 & Hb1).
      destruct (decide (j1 = j)) as [->|]; [|exists j1, b1; by rewrite lookup_insert_ne].
      exists j, b'. rewrite lookup_insert_eq. split; [done|]. rewrite Hwo. congruence.
    + intros j1 j2 b1 b2 it Hj1 Hj2 Hb1 Hb2. destruct (Hinv _ _ Hj1) as (c1 & ? & Hw1 & _), (Hinv _ _ Hj2) as (c2 & ? & Hw2 & _).
      apply (ch_unique _ _ _ _ Hch j1 j2 c1 c2 it); [done..|congruence|congruence].
    + intros j1 b1 it Hj1 Hb1. destruct (Hinv _ _ Hj1) as (c1 & Hc1 & Hw1 & Hs1).
      destruct (ch_busy _ _ _ _ Hch j1 c1 it Hc1) as (i & ? & ? & Hsi); [congruence|]. exists i. split_and!; [done..|].
      rewrite Hsi. by destruct b1, c1.
Qed.

(** A coroutine that works for no walk ends. *)
Lemma delete_good calm derived ex hand s j b : Good calm derived ex hand s → jobs s !! j = Some b →
  (calm = true → quiet s → works_on b = None) →
  (∀ e c, (e, c) ∈ derived → due s e c → ¬ holds b e c) →
  Good calm derived ex hand (set_jobs (delete j (jobs s)) s).
Proof.
  intros [Hwf Hch] Hj Hwo Hhold. split.
  - apply wf_jobs; [done|]. intros j' b2 [_ ?]%lookup_delete_Some. auto.
  - intros Hc Hq. specialize (Hch Hc Hq). specialize (Hwo Hc Hq). constructor; try apply Hch; cbn.
    + intros e c Hd Hh Hdue. specialize (Hhold e c Hd Hdue).
      destruct (ch_due _ _ _ _ Hch e c Hd Hh Hdue) as [[j1 Hj1]|[(j1 & walk & fb & Hj1)|?]]; [| |by right; right].
      * left. exists j1. rewrite lookup_delete_ne; [done|]. intros ->. apply Hhold. left. congruence.
      * right; left. exists j1, walk, fb. rewrite lookup_delete_ne; [done|]. intros ->. apply Hhold. right.
        rewrite Hj in Hj1. simplify_eq. eauto.
    + intros it i Hi Hf. destruct (ch_worker _ _ _ _ Hch it i Hi Hf) as (j1 & b1 & Hj1 & Hb1).
      exists j1, b1. rewrite lookup_delete_ne; [done|]. intros ->. congruence.
    + intros j1 j2 b1 b2 it [_ Hj1]%lookup_delete_Some [_ Hj2]%lookup_delete_Some. by eapply (ch_unique _ _ _ _ Hch).
    + intros j1 b1 it [_ Hj1]%lookup_delete_Some Hb1. exact (ch_busy _ _ _ _ Hch j1 b1 it Hj1 Hb1).
Qed.

(** A walk is finished and its coroutine ends; [HR]: it had no child left that is due. *)
Lemma finish_good calm derived ex s j b it i i' : Good calm derived ex [] s → jobs s !! j = Some b →
  works_on b = Some it → iterators s !! it = Some i → future_queue i' = future_queue i → finished i' = true →
  (∀ o, current_parent i' = Some o → o ∈ future_queue i) →
  (∀ e c, (e, c) ∈ derived → due s e c → ¬ holds b e c) →
  (calm = true → quiet s → ∀ e c o k, (e, c) ∈ derived → due s e c → child_of s e c o k → ¬ Remaining i o k) →
  Good calm derived ex [] (set_jobs (delete j (jobs s)) (with_iterator it i' s)).
Proof.
  intros [Hwf Hch] Hj Hwo Hi Eq Ef Hcur Hhold HR. split.
  - apply (wf_jobs derived (with_iterator it i' s)); [by eapply wf_with_iterator|]. intros j' b2 [_ ?]%lookup_delete_Some. auto.
  - intros Hc Hq. specialize (Hch Hc Hq). specialize (HR Hc Hq). constructor; try apply Hch; cbn.
    + intros e c Hd Hh Hdue. specialize (Hhold e c Hd Hdue).
      destruct (ch_due _ _ _ _ Hch e c Hd Hh Hdue) as [[j1 Hj1]|[(j1 & walk & fb & Hj1)|(o & k & Hcn & Ho)]].
      * left. exists j1. rewrite lookup_delete_ne; [done|]. intros ->. apply Hhold. left. congruence.
      * right; left. exists j1, walk, fb. rewrite lookup_delete_ne; [done|]. intros ->. apply Hhold. right.
        rewrite Hj in Hj1. simplify_eq. eauto.
      * right; right. exists o, k. split; [done|]. destruct Ho as [?|(it' & i2 & Hi2 & Hf2 & Hr)]; [by left|]. right.
        destruct (decide (it' = it)) as [->|].
        -- rewrite Hi in Hi2. simplify_eq. by destruct (HR e c o k Hd Hdue Hcn).
        -- exists it', i2. by rewrite lookup_insert_ne.
    + intros it' i2 [[<- <-]|[Hne Hi2]]%lookup_insert_Some Hf2; [congruence|].
      destruct (ch_worker _ _ _ _ Hch it' i2 Hi2 Hf2) as (j1 & b1 & Hj1 & Hb1).
      exists j1, b1. rewrite lookup_delete_ne; [done|]. intros ->. congruence.
    + intros j1 j2 b1 b2 it' [_ Hj1]%lookup_delete_Some [_ Hj2]%lookup_delete_Some. by eapply (ch_unique _ _ _ _ Hch).
    + intros j1 b1 it' [Hne Hj1]%lookup_delete_Some Hb1. destruct (ch_busy _ _ _ _ Hch j1 b1 it' Hj1 Hb1) as (i2 & ? & ?).
      exists i2. rewrite lookup_insert_ne; [done|]. intros <-. apply Hne. by eapply (ch_unique _ _ _ _ Hch).
    + intros it' i2 [[<- <-]|[Hne Hi2]]%lookup_insert_Some Hf2; [congruence|]. by apply (ch_position _ _ _ _ Hch it').
Qed.

(** ** A step of a coroutine *)
Definition Pending s : Prop := ∀ e f, events s !! e = Some f → completed f = false → outcome f = (None, None).
Lemma pending_ok_Pending s s' : pending_ok s s' → Pending s → Pending s'.
Proof. intros Hp HP e f' He Hc. destruct (Hp e f' He Hc) as (f & Hf & Hcf & ->). eauto. Qed.

Lemma call_mapper_spec calm derived j b walk e c ob p m arg s : Good calm derived [] [c] s → jobs s !! j = Some b →
  works_on b = walk → is_start b = false → (∀ e' c', holds b e' c' → e' = e ∧ c' = c) →
  events s !! e = Some p → completed p = true → objects s !! c = Some ob → (e, c) ∈ derived →
  calls (mapper_type ob) p = true → (∀ k, walk = Some k → is_Some (iterators s !! k)) →
  wp (call_mapper j walk e c m arg (fallback_of (mapper_type ob) p)) (λ r s', r = None ∧ Good calm derived [] [] s' ∧
    Evolves s s' ∧ pending_ok s s' ∧ events s' = events s ∧
    jobs s' !! j = Some (JMapping walk e c (fallback_of (mapper_type ob) p))) s.
Proof.
  intros HG Hj Hwo Hst Hb He Hc Ho Hd Hcall Hw. unfold call_mapper, set_job.
  wp_apply emit_good; [done|]. intros _ s1 (HG1 & Hk1 & Eff1 & Ev1).
  assert (jobs s1 !! j = Some b) as Hj1 by (by eapply lookup_weaken, kp_jobs).
  assert (job_ok derived (JMapping walk e c (fallback_of (mapper_type ob) p)) s1) as Hok.
  { apply (job_ok_evolves _ s); [apply Hk1|]. cbn. split_and!; [done|split_and!; eauto|eauto 9]. }
  rewrite wp_bind, wp_modify, wp_ret. split_and!; [done| | | |exact Ev1|].
  - eapply replace_good; [done|done|done|done|done|]. intros e' c' Hd' Hdue _ [Hh| ->%list_elem_of_singleton].
    + destruct (Hb _ _ Hh) as [-> ->]. right; eauto.
    + rewrite (wf_unique _ _ (proj1 HG1) e' e c Hd' Hd). right; eauto.
  - etrans; [apply Hk1|]. constructor; try done; [eauto|]. intros o' ob' Ho'. exists ob'. split_and!; try done.
    intros l ->. exists []. by rewrite app_nil_r.
  - etrans; [apply Hk1|]. by apply pending_same_events.
  - apply lookup_insert_eq.
Qed.

Lemma with_event_good calm derived ex hand e g s : Good calm derived ex hand s →
  (∀ f, events s !! e = Some f → flags_only g f) → Good calm derived ex hand (with_event e g s).
Proof. intros HG Hg. eapply good_same; [|done]. by apply upd_event_same. Qed.

(** What [process_future_mapper] leaves. *)
Definition Processed (calm : bool) (derived : list (nat * nat)) (j : nat) (walk : option nat) (e c : nat)
  (ob : async_future_t) (p f : zend_future_t V X) s (r : option (option X)) s' : Prop :=
  match r with
  | Some _ => Good calm derived [] [] s' ∧ Keeps s s' ∧ (calls (mapper_type ob) p = false ∨ completed f = true) ∧ ∃ f', events s' !! event ob = Some f' ∧ completed f' = true ∧
      outcome f' = if completed f then outcome f else finished_outcome (mapper_type ob) p (exception p) None
  | None => Good calm derived [] [] s' ∧ Evolves s s' ∧ pending_ok s s' ∧ completed f = false ∧
      (∀ e1 f1 f2, events s !! e1 = Some f1 → events s' !! e1 = Some f2 → completed f2 = completed f1) ∧
      calls (mapper_type ob) p = true ∧ jobs s' !! j = Some (JMapping walk e c (fallback_of (mapper_type ob) p))
  end.

Lemma process_spec calm derived j b walk e c ob p f s : T (event ob) → Good calm derived [] [c] s → Pending s → jobs s !! j = Some b →
  works_on b = walk → is_start b = false → (∀ e' c', holds b e' c' → e' = e ∧ c' = c) →
  events s !! e = Some p → completed p = true → objects s !! c = Some ob → events s !! event ob = Some f → (e, c) ∈ derived →
  walk_ok calm walk s →
  wp (process_future_mapper php_null set_previous j walk e c) (λ r s', Processed calm derived j walk e c ob p f s r s') s.
Proof.
  intros HT HG HP Hj Hwo Hst Hb He Hc Ho Hf Hd Hw. unfold process_future_mapper.
  rewrite wp_bind, (wp_get_object c ob) by done. rewrite wp_bind, (wp_get_event _ f) by done.
  destruct (completed f) eqn:Hcf.
  { rewrite wp_ret. split_and!; [by eapply hand_settled|done|by right|exists f; by rewrite Hcf]. }
  rewrite wp_bind, (wp_get_event e p) by done.
  assert (∀ k, walk = Some k → is_Some (iterators s !! k)) as Hwk by (intros k Hk; by apply (Hw k Hk)).
  assert (calls (mapper_type ob) p = true → ∀ s1 p1 m arg, Good calm derived [] [c] s1 → jobs s1 = jobs s → objects s1 = objects s →
      iterators s1 = iterators s → Evolves s s1 → pending_ok s s1 →
      (∀ e1 f1 f2, events s !! e1 = Some f1 → events s1 !! e1 = Some f2 → completed f2 = completed f1) → events s1 !! e = Some p1 → completed p1 = true →
      calls (mapper_type ob) p1 = calls (mapper_type ob) p → fallback_of (mapper_type ob) p1 = fallback_of (mapper_type ob) p →
      wp (call_mapper j walk e c m arg (fallback_of (mapper_type ob) p)) (λ r s', Processed calm derived j walk e c ob p f s r s') s1) as Hcall.
  { intros Hcl s1 p1 m arg HG1 Ej Eo Ei Hev Hp1 Hsame He1 Hc1 Hcl1 Hfb. rewrite <- Hfb.
    eapply wp_mono; [apply (call_mapper_spec calm derived j b walk e c ob p1); rewrite ?Ej, ?Eo, ?Ei; try done; congruence|].
    intros r s' (-> & HG' & Hev' & Hp' & Eev' & Hj'). cbn. rewrite <- Hfb.
    split_and!; [done|by etrans|by etrans|done|by rewrite Eev'|done|done]. }
  assert (calls (mapper_type ob) p = false →
    wp (thrown ← mapper_finish php_null set_previous walk e c (exception p) None; mret (Some thrown))
      (λ r s', Processed calm derived j walk e c ob p f s r s') s) as Hpass.
  { intros Hcl. wp_apply (mapper_finish_spec calm derived [] e p c ob f); [done..|by intros _; eapply HP|done|by destruct (mapper_type ob)|].
    intros thrown s' (HG' & Hk' & f' & Hf' & Hc' & Ho'). wp_simpl. split_and!; [done|done|by left|].
    exists f'. rewrite Hcf in *. done. }
  unfold calls, fallback_of in *. destruct (mapper_type ob) eqn:Hty, (exception p) as [x|] eqn:Hx.
  - by apply Hpass.
  - eapply (Hcall eq_refl s p); try done; try congruence; by rewrite Hx.
  - rewrite wp_bind, wp_upd_event, wp_bind, wp_upd_event. set (s1 := with_event e _ s). set (s2 := with_event e _ s1).
    assert (events s2 !! e = Some (set_exception_handled true (set_exception_caught true p))) as He2.
    { unfold s2, s1. by rewrite !(with_event_eq e _ _ _ (with_event_eq e _ _ _ He)). }
    eapply (Hcall eq_refl s2); try done.
    + apply with_event_good; [by apply with_event_good|done].
    + etrans; by apply upd_event_evolves.
    + etrans; by apply pending_event.
    + intros e1 f1 f2 Hf1 Hf2. assert (Same s s2) as Hss by (etrans; by apply upd_event_same).
      destruct (Same_event _ _ _ _ Hss Hf2) as (g1 & ? & ? & _). congruence.
    + cbn. by rewrite Hx.
  - by apply Hpass.
  - eapply (Hcall eq_refl s p); try done; try congruence; by rewrite Hx.
  - eapply (Hcall eq_refl s p); try done; try congruence; by rewrite Hx.
Qed.

End closing.
End proofs.
