(* ===== verification/FutureWalk.v ===== *)
(** * The walk over the children of resolved futures

    [next_parent_spec]: the search for the next object with children; [valid_spec]: the
    child that a turn takes; [fut_leave_spec], [handler_returned_spec]: the end of a turn. *)

From S2P Require Import Prelude Future FutureProofs.
From stdpp Require Import tactics.

Local Open Scope nat_scope.

Section walk.
Context {V X : Type} `{FutureMacrosSpec V X}.
Abbreviation state := (futures_t V X).
Implicit Types (s : state) (e o c j it : nat).

(** ** The search *)
(** Element [n] of the queue is ahead. *)
Definition ahead (i : future_iterator_t) (n : nat) : Prop := ∀ p, queue_pos i = Some p → p < n.
Definition childless s o : Prop := ∃ ob, objects s !! o = Some ob ∧ has_children ob = false.

(** What [next_parent] makes of the walk [i]. *)
Definition Advanced s (i : future_iterator_t) (found : bool) (i' : future_iterator_t) : Prop :=
  future_queue i' = future_queue i ∧ started i' = started i ∧ finished i' = finished i ∧ queued i' = queued i ∧
  if found then ∃ p o ob, queue_pos i' = Some p ∧ future_queue i !! p = Some o ∧ current_parent i' = Some o ∧
    child_pos i' = 0 ∧ objects s !! o = Some ob ∧ has_children ob = true ∧
    ∀ n o', future_queue i !! n = Some o' → ahead i n → n < p → childless s o'
  else current_parent i' = None ∧ ∀ n o', future_queue i !! n = Some o' → ahead i n → childless s o'.

Lemma ahead_next i n o : future_queue i !! n = Some o → ahead i n → next_queue_pos i ≤ n.
Proof.
  intros Hn Ha. unfold next_queue_pos. destruct (queue_pos i) as [p|] eqn:Hp; [|lia].
  pose proof (Ha p Hp). apply lookup_lt_Some in Hn. destruct (Nat.ltb_spec p (length (future_queue i))); lia.
Qed.

Lemma next_parent_loop fuel it s i : iterators s !! it = Some i →
  (∀ o, o ∈ future_queue i → is_Some (objects s !! o)) →
  length (future_queue i) + 1 - next_queue_pos i < fuel →
  wp (future_iterator_next_parent fuel it) (λ found s', ∃ i', s' = with_iterator it i' s ∧ Advanced s i found i') s.
Proof.
  revert s i. induction fuel as [|fuel IH]; intros s i Hi Hq Hfuel; [lia|]. cbn [future_iterator_next_parent].
  rewrite wp_bind, (wp_upd_iterator it i) by done. rewrite wp_bind, (wp_get_iterator it (set_current_parent None i)) by apply with_iterator_eq.
  change (next_queue_pos (set_current_parent None i)) with (next_queue_pos i).
  change (future_queue (set_current_parent None i)) with (future_queue i). cbv zeta. destruct (bool_decide (future_queue i = [])) eqn:Hnil.
  { apply bool_decide_eq_true in Hnil. eexists. split; [done|]. split_and!; try done.
    intros n o'. by rewrite Hnil. }
  rewrite wp_bind, wp_upd_iterator by apply with_iterator_eq. rewrite with_iterator_twice.
  destruct (future_queue i !! next_queue_pos i) as [o|] eqn:Ho.
  - rewrite wp_bind, wp_upd_iterator by apply with_iterator_eq. rewrite with_iterator_twice.
    destruct (Hq o) as [ob Hob]; [by eapply list_elem_of_lookup_2|].
    rewrite wp_bind, (wp_get_object o ob) by done. destruct (has_children ob) eqn:Hch.
    + rewrite wp_bind, wp_upd_iterator by apply with_iterator_eq. rewrite with_iterator_twice, wp_ret.
      eexists. split; [done|]. split_and!; try done. cbn. exists (next_queue_pos i), o, ob. split_and!; try done.
      intros n o' Hn Ha Hlt. pose proof (ahead_next _ _ _ Hn Ha). lia.
    + set (i1 := set_current_parent (Some o) _).
      pose proof (lookup_lt_Some _ _ _ Ho) as Hlt.
      assert (next_queue_pos i1 = S (next_queue_pos i)) as Hnp.
      { change (next_queue_pos i1) with
          (if next_queue_pos i <? length (future_queue i) then S (next_queue_pos i) else next_queue_pos i).
        by rewrite (proj2 (Nat.ltb_lt _ _) Hlt). }
      eapply wp_mono; [apply (IH (with_iterator it i1 s) i1); [apply with_iterator_eq|done|]|].
      { rewrite Hnp. cbn. lia. }
      intros found s' (i' & -> & Hadv). exists i'. rewrite with_iterator_twice. split; [done|].
      destruct Hadv as (E1 & E2 & E3 & E4 & Hadv). cbn in E1, E2, E3, E4. split_and!; try done.
      assert (∀ n o', future_queue i !! n = Some o' → ahead i n → n = next_queue_pos i ∨ ahead i1 n) as Hah.
      { intros n o' Hn Ha. pose proof (ahead_next _ _ _ Hn Ha). destruct (decide (n = next_queue_pos i)); [by left|right].
        intros p. cbn. intros [= <-]. lia. }
      destruct found.
      * destruct Hadv as (p & o2 & ob2 & ? & ? & ? & ? & ? & ? & Hskip). exists p, o2, ob2. split_and!; try done.
        intros n o' Hn Ha Hnp'. destruct (Hah n o' Hn Ha) as [->|Ha']; [|by eapply (Hskip n)].
        exists ob. cbn in Hn. split; [congruence|done].
      * destruct Hadv as [? Hskip]. split; [done|].
        intros n o' Hn Ha. destruct (Hah n o' Hn Ha) as [->|Ha']; [|by eapply (Hskip n)].
        exists ob. split; [congruence|done].
  - eexists. split; [done|]. split_and!; try done.
    intros n o' Hn Ha. pose proof (ahead_next _ _ _ Hn Ha). apply lookup_ge_None in Ho. apply lookup_lt_Some in Hn. lia.
Qed.
Lemma next_parent_spec it s i : iterators s !! it = Some i → (∀ o, o ∈ future_queue i → is_Some (objects s !! o)) →
  wp (next_parent it) (λ found s', ∃ i', s' = with_iterator it i' s ∧ Advanced s i found i') s.
Proof.
  intros Hi Hq. unfold next_parent. rewrite wp_bind, (wp_get_iterator it i) by done.
  apply next_parent_loop; [done..|lia].
Qed.

(** A walk moves: what was ahead and is due stays ahead, up to the children in [hand']. *)
Lemma move_good calm derived ex hand hand' s it i i' : Good calm derived ex hand s → iterators s !! it = Some i →
  future_queue i' = future_queue i → started i' = started i → finished i' = finished i →
  (∀ o, current_parent i' = Some o → o ∈ future_queue i) →
  (calm = true → quiet s → finished i = false → if started i
    then ∃ p o, queue_pos i' = Some p ∧ future_queue i !! p = Some o ∧ current_parent i' = Some o
    else queue_pos i' = queue_pos i ∧ current_parent i' = current_parent i) →
  (∀ e c o k, (e, c) ∈ derived → due s e c → c ∉ hand' → child_of s e c o k → Remaining i o k → Remaining i' o k) →
  (∀ c, c ∈ hand → c ∈ hand') →
  Good calm derived ex hand' (with_iterator it i' s).
Proof.
  intros [Hwf Hch] Hi Eq Es Ef Hcur Hpos Hrem Hhand. split.
  - by eapply wf_with_iterator.
  - intros Hc Hq. specialize (Hch Hc Hq). specialize (Hpos Hc Hq).
    constructor; try apply Hch; cbn.
    + intros e c Hd Hh Hdue. assert (c ∉ hand) as Hh' by auto.
      destruct (ch_due _ _ _ _ Hch e c Hd Hh' Hdue) as [?|[?|(o & k & Hcn & [?|(it' & i2 & Hi2 & Hf2 & Hr)])]]; auto.
      * right; right. exists o, k. auto.
      * right; right. exists o, k. split; [done|]. right. destruct (decide (it' = it)) as [->|].
        -- exists it, i'. rewrite lookup_insert_eq. assert (i2 = i) as -> by congruence. split_and!; [done|congruence|].
           by apply (Hrem e c).
        -- exists it', i2. by rewrite lookup_insert_ne.
    + intros it' i2 [[<- <-]|[_ Hi2]]%lookup_insert_Some Hf; [|by apply (ch_worker _ _ _ _ Hch it' i2)].
      apply (ch_worker _ _ _ _ Hch it i Hi). congruence.
    + intros j b it' Hj Hb. destruct (ch_busy _ _ _ _ Hch j b it' Hj Hb) as (i2 & Hi2 & Hf2 & Hs2).
      destruct (decide (it' = it)) as [->|]; [|exists i2; by rewrite lookup_insert_ne].
      exists i'. rewrite lookup_insert_eq. assert (i2 = i) as -> by congruence. split_and!; [done|congruence|congruence].
    + intros it' i2 [[<- <-]|[_ Hi2]]%lookup_insert_Some Hf; [|by apply (ch_position _ _ _ _ Hch it')].
      rewrite Es, Eq. rewrite Ef in Hf. specialize (Hpos Hf). destruct (started i) eqn:Hs; [done|].
      pose proof (ch_position _ _ _ _ Hch it i Hi Hf) as Hold. rewrite Hs in Hold.
      destruct Hpos as [-> ->]. exact Hold.
Qed.

Lemma jobs_evolves m s : Evolves s (set_jobs m s).
Proof.
  constructor; cbn; try done; [eauto|]. intros o' ob Ho. exists ob. split_and!; try done.
  intros l ->. exists []. by rewrite app_nil_r.
Qed.

(** ** The end of a turn *)
Lemma escape_good calm derived x s : Wf derived s →
  wp (emit (EEscaped x)) (λ _ s', Good calm derived [] [] s' ∧ Evolves s s' ∧ events s' = events s) s.
Proof.
  intros Hwf. unfold emit. rewrite wp_modify. pose proof (effects_same [EEscaped x] s) as Hs. split_and!; [|apply Hs|done].
  destruct (good_same false derived [] [] _ _ Hs) as [Hwf' _]; [by split|]. split; [done|].
  intros _ Hq. destruct (Hq x). cbn. set_solver.
Qed.

Lemma fut_leave_spec calm derived j b thrown s : Good calm derived [] [] s → jobs s !! j = Some b →
  (calm = true → quiet s → works_on b = None) → (∀ e c, (e, c) ∈ derived → due s e c → ¬ holds b e c) →
  wp (leave j thrown) (λ _ s', Good calm derived [] [] s' ∧ Evolves s s' ∧ events s' = events s) s.
Proof.
  intros HG Hj Hwo Hh. unfold leave. rewrite wp_bind, wp_modify.
  pose proof (delete_good _ _ _ _ _ _ _ HG Hj Hwo Hh) as HG1.
  destruct thrown as [x|].
  - eapply wp_mono; [eapply (escape_good calm derived x); apply HG1|]. intros _ s' (? & ? & ?).
    split_and!; [done|etrans; [apply jobs_evolves|done]|done].
  - rewrite wp_ret. split_and!; [done|apply jobs_evolves|done].
Qed.

Lemma handler_returned_spec calm derived j it b thrown s : Good calm derived [] [] s → jobs s !! j = Some b →
  works_on b = Some it → is_start b = false → (∀ e c, (e, c) ∈ derived → due s e c → ¬ holds b e c) →
  wp (handler_returned j it thrown) (λ _ s', Good calm derived [] [] s' ∧ Evolves s s' ∧ events s' = events s) s.
Proof.
  intros HG Hj Hwo Hst Hh. pose proof (wf_job _ _ (proj1 HG) j b Hj) as Hok.
  assert (is_Some (iterators s !! it)) as [i Hi].
  { destruct b; cbn in *; simplify_eq; try done. by apply Hok. }
  unfold handler_returned. destruct thrown as [x|].
  - rewrite wp_bind, (wp_upd_iterator it i) by done. unfold leave. rewrite wp_bind, wp_modify.
    assert (Wf derived (set_jobs (delete j (jobs s)) (with_iterator it (set_finished true i) s))) as Hwf.
    { apply (wf_jobs derived (with_iterator it (set_finished true i) s)).
      - eapply wf_with_iterator; [apply HG|done|done|by apply (wf_iterator _ _ (proj1 HG) it i)].
      - intros j' b' [_ ?]%lookup_delete_Some. by left. }
    eapply wp_mono; [by eapply (escape_good calm derived x)|]. intros _ s' (? & ? & ?). split_and!; [done| |done].
    etrans; [apply (with_iterator_evolves it (set_finished true i))|]. etrans; [apply jobs_evolves|done].
  - unfold set_job. rewrite wp_modify. split_and!; [|apply jobs_evolves|done].
    eapply replace_good; [done|done|done|done|cbn; eauto|]. intros e c Hd Hdue _ [Hb|Hin]; [by destruct (Hh e c)|set_solver].
Qed.

(** ** A turn of the loop *)
Lemma get_current_data_spec it i s (Φ : option (nat * nat) → state → Prop) : iterators s !! it = Some i →
  (∀ o, current_parent i = Some o → is_Some (objects s !! o)) →
  (∀ r, match r with
    | Some (o, c) => ∃ ob, current_parent i = Some o ∧ objects s !! o = Some ob ∧
        default [] (child_futures ob) !! child_pos i = Some c
    | None => ∀ o ob, current_parent i = Some o → objects s !! o = Some ob →
        default [] (child_futures ob) !! child_pos i = None
    end → Φ r s) →
  wp (future_iterator_get_current_data it) Φ s.
Proof.
  intros Hi Ho HΦ. unfold future_iterator_get_current_data. rewrite wp_bind, (wp_get_iterator it i) by done.
  destruct (current_parent i) as [o|] eqn:Hc.
  - destruct (Ho o eq_refl) as [ob Hob]. rewrite wp_bind, (wp_get_object o ob) by done. rewrite wp_ret. apply HΦ.
    destruct (default [] (child_futures ob) !! child_pos i) as [c|] eqn:Hl; cbn; [eauto|]. intros o' ob' [= <-] ?. congruence.
  - rewrite wp_ret. apply HΦ. done.
Qed.

(** The walk [i1] is at a child of its parent; what was ahead of [i] is ahead of it. *)
Definition At s (i i1 : future_iterator_t) (o c : nat) (ob : async_future_t) : Prop :=
  current_parent i1 = Some o ∧ objects s !! o = Some ob ∧ default [] (child_futures ob) !! child_pos i1 = Some c ∧
  (i1 = i ∨ (∀ o' ob', current_parent i = Some o' → objects s !! o' = Some ob' →
        default [] (child_futures ob') !! child_pos i = None) ∧ Advanced s i true i1).
(** The walk is at its end. *)
Definition AtEnd s (i i1 : future_iterator_t) : Prop :=
  (∀ o' ob', current_parent i = Some o' → objects s !! o' = Some ob' →
        default [] (child_futures ob') !! child_pos i = None) ∧ Advanced s i false i1.

Lemma valid_spec derived it i s : Wf derived s → iterators s !! it = Some i →
  wp (valid ← future_iterator_valid it; current ← future_iterator_get_current_data it; mret (valid, current))
    (λ r s', ∃ i1, s' = with_iterator it i1 s ∧ match r with
      | (true, Some (o, c)) => ∃ ob, At s i i1 o c ob
      | _ => AtEnd s i i1
      end) s.
Proof.
  intros Hwf Hi. destruct (wf_iterator _ _ Hwf it i Hi) as [Hq Hcur].
  assert (∀ o, o ∈ future_queue i → is_Some (objects s !! o)) as Hex.
  { intros o Ho. destruct (Hq o Ho) as (ob & ? & _). eauto. }
  unfold future_iterator_valid. rewrite !wp_bind. apply (get_current_data_spec it i); [done|auto|].
  intros [[o c]|] Hr.
  - rewrite wp_ret, wp_bind. apply (get_current_data_spec it i); [done|auto|]. intros r Hr2. rewrite wp_ret.
    destruct Hr as (ob & Ho & Hob & Hl). exists i. split.
    { unfold with_iterator. rewrite insert_id by done. by destruct s. }
    destruct r as [[o2 c2]|]; [|by rewrite (Hr2 _ _ Ho Hob) in Hl].
    destruct Hr2 as (ob2 & Ho2 & Hob2 & Hl2). simplify_eq. exists ob. split_and!; auto.
  - eapply wp_mono; [by apply next_parent_spec|]. intros found s' (i1 & -> & Hadv). rewrite wp_bind.
    assert (future_queue i1 = future_queue i) as Eq by apply Hadv.
    apply (get_current_data_spec it i1); [apply with_iterator_eq| |].
    + intros o Ho. apply Hex. destruct found.
      * destruct Hadv as (_ & _ & _ & _ & p & o2 & ob2 & _ & Hl & Ho2 & _). assert (o2 = o) as -> by congruence.
        by eapply list_elem_of_lookup_2.
      * destruct Hadv as (_ & _ & _ & _ & Hn & _). congruence.
    + intros r Hr2. rewrite wp_ret. exists i1. split; [done|]. destruct found; [|by split].
      pose proof Hadv as (_ & _ & _ & _ & p & o2 & ob2 & _ & _ & Ho2 & Hp2 & Hob2 & Hch & _). cbn in Hr2.
      destruct r as [[o c]|].
      * destruct Hr2 as (ob & ? & ? & ?). exists ob. split_and!; auto.
      * specialize (Hr2 _ _ Ho2 Hob2). rewrite Hp2 in Hr2. unfold has_children in Hch.
        destruct (child_futures ob2) as [[|]|]; cbn in *; done.
Qed.

Lemma childless_child s e c o k : childless s o → ¬ child_of s e c o k.
Proof. intros (ob & Ho & Hc) (ob2 & Ho2 & _ & Hl). simplify_eq. by rewrite (has_children_spec _ Hc) in Hl. Qed.
Lemma passed_child s i e c o k : (∀ o' ob', current_parent i = Some o' → objects s !! o' = Some ob' →
    default [] (child_futures ob') !! child_pos i = None) → current_parent i = Some o → child_pos i ≤ k → ¬ child_of s e c o k.
Proof.
  intros Hn Ho Hk (ob & Hob & _ & Hl). apply lookup_lt_Some in Hl. specialize (Hn o ob Ho Hob).
  apply lookup_ge_None in Hn. lia.
Qed.

Lemma at_end_remaining s i i1 e c o k : AtEnd s i i1 → child_of s e c o k → ¬ Remaining i o k.
Proof.
  intros (Hn & _ & _ & _ & _ & _ & Hskip) Hc [[? ?]|(n & Hn' & Ha)]; [by eapply passed_child|].
  by eapply childless_child; [eapply Hskip|].
Qed.
Lemma at_remaining s i i1 o c ob e' c' o' k : At s i i1 o c ob → c' ≠ c → child_of s e' c' o' k → Remaining i o' k →
  Remaining (set_child_pos (S (child_pos i1)) i1) o' k.
Proof.
  intros (Hcur & Hob & Hl & Hadv) Hne Hc Hr.
  assert (∀ k, child_of s e' c' o k → child_pos i1 ≠ k) as Hpos.
  { intros k' (ob2 & Hob2 & _ & Hl2) <-. congruence. }
  destruct Hadv as [->|[Hn (Eq & _ & _ & _ & p & o2 & ob2 & Hp & Hlo & Ho2 & Hp0 & Hob2 & Hch & Hskip)]].
  - destruct Hr as [[Ho Hk]|?]; [left|by right]. cbn. split; [done|]. assert (o' = o) as -> by congruence.
    specialize (Hpos k Hc). lia.
  - destruct Hr as [[? ?]|(n & Hln & Ha)]; [by destruct (passed_child s i e' c' o' k)|].
    destruct (decide (n < p)) as [|Hge].
    { by destruct (childless_child s e' c' o' k (Hskip n o' Hln Ha ltac:(done))). }
    destruct (decide (n = p)) as [->|].
    + assert (o' = o) as -> by congruence. left. cbn. split; [done|]. specialize (Hpos k Hc). lia.
    + right. exists n. cbn. rewrite Eq. split; [done|]. intros p' Hp'. assert (p' = p) by congruence. lia.
Qed.
End walk.
