(* ===== verification/FutureSteps.v ===== *)
(** * The steps of a system of futures keep its invariant

    One lemma per operation: it has no undefined behaviour, keeps [Good] and [Pending],
    and completes only the events that it names ([Stepped], [Settles]). *)

From S2P Require Import Prelude Future FutureProofs FutureWalk.
From stdpp Require Import tactics.

Local Open Scope nat_scope.

Section steps.
Context {V X : Type} `{FutureMacrosSpec V X} (php_null : V) (set_previous : X → X → X).
Abbreviation state := (futures_t V X).
Implicit Types (s : state) (e o c j it : nat).

(** ** What a step settles *)
Definition consistent (ty : async_future_mapper_type_t) (p : zend_future_t V X) (fb : option X) (r : option (called V X)) : Prop :=
  match r with
  | None => calls ty p = false ∧ fb = exception p
  | Some _ => calls ty p = true ∧ fb = fallback_of ty p
  end.
Definition same_completed s s' : Prop := ∀ e f f', events s !! e = Some f → events s' !! e = Some f' → completed f' = completed f.

(** A step completes no future, or the one of a child of a completed source, with the
    outcome that the source and the mapper determine; [answer e c]: what the mapper of
    the child [c] of [e] did in this step, if the step is the end of its call. *)
Definition Settles (answer : nat → nat → option (called V X)) (derived : list (nat * nat)) s s' : Prop :=
  same_completed s s' ∨
  ∃ e c ob p, (e, c) ∈ derived ∧ objects s !! c = Some ob ∧ events s !! e = Some p ∧ completed p = true ∧
    closes_only (eq (event ob)) s s' ∧
    ∀ f f', events s !! event ob = Some f → events s' !! event ob = Some f' → completed f = false →
      ∃ fb, consistent (mapper_type ob) p fb (answer e c) ∧
        outcome f' = finished_outcome php_null set_previous (mapper_type ob) p fb (answer e c).
(** No mapper ended its call. *)
Definition silent (e c : nat) : option (called V X) := None.

Definition Stepped answer (calm : bool) (derived : list (nat * nat)) s s' : Prop :=
  Good calm derived [] [] s' ∧ Evolves s s' ∧ (Pending s → Pending s') ∧ Settles answer derived s s'.

Lemma same_completed_events s s' : events s' = events s → same_completed s s'.
Proof. intros Heq e f f' He He'. rewrite Heq in He'. congruence. Qed.

(** ** Turns of the loop *)
Lemma evolves_good_step answer calm derived s s' s'' : Evolves s s' → pending_ok s s' → Settles answer derived s s' →
  Good calm derived [] [] s'' → Evolves s' s'' → events s'' = events s' → Stepped answer calm derived s s''.
Proof.
  intros Hev Hp Hs HG Hev2 Eev. split_and!; [done|by etrans|apply pending_ok_Pending; etrans; [done|by apply pending_same_events]|].
  destruct Hs as [Hs|(e & c & ob & p & ? & ? & ? & ? & Hcl & Hout)]; [left|right].
  - intros e f f' He He'. rewrite Eev in He'. by eapply Hs.
  - exists e, c, ob, p. split_and!; try done.
    + intros e' f f' He Hc He' Hc'. rewrite Eev in He'. by eapply Hcl.
    + intros f f' He He'. rewrite Eev in He'. by eapply Hout.
Qed.

(** The child of a job that has just been settled is not due. *)
Lemma settled_not_due s e c ob f : objects s !! c = Some ob → events s !! event ob = Some f → completed f = true → ¬ due s e c.
Proof. intros Ho He Hc [_ (ob' & f' & Ho' & He' & Hc')]. simplify_eq. congruence. Qed.

(** What [process_future_mapper] settles, when the state before differs only in walks. *)
Lemma processed_settles calm derived j walk e c ob p f s0 s r s' : events s = events s0 → objects s = objects s0 →
  (e, c) ∈ derived → objects s !! c = Some ob → events s !! e = Some p → completed p = true → events s !! event ob = Some f →
  Processed (eq (event ob)) php_null set_previous calm derived j walk e c ob p f s r s' →
  Good calm derived [] [] s' ∧ Evolves s s' ∧ pending_ok s s' ∧ Settles silent derived s0 s'.
Proof.
  intros Eev Eo Hd Hob He Hc Hf HP. destruct r as [thrown|].
  - destruct HP as (HG & Hk & Hcl & f' & Hf' & Hc' & Ho'). split_and!; [done|apply Hk|apply Hk|].
    right. exists e, c, ob, p. rewrite <- Eev, <- Eo. split_and!; try done.
    + intros e1 f1 f2 He1 Hc1 He2 Hc2. rewrite <- Eev in He1. by eapply (kp_closes _ _ _ Hk).
    + intros f1 f2 Hf1 Hf2 Hc1. simplify_eq. rewrite Hc1 in Ho'. exists (exception p).
      destruct Hcl as [?|?]; [|congruence]. by split; [split|].
  - destruct HP as (HG & Hev & Hp & _ & Hsame & _). split_and!; try done. left.
    intros e1 f1 f2 He1 He2. rewrite <- Eev in He1. by eapply Hsame.
Qed.

Lemma taken_good calm derived s j it i i1 o c ob : Good calm derived [] [] s → jobs s !! j = Some (JLoop it) →
  iterators s !! it = Some i → At s i i1 o c ob →
  Good calm derived [] [c] (with_iterator it (set_child_pos (S (child_pos i1)) i1) s).
Proof.
  intros HG Hj Hi Hat. destruct (wf_iterator _ _ (proj1 HG) it i Hi) as [_ Hcur].
  pose proof Hat as (Hc1 & Hob & Hl & Hadv).
  assert (future_queue i1 = future_queue i ∧ started i1 = started i ∧ finished i1 = finished i ∧ o ∈ future_queue i) as (Eq & Es & Ef & Hin).
  { destruct Hadv as [->|[_ (? & ? & ? & _ & p & o2 & ob2 & _ & Hlo & Ho2 & _)]]; [split_and!; auto|].
    split_and!; try done. assert (o2 = o) as -> by congruence. by eapply list_elem_of_lookup_2. }
  eapply (move_good calm derived [] []); try done.
  - intros o'. cbn. congruence.
  - intros Hcalm Hq Hfin. destruct (ch_busy _ _ _ _ (proj2 HG Hcalm Hq) j _ it Hj eq_refl) as (i' & Hi' & _ & Hst).
    assert (i' = i) as -> by congruence. rewrite Hst. cbn. destruct Hadv as [->|[_ (_ & _ & _ & _ & p & o2 & ob2 & ? & ? & ? & _)]].
    + pose proof (ch_position _ _ _ _ (proj2 HG Hcalm Hq) it i Hi Hfin) as Hp. by rewrite Hst in Hp.
    + eauto.
  - intros e' c' o' k Hd' Hdue Hne Hcn Hr. eapply (at_remaining s i i1 o c ob e' c' o' k); [done|set_solver|done|done].
  - intros ?. set_solver.
Qed.

Lemma turn_spec calm derived j it s : Good calm derived [] [] s → Pending s → jobs s !! j = Some (JLoop it) →
  wp (turn php_null set_previous j it) (λ _ s', Stepped silent calm derived s s') s.
Proof.
  intros HG HP Hj. destruct (wf_job _ _ (proj1 HG) j _ Hj) as [i Hi]. unfold turn.
  assert (∀ e c, ¬ holds (@JLoop X it) e c) as Hno by (intros e c [?|(? & ? & ?)]; done).
  rewrite wp_bind, (wp_get_iterator it i) by done. destruct (finished i) eqn:Hfin.
  { eapply wp_mono; [apply (fut_leave_spec calm derived j (JLoop it) None); try done; eauto|].
    - intros Hc Hq. destruct (ch_busy _ _ _ _ (proj2 HG Hc Hq) j _ it Hj eq_refl) as (? & ? & ? & _). congruence.
    - intros _ s' (HG' & Hev & Eev). apply (evolves_good_step silent calm derived s s s'); try done. left. by apply same_completed_events. }
  pose proof (valid_spec derived it i s (proj1 HG) Hi) as Hv. rewrite wp_bind in Hv.
  rewrite wp_bind. eapply wp_mono; [exact Hv|]. clear Hv. intros valid sv Hv. rewrite wp_bind in Hv.
  rewrite wp_bind. eapply wp_mono; [exact Hv|]. clear Hv sv. intros current sc (i1 & -> & Hr).
  assert (valid = true ∧ is_Some current ∨ AtEnd s i i1 ∧ (valid = true → current = None)) as [[-> [[o c] ->]]|[Hend Hno']].
  { destruct valid, current as [[? ?]|]; [by left; eauto|right; by split..]. }
  - destruct Hr as [ob Hat]. pose proof (taken_good _ _ _ _ _ _ _ _ _ _ HG Hj Hi Hat) as HG1.
    unfold future_iterator_move_forward. rewrite wp_bind, (wp_upd_iterator it i1) by apply with_iterator_eq.
    rewrite with_iterator_twice. set (i2 := set_child_pos _ i1) in *. set (s1 := with_iterator it i2 s) in *.
    destruct Hat as (Hcur & Hob & Hl & Hadv).
    rewrite wp_bind, (wp_get_object o ob) by done.
    assert (c ∈ default [] (child_futures ob)) as Hin by by eapply list_elem_of_lookup_2.
    pose proof (wf_child _ _ (proj1 HG) o ob c Hob Hin) as Hd.
    destruct (wf_object _ _ (proj1 HG) o ob Hob) as [_ Hex]. destruct (Hex c Hin) as [obc Hobc].
    destruct (wf_object _ _ (proj1 HG) c obc Hobc) as [[f Hf] _].
    destruct (wf_iterator _ _ (proj1 HG1) it i2) as [Hqi Hci]; [apply with_iterator_eq|].
    destruct (Hqi o (Hci o Hcur)) as (ob' & Hob' & p & Hp & Hcp). assert (ob' = ob) as -> by (unfold s1 in Hob'; cbn in Hob'; congruence).
    assert (finished i2 = false) as Hf2.
    { change (finished i1 = false). destruct Hadv as [->|[_ (_ & _ & -> & _)]]; done. }
    wp_apply (process_spec (eq (event obc)) php_null set_previous calm derived j (JLoop it) (Some it) (event ob) c obc p f); try done.
    { intros e' c' Hh. by destruct (Hno e' c' Hh). }
    { intros k [= <-]. split; [exists i2; apply with_iterator_eq|]. intros _ _. exists i2. split; [apply with_iterator_eq|done]. }
    intros r s2 HPr.
    pose proof (processed_settles calm derived j (Some it) (event ob) c obc p f s s1 r s2 eq_refl eq_refl Hd Hobc Hp Hcp Hf HPr)
      as (HG2 & Hev2 & Hp2 & Hset2).
    assert (Evolves s s2) as Hev by (etrans; [apply with_iterator_evolves|exact Hev2]).
    assert (pending_ok s s2) as Hpe by (etrans; [by apply (pending_same_events s s1)|done]).
    destruct r as [thrown|]; [|rewrite wp_ret; split_and!; [done|done|by apply pending_ok_Pending|done]].
    destruct HPr as (_ & Hk2 & _). 
    eapply wp_mono; [apply (handler_returned_spec calm derived j it (JLoop it) thrown); try done|].
    + eapply lookup_weaken; [|apply (kp_jobs _ _ _ Hk2)]. done.
    + intros _ s3 (HG3 & Hev3 & Eev3). by apply (evolves_good_step silent calm derived s s2 s3).
  - assert (wp (upd_iterator it (set_finished true);; leave j None) (λ _ s', Stepped silent calm derived s s') (with_iterator it i1 s)) as Hfinal.
    { rewrite wp_bind, (wp_upd_iterator it i1) by apply with_iterator_eq. rewrite with_iterator_twice.
      unfold leave. rewrite wp_bind, wp_modify, wp_ret.
      assert (Good calm derived [] [] (set_jobs (delete j (jobs s)) (with_iterator it (set_finished true i1) s))) as HG1.
      { destruct Hend as [Hn Hadv]. eapply (finish_good calm derived [] s j (JLoop it) it i); try done.
        - apply Hadv.
        - destruct Hadv as (_ & _ & _ & _ & Hc & _). intros o Ho. cbn in Ho. congruence.
        - intros _ _ e c o k _ _ Hcn. by eapply at_end_remaining. }
      split_and!; [done|etrans; [apply with_iterator_evolves|apply jobs_evolves]|by apply pending_ok_Pending, pending_same_events|].
      left. by apply same_completed_events. }
    destruct valid; [rewrite (Hno' eq_refl)|]; exact Hfinal.
Qed.

(** ** The start of a worker *)
Lemma start_good calm derived s j it i i' : Good calm derived [] [] s → jobs s !! j = Some (JStart it) →
  iterators s !! it = Some i → future_queue i' = future_queue i → finished i' = finished i →
  (∀ o, current_parent i' = Some o → o ∈ future_queue i) →
  (calm = true → quiet s → started i' = true ∧
    (∃ p o, queue_pos i' = Some p ∧ future_queue i !! p = Some o ∧ current_parent i' = Some o) ∧
    (∀ e c o k, child_of s e c o k → Remaining i o k → Remaining i' o k)) →
  Good calm derived [] [] (set_jobs (<[j := JLoop it]> (jobs s)) (with_iterator it i' s)).
Proof.
  intros [Hwf Hch] Hj Hi Eq Ef Hcur Hst. split.
  - apply (wf_jobs derived (with_iterator it i' s)); [by eapply wf_with_iterator|].
    intros j' b [[<- <-]|[_ ?]]%lookup_insert_Some; [right|by left]. split; [cbn; rewrite lookup_insert_eq; eauto|].
    apply (wf_next_job _ _ Hwf); eauto.
  - intros Hc Hq. specialize (Hch Hc Hq). destruct (Hst Hc Hq) as (Hs' & Hpos & Hrem). constructor; try apply Hch; cbn.
    + intros e c Hd Hh Hdue. destruct (ch_due _ _ _ _ Hch e c Hd Hh Hdue) as [[j1 Hj1]|[(j1 & walk & fb & Hj1)|(o & k & Hcn & Ho)]].
      * left. exists j1. rewrite lookup_insert_ne; [done|congruence].
      * right; left. exists j1, walk, fb. rewrite lookup_insert_ne; [done|congruence].
      * right; right. exists o, k. split; [done|]. destruct Ho as [?|(it' & i2 & Hi2 & Hf2 & Hr)]; [by left|right].
        destruct (decide (it' = it)) as [->|]; [|exists it', i2; by rewrite lookup_insert_ne].
        exists it, i'. rewrite lookup_insert_eq. assert (i2 = i) as -> by congruence. split_and!; [done|congruence|]. by eapply Hrem.
    + intros it' i2 [[<- <-]|[Hne Hi2]]%lookup_insert_Some Hf2; [exists j, (JLoop it); by rewrite lookup_insert_eq|].
      destruct (ch_worker _ _ _ _ Hch it' i2 Hi2 Hf2) as (j1 & b1 & Hj1 & Hb1). exists j1, b1. split; [|done].
      rewrite lookup_insert_ne; [done|]. intros Hjj. rewrite <- Hjj, Hj in Hj1. injection Hj1 as <-. cbn in Hb1. congruence.
    + intros j1 j2 b1 b2 it' Hj1 Hj2 Hb1 Hb2.
      assert (∀ j' b', <[j:=JLoop it]> (jobs s) !! j' = Some b' → works_on b' = Some it' →
        ∃ b0, jobs s !! j' = Some b0 ∧ works_on b0 = Some it') as Hinv.
      { intros j' b' [[<- <-]|[_ ?]]%lookup_insert_Some Hb'; eauto. }
      destruct (Hinv _ _ Hj1 Hb1) as (? & ? & ?), (Hinv _ _ Hj2 Hb2) as (? & ? & ?). by eapply (ch_unique _ _ _ _ Hch).
    + intros j1 b1 it' [[<- <-]|[Hne Hj1]]%lookup_insert_Some Hb1.
      * injection Hb1 as <-. exists i'. rewrite lookup_insert_eq. split_and!; [done| |done]. rewrite Ef.
        destruct (ch_busy _ _ _ _ Hch j _ it Hj eq_refl) as (i2 & ? & ? & _). congruence.
      * destruct (ch_busy _ _ _ _ Hch j1 b1 it' Hj1 Hb1) as (i2 & ? & ?). exists i2. rewrite lookup_insert_ne; [done|].
        intros <-. apply Hne. by eapply (ch_unique _ _ _ _ Hch).
    + intros it' i2 [[<- <-]|[Hne Hi2]]%lookup_insert_Some Hf2; [|by apply (ch_position _ _ _ _ Hch it')].
      by rewrite Hs', Eq.
Qed.

(** The first element of a queue is where a walk begins. *)
Lemma advanced_start s i found i' o q ob : Advanced s i found i' → queue_pos i = None → future_queue i = o :: q →
  objects s !! o = Some ob → has_children ob = true →
  queue_pos i' = Some 0 ∧ future_queue i !! 0 = Some o ∧ current_parent i' = Some o ∧ child_pos i' = 0.
Proof.
  intros (_ & _ & _ & _ & Hadv) Hp Hq Ho Hch.
  assert (∀ n, ahead i n) as Hah by (intros n p; congruence).
  assert (¬ childless s o) as Hn by (intros (ob' & ? & ?); congruence).
  destruct found.
  - destruct Hadv as (p & o' & ob' & ? & Hl & ? & ? & ? & ? & Hskip). destruct p as [|p].
    + rewrite Hq in Hl |- *. cbn in *. by simplify_eq.
    + destruct Hn. apply (Hskip 0); [by rewrite Hq|done|lia].
  - destruct Hadv as [_ Hskip]. destruct Hn. apply (Hskip 0); [by rewrite Hq|done].
Qed.

Lemma worker_settled answer calm derived s s' : Good calm derived [] [] s' → Evolves s s' → events s' = events s →
  Stepped answer calm derived s s'.
Proof. intros. split_and!; [done|done|by apply pending_ok_Pending, pending_same_events|left; by apply same_completed_events]. Qed.

Lemma fut_start_spec calm derived j it s : Good calm derived [] [] s → jobs s !! j = Some (JStart it) →
  wp (start j it) (λ _ s', Stepped silent calm derived s s') s.
Proof.
  intros HG Hj. destruct (wf_job _ _ (proj1 HG) j _ Hj) as [i Hi]. unfold start, set_job.
  destruct (wf_iterator _ _ (proj1 HG) it i Hi) as [Hqi Hci].
  rewrite wp_bind, (wp_get_iterator it i) by done. rewrite wp_bind, wp_when.
  assert (∀ i', future_queue i' = future_queue i → finished i' = finished i → (∀ o, current_parent i' = Some o → o ∈ future_queue i) →
    (calm = true → quiet s → started i' = true ∧
      (∃ p o, queue_pos i' = Some p ∧ future_queue i !! p = Some o ∧ current_parent i' = Some o) ∧
      (∀ e c o k, child_of s e c o k → Remaining i o k → Remaining i' o k)) →
    wp (modify (λ s, set_jobs (<[j:=JLoop it]> (jobs s)) s)) (λ _ s', Stepped silent calm derived s s') (with_iterator it i' s)) as Hend.
  { intros i' Eq Ef Hcur Hst. rewrite wp_modify. apply worker_settled; [exact (start_good _ _ _ _ _ _ _ HG Hj Hi Eq Ef Hcur Hst)| |done].
    etrans; [apply (with_iterator_evolves it i')|apply jobs_evolves]. }
  destruct (finished i) eqn:Hfin; cbn [negb].
  - rewrite wp_bind, wp_when, orb_true_r. cbn [negb].
    assert (with_iterator it i s = s) as Hid by (unfold with_iterator; rewrite insert_id by done; by destruct s).
    specialize (Hend i eq_refl Hfin Hci). rewrite Hid in Hend. apply Hend. intros Hc Hq.
    destruct (ch_busy _ _ _ _ (proj2 HG Hc Hq) j _ it Hj eq_refl) as (? & ? & ? & _). congruence.
  - rewrite (wp_upd_iterator it i) by done. rewrite wp_bind, wp_when. rewrite orb_false_r. destruct (started i) eqn:Hs; cbn [negb].
    { apply Hend; [done|done|done|]. intros Hc Hq.
      destruct (ch_busy _ _ _ _ (proj2 HG Hc Hq) j _ it Hj eq_refl) as (? & ? & ? & ?). congruence. }
    rewrite wp_bind, wp_upd_iterator by apply with_iterator_eq. unfold future_iterator_rewind.
    rewrite with_iterator_twice, wp_bind, wp_upd_iterator by apply with_iterator_eq. rewrite with_iterator_twice.
    set (i1 := set_queue_pos _ _). rewrite wp_bind.
    eapply wp_mono; [apply (next_parent_spec it _ i1); [apply with_iterator_eq|]|].
    { intros o Ho. destruct (Hqi o Ho) as (ob & ? & _). eauto. }
    intros found s' (i' & -> & Hadv). rewrite with_iterator_twice, wp_ret. pose proof Hadv as (Eq & Es & Ef & _ & Hpar).
    apply Hend; [done|by rewrite Ef| |].
    + intros o Ho. destruct found; [|destruct Hpar; congruence]. destruct Hpar as (p & o' & ob & _ & Hl & Ho' & _).
      assert (o' = o) as -> by congruence. by eapply list_elem_of_lookup_2.
    + intros Hc Hq. pose proof (ch_position _ _ _ _ (proj2 HG Hc Hq) it i Hi Hfin) as Hpos. rewrite Hs in Hpos.
      destruct Hpos as (Hp & Hcur & o & q & ob & Hque & Ho & Hch).
      destruct (advanced_start _ i1 found i' o q ob Hadv eq_refl Hque Ho Hch) as (Hp' & Hl' & Hc' & Hk'). split_and!; [done|eauto|].
      intros e c o' k Hcn [[? _]|(n & Hn & _)]; [congruence|]. destruct n as [|n].
      * left. change (future_queue i !! 0 = Some o) in Hl'. rewrite Hn in Hl'. injection Hl' as ->. split; [done|lia].
      * right. exists (S n). rewrite Eq. split; [done|]. intros p. rewrite Hp'. intros [= <-]. lia.
Qed.

(** ** A job goes on *)
Lemma single_spec calm derived j e c s : Good calm derived [] [] s → Pending s → jobs s !! j = Some (JSingle e c) →
  wp (done ← process_future_mapper php_null set_previous j None e c;
      match done with Some thrown => leave j thrown | None => mret tt end) (λ _ s', Stepped silent calm derived s s') s.
Proof.
  intros HG HP Hj. destruct (wf_job _ _ (proj1 HG) j _ Hj) as (Hd & (p & Hp & Hcp) & [ob Hob]).
  destruct (wf_object _ _ (proj1 HG) c ob Hob) as [[f Hf] _].
  assert (∀ e' c', holds (JSingle e c : job X) e' c' → e' = e ∧ c' = c) as Hh.
  { intros e' c' [[= -> ->]|(? & ? & ?)]; done. }
  wp_apply (process_spec (eq (event ob)) php_null set_previous calm derived j (JSingle e c) None e c ob p f); try done.
  { by apply good_hand_mono. }
  intros r s2 HPr.
  pose proof (processed_settles calm derived j None e c ob p f s s r s2 eq_refl eq_refl Hd Hob Hp Hcp Hf HPr) as (HG2 & Hev & Hpe & Hset).
  destruct r as [thrown|]; [|rewrite wp_ret; split_and!; [done|done|by apply pending_ok_Pending|done]]. destruct HPr as (_ & Hk & _ & f' & Hf' & Hcf' & _).
  eapply wp_mono; [apply (fut_leave_spec calm derived j (JSingle e c) thrown); try done|].
  - eapply lookup_weaken; [|apply (kp_jobs _ _ _ Hk)]. done.
  - intros e' c' _ Hdue Hh'. destruct (Hh _ _ Hh') as [-> ->].
    destruct (settled_not_due s2 e c ob f'); rewrite ?(kp_objects _ _ _ Hk); done.
  - intros _ s3 (HG3 & Hev3 & Eev3). by apply (evolves_good_step silent calm derived s s2 s3).
Qed.

(** Whether the end of the call of a mapper releases its value once. *)
Definition clean s (b : job X) (r : called V X) : Prop :=
  match b with
  | JMapping _ e c _ => ∀ p ob, events s !! e = Some p → objects s !! c = Some ob →
      twice_released (mapper_type ob) p (Some r) = false
  | _ => True
  end.
(** What a job that goes on knows of the mapper of a child. *)
Definition job_answer (b : option (job X)) (r : called V X) (e c : nat) : option (called V X) :=
  match b with
  | Some (JMapping _ e0 c0 _) => if decide ((e, c) = (e0, c0)) then Some r else None
  | _ => None
  end.

Lemma mapping_spec calm derived j walk e c fb r s : Good calm derived [] [] s → Pending s → jobs s !! j = Some (JMapping walk e c fb) →
  clean s (JMapping walk e c fb) r →
  wp (thrown ← mapper_finish php_null set_previous walk e c fb (Some r);
      match walk with Some it => handler_returned j it thrown | None => leave j thrown end)
    (λ _ s', Stepped (λ e' c', if decide ((e', c') = (e, c)) then Some r else None) calm derived s s') s.
Proof.
  intros HG HP Hj Hclean. destruct (wf_job _ _ (proj1 HG) j _ Hj) as (Hw & (Hd & (p0 & Hp0 & Hcp) & _) & p & ob & Hp & Hob & Hcall & Hfb).
  assert (p0 = p) as -> by congruence. destruct (wf_object _ _ (proj1 HG) c ob Hob) as [[f Hf] _].
  assert (∀ e' c', holds (JMapping walk e c fb) e' c' → e' = e ∧ c' = c) as Hh.
  { intros e' c' [?|(? & ? & ?)]; by simplify_eq. }
  wp_apply (mapper_finish_spec (eq (event ob)) php_null set_previous calm derived [] e p c ob f); try done.
  { by apply good_hand_mono. } { by intros; eapply HP. }
  { intros k Hk. split; [by apply Hw|]. intros Hc Hq.
    destruct (ch_busy _ _ _ _ (proj2 HG Hc Hq) j _ k Hj Hk) as (i & ? & ? & _). eauto. }
  { by eapply Hclean. }
  intros thrown s2 (HG2 & Hk & f' & Hf' & Hcf' & Ho').
  assert (jobs s2 !! j = Some (JMapping walk e c fb)) as Hj2 by (eapply lookup_weaken; [done|apply (kp_jobs _ _ _ Hk)]).
  assert (∀ e' c', (e', c') ∈ derived → due s2 e' c' → ¬ holds (JMapping walk e c fb) e' c') as Hdue.
  { intros e' c' _ Hdue Hh'. destruct (Hh _ _ Hh') as [-> ->].
    destruct (settled_not_due s2 e c ob f'); rewrite ?(kp_objects _ _ _ Hk); done. }
  set (answer := λ e' c', _).
  assert (Settles answer derived s s2) as Hset.
  { right. exists e, c, ob, p. split_and!; try done; [apply Hk|]. intros f1 f2 Hf1 Hf2 Hc1. simplify_eq. rewrite Hc1 in Ho'.
    exists (fallback_of (mapper_type ob) p). unfold answer. rewrite decide_True by done. by split; [split|]. }
  pose proof (kp_evolves _ _ _ Hk) as Hev. pose proof (kp_pending _ _ _ Hk) as Hpe.
  destruct walk as [it|].
  - eapply wp_mono; [by eapply (handler_returned_spec calm derived j it)|]. intros _ s3 (HG3 & Hev3 & Eev3).
    by apply (evolves_good_step answer calm derived s s2 s3).
  - eapply wp_mono; [by eapply (fut_leave_spec calm derived j)|]. intros _ s3 (HG3 & Hev3 & Eev3).
    by apply (evolves_good_step answer calm derived s s2 s3).
Qed.

Lemma run_job_spec calm derived j b r s : Good calm derived [] [] s → Pending s → jobs s !! j = Some b → clean s b r →
  wp (run_job php_null set_previous j r) (λ _ s', Stepped (job_answer (Some b) r) calm derived s s') s.
Proof.
  intros HG HP Hj Hclean. unfold run_job. rewrite wp_bind, wp_get, wp_bind, (wp_defined _ b) by done.
  destruct b as [it|it|e c|walk e c fb].
  - by apply fut_start_spec.
  - by apply turn_spec.
  - by apply single_spec.
  - by apply mapping_spec.
Qed.
Lemma run_job_clean j b r s x : jobs s !! j = Some b → run_job php_null set_previous j r s = Some x → clean s b r.
Proof.
  intros Hj Hx. destruct b as [it|it|e c|walk e c fb]; try done. intros p ob He Ho.
  unfold run_job in Hx. apply bind_run in Hx as (? & ? & [= <- <-] & Hx). apply bind_run in Hx as (b & ? & Hb & Hx).
  unfold of_option in Hb. rewrite Hj in Hb. injection Hb as <- <-. apply bind_run in Hx as (? & ? & Hx & _).
  by eapply mapper_finish_twice.
Qed.

(** A coroutine that is cancelled before it starts; the child of a single mapper, or the
    children that are left to a walk, are given up. *)
Lemma extended_dispose_spec derived j b s : Good false derived [] [] s → jobs s !! j = Some b →
  wp (extended_dispose j) (λ _ s', Stepped silent false derived s s') s.
Proof.
  intros HG Hj. unfold extended_dispose. rewrite wp_bind, wp_get, wp_bind, (wp_defined _ b), wp_bind by done.
  assert (∀ s1, Evolves s s1 → Wf derived s1 → jobs s1 = jobs s → events s1 = events s →
    wp (modify (λ s, set_jobs (delete j (jobs s)) s)) (λ _ s', Stepped silent false derived s s') s1) as Hend.
  { intros s1 Hev Hwf Ej Ee. rewrite wp_modify. apply worker_settled; [|etrans; [exact Hev|apply jobs_evolves]|done].
    split; [|done]. apply wf_jobs; [done|]. intros j' b' [_ ?]%lookup_delete_Some. by left. }
  pose proof (Hend s ltac:(done) (proj1 HG) eq_refl eq_refl) as Hsame.
  destruct b as [it|it|e c|walk e c fb]; [|by rewrite wp_ret..].
  unfold iterator_release_coroutine. rewrite wp_bind, wp_get, wp_when. destruct (_ <=? _); [|done].
  destruct (wf_job _ _ (proj1 HG) j _ Hj) as [i Hi]. rewrite (wp_upd_iterator it i) by done.
  apply Hend; [apply with_iterator_evolves| |done..].
  eapply wf_with_iterator; [apply HG|done|done|by apply (wf_iterator _ _ (proj1 HG) it i)].
Qed.

(** ** New names *)
Definition with_job b s : state := set_jobs (<[next s := b]> (jobs s)) (set_next (S (next s)) s).
Definition with_new_event s : state := set_events (<[next s := new_future]> (events s)) (set_next (S (next s)) s).
Definition with_new_object ob s : state := set_objects (<[next s := ob]> (objects s)) (set_next (S (next s)) s).

Lemma fresh_event derived s : Wf derived s → events s !! next s = None.
Proof. intros Hwf. apply eq_None_not_Some. intros ?%(wf_next_event _ _ Hwf). lia. Qed.
Lemma fresh_object derived s : Wf derived s → objects s !! next s = None.
Proof. intros Hwf. apply eq_None_not_Some. intros ?%(wf_next_object _ _ Hwf). lia. Qed.

Lemma with_job_evolves b s : Evolves s (with_job b s).
Proof.
  constructor; cbn; try done; [eauto|]. intros o' ob Ho. exists ob. split_and!; try done.
  intros l ->. exists []. by rewrite app_nil_r.
Qed.
Lemma with_new_event_evolves derived s : Wf derived s → Evolves s (with_new_event s).
Proof.
  intros Hwf. pose proof (fresh_event _ _ Hwf) as Hf. constructor; cbn; try done.
  - intros e f He. exists f. rewrite lookup_insert_ne by congruence. done.
  - intros o' ob Ho. exists ob. split_and!; try done. intros l ->. exists []. by rewrite app_nil_r.
Qed.
Lemma with_new_object_evolves derived ob s : Wf derived s → Evolves s (with_new_object ob s).
Proof.
  intros Hwf. pose proof (fresh_object _ _ Hwf) as Hf. constructor; cbn; try done; [eauto|].
  intros o' ob' Ho. exists ob'. rewrite lookup_insert_ne by congruence. split_and!; try done.
  intros l ->. exists []. by rewrite app_nil_r.
Qed.

Lemma wf_with_job derived b s : Wf derived s → job_ok derived b s → Wf derived (with_job b s).
Proof.
  intros Hwf Hok. pose proof (with_job_evolves b s) as Hev. destruct Hwf. constructor; try done; cbn.
  - intros e He%wf_next_event. lia.
  - intros e He%wf_next_object. lia.
  - intros e He%wf_next_iterator. lia.
  - intros j [<-|Hj%wf_next_job]%lookup_insert_is_Some'; lia.
  - intros j b' [[<- <-]|[_ Hj]]%lookup_insert_Some; (apply (job_ok_evolves _ s); [done|]); eauto.
Qed.
Lemma new_event_good calm derived s : Good calm derived [] [] s → Good calm derived [] [] (with_new_event s).
Proof.
  intros [Hwf Hch]. pose proof (with_new_event_evolves _ _ Hwf) as Hev. pose proof (fresh_event _ _ Hwf) as Hfr. split.
  - pose proof Hwf as []. assert (∀ e, is_Some (events s !! e) → is_Some (<[next s:=new_future]> (events s) !! e)) as Hdom.
    { intros e He. rewrite lookup_insert_is_Some'. by right. }
    constructor; try done; cbn.
    + intros e [<-|He%wf_next_event]%lookup_insert_is_Some'; lia.
    + intros e He%wf_next_object. lia.
    + intros e He%wf_next_iterator. lia.
    + intros e He%wf_next_job. lia.
    + intros o ob Ho. destruct (wf_object o ob Ho). auto.
    + intros e f o [[<- <-]|[_ He]]%lookup_insert_Some Ho; [by apply not_elem_of_nil in Ho|eauto].
    + intros it i Hi. destruct (wf_iterator it i Hi) as [Hq Hc]. split; [|done]. intros o Ho.
      destruct (Hq o Ho) as (ob & Hob & f & Hf & Hcf). exists ob. split; [done|]. exists f. by rewrite lookup_insert_ne by congruence.
    + intros j b Hj. apply (job_ok_evolves _ s); eauto.
    + intros e c Hd. destruct (wf_derived e c Hd). auto.
  - intros Hc Hq. specialize (Hch Hc Hq). constructor; try apply Hch; cbn.
    + intros e c f Hd [[<- <-]|[_ He]]%lookup_insert_Some Hcf; [|by apply (ch_subscribed _ _ _ _ Hch)].
      destruct (wf_derived _ _ Hwf _ _ Hd) as [[? ?] _]. congruence.
    + intros o ob f Ho Hcn [[Heq <-]|[_ He]]%lookup_insert_Some Hcf; [|by eapply (ch_subscriber _ _ _ _ Hch)].
      destruct (wf_object _ _ Hwf o ob Ho) as [[? ?] _]. congruence.
    + intros e c Hd Hh [(f & He & Hcf) (ob & f2 & Ho & He2 & Hc2)]. apply (ch_due _ _ _ _ Hch e c Hd Hh).
      cbn in He, Ho, He2.
      destruct (wf_derived _ _ Hwf _ _ Hd) as [[f3 Hf3] _], (wf_object _ _ Hwf c ob Ho) as [[f4 Hf4] _].
      rewrite lookup_insert_ne in He, He2 by congruence. split; [eauto|]. exists ob, f2. done.
Qed.
Lemma new_object_good calm derived ob s : Good calm derived [] [] s → is_Some (events s !! event ob) → child_futures ob = None →
  Good calm derived [] [] (with_new_object ob s).
Proof.
  intros [Hwf Hch] Hob Hn. pose proof (with_new_object_evolves _ ob _ Hwf) as Hev. pose proof (fresh_object _ _ Hwf) as Hfr.
  assert (∀ o ob', objects s !! o = Some ob' → <[next s:=ob]> (objects s) !! o = Some ob') as Hold.
  { intros o ob' Ho. rewrite lookup_insert_ne by congruence. done. }
  split.
  - pose proof Hwf as [].
    constructor; try done; cbn.
    + intros e He%wf_next_event. lia.
    + intros e [<-|He%wf_next_object]%lookup_insert_is_Some'; lia.
    + intros e He%wf_next_iterator. lia.
    + intros e He%wf_next_job. lia.
    + intros o ob' [[<- <-]|[_ Ho]]%lookup_insert_Some.
      * split; [done|]. rewrite Hn. intros ? Hin. by apply not_elem_of_nil in Hin.
      * destruct (wf_object o ob' Ho) as [? Hex]. split; [done|]. intros c [? Hc]%Hex. eauto.
    + intros e f o He Ho. destruct (wf_subscriber e f o He Ho) as (ob' & ? & ?). eauto.
    + intros it i Hi. destruct (wf_iterator it i Hi) as [Hq Hc]. split; [|done]. intros o Ho.
      destruct (Hq o Ho) as (ob' & Hob' & ?). eauto.
    + intros j b Hj. apply (job_ok_evolves _ s); eauto.
    + intros e c Hd. destruct (wf_derived e c Hd) as [? [? ?]]. eauto.
    + intros o ob' c [[<- <-]|[_ Ho]]%lookup_insert_Some Hin; [|eauto]. rewrite Hn in Hin. by apply not_elem_of_nil in Hin.
  - intros Hc Hq. specialize (Hch Hc Hq).
    assert (∀ e c o k, child_of s e c o k → child_of (with_new_object ob s) e c o k) as Hcn.
    { intros e c o k (ob' & Ho & ? & ?). exists ob'. cbn. auto. }
    constructor; try apply Hch; cbn.
    + intros e c f Hd He Hcf. destruct (ch_subscribed _ _ _ _ Hch e c f Hd He Hcf) as (o & k & ? & ?). eauto.
    + intros o ob' f [[<- <-]|[_ Ho]]%lookup_insert_Some Hcn' He Hcf; [done|]. by eapply (ch_subscriber _ _ _ _ Hch).
    + intros e c Hd Hh [Hsrc (ob' & f2 & Ho & He2 & Hc2)]. cbn in Ho. 
      destruct (wf_derived _ _ Hwf _ _ Hd) as [_ [ob2 Hob2]]. rewrite lookup_insert_ne in Ho by congruence.
      assert (due s e c) as Hdue by (split; [done|exists ob', f2; done]).
      destruct (ch_due _ _ _ _ Hch e c Hd Hh Hdue) as [?|[?|(o & k & ? & ?)]]; [by left|by right; left|right; right].
      exists o, k. auto.
    + intros it i Hi Hf. pose proof (ch_position _ _ _ _ Hch it i Hi Hf) as Hpos. destruct (started i); [done|].
      destruct Hpos as (? & ? & o & q & ob' & ? & ? & ?). eauto 10.
Qed.

(** A microtask of a walk that goes on spawns a second worker, which is not calm. *)
Lemma microtask_spec calm derived it i s : Good calm derived [] [] s → iterators s !! it = Some i →
  (calm = true → finished i = true) → wp (microtask it) (λ _ s', Stepped silent calm derived s s') s.
Proof.
  intros HG Hi Hc. unfold microtask. rewrite wp_bind, (wp_get_iterator it i) by done.
  rewrite wp_bind, (wp_upd_iterator it i) by done. set (i1 := set_queued _ i). rewrite wp_when.
  destruct (wf_iterator _ _ (proj1 HG) it i Hi) as [_ Hcur].
  destruct (finished i) eqn:Hfin; cbn [negb].
  - apply worker_settled; [|apply with_iterator_evolves|done].
    eapply (move_good calm derived [] [] []); try done. intros _ _ ?. congruence.
  - assert (calm = false) as -> by (destruct calm; [by specialize (Hc eq_refl)|done]).
    pose proof (wf_with_iterator derived it i i1 s (proj1 HG) Hi eq_refl Hcur) as Hwf1. set (s1 := with_iterator it i1 s) in *.
    change (Stepped silent false derived s (with_job (JStart it) s1)).
    apply worker_settled; [|etrans; [apply with_iterator_evolves|apply with_job_evolves]|done].
    split; [|done]. apply wf_with_job; [done|]. cbn. rewrite lookup_insert_eq. eauto.
Qed.

(** ** A new child *)
Lemma job_ok_extend derived d b s : job_ok derived b s → job_ok (d :: derived) b s.
Proof.
  destruct b as [it|it|e c|walk e c fb]; try done.
  - intros (? & ?). split; [by right|done].
  - intros (? & (? & ?) & ?). split_and!; [done|split; [by right|done]|done].
Qed.
Lemma wf_extend derived e c s : Wf derived s → is_Some (events s !! e) → is_Some (objects s !! c) →
  (∀ e', (e', c) ∉ derived) → Wf ((e, c) :: derived) s.
Proof.
  intros [] He Hc Hfr. constructor; try done.
  - intros j b Hj. apply job_ok_extend. eauto.
  - intros e' c' [[= -> ->]|?]%elem_of_cons; eauto.
  - intros e1 e2 c' H1 H2. apply elem_of_cons in H1 as [H1|H1], H2 as [H2|H2]; simplify_eq; [done| | |by eauto].
    + by destruct (Hfr _ H2).
    + by destruct (Hfr _ H1).
  - intros o ob c' Ho Hin. right. eauto.
Qed.

Lemma single_good calm derived e c p s : Good calm derived [] [] s → events s !! e = Some p → completed p = true →
  is_Some (objects s !! c) → (∀ e', (e', c) ∉ derived) → Good calm ((e, c) :: derived) [] [] (with_job (JSingle e c) s).
Proof.
  intros [Hwf Hch] He Hc Ho Hfr. pose proof (wf_extend _ e c _ Hwf (mk_is_Some _ _ He) Ho Hfr) as Hwf1. split.
  - apply wf_with_job; [done|]. split_and!; [by left|eauto|done].
  - intros Hcalm Hq. specialize (Hch Hcalm Hq). pose proof (fresh_job _ _ (next s) Hwf ltac:(lia)) as Hj. constructor; try apply Hch; cbn.
    + intros e' c' f [[= -> ->]|Hd]%elem_of_cons He' Hcf; [congruence|]. by apply (ch_subscribed _ _ _ _ Hch).
    + intros e' c' [[= -> ->]|Hd]%elem_of_cons Hh Hdue; [left; exists (next s); by rewrite lookup_insert_eq|].
      destruct (ch_due _ _ _ _ Hch e' c' Hd Hh Hdue) as [[j1 Hj1]|[(j1 & walk & fb & Hj1)|?]].
      * left. exists j1. rewrite lookup_insert_ne; [done|congruence].
      * right; left. exists j1, walk, fb. rewrite lookup_insert_ne; [done|congruence].
      * by right; right.
    + intros it i Hi Hf. destruct (ch_worker _ _ _ _ Hch it i Hi Hf) as (j1 & b1 & Hj1 & Hb1).
      exists j1, b1. rewrite lookup_insert_ne; [done|congruence].
    + intros j1 j2 b1 b2 it [[<- <-]|[_ Hj1]]%lookup_insert_Some [[<- <-]|[_ Hj2]]%lookup_insert_Some Hb1 Hb2; try done.
      by eapply (ch_unique _ _ _ _ Hch).
    + intros j1 b1 it [[<- <-]|[_ Hj1]]%lookup_insert_Some Hb1; [done|]. exact (ch_busy _ _ _ _ Hch j1 b1 it Hj1 Hb1).
Qed.

(** The child is appended to the children of its source, which subscribes first. *)
Definition with_child source (src : async_future_t) (f : zend_future_t V X) c s : state :=
  set_objects (<[source := set_child_futures (Some (default [] (child_futures src) ++ [c])) src]> (objects s))
    (if bool_decide (child_futures src = None)
     then with_event (event src) (set_resolve_callbacks (resolve_callbacks f ++ [source])) s else s).

Lemma with_child_evolves source src f c s : objects s !! source = Some src → Evolves s (with_child source src f c s).
Proof.
  intros Hs. etrans.
  - assert (Evolves s (if bool_decide (child_futures src = None)
      then with_event (event src) (set_resolve_callbacks (resolve_callbacks f ++ [source])) s else s)) as He; [|exact He].
    case_bool_decide; [|done]. constructor; cbn; try done.
    + intros e g He. destruct (decide (e = event src)) as [->|]; [rewrite lookup_alter_eq, He; by eexists|rewrite lookup_alter_ne by done; eauto].
    + intros o ob Ho. exists ob. split_and!; try done. intros l ->. exists []. by rewrite app_nil_r.
  - unfold with_child. set (s1 := if bool_decide _ then _ else s). assert (objects s1 = objects s) as Eo by (unfold s1; by case_bool_decide).
    constructor; cbn; try done; [eauto|]. rewrite Eo. intros o ob Ho. destruct (decide (o = source)) as [->|].
    + rewrite lookup_insert_eq. assert (ob = src) as -> by congruence. eexists. split_and!; try done.
      intros l Hl. rewrite Hl. by exists [c].
    + rewrite lookup_insert_ne by done. exists ob. split_and!; try done. intros l ->. exists []. by rewrite app_nil_r.
Qed.

Lemma with_child_event source src f c s e g : events s !! event src = Some f → events (with_child source src f c s) !! e = Some g →
  ∃ g0, events s !! e = Some g0 ∧ completed g = completed g0 ∧ outcome g = outcome g0 ∧
    (resolve_callbacks g = resolve_callbacks g0 ∨
     child_futures src = None ∧ e = event src ∧ resolve_callbacks g = resolve_callbacks g0 ++ [source]).
Proof.
  intros Hf Hg. unfold with_child in Hg. cbn in Hg. case_bool_decide; [|exists g; auto].
  unfold with_event in Hg. cbn in Hg. destruct (decide (e = event src)) as [->|].
  - rewrite lookup_alter_eq, Hf in Hg. cbn in Hg. simplify_eq. exists f. split_and!; auto.
  - rewrite lookup_alter_ne in Hg by done. exists g. auto.
Qed.
Lemma with_child_rest source src f c s : iterators (with_child source src f c s) = iterators s ∧
  jobs (with_child source src f c s) = jobs s ∧ next (with_child source src f c s) = next s.
Proof. unfold with_child. by case_bool_decide. Qed.
Lemma with_child_objects source src f c s :
  objects (with_child source src f c s) = <[source := set_child_futures (Some (default [] (child_futures src) ++ [c])) src]> (objects s).
Proof. done. Qed.
Lemma with_child_pending source src f c s : events s !! event src = Some f → Pending s → Pending (with_child source src f c s).
Proof.
  intros Hf HP e g He Hc. destruct (with_child_event _ _ _ _ _ _ _ Hf He) as (g0 & Hg0 & Hcg & -> & _).
  apply (HP e g0); [done|congruence].
Qed.

Lemma wf_with_child derived source src f c s : Wf ((event src, c) :: derived) s → objects s !! source = Some src →
  events s !! event src = Some f → is_Some (objects s !! c) →
  Wf ((event src, c) :: derived) (with_child source src f c s).
Proof.
  intros Hwf Hsrc Hf Hc. pose proof (with_child_evolves source src f c s Hsrc) as Hev.
  destruct (with_child_rest source src f c s) as (Ei & Ej & En). destruct Hwf.
  assert (∀ e, is_Some (events s !! e) → is_Some (events (with_child source src f c s) !! e)) as Hdom.
  { intros e [g Hg]. destruct (ev_event _ _ Hev _ _ Hg) as (? & ? & _). eauto. }
  assert (∀ o, is_Some (objects s !! o) → is_Some (objects (with_child source src f c s) !! o)) as Hdomo.
  { intros o [g Hg]. destruct (ev_object _ _ Hev _ _ Hg) as (? & ? & _). eauto. }
  constructor; rewrite ?Ei, ?Ej, ?En; try done.
  - intros e [g He]. destruct (with_child_event _ _ _ _ _ _ _ Hf He) as (g0 & Hg0 & _). eauto.
  - intros o. rewrite with_child_objects. intros [<-|?]%lookup_insert_is_Some'; eauto.
  - intros o ob. rewrite with_child_objects. intros [[<- <-]|[_ Ho]]%lookup_insert_Some.
    + destruct (wf_object source src Hsrc) as [? Hex]. split; [auto|]. cbn.
      intros c' [?| ->%list_elem_of_singleton]%elem_of_app; auto.
    + destruct (wf_object o ob Ho) as [? Hex]. split; auto.
  - intros e g o He Ho. destruct (with_child_event _ _ _ _ _ _ _ Hf He) as (g0 & Hg0 & _ & _ & Hr).
    assert (o ∈ resolve_callbacks g0 ∨ e = event src ∧ o = source) as [Hin|[-> ->]].
    { destruct Hr as [<-|(_ & -> & Hr)]; [by left|]. rewrite Hr in Ho. apply elem_of_app in Ho as [?| ->%list_elem_of_singleton]; auto. }
    + destruct (wf_subscriber e g0 o Hg0 Hin) as (ob & Hob & <-). destruct (ev_object _ _ Hev _ _ Hob) as (ob' & ? & ? & _). eauto.
    + rewrite with_child_objects, lookup_insert_eq. by eexists.
  - intros it i Hi. destruct (wf_iterator it i Hi) as [Hq Hcur]. split; [|done]. intros o Ho.
    destruct (Hq o Ho) as (ob & Hob & g & Hg & Hcg). destruct (ev_object _ _ Hev _ _ Hob) as (ob' & ? & Heq & _).
    exists ob'. split; [done|]. rewrite Heq. destruct (ev_event _ _ Hev _ _ Hg) as (g' & ? & H'). destruct (H' Hcg). eauto.
  - intros j b Hj. apply (job_ok_evolves _ s); eauto.
  - intros e c' Hd. destruct (wf_derived e c' Hd). auto.
  - intros o ob c'. rewrite with_child_objects. intros [[<- <-]|[_ Ho]]%lookup_insert_Some; [|eauto]. cbn.
    intros [?| ->%list_elem_of_singleton]%elem_of_app; [by eapply (wf_child source src)|by left].
Qed.

Lemma child_good calm derived source src f c s : Good calm derived [] [] s → objects s !! source = Some src →
  events s !! event src = Some f → completed f = false → is_Some (objects s !! c) → (∀ e', (e', c) ∉ derived) →
  Good calm ((event src, c) :: derived) [] [] (with_child source src f c s).
Proof.
  intros [Hwf Hch] Hsrc Hf Hcf Hc Hfr. pose proof (with_child_evolves source src f c s Hsrc) as Hev.
  split; [apply wf_with_child; [apply wf_extend|..]; eauto|].
  intros Hcalm Hq. specialize (Hch Hcalm (quiet_evolves _ _ Hev Hq)).
  destruct (with_child_rest source src f c s) as (Ei & Ej & En).
  assert (∀ e c' o k, child_of s e c' o k → child_of (with_child source src f c s) e c' o k) as Hcn.
  { intros e c' o k (ob & Ho & He & Hl). destruct (ev_object _ _ Hev _ _ Ho) as (ob' & Ho' & He' & _ & Hl').
    exists ob'. split_and!; [done|congruence|]. destruct (child_futures ob) as [l|]; [|done].
    destruct (Hl' l eq_refl) as [l' ->]. by apply lookup_app_l_Some. }
  constructor; rewrite ?Ei, ?Ej; try apply Hch.
  - intros e c' g Hd He Hcg. destruct (with_child_event _ _ _ _ _ _ _ Hf He) as (g0 & Hg0 & Hcg0 & _ & Hr).
    apply elem_of_cons in Hd as [[= -> ->]|Hd].
    + exists source, (length (default [] (child_futures src))). split.
      * eexists. rewrite with_child_objects, lookup_insert_eq. split_and!; [done..|]. cbn. by rewrite lookup_app_r, Nat.sub_diag by done.
      * assert (g0 = f) as -> by congruence. destruct (decide (child_futures src = None)) as [Hn|Hn].
        -- destruct Hr as [Hr|(_ & _ & ->)]; [|set_solver]. exfalso.
           unfold with_child in He. rewrite bool_decide_eq_true_2 in He by done. cbn in He. rewrite lookup_alter_eq, Hf in He.
           cbn in He. simplify_eq. cbn in Hr. apply (f_equal length) in Hr. rewrite length_app in Hr. cbn in Hr. lia.
        -- destruct Hr as [->|(? & _)]; [|done]. by eapply (ch_subscriber _ _ _ _ Hch source src).
    + destruct (ch_subscribed _ _ _ _ Hch e c' g0 Hd Hg0) as (o & k & Ho & Hin); [congruence|]. exists o, k. split; [auto|].
      destruct Hr as [->|(_ & _ & ->)]; set_solver.
  - intros o ob g. rewrite with_child_objects. intros Ho Hn He Hcg.
    destruct (with_child_event _ _ _ _ _ _ _ Hf He) as (g0 & Hg0 & Hcg0 & _ & Hr).
    assert (o ∈ resolve_callbacks g0 → o ∈ resolve_callbacks g) as Hin by (destruct Hr as [->|(_ & _ & ->)]; set_solver).
    apply lookup_insert_Some in Ho as [[<- <-]|[_ Ho]]; [|apply Hin; eapply (ch_subscriber _ _ _ _ Hch o ob); [done|done|done|congruence]].
    destruct (decide (child_futures src = None)) as [Hn'|Hn'].
    + destruct Hr as [Hr|(_ & _ & ->)]; [|set_solver]. exfalso.
      unfold with_child in He. rewrite bool_decide_eq_true_2 in He by done. cbn in He. rewrite lookup_alter_eq, Hf in He.
      cbn in He, Hg0. simplify_eq. cbn in Hr. apply (f_equal length) in Hr. rewrite length_app in Hr. cbn in Hr. lia.
    + apply Hin. by eapply (ch_subscriber _ _ _ _ Hch source src); [..|congruence].
  - intros e c' Hd Hh [(g & He & Hcg) (ob & f2 & Ho & He2 & Hc2)].
    destruct (with_child_event _ _ _ _ _ _ _ Hf He) as (g0 & Hg0 & Hcg0 & _).
    destruct (with_child_event _ _ _ _ _ _ _ Hf He2) as (g2 & Hg2 & Hcg2 & _).
    assert (e = event src → False) as Hne by (intros ->; congruence).
    apply elem_of_cons in Hd as [[= -> ->]|Hd]; [done|].
    assert (due s e c') as Hdue.
    { split; [exists g0; split; [done|congruence]|]. rewrite with_child_objects in Ho.
      destruct (decide (c' = source)) as [->|]; [rewrite lookup_insert_eq in Ho|rewrite lookup_insert_ne in Ho by done].
      - simplify_eq. exists src, g2. split_and!; [done|done|congruence].
      - exists ob, g2. split_and!; [done|done|congruence]. }
    destruct (ch_due _ _ _ _ Hch e c' Hd Hh Hdue) as [?|[?|(o & k & ? & ?)]]; [by left|by right; left|right; right]. eauto.
  - intros it i Hi Hfin. pose proof (ch_position _ _ _ _ Hch it i Hi Hfin) as Hpos. destruct (started i); [done|].
    destruct Hpos as (? & ? & o & q & ob & ? & Ho & Hhc). split_and!; [done..|].
    rewrite with_child_objects. destruct (decide (o = source)) as [->|].
    + exists source, q. eexists. rewrite lookup_insert_eq. split_and!; [done|done|]. unfold has_children. cbn.
      by destruct (default [] (child_futures src)).
    + exists o, q, ob. by rewrite lookup_insert_ne by done.
Qed.

(** ** The operations of FutureState and Future *)
Definition Settled (e : nat) (v : option V * option X) s : Prop :=
  ∃ f, events s !! e = Some f ∧ completed f = true ∧ outcome f = v.

(** [complete], [error] and [cancel]: [g] is [set_result] or [set_exception]. *)
Lemma settle_open_spec calm derived e (f : zend_future_t V X) (out : option V * option X) (m : M state unit) s : events s !! e = Some f → completed f = false →
  wp m (λ _ s', Good calm derived [] [] s' ∧ Keeps (eq e) s s' ∧ ∃ f', events s' !! e = Some f' ∧ completed f' = true ∧
    outcome f' = if completed f then outcome f else out) s →
  wp m (λ _ s', Good calm derived [] [] s' ∧ Keeps (eq e) s s' ∧ Settled e out s') s.
Proof.
  intros He Hc Hm. eapply wp_mono; [exact Hm|]. intros _ s' (HG & Hk & f' & Hf' & Hc' & Ho). rewrite Hc in Ho.
  split_and!; [done|done|]. by exists f'.
Qed.
Lemma FutureState_complete_spec calm derived e f v s : Good calm derived [] [] s → Pending s → events s !! e = Some f →
  wp (FutureState_complete e v) (λ r s', Good calm derived [] [] s' ∧ Keeps (eq e) s s' ∧ r = negb (completed f) ∧
    if completed f then s' = s else Settled e (Some v, None) s') s.
Proof.
  intros HG HP He. unfold FutureState_complete. rewrite wp_bind, (wp_get_event e f) by done.
  destruct (completed f) eqn:Hc; [by rewrite wp_ret|]. rewrite wp_bind.
  eapply wp_mono; [by (apply (settle_open_spec calm derived e f (Some v, exception f)); [done|done|by apply fut_complete_spec])|].
  intros _ s' (HG' & Hk & HS). rewrite wp_ret. split_and!; try done.
  pose proof (HP e f He Hc) as Ho. injection Ho as _ Hx. by rewrite Hx in HS.
Qed.
Lemma FutureState_error_spec calm derived e f x s : Good calm derived [] [] s → Pending s → events s !! e = Some f →
  wp (FutureState_error e x) (λ r s', Good calm derived [] [] s' ∧ Keeps (eq e) s s' ∧ r = negb (completed f) ∧
    if completed f then s' = s else Settled e (None, Some x) s') s.
Proof.
  intros HG HP He. unfold FutureState_error. rewrite wp_bind, (wp_get_event e f) by done.
  destruct (completed f) eqn:Hc; [by rewrite wp_ret|]. rewrite wp_bind.
  eapply wp_mono; [by (apply (settle_open_spec calm derived e f (result f, Some x)); [done|done|by apply reject_spec])|].
  intros _ s' (HG' & Hk & HS). rewrite wp_ret. split_and!; try done.
  pose proof (HP e f He Hc) as Ho. injection Ho as Hr _. by rewrite Hr in HS.
Qed.
Lemma Future_cancel_spec calm derived o ob f x s : Good calm derived [] [] s → Pending s → objects s !! o = Some ob →
  events s !! event ob = Some f →
  wp (Future_cancel o x) (λ _ s', Good calm derived [] [] s' ∧ Keeps (eq (event ob)) s s' ∧
    if completed f then s' = s else Settled (event ob) (None, Some x) s') s.
Proof.
  intros HG HP Ho He. unfold Future_cancel. rewrite wp_bind, (wp_get_object o ob), wp_bind, (wp_get_event _ f) by done.
  destruct (completed f) eqn:Hc; [by rewrite wp_ret|].
  eapply wp_mono; [by apply (settle_open_spec calm derived (event ob) f (result f, Some x)); [done|done|apply reject_spec]|].
  intros _ s' (HG' & Hk & HS). split_and!; try done.
  pose proof (HP _ f He Hc) as Heq. injection Heq as Hr _. by rewrite Hr in HS.
Qed.

Lemma same_settles answer derived s s' : Same s s' → Settles answer derived s s'.
Proof.
  intros Hs. left. intros e f f' He He'. destruct (Same_event _ _ _ _ Hs He') as (g & ? & ? & _). congruence.
Qed.
Lemma callbacks_flags_only (f : zend_future_t V X) l : flags_only (set_callbacks l) f.
Proof. done. Qed.
Lemma Future_await_spec calm derived o ob f k s : Good calm derived [] [] s → objects s !! o = Some ob →
  events s !! event ob = Some f →
  wp (Future_await o k) (λ r s', Stepped silent calm derived s s' ∧ r = if completed f then Some (outcome f) else None) s.
Proof.
  intros HG Ho He. unfold Future_await. rewrite wp_bind, (wp_get_object o ob) by done. rewrite wp_bind, wp_upd_event.
  rewrite wp_bind, (wp_get_event _ (set_used true f)) by (by apply with_event_eq).
  set (s1 := with_event _ _ s). assert (Same s s1) as H1 by (by apply upd_event_same).
  assert (pending_ok s s1) as HP1 by (by apply pending_event).
  assert (∀ g, (∀ f : zend_future_t V X, flags_only g f ∧ outcome (g f) = outcome f) →
    Same s (with_event (event ob) g s1) ∧ pending_ok s (with_event (event ob) g s1)) as H2.
  { intros g Hg. split; [etrans; [done|]; apply upd_event_same; intros; apply Hg|].
    etrans; [done|]. apply pending_event. intros f' Hc'. destruct (Hg f') as ((? & _) & ?). split; congruence. }
  assert (∀ s', Same s s' → pending_ok s s' → Stepped silent calm derived s s') as Hend.
  { intros s' Hs Hp. split_and!; [by eapply good_same|apply Hs|by apply pending_ok_Pending|by apply same_settles]. }
  change (completed (set_used true f)) with (completed f). destruct (completed f).
  - rewrite wp_bind, wp_when. destruct (bool_decide _); rewrite ?wp_upd_event, wp_ret; split; try done; auto.
    destruct (H2 (set_exception_caught true)) as [? ?]; [done|]. auto.
  - rewrite wp_bind, wp_upd_event, wp_ret. split; [|done]. destruct (H2 (set_callbacks (callbacks (set_used true f) ++ [k]))) as [? ?]; [done|]. auto.
Qed.

Lemma with_new_event_pending s : Pending s → Pending (with_new_event s).
Proof. intros HP e f He Hc. cbn in He. apply lookup_insert_Some in He as [[_ <-]|[_ He]]; [done|by eapply HP]. Qed.
Lemma new_same_completed derived s : Wf derived s → same_completed s (with_new_event s).
Proof. intros Hwf e f f' He He'. cbn in He'. rewrite lookup_insert_ne in He' by (pose proof (fresh_event _ _ Hwf); congruence). congruence. Qed.

Lemma async_new_future_spec calm derived s : Good calm derived [] [] s →
  wp async_new_future (λ e s', e = next s ∧ s' = with_new_event s ∧ Stepped silent calm derived s s') s.
Proof.
  intros HG. change (next s = next s ∧ with_new_event s = with_new_event s ∧ Stepped silent calm derived s (with_new_event s)).
  split; [done|]. split; [done|]. split; [by apply new_event_good|]. split; [by eapply with_new_event_evolves, HG|].
  split; [by apply with_new_event_pending|].
  left. by eapply new_same_completed, HG.
Qed.
Lemma async_new_future_obj_spec calm derived e m ty s : Good calm derived [] [] s → is_Some (events s !! e) →
  wp (async_new_future_obj e m ty) (λ o s', o = next s ∧ s' = with_new_object (mk_future_obj e None m ty) s ∧ Stepped silent calm derived s s') s.
Proof.
  intros HG He. set (ob := mk_future_obj e None m ty).
  change (next s = next s ∧ with_new_object ob s = with_new_object ob s ∧ Stepped silent calm derived s (with_new_object ob s)).
  split; [done|]. split; [done|]. split; [by apply new_object_good|]. split; [by eapply with_new_object_evolves, HG|].
  split; [done|].
  left. by apply same_completed_events.
Qed.

Lemma same_completed_trans s1 s2 s3 : Evolves s1 s2 → same_completed s1 s2 → same_completed s2 s3 → same_completed s1 s3.
Proof.
  intros Hev H1 H2 e f f' He He'. destruct (ev_event _ _ Hev _ _ He) as (f2 & He2 & _).
  rewrite (H2 e f2 f' He2 He'). by eapply H1.
Qed.
Lemma insert_alter {A} (m : gmap nat A) k a g : m !! k = Some a → alter g k m = <[k := g a]> m.
Proof.
  intros Hk. apply map_eq. intros k'. destruct (decide (k' = k)) as [->|].
  - by rewrite lookup_alter_eq, lookup_insert_eq, Hk.
  - by rewrite lookup_alter_ne, lookup_insert_ne.
Qed.

(** The last part of [async_future_create_mapper], for a source that is not completed. *)
Lemma subscribe_child source src (f : zend_future_t V X) c s (Φ : nat → state → Prop) : objects s !! source = Some src →
  Φ c (with_child source src f c s) →
  wp (when (bool_decide (child_futures src = None))
        (modify (λ s, set_objects (<[source := set_child_futures (Some []) src]> (objects s)) s);;
         upd_event (event src) (set_resolve_callbacks (resolve_callbacks f ++ [source])));;
      modify (λ s, set_objects (alter (λ ob, set_child_futures (Some (default [] (child_futures ob) ++ [c])) ob)
                                 source (objects s)) s);;
      mret c) Φ s.
Proof.
  intros Ho HΦ. rewrite wp_bind, wp_when. unfold with_child in HΦ. case_bool_decide as Hn.
  - rewrite wp_bind, wp_modify, wp_upd_event, wp_bind, wp_modify, wp_ret. revert HΦ. unfold with_event. cbn.
    rewrite (insert_alter _ source (set_child_futures (Some []) src)) by (cbn; apply lookup_insert_eq).
    rewrite insert_insert_eq, Hn. done.
  - rewrite wp_bind, wp_modify, wp_ret, (insert_alter _ source src) by done. done.
Qed.

Lemma async_future_create_mapper_spec calm derived source src m ty s : Good calm derived [] [] s → Pending s →
  objects s !! source = Some src →
  wp (async_future_create_mapper source m ty) (λ c s', c = S (next s) ∧ Stepped silent calm ((event src, c) :: derived) s s' ∧
    objects s' !! c = Some (mk_future_obj (next s) None m ty)) s.
Proof.
  intros HG HP Hsrc. unfold async_future_create_mapper. rewrite wp_bind, (wp_get_object source src) by done.
  wp_apply (async_new_future_spec calm derived); [done|]. intros e s1 (-> & -> & HG1 & Hev1 & HP1 & _).
  set (s1 := with_new_event s) in *. assert (events s1 !! next s = Some new_future) as Hnew by apply lookup_insert_eq.
  wp_apply (async_new_future_obj_spec calm derived); [done|eauto|]. intros c s2 (-> & -> & HG2 & Hev2 & HP2 & _).
  set (target := mk_future_obj (next s) None m ty) in *. set (s2 := with_new_object target s1) in *.
  destruct (wf_object _ _ (proj1 HG) source src Hsrc) as [[f0 Hf0] _].
  destruct (ev_event _ _ Hev1 _ _ Hf0) as (f1 & Hf1 & _).
  rewrite wp_bind, wp_upd_event. set (s3 := with_event (event src) (set_used true) s2).
  assert (Same s2 s3) as Hs3 by (by apply upd_event_same). assert (Good calm derived [] [] s3) as HG3 by (by eapply good_same).
  assert (Pending s3) as HP3 by (eapply pending_ok_Pending; [by apply pending_event|auto]).
  assert (events s3 !! event src = Some (set_used true f1)) as Hf3 by (by apply with_event_eq).
  rewrite wp_bind, (wp_get_event _ _ _ _ Hf3). set (f3 := set_used true f1) in *.
  assert (next s1 = S (next s)) as -> by done.
  assert (∀ e', (e', S (next s)) ∉ derived) as Hfr.
  { intros e' Hd. destruct (wf_derived _ _ (proj1 HG) _ _ Hd) as [_ Hex]. apply (wf_next_object _ _ (proj1 HG)) in Hex. lia. }
  assert (S (next s) ≠ source) as Hne.
  { assert (is_Some (objects s !! source)) as Hex by eauto. apply (wf_next_object _ _ (proj1 HG)) in Hex. lia. }
  assert (objects s3 !! S (next s) = Some target) as Hc3 by apply lookup_insert_eq.
  assert (objects s3 !! source = Some src) as Hsrc3.
  { cbn. by rewrite lookup_insert_ne. }
  assert (Evolves s s3) as Hev3 by (etrans; [exact Hev1|]; etrans; [exact Hev2|apply Hs3]).
  assert (same_completed s s3) as Hsc.
  { eapply (same_completed_trans s s1); [done|by eapply new_same_completed, HG|].
    intros e f f' He He'. destruct (Same_event _ _ _ _ Hs3 He') as (g & Hg & ? & _). change (events s2) with (events s1) in Hg. congruence. }
  destruct (completed f3) eqn:Hcf.
  - change (S (next s) = S (next s) ∧ Stepped silent calm ((event src, S (next s)) :: derived) s (with_job (JSingle (event src) (S (next s))) s3) ∧
      objects s3 !! S (next s) = Some target).
    split; [done|]. split; [|done]. split_and!; [by eapply single_good|etrans; [exact Hev3|apply with_job_evolves]|done|by left].
  - apply subscribe_child; [done|]. split; [done|]. split.
    + split_and!; [by apply child_good|etrans; [exact Hev3|by apply with_child_evolves]|intros _; by apply with_child_pending|].
      left. eapply (same_completed_trans s s3); [done|done|]. intros e f f' He He'.
      destruct (with_child_event _ _ _ _ _ _ _ Hf3 He') as (g & Hg & ? & _). congruence.
    + rewrite with_child_objects. by rewrite lookup_insert_ne.
Qed.
End steps.
