(* ===== verification/FutureTheorems.v ===== *)
(** * Theorems on futures and their chains

    A program creates futures, settles them, awaits them and chains them with [map],
    [catch] and [finally]; the coroutines of the chains run in any order.  Every step
    is defined, outcomes are final, a chained future gets the outcome that the
    reference [child_result] says, and every chain whose source is settled settles.
    Then behaviours that the code gets wrong. *)

From S2P Require Import Prelude Future FutureProofs FutureWalk FutureSteps.
From stdpp Require Import tactics.

Local Open Scope nat_scope.

(** What a program does with futures; [Run]: a coroutine of [src/future.c] goes on, and
    [r] is what its mapper did if it is inside one; [Dispose]: it is cancelled before it
    starts. *)
Inductive fut_op (V X : Type) :=
| NewFutureState
| NewFuture (e : nat)
| Complete (e : nat) (v : V)
| Error (e : nat) (x : X)
| Cancel (o : nat) (x : X)
| Await (o coroutine : nat)
| Derive (source m : nat) (ty : async_future_mapper_type_t)
| Run (j : nat) (r : called V X)
| Dispose (j : nat)
| Microtask (it : nat).
Arguments NewFutureState {V X}.
Arguments NewFuture {V X}.
Arguments Complete {V X}.
Arguments Error {V X}.
Arguments Cancel {V X}.
Arguments Await {V X}.
Arguments Derive {V X}.
Arguments Run {V X}.
Arguments Dispose {V X}.
Arguments Microtask {V X}.

(** The futures, with what is not kept by the code: the pairs of a source event and a
    child object, and the events of the FutureState objects. *)
Record system (V X : Type) := mk_system { futures : futures_t V X; derived : list (nat * nat); states : list nat }.
Arguments mk_system {V X}.
Arguments futures {V X}.
Arguments derived {V X}.
Arguments states {V X}.

Section system.
Context {V X : Type} `{FutureMacros V X} (php_null : V) (set_previous : X → X → X).
Abbreviation sys := (system V X).

Definition enabled (op : fut_op V X) (p : sys) : bool :=
  match op with
  | NewFutureState => true
  | NewFuture e | Complete e _ | Error e _ => bool_decide (e ∈ states p)
  | Cancel o _ | Await o _ | Derive o _ _ => bool_decide (is_Some (objects (futures p) !! o))
  | Run j _ => bool_decide (is_Some (jobs (futures p) !! j))
  | Dispose j => match jobs (futures p) !! j with Some (JStart _ | JSingle _ _) => true | _ => false end
  | Microtask it => match iterators (futures p) !! it with Some i => 0 <? queued i | None => false end
  end.

(** The operation of the code and the bookkeeping.  An object made by the constructor
    has no mapper. *)
Definition keep {A} (p : sys) (m : M (futures_t V X) A) : option sys :=
  r ← m (futures p); Some (mk_system r.2 (derived p) (states p)).
Definition exec (op : fut_op V X) (p : sys) : option sys :=
  match op with
  | NewFutureState => r ← async_new_future (futures p); Some (mk_system r.2 (derived p) (r.1 :: states p))
  | NewFuture e => keep p (async_new_future_obj e 0 ASYNC_FUTURE_MAPPER_SUCCESS)
  | Complete e v => keep p (FutureState_complete e v)
  | Error e x => keep p (FutureState_error e x)
  | Cancel o x => keep p (Future_cancel o x)
  | Await o k => keep p (Future_await o k)
  | Derive o m ty =>
    ob ← objects (futures p) !! o;
    r ← async_future_create_mapper o m ty (futures p);
    Some (mk_system r.2 ((event ob, r.1) :: derived p) (states p))
  | Run j r => keep p (run_job php_null set_previous j r)
  | Dispose j => keep p (extended_dispose j)
  | Microtask it => keep p (microtask it)
  end.

Definition no_futures : sys := mk_system (mk_futures ∅ ∅ ∅ ∅ 0 []) [] [].

(** In a calm run no walk gets a second coroutine, since the microtask of a walk runs when
    the walk is over, as it does when mappers do not suspend; and no coroutine of a chain
    is cancelled before it starts. *)
Definition calm_op (op : fut_op V X) (p : sys) : bool :=
  match op with
  | Microtask it => match iterators (futures p) !! it with Some i => finished i | None => true end
  | Dispose _ => false
  | _ => true
  end.

Fixpoint play (calm : bool) (ops : list (fut_op V X)) (p : sys) : option sys :=
  match ops with
  | [] => Some p
  | op :: ops => if enabled op p && (negb calm || calm_op op p) then p' ← exec op p; play calm ops p' else None
  end.
Definition fut_run (calm : bool) (ops : list (fut_op V X)) (p : sys) : Prop := play calm ops no_futures = Some p.

(** What the mapper of the child [c] of [e] did in the step [op], if the step is the end of
    its call. *)
Definition answered (op : fut_op V X) (p : sys) (e c : nat) : option (called V X) :=
  match op with Run j r => job_answer (jobs (futures p) !! j) r e c | _ => None end.
(** The step ends the call of a [finally] mapper of a source without a value, that is of
    one that was rejected, and the mapper returned a value with a reference count. *)
Definition releases_twice (op : fut_op V X) (p : sys) : bool :=
  match op with
  | Run j r =>
    match jobs (futures p) !! j with
    | Some (JMapping _ e c _) =>
      match events (futures p) !! e, objects (futures p) !! c with
      | Some source, Some ob => twice_released (mapper_type ob) source (Some r)
      | _, _ => false
      end
    | _ => false
    end
  | _ => false
  end.

(** ** The outcome of a child, from the outcome of its source and what its mapper did:
    [map] passes an exception on, [catch] a value, [finally] both. *)
Definition child_result (ty : async_future_mapper_type_t) (source : option V * option X) (r : option (called V X)) :
  option (option V * option X) :=
  let value v := Some (Some v, None) in
  let failure x := Some (None, Some x) in
  match ty, source, r with
  | ASYNC_FUTURE_MAPPER_SUCCESS, (_, None), Some (Returned w) => value w
  | ASYNC_FUTURE_MAPPER_SUCCESS, (_, None), Some (Thrown y) => failure y
  | ASYNC_FUTURE_MAPPER_SUCCESS, (_, Some x), None => failure x
  | ASYNC_FUTURE_MAPPER_CATCH, (v, None), None => value (default php_null v)
  | ASYNC_FUTURE_MAPPER_CATCH, (_, Some x), Some (Returned w) => value w
  | ASYNC_FUTURE_MAPPER_CATCH, (_, Some x), Some (Thrown y) => failure y
  | ASYNC_FUTURE_MAPPER_FINALLY, (v, None), Some (Returned w) => value (default w v)
  | ASYNC_FUTURE_MAPPER_FINALLY, (_, None), Some (Thrown y) => failure y
  | ASYNC_FUTURE_MAPPER_FINALLY, (_, Some x), Some (Returned w) => failure x
  | ASYNC_FUTURE_MAPPER_FINALLY, (_, Some x), Some (Thrown y) => failure (set_previous y x)
  | _, _, _ => None
  end.
End system.
Arguments no_futures {V X}.

Section theorems.
Context {V X : Type} `{FutureMacrosSpec V X} (php_null : V) (set_previous : X → X → X).
Abbreviation sys := (system V X).
Abbreviation does := (exec php_null set_previous).
Abbreviation plays := (play php_null set_previous).
Abbreviation runs := (fut_run php_null set_previous).
Implicit Types (p : sys).

(** The event of a child belongs to no FutureState and to no other child. *)
Definition private p : Prop := ∀ e c ob, (e, c) ∈ derived p → objects (futures p) !! c = Some ob →
  (event ob ∉ states p) ∧ ∀ e' c' ob', (e', c') ∈ derived p → objects (futures p) !! c' = Some ob' → event ob' = event ob → c' = c.
Record Inv (calm : bool) p : Prop := {
  inv_good : Good calm (derived p) [] [] (futures p);
  inv_pending : Pending (futures p);
  inv_states e : e ∈ states p → is_Some (events (futures p) !! e);
  inv_private : private p
}.

Lemma evolves_object derived0 (s s' : futures_t V X) e c ob : Wf derived0 s → Evolves s s' → (e, c) ∈ derived0 → objects s' !! c = Some ob →
  ∃ ob0, objects s !! c = Some ob0 ∧ event ob = event ob0 ∧ mapper_type ob = mapper_type ob0.
Proof.
  intros Hwf Hev Hd Ho. destruct (wf_derived _ _ Hwf _ _ Hd) as [_ [ob0 Ho0]]. exists ob0.
  destruct (ev_object _ _ Hev _ _ Ho0) as (ob' & ? & ? & ? & _). by simplify_eq.
Qed.

Lemma inv_keep calm p s' : Inv calm p → Evolves (futures p) s' → Good calm (derived p) [] [] s' → Pending s' →
  Inv calm (mk_system s' (derived p) (states p)).
Proof.
  intros [HG HP HS Hpr] Hev HG' HP'. constructor; try done; cbn.
  - intros e [f Hf]%HS. destruct (ev_event _ _ Hev _ _ Hf) as (? & ? & _). eauto.
  - intros e c ob Hd Ho. cbn in *. destruct (evolves_object _ _ _ e c ob (proj1 HG) Hev Hd Ho) as (ob0 & Ho0 & Heq & _).
    destruct (Hpr e c ob0 Hd Ho0) as [Hns Hu]. rewrite Heq. split; [done|]. intros e' c' ob' Hd' Ho' Heq'.
    destruct (evolves_object _ _ _ e' c' ob' (proj1 HG) Hev Hd' Ho') as (ob0' & Ho0' & ? & _). apply (Hu e' c' ob0'); [done|done|congruence].
Qed.

Lemma consistent_result ty (f : zend_future_t V X) fb r : consistent ty f fb r →
  child_result php_null set_previous ty (outcome f) r = Some (finished_outcome php_null set_previous ty f fb r).
Proof.
  destruct f as [fc fr fx fcb fs fh fca fu fi]. unfold consistent, calls, fallback_of, finished_outcome, rejection, returned, outcome.
  destruct ty, r as [[w|y]|], fx as [x|], fr as [v|]; cbn; intros [? Hfb]; subst; done.
Qed.

(** Why an event of a child was settled. *)
Definition Explained p (op : fut_op V X) (s' : futures_t V X) : Prop :=
  ∀ e c ob f f', (e, c) ∈ derived p → objects (futures p) !! c = Some ob → events (futures p) !! event ob = Some f →
    completed f = false → events s' !! event ob = Some f' → completed f' = true →
    (∃ o ob0 x, op = Cancel o x ∧ objects (futures p) !! o = Some ob0 ∧ event ob0 = event ob ∧ outcome f' = (None, Some x)) ∨
    ∃ source, events (futures p) !! e = Some source ∧ completed source = true ∧
      child_result php_null set_previous (mapper_type ob) (outcome source) (answered op p e c) = Some (outcome f').

Lemma settles_explained calm p op s' : Inv calm p →
  Settles php_null set_previous (answered op p) (derived p) (futures p) s' → Explained p op s'.
Proof.
  intros HI HS e c ob f f' Hd Ho Hf Hc Hf' Hc'. right.
  destruct HS as [Hs|(e0 & c0 & ob0 & q & Hd0 & Ho0 & Hq & Hcq & Hcl & Hout)].
  { specialize (Hs _ _ _ Hf Hf'). congruence. }
  pose proof (Hcl _ _ _ Hf Hc Hf' Hc') as Heq.
  assert (c0 = c) as -> by by apply (inv_private _ _ HI e c ob Hd Ho) with e0 ob0.
  assert (ob0 = ob) as -> by congruence. assert (e0 = e) as -> by by eapply (wf_unique _ _ (proj1 (inv_good _ _ HI))).
  destruct (Hout f f' Hf Hf' Hc) as (fb & Hcons & ->). exists q. split_and!; [done|done|]. by apply consistent_result.
Qed.
(** The futures that a FutureState settles are not those of children. *)
Lemma state_explained p op s' calm e : Inv calm p → e ∈ states p → Keeps (eq e) (futures p) s' → Explained p op s'.
Proof.
  intros HI He Hk e' c ob f f' Hd Ho Hf Hc Hf' Hc'. pose proof (kp_closes _ _ _ Hk _ _ _ Hf Hc Hf' Hc') as ->.
  by destruct (inv_private _ _ HI e' c ob Hd Ho) as [Hns _].
Qed.
Lemma cancel_explained p s' o ob0 x f0 : objects (futures p) !! o = Some ob0 → events (futures p) !! event ob0 = Some f0 →
  Keeps (eq (event ob0)) (futures p) s' → (if completed f0 then s' = futures p else Settled (event ob0) (None, Some x) s') →
  Explained p (Cancel o x) s'.
Proof.
  intros Ho0 Hf0 Hk HS e c ob f f' Hd Ho Hf Hc Hf' Hc'. pose proof (kp_closes _ _ _ Hk _ _ _ Hf Hc Hf' Hc') as Heq.
  left. exists o, ob0, x. split_and!; try done. rewrite <- Heq in *. assert (f0 = f) as -> by congruence. rewrite Hc in HS.
  destruct HS as (g & Hg & _ & <-). congruence.
Qed.

Lemma keep_run {A} p (m : M (futures_t V X) A) Φ : wp m Φ (futures p) →
  ∃ a s', keep p m = Some (mk_system s' (derived p) (states p)) ∧ Φ a s'.
Proof. intros (a & s' & Hm & HΦ)%wp_run. exists a, s'. unfold keep. by rewrite Hm. Qed.

Lemma not_twice_clean p j r b : releases_twice (Run j r) p = false → jobs (futures p) !! j = Some b → clean (futures p) b r.
Proof. cbn. intros Ht Hj. rewrite Hj in Ht. destruct b; try done. intros q ob He Ho. by rewrite He, Ho in Ht. Qed.
Lemma defined_not_twice p op p' : does op p = Some p' → releases_twice op p = false.
Proof.
  destruct op as [| | | | | | |j r| |]; try done. cbn [exec releases_twice]. unfold keep.
  destruct (run_job _ _ j r (futures p)) as [x|] eqn:Hx; [intros _|done].
  destruct (jobs (futures p) !! j) as [b|] eqn:Hj; [|done]. pose proof (run_job_clean _ _ _ _ _ _ _ Hj Hx) as Hc.
  destruct b as [| | |walk e c fb]; try done.
  destruct (events (futures p) !! e) as [q|] eqn:He, (objects (futures p) !! c) as [ob|] eqn:Ho; try done. by apply Hc.
Qed.

Definition step_ok (calm : bool) p (op : fut_op V X) p' : Prop :=
  Inv calm p' ∧ Evolves (futures p) (futures p') ∧ Explained p op (futures p').

Lemma stepped_ok calm p op (A : Type) (m : M (futures_t V X) A) (Φ : A → futures_t V X → Prop) : Inv calm p →
  wp m Φ (futures p) → (∀ a s', Φ a s' → Stepped php_null set_previous (answered op p) calm (derived p) (futures p) s') →
  ∃ p', keep p m = Some p' ∧ step_ok calm p op p'.
Proof.
  intros HI Hm HΦ. destruct (keep_run p m _ Hm) as (a & s' & Hk & HΦ'). eexists. split; [exact Hk|].
  destruct (HΦ a s' HΦ') as (HG & Hev & HP & HS). split_and!; [|done|by eapply settles_explained].
  apply (inv_keep calm p); [done..|]. apply HP, HI.
Qed.
Lemma keeps_ok calm p op T s' : Inv calm p → Good calm (derived p) [] [] s' → Keeps T (futures p) s' →
  Explained p op s' → step_ok calm p op (mk_system s' (derived p) (states p)).
Proof.
  intros HI HG Hk He. split_and!; [|apply Hk|done]. apply inv_keep; [done|apply Hk|done|].
  eapply pending_ok_Pending; [apply Hk|apply HI].
Qed.

Lemma fut_step_spec calm p op : Inv calm p → enabled op p = true → (calm = true → calm_op op p = true) →
  releases_twice op p = false → ∃ p', does op p = Some p' ∧ step_ok calm p op p'.
Proof.
  intros HI He Hcalm Htw. pose proof (inv_good _ _ HI) as HG. pose proof (inv_pending _ _ HI) as HP.
  assert (∀ o ob, objects (futures p) !! o = Some ob → is_Some (events (futures p) !! event ob)) as Hev.
  { intros o ob Ho. by apply (wf_object _ _ (proj1 HG) o ob Ho). }
  destruct op as [|e|e v|e x|o x|o k|o m ty|j r|j|it]; cbn [enabled] in He; rewrite ?bool_decide_eq_true in He; cbn [exec].
  - pose proof (async_new_future_spec php_null set_previous calm (derived p) (futures p) HG) as Hwp.
    apply wp_run in Hwp as (e & s' & Hm & -> & -> & HG' & Hev' & HP' & HS'). unfold exec. rewrite Hm. cbn.
    eexists. split; [done|]. destruct (inv_keep calm p _ HI Hev' HG' (HP' HP)) as [? ? HS2 Hpr2].
    assert (events (futures p) !! next (futures p) = None) as Hfr by (eapply fresh_event, HG).
    split_and!; [constructor; try done|done|by eapply settles_explained].
    + intros e [->|He']%elem_of_cons; [cbn; rewrite lookup_insert_eq; eauto|by apply HS2].
    + intros e c ob Hd Ho. destruct (Hpr2 e c ob Hd Ho) as [Hns Hu]. split; [|exact Hu]. cbn.
      intros [Heq|?]%elem_of_cons; [|done]. cbn in Ho. destruct (Hev c ob Ho) as [? ?]. congruence.
  - eapply stepped_ok; [done|by apply (async_new_future_obj_spec php_null set_previous), (inv_states _ _ HI)|]. by intros ? ? (_ & _ & ?).
  - destruct (inv_states _ _ HI e He) as [f Hf].
    destruct (keep_run p _ _ (FutureState_complete_spec calm _ e f v _ HG HP Hf)) as (r & s' & Hk & HG' & Hkp & _).
    eexists. split; [exact Hk|]. eapply keeps_ok; try done. by eapply state_explained.
  - destruct (inv_states _ _ HI e He) as [f Hf].
    destruct (keep_run p _ _ (FutureState_error_spec calm _ e f x _ HG HP Hf)) as (r & s' & Hk & HG' & Hkp & _).
    eexists. split; [exact Hk|]. eapply keeps_ok; try done. by eapply state_explained.
  - destruct He as [ob Ho]. destruct (Hev o ob Ho) as [f Hf].
    destruct (keep_run p _ _ (Future_cancel_spec calm _ o ob f x _ HG HP Ho Hf)) as (r & s' & Hk & HG' & Hkp & HS).
    eexists. split; [exact Hk|]. eapply keeps_ok; try done. by eapply cancel_explained.
  - destruct He as [ob Ho]. destruct (Hev o ob Ho) as [f Hf].
    eapply stepped_ok; [done|by eapply (Future_await_spec php_null set_previous)|]. by intros ? ? (? & _).
  - destruct He as [ob Ho]. pose proof (async_future_create_mapper_spec php_null set_previous calm (derived p) o ob m ty _ HG HP Ho) as Hwp.
    apply wp_run in Hwp as (c & s' & Hm & -> & (HG' & Hev' & HP' & HS') & Hc').
    unfold exec. rewrite Ho. cbn. rewrite Hm. cbn. eexists. split; [done|].
    assert (∀ e c, (e, c) ∈ derived p → c ≠ S (next (futures p))) as Hold.
    { intros e c Hd ->. destruct (wf_derived _ _ (proj1 HG) _ _ Hd) as [_ Hex]. apply (wf_next_object _ _ (proj1 HG)) in Hex. lia. }
    assert (∀ o' ob', objects (futures p) !! o' = Some ob' → event ob' ≠ next (futures p)) as Hfr.
    { intros o' ob' Ho' Heq. pose proof (Hev o' ob' Ho') as Hex. apply (wf_next_event _ _ (proj1 HG)) in Hex. lia. }
    split_and!; [constructor; cbn; [done|by apply HP'| |]|done|].
    + intros e He. destruct (inv_states _ _ HI e He) as [f Hf]. destruct (ev_event _ _ Hev' _ _ Hf) as (? & ? & _). eauto.
    + intros e c obc. cbn. intros [[= -> ->]|Hd]%elem_of_cons Hoc.
      * assert (event obc = next (futures p)) as Hec by (rewrite Hc' in Hoc; by simplify_eq). rewrite Hec. split.
        -- intros Hst. apply (inv_states _ _ HI), (wf_next_event _ _ (proj1 HG)) in Hst. lia.
        -- intros e' c' ob' [[= -> ->]|Hd']%elem_of_cons Ho' Heq; [done|].
           destruct (evolves_object _ _ _ e' c' ob' (proj1 HG) Hev' Hd' Ho') as (ob0 & Ho0 & Heq0 & _).
           destruct (Hfr c' ob0 Ho0). congruence.
      * destruct (evolves_object _ _ _ e c obc (proj1 HG) Hev' Hd Hoc) as (ob0 & Ho0 & Heq0 & _).
        destruct (inv_private _ _ HI e c ob0 Hd Ho0) as [Hns Hu]. rewrite Heq0. split; [done|].
        intros e' c' ob' [[= -> ->]|Hd']%elem_of_cons Ho' Heq.
        -- rewrite Hc' in Ho'. simplify_eq. cbn in Heq. by destruct (Hfr c ob0 Ho0).
        -- destruct (evolves_object _ _ _ e' c' ob' (proj1 HG) Hev' Hd' Ho') as (ob0' & Ho0' & Heq0' & _).
           apply (Hu e' c' ob0'); [done|done|congruence].
    + apply (settles_explained calm); [done|]. destruct HS' as [?|(e0 & c0 & ob0 & q & Hd0 & Ho0 & ?)]; [by left|right].
      apply elem_of_cons in Hd0 as [[= -> ->]|Hd0]; [|by exists e0, c0, ob0, q].
      assert (is_Some (objects (futures p) !! S (next (futures p)))) as Hex by eauto. apply (wf_next_object _ _ (proj1 HG)) in Hex. lia.
  - destruct He as [b Hj]. eapply stepped_ok; [done|by eapply run_job_spec, not_twice_clean|].
    change (answered (Run j r) p) with (job_answer (jobs (futures p) !! j) r). rewrite Hj. by intros.
  - destruct (jobs (futures p) !! j) as [b|] eqn:Hj; [|done]. destruct calm; [by specialize (Hcalm eq_refl)|].
    eapply stepped_ok; [done|by eapply (extended_dispose_spec php_null set_previous)|by intros].
  - destruct (iterators (futures p) !! it) as [i|] eqn:Hi; [|done].
    eapply stepped_ok; [done|eapply (microtask_spec php_null set_previous); [done|done|]|by intros].
    intros Hc. specialize (Hcalm Hc). cbn in Hcalm. by rewrite Hi in Hcalm.
Qed.

Lemma no_futures_inv calm : Inv calm (no_futures : sys).
Proof.
  constructor; try done; cbn.
  - split; [|intros _ _]; constructor; cbn; try done; try (by intros ? [? ?%lookup_empty_Some]);
      try (by intros *; rewrite ?lookup_empty); try (by intros ? ? []%not_elem_of_nil); by intros ??? []%not_elem_of_nil.
  - by intros e []%not_elem_of_nil.
Qed.

Lemma play_spec calm ops p p' : Inv calm p → plays calm ops p = Some p' → Inv calm p' ∧ Evolves (futures p) (futures p').
Proof.
  revert p. induction ops as [|op ops IH]; intros p HI Hp; cbn [play] in Hp; [by simplify_eq|].
  destruct (enabled op p) eqn:He; [|done]. destruct (negb calm || calm_op op p) eqn:Hc; [|done]. cbn [andb] in Hp.
  destruct (does op p) as [p2|] eqn:Hd; [|done]. pose proof (defined_not_twice _ _ _ Hd) as Htw.
  destruct (fut_step_spec calm p op HI He) as (p1 & Hp1 & HI1 & Hev1 & _); [by intros ->|done|].
  rewrite Hd in Hp1. injection Hp1 as ->. cbn in Hp. destruct (IH p1 HI1 Hp). split; [done|by etrans].
Qed.
Lemma run_inv calm ops p : runs calm ops p → Inv calm p.
Proof. intros Hr. by eapply play_spec, Hr; apply no_futures_inv. Qed.


(** C26 When no coroutine of a chain is cancelled before it starts, no walk gets a second
    coroutine and no exception is left that nobody handled, no chained future is
    forgotten: once the coroutines of the chains have ended, each child of a settled
    future is settled. *)
Theorem chains_settle ops p e c f ob g : runs true ops p → quiet (futures p) → jobs (futures p) = ∅ →
  (e, c) ∈ derived p → events (futures p) !! e = Some f → completed f = true →
  objects (futures p) !! c = Some ob → events (futures p) !! event ob = Some g → completed g = true.
Proof.
  intros HI%run_inv Hq Hj Hd He Hc Ho Hg. destruct (completed g) eqn:Hcg; [done|exfalso].
  pose proof (proj2 (inv_good _ _ HI) eq_refl Hq) as Hch.
  assert (due (futures p) e c) as Hdue by (split; [eauto|by exists ob, g]).
  destruct (ch_due _ _ _ _ Hch e c Hd) as [[j Hjob]|[(j & walk & fb & Hjob)|(o & k & _ & [Hin|(it & i & Hi & Hf & _)])]];
    [by apply not_elem_of_nil|done|by rewrite Hj in Hjob..|by apply not_elem_of_nil in Hin|].
  destruct (ch_worker _ _ _ _ Hch it i Hi Hf) as (j & b & Hjob & _). by rewrite Hj in Hjob.
Qed.

(** C27 A future made by [map], [catch] or [finally] that gets settled by a step other than
    its own cancellation has a settled source, and its outcome is the reference
    [child_result] of the outcome of the source and of what its own mapper returned or
    threw in this very step; a step that settles it without the end of its mapper's call
    does so only where the reference says that the mapper is not called. *)
Theorem child_outcome ops p op p' e c ob f f' : runs false ops p → enabled op p = true → does op p = Some p' →
  (e, c) ∈ derived p → objects (futures p) !! c = Some ob →
  events (futures p) !! event ob = Some f → completed f = false →
  events (futures p') !! event ob = Some f' → completed f' = true →
  (∃ o ob' x, op = Cancel o x ∧ objects (futures p) !! o = Some ob' ∧ event ob' = event ob ∧ outcome f' = (None, Some x)) ∨
  ∃ source, events (futures p) !! e = Some source ∧ completed source = true ∧
    child_result php_null set_previous (mapper_type ob) (outcome source) (answered op p e c) = Some (outcome f').
Proof.
  intros HI%run_inv He Hx Hd Ho Hf Hc Hf' Hc'. pose proof (defined_not_twice _ _ _ Hx) as Htw.
  destruct (fut_step_spec false p op HI He) as (p1 & Hp1 & _ & _ & Hex); [done..|].
  assert (p1 = p') as -> by congruence. by apply (Hex e c ob f f').
Qed.

(** The outcome of a settled future never changes, whatever happens next; settling it
    again through its FutureState answers false and changes nothing, and the first
    time the outcome is the one that was given. *)
Theorem outcome_final ops p e f more p' : runs false ops p → events (futures p) !! e = Some f →
  (completed f = true → plays false more p = Some p' →
    ∃ f', events (futures p') !! e = Some f' ∧ completed f' = true ∧ outcome f' = outcome f) ∧
  (∀ v, ∃ s', FutureState_complete e v (futures p) = Some (negb (completed f), s') ∧
    if completed f then s' = futures p else Settled e (Some v, None) s') ∧
  (∀ x, ∃ s', FutureState_error e x (futures p) = Some (negb (completed f), s') ∧
    if completed f then s' = futures p else Settled e (None, Some x) s').
Proof.
  intros HI%run_inv He. pose proof (inv_good _ _ HI) as HG. pose proof (inv_pending _ _ HI) as HP. split_and!.
  - intros Hc Hp. destruct (play_spec false more p p' HI Hp) as [_ Hev]. destruct (ev_event _ _ Hev _ _ He) as (f' & ? & H').
    destruct (H' Hc). eauto.
  - intros v. pose proof (FutureState_complete_spec false _ e f v _ HG HP He) as Hwp.
    apply wp_run in Hwp as (r & s' & Hm & _ & _ & -> & HS). eauto.
  - intros x. pose proof (FutureState_error_spec false _ e f x _ HG HP He) as Hwp.
    apply wp_run in Hwp as (r & s' & Hm & _ & _ & -> & HS). eauto.
Qed.
End theorems.

(** ** Concrete runs: values and exceptions are numbers, NULL is 0, and the previous of an
    exception is added to it; from 100 on a value has a
    reference count *)
#[local] Instance number_macros : FutureMacros nat nat := {|
  store_result v f := if completed f then f else set_result (Some v) f;
  store_exception x f := if completed f then f else set_exception (Some x) f;
  awaiter_handles l := negb (bool_decide (l = []));
  refcounted v := 100 <=? v
|}.
#[local] Instance number_macros_spec : FutureMacrosSpec nat nat.
Proof. by constructor. Qed.

Definition sample (calm : bool) (ops : list (fut_op nat nat)) : option (system nat nat) :=
  play 0 Nat.add calm ops no_futures.
Definition after (calm : bool) (ops : list (fut_op nat nat)) : system nat nat := default no_futures (sample calm ops).
Abbreviation number_run := (fut_run 0 Nat.add).

(** The outcome of event [e], if it is settled. *)
Definition settled_as (e : nat) (p : system nat nat) : option (option nat * option nat) :=
  f ← events (futures p) !! e; if completed f then Some (outcome f) else None.
Definition all_jobs (p : system nat nat) : list (nat * job nat) := map_to_list (jobs (futures p)).

(** A source (event 0, object 1) with a child (event 2, object 3) of type [ty], which has
    a child (event 4, object 5) made by [map]; the source is then settled. *)
Definition chain_of_two (ty : async_future_mapper_type_t) (settle : fut_op nat nat) : list (fut_op nat nat) :=
  [NewFutureState; NewFuture 0; Derive 1 10 ty; Derive 3 11 ASYNC_FUTURE_MAPPER_SUCCESS; settle].
Definition goes_on (n : nat) : list (fut_op nat nat) := replicate n (Run 7 (Returned 7)).
Definition whole_chain : list (fut_op nat nat) := chain_of_two ASYNC_FUTURE_MAPPER_SUCCESS (Complete 0 5) ++ goes_on 6.


(** What the chain of two leaves. *)
Definition settled_future (v : nat) (handled caught derives : bool) : zend_future_t nat nat :=
  mk_future true (Some v) None [] [] handled caught derives false.
Definition second_child : async_future_t := mk_future_obj 4 None 11 ASYNC_FUTURE_MAPPER_SUCCESS.

Lemma chains_settle_witness : number_run true whole_chain (after true whole_chain) ∧
  completed (settled_future 7 false false false) = true.
Proof.
  assert (number_run true whole_chain (after true whole_chain)) as Hr by (vm_compute; reflexivity). split; [exact Hr|].
  apply (chains_settle 0 Nat.add whole_chain (after true whole_chain) 2 5 (settled_future 7 true true true) second_child).
  - exact Hr.
  - intros x Hin. apply list_elem_of_In in Hin. vm_compute in Hin.
    repeat (destruct Hin as [Hin|Hin]; [discriminate Hin|]). exact Hin.
  - vm_compute. reflexivity.
  - apply list_elem_of_In. vm_compute. by left.
  - vm_compute. reflexivity.
  - reflexivity.
  - vm_compute. reflexivity.
  - vm_compute. reflexivity.
Defined.

(** The second mapper of the chain returns. *)
Definition before_last : list (fut_op nat nat) := chain_of_two ASYNC_FUTURE_MAPPER_SUCCESS (Complete 0 5) ++ goes_on 4.
Lemma child_outcome_witness : number_run false before_last (after false before_last) ∧
  ∃ source, events (futures (after false before_last)) !! 2 = Some source ∧ completed source = true ∧
    child_result 0 Nat.add ASYNC_FUTURE_MAPPER_SUCCESS (outcome source)
      (answered (Run 7 (Returned 9)) (after false before_last) 2 5) = Some (Some 9, None).
Proof.
  assert (number_run false before_last (after false before_last)) as Hr by (vm_compute; reflexivity). split; [exact Hr|].
  destruct (child_outcome 0 Nat.add before_last (after false before_last) (Run 7 (Returned 9))
    (after false (before_last ++ [Run 7 (Returned 9)])) 2 5 second_child new_future (settled_future 9 false false false)) as [(? & ? & ? & Hop & _)|Hc].
  - exact Hr.
  - vm_compute. reflexivity.
  - vm_compute. reflexivity.
  - apply list_elem_of_In. vm_compute. by left.
  - vm_compute. reflexivity.
  - vm_compute. reflexivity.
  - reflexivity.
  - vm_compute. reflexivity.
  - reflexivity.
  - discriminate Hop.
  - exact Hc.
Defined.

Lemma outcome_final_witness : number_run false whole_chain (after false whole_chain) ∧
  FutureState_complete 0 8 (futures (after false whole_chain)) = Some (false, futures (after false whole_chain)).
Proof.
  assert (number_run false whole_chain (after false whole_chain)) as Hr by (vm_compute; reflexivity). split; [exact Hr|].
  assert (events (futures (after false whole_chain)) !! 0 = Some (settled_future 5 false true true)) as He by (vm_compute; reflexivity).
  destruct (outcome_final 0 Nat.add whole_chain (after false whole_chain) 0 _ [] (after false whole_chain) Hr He) as (_ & Hc & _).
  destruct (Hc 8) as (s' & Hs' & ->). exact Hs'.
Defined.

(** ** Behaviours that the code gets wrong *)

(** One child of a rejected source is made by [map] and has no children itself, the
    next one is made by [catch].  Nobody handles the rejection of the first child, so
    its exception leaves [process_future_mapper] and ends the walk: the mapper of the
    second child is never called, and nothing is left that could settle it. *)
Theorem unhandled_rejection_stops_walk :
  (λ p, (settled_as 2 p, settled_as 4 p, all_jobs p, effects (futures p))) <$>
    sample true ([NewFutureState; NewFuture 0; Derive 1 10 ASYNC_FUTURE_MAPPER_SUCCESS;
      Derive 1 11 ASYNC_FUTURE_MAPPER_CATCH; Error 0 5] ++ goes_on 2) =
  Some (Some (None, Some 5), None, [], [EEscaped 5]).
Proof. vm_compute. reflexivity. Qed.

(** The first mapper of a chain of two suspends, so the microtask of the walk starts a
    second coroutine for it.  That one finds nothing left to do and finishes the walk;
    the first mapper then settles its child, whose own child is put into the queue of a
    finished walk and is never settled. *)
Theorem second_worker_strands_chain :
  (λ p, (settled_as 2 p, settled_as 4 p, all_jobs p)) <$>
    sample false (chain_of_two ASYNC_FUTURE_MAPPER_SUCCESS (Complete 0 5) ++ goes_on 2 ++
      [Microtask 6; Run 8 (Returned 0); Run 8 (Returned 0)] ++ goes_on 2) =
  Some (Some (Some 7, None), None, []).
Proof. vm_compute. reflexivity. Qed.

(** The coroutine of a walk is cancelled before it starts: the source is settled, no
    coroutine is left, and its child stays pending. *)
Theorem cancelled_walk_strands_child :
  (λ p, (settled_as 0 p, settled_as 2 p, all_jobs p, effects (futures p))) <$>
    sample false ([NewFutureState; NewFuture 0; Derive 1 10 ASYNC_FUTURE_MAPPER_SUCCESS; Complete 0 5; Dispose 5]) =
  Some (Some (Some 5, None), None, [], []).
Proof. vm_compute. reflexivity. Qed.

(** A [finally] mapper of a rejected source returns a value with a reference count, which
    is released twice because [retval] keeps it after the first release; the same
    mapper may return a plain number. *)
Theorem finally_releases_twice :
  let calls := chain_of_two ASYNC_FUTURE_MAPPER_FINALLY (Error 0 5) ++ goes_on 2 in
  (λ p, (effects (futures p), releases_twice (Run 7 (Returned 100)) p, exec 0 Nat.add (Run 7 (Returned 100)) p,
      bool_decide (is_Some (exec 0 Nat.add (Run 7 (Returned 7)) p)))) <$> sample true calls =
  Some ([ECall 10 (AException 5)], true, None, true).
Proof. vm_compute. reflexivity. Qed.
