(* ===== verification/SharedFuture.v ===== *)
(** * Futures shared between threads: the shared state of [src/future.c]

    A future of one thread (the consumer) is settled by another (a producer) through a
    [zend_future_shared_state_t] in persistent memory: the producer stores a copy of
    the outcome and fires the trigger of the consumer's event loop, whose callback
    loads the copy and settles the future.  In the other direction the consumer asks a
    producer to stop, through a flag and the trigger of the producer's loop
    ([pool_worker_cancel_t] of [src/thread_pool.c]).

    Every section under the mutex and every access to an atomic is one step; a thread
    that is inside a function has a list of the sections that are left
    ([section]), and the threads' steps interleave freely.  A trigger is an entry
    of a map until it is disposed, which only its own thread may do. *)

From S2P Require Import Prelude.

Local Open Scope Z_scope.

(** An outcome; [is_cancel]: the exception is a cancellation. *)
Inductive outcome (V X : Type) := OValue (v : V) | OException (x : X) (is_cancel : bool).
Arguments OValue {V X}.
Arguments OException {V X}.

(** A trigger: the thread whose loop runs it, and whether it has been fired since its
    callback ran. *)
Record trigger_t := mk_trigger { t_thread : nat; pending : bool }.

(** [transferred_result] and [transferred_exception]: what is not stored is [None]; the
    value UNDEF, with which an internal task completes, is one of [V]. *)
Record zend_future_shared_state_t (V X : Type) := mk_shared {
  ref_count : Z;
  completed : bool;
  transferred_result : option V;
  transferred_exception : option (X * bool);
  trigger : option nat;
  target_future : bool;           (* not NULL *)
  cancel_requested : bool;
  cancel_trigger : option nat;
  freed : bool
}.
Arguments mk_shared {V X}.
Arguments ref_count {V X}.
Arguments completed {V X}.
Arguments transferred_result {V X}.
Arguments transferred_exception {V X}.
Arguments trigger {V X}.
Arguments target_future {V X}.
Arguments cancel_requested {V X}.
Arguments cancel_trigger {V X}.
Arguments freed {V X}.

(** What is left of a function that a thread is in. *)
Inductive section (V X : Type) :=
| SLoadCompleted (o : outcome V X)    (* the fast path of complete and reject *)
| SComplete (v : V)
| SReject (x : X) (is_cancel : bool)
| SLoadRequest                        (* the fast path of request_cancel *)
| SRequestCancel
| SBindCancel (t : nat)
| SUnbindCancel
| SRecheck                            (* the flag is read again once the task is listed *)
| SSever
| SDisposeTrigger (t : nat)
| SResolve (o : outcome V X)
| SDelref.
Arguments SLoadCompleted {V X}.
Arguments SComplete {V X}.
Arguments SReject {V X}.
Arguments SLoadRequest {V X}.
Arguments SRequestCancel {V X}.
Arguments SBindCancel {V X}.
Arguments SUnbindCancel {V X}.
Arguments SRecheck {V X}.
Arguments SSever {V X}.
Arguments SDisposeTrigger {V X}.
Arguments SResolve {V X}.
Arguments SDelref {V X}.

(** The consumer: a remote future, or the FutureState whose ownership was transferred
    with the future it was made for. *)
Inductive consumer_kind := Remote | Owner.
Record consumer_t (V X : Type) := mk_consumer {
  kind : consumer_kind;
  settled : option (outcome V X);  (* of the local future *)
  observed : bool;                 (* somebody subscribed, or chained *)
  ignored : bool;
  alive : bool;                    (* it was not freed *)
  c_todo : list (section V X)
}.
Arguments mk_consumer {V X}.
Arguments kind {V X}.
Arguments settled {V X}.
Arguments observed {V X}.
Arguments ignored {V X}.
Arguments alive {V X}.
Arguments c_todo {V X}.

(** A producer holds a reference: a copy in transit, a FutureState of another thread, a
    callback on a source future or a task of a thread pool.  [entry]: how the worker
    lists the task ([POOL_TASK_PREPARING], or the coroutine). *)
Inductive entry_t := Preparing | Running.
#[export] Instance entry_t_eq_dec : EqDecision entry_t.
Proof. solve_decision. Defined.
Record producer_t (V X : Type) := mk_producer {
  entry : option entry_t;
  bound : option nat;              (* the trigger of the worker that it bound *)
  stopped : bool;                  (* its coroutine was cancelled, or it was refused *)
  p_todo : list (section V X)
}.
Arguments mk_producer {V X}.
Arguments entry {V X}.
Arguments bound {V X}.
Arguments stopped {V X}.
Arguments p_todo {V X}.

(** The history of the persistent copies. *)
Inductive copy_event (V X : Type) := Copied (o : outcome V X) | Loaded (o : outcome V X) | Dropped (o : outcome V X).
Arguments Copied {V X}.
Arguments Loaded {V X}.
Arguments Dropped {V X}.

Record shared_t (V X : Type) := mk_system {
  state : zend_future_shared_state_t V X;
  triggers : gmap nat trigger_t;
  consumer : consumer_t V X;
  producers : gmap nat (producer_t V X);   (* by thread; the consumer's thread is 0 *)
  history : list (copy_event V X)
}.
Arguments mk_system {V X}.
Arguments state {V X}.
Arguments triggers {V X}.
Arguments consumer {V X}.
Arguments producers {V X}.
Arguments history {V X}.

Section record_updates.
Context {V X : Type}.
#[export] Instance shared_state_eta : Eta (zend_future_shared_state_t V X) := λ s,
  mk_shared (ref_count s) (completed s) (transferred_result s) (transferred_exception s) (trigger s) (target_future s)
    (cancel_requested s) (cancel_trigger s) (freed s).
Definition set_ref_count x (s : zend_future_shared_state_t V X) := ltac:(record_set s (@ref_count V X) x).
Definition set_completed x (s : zend_future_shared_state_t V X) := ltac:(record_set s (@completed V X) x).
Definition set_transferred_result x (s : zend_future_shared_state_t V X) := ltac:(record_set s (@transferred_result V X) x).
Definition set_transferred_exception x (s : zend_future_shared_state_t V X) :=
  ltac:(record_set s (@transferred_exception V X) x).
Definition set_trigger x (s : zend_future_shared_state_t V X) := ltac:(record_set s (@trigger V X) x).
Definition set_target_future x (s : zend_future_shared_state_t V X) := ltac:(record_set s (@target_future V X) x).
Definition set_cancel_requested x (s : zend_future_shared_state_t V X) := ltac:(record_set s (@cancel_requested V X) x).
Definition set_cancel_trigger x (s : zend_future_shared_state_t V X) := ltac:(record_set s (@cancel_trigger V X) x).
Definition set_freed x (s : zend_future_shared_state_t V X) := ltac:(record_set s (@freed V X) x).
#[export] Instance consumer_eta : Eta (consumer_t V X) := λ c,
  mk_consumer (kind c) (settled c) (observed c) (ignored c) (alive c) (c_todo c).
Definition set_settled x (c : consumer_t V X) := ltac:(record_set c (@settled V X) x).
Definition set_observed x (c : consumer_t V X) := ltac:(record_set c (@observed V X) x).
Definition set_ignored x (c : consumer_t V X) := ltac:(record_set c (@ignored V X) x).
Definition set_alive x (c : consumer_t V X) := ltac:(record_set c (@alive V X) x).
Definition set_c_todo x (c : consumer_t V X) := ltac:(record_set c (@c_todo V X) x).
#[export] Instance producer_eta : Eta (producer_t V X) := λ p, mk_producer (entry p) (bound p) (stopped p) (p_todo p).
Definition set_entry x (p : producer_t V X) := ltac:(record_set p (@entry V X) x).
Definition set_bound x (p : producer_t V X) := ltac:(record_set p (@bound V X) x).
Definition set_stopped x (p : producer_t V X) := ltac:(record_set p (@stopped V X) x).
Definition set_p_todo x (p : producer_t V X) := ltac:(record_set p (@p_todo V X) x).
#[export] Instance system_eta : Eta (shared_t V X) := λ s,
  mk_system (state s) (triggers s) (consumer s) (producers s) (history s).
Definition set_state x (s : shared_t V X) := ltac:(record_set s (@state V X) x).
Definition set_triggers x (s : shared_t V X) := ltac:(record_set s (@triggers V X) x).
Definition set_consumer x (s : shared_t V X) := ltac:(record_set s (@consumer V X) x).
Definition set_producers x (s : shared_t V X) := ltac:(record_set s (@producers V X) x).
Definition set_history x (s : shared_t V X) := ltac:(record_set s (@history V X) x).
End record_updates.

Section shared.
Context {V X : Type}.
Abbreviation SM := (M (shared_t V X)).
Abbreviation outcome := (outcome V X).

(** The state that is pointed to: it must not have been freed. *)
Definition get_state : SM (zend_future_shared_state_t V X) :=
  s ← get; ZEND_ASSERT (negb (freed (state s)));; mret (state s).
Definition upd_state (f : zend_future_shared_state_t V X → zend_future_shared_state_t V X) : SM unit :=
  modify (λ s, set_state (f (state s)) s).
Definition upd_consumer (f : consumer_t V X → consumer_t V X) : SM unit := modify (λ s, set_consumer (f (consumer s)) s).
Definition upd_producer (h : nat) (f : producer_t V X → producer_t V X) : SM unit :=
  modify (λ s, set_producers (alter f h (producers s)) s).
Definition record (e : copy_event V X) : SM unit := modify (λ s, set_history (history s ++ [e]) s).

(** ** Triggers *)
Definition fire (t : nat) : SM unit :=
  s ← get;
  tr ← of_option (triggers s !! t);
  modify (λ s, set_triggers (<[t := mk_trigger (t_thread tr) true]> (triggers s)) s).
Definition fire_if_any (t : option nat) : SM unit := match t with Some t => fire t | None => mret tt end.
Definition dispose_trigger (thread t : nat) : SM unit :=
  s ← get;
  tr ← of_option (triggers s !! t);
  ZEND_ASSERT (bool_decide (t_thread tr = thread));;
  modify (λ s, set_triggers (delete t (triggers s)) s).

(** ** The shared state *)

(** The outcome that is stored as a persistent copy. *)
Definition stored (s : zend_future_shared_state_t V X) : option outcome :=
  match transferred_exception s, transferred_result s with
  | Some (x, c), _ => Some (OException x c)
  | None, Some v => Some (OValue v)
  | None, None => None
  end.

Definition async_future_shared_state_create : zend_future_shared_state_t V X :=
  mk_shared 0 false None None None false false None false.
Definition async_future_shared_state_addref : SM unit :=
  s ← get_state; upd_state (set_ref_count (ref_count s + 1)).

(** The last reference is gone; [thread]: the thread that dropped it. *)
Definition drop_copies : SM unit :=
  s ← get_state;
  match transferred_result s with Some v => record (Dropped (OValue v)) | None => mret tt end;;
  match transferred_exception s with Some (x, c) => record (Dropped (OException x c)) | None => mret tt end.
Definition async_future_shared_state_destroy (thread : nat) : SM unit :=
  drop_copies;;
  s ← get_state;
  match trigger s with Some t => dispose_trigger thread t;; upd_state (set_trigger None) | None => mret tt end;;
  ZEND_ASSERT (bool_decide (cancel_trigger s = None));;
  upd_state (set_freed true).
Definition async_future_shared_state_delref (thread : nat) : SM unit :=
  s ← get_state;
  upd_state (set_ref_count (ref_count s - 1));;
  when (ref_count s =? 1) (async_future_shared_state_destroy thread).

(** [ok]: the loop gave a trigger, whose name is [t]. *)
Definition async_future_shared_state_bind (t : nat) (ok : bool) : SM bool :=
  _ ← get_state;
  upd_state (set_target_future true);;
  if ok then
    modify (λ s, set_triggers (<[t := mk_trigger 0 false]> (triggers s)) s);;
    upd_state (set_trigger (Some t));;
    mret true
  else mret false.

(** The sections under the mutex. *)
Definition async_future_shared_state_complete (v : V) : SM unit :=
  s ← get_state;
  if completed s then mret tt
  else
    upd_state (set_completed true);;
    upd_state (set_transferred_result (Some v));;
    record (Copied (OValue v));;
    fire_if_any (trigger s).
Definition async_future_shared_state_reject (x : X) (is_cancel : bool) : SM unit :=
  s ← get_state;
  if completed s then mret tt
  else
    upd_state (set_completed true);;
    upd_state (set_transferred_exception (Some (x, is_cancel)));;
    record (Copied (OException x is_cancel));;
    fire_if_any (trigger s).
Definition async_future_shared_state_request_cancel : SM unit :=
  s ← get_state;
  if completed s then mret tt
  else upd_state (set_cancel_requested true);; fire_if_any (cancel_trigger s).
Definition async_future_shared_state_bind_cancel (t : nat) : SM bool :=
  s ← get_state;
  if cancel_requested s then mret false
  else upd_state (set_cancel_trigger (Some t));; mret true.
Definition async_future_shared_state_unbind_cancel : SM unit :=
  _ ← get_state; upd_state (set_cancel_trigger None).

(** ** The consumer *)

(** The local future is settled, once. *)
Definition future_resolve (o : outcome) : SM unit :=
  upd_consumer (λ c, match settled c with None => set_settled (Some o) c | Some _ => c end).

(** The callback of the trigger: there must be an outcome to load. *)
Definition shared_state_trigger_cb : SM unit :=
  s ← get_state;
  ZEND_ASSERT (target_future s);;
  match transferred_exception s with
  | Some (x, c) =>
    record (Loaded (OException x c));;
    upd_state (set_transferred_exception None);;
    future_resolve (OException x c)
  | None =>
    v ← of_option (transferred_result s);
    record (Loaded (OValue v));;
    upd_state (set_transferred_result None);;
    future_resolve (OValue v)
  end;;
  s ← get_state;
  ZEND_ASSERT (bool_decide (is_Some (trigger s))).

(** A remote future is rejected, or the future of an owner is: what its thread runs. *)
Definition remote_future_resolve (k : consumer_kind) (o : outcome) : list (section V X) :=
  match k, o with
  | Remote, OException _ true => [SLoadRequest; SResolve o]
  | _, _ => [SResolve o]
  end.
Definition remote_future_dispose (c : consumer_t V X) : list (section V X) :=
  (if negb (ignored c) && observed c then [SLoadRequest] else []) ++ [SSever; SDelref].
Definition async_future_state_object_free : list (section V X) := [SSever; SDelref].
Definition consumer_free (c : consumer_t V X) : list (section V X) :=
  match kind c with Remote => remote_future_dispose c | Owner => async_future_state_object_free end.

(** The locked part of both: the trigger to dispose. *)
Definition sever : SM (option nat) :=
  s ← get_state;
  (match trigger s with Some _ => upd_state (set_trigger None);; upd_state (set_completed true) | None => mret tt end);;
  upd_state (set_target_future false);;
  mret (trigger s).

(** ** The worker that serves a task: [pool_worker_cancel_t] *)

(** The callback of its trigger, for the task of this state. *)
Definition pool_worker_cancel_notify (h : nat) : SM unit :=
  s ← get;
  p ← of_option (producers s !! h);
  match entry p with
  | Some Running =>
    s ← get_state;
    when (cancel_requested s) (upd_producer h (set_stopped true))
  | _ => mret tt
  end.

(** ** A section of thread [th]; its result goes in front of what is left *)
Definition run_section (th : nat) (sec : section V X) : SM (list (section V X)) :=
  match sec with
  | SLoadCompleted o =>
    s ← get_state;
    mret (if completed s then [] else match o with OValue v => [SComplete v] | OException x c => [SReject x c] end)
  | SComplete v => async_future_shared_state_complete v;; mret []
  | SReject x c => async_future_shared_state_reject x c;; mret []
  | SLoadRequest => s ← get_state; mret (if completed s then [] else [SRequestCancel])
  | SRequestCancel => async_future_shared_state_request_cancel;; mret []
  | SBindCancel t =>
    ok ← async_future_shared_state_bind_cancel t;
    (if ok : bool then upd_producer th (set_bound (Some t)) else upd_producer th (λ p, set_stopped true (set_entry None p)));;
    mret []
  | SUnbindCancel => async_future_shared_state_unbind_cancel;; upd_producer th (set_bound None);; mret []
  | SRecheck => s ← get_state; when (cancel_requested s) (upd_producer th (set_stopped true));; mret []
  | SSever => t ← sever; mret (match t with Some t => [SDisposeTrigger t] | None => [] end)
  | SDisposeTrigger t => dispose_trigger th t;; mret []
  | SResolve o => future_resolve o;; mret []
  | SDelref =>
    async_future_shared_state_delref th;;
    (if bool_decide (th = 0%nat) then upd_consumer (set_alive false) else modify (λ s, set_producers (delete th (producers s)) s));;
    mret []
  end.

(** Thread [th] runs its next section. *)
Definition run_thread (th : nat) : SM unit :=
  s ← get;
  if bool_decide (th = 0%nat) then
    match c_todo (consumer s) with
    | sec :: todo => more ← run_section 0 sec; upd_consumer (set_c_todo (more ++ todo))
    | [] => undefined
    end
  else
    p ← of_option (producers s !! th);
    match p_todo p with
    | sec :: todo => upd_producer th (set_p_todo todo);; more ← run_section th sec; upd_producer th (λ p, set_p_todo (more ++ p_todo p) p)
    | [] => undefined
    end.

(** ** What threads do *)

(** What the consumer and a producer [h] are inside of from now on. *)
Definition call_consumer (l : list (section V X)) : SM unit := upd_consumer (set_c_todo l).
Definition call_producer (h : nat) (l : list (section V X)) : SM unit := upd_producer h (set_p_todo l).

(** The callback on a source future in a thread, and what PHP code calls on a FutureState
    of another thread. *)
Definition shared_state_source_cb (o : outcome) : list (section V X) := [SLoadCompleted o].
Definition remote_future_add_callback : SM unit := upd_consumer (set_observed true).

(** A remote future and its state are made; [ok]: the loop gave a trigger, named [t]. *)
Definition async_new_remote_future (t : nat) (ok : bool) : SM unit :=
  async_future_shared_state_addref;; _ ← async_future_shared_state_bind t ok; mret tt.
(** Thread [h] holds a reference: a callback on a source future, a task, or a copy in transit. *)
Definition new_producer (h : nat) : SM unit :=
  async_future_shared_state_addref;; modify (λ s, set_producers (<[h := mk_producer None None false []]> (producers s)) s).
(** The ownership of a FutureState is transferred: a copy is in transit as producer [h]. *)
Definition async_future_state_transfer (h t : nat) (ok : bool) : SM unit :=
  _ ← async_future_shared_state_bind t ok; async_future_shared_state_addref;; new_producer h.

(** A worker makes its trigger, lists a task and forgets it. *)
Definition pool_worker_cancel_create (h t : nat) : SM unit :=
  modify (λ s, set_triggers (<[t := mk_trigger h false]> (triggers s)) s).
Definition pool_worker_cancel_track (h t : nat) (e : entry_t) : SM unit :=
  upd_producer h (set_entry (Some e));; call_producer h [SBindCancel t].
Definition pool_worker_cancel_forget (h : nat) : SM unit :=
  upd_producer h (set_entry None);; call_producer h [SUnbindCancel].

Inductive shared_op :=
| Subscribe                        (* add_callback, or a chain *)
| Ignore
| CancelFuture (o : outcome)       (* the local future is rejected *)
| Share (h : nat)                  (* the consumer passes a reference to thread [h] *)
| Free                             (* the consumer is freed *)
| Deliver                          (* the consumer's loop runs its trigger *)
| Produce (h : nat) (o : outcome)
| Pass (h h' : nat)                (* a copy in transit is loaded by thread [h'] *)
| Mailbox (h t : nat)              (* a worker creates its trigger *)
| Track (h t : nat) (e : entry_t)
| Listed (h : nat)                 (* the coroutine is listed in place of PREPARING *)
| Forget (h : nat)
| Notified (t : nat) (h : nat)     (* the worker's loop runs its trigger *)
| CloseMailbox (h t : nat)
| Release (h : nat)
| Go (th : nat).

(** What the operation does at once; the rest of it is left to [Go]. *)
Definition run_op (op : shared_op) : SM unit :=
  match op with
  | Subscribe => remote_future_add_callback
  | Ignore => upd_consumer (set_ignored true)
  | CancelFuture o => s ← get; call_consumer (remote_future_resolve (kind (consumer s)) o)
  | Share h => new_producer h
  | Free => s ← get; call_consumer (consumer_free (consumer s))
  | Deliver =>
    s ← get;
    t ← of_option (trigger (state s));
    tr ← of_option (triggers s !! t);
    modify (λ s, set_triggers (<[t := mk_trigger (t_thread tr) false]> (triggers s)) s);;
    shared_state_trigger_cb
  | Produce h o => call_producer h (shared_state_source_cb o)
  | Pass h h' =>
    s ← get;
    p ← of_option (producers s !! h);
    modify (λ s, set_producers (<[h' := p]> (delete h (producers s))) s)
  | Mailbox h t => pool_worker_cancel_create h t
  | Track h t e => pool_worker_cancel_track h t e
  | Listed h => upd_producer h (set_entry (Some Running));; call_producer h [SRecheck]
  | Forget h => pool_worker_cancel_forget h
  | Notified t h =>
    s ← get;
    tr ← of_option (triggers s !! t);
    modify (λ s, set_triggers (<[t := mk_trigger (t_thread tr) false]> (triggers s)) s);;
    pool_worker_cancel_notify h
  | CloseMailbox h t => dispose_trigger h t
  | Release h => call_producer h [SDelref]
  | Go th => run_thread th
  end.

(** Thread [h] is outside of the functions of this file. *)
Definition idle (s : shared_t V X) (h : nat) : bool :=
  match producers s !! h with Some p => match p_todo p with [] => true | _ => false end | None => false end.
Definition consumer_idle (s : shared_t V X) : bool :=
  alive (consumer s) && match c_todo (consumer s) with [] => true | _ => false end.
Definition is_pending (s : shared_t V X) (t : nat) : bool :=
  match triggers s !! t with Some tr => pending tr | None => false end.

(** When a thread may do what: the discipline of the callers.  A task is tracked once, is
    forgotten before its reference is dropped and before the worker closes its
    trigger. *)
Definition enabled (op : shared_op) (s : shared_t V X) : bool :=
  match op with
  | Subscribe | Ignore | Free => consumer_idle s
  | CancelFuture _ => consumer_idle s && bool_decide (settled (consumer s) = None)
  | Share h => consumer_idle s && bool_decide (h ≠ 0%nat) && bool_decide (producers s !! h = None)
  | Deliver => consumer_idle s && match trigger (state s) with Some t => is_pending s t | None => false end
  | Produce h _ => idle s h
  | Pass h h' => idle s h && bool_decide (h' ≠ 0%nat) && bool_decide (producers s !! h' = None) &&
      match producers s !! h with Some p => bool_decide (bound p = None) && bool_decide (entry p = None) | None => false end
  | Mailbox h t => bool_decide (h ≠ 0%nat) && bool_decide (triggers s !! t = None)
  | Track h t _ => idle s h && match producers s !! h, triggers s !! t with
      | Some p, Some tr => bool_decide (entry p = None) && bool_decide (t_thread tr = h)
      | _, _ => false end && bool_decide (map_Forall (λ _ p, entry p = None ∧ bound p = None) (producers s))
  | Listed h => idle s h && match producers s !! h with Some p => bool_decide (entry p = Some Preparing) | None => false end
  | Forget h => idle s h && match producers s !! h with Some p => bool_decide (entry p ≠ None) | None => false end
  | Notified t h => idle s h && is_pending s t && match producers s !! h with Some p => bool_decide (bound p = Some t) | None => false end
  | CloseMailbox h t => bool_decide (h ≠ 0%nat) &&
      match triggers s !! t with Some tr => bool_decide (t_thread tr = h) | None => false end &&
      match producers s !! h with Some p => idle s h && bool_decide (bound p = None) | None => true end
  | Release h => idle s h && match producers s !! h with Some p => bool_decide (entry p = None) && bool_decide (bound p = None) | None => false end
  | Go th => if bool_decide (th = 0%nat) then match c_todo (consumer s) with [] => false | _ => true end
      else match producers s !! th with Some p => match p_todo p with [] => false | _ => true end | None => false end
  end.
End shared.
