(* ===== verification/SharedFutureProofs.v ===== *)
(** * The invariant of a future that is shared between threads *)

From S2P Require Import Prelude SharedFuture.
From stdpp Require Import tactics.

Local Open Scope Z_scope.

Section proofs.
Context {V X : Type}.
Abbreviation sys := (shared_t V X).
Abbreviation todo_t := (list (section V X)).
Implicit Types (s : sys) (h t : nat).

(** ** What a thread can be inside of *)
Definition is_request (sec : section V X) : bool := match sec with SLoadRequest | SRequestCancel => true | _ => false end.
Definition severed (l : todo_t) : bool := match l with [SDisposeTrigger _; SDelref] | [SDelref] => true | _ => false end.
(** The consumer is settling its future, or it is being freed. *)
Inductive consumer_at : todo_t → Prop :=
| at_rest : consumer_at []
| at_resolve o : consumer_at [SResolve o]
| at_request sec o : is_request sec = true → consumer_at [sec; SResolve o]
| at_free_request sec : is_request sec = true → consumer_at [sec; SSever; SDelref]
| at_sever : consumer_at [SSever; SDelref]
| at_dispose t : consumer_at [SDisposeTrigger t; SDelref]
| at_delref : consumer_at [SDelref].

Definition own_thread s h t : Prop := ∃ tr, triggers s !! t = Some tr ∧ t_thread tr = h.

(** A producer [p] of thread [h]. *)
Definition producer_ok s h (p : producer_t V X) : Prop :=
  (∀ t, bound p = Some t → own_thread s h t ∧ cancel_trigger (state s) = Some t) ∧
  match p_todo p with
  | [] | [SLoadCompleted _] | [SComplete _] | [SReject _ _] => (entry p = None ↔ bound p = None)
  | [SBindCancel t] => entry p ≠ None ∧ bound p = None ∧ own_thread s h t
  | [SUnbindCancel] => entry p = None ∧ bound p ≠ None
  | [SRecheck] => entry p = Some Running ∧ bound p ≠ None
  | [SDelref] => entry p = None ∧ bound p = None
  | _ => False
  end.
Definition tracked (p : producer_t V X) : Prop := entry p ≠ None ∨ bound p ≠ None.

(** ** The persistent copy *)
Definition copy_ok (s : sys) : Prop :=
  let st := state s in
  (history s = [] ∧ transferred_result st = None ∧ transferred_exception st = None) ∨
  (∃ o, completed st = true ∧ freed st = false ∧ history s = [Copied o] ∧
     match o with
     | OValue v => transferred_result st = Some v ∧ transferred_exception st = None
     | OException x c => transferred_result st = None ∧ transferred_exception st = Some (x, c)
     end) ∨
  (∃ o, completed st = true ∧ history s = [Copied o; Loaded o] ∧ transferred_result st = None ∧ transferred_exception st = None ∧
     settled (consumer s) ≠ None) ∨
  (∃ o, freed st = true ∧ history s = [Copied o; Dropped o]).
(** There is a copy that was not loaded. *)
Definition undelivered (s : sys) : bool := match history s with [Copied _] => true | _ => false end.

(** [ok]: the loop of the consumer gave a trigger. *)
Record Inv (ok : bool) s : Prop := {
  inv_refs : ref_count (state s) = Z.b2z (alive (consumer s)) + Z.of_nat (size (producers s));
  inv_freed : freed (state s) = bool_decide (ref_count (state s) = 0);
  inv_zero : producers s !! 0%nat = None;
  inv_consumer : consumer_at (c_todo (consumer s));
  inv_dead : alive (consumer s) = false → c_todo (consumer s) = [] ∧ trigger (state s) = None;
  inv_dispose t l : c_todo (consumer s) = SDisposeTrigger t :: l → own_thread s 0 t;
  inv_severed : severed (c_todo (consumer s)) = true → trigger (state s) = None;
  inv_trigger t : trigger (state s) = Some t → target_future (state s) = true ∧
    triggers s !! t = Some (mk_trigger 0 (undelivered s));
  inv_live : ok = true → alive (consumer s) = true → severed (c_todo (consumer s)) = false → trigger (state s) ≠ None;
  inv_producer h p : producers s !! h = Some p → producer_ok s h p;
  inv_tracked h1 h2 p1 p2 : producers s !! h1 = Some p1 → producers s !! h2 = Some p2 → tracked p1 → tracked p2 → h1 = h2;
  inv_bound t : cancel_trigger (state s) = Some t → ∃ h p, producers s !! h = Some p ∧ bound p = Some t;
  inv_copy : copy_ok s;
  inv_cancel h p t : producers s !! h = Some p → p_todo p ≠ [SRecheck] → entry p = Some Running → bound p = Some t →
    cancel_requested (state s) = true → stopped p = true ∨ is_pending s t = true
}.

(** The state is there while somebody refers to it. *)
Lemma inv_alive ok s : Inv ok s → alive (consumer s) = true ∨ producers s ≠ ∅ → freed (state s) = false.
Proof.
  intros HI Ha. rewrite (inv_freed _ _ HI). apply bool_decide_eq_false. rewrite (inv_refs _ _ HI).
  destruct Ha as [->|Hp]; cbn; [lia|]. rewrite <- map_size_empty_iff in Hp. destruct (alive (consumer s)); cbn; lia.
Qed.
Lemma inv_held ok s h p : Inv ok s → producers s !! h = Some p → freed (state s) = false.
Proof. intros HI Hh. apply (inv_alive ok); [done|]. right. intros He. by rewrite He in Hh. Qed.

Lemma wp_get_state s (Φ : zend_future_shared_state_t V X → sys → Prop) : freed (state s) = false →
  wp get_state Φ s ↔ Φ (state s) s.
Proof. intros Hf. unfold get_state. rewrite wp_bind, wp_get, wp_bind, wp_assert, wp_ret, Hf. naive_solver. Qed.
Lemma wp_upd_state f s (Φ : unit → sys → Prop) : wp (upd_state f) Φ s ↔ Φ tt (set_state (f (state s)) s).
Proof. done. Qed.
Lemma wp_upd_consumer f s (Φ : unit → sys → Prop) : wp (upd_consumer f) Φ s ↔ Φ tt (set_consumer (f (consumer s)) s).
Proof. done. Qed.
Lemma wp_upd_producer h f s (Φ : unit → sys → Prop) : wp (upd_producer h f) Φ s ↔ Φ tt (set_producers (alter f h (producers s)) s).
Proof. done. Qed.
Lemma wp_record e s (Φ : unit → sys → Prop) : wp (record e) Φ s ↔ Φ tt (set_history (history s ++ [e]) s).
Proof. done. Qed.
Lemma wp_fire t tr s (Φ : unit → sys → Prop) : triggers s !! t = Some tr →
  wp (fire t) Φ s ↔ Φ tt (set_triggers (<[t := mk_trigger (t_thread tr) true]> (triggers s)) s).
Proof. intros Ht. unfold fire. rewrite wp_bind, wp_get, wp_bind. by rewrite (wp_defined _ _ _ _ Ht). Qed.

(** ** Changes of one participant *)
Lemma consumer_change ok s c : Inv ok s → alive c = alive (consumer s) → consumer_at (c_todo c) →
  (alive c = false → c_todo c = []) → (∀ t l, c_todo c = SDisposeTrigger t :: l → own_thread s 0 t) →
  (severed (c_todo c) = true → trigger (state s) = None) →
  (severed (c_todo c) = false → severed (c_todo (consumer s)) = false) →
  (settled (consumer s) ≠ None → settled c ≠ None) → Inv ok (set_consumer c s).
Proof.
  intros [] Ha Hat Hdead Hdis Hsev Hsev' Hset. constructor; try done; cbn; rewrite ?Ha; auto.
  - intros Hd. split; [rewrite <- Ha in Hd; auto|]. by apply inv_dead0.
  - destruct inv_copy0 as [?|[?|[(o & ? & ? & ? & ? & ?)|?]]]; [by left|by right; left|right; right; left; exists o; cbn; split_and!; auto|by right; right; right].
Qed.

Lemma producer_ok_same s s' h p : (∀ t, own_thread s h t → own_thread s' h t) → cancel_trigger (state s') = cancel_trigger (state s) →
  producer_ok s h p → producer_ok s' h p.
Proof.
  intros Ht Hc [Hb Hshape]. split.
  - intros t Hp. rewrite Hc. destruct (Hb t Hp). auto.
  - repeat case_match; naive_solver.
Qed.

Lemma producer_change ok s h p p' : Inv ok s → producers s !! h = Some p → producer_ok s h p' →
  (tracked p' → tracked p ∨ ∀ h2 p2, producers s !! h2 = Some p2 → ¬ tracked p2) →
  (∀ t, bound p = Some t → bound p' = Some t) →
  (∀ t, p_todo p' ≠ [SRecheck] → entry p' = Some Running → bound p' = Some t → cancel_requested (state s) = true →
    stopped p' = true ∨ is_pending s t = true) →
  Inv ok (set_producers (<[h := p']> (producers s)) s).
Proof.
  intros [] Hh Hok Htr Hb Hcan. constructor; try done; cbn.
  - rewrite map_size_insert_Some by eauto. done.
  - rewrite lookup_insert_ne; [done|]. intros ->. congruence.
  - intros h2 p2 [[<- <-]|[_ ?]]%lookup_insert_Some; eapply producer_ok_same; eauto.
  - assert (∀ h2 p2, producers s !! h2 = Some p2 → tracked p2 → tracked p' → h2 = h) as Hone.
    { intros h2 p2 Hp2 Ht2 Ht'. destruct (Htr Ht') as [Ht|Hno]; [by eapply inv_tracked0|by destruct (Hno _ _ Hp2)]. }
    intros h1 h2 p1 p2 [[<- <-]|[_ H1]]%lookup_insert_Some [[<- <-]|[_ H2]]%lookup_insert_Some T1 T2; eauto.
    symmetry. eauto.
  - intros t Ht. destruct (inv_bound0 t Ht) as (h2 & p2 & Hp2 & Hb2). destruct (decide (h2 = h)) as [->|].
    + exists h, p'. rewrite lookup_insert_eq. split; [done|]. apply Hb. congruence.
    + exists h2, p2. by rewrite lookup_insert_ne.
  - intros h2 p2 t [[<- <-]|[_ ?]]%lookup_insert_Some; [apply Hcan|eauto].
Qed.

Lemma insert_alter_same {A} (m : gmap nat A) k a g : m !! k = Some a → alter g k m = <[k := g a]> m.
Proof.
  intros Hk. apply map_eq. intros k'. destruct (decide (k' = k)) as [->|].
  - by rewrite lookup_alter_eq, lookup_insert_eq, Hk.
  - by rewrite lookup_alter_ne, lookup_insert_ne.
Qed.

Lemma alter_insert_same {A} (m : gmap nat A) k a g : alter g k (<[k := a]> m) = <[k := g a]> m.
Proof. rewrite (insert_alter_same _ k a) by apply lookup_insert_eq. apply insert_insert_eq. Qed.

(** ** The sections of a producer's completion *)
Lemma completed_copy ok s : Inv ok s → freed (state s) = false → completed (state s) = false →
  history s = [] ∧ transferred_result (state s) = None ∧ transferred_exception (state s) = None.
Proof.
  intros HI Hf Hc. destruct (inv_copy _ _ HI) as [?|[(o & ? & _)|[(o & ? & _)|(o & ? & _)]]]; [done|congruence..].
Qed.
Definition fired (tm : gmap nat trigger_t) (ot : option nat) : gmap nat trigger_t :=
  match ot with Some t => alter (λ tr, mk_trigger (t_thread tr) true) t tm | None => tm end.
Lemma wp_fire_if_any ot s (Φ : unit → sys → Prop) : (∀ t, ot = Some t → is_Some (triggers s !! t)) →
  Φ tt (set_triggers (fired (triggers s) ot) s) → wp (fire_if_any ot) Φ s.
Proof.
  intros Ht HΦ. destruct ot as [t|]; cbn; [|by destruct s]. destruct (Ht t eq_refl) as [tr Htr].
  apply (wp_fire t tr); [done|]. cbn in HΦ. by rewrite (insert_alter_same _ t tr) in HΦ.
Qed.
Lemma fired_own s s' ot h t : triggers s' = fired (triggers s) ot → own_thread s h t → own_thread s' h t.
Proof.
  intros Heq (tr & Ht & Hh). unfold own_thread. rewrite Heq. destruct ot as [t2|]; [|by exists tr]. cbn. destruct (decide (t = t2)) as [->|].
  - rewrite lookup_alter_eq, Ht. cbn. by eexists.
  - rewrite lookup_alter_ne by done. by exists tr.
Qed.
Lemma fired_pending s s' ot t : triggers s' = fired (triggers s) ot → is_pending s t = true → is_pending s' t = true.
Proof.
  unfold is_pending. intros -> Hp. destruct ot as [t2|]; [|done]. cbn. destruct (decide (t = t2)) as [->|].
  - rewrite lookup_alter_eq. by destruct (triggers s !! t2).
  - by rewrite lookup_alter_ne.
Qed.

(** The first outcome is stored and the consumer's trigger fired. *)
Definition store (o : outcome V X) (st : zend_future_shared_state_t V X) : zend_future_shared_state_t V X :=
  match o with
  | OValue v => set_transferred_result (Some v) (set_completed true st)
  | OException x c => set_transferred_exception (Some (x, c)) (set_completed true st)
  end.
Definition completed_with (o : outcome V X) s : sys :=
  set_triggers (fired (triggers s) (trigger (state s))) (set_history (history s ++ [Copied o]) (set_state (store o (state s)) s)).
Lemma completed_with_inv ok s o : Inv ok s → freed (state s) = false → completed (state s) = false → Inv ok (completed_with o s).
Proof.
  intros HI Hf Hc. destruct (completed_copy ok s HI Hf Hc) as (Hh & Hr & Hx).
  assert (∀ h t, own_thread s h t → own_thread (completed_with o s) h t) as Hown.
  { intros h t. by eapply fired_own. }
  destruct HI. constructor; unfold completed_with; cbn; rewrite ?Hh; try done.
  - by destruct o.
  - by destruct o.
  - intros Hd. destruct (inv_dead0 Hd). split; [done|]. by destruct o.
  - intros t l Ht. apply Hown. eauto.
  - intros Hs. destruct o; cbn; auto.
  - intros t Ht. assert (trigger (state s) = Some t) as Ht' by (by destruct o). destruct (inv_trigger0 t Ht') as [? Htr].
    split; [by destruct o|]. rewrite Ht'. cbn. by rewrite lookup_alter_eq, Htr.
  - intros Hok Ha Hs. specialize (inv_live0 Hok Ha Hs). by destruct o.
  - intros h p Hp. eapply producer_ok_same; [apply Hown| |by apply inv_producer0]. by destruct o.
  - destruct o; cbn; auto.
  - unfold copy_ok. cbn. rewrite ?Hh. right; left. exists o. by destruct o; cbn; rewrite ?Hr, ?Hx.
  - intros h p t Hp Htd He Hb Hreq. destruct (inv_cancel0 h p t Hp Htd He Hb) as [?|?]; [by destruct o|by left|right].
    by eapply fired_pending.
Qed.

Lemma complete_section ok s o : Inv ok s → freed (state s) = false →
  wp (match o with OValue v => async_future_shared_state_complete v | OException x c => async_future_shared_state_reject x c end)
    (λ _ s', Inv ok s' ∧ consumer s' = consumer s ∧ producers s' = producers s) s.
Proof.
  intros HI Hf.
  assert (completed (state s) = false → wp (fire_if_any (trigger (state s)))
    (λ _ s', Inv ok s' ∧ consumer s' = consumer s ∧ producers s' = producers s)
    (set_history (history s ++ [Copied o]) (set_state (store o (state s)) s))) as Hend.
  { intros Hc. apply wp_fire_if_any; [|split; [exact (completed_with_inv ok s o HI Hf Hc)|done]].
    intros t Ht. destruct (inv_trigger _ _ HI t Ht) as [_ ?]. cbn. eauto. }
  destruct o as [v|x c]; unfold async_future_shared_state_complete, async_future_shared_state_reject;
    rewrite wp_bind, wp_get_state by done; destruct (completed (state s)) eqn:Hc; try (by rewrite wp_ret);
    repeat (rewrite wp_bind, ?wp_upd_state, ?wp_record); by apply Hend.
Qed.

(** ** The request to stop *)
Lemma request_inv ok s : Inv ok s → freed (state s) = false →
  Inv ok (set_triggers (fired (triggers s) (cancel_trigger (state s))) (set_state (set_cancel_requested true (state s)) s)).
Proof.
  intros HI Hf. set (s' := set_triggers _ _).
  assert (∀ h t, own_thread s h t → own_thread s' h t) as Hown by (intros h t; by eapply fired_own).
  assert (∀ t, cancel_trigger (state s) = Some t → is_pending s' t = true) as Hpend.
  { intros t Ht. destruct (inv_bound _ _ HI t Ht) as (h & p & Hp & Hb). destruct (inv_producer _ _ HI h p Hp) as [Hbt _].
    destruct (Hbt t Hb) as [(tr & Htr & _) _]. unfold is_pending, s'. cbn. rewrite Ht. cbn. by rewrite lookup_alter_eq, Htr. }
  pose proof HI as []. constructor; try done; cbn.
  - intros t l Ht. apply Hown. eauto.
  - intros t Ht. destruct (inv_trigger0 t Ht) as [? Htr]. split; [done|].
    destruct (cancel_trigger (state s)) as [t'|] eqn:Hct; [|done]. cbn. rewrite lookup_alter_ne; [done|]. intros ->.
    destruct (inv_bound _ _ HI t Hct) as (h & p & Hp & Hb). destruct (inv_producer0 h p Hp) as [Hbt _].
    destruct (Hbt t Hb) as [(tr & Htr' & Hth) _]. rewrite Htr in Htr'. injection Htr' as <-. cbn in Hth. congruence.
  - intros h p Hp. eapply producer_ok_same; [apply Hown|done|by apply inv_producer0].
  - intros h p t Hp Htd He Hb _. right. apply Hpend. by apply (inv_producer0 h p Hp).
Qed.
Lemma request_section ok s : Inv ok s → freed (state s) = false →
  wp async_future_shared_state_request_cancel (λ _ s', Inv ok s' ∧ consumer s' = consumer s ∧ producers s' = producers s) s.
Proof.
  intros HI Hf. unfold async_future_shared_state_request_cancel. rewrite wp_bind, wp_get_state by done.
  destruct (completed (state s)); [by rewrite wp_ret|]. rewrite wp_bind, wp_upd_state.
  apply wp_fire_if_any; [|split; [exact (request_inv ok s HI Hf)|done]].
  intros t Ht. destruct (inv_bound _ _ HI t Ht) as (h & p & Hp & Hb). destruct (inv_producer _ _ HI h p Hp) as [Hbt _].
  destruct (Hbt t Hb) as [(tr & ? & _) _]. eauto.
Qed.

(** ** The end of a reference *)
Definition dropped s : list (copy_event V X) := match history s with [Copied o] => [Dropped o] | _ => [] end.
Definition unref s : sys :=
  let st := set_ref_count (ref_count (state s) - 1) (state s) in
  if ref_count (state s) =? 1 then set_history (history s ++ dropped s) (set_state (set_freed true st) s) else set_state st s.

Lemma wp_drop_copies s (Φ : unit → sys → Prop) : copy_ok s → freed (state s) = false →
  Φ tt (set_history (history s ++ dropped s) s) → wp drop_copies Φ s.
Proof.
  intros Hc Hf HΦ. unfold drop_copies. rewrite wp_bind, wp_get_state by done. unfold dropped in HΦ.
  destruct Hc as [(Hh & -> & ->)|[(o & _ & _ & Hh & Ho)|[(o & _ & Hh & -> & -> & _)|(o & ? & _)]]]; [| | |congruence];
    rewrite Hh in HΦ; cbn in HΦ.
  - rewrite wp_bind, !wp_ret. rewrite <- Hh in HΦ. by destruct s.
  - destruct o; destruct Ho as [-> ->]; rewrite wp_bind.
    + rewrite wp_record, wp_ret, Hh. exact HΦ.
    + rewrite wp_ret, wp_record, Hh. exact HΦ.
  - rewrite wp_bind, !wp_ret. rewrite <- Hh in HΦ. by destruct s.
Qed.
Lemma wp_delref th s (Φ : unit → sys → Prop) : copy_ok s → freed (state s) = false →
  (ref_count (state s) = 1 → trigger (state s) = None ∧ cancel_trigger (state s) = None) →
  Φ tt (unref s) → wp (async_future_shared_state_delref th) Φ s.
Proof.
  intros Hc Hf Hlast HΦ. unfold async_future_shared_state_delref. rewrite wp_bind, wp_get_state by done.
  rewrite wp_bind, wp_upd_state, wp_when. unfold unref in HΦ. destruct (ref_count (state s) =? 1) eqn:Hr; [|exact HΦ].
  apply Z.eqb_eq in Hr. destruct (Hlast Hr) as [Ht Hct]. unfold async_future_shared_state_destroy. rewrite wp_bind.
  apply wp_drop_copies; [exact Hc|done|]. rewrite wp_bind, wp_get_state by done. cbn. rewrite Ht, Hct.
  rewrite wp_bind, wp_ret, wp_bind, wp_assert. split; [done|]. exact HΦ.
Qed.

Lemma unref_inv ok s c ps : Inv ok s → freed (state s) = false → (ref_count (state s) = 1 → trigger (state s) = None) →
  Z.b2z (alive c) + Z.of_nat (size ps) = ref_count (state s) - 1 → ps ⊆ producers s →
  (∀ t, cancel_trigger (state s) = Some t → ∃ h p, ps !! h = Some p ∧ bound p = Some t) →
  (alive c = false → c_todo c = [] ∧ trigger (state s) = None) → (c = consumer s ∨ c_todo c = [] ∧ alive c = false) →
  settled c = settled (consumer s) → Inv ok (set_consumer c (set_producers ps (unref s))).
Proof.
  intros HI Hf Hlast Hcount Hsub Hb Hdead Hc Hset. pose proof HI as [].
  assert (∀ h p, ps !! h = Some p → producers s !! h = Some p) as Hps by (intros h p Hp; by eapply lookup_weaken).
  assert (triggers (unref s) = triggers s ∧ cancel_trigger (state (unref s)) = cancel_trigger (state s) ∧
    trigger (state (unref s)) = trigger (state s) ∧ target_future (state (unref s)) = target_future (state s) ∧
    cancel_requested (state (unref s)) = cancel_requested (state s) ∧ ref_count (state (unref s)) = ref_count (state s) - 1 ∧
    freed (state (unref s)) = (ref_count (state s) =? 1)) as (Et & Ec & Etr & Etf & Ecr & Er & Efr).
  { unfold unref. destruct (ref_count (state s) =? 1) eqn:E; cbn; rewrite ?Hf; done. }
  constructor; cbn; rewrite ?Et, ?Ec, ?Etr, ?Etf, ?Ecr, ?Er, ?Efr; try done.
  - destruct (Z.eqb_spec (ref_count (state s)) 1); [rewrite bool_decide_eq_true_2 by lia|rewrite bool_decide_eq_false_2 by lia]; done.
  - apply eq_None_not_Some. intros [p Hp]. rewrite (Hps _ _ Hp) in inv_zero0. done.
  - destruct Hc as [->|[-> _]]; [done|constructor].
  - intros t l Ht. destruct Hc as [->|[Hn _]]; [|congruence]. unfold own_thread. cbn. rewrite Et. by eapply inv_dispose0.
  - destruct Hc as [->|[-> _]]; done.
  - intros t Ht. destruct (inv_trigger0 t Ht) as [? Htr]. split; [done|].
    unfold undelivered, unref. cbn. destruct (Z.eqb_spec (ref_count (state s)) 1) as [Hr|]; [|done].
    by rewrite (Hlast Hr) in Ht.
  - destruct Hc as [->|[_ ->]]; done.
  - intros h p Hp. eapply (producer_ok_same s); [|done|by apply inv_producer0, Hps]. intros t. unfold own_thread. cbn. by rewrite Et.
  - intros h1 h2 p1 p2 H1 H2. apply inv_tracked0; eauto.
  - unfold unref, copy_ok. cbn. unfold dropped. destruct (Z.eqb_spec (ref_count (state s)) 1) as [Hr|Hr]; cbn; rewrite ?Hset.
    + destruct inv_copy0 as [(Hh & ? & ?)|[(o & ? & _ & Hh & _)|[(o & ? & Hh & ?)|(o & ? & ?)]]]; [| | |congruence]; rewrite Hh; cbn.
      * by left.
      * right; right; right. by exists o.
      * right; right; left. by exists o.
    + exact inv_copy0.
  - unfold is_pending. cbn. rewrite Et. eauto.
Qed.

(** ** The consumer goes on *)
Lemma wp_run_consumer s sec l (Φ : unit → sys → Prop) : c_todo (consumer s) = sec :: l →
  wp (run_section 0 sec) (λ more s', Φ tt (set_consumer (set_c_todo (more ++ l) (consumer s')) s')) s → wp (run_thread 0) Φ s.
Proof.
  intros Hl Hwp. unfold run_thread. rewrite wp_bind, wp_get. rewrite bool_decide_eq_true_2 by done. rewrite Hl, wp_bind.
  eapply wp_mono; [exact Hwp|]. intros more s' HΦ. exact HΦ.
Qed.
Lemma consumer_alive ok s : Inv ok s → c_todo (consumer s) ≠ [] → alive (consumer s) = true.
Proof. intros HI Hl. destruct (alive (consumer s)) eqn:Ha; [done|]. by destruct (inv_dead _ _ HI Ha). Qed.

(** The consumer's functions come to their next section. *)
Lemma next_section ok s l : Inv ok s → alive (consumer s) = true → consumer_at l → (∀ t l', l = SDisposeTrigger t :: l' → own_thread s 0 t) →
  (severed l = true → trigger (state s) = None) → (severed l = false → severed (c_todo (consumer s)) = false) →
  Inv ok (set_consumer (set_c_todo l (consumer s)) s).
Proof. intros HI Ha Hat Hd Hs Hs'. apply consumer_change; try done. intros Hf. cbn in Hf. congruence. Qed.

Lemma severed_inv ok s : Inv ok s → freed (state s) = false → c_todo (consumer s) = [SSever; SDelref] →
  wp sever (λ ot s', Inv false s' ∧ consumer s' = consumer s ∧ trigger (state s') = None ∧
    (∀ t, ot = Some t → own_thread s' 0 t)) s.
Proof.
  intros HI Hf Hl. unfold sever. rewrite wp_bind, wp_get_state, wp_bind by done.
  assert (∀ st', ref_count st' = ref_count (state s) → freed st' = freed (state s) → transferred_result st' = transferred_result (state s) →
    transferred_exception st' = transferred_exception (state s) → (completed (state s) = true → completed st' = true) →
    trigger st' = None → cancel_requested st' = cancel_requested (state s) → cancel_trigger st' = cancel_trigger (state s) →
    Inv false (set_state st' s)) as Hst.
  { intros st' E1 E2 E3 E4 Ec E5 E6 E7. pose proof HI as []. constructor; cbn; rewrite ?E1, ?E2, ?E5, ?E6, ?E7; try done.
    - intros Hd. by destruct (inv_dead0 Hd).
    - intros h p Hp. eapply (producer_ok_same s); [done|done|auto].
    - unfold copy_ok. cbn. rewrite E2, E3, E4.
      destruct inv_copy0 as [?|[(o & ? & ?)|[(o & ? & ?)|?]]]; [by left|right; left; exists o; by split; [auto|]|
        right; right; left; exists o; by split; [auto|]|by right; right; right]. }
  assert (∀ t, trigger (state s) = Some t → own_thread s 0 t) as Hown.
  { intros t Ht. destruct (inv_trigger _ _ HI t Ht) as [_ Htr]. by eexists. }
  destruct (trigger (state s)) as [t|] eqn:Ht.
  - rewrite wp_bind, !wp_upd_state, wp_bind, wp_upd_state, wp_ret. cbn. split_and!; [by apply Hst|done|done|]. intros t' [= <-]. by apply Hown.
  - rewrite wp_ret, wp_bind, wp_upd_state, wp_ret. cbn. split_and!; [by apply Hst|done|by cbn|done].
Qed.

Lemma dispose_inv ok s t : Inv ok s → c_todo (consumer s) = [SDisposeTrigger t; SDelref] →
  Inv ok (set_consumer (set_c_todo [SDelref] (consumer s)) (set_triggers (delete t (triggers s)) s)).
Proof.
  intros HI Hl. pose proof (consumer_alive _ _ HI ltac:(by rewrite Hl)) as Ha. pose proof HI as [].
  assert (trigger (state s) = None) as Htr by (apply inv_severed0; by rewrite Hl).
  destruct (inv_dispose0 t _ Hl) as (tr & Ht & Hth).
  assert (∀ h t', h ≠ 0%nat → own_thread s h t' → t' ≠ t) as Hne by (intros h t' Hh (tr' & ? & ?) ->; congruence).
  assert (∀ h p, producers s !! h = Some p → h ≠ 0%nat) as Hz by (intros h p Hp ->; congruence).
  constructor; cbn; try done.
  - constructor.
  - rewrite Ha. done.
  - rewrite Htr. done.
  - intros h p Hp. pose proof (inv_producer0 h p Hp) as [Hb Hs]. specialize (Hz _ _ Hp).
    assert (∀ t', own_thread s h t' → own_thread (set_consumer (set_c_todo [SDelref] (consumer s)) (set_triggers (delete t (triggers s)) s)) h t') as Hown.
    { intros t' Ho. pose proof (Hne _ _ Hz Ho). destruct Ho as (tr' & ? & ?). exists tr'. cbn. by rewrite lookup_delete_ne. }
    split; [intros t' Ht'; destruct (Hb t' Ht'); auto|]. repeat case_match; naive_solver.
  - intros h p t' Hp Htd He Hb Hreq. unfold is_pending. cbn. rewrite lookup_delete_ne.
    + by apply (inv_cancel0 h p t' Hp).
    + intros <-. destruct (inv_producer0 h p Hp) as [Hb' _]. destruct (Hb' t Hb) as [Ho _]. by destruct (Hne _ _ (Hz _ _ Hp) Ho).
Qed.

Lemma consumer_delref ok s : Inv ok s → c_todo (consumer s) = [SDelref] →
  wp (run_thread 0) (λ _ s', Inv ok s') s.
Proof.
  intros HI Hl. pose proof (consumer_alive _ _ HI ltac:(by rewrite Hl)) as Ha.
  pose proof (inv_alive _ _ HI (or_introl Ha)) as Hf. assert (trigger (state s) = None) as Ht.
  { apply (inv_severed _ _ HI). by rewrite Hl. }
  eapply wp_run_consumer; [done|]. cbn [run_section]. rewrite wp_bind.
  apply wp_delref; [apply HI|done| |].
  - intros Hr. split; [done|]. apply eq_None_not_Some. intros [t Hct]. destruct (inv_bound _ _ HI t Hct) as (h & p & Hp & _).
    rewrite (inv_refs _ _ HI), Ha in Hr. cbn in Hr. assert (size (producers s) = 0%nat) as He by lia.
    apply map_size_empty_iff in He. by rewrite He in Hp.
  - rewrite bool_decide_eq_true_2 by done. rewrite wp_bind, wp_upd_consumer, wp_ret.
    assert (consumer (unref s) = consumer s ∧ producers (unref s) = producers s) as [Ec Ep].
    { unfold unref. by destruct (_ =? _). }
    pose proof (unref_inv ok s (set_c_todo [] (set_alive false (consumer s))) (producers s) HI Hf) as Hinv.
    assert (∀ s', producers s' = producers s → set_producers (producers s) s' = s') as Hid by (intros [] <-; done).
    rewrite (Hid (unref s) Ep) in Hinv. cbn. rewrite Ec.
    apply Hinv; try done.
    + rewrite (inv_refs _ _ HI), Ha. cbn. lia.
    + apply (inv_bound _ _ HI).
    + by right.
Qed.

Lemma run_consumer ok s : Inv ok s → c_todo (consumer s) ≠ [] → wp (run_thread 0) (λ _ s', Inv ok s') s.
Proof.
  intros HI Hl. pose proof (consumer_alive _ _ HI Hl) as Ha. pose proof (inv_alive _ _ HI (or_introl Ha)) as Hf.
  pose proof (inv_consumer _ _ HI) as Hat.
  assert (∀ sec l, is_request sec = true → c_todo (consumer s) = sec :: l → (∀ sec', is_request sec' = true → consumer_at (sec' :: l)) →
    consumer_at l → severed l = false → (∀ t l', l ≠ SDisposeTrigger t :: l') → wp (run_thread 0) (λ _ s', Inv ok s') s) as Hreq.
  { intros sec l Hsec Heq Hat' Hatl Hsl Hnd. eapply wp_run_consumer; [done|].
    assert (∀ sec', is_request sec' = true → severed (sec' :: l) = false) as Hs' by (by intros [] ?).
    destruct sec; try done; cbn [run_section].
    - rewrite wp_bind, wp_get_state, wp_ret by done. destruct (completed (state s)).
      + apply next_section; try done; [by intros t l' []%Hnd|by cbn; rewrite Hsl|rewrite Heq; intros; by apply Hs'].
      + apply next_section; try done; [by apply Hat'|rewrite Heq; intros; by apply Hs'].
    - rewrite wp_bind. eapply wp_mono; [by apply (request_section ok)|]. intros _ s' (HI' & Ec & _). rewrite wp_ret.
      apply next_section; try done; [congruence|by intros t l' []%Hnd|by cbn; rewrite Hsl|rewrite Ec, Heq; intros; by apply Hs']. }
  inversion Hat as [Hn|o Hn|sec o Hsec Hn|sec Hsec Hn|Hn|t Hn|Hn]; symmetry in Hn.
  - done.
  - eapply wp_run_consumer; [done|]. cbn [run_section]. unfold future_resolve. rewrite wp_bind, wp_upd_consumer, wp_ret.
    set (c := match settled (consumer s) with None => _ | Some _ => _ end).
    assert (alive c = alive (consumer s) ∧ (settled (consumer s) ≠ None → settled c ≠ None)) as [Ec Hset].
    { unfold c. unfold not. destruct (settled (consumer s)) eqn:E; cbn; rewrite ?E; naive_solver. }
    assert (∀ c', set_consumer c' (set_consumer c s) = set_consumer c' s) as Htw by done. cbn. rewrite Htw.
    apply consumer_change; try done. + constructor. + by rewrite Hn.
  - eapply Hreq; try done; intros; by constructor.
  - eapply Hreq; try done; intros; by constructor.
  - eapply wp_run_consumer; [done|]. cbn [run_section]. rewrite wp_bind.
    eapply wp_mono; [by apply (severed_inv ok)|]. intros ot s' (HI' & Ec & Ht & Hown). rewrite wp_ret.
    assert (Inv false (set_consumer (set_c_todo ((match ot with Some t => [SDisposeTrigger t] | None => [] end) ++ [SDelref]) (consumer s')) s')) as HI2.
    { apply next_section; [done|by rewrite Ec| | |done|].
      - destruct ot; constructor.
      - intros t l'. destruct ot as [t'|]; [|done]. intros [= -> _]. auto.
      - destruct ot; cbn; congruence. }
    destruct HI2. constructor; try done. intros _ _ Hs. destruct ot; done.
  - eapply wp_run_consumer; [done|]. cbn [run_section]. rewrite wp_bind. unfold dispose_trigger.
    destruct (inv_dispose _ _ HI t _ Hn) as (tr & Htr & Hth). rewrite wp_bind, wp_get, wp_bind.
    rewrite (wp_defined _ _ _ _ Htr). cbn. rewrite wp_bind, wp_assert. split; [by apply bool_decide_eq_true|].
    rewrite wp_modify, wp_ret. exact (dispose_inv ok s t HI Hn).
  - by apply consumer_delref.
Qed.

(** ** A producer goes on *)
Definition with_producer h p s : sys := set_producers (<[h := p]> (producers s)) s.
Lemma wp_run_producer s h p sec (Φ : unit → sys → Prop) : h ≠ 0%nat → producers s !! h = Some p → p_todo p = [sec] →
  wp (run_section h sec) (λ more s', Φ tt (set_producers (alter (λ p, set_p_todo (more ++ p_todo p) p) h (producers s')) s'))
    (with_producer h (set_p_todo [] p) s) →
  wp (run_thread h) Φ s.
Proof.
  intros Hh Hp Hl Hwp. unfold run_thread. rewrite wp_bind, wp_get. rewrite bool_decide_eq_false_2 by done.
  rewrite wp_bind. rewrite (wp_defined _ _ _ _ Hp). cbn. rewrite Hl, wp_bind, wp_upd_producer.
  rewrite (insert_alter_same _ h p) by done. rewrite wp_bind. eapply wp_mono; [exact Hwp|]. intros more s' HΦ. exact HΦ.
Qed.
Lemma producer_done s h p more : producers s !! h = Some p → p_todo p = [] →
  set_producers (alter (λ p, set_p_todo (more ++ p_todo p) p) h (producers s)) s = with_producer h (set_p_todo more p) s.
Proof. intros Hp Hl. unfold with_producer. by rewrite (insert_alter_same _ h p), Hl, app_nil_r. Qed.
Lemma with_producer_twice h p1 p2 s : with_producer h p2 (with_producer h p1 s) = with_producer h p2 s.
Proof. unfold with_producer. cbn. by rewrite insert_insert_eq. Qed.
Lemma with_producer_eq h p s : producers (with_producer h p s) !! h = Some p.
Proof. apply lookup_insert_eq. Qed.
Lemma producer_thread ok s h p : Inv ok s → producers s !! h = Some p → h ≠ 0%nat.
Proof. intros HI Hp ->. by rewrite (inv_zero _ _ HI) in Hp. Qed.

Definition free_section (sec : section V X) : bool :=
  match sec with SLoadCompleted _ | SComplete _ | SReject _ _ => true | _ => false end.
Definition free_todo (l : todo_t) : bool := match l with [] => true | [sec] => free_section sec | _ => false end.

(** A producer at rest starts a completion, or comes back from one. *)
Lemma todo_change ok s h p l : Inv ok s → producers s !! h = Some p → free_todo (p_todo p) = true → free_todo l = true →
  Inv ok (with_producer h (set_p_todo l p) s).
Proof.
  intros HI Hp Hl1 Hl2. destruct (inv_producer _ _ HI h p Hp) as [Hb Hs].
  assert (entry p = None ↔ bound p = None) as Heb.
  { destruct (p_todo p) as [|[] [|]]; try done. }
  eapply producer_change; [done|done| | |done|].
  - split; [done|]. cbn. destruct l as [|[] [|]]; try done.
  - by left.
  - intros t _ He Hbt Hreq. apply (inv_cancel _ _ HI h p t); try done. by intros E; rewrite E in Hl1.
Qed.

Lemma cancel_trigger_change ok s h p p' : Inv ok s → producers s !! h = Some p → tracked p →
  (∀ t, bound p' = Some t → own_thread s h t ∧ cancel_requested (state s) = false) →
  p_todo p' = [] → (entry p' = None ↔ bound p' = None) →
  Inv ok (with_producer h p' (set_state (set_cancel_trigger (bound p') (state s)) s)).
Proof.
  intros HI Hp Ht Hb Hl Heb. pose proof HI as [].
  assert (∀ h2 p2, producers s !! h2 = Some p2 → h2 ≠ h → entry p2 = None ∧ bound p2 = None) as Hrest.
  { intros h2 p2 Hp2 Hne. destruct (decide (entry p2 = None)), (decide (bound p2 = None)); try done;
      destruct Hne; eapply inv_tracked0; eauto; (by left) || by right. }
  constructor; cbn; try done.
  - by rewrite map_size_insert_Some by eauto.
  - rewrite lookup_insert_ne; [done|]. intros ->. congruence.
  - intros h2 p2 [[<- <-]|[Hne Hp2]]%lookup_insert_Some.
    + split; [intros t Hbt; split; [by apply Hb|done]|]. by rewrite Hl.
    + destruct (inv_producer0 h2 p2 Hp2) as [Hb2 Hs2]. destruct (Hrest h2 p2 Hp2 ltac:(done)) as [_ Hn].
      split; [intros t; congruence|]. exact Hs2.
  - intros h1 h2 p1 p2 [[<- <-]|[Hn1 Hp1]]%lookup_insert_Some [[<- <-]|[Hn2 Hp2]]%lookup_insert_Some T1 T2; eauto.
  - intros t Hbt. exists h, p'. by rewrite lookup_insert_eq.
  - intros h2 p2 t [[<- <-]|[Hne Hp2]]%lookup_insert_Some Htd He Hbt Hreq; [|by eapply inv_cancel0].
    destruct (Hb t Hbt). congruence.
Qed.

(** A reference is dropped by the thread that held it. *)
Lemma producer_delref ok s h p : Inv ok s → producers s !! h = Some p → p_todo p = [SDelref] → entry p = None ∧ bound p = None →
  wp (run_thread h) (λ _ s', Inv ok s') s.
Proof.
  intros HI Hp Hl [He Hb]. pose proof (producer_thread _ _ _ _ HI Hp) as Hh. pose proof (inv_held _ _ _ _ HI Hp) as Hf.
  assert (size (producers s) = S (size (delete h (producers s)))) as Hsz.
  { rewrite map_size_delete_Some by eauto. assert (size (producers s) ≠ 0%nat) by (intros E%map_size_empty_iff; by rewrite E in Hp). lia. }
  assert (∀ t, cancel_trigger (state s) = Some t → ∃ h2 p2, delete h (producers s) !! h2 = Some p2 ∧ bound p2 = Some t) as Hbd.
  { intros t Ht. destruct (inv_bound _ _ HI t Ht) as (h2 & p2 & Hp2 & Hb2). exists h2, p2. rewrite lookup_delete_ne; [done|]. congruence. }
  assert (ref_count (state s) = 1 → trigger (state s) = None ∧ cancel_trigger (state s) = None) as Hlast.
  { intros Hr. rewrite (inv_refs _ _ HI), Hsz in Hr. assert (size (delete h (producers s)) = 0%nat ∧ alive (consumer s) = false) as [Hz Ha].
    { destruct (alive (consumer s)); cbn in Hr; split; (done || lia). }
    split; [by apply (inv_dead _ _ HI)|]. apply eq_None_not_Some. intros [t Ht]. destruct (Hbd t Ht) as (h2 & p2 & Hp2 & _).
    apply map_size_empty_iff in Hz. by rewrite Hz in Hp2. }
  eapply wp_run_producer; [done..|]. cbn [run_section]. rewrite wp_bind.
  apply wp_delref; [exact (inv_copy _ _ HI)|exact Hf|exact Hlast|]. rewrite bool_decide_eq_false_2 by done.
  rewrite wp_bind, wp_modify, wp_ret.
  assert (Inv ok (set_consumer (consumer s) (set_producers (delete h (producers s)) (unref s)))) as HI'.
  { apply (unref_inv ok); try done.
    - intros Hr. by apply Hlast.
    - rewrite (inv_refs _ _ HI), Hsz. lia.
    - apply delete_subseteq.
    - apply (inv_dead _ _ HI).
    - by left. }
  assert (∀ g q, alter g h (delete h (<[h := q]> (producers s))) = delete h (producers s)) as Hdel.
  { intros g q. rewrite delete_insert_eq. apply map_eq. intros k. destruct (decide (k = h)) as [->|].
    - by rewrite lookup_alter_eq, lookup_delete_eq.
    - by rewrite lookup_alter_ne. }
  unfold unref in *. change (state (with_producer h _ s)) with (state s). destruct (ref_count (state s) =? 1); cbn; by rewrite Hdel.
Qed.

Lemma run_producer ok s h p : Inv ok s → producers s !! h = Some p → p_todo p ≠ [] → wp (run_thread h) (λ _ s', Inv ok s') s.
Proof.
  intros HI Hp Hl. pose proof (producer_thread _ _ _ _ HI Hp) as Hh. pose proof (inv_held _ _ _ _ HI Hp) as Hf.
  destruct (inv_producer _ _ HI h p Hp) as [Hb Hs].
  assert (∀ sec, p_todo p = [sec] → free_section sec = true →
    wp (run_section h sec) (λ more s', free_todo more = true ∧ Inv ok s' ∧ producers s' !! h = Some (set_p_todo [] p))
      (with_producer h (set_p_todo [] p) s) → wp (run_thread h) (λ _ s', Inv ok s') s) as Hfree.
  { intros sec Heq Hsec Hwp. eapply wp_run_producer; [done..|]. eapply wp_mono; [exact Hwp|]. intros more s' (Hm & HI' & Hp').
    rewrite (producer_done _ _ _ _ Hp') by done. by apply todo_change. }
  assert (∀ sec, p_todo p = [sec] → free_section sec = true → Inv ok (with_producer h (set_p_todo [] p) s)) as Hpop.
  { intros sec Heq Hsec. apply todo_change; try done. by rewrite Heq. }
  destruct (p_todo p) as [|sec [|]] eqn:Heq; [done| |by destruct sec].
  destruct sec; try done.
  - apply (Hfree _ eq_refl eq_refl). cbn [run_section]. rewrite wp_bind, wp_get_state, wp_ret by done.
    split_and!; [|by eapply Hpop|apply with_producer_eq]. cbn. by destruct (completed (state s)), o.
  - apply (Hfree _ eq_refl eq_refl). cbn [run_section]. rewrite wp_bind.
    eapply wp_mono; [apply (complete_section ok _ (OValue v)); [by eapply Hpop|done]|]. intros _ s' (HI' & _ & Ep). rewrite wp_ret.
    split_and!; [done|done|]. rewrite Ep. apply with_producer_eq.
  - apply (Hfree _ eq_refl eq_refl). cbn [run_section]. rewrite wp_bind.
    eapply wp_mono; [apply (complete_section ok _ (OException x is_cancel)); [by eapply Hpop|done]|]. intros _ s' (HI' & _ & Ep). rewrite wp_ret.
    split_and!; [done|done|]. rewrite Ep. apply with_producer_eq.
  - (* SBindCancel *) destruct Hs as (He & Hbn & Hown).
    eapply wp_run_producer; [done..|]. cbn [run_section]. rewrite wp_bind. unfold async_future_shared_state_bind_cancel.
    rewrite wp_bind, wp_get_state by done. change (state (with_producer h _ s)) with (state s). destruct (cancel_requested (state s)) eqn:Hreq.
    + rewrite wp_ret, wp_bind, wp_upd_producer, wp_ret. cbn. rewrite !alter_insert_same.
      apply (producer_change ok s h p (set_stopped true (set_entry None (set_p_todo [] p)))); [done|done| | |cbn; congruence|done].
      * split; [cbn; congruence|]. cbn. by rewrite Hbn.
      * intros [?|?]; cbn in *; congruence.
    + rewrite wp_bind, wp_upd_state, wp_ret, wp_bind, wp_upd_producer, wp_ret. cbn. rewrite !alter_insert_same.
      apply (cancel_trigger_change ok s h p (set_bound (Some t) (set_p_todo [] p))); try done; [by left|by intros t' [= <-]].
  - (* SUnbindCancel *) destruct Hs as (He & Hbn).
    eapply wp_run_producer; [done..|]. cbn [run_section]. rewrite wp_bind. unfold async_future_shared_state_unbind_cancel.
    rewrite wp_bind, wp_get_state by done. rewrite wp_upd_state, wp_bind, wp_upd_producer, wp_ret. cbn. rewrite !alter_insert_same.
    apply (cancel_trigger_change ok s h p (set_bound None (set_p_todo [] p))); try done. by right.
  - (* SRecheck *) destruct Hs as (He & Hbn).
    eapply wp_run_producer; [done..|]. cbn [run_section]. rewrite wp_bind, wp_get_state, wp_bind, wp_when by done.
    change (state (with_producer h _ s)) with (state s).
    assert (∀ b, b = cancel_requested (state s) → Inv ok (with_producer h (set_stopped (stopped p || b) (set_p_todo [] p)) s)) as Hfin.
    { intros b ->. eapply producer_change; [done|done| | |done|].
      - split; [exact Hb|]. cbn. by rewrite He.
      - left. by right.
      - intros t _ _ _ ->. left. cbn. by rewrite orb_true_r. }
    destruct (cancel_requested (state s)) eqn:Hreq; specialize (Hfin _ eq_refl).
    + rewrite wp_upd_producer, wp_ret. cbn. rewrite !alter_insert_same. rewrite orb_true_r in Hfin. exact Hfin.
    + rewrite wp_ret. rewrite orb_false_r in Hfin. cbn. rewrite !alter_insert_same. exact Hfin.
  - (* SDelref *) by apply (producer_delref ok s h p).
Qed.
End proofs.
