(* ===== verification/SharedFutureSteps.v ===== *)
(** * Every operation on a shared future keeps the invariant *)

From S2P Require Import Prelude SharedFuture SharedFutureProofs.
From stdpp Require Import tactics.

Local Open Scope Z_scope.

Section steps.
Context {V X : Type}.
Abbreviation sys := (shared_t V X).
Implicit Types (s : sys) (h t : nat).

Ltac guards := repeat match goal with
  | H : (_ && _)%bool = true |- _ => apply andb_true_iff in H as [? ?]
  | H : bool_decide _ = true |- _ => apply bool_decide_eq_true in H
  end.

Lemma idle_producer s h : idle s h = true → ∃ p, producers s !! h = Some p ∧ p_todo p = [].
Proof. unfold idle. destruct (producers s !! h) as [p|]; [|done]. intros H. exists p. split; [done|]. by destruct (p_todo p). Qed.
Lemma idle_consumer s : consumer_idle s = true → alive (consumer s) = true ∧ c_todo (consumer s) = [].
Proof. unfold consumer_idle. intros [? Hl]%andb_true_iff. split; [done|]. by destruct (c_todo (consumer s)). Qed.

(** ** The consumer *)
Lemma call_consumer_inv ok s l : Inv ok s → consumer_idle s = true → consumer_at l →
  (∀ t l', l ≠ SDisposeTrigger t :: l') → severed l = false → Inv ok (set_consumer (set_c_todo l (consumer s)) s).
Proof.
  intros HI [Ha Hl]%idle_consumer Hat Hd Hs. apply consumer_change; try done; cbn.
  - rewrite Ha. done.
  - intros t l' E. by destruct (Hd t l').
  - congruence.
  - by rewrite Hl.
Qed.
Lemma free_at c : alive c = true → consumer_at (consumer_free (V:=V) (X:=X) c) ∧ (∀ t l', consumer_free c ≠ SDisposeTrigger t :: l') ∧ severed (consumer_free c) = false.
Proof.
  intros _. unfold consumer_free, remote_future_dispose, async_future_state_object_free.
  destruct (kind c); [|by repeat constructor]. destruct (negb (ignored c) && observed c); cbn; by repeat constructor.
Qed.
Lemma resolve_at k o : consumer_at (remote_future_resolve (V:=V) (X:=X) k o) ∧
  (∀ t l', remote_future_resolve k o ≠ SDisposeTrigger t :: l') ∧ severed (remote_future_resolve k o) = false.
Proof. destruct k, o as [|? []]; cbn; by repeat constructor. Qed.

(** ** The references *)
Lemma share_inv ok s h : Inv ok s → freed (state s) = false → h ≠ 0%nat → producers s !! h = None →
  Inv ok (set_producers (<[h := mk_producer None None false []]> (producers s))
    (set_state (set_ref_count (ref_count (state s) + 1) (state s)) s)).
Proof.
  intros HI Hf Hh Hn. pose proof HI as []. constructor; cbn; try done.
  - rewrite map_size_insert_None by done. lia.
  - rewrite inv_freed in Hf. apply bool_decide_eq_false in Hf. rewrite inv_freed, !bool_decide_eq_false_2; [done| |done].
    rewrite inv_refs. destruct (alive (consumer s)); cbn; lia.
  - by rewrite lookup_insert_ne.
  - intros h2 p2 [[<- <-]|[_ ?]]%lookup_insert_Some; [|by eapply (producer_ok_same s); eauto].
    split; [done|]. done.
  - assert (∀ h2 p2, <[h := mk_producer None None false []]> (producers s) !! h2 = Some p2 → tracked p2 → producers s !! h2 = Some p2) as Hold.
    { intros h2 p2 [[<- <-]|[_ ?]]%lookup_insert_Some; [by intros [?|?]|done]. }
    intros h1 h2 p1 p2 H1 H2 T1 T2. eapply inv_tracked; eauto.
  - intros t Ht. destruct (inv_bound t Ht) as (h2 & p2 & Hp2 & ?). exists h2, p2. rewrite lookup_insert_ne; [done|]. congruence.
  - intros h2 p2 t [[<- <-]|[_ ?]]%lookup_insert_Some; [done|eauto].
Qed.
Lemma wp_new_producer ok s h (Φ : unit → sys → Prop) : Inv ok s → freed (state s) = false → h ≠ 0%nat → producers s !! h = None →
  (∀ s', Inv ok s' → Φ tt s') → wp (new_producer h) Φ s.
Proof.
  intros HI Hf Hh Hn HΦ. unfold new_producer, async_future_shared_state_addref. rewrite wp_bind, wp_bind, wp_get_state by done.
  rewrite wp_upd_state, wp_modify. apply HΦ. exact (share_inv ok s h HI Hf Hh Hn).
Qed.

Lemma pass_inv ok s h h' p : Inv ok s → producers s !! h = Some p → p_todo p = [] → bound p = None → entry p = None →
  h' ≠ 0%nat → producers s !! h' = None → Inv ok (set_producers (<[h' := p]> (delete h (producers s))) s).
Proof.
  intros HI Hp Hl Hb He Hh Hn. pose proof HI as []. assert (delete h (producers s) !! h' = None) as Hn'.
  { rewrite lookup_delete_ne; [done|]. congruence. }
  assert (∀ h2 p2, <[h' := p]> (delete h (producers s)) !! h2 = Some p2 → p2 = p ∧ h2 = h' ∨ producers s !! h2 = Some p2) as Hold.
  { intros h2 p2 [[<- <-]|[_ [_ ?]%lookup_delete_Some]]%lookup_insert_Some; [by left|by right]. }
  assert (¬ tracked p) as Hnt by (by intros [?|?]).
  constructor; cbn; try done.
  - rewrite map_size_insert_None by done. rewrite map_size_delete_Some by eauto. rewrite inv_refs.
    assert (size (producers s) ≠ 0%nat) by (intros E%map_size_empty_iff; by rewrite E in Hp). lia.
  - rewrite lookup_insert_ne by done. destruct (decide (h = 0%nat)) as [->|]; [apply lookup_delete_eq|by rewrite lookup_delete_ne].
  - intros h2 p2 [[-> ->]|?]%Hold; [|by eapply (producer_ok_same s); eauto]. split; [congruence|]. by rewrite Hl, Hb, He.
  - intros h1 h2 p1 p2 H1%Hold H2%Hold T1 T2. destruct H1 as [[-> ->]|H1], H2 as [[-> ->]|H2]; try done. by eapply inv_tracked.
  - intros t Ht. destruct (inv_bound t Ht) as (h2 & p2 & Hp2 & Hb2). exists h2, p2.
    rewrite lookup_insert_ne by congruence. rewrite lookup_delete_ne by congruence. done.
  - intros h2 p2 t [[-> ->]|?]%Hold; [congruence|eauto].
Qed.

(** ** The triggers *)
Definition needed s t : Prop :=
  trigger (state s) = Some t ∨ (∃ h p, producers s !! h = Some p ∧ (bound p = Some t ∨ p_todo p = [SBindCancel t])) ∨
  ∃ l, c_todo (consumer s) = SDisposeTrigger t :: l.
Lemma triggers_change ok s tm : Inv ok s → (∀ t, needed s t → tm !! t = triggers s !! t) → Inv ok (set_triggers tm s).
Proof.
  intros HI Htm. pose proof HI as [].
  assert (∀ h t, needed s t → own_thread s h t → own_thread (set_triggers tm s) h t) as Hown.
  { intros h t Hn (tr & ? & ?). exists tr. cbn. by rewrite Htm. }
  constructor; cbn; try done.
  - intros t l Ht. apply Hown; [right; right; eauto|eauto].
  - intros t Ht. rewrite Htm by (by left). by apply inv_trigger.
  - intros h p Hp. destruct (inv_producer h p Hp) as [Hb Hs]. split.
    + intros t Ht. destruct (Hb t Ht). split; [apply Hown; [right; left; eauto|done]|done].
    + destruct (p_todo p) as [|[] []] eqn:E; try done. destruct Hs as (? & ? & ?). split_and!; [done..|]. apply Hown; [right; left; eauto|done].
  - intros h p t Hp Htd He Hb Hreq. unfold is_pending. cbn. rewrite Htm by (right; left; eauto). by apply (inv_cancel h p t).
Qed.

Lemma close_inv ok s h t : Inv ok s → h ≠ 0%nat → own_thread s h t →
  (∀ p, producers s !! h = Some p → p_todo p = [] ∧ bound p = None) → Inv ok (set_triggers (delete t (triggers s)) s).
Proof.
  intros HI Hh (tr & Ht & Hth) Hp. apply triggers_change; [done|]. intros t' Hn. apply lookup_delete_ne. intros <-.
  destruct Hn as [Htr|[(h2 & p2 & Hp2 & Hb)|[l Hl]]].
  - destruct (inv_trigger _ _ HI t Htr) as [_ E]. rewrite Ht in E. injection E as ->. by apply Hh.
  - destruct (inv_producer _ _ HI h2 p2 Hp2) as [Hb2 Hs2]. assert (own_thread s h2 t) as (tr2 & Ht2 & Hth2).
    { destruct Hb as [Hb|Hb]; [by apply Hb2|]. rewrite Hb in Hs2. apply Hs2. }
    rewrite Ht in Ht2. injection Ht2 as <-. assert (h2 = h) as -> by congruence.
    destruct (Hp _ Hp2), Hb; congruence.
  - destruct (inv_dispose _ _ HI t l Hl) as (tr2 & Ht2 & ?). congruence.
Qed.

(** ** The callbacks of the triggers *)
Lemma deliver_inv ok s t o : Inv ok s → consumer_idle s = true → trigger (state s) = Some t → history s = [Copied o] →
  Inv ok (set_consumer (match settled (consumer s) with None => set_settled (Some o) (consumer s) | Some _ => consumer s end)
    (set_state (set_transferred_result None (set_transferred_exception None (state s)))
    (set_history [Copied o; Loaded o] (set_triggers (<[t := mk_trigger 0 false]> (triggers s)) s)))).
Proof.
  intros HI Hidle Ht Hh. pose proof HI as []. destruct (idle_consumer s Hidle) as [Ha Hl].
  destruct (inv_trigger t Ht) as [Htf Htr].
  set (c := match settled (consumer s) with None => _ | Some _ => _ end).
  assert (alive c = alive (consumer s) ∧ c_todo c = c_todo (consumer s) ∧ settled c ≠ None) as (Ec & El & Hset).
  { unfold c. by destruct (settled (consumer s)) eqn:E; cbn; rewrite ?E. }
  assert (∀ h t' tr, h ≠ 0%nat → triggers s !! t' = Some tr → t_thread tr = h → t' ≠ t) as Hne.
  { intros h t' tr Hn Htr' Hth ->. rewrite Htr in Htr'. injection Htr' as <-. by apply Hn. }
  assert (completed (state s) = true) as Hc.
  { destruct inv_copy as [(Hh' & _)|[(o' & ? & _)|[(o' & ? & _)|(o' & ? & Hh')]]]; try done; congruence. }
  constructor; cbn; rewrite ?Ec, ?El, ?Hl; try done.
  - constructor.
  - by rewrite Ha.
  - intros t' Ht'. rewrite Ht in Ht'. injection Ht' as <-. split; [done|]. unfold undelivered. cbn. by rewrite lookup_insert_eq.
  - intros _ _ _. by rewrite Ht.
  - intros h p Hp. destruct (inv_producer h p Hp) as [Hb Hs].
    assert (∀ t', own_thread s h t' → own_thread (set_triggers (<[t := mk_trigger 0 false]> (triggers s)) s) h t') as Hown.
    { intros t' (tr' & ? & ?). exists tr'. cbn. rewrite lookup_insert_ne; [done|]. intros <-.
      eapply (Hne h t); [|done..|done]. intros ->. congruence. }
    split; [intros t' Ht'; destruct (Hb t' Ht'); split; [by apply Hown|done]|].
    destruct (p_todo p) as [|[] []]; try done. destruct Hs as (? & ? & ?). split_and!; [done..|by apply Hown].
  - right; right; left. by exists o.
  - intros h p t' Hp Htd He Hb Hreq. unfold is_pending. cbn. destruct (inv_producer h p Hp) as [Hbt _].
    destruct (Hbt t' Hb) as [(tr' & Htr' & Hth) _]. rewrite lookup_insert_ne; [by apply (inv_cancel h p t')|].
    intros <-. eapply (Hne h t); [|done..|done]. intros ->. congruence.
Qed.

Lemma notified_inv ok s t h p tr : Inv ok s → producers s !! h = Some p → p_todo p = [] → bound p = Some t → triggers s !! t = Some tr →
  Inv ok (set_producers (<[h := set_stopped (stopped p || (bool_decide (entry p = Some Running) && cancel_requested (state s))) p]> (producers s))
    (set_triggers (<[t := mk_trigger (t_thread tr) false]> (triggers s)) s)).
Proof.
  intros HI Hp Hl Hb Htr. pose proof HI as []. set (p' := set_stopped _ p).
  destruct (inv_producer h p Hp) as [Hbt Hs]. destruct (Hbt t Hb) as [(tr2 & Htr2 & Hth) _]. rewrite Htr in Htr2. injection Htr2 as <-.
  assert (h ≠ 0%nat) as Hh by (intros ->; congruence).
  set (s' := set_producers _ _).
  assert (∀ h2 t', own_thread s h2 t' → own_thread s' h2 t') as Hown.
  { intros h2 t' (tr' & Htr' & Hth'). unfold own_thread, s'. cbn. destruct (decide (t' = t)) as [->|].
    - rewrite lookup_insert_eq. eexists. split; [done|]. cbn. congruence.
    - rewrite lookup_insert_ne by done. eauto. }
  assert (tracked p' → tracked p) as Htrk by done.
  constructor; cbn; try done.
  - by rewrite map_size_insert_Some by eauto.
  - by rewrite lookup_insert_ne.
  - intros t' l Ht. apply Hown. eauto.
  - intros t' Ht. destruct (inv_trigger t' Ht) as [? Htr']. split; [done|]. rewrite lookup_insert_ne; [done|].
    intros <-. rewrite Htr in Htr'. injection Htr' as ->. by apply Hh.
  - intros h2 p2 [[<- <-]|[_ ?]]%lookup_insert_Some.
    + eapply producer_ok_same; [apply Hown|done|]. split; [done|]. unfold p'. cbn. by rewrite Hl in *.
    + eapply producer_ok_same; [apply Hown|done|eauto].
  - assert (∀ h2 p2, <[h := p']> (producers s) !! h2 = Some p2 → tracked p2 → ∃ p3, producers s !! h2 = Some p3 ∧ tracked p3) as Hold.
    { intros h2 p2 [[<- <-]|[_ ?]]%lookup_insert_Some T; eauto. }
    intros h1 h2 p1 p2 H1 H2 T1 T2. destruct (Hold _ _ H1 T1) as (? & ? & ?), (Hold _ _ H2 T2) as (? & ? & ?). by eapply inv_tracked.
  - intros t' Ht. destruct (inv_bound t' Ht) as (h2 & p2 & Hp2 & Hb2). destruct (decide (h2 = h)) as [->|].
    + exists h, p'. rewrite lookup_insert_eq. split; [done|]. unfold p'. cbn. congruence.
    + exists h2, p2. by rewrite lookup_insert_ne.
  - intros h2 p2 t' [[<- <-]|[Hne Hp2]]%lookup_insert_Some Htd He Hb2 Hreq.
    + left. unfold p' in *. cbn in *. rewrite He, Hreq. cbn. by rewrite orb_true_r.
    + destruct (inv_cancel h2 p2 t' Hp2 Htd He Hb2 Hreq) as [?|Hpend]; [by left|right].
      unfold is_pending, s' in *. cbn. rewrite lookup_insert_ne; [done|]. intros <-. destruct Hne.
      eapply inv_tracked; [done..|right; congruence|right; congruence].
Qed.

(** The trigger that is pending has a copy to load; it is loaded and the future is settled. *)
Definition delivered t o s : sys :=
  set_consumer (match settled (consumer s) with None => set_settled (Some o) (consumer s) | Some _ => consumer s end)
    (set_state (set_transferred_result None (set_transferred_exception None (state s)))
    (set_history [Copied o; Loaded o] (set_triggers (<[t := mk_trigger 0 false]> (triggers s)) s))).
Lemma wp_deliver ok s t o (Φ : unit → sys → Prop) : Inv ok s → consumer_idle s = true → trigger (state s) = Some t → history s = [Copied o] →
  Φ tt (delivered t o s) → wp (run_op Deliver) Φ s.
Proof.
  intros HI Hidle Ht Hh HΦ. destruct (idle_consumer s Hidle) as [Ha Hl]. pose proof (inv_alive _ _ HI (or_introl Ha)) as Hf.
  destruct (inv_trigger _ _ HI t Ht) as [Htf Htr]. unfold run_op. rewrite wp_bind, wp_get, wp_bind. rewrite (wp_defined _ _ _ _ Ht).
  rewrite wp_bind. rewrite (wp_defined _ _ _ _ Htr), wp_bind, wp_modify. cbn [t_thread].
  unfold shared_state_trigger_cb. rewrite wp_bind, wp_get_state by done. rewrite wp_bind, wp_assert. split; [done|]. cbn [state set_triggers].
  destruct (inv_copy _ _ HI) as [(Hh' & _)|[(o' & _ & _ & Hh' & Ho)|[(o' & _ & Hh' & _)|(o' & _ & Hh')]]]; rewrite Hh in Hh'; try done.
  injection Hh' as <-. unfold delivered in HΦ.
  assert (∀ st, trigger st = Some t → freed st = false → ∀ s', state s' = st → Φ tt s' →
    wp (s1 ← get_state; ZEND_ASSERT (bool_decide (is_Some (trigger s1)))) Φ s') as Hend.
  { intros st Ht' Hf' s' <- HΦ'. rewrite wp_bind, wp_get_state by done. rewrite wp_assert, Ht'. split; [by rewrite bool_decide_eq_true_2|done]. }
  destruct o as [v|x c]; destruct Ho as [Er Ex]; rewrite Ex, wp_bind.
  - rewrite wp_bind. rewrite (wp_defined _ _ _ _ Er), wp_bind, wp_record, wp_bind, wp_upd_state.
    unfold future_resolve. rewrite wp_upd_consumer. cbn in HΦ |- *. rewrite Hh. cbn.
    assert (set_transferred_exception None (state s) = state s) as E by (revert Ex; destruct (state s); cbn; by intros ->).
    rewrite E in HΦ. eapply Hend; [| |done|exact HΦ]; done.
  - rewrite wp_bind, wp_record, wp_bind, wp_upd_state. unfold future_resolve. rewrite wp_upd_consumer. cbn in HΦ |- *. rewrite Hh. cbn.
    assert (set_transferred_result None (set_transferred_exception None (state s)) = set_transferred_exception None (state s)) as E
      by (revert Er; destruct (state s); cbn; by intros ->).
    rewrite E in HΦ. eapply Hend; [| |done|exact HΦ]; done.
Qed.
Lemma deliver_pending ok s t : Inv ok s → trigger (state s) = Some t → is_pending s t = true → ∃ o, history s = [Copied o].
Proof.
  intros HI Ht Hp. destruct (inv_trigger _ _ HI t Ht) as [_ Htr]. unfold is_pending in Hp. rewrite Htr in Hp. cbn in Hp.
  unfold undelivered in Hp. destruct (history s) as [|[o|o|o] [|]]; try done. by exists o.
Qed.

Definition notified t h p tr s : sys :=
  set_producers (<[h := set_stopped (stopped p || (bool_decide (entry p = Some Running) && cancel_requested (state s))) p]> (producers s))
    (set_triggers (<[t := mk_trigger (t_thread tr) false]> (triggers s)) s).
Lemma wp_notified s t h p tr (Φ : unit → sys → Prop) : producers s !! h = Some p → freed (state s) = false → triggers s !! t = Some tr →
  Φ tt (notified t h p tr s) → wp (run_op (Notified t h)) Φ s.
Proof.
  intros Hp Hf Htr HΦ. cbn [run_op]. rewrite wp_bind, wp_get, wp_bind. rewrite (wp_defined _ _ _ _ Htr), wp_bind, wp_modify.
  unfold pool_worker_cancel_notify. rewrite wp_bind, wp_get, wp_bind. rewrite (wp_defined _ p) by done. unfold notified in HΦ.
  assert (<[h := set_stopped (stopped p || false) p]> (producers s) = producers s) as Hid.
  { rewrite orb_false_r. apply insert_id. rewrite Hp. by destruct p. }
  destruct (entry p) as [[]|].
  - rewrite wp_ret. rewrite bool_decide_eq_false_2 in HΦ by done. cbn in HΦ. rewrite Hid in HΦ. exact HΦ.
  - rewrite wp_bind, wp_get_state, wp_when by done. cbn. rewrite bool_decide_eq_true_2 in HΦ by done. cbn in HΦ.
    destruct (cancel_requested (state s)); [|rewrite Hid in HΦ; exact HΦ].
    rewrite (insert_alter_same _ h p) by done. rewrite orb_true_r in HΦ. exact HΦ.
  - rewrite wp_ret. rewrite bool_decide_eq_false_2 in HΦ by done. cbn in HΦ. rewrite Hid in HΦ. exact HΦ.
Qed.
Lemma mailbox_inv ok s h t : Inv ok s → triggers s !! t = None →
  Inv ok (set_triggers (<[t := mk_trigger h false]> (triggers s)) s).
Proof.
  intros HI Hnt.
  apply triggers_change; [done|]. intros t' Hn. rewrite lookup_insert_ne; [done|]. intros <-.
  destruct Hn as [Htr|[(h2 & p2 & Hp2 & Hb)|[l Hl]]].
  - destruct (inv_trigger _ _ HI t Htr). congruence.
  - destruct (inv_producer _ _ HI h2 p2 Hp2) as [Hb2 Hs2]. assert (own_thread s h2 t) as (tr2 & ? & ?); [|congruence].
    destruct Hb as [Hb|Hb]; [by apply Hb2|]. rewrite Hb in Hs2. apply Hs2.
  - destruct (inv_dispose _ _ HI t l Hl) as (tr2 & ? & ?). congruence.
Qed.

(** Every operation that a thread may do is defined and keeps the invariant. *)
Lemma run_op_inv ok s op : Inv ok s → enabled op s = true → wp (run_op op) (λ _ s', Inv ok s') s.
Proof.
  intros HI He. destruct op as [| |o|h| | |h o|h h'|h t|h t e|h|h|t h|h t|h|th]; cbn [enabled] in He; guards.
  - destruct (idle_consumer s He) as [Ha Hl]. cbn [run_op]. unfold remote_future_add_callback. rewrite wp_upd_consumer. apply consumer_change; try done; cbn; rewrite Hl; try done. constructor.
  - destruct (idle_consumer s He) as [Ha Hl]. cbn [run_op]. unfold remote_future_add_callback. rewrite wp_upd_consumer. apply consumer_change; try done; cbn; rewrite Hl; try done. constructor.
  - cbn [run_op]. rewrite wp_bind, wp_get. unfold call_consumer. rewrite wp_upd_consumer.
    destruct (resolve_at (kind (consumer s)) o) as (? & ? & ?). by apply call_consumer_inv.
  - destruct (idle_consumer s) as [Ha _]; [done|]. cbn [run_op]. apply (wp_new_producer ok); try done. by apply (inv_alive _ _ HI); left.
  - cbn [run_op]. rewrite wp_bind, wp_get. unfold call_consumer. rewrite wp_upd_consumer. destruct (idle_consumer s He) as [Ha _].
    destruct (free_at (consumer s) Ha) as (? & ? & ?). by apply call_consumer_inv.
  - destruct (trigger (state s)) as [t|] eqn:Ht; [|done]. destruct (deliver_pending ok s t) as [o Ho]; try done.
    apply (wp_deliver ok s t o); try done. by apply deliver_inv.
  - destruct (idle_producer s h He) as (p & Hp & Hl). cbn [run_op]. unfold pool_worker_cancel_track, pool_worker_cancel_forget, shared_state_source_cb, call_producer. rewrite wp_upd_producer, (insert_alter_same _ h p) by done.
    by apply (todo_change ok s h p); rewrite ?Hl.
  - destruct (idle_producer s h) as (p & Hp & Hl); [done|]. cbn [run_op]. rewrite wp_bind, wp_get, wp_bind. rewrite (wp_defined _ _ _ _ Hp).
    rewrite wp_modify. rewrite Hp in *. guards. by apply pass_inv.
  - cbn [run_op]. unfold pool_worker_cancel_create. rewrite wp_modify. by apply mailbox_inv.
  - destruct (idle_producer s h) as (p & Hp & Hl); [done|]. rewrite Hp in *. destruct (triggers s !! t) as [tr|] eqn:Htr; [|done]. guards.
    cbn [run_op]. unfold pool_worker_cancel_track, pool_worker_cancel_forget, shared_state_source_cb, call_producer. rewrite wp_bind, !wp_upd_producer. cbn. rewrite (insert_alter_same (producers s) h p), alter_insert_same by done.
    match goal with H : map_Forall _ _ |- _ => rename H into Hall end. destruct (Hall h p Hp) as [? Hb].
    apply (producer_change ok s h p (set_p_todo [SBindCancel t] (set_entry (Some e) p))); [done|done| | |by cbn; congruence|by cbn; congruence].
    + split; [by cbn; congruence|]. cbn. split_and!; [done|done|by exists tr].
    + right. intros h2 p2 Hp2. destruct (Hall h2 p2 Hp2). by intros [?|?].
  - destruct (idle_producer s h) as (p & Hp & Hl); [done|]. rewrite Hp in *. guards. destruct (inv_producer _ _ HI h p Hp) as [Hb Hs].
    rewrite Hl in Hs. cbn [run_op]. unfold pool_worker_cancel_track, pool_worker_cancel_forget, shared_state_source_cb, call_producer. rewrite wp_bind, !wp_upd_producer. cbn. rewrite (insert_alter_same (producers s) h p), alter_insert_same by done.
    apply (producer_change ok s h p (set_p_todo [SRecheck] (set_entry (Some Running) p))); try done.
    + split; [done|]. cbn. split; [done|]. intros E. apply Hs in E. congruence.
    + left. left. congruence.
  - destruct (idle_producer s h) as (p & Hp & Hl); [done|]. rewrite Hp in *. guards. destruct (inv_producer _ _ HI h p Hp) as [Hb Hs].
    rewrite Hl in Hs. cbn [run_op]. unfold pool_worker_cancel_track, pool_worker_cancel_forget, shared_state_source_cb, call_producer. rewrite wp_bind, !wp_upd_producer. cbn. rewrite (insert_alter_same (producers s) h p), alter_insert_same by done.
    apply (producer_change ok s h p (set_p_todo [SUnbindCancel] (set_entry None p))); try done.
    + split; [done|]. cbn. split; [done|]. intros E. by apply Hs in E.
    + left. by left.
  - destruct (idle_producer s h) as (p & Hp & Hl); [done|]. rewrite Hp in *. guards.
    destruct (inv_producer _ _ HI h p Hp) as [Hb _]. destruct (Hb t) as [(tr & Htr & _) _]; [done|].
    apply (wp_notified s t h p tr); [done|by eapply inv_held|done|]. by apply notified_inv.
  - destruct (triggers s !! t) as [tr|] eqn:Htr; [|done]. guards. cbn [run_op]. unfold dispose_trigger. rewrite wp_bind, wp_get, wp_bind.
    rewrite (wp_defined _ _ _ _ Htr), wp_bind, wp_assert. split; [by apply bool_decide_eq_true|]. rewrite wp_modify.
    apply (close_inv ok s h t); [done|done|by exists tr|]. intros p Hp. rewrite Hp in *. guards.
    destruct (idle_producer s h) as (p2 & Hp2 & ?); [done|]. by simplify_eq.
  - destruct (idle_producer s h) as (p & Hp & Hl); [done|]. rewrite Hp in *. guards. cbn [run_op]. unfold pool_worker_cancel_track, pool_worker_cancel_forget, shared_state_source_cb, call_producer.
    rewrite wp_upd_producer, (insert_alter_same _ h p) by done. apply (producer_change ok s h p (set_p_todo [SDelref] p)); try done.
    + by split; [cbn; congruence|].
    + by left.
    + cbn. congruence.
  - case_bool_decide as Hth.
    + subst th. cbn [run_op]. apply run_consumer; [done|]. by destruct (c_todo (consumer s)).
    + destruct (producers s !! th) as [p|] eqn:Hp; [|done]. cbn [run_op]. apply (run_producer ok s th p); try done. by destruct (p_todo p).
Qed.
End steps.
