(* ===== verification/SharedFutureTheorems.v ===== *)
(** * Futures shared between threads: what holds on every interleaving *)

From S2P Require Import Prelude SharedFuture SharedFutureProofs SharedFutureSteps.
From stdpp Require Import tactics.

Local Open Scope Z_scope.

Section runs.
Context {V X : Type}.
Abbreviation sys := (shared_t V X).
Implicit Types (s : sys) (h t : nat).

(** A new state, with its consumer; nothing refers to it but the consumer-to-be. *)
Definition new_state (k : consumer_kind) : sys :=
  mk_system async_future_shared_state_create ∅ (mk_consumer k None false false true []) ∅ [].

(** A remote future is made; or a FutureState is transferred to a thread, with a copy in
    transit as producer 1.  [ok]: the loop of the consumer gave a trigger. *)
Definition launch (k : consumer_kind) (t : nat) (ok : bool) : M sys unit :=
  match k with Remote => async_new_remote_future t ok | Owner => async_future_state_transfer 1 t ok end.
Definition launched (k : consumer_kind) (t : nat) (ok : bool) : option sys := snd <$> launch k t ok (new_state k).

(** The threads' operations, in the order in which they happen; [None] when one of them
    is not enabled or goes wrong. *)
Fixpoint play (ops : list shared_op) s : option sys :=
  match ops with
  | [] => Some s
  | op :: ops => if enabled op s then '(_, s') ← run_op op s; play ops s' else None
  end.

Definition bound_state (k : consumer_kind) (t : nat) (ok : bool) : sys :=
  mk_system (mk_shared 1 false None None (if ok then Some t else None) true false None false)
    (if ok then <[t := mk_trigger 0 false]> ∅ else ∅) (mk_consumer k None false false true []) ∅ [].
Lemma bound_state_inv k t ok : Inv ok (bound_state k t ok).
Proof.
  constructor; cbn; try done.
  - constructor.
  - intros t' Ht. destruct ok; [|done]. injection Ht as <-. by rewrite lookup_insert_eq.
  - by intros ->.
  - by left.
Qed.
Lemma shared_launch_inv k t ok s : launched k t ok = Some s → Inv ok s.
Proof.
  unfold launched. intros ([[] s'] & Hl & ->)%fmap_Some. pose proof (bound_state_inv k t ok) as HI. destruct k; unfold launch in Hl.
  - destruct ok; injection Hl as <-; exact HI.
  - assert (new_producer 1 (bound_state Owner t ok) = Some (tt, s')) as Hn by (rewrite <- Hl; by destruct ok).
    assert (wp (new_producer 1) (λ _ s', Inv ok s') (bound_state Owner t ok)) as Hwp by (by apply (wp_new_producer ok)).
    unfold wp in Hwp. by rewrite Hn in Hwp.
Qed.
Lemma play_inv ok ops s s' : Inv ok s → play ops s = Some s' → Inv ok s'.
Proof.
  revert s. induction ops as [|op ops IH]; cbn; intros s HI Hp; [by simplify_eq|].
  destruct (enabled op s) eqn:He; [|done]. pose proof (run_op_inv ok s op HI He) as Hwp. unfold wp in Hwp.
  destruct (run_op op s) as [[[] s1]|]; [|done]. by apply (IH s1).
Qed.
Lemma reached_inv k t ok ops s s' : launched k t ok = Some s → play ops s = Some s' → Inv ok s'.
Proof. intros Hl. apply play_inv. by eapply shared_launch_inv. Qed.

(** C22 Memory safety, on every interleaving of the sections of every thread: whatever
    a thread does next is defined.  No state is used after it was freed, a trigger is
    fired only while it is open and closed only by its own thread, the callback of the
    trigger finds a copy to load, and the last reference leaves no trigger of a producer
    behind (the assertion of async_future_shared_state_destroy).  The count is the number
    of those who hold the state. *)
Theorem shared_state_safe k t ok ops op s s' : launched k t ok = Some s → play ops s = Some s' → enabled op s' = true →
  (∃ s'', run_op op s' = Some (tt, s'')) ∧
  ref_count (state s') = Z.b2z (alive (consumer s')) + Z.of_nat (size (producers s')) ∧
  freed (state s') = bool_decide (ref_count (state s') = 0).
Proof.
  intros Hl Hp He. pose proof (reached_inv _ _ _ _ _ _ Hl Hp) as HI. split_and!; [|apply HI..].
  pose proof (run_op_inv ok s' op HI He) as Hwp. unfold wp in Hwp. destruct (run_op op s') as [[[] s'']|]; [by eexists|done].
Qed.

(** C23 No completion is lost for a consumer whose trigger was created ([launched k t
    true]; without one the future is never settled, [failed_bind_strands_future]).  Once
    a producer has stored an outcome, such a consumer that is alive and not inside of a
    function either has a settled future, or its loop has the trigger to run, and the
    callback settles the future with that very outcome. *)
Theorem completion_delivered k t ops s s' o : launched k t true = Some s → play ops s = Some s' →
  Copied o ∈ history s' → consumer_idle s' = true →
  settled (consumer s') ≠ None ∨
  (enabled Deliver s' = true ∧ ∃ s'', run_op Deliver s' = Some (tt, s'') ∧ settled (consumer s'') = Some o ∧ history s'' = [Copied o; Loaded o]).
Proof.
  intros Hl Hp Ho Hidle. pose proof (reached_inv _ _ _ _ _ _ Hl Hp) as HI. destruct (idle_consumer _ Hidle) as [Ha Hl'].
  destruct (settled (consumer s')) as [o'|] eqn:Hs; [by left|right].
  destruct (trigger (state s')) as [t'|] eqn:Ht; [|destruct (inv_live _ _ HI eq_refl Ha); [by rewrite Hl'|done]].
  assert (history s' = [Copied o]) as Hh.
  { pose proof (inv_alive _ _ HI (or_introl Ha)) as Hf.
    destruct (inv_copy _ _ HI) as [(Hh & _)|[(o' & _ & _ & Hh & _)|[(o' & _ & Hh & _ & _ & Hns)|(o' & Hf' & _)]]]; try congruence;
      rewrite Hh in Ho; set_solver. }
  destruct (inv_trigger _ _ HI t' Ht) as [_ Htr]. unfold undelivered in Htr. rewrite Hh in Htr. split.
  - cbn. by rewrite Hidle, Ht; unfold is_pending; rewrite Htr.
  - assert (wp (run_op Deliver) (λ _ s'', settled (consumer s'') = Some o ∧ history s'' = [Copied o; Loaded o]) s') as Hwp.
    { apply (wp_deliver true s' t' o); [done..|]. unfold delivered. by rewrite Hs. }
    unfold wp in Hwp. destruct (run_op Deliver s') as [[[] s'']|]; [by exists s''|done].
Qed.

(** C24 At most one producer wins, and its persistent copy is loaded or dropped exactly
    once: while the state lives it is there or it was loaded, and when the state is freed
    nothing is left. *)
Theorem shared_copies_conserved k t ok ops s s' : launched k t ok = Some s → play ops s = Some s' →
  history s' = [] ∨ (∃ o, history s' = [Copied o] ∧ freed (state s') = false ∧ stored (state s') = Some o) ∨
  (∃ o, (history s' = [Copied o; Loaded o] ∨ history s' = [Copied o; Dropped o] ∧ freed (state s') = true)).
Proof.
  intros Hl Hp. pose proof (reached_inv _ _ _ _ _ _ Hl Hp) as HI.
  destruct (inv_copy _ _ HI) as [(? & _)|[(o & _ & ? & Hh & Ho)|[(o & _ & ? & _)|(o & ? & ?)]]]; [by left|right; left; exists o|right; right; exists o; by left|right; right; exists o; by right].
  split_and!; [done..|]. unfold stored. destruct o; by destruct Ho as [-> ->].
Qed.

(** C25 A request to stop is not lost, whatever the race with the worker that takes the
    task: when the request has been made, a task whose coroutine is listed and whose worker
    is not inside of a function has been told to stop, or the worker's trigger is pending
    and its callback tells it. *)
Theorem task_cancel_not_lost k t ok ops s s' h p : launched k t ok = Some s → play ops s = Some s' →
  producers s' !! h = Some p → idle s' h = true → entry p = Some Running → cancel_requested (state s') = true →
  stopped p = true ∨ ∃ t', bound p = Some t' ∧ enabled (Notified t' h) s' = true ∧
    ∃ s'', run_op (Notified t' h) s' = Some (tt, s'') ∧ stopped <$> producers s'' !! h = Some true.
Proof.
  intros Hl Hp Hh Hidle He Hreq. pose proof (reached_inv _ _ _ _ _ _ Hl Hp) as HI.
  destruct (idle_producer _ _ Hidle) as (p' & Hh' & Htd). rewrite Hh in Hh'. injection Hh' as <-.
  destruct (inv_producer _ _ HI h p Hh) as [Hb Hs]. rewrite Htd in Hs. destruct (bound p) as [t'|] eqn:Hbt.
  2: { destruct Hs as [_ Hs]. by rewrite Hs in He. }
  destruct (inv_cancel _ _ HI h p t' Hh) as [?|Hpend]; [by rewrite Htd|done..|by left|right]. exists t'. split; [done|].
  destruct (Hb t' eq_refl) as [(tr & Htr & _) _]. split.
  - cbn. rewrite Hidle, Hpend, Hh. by apply bool_decide_eq_true.
  - assert (wp (run_op (Notified t' h)) (λ _ s'', stopped <$> producers s'' !! h = Some true) s') as Hwp.
    { apply (wp_notified s' t' h p tr); [done|by eapply inv_held|done|]. unfold notified. cbn. rewrite lookup_insert_eq. cbn.
      by rewrite He, Hreq, orb_true_r. }
    unfold wp in Hwp. destruct (run_op (Notified t' h) s') as [[[] s'']|]; [by exists s''|done].
Qed.
End runs.

(** ** Concrete runs *)
Section samples.
Abbreviation op := (shared_op (V:=Z) (X:=unit)).
Definition ran (k : consumer_kind) (ok : bool) (ops : list op) : option (shared_t Z unit) := s ← launched k 7 ok; play ops s.
Definition start (k : consumer_kind) : shared_t Z unit := default (new_state k) (launched k 7 true).
Definition reached (k : consumer_kind) (ops : list op) : shared_t Z unit := default (new_state k) (ran k true ops).
Lemma start_launched k : launched k 7 true = Some (start k).
Proof. by destruct k. Qed.

(** A pool task of worker 1 whose future is awaited by thread 0; it is being completed. *)
Definition completing : list op :=
  [Subscribe; Share 1; Mailbox 1 8; Track 1 8 Preparing; Go 1; Listed 1; Go 1; Produce 1 (OValue 5); Go 1].
Lemma completing_played : play completing (start Remote) = Some (reached Remote completing).
Proof. vm_compute. reflexivity. Qed.
Lemma completed_played : play (completing ++ [Go 1]) (start Remote) = Some (reached Remote (completing ++ [Go 1])).
Proof. vm_compute. reflexivity. Qed.

Lemma shared_state_safe_witness : let s := reached Remote completing in
  (∃ s'', run_op (Go 1) s = Some (tt, s'')) ∧
  ref_count (state s) = Z.b2z (alive (consumer s)) + Z.of_nat (size (producers s)) ∧
  freed (state s) = bool_decide (ref_count (state s) = 0).
Proof.
  apply (shared_state_safe Remote 7 true completing (Go 1) (start Remote)); [apply start_launched|apply completing_played|].
  vm_compute. reflexivity.
Defined.
Lemma completion_delivered_witness : let s := reached Remote (completing ++ [Go 1]) in
  settled (consumer s) ≠ None ∨
  (enabled Deliver s = true ∧ ∃ s'', run_op Deliver s = Some (tt, s'') ∧ settled (consumer s'') = Some (OValue 5) ∧
    history s'' = [Copied (OValue 5); Loaded (OValue 5)]).
Proof.
  apply (completion_delivered Remote 7 (completing ++ [Go 1]) (start Remote)); [apply start_launched|apply completed_played| |].
  - apply list_elem_of_In. vm_compute. by left.
  - vm_compute. reflexivity.
Defined.
Lemma shared_copies_conserved_witness : let s := reached Remote (completing ++ [Go 1]) in
  history s = [] ∨ (∃ o, history s = [Copied o] ∧ freed (state s) = false ∧ stored (state s) = Some o) ∨
  (∃ o, (history s = [Copied o; Loaded o] ∨ history s = [Copied o; Dropped o] ∧ freed (state s) = true)).
Proof.
  apply (shared_copies_conserved Remote 7 true (completing ++ [Go 1]) (start Remote)); [apply start_launched|apply completed_played].
Defined.

(** The awaiting thread goes away while the task runs. *)
Definition dropped_awaiter : list op :=
  [Subscribe; Share 1; Mailbox 1 8; Track 1 8 Running; Go 1; Free; Go 0; Go 0; Go 0].
Lemma dropped_awaiter_played : play dropped_awaiter (start Remote) = Some (reached Remote dropped_awaiter).
Proof. vm_compute. reflexivity. Qed.
Lemma task_cancel_not_lost_witness : let s := reached Remote dropped_awaiter in
  let p : producer_t Z unit := mk_producer (Some Running) (Some 8%nat) false [] in
  stopped p = true ∨ ∃ t', bound p = Some t' ∧ enabled (Notified t' 1) s = true ∧
    ∃ s'', run_op (Notified t' 1) s = Some (tt, s'') ∧ stopped <$> producers s'' !! 1%nat = Some true.
Proof.
  apply (task_cancel_not_lost Remote 7 true dropped_awaiter (start Remote)); [apply start_launched|apply dropped_awaiter_played|..];
    vm_compute; reflexivity.
Defined.

(** A FutureState whose ownership was transferred is freed by its thread, where somebody
    still awaits the future: the outcome that the other thread produces is thrown away, and
    the future is never settled. *)
Lemma dropped_owner_strands_future :
  (λ s, (settled (consumer s), history s, freed (state s), producers s !! 1%nat)) <$>
    ran Owner true [Subscribe; Free; Go 0; Go 0; Go 0; Produce 1 (OValue 5); Go 1] =
  Some (None, [], false, Some (mk_producer None None false [])).
Proof. vm_compute. reflexivity. Qed.

(** When the loop gives no trigger, the remote future is made all the same, and what the
    producer stores reaches nobody. *)
Lemma failed_bind_strands_future :
  (λ s, (settled (consumer s), history s, trigger (state s), enabled Deliver s)) <$>
    ran Remote false [Subscribe; Share 1; Produce 1 (OValue 5); Go 1; Go 1; Release 1; Go 1] =
  Some (None, [Copied (OValue 5)], None, false).
Proof. vm_compute. reflexivity. Qed.
End samples.
