(* ===== verification/ThreadPool.v ===== *)
(** * The thread pool of [src/thread_pool.c]

    A pool has worker threads that take tasks off a channel.  The actors are the workers
    and the coroutines of the owner's thread that are inside a method of the pool, and the
    steps of all threads interleave freely.  A step is an access to one of the atomics that
    another thread decides on ([closed], [task_channel], [live_workers] where it is read,
    the pair that a rotation publishes), a section under the mutex of a channel, or a call
    that can suspend.  What only adds to a count or lets go of something that the actor
    alone refers to is part of the step before or after it: a task is counted off, answered
    and released in one step ([refuse_task], [worker_body], [worker_internal_task],
    [pool_task_dispose]), as are the two counts at [WTaken] and in [count_worker], and what
    [thread_pool_delref] does when the last reference goes.  A step of an actor takes the
    actor's place in its function and gives the next one; the coroutines of the owner's
    thread give way to each other only where they suspend.

    The registry of the owner's thread has a reference to each channel that was made there;
    [async_thread_channel_close_owned] closes the channels and drops those references when
    the thread ends.

    A task channel is a bounded queue here; [ThreadChannel] shows that it is one.  The
    shared state of a task's future is modelled in [SharedFuture]; what counts here is
    the reference that the task holds, the answer, and the flag of the request to stop. *)

From S2P Require Import Prelude.

Local Open Scope Z_scope.

(** ** Data *)

(** How a task is answered. *)
Inductive reason := RThrown | RCancelled | RTransfer | RBailout | RBootloader | RHandle | RSpawn.
Inductive answer_t := ACompleted | ARejected (r : reason).
Inductive kind_t := TASK_KIND_CLOSURE | TASK_KIND_INTERNAL.
#[export] Instance kind_eq_dec : EqDecision kind_t.
Proof. solve_decision. Defined.

(** The shared state of a task's future and the snapshot of its closure.  [task_ref]: the
    reference that the task holds is not released; [snapshot]: the snapshot is not destroyed;
    [returned]: submit has handed out the future. *)
Record state_t := mk_state {
  kind : kind_t;
  answer : option answer_t;
  cancel_flag : bool;
  task_ref : bool;
  snapshot : bool;
  returned : bool
}.

(** A channel of tasks; [chan_refs] counts the pool and the registry of the owner's thread. *)
Record chan_t := mk_chan { capacity : Z; queue : list nat; chan_closed : bool; chan_refs : Z }.
(** The channel of exit tokens of a rotation. *)
Record notify_t := mk_notify { n_capacity : Z; tokens : Z; n_closed : bool; n_refs : Z }.

Record async_thread_pool_t := mk_pool {
  task_channel : option nat;
  bootloader : bool;
  bootloader_error : option reason;
  coroutine_mode : bool;
  concurrency : Z;
  closed : bool;
  cancel_requested : bool;
  live_workers : Z;
  pending_count : Z;
  running_count : Z;
  completed_count : Z;
  ref_count : Z;
  reload_notify : option nat;
  reload_old : option nat;
  reload_in_progress : bool;
  rotations_started : Z;
  rotations_completed : Z;
  orphan_notify : option nat;
  orphan_old : option nat;
  handles : list nat;             (* the array workers *)
  destroyed : bool
}.

(** [thread_pool_close] followed, unless there is no reason to reject with, by
    [thread_pool_drain_tasks]: the place reached. *)
Inductive routine :=
| CloseCheck | CloseStore | CloseLoad | CloseChannel (c : nat)
| DrainLoad | DrainPop (c : nat) | DrainTask (c s : nat)
| RoutineDone.

(** Where a worker is. *)
Inductive worker_pc :=
| WInit
| WBoot
| WRecord (r : reason) (c : nat)  (* about to record, under the mutex of a channel, why the bootloader failed *)
| WReceive                        (* the top of the loop *)
| WTaken (s : nat)
| WDispatch (s : nat)
| WHandler (s : nat)              (* inside of a C handler *)
| WBind (s : nat)                 (* the closure is made *)
| WBody (s : nat)                 (* awaiting the body *)
| WNursery (s : nat)              (* answered; awaiting the children of the body *)
| WFailing (r : reason) (hand : option nat) (escaped : bool) (rt : routine)
| WReturn                         (* the label done *)
| WAfterMain
| WExit                           (* about to leave the count of live workers *)
| WLoadNotify
| WLoadOld (m : nat)
| WSendToken (m : nat)
| WDelref.

Record worker_t := mk_worker {
  w_channel : nat;
  w_pc : worker_pc;
  active_count : Z;
  inflight : list nat;            (* the tasks whose coroutines run *)
  arenas : list nat               (* the snapshots that the tasks' scopes guard *)
}.

(** The rotation of a reload. *)
Record rotation_t := mk_rotation { r_n : Z; r_old : nat; r_new : nat; r_notify : nat }.
Inductive shut_t := ShutClose | ShutCancel | ShutFree.
Inductive caller_pc :=
| CSubmit (k : kind_t)
| CSubmitLive (k : kind_t)
| CLoadChannel (s : nat)
| CSend (s c : nat)
| CCount (s : nat)
| CCancelFlag
| CShut (sh : shut_t) (rt : routine)
| CFree
| CReload
| CReloadLoop (target : Z)
| CReloadWait (target : Z) (fired : bool)
| CReloadAlloc (n : Z)
| CPublishOld (r : rotation_t)
| CPublishNotify (r : rotation_t)
| CSwap (r : rotation_t)
| CCloseOld (r : rotation_t)
| CSpawn (r : rotation_t) (i replacements : Z)
| CStart (r : rotation_t) (i replacements : Z)
| CToken (r : rotation_t) (i replacements : Z)
| CClearNotify (r : rotation_t) (aborted : bool) (replacements : Z)
| CClearOld (r : rotation_t) (aborted : bool) (replacements : Z)
| CReloadEnd (r : rotation_t) (aborted : bool) (replacements : Z)
| CReloadReport (aborted : bool) (replacements : Z).

(** What a call ended with. *)
Inductive result_t := RetFuture (s : nat) | RetThrow | RetDone.

Record sys := mk_sys {
  pool : async_thread_pool_t;
  channels : gmap nat chan_t;
  notifies : gmap nat notify_t;
  states : gmap nat state_t;
  workers : gmap nat worker_t;
  callers : gmap nat caller_pc;
  running : option nat;           (* the coroutine of the owner's thread that runs *)
  object : bool;                  (* the PHP object was not freed *)
  owner_gone : bool;              (* the owner's thread has shut its engine down *)
  lost : list nat;                (* tasks in the hands of a handler that bailed out *)
  results : list (nat * result_t)
}.

#[export] Instance state_eta : Eta state_t := λ s, mk_state (kind s) (answer s) (cancel_flag s) (task_ref s) (snapshot s) (returned s).
Definition set_answer x (s : state_t) := ltac:(record_set s answer x).
Definition set_cancel_flag x (s : state_t) := ltac:(record_set s cancel_flag x).
Definition set_task_ref x (s : state_t) := ltac:(record_set s task_ref x).
Definition set_snapshot x (s : state_t) := ltac:(record_set s snapshot x).
Definition set_returned x (s : state_t) := ltac:(record_set s returned x).
#[export] Instance chan_eta : Eta chan_t := λ c, mk_chan (capacity c) (queue c) (chan_closed c) (chan_refs c).
Definition set_queue x (c : chan_t) := ltac:(record_set c queue x).
Definition set_chan_closed x (c : chan_t) := ltac:(record_set c chan_closed x).
Definition set_chan_refs x (c : chan_t) := ltac:(record_set c chan_refs x).
#[export] Instance notify_eta : Eta notify_t := λ n, mk_notify (n_capacity n) (tokens n) (n_closed n) (n_refs n).
Definition set_tokens x (n : notify_t) := ltac:(record_set n tokens x).
Definition set_n_closed x (n : notify_t) := ltac:(record_set n n_closed x).
Definition set_n_refs x (n : notify_t) := ltac:(record_set n n_refs x).
#[export] Instance pool_eta : Eta async_thread_pool_t := λ p,
  mk_pool (task_channel p) (bootloader p) (bootloader_error p) (coroutine_mode p) (concurrency p) (closed p) (cancel_requested p)
    (live_workers p) (pending_count p) (running_count p) (completed_count p) (ref_count p) (reload_notify p) (reload_old p)
    (reload_in_progress p) (rotations_started p) (rotations_completed p) (orphan_notify p) (orphan_old p) (handles p) (destroyed p).
Definition set_task_channel x (p : async_thread_pool_t) := ltac:(record_set p task_channel x).
Definition set_bootloader_error x (p : async_thread_pool_t) := ltac:(record_set p bootloader_error x).
Definition set_closed x (p : async_thread_pool_t) := ltac:(record_set p closed x).
Definition set_cancel_requested x (p : async_thread_pool_t) := ltac:(record_set p cancel_requested x).
Definition set_live_workers x (p : async_thread_pool_t) := ltac:(record_set p live_workers x).
Definition set_pending_count x (p : async_thread_pool_t) := ltac:(record_set p pending_count x).
Definition set_running_count x (p : async_thread_pool_t) := ltac:(record_set p running_count x).
Definition set_completed_count x (p : async_thread_pool_t) := ltac:(record_set p completed_count x).
Definition set_ref_count x (p : async_thread_pool_t) := ltac:(record_set p ref_count x).
Definition set_reload_notify x (p : async_thread_pool_t) := ltac:(record_set p reload_notify x).
Definition set_reload_old x (p : async_thread_pool_t) := ltac:(record_set p reload_old x).
Definition set_reload_in_progress x (p : async_thread_pool_t) := ltac:(record_set p reload_in_progress x).
Definition set_rotations_started x (p : async_thread_pool_t) := ltac:(record_set p rotations_started x).
Definition set_rotations_completed x (p : async_thread_pool_t) := ltac:(record_set p rotations_completed x).
Definition set_orphan_notify x (p : async_thread_pool_t) := ltac:(record_set p orphan_notify x).
Definition set_orphan_old x (p : async_thread_pool_t) := ltac:(record_set p orphan_old x).
Definition set_handles x (p : async_thread_pool_t) := ltac:(record_set p handles x).
Definition set_destroyed x (p : async_thread_pool_t) := ltac:(record_set p destroyed x).
#[export] Instance worker_eta : Eta worker_t := λ w, mk_worker (w_channel w) (w_pc w) (active_count w) (inflight w) (arenas w).
Definition set_w_pc x (w : worker_t) := ltac:(record_set w w_pc x).
Definition set_active_count x (w : worker_t) := ltac:(record_set w active_count x).
Definition set_inflight x (w : worker_t) := ltac:(record_set w inflight x).
Definition set_arenas x (w : worker_t) := ltac:(record_set w arenas x).
#[export] Instance sys_eta : Eta sys := λ s,
  mk_sys (pool s) (channels s) (notifies s) (states s) (workers s) (callers s) (running s) (object s) (owner_gone s) (lost s) (results s).
Definition set_pool x (s : sys) := ltac:(record_set s pool x).
Definition set_channels x (s : sys) := ltac:(record_set s channels x).
Definition set_notifies x (s : sys) := ltac:(record_set s notifies x).
Definition set_states x (s : sys) := ltac:(record_set s states x).
Definition set_workers x (s : sys) := ltac:(record_set s workers x).
Definition set_callers x (s : sys) := ltac:(record_set s callers x).
Definition set_running x (s : sys) := ltac:(record_set s running x).
Definition set_object x (s : sys) := ltac:(record_set s object x).
Definition set_owner_gone x (s : sys) := ltac:(record_set s owner_gone x).
Definition set_lost x (s : sys) := ltac:(record_set s lost x).
Definition set_results x (s : sys) := ltac:(record_set s results x).

Abbreviation PM := (M sys).

(** ** Shared memory *)
Definition get_pool : PM async_thread_pool_t :=
  s ← get; ZEND_ASSERT (negb (destroyed (pool s)));; mret (pool s).
Definition upd_pool (f : async_thread_pool_t → async_thread_pool_t) : PM unit :=
  _ ← get_pool; modify (λ s, set_pool (f (pool s)) s).
Definition get_chan (c : nat) : PM chan_t :=
  s ← get; ch ← of_option (channels s !! c); ZEND_ASSERT (0 <? chan_refs ch);; mret ch.
Definition put_chan (c : nat) (ch : chan_t) : PM unit := modify (λ s, set_channels (<[c := ch]> (channels s)) s).
Definition get_notify (m : nat) : PM notify_t :=
  s ← get; n ← of_option (notifies s !! m); ZEND_ASSERT (0 <? n_refs n);; mret n.
Definition put_notify (m : nat) (n : notify_t) : PM unit := modify (λ s, set_notifies (<[m := n]> (notifies s)) s).
Definition put_state (i : nat) (st : state_t) : PM unit := modify (λ s, set_states (<[i := st]> (states s)) s).

(** The state of a task: only who holds the task's reference may use it. *)
Definition get_state (i : nat) : PM state_t :=
  s ← get; st ← of_option (states s !! i); ZEND_ASSERT (task_ref st);; mret st.
Definition async_future_shared_state_settle (i : nat) (a : answer_t) : PM unit :=
  st ← get_state i;
  put_state i (match answer st with None => set_answer (Some a) st | Some _ => st end).
Definition async_future_shared_state_delref (i : nat) : PM unit :=
  st ← get_state i; put_state i (set_task_ref false st).
Definition async_thread_snapshot_destroy (i : nat) : PM unit :=
  s ← get; st ← of_option (states s !! i); ZEND_ASSERT (snapshot st);; put_state i (set_snapshot false st).
Definition settle_if_any (i : nat) (a : option answer_t) : PM unit :=
  match a with Some a => async_future_shared_state_settle i a | None => mret tt end.
(** A task leaves the pool: its snapshot and its reference. *)
Definition release_task (i : nat) : PM unit :=
  st ← get_state i;
  when (bool_decide (kind st = TASK_KIND_CLOSURE)) (async_thread_snapshot_destroy i);;
  async_future_shared_state_delref i.

Definition pending_dec : PM unit := upd_pool (λ p, set_pending_count (i32 (pending_count p - 1)) p).
Definition pending_inc : PM unit := upd_pool (λ p, set_pending_count (i32 (pending_count p + 1)) p).
Definition running_inc : PM unit := upd_pool (λ p, set_running_count (i32 (running_count p + 1)) p).
(** The running task is over: it is counted before its awaiter is told. *)
Definition task_over : PM unit :=
  upd_pool (λ p, set_completed_count (i32 (completed_count p + 1)) (set_running_count (i32 (running_count p - 1)) p)).

Definition async_thread_channel_close (c : nat) : PM unit :=
  ch ← get_chan c; put_chan c (set_chan_closed true ch).
Definition dispose_chan (c : nat) : PM unit :=
  ch ← get_chan c; put_chan c (set_chan_refs (chan_refs ch - 1) ch).
Definition close_notify (m : nat) : PM unit :=
  n ← get_notify m; put_notify m (set_n_closed true n).
Definition dispose_notify (m : nat) : PM unit :=
  n ← get_notify m; put_notify m (set_n_refs (n_refs n - 1) n).

(** ** The end of the pool *)
Definition thread_pool_record_bootloader_error (c : nat) (r : reason) : PM unit :=
  _ ← get_chan c;
  upd_pool (λ p, match bootloader_error p with None => set_bootloader_error (Some r) p | Some _ => p end).

(** The destroy path drains without rejecting. *)
Fixpoint drain_quietly (l : list nat) : PM unit :=
  match l with
  | [] => mret tt
  | i :: l => release_task i;; pending_dec;; drain_quietly l
  end.
Definition release_orphans : PM unit :=
  p ← get_pool;
  match orphan_notify p with Some m => close_notify m;; dispose_notify m;; upd_pool (set_orphan_notify None) | None => mret tt end;;
  match orphan_old p with Some c => dispose_chan c;; upd_pool (set_orphan_old None) | None => mret tt end.
Definition thread_pool_destroy : PM unit :=
  p ← get_pool;
  match task_channel p with
  | Some c => ch ← get_chan c; put_chan c (set_queue [] ch);; drain_quietly (queue ch);; dispose_chan c;; upd_pool (set_task_channel None)
  | None => mret tt
  end;;
  release_orphans;;
  upd_pool (set_destroyed true).
Definition thread_pool_delref : PM unit :=
  p ← get_pool;
  upd_pool (set_ref_count (ref_count p - 1));;
  when (ref_count p =? 1) thread_pool_destroy.

(** ** Close and drain *)
Definition drain_or_done (rw : option reason) : routine := match rw with Some _ => DrainLoad | None => RoutineDone end.
Definition routine_step (rw : option reason) (rt : routine) : PM routine :=
  match rt with
  | CloseCheck => p ← get_pool; mret (if closed p then drain_or_done rw else CloseStore)
  | CloseStore => upd_pool (set_closed true);; mret CloseLoad
  | CloseLoad => p ← get_pool; mret (match task_channel p with Some c => CloseChannel c | None => drain_or_done rw end)
  | CloseChannel c => async_thread_channel_close c;; mret (drain_or_done rw)
  | DrainLoad => p ← get_pool; mret (match task_channel p with Some c => DrainPop c | None => RoutineDone end)
  | DrainPop c =>
    ch ← get_chan c;
    match queue ch with
    | i :: q => put_chan c (set_queue q ch);; mret (DrainTask c i)
    | [] => mret RoutineDone
    end
  | DrainTask c i =>
    settle_if_any i (ARejected <$> rw);; release_task i;; pending_dec;; mret (DrainPop c)
  | RoutineDone => undefined
  end.

(** ** A worker *)

(** What the engine and the PHP code answer at a step: success, an exception (with the
    reason that it leaves, if any), a bailout. *)
Inductive answer_env := EOk | EFail (r : option reason) | EBail.

Definition goto (pc : worker_pc) (w : worker_t) : PM (option worker_t) := mret (Some (set_w_pc pc w)).
(** A task that does not get to run. *)
Definition refuse_task (w : worker_t) (i : nat) (a : option answer_t) : PM (option worker_t) :=
  task_over;; settle_if_any i a;; release_task i;; goto WReceive w.

Definition at_limit (p : async_thread_pool_t) (w : worker_t) : bool :=
  coroutine_mode p && (0 <? concurrency p) && (concurrency p <=? active_count w).

Definition receive_step (w : worker_t) : PM (option worker_t) :=
  p ← get_pool;
  ch ← get_chan (w_channel w);
  if at_limit p w then
    (* wait-only receive *)
    if chan_closed ch then goto WReturn w else mret (Some w)
  else
    match queue ch with
    | i :: q => put_chan (w_channel w) (set_queue q ch);; goto (WTaken i) w
    | [] => if chan_closed ch then goto WReturn w else mret (Some w)
    end.

(** In coroutine mode; false: the consumer has already asked to stop. *)
Definition thread_pool_spawn_task_coroutine (w : worker_t) (i : nat) : PM (option worker_t) :=
  p ← get_pool;
  st ← get_state i;
  if cancel_flag st then refuse_task w i (Some (ARejected RCancelled))
  else
    mret (Some (mk_worker (w_channel w) WReceive (if 0 <? concurrency p then active_count w + 1 else active_count w)
      (i :: inflight w) (i :: arenas w))).

(** *** The places of [thread_pool_worker_handler] *)

(** The scheduler of the thread comes up. *)
Definition worker_start (w : worker_t) (e : answer_env) : PM (option worker_t) :=
  p ← get_pool;
  match e with EOk => goto (if bootloader p then WBoot else WReceive) w | _ => goto WReturn w end.
(** The bootloader runs; its failure is the pool's. *)
Definition worker_boot (w : worker_t) (e : answer_env) : PM (option worker_t) :=
  p ← get_pool;
  let failed r := match task_channel p with Some c => WRecord r c | None => WFailing r None false CloseCheck end in
  match e with
  | EOk => goto WReceive w
  | EFail r => goto (failed (default RBootloader r)) w
  | EBail => goto (failed RBailout) w
  end.
Definition worker_receive (w : worker_t) (e : answer_env) : PM (option worker_t) :=
  match e with
  | EOk => receive_step w
  | EFail _ => goto WReturn w
  | EBail => goto (WFailing RBailout None true CloseCheck) w
  end.
(** A closure task that was asked to stop is dropped before it begins. *)
Definition worker_dispatch (w : worker_t) (i : nat) (e : answer_env) : PM (option worker_t) :=
  st ← get_state i;
  match kind st with
  | TASK_KIND_INTERNAL => goto (WHandler i) w
  | TASK_KIND_CLOSURE =>
    if cancel_flag st then refuse_task w i (Some (ARejected RCancelled))
    else match e with
    | EOk => goto (WBind i) w
    | EFail r => refuse_task w i (ARejected <$> r)
    | EBail => undefined
    end
  end.
(** A C handler; a bailout longjmps past the code that answers its task. *)
Definition worker_internal_task (w : worker_t) (i : nat) (e : answer_env) : PM (option worker_t) :=
  match e with
  | EOk => task_over;; async_future_shared_state_settle i ACompleted;; async_future_shared_state_delref i;; goto WReceive w
  | EFail _ => task_over;; async_future_shared_state_settle i (ARejected RThrown);; async_future_shared_state_delref i;; goto WReceive w
  | EBail => modify (λ s, set_lost (i :: lost s) s);; goto (WFailing RBailout None true CloseCheck) w
  end.
(** The closure is made: its coroutine is spawned, or the body is awaited. *)
Definition worker_bind (w : worker_t) (i : nat) (e : answer_env) : PM (option worker_t) :=
  p ← get_pool;
  match e with
  | EOk => if coroutine_mode p then thread_pool_spawn_task_coroutine w i else goto (WBody i) w
  | EFail r => refuse_task w i (ARejected <$> r)
  | EBail => undefined
  end.
(** The body has ended. *)
Definition worker_body (w : worker_t) (i : nat) (e : answer_env) : PM (option worker_t) :=
  task_over;;
  match e with
  | EOk => async_future_shared_state_settle i ACompleted;; goto (WNursery i) w
  | EFail _ => async_future_shared_state_settle i (ARejected RThrown);; goto (WNursery i) w
  | EBail => async_future_shared_state_settle i (ARejected RBailout);; goto (WFailing RBailout (Some i) false CloseCheck) w
  end.
(** The pool is closed and drained; then the task in hand is let go. *)
Definition worker_failing (w : worker_t) (r : reason) (hand : option nat) (escaped : bool) (rt : routine) : PM (option worker_t) :=
  rt ← routine_step (Some r) rt;
  match rt with
  | RoutineDone => match hand with Some i => release_task i | None => mret tt end;;
    goto (if escaped then WExit else WReturn) w
  | rt => goto (WFailing r hand escaped rt) w
  end.
(** The worker leaves the count and, when the rotation retires its channel, sends a token. *)
Definition worker_exit (w : worker_t) : PM (option worker_t) :=
  upd_pool (λ p, set_live_workers (live_workers p - 1) p);; goto WLoadNotify w.
Definition worker_load_notify (w : worker_t) : PM (option worker_t) :=
  p ← get_pool; goto (match reload_notify p with Some m => WLoadOld m | None => WDelref end) w.
Definition worker_load_old (w : worker_t) (m : nat) : PM (option worker_t) :=
  p ← get_pool;
  goto (if bool_decide (reload_old p = Some (w_channel w)) then WSendToken m else WDelref) w.
Definition worker_send_token (w : worker_t) (m : nat) : PM (option worker_t) :=
  n ← get_notify m;
  if n_closed n then goto WDelref w
  else if tokens n <? n_capacity n then put_notify m (set_tokens (tokens n + 1) n);; goto WDelref w
  else mret (Some w).

Definition thread_pool_worker_handler (w : worker_t) (e : answer_env) : PM (option worker_t) :=
  match w_pc w with
  | WInit => worker_start w e
  | WBoot => worker_boot w e
  | WRecord r c => thread_pool_record_bootloader_error c r;; goto (WFailing r None false CloseCheck) w
  | WReceive => worker_receive w e
  | WTaken i => pending_dec;; running_inc;; goto (WDispatch i) w
  | WDispatch i => worker_dispatch w i e
  | WHandler i => worker_internal_task w i e
  | WBind i => worker_bind w i e
  | WBody i => worker_body w i e
  | WNursery i => release_task i;; goto WReceive w
  | WFailing r hand escaped rt => worker_failing w r hand escaped rt
  | WReturn => goto WAfterMain w
  | WAfterMain =>
    match e with
    | EBail => goto (WFailing RBailout None true CloseCheck) w
    | _ => goto WExit w
    end
  | WExit => worker_exit w
  | WLoadNotify => worker_load_notify w
  | WLoadOld m => worker_load_old w m
  | WSendToken m => worker_send_token w m
  | WDelref => thread_pool_delref;; mret None
  end.

(** The coroutine of task [i] has ended: [pool_task_dispose]. *)
Definition pool_task_dispose (w : worker_t) (i : nat) (e : answer_env) : PM (option worker_t) :=
  task_over;;
  async_future_shared_state_settle i
    (match e with EOk => ACompleted | EFail _ => ARejected RThrown | EBail => ARejected RBailout end);;
  async_future_shared_state_delref i;;
  p ← get_pool;
  mret (Some (set_inflight (filter (λ j, j ≠ i) (inflight w))
    (set_active_count (if 0 <? concurrency p then active_count w - 1 else active_count w) w))).
(** Its scope is torn down, with all that the task left behind. *)
Definition pool_snapshot_guard_dispose (w : worker_t) (i : nat) : PM (option worker_t) :=
  async_thread_snapshot_destroy i;; mret (Some (set_arenas (filter (λ j, j ≠ i) (arenas w)) w)).

(** ** The owner's thread *)

(** What the engine answers: success or failure, and the names of what is made. *)
Record call_env := mk_env { ok : bool; fresh : nat; fresh_notify : nat }.

Definition finish (k : nat) (r : result_t) : PM (option caller_pc) :=
  modify (λ s, set_results (results s ++ [(k, r)]) s);; mret None.
Definition next (pc : caller_pc) : PM (option caller_pc) := mret (Some pc).

(** The two halves of [thread_pool_start_worker]: the worker is counted, and the thread
    starts or does not. *)
Definition count_worker : PM unit :=
  upd_pool (λ p, set_live_workers (live_workers p + 1) (set_ref_count (ref_count p + 1) p)).
Definition thread_pool_start_worker (c : nat) (index : Z) (e : call_env) : PM unit :=
  if ok e then
    modify (λ s, set_workers (<[fresh e := mk_worker c WInit 0 [] []]> (workers s)) s);;
    p ← get_pool;
    ZEND_ASSERT (index <? Z.of_nat (length (handles p)));;
    upd_pool (set_handles (<[Z.to_nat index := fresh e]> (handles p)))
  else upd_pool (λ p, set_live_workers (live_workers p - 1) (set_ref_count (ref_count p - 1) p)).

Definition thread_pool_reload_fire_waiters : PM unit :=
  modify (λ s, set_callers ((λ pc, match pc with CReloadWait target _ => CReloadWait target true | pc => pc end) <$> callers s) s).

(** The call could not send its task. *)
Definition unsent (k i : nat) : PM (option caller_pc) := release_task i;; finish k RetThrow.

Definition reload_step (k : nat) (e : call_env) (pc : caller_pc) : PM (option caller_pc) :=
  match pc with
  | CReload => p ← get_pool; if closed p then finish k RetDone else next (CReloadLoop (rotations_started p + 1))
  | CReloadLoop target =>
    p ← get_pool;
    if reload_in_progress p then next (CReloadWait target false)
    else if live_workers p <=? 0 then finish k RetDone
    else
      upd_pool (λ p, set_reload_in_progress true (set_rotations_started (rotations_started p + 1) p));;
      release_orphans;;
      next (CReloadAlloc (live_workers p))
  | CReloadWait target _ =>
    p ← get_pool;
    if negb (ok e) then finish k RetThrow
    else if target <=? rotations_completed p then finish k RetDone
    else if closed p then finish k RetDone
    else next (CReloadLoop target)
  | CReloadAlloc n =>
    p ← get_pool;
    old ← of_option (task_channel p);
    ch ← get_chan old;
    if ok e then
      put_chan (fresh e) (mk_chan (capacity ch) [] false 2);;
      put_notify (fresh_notify e) (mk_notify n 0 false 2);;
      next (CPublishOld (mk_rotation n old (fresh e) (fresh_notify e)))
    else
      upd_pool (λ p, set_reload_in_progress false (set_rotations_started (rotations_started p - 1) p));;
      thread_pool_reload_fire_waiters;;
      finish k RetThrow
  | CPublishOld r => upd_pool (set_reload_old (Some (r_old r)));; next (CPublishNotify r)
  | CPublishNotify r => upd_pool (set_reload_notify (Some (r_notify r)));; next (CSwap r)
  | CSwap r => upd_pool (set_task_channel (Some (r_new r)));; next (CCloseOld r)
  | CCloseOld r => async_thread_channel_close (r_old r);; next (CSpawn r 0 0)
  | CSpawn r i repl =>
    p ← get_pool;
    if closed p then next (CToken r i repl) else count_worker;; next (CStart r i repl)
  | CStart r i repl =>
    p ← get_pool;
    c ← of_option (task_channel p);
    thread_pool_start_worker c i e;;
    next (CToken r i (if ok e then repl + 1 else repl))
  | CToken r i repl =>
    n ← get_notify (r_notify r);
    if negb (ok e) then next (CClearNotify r true repl)
    else if 0 <? tokens n then
      put_notify (r_notify r) (set_tokens (tokens n - 1) n);;
      next (if i + 1 <? r_n r then CSpawn r (i + 1) repl else CClearNotify r false repl)
    else if n_closed n then next (CClearNotify r true repl)
    else next (CToken r i repl)
  | CClearNotify r aborted repl => upd_pool (set_reload_notify None);; next (CClearOld r aborted repl)
  | CClearOld r aborted repl => upd_pool (set_reload_old None);; next (CReloadEnd r aborted repl)
  | CReloadEnd r aborted repl =>
    (if aborted : bool then upd_pool (λ p, set_orphan_notify (Some (r_notify r)) (set_orphan_old (Some (r_old r)) p))
     else close_notify (r_notify r);; dispose_notify (r_notify r);; dispose_chan (r_old r);; upd_pool (λ p, set_rotations_completed (rotations_completed p + 1) p));;
    upd_pool (set_reload_in_progress false);;
    thread_pool_reload_fire_waiters;;
    next (CReloadReport aborted repl)
  | CReloadReport aborted repl =>
    p ← get_pool;
    finish k (if aborted || ((repl =? 0) && negb (closed p)) then RetThrow else RetDone)
  | _ => undefined
  end.

Definition caller_step (k : nat) (e : call_env) (pc : caller_pc) : PM (option caller_pc) :=
  match pc with
  | CSubmit kd => p ← get_pool; if closed p then finish k RetThrow else next (CSubmitLive kd)
  | CSubmitLive kd =>
    p ← get_pool;
    if live_workers p <=? 0 then finish k RetThrow
    else if negb (ok e) then finish k RetThrow
    else
      put_state (fresh e) (mk_state kd None false true (bool_decide (kd = TASK_KIND_CLOSURE)) false);;
      next (CLoadChannel (fresh e))
  | CLoadChannel i => p ← get_pool; c ← of_option (task_channel p); next (CSend i c)
  | CSend i c =>
    ch ← get_chan c;
    if negb (ok e) || chan_closed ch then unsent k i
    else if Z.of_nat (length (queue ch)) <? capacity ch then put_chan c (set_queue (queue ch ++ [i]) ch);; next (CCount i)
    else next (CSend i c)
  | CCount i =>
    pending_inc;;
    s ← get;
    st ← of_option (states s !! i);
    put_state i (set_returned true st);;
    finish k (RetFuture i)
  | CCancelFlag => upd_pool (set_cancel_requested true);; next (CShut ShutCancel CloseCheck)
  | CShut sh rt =>
    rt ← routine_step (match sh with ShutCancel => Some RCancelled | _ => None end) rt;
    match rt with
    | RoutineDone => match sh with ShutFree => next CFree | _ => finish k RetDone end
    | rt => next (CShut sh rt)
    end
  | CFree => thread_pool_delref;; finish k RetDone
  | pc => reload_step k e pc
  end.

(** ** The system *)
Inductive call_t := Submit (kd : kind_t) | Close | Cancel | Free | Reload.
Definition start_call (c : call_t) : caller_pc :=
  match c with
  | Submit kd => CSubmit kd
  | Close => CShut ShutClose CloseCheck
  | Cancel => CCancelFlag
  | Free => CShut ShutFree CloseCheck
  | Reload => CReload
  end.

Inductive pool_op :=
| PCall (k : nat) (c : call_t)
| PCaller (k : nat) (e : call_env)
| PWorker (w : nat) (e : answer_env)
| PTask (w i : nat) (e : answer_env)      (* the coroutine of a task ends *)
| PTeardown (w i : nat)                   (* the scope of a task is torn down *)
| PCancelTask (i : nat)                   (* the consumer asks to stop *)
| POwnerExit.                             (* the owner's thread shuts its engine down *)

Definition put_worker (k : nat) (w : option worker_t) : PM unit :=
  modify (λ s, set_workers (match w with Some w => <[k := w]> (workers s) | None => delete k (workers s) end) s).
(** Where a coroutine of the owner's thread may be suspended. *)
Definition suspended (pc : caller_pc) : bool :=
  match pc with CSend _ _ | CReloadWait _ _ | CToken _ _ _ => true | _ => false end.
Definition put_caller (k : nat) (pc : option caller_pc) : PM unit :=
  modify (λ s, set_callers (match pc with Some pc => <[k := pc]> (callers s) | None => delete k (callers s) end)
    (set_running (match pc with Some pc => if suspended pc then None else Some k | None => None end) s)).

(** The channels of tasks and of tokens are closed, and the registry's references dropped. *)
Definition async_thread_channel_close_owned : PM unit :=
  s ← get;
  ZEND_ASSERT (bool_decide (map_Forall (λ _ ch, 0 < chan_refs ch) (channels s)));;
  ZEND_ASSERT (bool_decide (map_Forall (λ _ n, 0 < n_refs n) (notifies s)));;
  modify (λ s, set_channels ((λ ch, set_chan_closed true (set_chan_refs (chan_refs ch - 1) ch)) <$> channels s)
    (set_notifies ((λ n, set_n_closed true (set_n_refs (n_refs n - 1) n)) <$> notifies s) s)).

Definition run_op (op : pool_op) : PM unit :=
  match op with
  | PCall k c =>
    put_caller k (Some (start_call c));;
    match c with Free => modify (set_object false) | _ => mret tt end
  | PCaller k e => s ← get; pc ← of_option (callers s !! k); pc' ← caller_step k e pc; put_caller k pc'
  | PWorker k e => s ← get; w ← of_option (workers s !! k); w' ← thread_pool_worker_handler w e; put_worker k w'
  | PTask k i e => s ← get; w ← of_option (workers s !! k); w' ← pool_task_dispose w i e; put_worker k w'
  | PTeardown k i => s ← get; w ← of_option (workers s !! k); w' ← pool_snapshot_guard_dispose w i; put_worker k w'
  | PCancelTask i => s ← get; st ← of_option (states s !! i); put_state i (set_cancel_flag true st)
  | POwnerExit => async_thread_channel_close_owned;; modify (set_owner_gone true)
  end.

(** Which answers there are at a step of a worker. *)
Definition answers (w : worker_t) (e : answer_env) : bool :=
  let calm := match inflight w, arenas w with [], [] => true | _, _ => false end in
  match w_pc w, e with
  | (WInit | WBoot | WDispatch _ | WHandler _ | WBind _ | WBody _), EFail _ => true
  | (WBoot | WBody _), EBail => true
  | WReceive, EFail _ => true
  | (WReceive | WHandler _), EBail => calm
  | WAfterMain, (EOk | EBail) => calm
  | _, EOk => true
  | _, _ => false
  end.
Definition enabled (op : pool_op) (s : sys) : bool :=
  let free := bool_decide (running s = None) in
  match op with
  | PCall k c => free && object s && bool_decide (callers s !! k = None) &&
      match c with Free => bool_decide (callers s = ∅) | _ => negb (owner_gone s) end
  | PCaller k e =>
    match callers s !! k with
    | Some pc =>
      (if suspended pc then free else bool_decide (running s = Some k)) &&
      match pc with
      | CSubmitLive _ => bool_decide (states s !! fresh e = None)
      | CReloadWait _ fired => fired || negb (ok e)
      | CReloadAlloc _ => bool_decide (channels s !! fresh e = None) && bool_decide (notifies s !! fresh_notify e = None)
      | CStart _ _ _ => bool_decide (workers s !! fresh e = None)
      | _ => true
      end
    | None => false
    end
  | PWorker k e => match workers s !! k with Some w => answers w e | None => false end
  | PTask k i _ => match workers s !! k with Some w => bool_decide (i ∈ inflight w) | None => false end
  | PTeardown k i => match workers s !! k with Some w => bool_decide (i ∈ arenas w) && negb (bool_decide (i ∈ inflight w)) | None => false end
  | PCancelTask i => bool_decide (is_Some (states s !! i))
  | POwnerExit => free && bool_decide (callers s = ∅) && negb (owner_gone s)
  end.

(** A pool that was just made, with [n] workers. *)
Definition fresh_workers (n : nat) : gmap nat worker_t := list_to_map ((λ k, (k, mk_worker 0 WInit 0 [] [])) <$> seq 0 n).
Definition async_thread_pool_create (n : nat) (queue_size : Z) (boot mode : bool) (conc : Z) : sys :=
  mk_sys
    (mk_pool (Some 0%nat) boot None mode conc false false (Z.of_nat n) 0 0 0 (Z.of_nat n + 1) None None false 0 0 None None (seq 0 n) false)
    {[ 0%nat := mk_chan queue_size [] false 2 ]} ∅ ∅ (fresh_workers n) ∅ None true false [] [].
