(* ===== verification/ThreadPoolProofs.v ===== *)
(** * The books of the thread pool

    Every actor of the pool carries weights: the references, tasks and counts that its place
    in its function stands for ([gauge]).  The invariant [Bal] says that the shared memory
    is the sum of what the actors, the channels and the pool carry; a primitive of
    [ThreadPool] shifts some of it to the actor that runs, and [Bal] has a place for what
    that actor has in hand. *)

From S2P Require Import Prelude ThreadPool.
From stdpp Require Import fin_maps tactics.

Local Open Scope Z_scope.

(** ** Sums over a map *)
Section total.
Context {A : Type}.
Implicit Types (f : A → Z) (m : gmap nat A).

Definition total f m : Z := map_fold (λ _ a z, f a + z) 0 m.
Lemma total_empty f : total f ∅ = 0.
Proof. apply map_fold_empty. Qed.
Lemma total_new f m k a : m !! k = None → total f (<[k := a]> m) = f a + total f m.
Proof. intros Hk. unfold total. rewrite map_fold_insert_L; [done| |done]. intros. lia. Qed.
Lemma totals_delete f m k a : m !! k = Some a → total f m = f a + total f (delete k m).
Proof. intros Hk. unfold total. rewrite (map_fold_delete_L _ _ k a); [done| |done]. intros. lia. Qed.
Lemma totals_insert f m k a b : m !! k = Some a → total f (<[k := b]> m) = total f m - f a + f b.
Proof.
  intros Hk. rewrite (totals_delete f m k a) by done. rewrite <- insert_delete_eq. rewrite total_new by apply lookup_delete_eq. lia.
Qed.
Lemma totals_nonneg f m : (∀ k a, m !! k = Some a → 0 ≤ f a) → 0 ≤ total f m.
Proof.
  induction m as [|k a m Hk _ IH] using map_first_key_ind; intros Hf; [by rewrite total_empty|]. rewrite total_new by done.
  pose proof (Hf k a (lookup_insert_eq _ _ _)). assert (0 ≤ total f m); [|lia]. apply IH. intros k' a' Ha. apply (Hf k').
  rewrite lookup_insert_ne; [done|]. congruence.
Qed.
Lemma total_ge f m k a : (∀ k a, m !! k = Some a → 0 ≤ f a) → m !! k = Some a → f a ≤ total f m.
Proof.
  intros Hf Hk. rewrite (totals_delete f m k a) by done. assert (0 ≤ total f (delete k m)); [|lia].
  apply totals_nonneg. intros k' a' [_ ?]%lookup_delete_Some. eauto.
Qed.
Lemma total_mono f (g : A → Z) m : (∀ a, f a ≤ g a) → total f m ≤ total g m.
Proof.
  intros Hf. induction m as [|k a m Hk _ IH] using map_first_key_ind; [by rewrite !total_empty|]. rewrite !total_new by done. specialize (Hf a). lia.
Qed.
Lemma total_zero f m : (∀ k a, m !! k = Some a → f a = 0) → total f m = 0.
Proof.
  induction m as [|k a m Hk _ IH] using map_first_key_ind; intros Hf; [by rewrite total_empty|]. rewrite total_new by done.
  rewrite (Hf k a (lookup_insert_eq _ _ _)), IH; [done|]. intros k' a' Ha. apply (Hf k'). rewrite lookup_insert_ne; [done|]. congruence.
Qed.
Lemma total_pos f m : 0 < total f m → ∃ k a, m !! k = Some a ∧ 0 < f a.
Proof.
  induction m as [|k a m Hk _ IH] using map_first_key_ind; [by rewrite total_empty|]. rewrite total_new by done. intros Hp.
  destruct (decide (0 < f a)); [exists k, a; by rewrite lookup_insert_eq|]. destruct IH as (k' & a' & Hk' & ?); [lia|].
  exists k', a'. rewrite lookup_insert_ne; [done|]. congruence.
Qed.
Lemma total_fmap f (g : A → A) m : (∀ a, f (g a) = f a) → total f (g <$> m) = total f m.
Proof.
  intros Hg. induction m as [|k a m Hk _ IH] using map_first_key_ind; [by rewrite fmap_empty|].
  rewrite fmap_insert, !total_new; [by rewrite Hg, IH|done|]. by rewrite lookup_fmap, Hk.
Qed.
End total.

(** How often a task is in a list. *)
Definition is_task (i j : nat) : Z := Z.b2z (bool_decide (i = j)).
Fixpoint occ (i : nat) (l : list nat) : Z := match l with [] => 0 | j :: l => is_task i j + occ i l end.
Lemma occ_app i l1 l2 : occ i (l1 ++ l2) = occ i l1 + occ i l2.
Proof. induction l1; cbn; lia. Qed.
Lemma is_task_range i j : 0 ≤ is_task i j ≤ 1.
Proof. unfold is_task. destruct (bool_decide _); cbn; lia. Qed.
Lemma is_task_eq i : is_task i i = 1.
Proof. unfold is_task. by rewrite bool_decide_eq_true_2. Qed.
Lemma is_task_ne i j : i ≠ j → is_task i j = 0.
Proof. intros. unfold is_task. by rewrite bool_decide_eq_false_2. Qed.
Lemma occ_nonneg i l : 0 ≤ occ i l.
Proof. induction l as [|j l]; cbn; [lia|]. pose proof (is_task_range i j). lia. Qed.
Lemma occ_in i l : i ∈ l → 1 ≤ occ i l.
Proof.
  induction l as [|j l IH]; [by intros ?%not_elem_of_nil|]. intros [->|Hi]%elem_of_cons; cbn.
  - rewrite is_task_eq. pose proof (occ_nonneg j l). lia.
  - pose proof (is_task_range i j). specialize (IH Hi). lia.
Qed.
Lemma occ_filter i j l : occ j (filter (λ j, j ≠ i) l) = if bool_decide (j = i) then 0 else occ j l.
Proof.
  induction l as [|k l IH]; [by case_bool_decide|]. rewrite filter_cons. destruct (decide (k ≠ i)) as [Hk|Hk]; cbn [occ]; rewrite IH.
  - case_bool_decide as Hj; [|done]. subst. rewrite is_task_ne; [done|congruence].
  - apply dec_stable in Hk as ->. case_bool_decide as Hj; [done|]. by rewrite is_task_ne.
Qed.

(** ** The weights *)
Inductive gauge :=
| GHeld (i : nat)        (* the reference of task [i] *)
| GSnap (i : nat)        (* its snapshot *)
| GSub (i : nat)         (* its future has not been handed out yet *)
| GPending | GRunning
| GRefs | GLive
| GOwns (c : nat)        (* the pool's reference to channel [c] *)
| GNotify (m : nat)      (* the pool's reference to the channel [m] of tokens *)
| GRotating
| GPublished.            (* [reload_notify] is set *)

Definition routine_weight (rt : routine) (g : gauge) : Z :=
  match rt, g with
  | DrainTask _ i, (GHeld j | GSnap j) => is_task j i
  | DrainTask _ _, GPending => 1
  | _, _ => 0
  end.
Definition pc_hand (pc : worker_pc) : list nat :=
  match pc with
  | WTaken i | WDispatch i | WHandler i | WBind i | WBody i | WNursery i => [i]
  | WFailing _ (Some i) _ _ => [i]
  | _ => []
  end.
Definition pc_routine (pc : worker_pc) : routine := match pc with WFailing _ _ _ rt => rt | _ => RoutineDone end.
Definition pc_running (pc : worker_pc) : bool :=
  match pc with WDispatch _ | WHandler _ | WBind _ | WBody _ => true | _ => false end.
Definition pc_counted (pc : worker_pc) : bool :=
  match pc with WLoadNotify | WLoadOld _ | WSendToken _ | WDelref => false | _ => true end.
Definition worker_weight (w : worker_t) (g : gauge) : Z :=
  match g with
  | GHeld j => occ j (pc_hand (w_pc w)) + routine_weight (pc_routine (w_pc w)) g + occ j (inflight w)
  | GSnap j => occ j (pc_hand (w_pc w)) + routine_weight (pc_routine (w_pc w)) g + occ j (arenas w)
  | GPending => (match w_pc w with WTaken _ => 1 | _ => 0 end) + routine_weight (pc_routine (w_pc w)) g
  | GRunning => Z.b2z (pc_running (w_pc w)) + Z.of_nat (length (inflight w))
  | GRefs => 1
  | GLive => Z.b2z (pc_counted (w_pc w))
  | GSub _ | GOwns _ | GNotify _ | GRotating | GPublished => 0
  end.

(** The rotation that a caller is in, and the channel that only it refers to. *)
Definition rotation_of (pc : caller_pc) : option (rotation_t * bool) :=
  match pc with
  | CPublishOld r | CPublishNotify r | CSwap r => Some (r, false)
  | CCloseOld r | CSpawn r _ _ | CStart r _ _ | CToken r _ _ | CClearNotify r _ _ | CClearOld r _ _ | CReloadEnd r _ _ => Some (r, true)
  | _ => None
  end.
Definition is_free (pc : caller_pc) : bool := match pc with CShut ShutFree _ | CFree => true | _ => false end.
Definition caller_weight (pc : caller_pc) (g : gauge) : Z :=
  match g with
  | GHeld j | GSnap j => match pc with CLoadChannel i | CSend i _ => is_task j i | CShut _ rt => routine_weight rt g | _ => 0 end
  | GSub j => match pc with CLoadChannel i | CSend i _ | CCount i => is_task j i | _ => 0 end
  | GPending => match pc with CShut _ rt => routine_weight rt g | CCount _ => -1 | _ => 0 end
  | GRunning => 0
  | GRefs => match pc with CStart _ _ _ => 1 | _ => Z.b2z (is_free pc) end
  | GLive => match pc with CStart _ _ _ => 1 | _ => 0 end
  | GOwns c => match rotation_of pc with Some (r, swapped) => is_task c (if swapped then r_old r else r_new r) | None => 0 end
  | GNotify m => match rotation_of pc with Some (r, _) => is_task m (r_notify r) | None => 0 end
  | GRotating => match pc with CReloadAlloc _ => 1 | _ => match rotation_of pc with Some _ => 1 | None => 0 end end
  | GPublished => match pc with CSwap _ | CCloseOld _ | CSpawn _ _ _ | CStart _ _ _ | CToken _ _ _ | CClearNotify _ _ _ => 1 | _ => 0 end
  end.

Definition sum (s : sys) (g : gauge) : Z :=
  total (λ w, worker_weight w g) (workers s) + total (λ pc, caller_weight pc g) (callers s).
Definition queued (s : sys) (i : nat) : Z := total (λ ch, occ i (queue ch)) (channels s).
Definition owned (s : sys) (c : nat) : Z :=
  Z.b2z (bool_decide (task_channel (pool s) = Some c)) + Z.b2z (bool_decide (orphan_old (pool s) = Some c)).
Definition parked (s : sys) (m : nat) : Z := Z.b2z (bool_decide (orphan_notify (pool s) = Some m)).
(** The registry's reference to every channel. *)
Definition registry (s : sys) : Z := Z.b2z (negb (owner_gone s)).

(** ** The books; [W]: what the actor that runs has in hand beyond its weight in the map *)
Record Bal (calm : bool) (s : sys) (W : gauge → Z) : Prop := {
  b_held i : queued s i + sum s (GHeld i) + occ i (lost s) + W (GHeld i) =
    match states s !! i with Some st => Z.b2z (task_ref st) | None => 0 end;
  b_snap i : match states s !! i with
    | Some st => kind st = TASK_KIND_CLOSURE → queued s i + sum s (GSnap i) + W (GSnap i) = Z.b2z (snapshot st)
    | None => queued s i + sum s (GSnap i) + W (GSnap i) = 0 end;
  b_sub i : match states s !! i with
    | Some st => sum s (GSub i) + W (GSub i) + Z.b2z (returned st) ≤ 1
    | None => sum s (GSub i) + W (GSub i) = 0 end;
  b_pending : pending_count (pool s) = i32 (total (λ ch, Z.of_nat (length (queue ch))) (channels s) + sum s GPending + W GPending);
  b_running : running_count (pool s) = i32 (sum s GRunning + Z.of_nat (length (lost s)) + W GRunning);
  b_refs : ref_count (pool s) = Z.b2z (object s) + sum s GRefs + W GRefs;
  b_live : live_workers (pool s) = sum s GLive + W GLive;
  b_destroyed : destroyed (pool s) = true → ref_count (pool s) = 0;
  b_task : ref_count (pool s) ≠ 0 → is_Some (task_channel (pool s));
  b_chan c : match channels s !! c with
    | Some ch => chan_refs ch = registry s + owned s c + sum s (GOwns c) + W (GOwns c)
    | None => owned s c + sum s (GOwns c) + W (GOwns c) = 0 end;
  b_notify m : match notifies s !! m with
    | Some n => n_refs n = registry s + parked s m + sum s (GNotify m) + W (GNotify m)
    | None => parked s m + sum s (GNotify m) + W (GNotify m) = 0 end;
  b_published : sum s GPublished + W GPublished = Z.b2z (bool_decide (is_Some (reload_notify (pool s))));
  b_rotating : sum s GRotating + W GRotating = Z.b2z (reload_in_progress (pool s));
  b_answers i st : calm = true → states s !! i = Some st → task_ref st = false → answer st = None →
    sum s (GSub i) + W (GSub i) + Z.b2z (returned st) = 0
}.
Definition nil_weight : gauge → Z := λ _, 0.

Lemma bal_ext calm s W W' : Bal calm s W → (∀ g, W g = W' g) → Bal calm s W'.
Proof. intros [] He. constructor; intros; rewrite <- ?He; try match goal with H : _ |- _ => by apply H end. Qed.

Lemma routine_weight_nonneg rt g : 0 ≤ routine_weight rt g.
Proof. destruct rt, g; cbn; try lia; apply is_task_range. Qed.
Lemma worker_weight_nonneg w g : 0 ≤ worker_weight w g.
Proof.
  pose proof (routine_weight_nonneg (pc_routine (w_pc w)) g).
  destruct g; cbn -[routine_weight occ] in *; try lia.
  - pose proof (occ_nonneg i (pc_hand (w_pc w))). pose proof (occ_nonneg i (inflight w)). lia.
  - pose proof (occ_nonneg i (pc_hand (w_pc w))). pose proof (occ_nonneg i (arenas w)). lia.
  - destruct (w_pc w); lia.
  - destruct (pc_running _); cbn; lia.
  - destruct (pc_counted _); cbn; lia.
Qed.
Lemma caller_weight_nonneg pc g : g ≠ GPending → 0 ≤ caller_weight pc g.
Proof.
  intros Hg. destruct g; try done; cbn -[routine_weight].
  - destruct pc; try done; try apply is_task_range. apply routine_weight_nonneg.
  - destruct pc; try done; try apply is_task_range. apply routine_weight_nonneg.
  - destruct pc; try done; apply is_task_range.
  - destruct pc; try done; by destruct (is_free _).
  - by destruct pc.
  - destruct (rotation_of pc) as [[r []]|]; try done; apply is_task_range.
  - destruct (rotation_of pc) as [[r sw]|]; try done; apply is_task_range.
  - destruct pc; try done; by destruct (rotation_of _).
  - by destruct pc.
Qed.
Lemma sum_nonneg s g : g ≠ GPending → 0 ≤ sum s g.
Proof.
  intros Hg. unfold sum. assert (0 ≤ total (λ w, worker_weight w g) (workers s)) by (apply totals_nonneg; intros; apply worker_weight_nonneg).
  assert (0 ≤ total (λ pc, caller_weight pc g) (callers s)) by (apply totals_nonneg; intros; by apply caller_weight_nonneg). lia.
Qed.
Lemma queued_nonneg s i : 0 ≤ queued s i.
Proof. apply totals_nonneg. intros. apply occ_nonneg. Qed.

(** ** What follows from the books *)
Lemma i32_add x y : i32 (i32 x + y) = i32 (x + y).
Proof. unfold i32. f_equal.
  replace ((x + 2 ^ 31) `mod` 2 ^ 32 - 2 ^ 31 + y + 2 ^ 31) with ((x + 2 ^ 31) `mod` 2 ^ 32 + y) by lia.
  rewrite Z.add_mod_idemp_l by done. f_equal. lia.
Qed.

Lemma bal_held calm s W i : Bal calm s W → 0 < queued s i + sum s (GHeld i) + occ i (lost s) + W (GHeld i) →
  ∃ st, states s !! i = Some st ∧ task_ref st = true.
Proof.
  intros HB Hp. rewrite (b_held _ _ _ HB) in Hp. destruct (states s !! i) as [st|]; [|lia]. exists st.
  by destruct (task_ref st).
Qed.
Lemma bal_alive calm s W : Bal calm s W → 0 < Z.b2z (object s) + sum s GRefs + W GRefs →
  destroyed (pool s) = false ∧ ref_count (pool s) ≠ 0.
Proof.
  intros HB Hp. assert (ref_count (pool s) ≠ 0) as Hr by (rewrite (b_refs _ _ _ HB); lia). split; [|done].
  apply not_true_is_false. by intros Hd%(b_destroyed _ _ _ HB).
Qed.

(** ** Steps that change nothing but the counters and the answers *)
Definition control (p : async_thread_pool_t) : async_thread_pool_t :=
  set_pending_count 0 (set_running_count 0 (set_completed_count 0 (set_bootloader_error None p))).
Record quiet (s s' : sys) : Prop := {
  q_control : control (pool s') = control (pool s);
  q_channels : channels s' = channels s;
  q_notifies : notifies s' = notifies s;
  q_workers : workers s' = workers s;
  q_callers : callers s' = callers s;
  q_running : running s' = running s;
  q_object : object s' = object s;
  q_owner : owner_gone s' = owner_gone s;
  q_lost : lost s' = lost s;
  q_results : results s' = results s;
  q_kind i : kind <$> states s' !! i = kind <$> states s !! i;
  q_returned i : returned <$> states s' !! i = returned <$> states s !! i;
  q_answer i st a : states s !! i = Some st → answer st = Some a → ∃ st', states s' !! i = Some st' ∧ answer st' = Some a
}.
Lemma quiet_refl s : quiet s s.
Proof. constructor; eauto. Qed.
Lemma quiet_trans s1 s2 s3 : quiet s1 s2 → quiet s2 s3 → quiet s1 s3.
Proof.
  intros Q1 Q2. destruct Q1, Q2. constructor; try congruence.
  intros i st a Hst Ha. destruct (q_answer0 i st a Hst Ha) as (st' & ? & ?). eauto.
Qed.
Lemma quiet_pool {A} (f : async_thread_pool_t → A) s s' : quiet s s' → (∀ p, f (control p) = f p) → f (pool s') = f (pool s).
Proof. intros HQ Hf. rewrite <- !(Hf (pool _)). by rewrite (q_control _ _ HQ). Qed.
Lemma quiet_sum s s' g : quiet s s' → sum s' g = sum s g.
Proof. intros HQ. unfold sum. by rewrite (q_workers _ _ HQ), (q_callers _ _ HQ). Qed.
Lemma quiet_queued s s' i : quiet s s' → queued s' i = queued s i.
Proof. intros HQ. unfold queued. by rewrite (q_channels _ _ HQ). Qed.
Lemma quiet_destroyed s s' : quiet s s' → destroyed (pool s') = destroyed (pool s).
Proof. intros HQ. by apply quiet_pool. Qed.
Lemma quiet_task s s' : quiet s s' → task_channel (pool s') = task_channel (pool s).
Proof. intros HQ. by apply quiet_pool. Qed.
Lemma quiet_closed s s' : quiet s s' → closed (pool s') = closed (pool s).
Proof. intros HQ. by apply quiet_pool. Qed.

Definition d_pending (g : gauge) : Z := match g with GPending => 1 | _ => 0 end.
Definition d_running (g : gauge) : Z := match g with GRunning => 1 | _ => 0 end.
Definition d_held i (g : gauge) : Z := match g with GHeld j => is_task j i | _ => 0 end.
Definition d_snap i (g : gauge) : Z := match g with GSnap j => is_task j i | _ => 0 end.
Definition d_task i (g : gauge) : Z := match g with GHeld j | GSnap j => is_task j i | _ => 0 end.
Definition d_sub i (g : gauge) : Z := match g with GSub j => is_task j i | _ => 0 end.
Definition d_refs (g : gauge) : Z := match g with GRefs => 1 | _ => 0 end.
Definition d_live (g : gauge) : Z := match g with GLive => 1 | _ => 0 end.
Definition d_owns c (g : gauge) : Z := match g with GOwns j => is_task j c | _ => 0 end.
Definition d_notify m (g : gauge) : Z := match g with GNotify j => is_task j m | _ => 0 end.
Definition d_rotating (g : gauge) : Z := match g with GRotating => 1 | _ => 0 end.
Definition d_published (g : gauge) : Z := match g with GPublished => 1 | _ => 0 end.

(** ** The counters *)
Lemma wp_get_pool s (Φ : async_thread_pool_t → sys → Prop) : destroyed (pool s) = false → Φ (pool s) s → wp get_pool Φ s.
Proof. intros Hd HΦ. unfold get_pool. rewrite wp_bind, wp_get, wp_bind, wp_assert, Hd, wp_ret. done. Qed.
Lemma wp_upd_pool f s (Φ : unit → sys → Prop) : destroyed (pool s) = false → Φ tt (set_pool (f (pool s)) s) → wp (upd_pool f) Φ s.
Proof. intros Hd HΦ. unfold upd_pool. rewrite wp_bind. by apply wp_get_pool. Qed.

Lemma counters_quiet s p : control p = control (pool s) → quiet s (set_pool p s).
Proof. intros Hp. constructor; try done. eauto. Qed.
Lemma bal_counters calm s W W' p : Bal calm s W → control p = control (pool s) →
  pending_count p = i32 (total (λ ch, Z.of_nat (length (queue ch))) (channels s) + sum s GPending + W' GPending) →
  running_count p = i32 (sum s GRunning + Z.of_nat (length (lost s)) + W' GRunning) →
  (∀ g, g ≠ GPending → g ≠ GRunning → W' g = W g) → Bal calm (set_pool p s) W'.
Proof.
  intros HB Hp Hpe Hru HW. pose proof (counters_quiet s p Hp) as HQ.
  assert (∀ (B : Type) (f : async_thread_pool_t → B), (∀ p, f (control p) = f p) → f p = f (pool s)) as Hf.
  { intros B f E. by rewrite <- (E p), Hp, E. }
  destruct HB. constructor; cbn -[sum queued]; intros.
  - rewrite HW by done. apply b_held0.
  - rewrite HW by done. apply b_snap0.
  - rewrite HW by done. apply b_sub0.
  - done.
  - done.
  - rewrite HW, (Hf _ ref_count) by done. done.
  - rewrite HW, (Hf _ live_workers) by done. done.
  - rewrite (Hf _ ref_count) by done. apply b_destroyed0. by rewrite <- (Hf _ destroyed).
  - rewrite (Hf _ task_channel) by done. apply b_task0. by rewrite <- (Hf _ ref_count).
  - rewrite HW by done. unfold owned. cbn. rewrite (Hf _ task_channel), (Hf _ orphan_old) by done. apply b_chan0.
  - rewrite HW by done. unfold parked. cbn. rewrite (Hf _ orphan_notify) by done. apply b_notify0.
  - rewrite HW, (Hf _ reload_notify) by done. done.
  - rewrite HW, (Hf _ reload_in_progress) by done. done.
  - rewrite HW by done. eauto.
Qed.
Lemma wp_counter calm s W W' f (Φ : unit → sys → Prop) : Bal calm s W → destroyed (pool s) = false → (∀ p, control (f p) = control p) →
  pending_count (f (pool s)) = i32 (pending_count (pool s) + (W' GPending - W GPending)) →
  running_count (f (pool s)) = i32 (running_count (pool s) + (W' GRunning - W GRunning)) →
  (∀ g, g ≠ GPending → g ≠ GRunning → W' g = W g) →
  (∀ s', quiet s s' → Bal calm s' W' → Φ tt s') → wp (upd_pool f) Φ s.
Proof.
  intros HB Hd Hc Hp Hr HW HΦ. apply wp_upd_pool; [done|]. apply HΦ; [by apply counters_quiet|].
  apply (bal_counters calm s W); [done|done| | |done].
  - rewrite Hp, (b_pending _ _ _ HB), i32_add. f_equal. lia.
  - rewrite Hr, (b_running _ _ _ HB), i32_add. f_equal. lia.
Qed.
Lemma i32_bal_pending calm s W : Bal calm s W → pending_count (pool s) = i32 (pending_count (pool s) + 0).
Proof. intros HB. rewrite (b_pending _ _ _ HB), i32_add. f_equal. lia. Qed.
Lemma i32_bal_running calm s W : Bal calm s W → running_count (pool s) = i32 (running_count (pool s) + 0).
Proof. intros HB. rewrite (b_running _ _ _ HB), i32_add. f_equal. lia. Qed.

Lemma wp_pending_dec calm s W (Φ : unit → sys → Prop) : Bal calm s W → destroyed (pool s) = false →
  (∀ s', quiet s s' → Bal calm s' (λ g, W g - d_pending g) → Φ tt s') → wp pending_dec Φ s.
Proof.
  intros HB Hd HΦ. unfold pending_dec. eapply (wp_counter calm s W (λ g, W g - d_pending g)); try done; cbn.
  - f_equal. lia.
  - replace (W GRunning - 0 - W GRunning) with 0 by lia. by eapply i32_bal_running.
  - intros [] ? ?; cbn; try done; lia.
Qed.
Lemma wp_pending_inc calm s W (Φ : unit → sys → Prop) : Bal calm s W → destroyed (pool s) = false →
  (∀ s', quiet s s' → Bal calm s' (λ g, W g + d_pending g) → Φ tt s') → wp pending_inc Φ s.
Proof.
  intros HB Hd HΦ. unfold pending_inc. eapply (wp_counter calm s W (λ g, W g + d_pending g)); try done; cbn.
  - f_equal. lia.
  - replace (W GRunning + 0 - W GRunning) with 0 by lia. by eapply i32_bal_running.
  - intros [] ? ?; cbn; try done; lia.
Qed.
Lemma wp_running_inc calm s W (Φ : unit → sys → Prop) : Bal calm s W → destroyed (pool s) = false →
  (∀ s', quiet s s' → Bal calm s' (λ g, W g + d_running g) → Φ tt s') → wp running_inc Φ s.
Proof.
  intros HB Hd HΦ. unfold running_inc. eapply (wp_counter calm s W (λ g, W g + d_running g)); try done; cbn.
  - replace (W GPending + 0 - W GPending) with 0 by lia. by eapply i32_bal_pending.
  - f_equal. lia.
  - intros [] ? ?; cbn; try done; lia.
Qed.
Lemma wp_task_over calm s W (Φ : unit → sys → Prop) : Bal calm s W → destroyed (pool s) = false →
  (∀ s', quiet s s' → Bal calm s' (λ g, W g - d_running g) → Φ tt s') → wp task_over Φ s.
Proof.
  intros HB Hd HΦ. unfold task_over. eapply (wp_counter calm s W (λ g, W g - d_running g)); try done; cbn.
  - replace (W GPending - 0 - W GPending) with 0 by lia. by eapply i32_bal_pending.
  - f_equal. lia.
  - intros [] ? ?; cbn; try done; lia.
Qed.
(** ** The state of a task *)
Definition answered (s : sys) (i : nat) : Prop := ∃ st a, states s !! i = Some st ∧ answer st = Some a.
Lemma quiet_answered s s' i : quiet s s' → answered s i → answered s' i.
Proof. intros HQ (st & a & Hst & Ha). destruct (q_answer _ _ HQ i st a Hst Ha) as (st' & ? & ?). by exists st', a. Qed.

Lemma sum_states x s g : sum (set_states x s) g = sum s g.
Proof. done. Qed.
Lemma queued_states x s i : queued (set_states x s) i = queued s i.
Proof. done. Qed.

Lemma bal_put_state calm s W W' i st st' : Bal calm s W → states s !! i = Some st → kind st' = kind st → returned st' = returned st →
  (task_ref st' = false → answer st' = None → task_ref st = false ∧ answer st = None ∨
    (calm = true → sum s (GSub i) + W (GSub i) + Z.b2z (returned st) = 0)) →
  W' (GHeld i) = W (GHeld i) + Z.b2z (task_ref st') - Z.b2z (task_ref st) →
  (kind st = TASK_KIND_CLOSURE → W' (GSnap i) = W (GSnap i) + Z.b2z (snapshot st') - Z.b2z (snapshot st)) →
  (∀ g, g ≠ GHeld i → g ≠ GSnap i → W' g = W g) → Bal calm (set_states (<[i := st']> (states s)) s) W'.
Proof.
  intros HB Hi Hk Hr Han Hh Hs HW. destruct HB. constructor; cbn -[sum queued]; intros; rewrite ?sum_states, ?queued_states.
  - destruct (decide (i0 = i)) as [->|Hne].
    + rewrite lookup_insert_eq, Hh. specialize (b_held0 i). rewrite Hi in b_held0. lia.
    + rewrite lookup_insert_ne by done. rewrite HW by congruence. apply b_held0.
  - destruct (decide (i0 = i)) as [->|Hne].
    + rewrite lookup_insert_eq. intros Hkd. rewrite Hk in Hkd. specialize (b_snap0 i). rewrite Hi in b_snap0. specialize (b_snap0 Hkd).
      rewrite (Hs Hkd). lia.
    + rewrite lookup_insert_ne by done. rewrite HW by congruence. apply b_snap0.
  - rewrite HW by done. specialize (b_sub0 i0). destruct (decide (i0 = i)) as [->|Hne].
    + rewrite lookup_insert_eq, Hr. by rewrite Hi in b_sub0.
    + by rewrite lookup_insert_ne by done.
  - by rewrite HW.
  - by rewrite HW.
  - by rewrite HW.
  - by rewrite HW.
  - auto.
  - auto.
  - rewrite HW by done. apply b_chan0.
  - rewrite HW by done. apply b_notify0.
  - by rewrite HW.
  - by rewrite HW.
  - rewrite HW by done. destruct (decide (i0 = i)) as [->|Hne].
    + rewrite lookup_insert_eq in H0. injection H0 as <-. rewrite Hr. destruct (Han H1 H2) as [[? ?]|?]; [|auto]. by eapply b_answers0.
    + rewrite lookup_insert_ne in H0 by done. eauto.
Qed.
Lemma put_state_quiet s i st st' : states s !! i = Some st → kind st' = kind st → returned st' = returned st → (∀ a, answer st = Some a → answer st' = Some a) →
  quiet s (set_states (<[i := st']> (states s)) s).
Proof.
  intros Hi Hk Hr Ha. constructor; try done; cbn.
  - intros j. destruct (decide (j = i)) as [->|]; [rewrite lookup_insert_eq, Hi; cbn; by rewrite Hk|by rewrite lookup_insert_ne].
  - intros j. destruct (decide (j = i)) as [->|]; [rewrite lookup_insert_eq, Hi; cbn; by rewrite Hr|by rewrite lookup_insert_ne].
  - intros j st2 a Hj Hst2. destruct (decide (j = i)) as [->|].
    + rewrite Hi in Hj. injection Hj as <-. rewrite lookup_insert_eq. eauto.
    + rewrite lookup_insert_ne by done. eauto.
Qed.

Lemma wp_task_state s i st (Φ : state_t → sys → Prop) : states s !! i = Some st → task_ref st = true → Φ st s → wp (get_state i) Φ s.
Proof. intros Hi Hr HΦ. unfold get_state. rewrite wp_bind, wp_get, wp_bind, (wp_defined _ st) by done. rewrite wp_bind, wp_assert, wp_ret. done. Qed.
Lemma wp_settle calm s W i a (Φ : unit → sys → Prop) : Bal calm s W →
  0 < queued s i + sum s (GHeld i) + occ i (lost s) + W (GHeld i) →
  (∀ s', quiet s s' → Bal calm s' W → answered s' i → Φ tt s') → wp (async_future_shared_state_settle i a) Φ s.
Proof.
  intros HB Hh HΦ. destruct (bal_held _ _ _ _ HB Hh) as (st & Hi & Hr). unfold async_future_shared_state_settle.
  rewrite wp_bind. apply (wp_task_state _ _ st); [done..|]. unfold put_state. rewrite wp_modify.
  set (st' := match answer st with Some _ => st | None => _ end).
  assert (kind st' = kind st ∧ returned st' = returned st ∧ task_ref st' = task_ref st ∧ snapshot st' = snapshot st ∧
    is_Some (answer st') ∧ ∀ b, answer st = Some b → answer st' = Some b) as (E1 & E2 & E3 & E4 & [b Hb] & Ha).
  { unfold st'. destruct (answer st) eqn:E; cbn; rewrite ?E; split_and!; try done; by eexists. }
  apply HΦ.
  - by apply (put_state_quiet s i st).
  - apply (bal_put_state calm s W W i st); try done; rewrite ?E3, ?E4; intros; [congruence|lia|lia].
  - exists st', b. cbn. by rewrite lookup_insert_eq.
Qed.
Lemma wp_settle_if_any calm s W i a (Φ : unit → sys → Prop) : Bal calm s W →
  0 < queued s i + sum s (GHeld i) + occ i (lost s) + W (GHeld i) →
  (∀ s', quiet s s' → Bal calm s' W → (is_Some a → answered s' i) → Φ tt s') → wp (settle_if_any i a) Φ s.
Proof.
  intros HB Hh HΦ. destruct a as [a|]; cbn [settle_if_any].
  - eapply wp_settle; [done..|]. eauto.
  - rewrite wp_ret. apply HΦ; [apply quiet_refl|done|]. by intros [? ?].
Qed.

(** The reference may be dropped by an actor that has it, when the task is answered or its
    future will never be handed out. *)
Definition droppable (calm : bool) (s : sys) (W : gauge → Z) (i : nat) : Prop :=
  calm = true → answered s i ∨ sum s (GSub i) + W (GSub i) = 0 ∧ ∀ st, states s !! i = Some st → returned st = false.
Lemma wp_task_delref calm s W i (Φ : unit → sys → Prop) : Bal calm s W →
  0 < queued s i + sum s (GHeld i) + occ i (lost s) + W (GHeld i) → droppable calm s W i →
  (∀ s', quiet s s' → Bal calm s' (λ g, W g - d_held i g) → Φ tt s') → wp (async_future_shared_state_delref i) Φ s.
Proof.
  intros HB Hh Hdrop HΦ. destruct (bal_held _ _ _ _ HB Hh) as (st & Hi & Hr). unfold async_future_shared_state_delref.
  rewrite wp_bind. apply (wp_task_state _ _ st); [done..|]. unfold put_state. rewrite wp_modify. apply HΦ.
  - by apply (put_state_quiet s i st).
  - apply (bal_put_state calm s W _ i st); try done; cbn.
    + intros _ Ha. right. intros Hc. destruct (Hdrop Hc) as [(st2 & a & Hi2 & Ha2)|[Hz Hret]].
      * rewrite Hi in Hi2. injection Hi2 as <-. congruence.
      * rewrite (Hret st Hi), Hz. done.
    + rewrite Hr, is_task_eq. cbn. lia.
    + intros. lia.
    + intros [] ? ?; cbn; try lia. rewrite is_task_ne by congruence. lia.
Qed.
Lemma wp_snapshot_destroy calm s W i (Φ : unit → sys → Prop) : Bal calm s W →
  0 < queued s i + sum s (GSnap i) + W (GSnap i) → (∀ st, states s !! i = Some st → kind st = TASK_KIND_CLOSURE) →
  (∀ s', quiet s s' → Bal calm s' (λ g, W g - d_snap i g) → Φ tt s') → wp (async_thread_snapshot_destroy i) Φ s.
Proof.
  intros HB Hh Hk HΦ. pose proof (b_snap _ _ _ HB i) as Hs. destruct (states s !! i) as [st|] eqn:Hi; [|lia].
  specialize (Hk st eq_refl). specialize (Hs Hk). assert (snapshot st = true) as Hsn by (destruct (snapshot st); [done|cbn in Hs; lia]).
  unfold async_thread_snapshot_destroy. rewrite wp_bind, wp_get, wp_bind, (wp_defined _ st) by done. rewrite wp_bind, wp_assert. split; [done|].
  unfold put_state. rewrite wp_modify. apply HΦ.
  - by apply (put_state_quiet s i st).
  - apply (bal_put_state calm s W _ i st); try done; cbn.
    + by left.
    + lia.
    + intros _. rewrite Hsn, is_task_eq. cbn. lia.
    + intros [] ? ?; cbn; try lia. rewrite is_task_ne by congruence. lia.
Qed.
Lemma droppable_quiet calm s s' W W' i : quiet s s' → W' (GSub i) = W (GSub i) → droppable calm s W i → droppable calm s' W' i.
Proof.
  intros HQ HW Hd Hc. destruct (Hd Hc) as [Ha|[Hz Hr]]; [left; by eapply quiet_answered|right]. rewrite (quiet_sum _ _ _ HQ), HW.
  split; [done|]. intros st Hst. pose proof (q_returned _ _ HQ i) as Hq. rewrite Hst in Hq. cbn in Hq. symmetry in Hq.
  apply fmap_Some in Hq as (st0 & H0 & ->). eauto.
Qed.

(** An internal task has no snapshot. *)
Lemma bal_internal calm s W W' i st : Bal calm s W → states s !! i = Some st → kind st = TASK_KIND_INTERNAL →
  (∀ g, g ≠ GSnap i → W' g = W g) → Bal calm s W'.
Proof.
  intros HB Hi Hk HW. destruct HB. constructor; intros; rewrite ?HW by done; try match goal with H : _ |- _ => by apply H end.
  destruct (decide (i0 = i)) as [->|]; [rewrite Hi; congruence|]. rewrite HW by congruence. apply b_snap0.
Qed.
Lemma wp_release_task calm s W i (Φ : unit → sys → Prop) : Bal calm s W →
  0 < queued s i + sum s (GHeld i) + occ i (lost s) + W (GHeld i) → 0 < queued s i + sum s (GSnap i) + W (GSnap i) →
  droppable calm s W i → (∀ s', quiet s s' → Bal calm s' (λ g, W g - d_task i g) → Φ tt s') → wp (release_task i) Φ s.
Proof.
  intros HB Hh Hsn Hd HΦ. destruct (bal_held _ _ _ _ HB Hh) as (st & Hi & Hr). unfold release_task.
  rewrite wp_bind. apply (wp_task_state _ _ st); [done..|]. rewrite wp_bind, wp_when. case_bool_decide as Hk.
  - eapply wp_snapshot_destroy; [done..|congruence|]. intros s1 HQ1 HB1. eapply wp_task_delref; [done| | |].
    + by rewrite (quiet_queued _ _ _ HQ1), (quiet_sum _ _ _ HQ1), (q_lost _ _ HQ1), Z.sub_0_r.
    + eapply droppable_quiet; [done| |done]. cbn. lia.
    + intros s2 HQ2 HB2. apply HΦ; [by eapply quiet_trans|]. eapply bal_ext; [done|]. intros []; cbn; lia.
  - eapply wp_task_delref; [done..|]. intros s2 HQ2 HB2. apply HΦ; [done|].
    pose proof (q_kind _ _ HQ2 i) as Hq. rewrite Hi in Hq. apply fmap_Some in Hq as (st2 & Hi2 & Hk2).
    apply (bal_internal calm s2 _ _ i st2 HB2 Hi2); [by destruct (kind st), (kind st2)|].
    intros [] ?; cbn; try lia. rewrite is_task_ne by congruence. lia.
Qed.

(** ** Channels *)
Lemma sum_channels x s g : sum (set_channels x s) g = sum s g.
Proof. done. Qed.
Lemma sum_pool x s g : sum (set_pool x s) g = sum s g.
Proof. done. Qed.
Lemma queued_pool x s i : queued (set_pool x s) i = queued s i.
Proof. done. Qed.
Lemma queued_put s c ch ch' i : channels s !! c = Some ch →
  queued (set_channels (<[c := ch']> (channels s)) s) i = queued s i - occ i (queue ch) + occ i (queue ch').
Proof. intros Hc. unfold queued. cbn. by rewrite (totals_insert _ _ _ ch). Qed.

(** An actor may use a channel that the registry or the pool keeps. *)
Definition grip (s : sys) (c : nat) : Prop := owner_gone s = false ∨ 0 < owned s c.
Definition chan_known (s : sys) (c : nat) : Prop := is_Some (channels s !! c) ∧ grip s c.
Definition notify_grip (s : sys) (m : nat) : Prop := owner_gone s = false ∨ orphan_notify (pool s) = Some m.
Definition notify_known (s : sys) (m : nat) : Prop := is_Some (notifies s !! m) ∧ notify_grip s m.
Lemma owned_nonneg s c : 0 ≤ owned s c.
Proof. unfold owned. repeat destruct (bool_decide _); cbn; lia. Qed.
Lemma grip_registry s c : grip s c → 0 < registry s + owned s c.
Proof. pose proof (owned_nonneg s c). unfold registry. intros [-> |?]; [cbn; lia|]. destruct (owner_gone s); cbn; lia. Qed.
Lemma notify_grip_registry s m : notify_grip s m → 0 < registry s + parked s m.
Proof. unfold registry, parked. intros [-> | ->]; [|rewrite (bool_decide_eq_true_2 (Some m = _)) by done]; [destruct (bool_decide _)|destruct (owner_gone s)]; cbn; lia. Qed.

Lemma bal_chan_refs calm s W c ch : Bal calm s W → channels s !! c = Some ch → grip s c → 0 ≤ W (GOwns c) → 0 < chan_refs ch.
Proof.
  intros HB Hc Hg%grip_registry HW. pose proof (b_chan _ _ _ HB c) as Hr. rewrite Hc in Hr. pose proof (sum_nonneg s (GOwns c) ltac:(done)). lia.
Qed.
Lemma wp_get_chan calm s W c ch (Φ : chan_t → sys → Prop) : Bal calm s W → channels s !! c = Some ch → grip s c → 0 ≤ W (GOwns c) →
  Φ ch s → wp (get_chan c) Φ s.
Proof.
  intros HB Hc Hg HW HΦ. unfold get_chan. rewrite wp_bind, wp_get, wp_bind, (wp_defined _ ch) by done. rewrite wp_bind, wp_assert, wp_ret.
  split; [|done]. apply Z.ltb_lt. by eapply bal_chan_refs.
Qed.
Lemma wp_get_notify calm s W m n (Φ : notify_t → sys → Prop) : Bal calm s W → notifies s !! m = Some n → notify_grip s m → 0 ≤ W (GNotify m) →
  Φ n s → wp (get_notify m) Φ s.
Proof.
  intros HB Hm Hg%notify_grip_registry HW HΦ. unfold get_notify. rewrite wp_bind, wp_get, wp_bind, (wp_defined _ n) by done.
  rewrite wp_bind, wp_assert, wp_ret. split; [|done]. apply Z.ltb_lt. pose proof (b_notify _ _ _ HB m) as Hr. rewrite Hm in Hr.
  pose proof (sum_nonneg s (GNotify m) ltac:(done)). lia.
Qed.
Lemma wp_record_error calm s W c r (Φ : unit → sys → Prop) : Bal calm s W → chan_known s c → 0 ≤ W (GOwns c) → destroyed (pool s) = false →
  (∀ s', quiet s s' → Bal calm s' W → Φ tt s') → wp (thread_pool_record_bootloader_error c r) Φ s.
Proof.
  intros HB [[ch Hch] Hg] HW Hd HΦ. unfold thread_pool_record_bootloader_error. rewrite wp_bind. eapply wp_get_chan; [done..|]. eapply (wp_counter calm s W W); try done; cbn.
  - intros p. by destruct (bootloader_error p).
  - rewrite Z.sub_diag. rewrite <- (i32_bal_pending _ _ _ HB). by destruct (bootloader_error _).
  - rewrite Z.sub_diag. rewrite <- (i32_bal_running _ _ _ HB). by destruct (bootloader_error _).
Qed.

Lemma bal_put_chan calm s W W' c ch ch' : Bal calm s W → channels s !! c = Some ch →
  (∀ j, W' (GHeld j) = W (GHeld j) + occ j (queue ch) - occ j (queue ch')) →
  (∀ j, W' (GSnap j) = W (GSnap j) + occ j (queue ch) - occ j (queue ch')) →
  W' GPending = W GPending + Z.of_nat (length (queue ch)) - Z.of_nat (length (queue ch')) →
  (∀ j, W' (GOwns j) = W (GOwns j) + (chan_refs ch' - chan_refs ch) * is_task j c) →
  (∀ j, W' (GSub j) = W (GSub j)) → W' GRunning = W GRunning → W' GRefs = W GRefs → W' GLive = W GLive → W' GRotating = W GRotating →
  (∀ m, W' (GNotify m) = W (GNotify m)) → W' GPublished = W GPublished →
  Bal calm (set_channels (<[c := ch']> (channels s)) s) W'.
Proof.
  intros HB Hc Hh Hs Hp Ho Hsub Hru Hre Hl Hro Hno Hpu. destruct HB. constructor; cbn -[sum queued]; intros; rewrite ?sum_channels.
  - rewrite (queued_put _ _ ch), Hh by done. specialize (b_held0 i). lia.
  - rewrite (queued_put _ _ ch), Hs by done. specialize (b_snap0 i). destruct (states s !! i) as [st|]; [intros Hk; specialize (b_snap0 Hk)|]; lia.
  - rewrite Hsub. apply b_sub0.
  - rewrite (totals_insert _ _ _ ch), Hp, b_pending0 by done. f_equal. lia.
  - by rewrite Hru.
  - by rewrite Hre.
  - by rewrite Hl.
  - auto.
  - auto.
  - specialize (b_chan0 c0). rewrite Ho. destruct (decide (c0 = c)) as [->|].
    + rewrite lookup_insert_eq. rewrite Hc in b_chan0. rewrite is_task_eq. unfold owned, registry in *. cbn -[sum]. lia.
    + rewrite lookup_insert_ne, is_task_ne, Z.mul_0_r, Z.add_0_r by done. exact b_chan0.
  - rewrite Hno. apply b_notify0.
  - by rewrite Hpu.
  - by rewrite Hro.
  - rewrite Hsub. eauto.
Qed.
Lemma bal_new_chan calm s W c cap : Bal calm s W → owner_gone s = false → channels s !! c = None →
  Bal calm (set_channels (<[c := mk_chan cap [] false 2]> (channels s)) s) (λ g, W g + d_owns c g).
Proof.
  intros HB Hg Hc. destruct HB. constructor; cbn -[sum queued]; intros; rewrite ?sum_channels, ?Z.add_0_r; try done; try (by eauto).
  - rewrite <- b_held0. unfold queued. cbn. rewrite total_new by done. cbn. lia.
  - specialize (b_snap0 i). unfold queued. cbn. rewrite total_new by done. exact b_snap0.
  - apply b_sub0.
  - rewrite total_new by done. exact b_pending0.
  - specialize (b_chan0 c0). destruct (decide (c0 = c)) as [->|].
    + rewrite lookup_insert_eq. rewrite Hc in b_chan0. rewrite is_task_eq. unfold owned, registry in *. cbn in *. rewrite Hg in *. cbn in *. lia.
    + rewrite lookup_insert_ne, is_task_ne, Z.add_0_r by done. exact b_chan0.
  - apply b_notify0.
Qed.
Lemma sum_notifies x s g : sum (set_notifies x s) g = sum s g.
Proof. done. Qed.
Lemma queued_notifies x s i : queued (set_notifies x s) i = queued s i.
Proof. done. Qed.
Lemma bal_put_notify calm s W W' m n n' : Bal calm s W → notifies s !! m = Some n →
  (∀ j, W' (GNotify j) = W (GNotify j) + (n_refs n' - n_refs n) * is_task j m) → (∀ g, (∀ j, g ≠ GNotify j) → W' g = W g) →
  Bal calm (set_notifies (<[m := n']> (notifies s)) s) W'.
Proof.
  intros HB Hm Hn HW. destruct HB. constructor; cbn -[sum queued]; intros; rewrite ?sum_notifies, ?queued_notifies, ?HW by done; try done; try (by eauto); try apply b_snap0; try apply b_sub0; try apply b_chan0.
  specialize (b_notify0 m0). rewrite Hn. destruct (decide (m0 = m)) as [->|].
  - rewrite lookup_insert_eq, is_task_eq. rewrite Hm in b_notify0. unfold parked, registry in *. cbn -[sum]. lia.
  - rewrite lookup_insert_ne, is_task_ne, Z.mul_0_r, Z.add_0_r by done. exact b_notify0.
Qed.
Lemma bal_new_notify calm s W m cap : Bal calm s W → owner_gone s = false → notifies s !! m = None →
  Bal calm (set_notifies (<[m := mk_notify cap 0 false 2]> (notifies s)) s) (λ g, W g + d_notify m g).
Proof.
  intros HB Hg Hm. destruct HB. constructor; cbn -[sum queued]; intros; rewrite ?sum_notifies, ?queued_notifies, ?Z.add_0_r; try done; try (by eauto); try apply b_snap0; try apply b_sub0; try apply b_chan0.
  specialize (b_notify0 m0). destruct (decide (m0 = m)) as [->|].
  - rewrite lookup_insert_eq, is_task_eq. rewrite Hm in b_notify0. unfold parked, registry in *. rewrite Hg in *. cbn -[sum] in *. rewrite Hg. cbn -[sum]. lia.
  - rewrite lookup_insert_ne, is_task_ne, Z.add_0_r by done. exact b_notify0.
Qed.

(** ** The pool itself *)
Lemma bal_set_pool calm s W W' p : Bal calm s W → pending_count p = pending_count (pool s) → running_count p = running_count (pool s) →
  ref_count p = ref_count (pool s) + W' GRefs - W GRefs → live_workers p = live_workers (pool s) + W' GLive - W GLive →
  (destroyed p = true → ref_count p = 0) → (ref_count p ≠ 0 → is_Some (task_channel p)) →
  (∀ c, owned (set_pool p s) c + W' (GOwns c) = owned s c + W (GOwns c)) →
  Z.b2z (reload_in_progress p) = Z.b2z (reload_in_progress (pool s)) + W' GRotating - W GRotating →
  (∀ m, parked (set_pool p s) m + W' (GNotify m) = parked s m + W (GNotify m)) →
  Z.b2z (bool_decide (is_Some (reload_notify p))) = Z.b2z (bool_decide (is_Some (reload_notify (pool s)))) + W' GPublished - W GPublished →
  (∀ j, W' (GHeld j) = W (GHeld j)) → (∀ j, W' (GSnap j) = W (GSnap j)) → (∀ j, W' (GSub j) = W (GSub j)) →
  W' GPending = W GPending → W' GRunning = W GRunning → Bal calm (set_pool p s) W'.
Proof.
  intros HB Hpe Hru Hre Hli Hde Hta How Hro Hno Hpu Hh Hs Hsub Hp Hr. destruct HB. constructor; cbn -[sum queued owned]; intros;
    rewrite ?sum_pool, ?queued_pool, ?Hh, ?Hs, ?Hsub, ?Hp, ?Hr, ?Hpe, ?Hru, ?Hre, ?Hli, ?Hro, ?Hpu; try done; try lia; try (by eauto).
  - apply b_snap0.
  - apply b_sub0.
  - rewrite <- Hre. auto.
  - specialize (b_chan0 c). specialize (How c). unfold registry in *. cbn. destruct (channels s !! c); lia.
  - specialize (b_notify0 m). specialize (Hno m). unfold registry in *. cbn. destruct (notifies s !! m); lia.
Qed.

(** ** The actors *)
Lemma sum_insert_worker s k w w' g : workers s !! k = Some w →
  sum (set_workers (<[k := w']> (workers s)) s) g = sum s g - worker_weight w g + worker_weight w' g.
Proof. intros Hw. unfold sum. cbn. rewrite (totals_insert _ _ _ w) by done. lia. Qed.
Lemma sum_delete_worker s k w g : workers s !! k = Some w →
  sum (set_workers (delete k (workers s)) s) g = sum s g - worker_weight w g.
Proof. intros Hw. unfold sum. cbn. rewrite (totals_delete _ (workers s) _ w) by done. lia. Qed.
Lemma sum_new_worker s k w g : workers s !! k = None →
  sum (set_workers (<[k := w]> (workers s)) s) g = sum s g + worker_weight w g.
Proof. intros Hw. unfold sum. cbn. rewrite total_new by done. lia. Qed.

(** The actors change, and with them what is in hand. *)
Lemma bal_actors calm s s' W W' : Bal calm s W → pool s' = pool s → channels s' = channels s → notifies s' = notifies s →
  owner_gone s' = owner_gone s → states s' = states s → lost s' = lost s →
  Z.b2z (object s') + sum s' GRefs + W' GRefs = Z.b2z (object s) + sum s GRefs + W GRefs →
  (∀ g, g ≠ GRefs → sum s' g + W' g = sum s g + W g) → Bal calm s' W'.
Proof.
  intros HB Ep Ec En Eo Es El Hr Hg. destruct HB.
  assert (∀ i, queued s' i = queued s i) as Eq by (intros; unfold queued; by rewrite Ec).
  constructor; intros; rewrite ?Ep, ?Es, ?El, ?Eq in *.
  - rewrite <- (b_held0 i). specialize (Hg (GHeld i) ltac:(done)). lia.
  - specialize (b_snap0 i). specialize (Hg (GSnap i) ltac:(done)). destruct (states s !! i); [intros Hk; specialize (b_snap0 Hk)|]; lia.
  - specialize (b_sub0 i). specialize (Hg (GSub i) ltac:(done)). destruct (states s !! i); lia.
  - rewrite b_pending0, Ec. specialize (Hg GPending ltac:(done)). f_equal. lia.
  - rewrite b_running0. specialize (Hg GRunning ltac:(done)). f_equal. lia.
  - lia.
  - specialize (Hg GLive ltac:(done)). lia.
  - auto.
  - auto.
  - specialize (b_chan0 c). specialize (Hg (GOwns c) ltac:(done)). rewrite Ec. unfold owned, registry in *. rewrite Ep, Eo. destruct (channels s !! c); lia.
  - specialize (b_notify0 m). specialize (Hg (GNotify m) ltac:(done)). rewrite En. unfold parked, registry in *. rewrite Ep, Eo. destruct (notifies s !! m); lia.
  - specialize (Hg GPublished ltac:(done)). lia.
  - specialize (Hg GRotating ltac:(done)). lia.
  - specialize (Hg (GSub i) ltac:(done)). specialize (b_answers0 i st ltac:(done) ltac:(done) ltac:(done) ltac:(done)). lia.
Qed.
