(* ===== verification/ThreadPoolSteps.v ===== *)
(** * Every step of the thread pool is defined and keeps its books *)

From stdpp Require Import fin_maps tactics.
From S2P Require Import Prelude ThreadPool ThreadPoolProofs.

Local Open Scope Z_scope.

Ltac unfold_handler :=
  unfold thread_pool_worker_handler, worker_start, worker_boot, worker_receive, worker_dispatch, worker_internal_task, worker_bind, worker_body, worker_failing, worker_exit, worker_load_notify, worker_load_old, worker_send_token.

(** ** What an actor relies on *)
Definition has_kind (s : sys) (i : nat) (k : kind_t) : Prop := kind <$> states s !! i = Some k.

Definition routine_ok (s : sys) (rw : option reason) (rt : routine) : Prop :=
  match rt with
  | CloseChannel c => chan_known s c
  | DrainPop c | DrainTask c _ => chan_known s c ∧ is_Some rw
  | DrainLoad => is_Some rw
  | RoutineDone => False
  | _ => True
  end.
(** A worker past this point has no task left. *)
Definition emptied (pc : worker_pc) : bool :=
  match pc with WFailing _ _ true _ | WExit | WLoadNotify | WLoadOld _ | WSendToken _ | WDelref => true | _ => false end.
(** A worker that may still look at its channel. *)
Definition receives (pc : worker_pc) : bool :=
  match pc with
  | WInit | WBoot | WReceive | WTaken _ | WDispatch _ | WHandler _ | WBind _ | WBody _ | WNursery _ => true
  | _ => false
  end.
Record worker_ok (s : sys) (w : worker_t) : Prop := {
  wk_channel : receives (w_pc w) = true → chan_known s (w_channel w);
  wk_pc : match w_pc w with
    | WFailing r hand _ rt => routine_ok s (Some r) rt ∧ from_option (answered s) True hand
    | WNursery i => answered s i
    | WHandler i => has_kind s i TASK_KIND_INTERNAL
    | WBind i => has_kind s i TASK_KIND_CLOSURE
    | WRecord _ c => chan_known s c
    | WLoadOld m | WSendToken m => notify_known s m
    | _ => True end;
  wk_arenas i : i ∈ arenas w → has_kind s i TASK_KIND_CLOSURE;
  wk_emptied : emptied (w_pc w) = true → inflight w = [] ∧ arenas w = []
}.
Definition shut_reason (sh : shut_t) : option reason := match sh with ShutCancel => Some RCancelled | _ => None end.
Definition is_rotating (pc : caller_pc) : bool :=
  match pc with CReloadAlloc _ => true | _ => match rotation_of pc with Some _ => true | None => false end end.
Record caller_ok (s : sys) (pc : caller_pc) : Prop := {
  ck_pc : match pc with CSend _ c => chan_known s c | CShut sh rt => routine_ok s (shut_reason sh) rt | _ => True end;
  ck_rotation r swapped : rotation_of pc = Some (r, swapped) →
    notify_known s (r_notify r) ∧ chan_known s (r_old r) ∧ chan_known s (r_new r) ∧
    task_channel (pool s) = Some (if swapped then r_new r else r_old r);
  ck_orphan : is_rotating pc = true → orphan_old (pool s) = None ∧ orphan_notify (pool s) = None;
  ck_object : object s = true ∨ is_free pc = true;
  ck_owner : owner_gone s = true → is_free pc = true
}.

(** What the pool itself keeps of channels. *)
Definition same_anchors (p p' : async_thread_pool_t) : Prop :=
  task_channel p' = task_channel p ∧ orphan_old p' = orphan_old p ∧ orphan_notify p' = orphan_notify p.
(** What every step keeps. *)
Record weak (s s' : sys) : Prop := {
  wk_chan c : chan_known s c → chan_known s' c;
  wk_notify m : notify_known s m → notify_known s' m;
  wk_kind i k : has_kind s i k → has_kind s' i k;
  wk_answered i : answered s i → answered s' i;
  wk_object : object s' = object s;
  wk_owner : owner_gone s' = owner_gone s
}.
Record stable (s s' : sys) : Prop := {
  st_workers : workers s' = workers s;
  st_callers : callers s' = callers s;
  st_object : object s' = object s;
  st_running : running s' = running s;
  st_owner : owner_gone s' = owner_gone s;
  st_chan c : chan_known s c → chan_known s' c;
  st_notify m : notify_known s m → notify_known s' m;
  st_kind i k : has_kind s i k → has_kind s' i k;
  st_answered i : answered s i → answered s' i;
  st_task : task_channel (pool s') = task_channel (pool s);
  st_destroyed : destroyed (pool s') = destroyed (pool s);
  st_reload_notify : reload_notify (pool s') = reload_notify (pool s);
  st_orphan_notify : orphan_notify (pool s') = orphan_notify (pool s);
  st_orphan_old : orphan_old (pool s') = orphan_old (pool s);
  st_ref : ref_count (pool s') = ref_count (pool s)
}.
Lemma stable_refl s : stable s s.
Proof. by constructor. Qed.
Lemma stable_trans s1 s2 s3 : stable s1 s2 → stable s2 s3 → stable s1 s3.
Proof. intros [] []. constructor; try congruence; auto. Qed.
Lemma quiet_owned s s' c : quiet s s' → owned s' c = owned s c.
Proof. intros HQ. unfold owned. by rewrite (quiet_task _ _ HQ), (quiet_pool orphan_old _ _ HQ). Qed.
Lemma quiet_stable s s' : quiet s s' → stable s s'.
Proof.
  intros HQ. pose proof HQ as []. constructor; try done; try (by apply quiet_pool).
  - intros c. unfold chan_known, grip. by rewrite q_channels, q_owner, (quiet_owned _ _ _ HQ).
  - intros m. unfold notify_known, notify_grip. by rewrite q_notifies, q_owner, (quiet_pool orphan_notify _ _ HQ).
  - intros i k. unfold has_kind. by rewrite q_kind.
  - intros i. by apply quiet_answered.
Qed.
Lemma stable_put_chan s c ch : stable s (set_channels (<[c := ch]> (channels s)) s).
Proof. constructor; try done. intros c'. unfold chan_known, grip. cbn. rewrite lookup_insert_is_Some'. naive_solver. Qed.
Lemma stable_put_notify s m n : stable s (set_notifies (<[m := n]> (notifies s)) s).
Proof. constructor; try done. intros c'. unfold notify_known, notify_grip. cbn. rewrite lookup_insert_is_Some'. naive_solver. Qed.
Lemma stable_sum s s' g : stable s s' → sum s' g = sum s g.
Proof. intros HS. unfold sum. by rewrite (st_workers _ _ HS), (st_callers _ _ HS). Qed.

Lemma stable_weak s s' : stable s s' → weak s s'.
Proof. intros []. by constructor. Qed.
Lemma weak_trans s1 s2 s3 : weak s1 s2 → weak s2 s3 → weak s1 s3.
Proof. intros [] []. constructor; try congruence; auto. Qed.
Lemma routine_ok_weak s s' rw rt : weak s s' → routine_ok s rw rt → routine_ok s' rw rt.
Proof. intros HS. destruct rt; cbn; try done; [apply (wk_chan _ _ HS)|intros []; split; [by apply (wk_chan _ _ HS)|done]..]. Qed.
Lemma worker_ok_weak s s' w : weak s s' → worker_ok s w → worker_ok s' w.
Proof.
  intros HS []. constructor; [intros ?; by apply (wk_chan _ _ HS), wk_channel0| | |done].
  - destruct (w_pc w); try done; try (by apply (wk_chan _ _ HS)); try (by apply (wk_kind _ _ HS)); try (by apply (wk_notify _ _ HS)); try (by apply (wk_answered _ _ HS)).
    destruct wk_pc0 as [? Hh]. split; [by eapply routine_ok_weak|]. destruct hand; [by apply (wk_answered _ _ HS)|done].
  - intros i Hi. by apply (wk_kind _ _ HS), wk_arenas0.
Qed.
Lemma worker_ok_stable s s' w : stable s s' → worker_ok s w → worker_ok s' w.
Proof. intros ?%stable_weak. by apply worker_ok_weak. Qed.
Lemma stable_anchors s s' : stable s s' → same_anchors (pool s) (pool s').
Proof. by intros []. Qed.
Lemma caller_ok_weak s s' pc : weak s s' → (is_rotating pc = true → same_anchors (pool s) (pool s')) →
  caller_ok s pc → caller_ok s' pc.
Proof.
  intros HS Hrot []. constructor.
  - destruct pc; try done; [by apply (wk_chan _ _ HS)|by eapply routine_ok_weak].
  - intros r sw Hr. destruct (ck_rotation0 r sw Hr) as (? & ? & ? & Ht).
    assert (is_rotating pc = true) as [-> _]%Hrot by (destruct pc; cbn in *; by rewrite ?Hr).
    split_and!; [by apply (wk_notify _ _ HS)|by apply (wk_chan _ _ HS)|by apply (wk_chan _ _ HS)|done].
  - intros Hr. destruct (Hrot Hr) as (_ & -> & ->). auto.
  - by rewrite (wk_object _ _ HS).
  - by rewrite (wk_owner _ _ HS).
Qed.
Lemma caller_ok_stable s s' pc : stable s s' → caller_ok s pc → caller_ok s' pc.
Proof. intros HS. apply caller_ok_weak; [by apply stable_weak|]. intros _. by apply stable_anchors. Qed.

Ltac solve_pool HB := first [done|exact (b_destroyed _ _ _ HB)|exact (b_task _ _ _ HB)|intros; unfold nil_weight; cbn; lia].
Lemma task_known calm s W c : Bal calm s W → 0 ≤ W (GOwns c) → task_channel (pool s) = Some c → chan_known s c.
Proof.
  intros HB HW Hc. assert (0 < owned s c) as Ho by (unfold owned; rewrite Hc, bool_decide_eq_true_2 by done; destruct (bool_decide _); cbn; lia).
  pose proof (b_chan _ _ _ HB c) as Hch. split; [|by right]. destruct (channels s !! c); [done|exfalso].
  pose proof (sum_nonneg s (GOwns c) ltac:(done)).
  lia.
Qed.

(** ** Close and drain *)
Lemma is_task_lookup i j : is_task i j = 1 ↔ i = j.
Proof. split; [|intros ->; apply is_task_eq]. intros H. destruct (decide (i = j)); [done|]. by rewrite is_task_ne in H. Qed.

Lemma wp_routine calm s rw rt (Φ : routine → sys → Prop) : Bal calm s nil_weight → destroyed (pool s) = false → ref_count (pool s) ≠ 0 → routine_ok s rw rt →
  (∀ g, g ≠ GPending → routine_weight rt g ≤ sum s g) →
  (∀ rt' s', stable s s' → Bal calm s' (λ g, routine_weight rt' g - routine_weight rt g) → rt' = RoutineDone ∨ routine_ok s' rw rt' → Φ rt' s') →
  wp (routine_step rw rt) Φ s.
Proof.
  intros HB Hd Hrc Hok Hw HΦ. assert (Bal calm s (λ g, routine_weight CloseCheck g - routine_weight CloseCheck g)) as HB0.
  { eapply bal_ext; [done|]. intros g. by rewrite Z.sub_diag. }
  assert (drain_or_done rw = RoutineDone ∨ ∀ s, routine_ok s rw (drain_or_done rw)) as Hdd.
  { destruct rw; [right; by eexists|by left]. }
  destruct rt as [| | |c| |c|c i|]; cbn [routine_step].
  - rewrite wp_bind. apply wp_get_pool; [done|]. rewrite wp_ret. apply HΦ; [apply stable_refl| |].
    + eapply bal_ext; [exact HB|]. intros []; by destruct (closed (pool s)), rw.
    + destruct (closed (pool s)); [naive_solver|by right].
  - rewrite wp_bind. apply wp_upd_pool; [done|]. rewrite wp_ret. apply HΦ; [by constructor| |by right].
    eapply bal_ext; [|intros g; symmetry; apply Z.sub_diag]. apply (bal_set_pool calm s nil_weight); solve_pool HB.
  - rewrite wp_bind. apply wp_get_pool; [done|]. rewrite wp_ret. destruct (b_task _ _ _ HB Hrc) as [c Hc]. rewrite Hc.
    apply HΦ; [apply stable_refl|done|right]. by eapply task_known.
  - destruct Hok as [[ch Hch] Hg]. unfold async_thread_channel_close. rewrite wp_bind, wp_bind.
    eapply wp_get_chan; [exact HB|done|done|done|]. unfold put_chan. rewrite wp_modify, wp_ret. apply HΦ; [apply stable_put_chan| |naive_solver].
    apply (bal_put_chan calm s nil_weight _ c ch); try done; intros; cbn; rewrite ?Z.sub_diag; unfold nil_weight; destruct rw; cbn; lia.
  - rewrite wp_bind. apply wp_get_pool; [done|]. rewrite wp_ret. destruct (b_task _ _ _ HB Hrc) as [c Hc]. rewrite Hc.
    apply HΦ; [apply stable_refl|done|right]. split; [by eapply task_known|done].
  - destruct Hok as [Hck Hrw]. pose proof Hck as [[ch Hch] Hg]. rewrite wp_bind. eapply wp_get_chan; [exact HB|done|done|done|].
    destruct (queue ch) as [|i q] eqn:Hq.
    + rewrite wp_ret. apply HΦ; [apply stable_refl|done|by left].
    + unfold put_chan. rewrite wp_bind, wp_modify, wp_ret. apply HΦ; [apply stable_put_chan| |right; split; [|done]].
      * apply (bal_put_chan calm s nil_weight _ c ch); try done; intros; unfold nil_weight; cbn; rewrite ?Hq, ?Z.sub_diag; cbn -[Z.of_nat]; lia.
      * by apply (st_chan _ _ (stable_put_chan s c _)).
  - destruct Hok as [Hch [r ->]]. pose proof (Hw (GHeld i) ltac:(done)) as H1. pose proof (Hw (GSnap i) ltac:(done)) as H2. cbn in H1, H2.
    rewrite is_task_eq in H1, H2. pose proof (queued_nonneg s i). pose proof (occ_nonneg i (lost s)).
    rewrite wp_bind. eapply wp_settle_if_any; [done|cbn; lia|]. intros s1 HQ1 HB1 Ha. rewrite wp_bind.
    eapply wp_release_task; [done| | | |].
    + rewrite (quiet_queued _ _ _ HQ1), (quiet_sum _ _ _ HQ1), (q_lost _ _ HQ1). cbn. lia.
    + rewrite (quiet_queued _ _ _ HQ1), (quiet_sum _ _ _ HQ1). cbn. lia.
    + intros _. left. by apply Ha.
    + intros s2 HQ2 HB2. rewrite wp_bind. eapply wp_pending_dec; [done| |].
      { rewrite (quiet_destroyed _ _ HQ2), (quiet_destroyed _ _ HQ1). done. }
      intros s3 HQ3 HB3. rewrite wp_ret. assert (stable s s3) as HS by (apply quiet_stable; eapply quiet_trans; [done|]; by eapply quiet_trans).
      apply HΦ; [done| |right; split; [by apply (st_chan _ _ HS)|done]].
      eapply bal_ext; [done|]. intros []; cbn; lia.
  - done.
Qed.

(** ** A worker *)
Lemma worker_le_sum s k w g : workers s !! k = Some w → g ≠ GPending → worker_weight w g ≤ sum s g.
Proof.
  intros Hk Hg. unfold sum. assert (worker_weight w g ≤ total (λ w, worker_weight w g) (workers s)).
  { apply (total_ge (λ w, worker_weight w g) _ k w); [intros; apply worker_weight_nonneg|done]. }
  assert (0 ≤ total (λ pc, caller_weight pc g) (callers s)); [|lia]. apply totals_nonneg. intros. by apply caller_weight_nonneg.
Qed.
Lemma worker_alive calm s k w : Bal calm s nil_weight → workers s !! k = Some w → destroyed (pool s) = false ∧ ref_count (pool s) ≠ 0.
Proof.
  intros HB Hk. apply (bal_alive calm s nil_weight HB). pose proof (worker_le_sum s k w GRefs Hk ltac:(done)) as Hw. cbn in Hw.
  unfold nil_weight. destruct (object s); cbn; lia.
Qed.

Lemma worker_goto s s' w pc : stable s s' → worker_ok s w →
  match pc with
  | WFailing r hand _ rt => routine_ok s' (Some r) rt ∧ from_option (answered s') True hand
  | WNursery i => answered s' i
  | WHandler i => has_kind s' i TASK_KIND_INTERNAL
  | WBind i => has_kind s' i TASK_KIND_CLOSURE
  | WRecord _ c => chan_known s' c
  | WLoadOld m | WSendToken m => notify_known s' m
  | _ => True end → (emptied pc = true → inflight w = [] ∧ arenas w = []) →
  (receives pc = true → receives (w_pc w) = true) → worker_ok s' (set_w_pc pc w).
Proof. intros HS HW Hpc He Hr. destruct (worker_ok_stable _ _ _ HS HW). constructor; auto. Qed.

(** What a step of a worker leaves: the books with its new weight. *)
Definition worker_post (calm : bool) (s : sys) (w : worker_t) (w' : option worker_t) (s' : sys) : Prop :=
  match w' with
  | Some w' => stable s s' ∧ Bal calm s' (λ g, worker_weight w' g - worker_weight w g) ∧ worker_ok s' w'
  | None => False
  end.
Lemma worker_post_goto calm s s' w pc W : stable s s' → worker_ok s w → Bal calm s' W →
  (∀ g, W g = worker_weight (set_w_pc pc w) g - worker_weight w g) →
  match pc with
  | WFailing r hand _ rt => routine_ok s' (Some r) rt ∧ from_option (answered s') True hand
  | WNursery i => answered s' i
  | WHandler i => has_kind s' i TASK_KIND_INTERNAL
  | WBind i => has_kind s' i TASK_KIND_CLOSURE
  | WRecord _ c => chan_known s' c
  | WLoadOld m | WSendToken m => notify_known s' m
  | _ => True end → (emptied pc = true → inflight w = [] ∧ arenas w = []) →
  (receives pc = true → receives (w_pc w) = true) → worker_post calm s w (Some (set_w_pc pc w)) s'.
Proof. intros HS HW HB Hg Hpc He Hr. split_and!; [done|by eapply bal_ext|by eapply worker_goto]. Qed.

Ltac weigh := intros []; unfold nil_weight; cbn; repeat case_match; lia.

(** The task that a worker has in hand. *)
Lemma hand_held s k w i : workers s !! k = Some w → i ∈ pc_hand (w_pc w) →
  0 < queued s i + sum s (GHeld i) + occ i (lost s) ∧ 0 < queued s i + sum s (GSnap i).
Proof.
  intros Hk Hi. pose proof (worker_le_sum s k w (GHeld i) Hk ltac:(done)) as H1. pose proof (worker_le_sum s k w (GSnap i) Hk ltac:(done)) as H2.
  pose proof (occ_in i _ Hi). cbn in H1, H2. pose proof (routine_weight_nonneg (pc_routine (w_pc w)) (GHeld i)).
  pose proof (routine_weight_nonneg (pc_routine (w_pc w)) (GSnap i)). pose proof (occ_nonneg i (inflight w)). pose proof (occ_nonneg i (arenas w)).
  pose proof (queued_nonneg s i). pose proof (occ_nonneg i (lost s)). lia.
Qed.

Lemma wp_refuse calm s k w i a (Φ : option worker_t → sys → Prop) : Bal calm s nil_weight → workers s !! k = Some w → worker_ok s w →
  pc_hand (w_pc w) = [i] → pc_running (w_pc w) = true → (calm = true → is_Some a) →
  (∀ w' s', worker_post calm s w w' s' → Φ w' s') → wp (refuse_task w i a) Φ s.
Proof.
  intros HB Hk HW Hh Hr Ha HΦ. pose proof (worker_alive _ _ _ _ HB Hk) as [Hd Hrc].
  destruct (hand_held s k w i Hk) as [H1 H2]; [rewrite Hh; by apply list_elem_of_singleton|].
  unfold refuse_task. rewrite wp_bind. eapply wp_task_over; [done..|]. intros s1 HQ1 HB1.
  rewrite wp_bind. eapply wp_settle_if_any; [done| |].
  { rewrite (quiet_queued _ _ _ HQ1), (quiet_sum _ _ _ HQ1), (q_lost _ _ HQ1). cbn. unfold nil_weight. lia. }
  intros s2 HQ2 HB2 Has. assert (quiet s s2) as HQ by (by eapply quiet_trans).
  rewrite wp_bind. eapply wp_release_task; [done| | | |].
  - rewrite (quiet_queued _ _ _ HQ), (quiet_sum _ _ _ HQ), (q_lost _ _ HQ). cbn. unfold nil_weight. lia.
  - rewrite (quiet_queued _ _ _ HQ), (quiet_sum _ _ _ HQ). cbn. unfold nil_weight. lia.
  - intros Hc. left. auto.
  - intros s3 HQ3 HB3. unfold goto. rewrite wp_ret. apply HΦ. eapply worker_post_goto; try done.
    + apply quiet_stable. by eapply quiet_trans.
    + destruct w as [c pc ac infl ar]. cbn in Hh, Hr. destruct pc; try done; injection Hh as ->; weigh.
    + intros _. by destruct (w_pc w).
Qed.

Lemma wp_receive calm s k w (Φ : option worker_t → sys → Prop) : Bal calm s nil_weight → workers s !! k = Some w → worker_ok s w →
  w_pc w = WReceive → (∀ w' s', worker_post calm s w w' s' → Φ w' s') → wp (receive_step w) Φ s.
Proof.
  intros HB Hk HW Hpc HΦ. pose proof (worker_alive _ _ _ _ HB Hk) as [Hd Hrc]. destruct (wk_channel _ _ HW) as [[ch Hch] Hg]; [by rewrite Hpc|].
  unfold receive_step. rewrite wp_bind. apply wp_get_pool; [done|]. rewrite wp_bind. eapply wp_get_chan; [exact HB|done|done|done|].
  assert (∀ b : bool, Φ (Some (if b then set_w_pc WReturn w else w)) s) as Hstay.
  { intros b. apply HΦ. split_and!; [apply stable_refl| |].
    - eapply bal_ext; [exact HB|]. destruct w as [c pc ac infl ar]. cbn in Hpc. subst pc. destruct b; weigh.
    - destruct b; [|done]. by apply (worker_goto s). }
  destruct (at_limit _ _); [|destruct (queue ch) as [|i q] eqn:Hq].
  - unfold goto. specialize (Hstay (chan_closed ch)). by destruct (chan_closed ch); rewrite wp_ret.
  - unfold goto. specialize (Hstay (chan_closed ch)). by destruct (chan_closed ch); rewrite wp_ret.
  - unfold put_chan. rewrite wp_bind, wp_modify. unfold goto. rewrite wp_ret. apply HΦ.
    eapply worker_post_goto; [apply stable_put_chan|done| | |done|done|by rewrite Hpc].
    + apply (bal_put_chan calm s nil_weight (λ g, d_task i g + d_pending g) _ ch); try done; intros; unfold nil_weight; cbn; rewrite ?Hq, ?Z.sub_diag; cbn -[Z.of_nat]; lia.
    + destruct w as [c pc ac infl ar]. cbn in Hpc. subst pc. weigh.
Qed.

(** Answers that the pool copes with: no task is dropped without a reason, no handler bails
    out, and no worker is stopped from outside. *)
Definition calm_answer (w : worker_t) (e : answer_env) : bool :=
  match w_pc w, e with
  | (WInit | WReceive), EFail _ | (WDispatch _ | WBind _), EFail None | WHandler _, EBail => false
  | _, _ => true
  end.

(** A task in hand is answered and what the worker holds of it let go. *)
Lemma wp_answer calm s k w i a m (Φ : option worker_t → sys → Prop) : Bal calm s nil_weight → workers s !! k = Some w → i ∈ pc_hand (w_pc w) →
  (∀ s', quiet s s' → Bal calm s' (λ g, - d_running g) → answered s' i → 0 < queued s' i + sum s' (GHeld i) + occ i (lost s') → wp m Φ s') →
  wp (task_over;; async_future_shared_state_settle i a;; m) Φ s.
Proof.
  intros HB Hk Hi Hm. destruct (hand_held s k w i Hk Hi) as [H1 _]. rewrite wp_bind.
  eapply wp_task_over; [done|by eapply (worker_alive calm s k w)|]. intros s1 HQ1 HB1. rewrite wp_bind.
  eapply wp_settle; [done| |].
  { rewrite (quiet_queued _ _ _ HQ1), (quiet_sum _ _ _ HQ1), (q_lost _ _ HQ1). cbn. unfold nil_weight. lia. }
  intros s2 HQ2 HB2 Ha. assert (quiet s s2) as HQ by (by eapply quiet_trans). apply Hm; [done| |done|].
  - eapply bal_ext; [done|]. intros []; cbn; unfold nil_weight; lia.
  - rewrite (quiet_queued _ _ _ HQ), (quiet_sum _ _ _ HQ), (q_lost _ _ HQ). lia.
Qed.

Lemma sum_lost x s g : sum (set_lost x s) g = sum s g.
Proof. done. Qed.
Lemma queued_lost x s i : queued (set_lost x s) i = queued s i.
Proof. done. Qed.
Lemma bal_lost calm s W i : Bal calm s W → Bal calm (set_lost (i :: lost s) s) (λ g, W g - d_held i g - d_running g).
Proof.
  intros HB. destruct HB. constructor; cbn -[sum queued Z.of_nat]; intros; rewrite ?sum_lost, ?queued_lost, ?Z.sub_0_r; try done; try lia; try (by eauto).
  - rewrite <- b_held. lia.
  - apply b_snap.
  - apply b_sub.
  - rewrite b_running. f_equal. lia.
  - apply b_chan.
  - apply b_notify.
Qed.
Lemma wp_handler_task calm s k w i e (Φ : option worker_t → sys → Prop) : Bal calm s nil_weight → workers s !! k = Some w → worker_ok s w →
  w_pc w = WHandler i → answers w e = true → (calm = true → calm_answer w e = true) →
  (∀ w' s', worker_post calm s w w' s' → Φ w' s') → wp (thread_pool_worker_handler w e) Φ s.
Proof.
  intros HB Hk HW Hpc He Hc HΦ. pose proof (wk_pc _ _ HW) as Hkd. rewrite Hpc in Hkd.
  assert (∀ a, wp (task_over;; async_future_shared_state_settle i a;; async_future_shared_state_delref i;; goto WReceive w) Φ s) as Hrun.
  { intros a. eapply wp_answer; [done..|rewrite Hpc; by apply list_elem_of_singleton|]. intros s1 HQ1 HB1 Ha Hh. rewrite wp_bind.
    eapply wp_task_delref; [done|cbn; lia|intros _; by left|]. intros s2 HQ2 HB2. unfold goto. rewrite wp_ret. apply HΦ.
    assert (quiet s s2) as HQ by (by eapply quiet_trans). pose proof (quiet_stable _ _ HQ) as HS.
    pose proof (st_kind _ _ HS _ _ Hkd) as (st & Hst & Hkind)%fmap_Some.
    split_and!; [done| |eapply worker_goto; try done; by rewrite Hpc]. eapply (bal_internal calm s2 _ _ i st HB2 Hst); [done|].
    destruct w as [c pc ac infl ar]. cbn in Hpc. subst pc. intros [] Hg; cbn; try lia. rewrite is_task_ne by congruence. lia. }
  unfold_handler. rewrite Hpc. destruct e as [|r|]; [apply Hrun|apply Hrun|].
  rewrite wp_bind, wp_modify. unfold goto. rewrite wp_ret. apply HΦ. unfold answers in He. rewrite Hpc in He.
  assert (inflight w = [] ∧ arenas w = []) as Hemp by (by destruct (inflight w), (arenas w)).
  apply fmap_Some in Hkd as (st & Hst & Hkind).
  split_and!; [by constructor| |(apply (worker_goto s); [by constructor|done|by split|done|done])].
  apply (bal_internal calm _ (λ g, nil_weight g - d_held i g - d_running g) _ i st); [by apply bal_lost|done|done|].
  destruct w as [c pc ac infl ar]. cbn in Hpc. subst pc. intros [] Hg; unfold nil_weight; cbn; try lia. rewrite is_task_ne by congruence. lia.
Qed.


Lemma wp_failing calm s k w e r hand esc rt (Φ : option worker_t → sys → Prop) : Bal calm s nil_weight → workers s !! k = Some w → worker_ok s w →
  w_pc w = WFailing r hand esc rt →
  (∀ w' s', worker_post calm s w w' s' → Φ w' s') → wp (thread_pool_worker_handler w e) Φ s.
Proof.
  intros HB Hk HW Hpc HΦ. pose proof (worker_alive _ _ _ _ HB Hk) as [Hd Hrc]. unfold_handler. rewrite Hpc, wp_bind.
  pose proof (wk_pc _ _ HW) as Hok. rewrite Hpc in Hok. destruct Hok as [Hok Hans]. pose proof (wk_emptied _ _ HW) as Hemp. rewrite Hpc in Hemp.
  destruct w as [c pc ac infl ar]. cbn in Hpc. subst pc.
  eapply wp_routine; [done..| |].
  { intros g Hg. etransitivity; [|by eapply worker_le_sum]. destruct g as [j|j| | | | | | | | |]; [| |(destruct rt; cbn; done || lia)..]; cbn;
      pose proof (occ_nonneg j infl); pose proof (occ_nonneg j ar); (destruct hand as [h|]; [pose proof (is_task_range j h)|]); cbn; lia. }
  intros rt' s' HS HB' Hok'. assert (rt' ≠ RoutineDone → Φ (Some (set_w_pc (WFailing r hand esc rt') (mk_worker c (WFailing r hand esc rt) ac infl ar))) s') as Hgo.
  { intros Hne. apply HΦ. eapply worker_post_goto; [done|done|exact HB'| | | |].
    - intros []; cbn; try lia; destruct rt, rt'; cbn; lia.
    - destruct Hok'; [done|]. split; [done|]. destruct hand; [by apply (st_answered _ _ HS)|done].
    - by destruct esc.
    - done. }
  destruct rt' as [| | |c'| |c'|c' i|]; try (unfold goto; rewrite wp_ret; by apply Hgo). clear Hgo. rewrite wp_bind.
  assert (∀ W s2, stable s s2 → Bal calm s2 W → (∀ g, W g = worker_weight (set_w_pc (if esc then WExit else WReturn) (mk_worker c (WFailing r hand esc rt) ac infl ar)) g -
      worker_weight (mk_worker c (WFailing r hand esc rt) ac infl ar) g) →
    wp (goto (if esc then WExit else WReturn) (mk_worker c (WFailing r hand esc rt) ac infl ar)) Φ s2) as Hend.
  { intros W s2 HS2 HB2 HW2. unfold goto. rewrite wp_ret. apply HΦ. eapply worker_post_goto; [done|done|done|done| | |]; by destruct esc. }
  destruct hand as [i|].
  - pose proof (worker_le_sum s k _ (GHeld i) Hk ltac:(done)) as H1. pose proof (worker_le_sum s k _ (GSnap i) Hk ltac:(done)) as H2. cbn in H1, H2.
    rewrite is_task_eq in H1, H2. pose proof (queued_nonneg s' i). pose proof (occ_nonneg i (lost s')). pose proof (occ_nonneg i infl).
    pose proof (occ_nonneg i ar). rewrite <- !(stable_sum _ _ _ HS) in *.
    eapply wp_release_task; [done|cbn; lia|cbn; lia|intros _; left; by apply (st_answered _ _ HS)|].
    intros s2 HQ2 HB2. eapply Hend; [|done|].
    + eapply stable_trans; [done|by apply quiet_stable].
    + destruct esc; intros []; cbn; try lia; destruct rt; cbn; lia.
  - rewrite wp_ret. eapply Hend; [done|done|]. destruct esc; intros []; cbn; try lia; destruct rt; cbn; lia.
Qed.

(** The books do not notice where a worker with nothing in hand is. *)
Lemma wp_goto calm s s' w pc W (Φ : option worker_t → sys → Prop) : stable s s' → worker_ok s w → Bal calm s' W →
  (∀ g, W g = worker_weight (set_w_pc pc w) g - worker_weight w g) →
  match pc with
  | WFailing r hand _ rt => routine_ok s' (Some r) rt ∧ from_option (answered s') True hand
  | WNursery i => answered s' i
  | WHandler i => has_kind s' i TASK_KIND_INTERNAL
  | WBind i => has_kind s' i TASK_KIND_CLOSURE
  | WRecord _ c => chan_known s' c
  | WLoadOld m | WSendToken m => notify_known s' m
  | _ => True end → (emptied pc = true → inflight w = [] ∧ arenas w = []) →
  (receives pc = true → receives (w_pc w) = true) → (∀ w' s', worker_post calm s w w' s' → Φ w' s') → wp (goto pc w) Φ s'.
Proof. intros HS HW HB Hg Hpc He Hr HΦ. unfold goto. rewrite wp_ret. apply HΦ. by eapply worker_post_goto. Qed.

Lemma wp_bind_task calm s k w i e (Φ : option worker_t → sys → Prop) : Bal calm s nil_weight → workers s !! k = Some w → worker_ok s w →
  w_pc w = WBind i → answers w e = true → (calm = true → calm_answer w e = true) →
  (∀ w' s', worker_post calm s w w' s' → Φ w' s') → wp (thread_pool_worker_handler w e) Φ s.
Proof.
  intros HB Hk HW Hpc He Hc HΦ. pose proof (worker_alive _ _ _ _ HB Hk) as [Hd Hrc]. pose proof (wk_pc _ _ HW) as Hkd. rewrite Hpc in Hkd.
  destruct (hand_held s k w i Hk) as [H1 _]; [rewrite Hpc; by apply list_elem_of_singleton|].
  unfold_handler. rewrite Hpc, wp_bind. apply wp_get_pool; [done|].
  unfold answers, calm_answer in He, Hc. rewrite Hpc in He, Hc.
  destruct e as [|r|]; [|eapply wp_refuse; try done; [by rewrite Hpc..|]|done].
  - destruct (coroutine_mode (pool s)).
    + unfold thread_pool_spawn_task_coroutine. rewrite wp_bind. apply wp_get_pool; [done|]. rewrite wp_bind.
      destruct (bal_held _ _ _ i HB) as (st & Hst & Hr); [unfold nil_weight; lia|]. apply (wp_task_state _ _ st); [done..|].
      destruct (cancel_flag st); [eapply wp_refuse; try done; by rewrite Hpc|]. rewrite wp_ret. apply HΦ. split_and!; [apply stable_refl| |].
      * eapply bal_ext; [exact HB|]. destruct w as [c pc ac infl ar]. cbn in Hpc. subst pc. intros []; unfold nil_weight; cbn -[Z.of_nat]; lia.
      * destruct HW. rewrite Hpc in *. constructor; cbn; try done. intros j [->|Hj]%elem_of_cons; [done|auto].
    + eapply (wp_goto calm s _ _ _ nil_weight); [apply stable_refl|done|done| |done|done|by rewrite Hpc|done].
      destruct w as [c pc ac infl ar]. cbn in Hpc. subst pc. weigh.
  - intros ->. destruct r; [by eexists|]. by specialize (Hc eq_refl).
Qed.

Ltac at_pc w Hpc := destruct w as [? ? ? ? ?]; cbn in Hpc; subst.
Lemma wp_body calm s k w i e (Φ : option worker_t → sys → Prop) : Bal calm s nil_weight → workers s !! k = Some w → worker_ok s w →
  w_pc w = WBody i → (∀ w' s', worker_post calm s w w' s' → Φ w' s') → wp (thread_pool_worker_handler w e) Φ s.
Proof.
  intros HB Hk HW Hpc HΦ. unfold_handler. rewrite Hpc.
  assert (∀ a pc, pc = WNursery i ∨ pc = WFailing RBailout (Some i) false CloseCheck →
    wp (task_over;; async_future_shared_state_settle i a;; goto pc w) Φ s) as Hrun.
  { intros a pc Hp. eapply wp_answer; [done..|rewrite Hpc; by apply list_elem_of_singleton|]. intros s1 HQ1 HB1 Ha _.
    eapply wp_goto; [by apply quiet_stable|done|done| | | |by rewrite Hpc|done].
    - at_pc w Hpc. destruct Hp as [-> | ->]; weigh.
    - destruct Hp as [-> | ->]; [done|by split].
    - by destruct Hp as [-> | ->]. }
  destruct e; apply Hrun; auto.
Qed.
Lemma wp_nursery calm s k w i e (Φ : option worker_t → sys → Prop) : Bal calm s nil_weight → workers s !! k = Some w → worker_ok s w →
  w_pc w = WNursery i → (∀ w' s', worker_post calm s w w' s' → Φ w' s') → wp (thread_pool_worker_handler w e) Φ s.
Proof.
  intros HB Hk HW Hpc HΦ. destruct (hand_held s k w i Hk) as [H1 H2]; [rewrite Hpc; by apply list_elem_of_singleton|].
  unfold_handler. rewrite Hpc, wp_bind. pose proof (wk_pc _ _ HW) as Ha. rewrite Hpc in Ha.
  eapply wp_release_task; [exact HB|unfold nil_weight; lia|unfold nil_weight; lia|intros _; by left|]. intros s1 HQ1 HB1.
  eapply wp_goto; [by apply quiet_stable|done|done| |done|done|by rewrite Hpc|done]. at_pc w Hpc. weigh.
Qed.
Lemma wp_exit calm s k w e (Φ : option worker_t → sys → Prop) : Bal calm s nil_weight → workers s !! k = Some w → worker_ok s w →
  w_pc w = WExit → (∀ w' s', worker_post calm s w w' s' → Φ w' s') → wp (thread_pool_worker_handler w e) Φ s.
Proof.
  intros HB Hk HW Hpc HΦ. unfold_handler. rewrite Hpc, wp_bind. apply wp_upd_pool; [by eapply (worker_alive calm s k w)|].
  pose proof (wk_emptied _ _ HW) as Hemp. rewrite Hpc in Hemp.
  eapply (wp_goto calm s _ _ _ (λ g, - d_live g)); [by constructor|done| | |done|intros _; by apply Hemp|done|done].
  - apply (bal_set_pool calm s nil_weight); solve_pool HB.
  - at_pc w Hpc. weigh.
Qed.

Ltac leaf w Hpc := eapply (wp_goto _ _ _ _ _ nil_weight); [apply stable_refl|eassumption|eassumption|at_pc w Hpc; weigh| | |try done; by rewrite Hpc|eassumption].
Lemma wp_boot calm s k w e (Φ : option worker_t → sys → Prop) : Bal calm s nil_weight → workers s !! k = Some w → worker_ok s w →
  w_pc w = WBoot → (∀ w' s', worker_post calm s w w' s' → Φ w' s') → wp (thread_pool_worker_handler w e) Φ s.
Proof.
  intros HB Hk HW Hpc HΦ. pose proof (worker_alive _ _ _ _ HB Hk) as [Hd Hrc]. unfold_handler. rewrite Hpc.
  destruct (b_task _ _ _ HB Hrc) as [c Hc]. pose proof (task_known calm s nil_weight c HB ltac:(done) Hc) as Hck.
  rewrite wp_bind. apply wp_get_pool; [done|]. rewrite Hc. destruct e; leaf w Hpc; done.
Qed.
Lemma wp_record_step calm s k w r c e (Φ : option worker_t → sys → Prop) : Bal calm s nil_weight → workers s !! k = Some w → worker_ok s w →
  w_pc w = WRecord r c → (∀ w' s', worker_post calm s w w' s' → Φ w' s') → wp (thread_pool_worker_handler w e) Φ s.
Proof.
  intros HB Hk HW Hpc HΦ. pose proof (worker_alive _ _ _ _ HB Hk) as [Hd Hrc]. pose proof (wk_pc _ _ HW) as Hc. rewrite Hpc in Hc.
  unfold_handler. rewrite Hpc, wp_bind. eapply wp_record_error; [done..|]. intros s1 HQ1 HB1.
  eapply wp_goto; [by apply quiet_stable|done|done| |by split|done|done|done]. at_pc w Hpc. weigh.
Qed.
Lemma wp_taken calm s k w i e (Φ : option worker_t → sys → Prop) : Bal calm s nil_weight → workers s !! k = Some w → worker_ok s w →
  w_pc w = WTaken i → (∀ w' s', worker_post calm s w w' s' → Φ w' s') → wp (thread_pool_worker_handler w e) Φ s.
Proof.
  intros HB Hk HW Hpc HΦ. pose proof (worker_alive _ _ _ _ HB Hk) as [Hd Hrc]. unfold_handler. rewrite Hpc.
  rewrite wp_bind. eapply wp_pending_dec; [done..|]. intros s1 HQ1 HB1. rewrite wp_bind.
  eapply wp_running_inc; [done|by rewrite (quiet_destroyed _ _ HQ1)|]. intros s2 HQ2 HB2.
  eapply (wp_goto calm s); [apply quiet_stable; by eapply quiet_trans|done|done| |done|done|by rewrite Hpc|done]. at_pc w Hpc. weigh.
Qed.
Lemma wp_dispatch calm s k w i e (Φ : option worker_t → sys → Prop) : Bal calm s nil_weight → workers s !! k = Some w → worker_ok s w →
  w_pc w = WDispatch i → answers w e = true → (calm = true → calm_answer w e = true) →
  (∀ w' s', worker_post calm s w w' s' → Φ w' s') → wp (thread_pool_worker_handler w e) Φ s.
Proof.
  intros HB Hk HW Hpc He Hc HΦ. destruct (hand_held s k w i Hk) as [H1 _]; [rewrite Hpc; by apply list_elem_of_singleton|].
  unfold_handler. rewrite Hpc, wp_bind.
  destruct (bal_held _ _ _ i HB) as (st & Hst & Hr); [unfold nil_weight; lia|]. apply (wp_task_state _ _ st); [done..|].
  assert (has_kind s i (kind st)) as Hkd by (unfold has_kind; by rewrite Hst).
  unfold answers, calm_answer in He, Hc. rewrite Hpc in He, Hc.
  destruct (kind st) eqn:Hks; [|leaf w Hpc; done].
  destruct (cancel_flag st); [eapply wp_refuse; try done; by rewrite Hpc|].
  destruct e as [|r|]; [leaf w Hpc; done|eapply wp_refuse; try done; [by rewrite Hpc..|]|done].
  intros ->. destruct r; [by eexists|]. by specialize (Hc eq_refl).
Qed.
Lemma wp_send_token calm s k w m e (Φ : option worker_t → sys → Prop) : Bal calm s nil_weight → workers s !! k = Some w → worker_ok s w →
  w_pc w = WSendToken m → (∀ w' s', worker_post calm s w w' s' → Φ w' s') → wp (thread_pool_worker_handler w e) Φ s.
Proof.
  intros HB Hk HW Hpc HΦ. pose proof (wk_emptied _ _ HW) as Hemp. rewrite Hpc in Hemp. pose proof (wk_pc _ _ HW) as Hn. rewrite Hpc in Hn.
  destruct Hn as [[n Hn] Hg]. unfold_handler. rewrite Hpc, wp_bind. eapply wp_get_notify; [done..|].
  destruct (n_closed n); [leaf w Hpc; [done|intros _; by apply Hemp]|]. destruct (tokens n <? n_capacity n).
  - unfold put_notify. rewrite wp_bind, wp_modify.
    eapply (wp_goto calm s _ _ _ nil_weight); [apply stable_put_notify|done| | |done|intros _; by apply Hemp|done|done].
    + apply (bal_put_notify calm s nil_weight _ m n); try done. intros; unfold nil_weight; cbn; lia.
    + at_pc w Hpc. weigh.
  - rewrite wp_ret. apply HΦ. split_and!; [apply stable_refl| |done]. eapply bal_ext; [exact HB|]. intros g. by rewrite Z.sub_diag.
Qed.

Lemma wp_worker calm s k w e (Φ : option worker_t → sys → Prop) : Bal calm s nil_weight → workers s !! k = Some w → worker_ok s w →
  (∀ m, reload_notify (pool s) = Some m → notify_known s m) →
  answers w e = true → (calm = true → calm_answer w e = true) → w_pc w ≠ WDelref →
  (∀ w' s', worker_post calm s w w' s' → Φ w' s') → wp (thread_pool_worker_handler w e) Φ s.
Proof.
  intros HB Hk HW Hnot He Hc Hne HΦ. pose proof (worker_alive _ _ _ _ HB Hk) as [Hd Hrc]. pose proof (wk_emptied _ _ HW) as Hemp.
  destruct (w_pc w) as [| |r c| |i|i|i|i|i|i|r hand esc rt| | | | |m|m|] eqn:Hpc;
    [|by eapply wp_boot|by eapply wp_record_step| |by eapply wp_taken|by eapply wp_dispatch|by eapply wp_handler_task|by eapply wp_bind_task|by eapply wp_body
     |by eapply wp_nursery|by eapply wp_failing| | |by eapply wp_exit| | |by eapply wp_send_token|done];
    unfold_handler; rewrite Hpc.
  - rewrite wp_bind. apply wp_get_pool; [done|]. destruct e; [destruct (bootloader _)|..]; leaf w Hpc; done.
  - unfold answers in He. rewrite Hpc in He. destruct e; [by eapply wp_receive|leaf w Hpc; done|].
    leaf w Hpc; [by split|]. intros _. by destruct (inflight w), (arenas w).
  - leaf w Hpc; done.
  - unfold answers in He. rewrite Hpc in He. assert (inflight w = [] ∧ arenas w = []) by (by destruct e, (inflight w), (arenas w)).
    destruct e; leaf w Hpc; (done || by split).
  - rewrite wp_bind. apply wp_get_pool; [done|]. destruct (reload_notify (pool s)) as [m|]; leaf w Hpc; try done; try (intros _; by apply Hemp). by apply Hnot.
  - rewrite wp_bind. apply wp_get_pool; [done|]. pose proof (wk_pc _ _ HW) as Hn. rewrite Hpc in Hn.
    case_bool_decide; leaf w Hpc; try done; intros _; by apply Hemp.
Qed.

(** ** The coroutines of a worker's tasks *)
Lemma filter_length i l : Z.of_nat (length (filter (λ j, j ≠ i) l)) = Z.of_nat (length l) - occ i l.
Proof.
  induction l as [|k l IH]; [done|]. rewrite filter_cons. destruct (decide (k ≠ i)) as [Hk|Hk]; cbn [occ length].
  - rewrite is_task_ne by congruence. lia.
  - apply dec_stable in Hk as ->. rewrite is_task_eq. lia.
Qed.
Lemma held_once calm s k w i : Bal calm s nil_weight → workers s !! k = Some w → i ∈ inflight w →
  occ i (inflight w) = 1 ∧ 0 < queued s i + sum s (GHeld i) + occ i (lost s).
Proof.
  intros HB Hk Hi. pose proof (worker_le_sum s k w (GHeld i) Hk ltac:(done)) as H1. cbn in H1. pose proof (occ_in _ _ Hi).
  pose proof (occ_nonneg i (pc_hand (w_pc w))). pose proof (routine_weight_nonneg (pc_routine (w_pc w)) (GHeld i)).
  pose proof (queued_nonneg s i). pose proof (occ_nonneg i (lost s)). pose proof (b_held _ _ _ HB i) as Hb.
  assert (match states s !! i with Some st => Z.b2z (task_ref st) | None => 0 end ≤ 1) by (destruct (states s !! i) as [st|]; [destruct (task_ref st)|]; cbn; lia).
  unfold nil_weight in Hb. lia.
Qed.
Lemma wp_task_end calm s k w i e (Φ : option worker_t → sys → Prop) : Bal calm s nil_weight → workers s !! k = Some w → worker_ok s w →
  i ∈ inflight w → (∀ w' s', worker_post calm s w w' s' → Φ w' s') → wp (pool_task_dispose w i e) Φ s.
Proof.
  intros HB Hk HW Hi HΦ. destruct (held_once _ _ _ _ _ HB Hk Hi) as [Hocc Hh]. pose proof (worker_alive _ _ _ _ HB Hk) as [Hd Hrc].
  unfold pool_task_dispose. rewrite wp_bind. eapply wp_task_over; [done..|]. intros s1 HQ1 HB1. rewrite wp_bind.
  eapply wp_settle; [done| |].
  { rewrite (quiet_queued _ _ _ HQ1), (quiet_sum _ _ _ HQ1), (q_lost _ _ HQ1). cbn. unfold nil_weight. lia. }
  intros s2 HQ2 HB2 Ha. assert (quiet s s2) as HQ by (by eapply quiet_trans). rewrite wp_bind.
  eapply wp_task_delref; [done| |intros _; by left|].
  { rewrite (quiet_queued _ _ _ HQ), (quiet_sum _ _ _ HQ), (q_lost _ _ HQ). cbn. unfold nil_weight. lia. }
  intros s3 HQ3 HB3. assert (quiet s s3) as HQ' by (by eapply quiet_trans). rewrite wp_bind.
  apply wp_get_pool; [by rewrite (quiet_destroyed _ _ HQ')|]. rewrite wp_ret. apply HΦ. pose proof (quiet_stable _ _ HQ') as HS.
  split_and!; [done| |].
  - eapply bal_ext; [exact HB3|]. intros []; unfold nil_weight; cbn -[Z.of_nat]; rewrite ?filter_length; try lia.
    rewrite occ_filter. case_bool_decide as Hj; [subst; rewrite is_task_eq; lia|rewrite is_task_ne by done; lia].
  - destruct (worker_ok_stable _ _ _ HS HW) as [H1 H2 H3 H4]. constructor; try done. cbn. intros He. by destruct (H4 He) as [-> ?].
Qed.
Lemma wp_teardown calm s k w i (Φ : option worker_t → sys → Prop) : Bal calm s nil_weight → workers s !! k = Some w → worker_ok s w →
  i ∈ arenas w → (∀ w' s', worker_post calm s w w' s' → Φ w' s') → wp (pool_snapshot_guard_dispose w i) Φ s.
Proof.
  intros HB Hk HW Hi HΦ. pose proof (wk_arenas _ _ HW i Hi) as (st & Hst & Hkd)%fmap_Some.
  pose proof (worker_le_sum s k w (GSnap i) Hk ltac:(done)) as H1. cbn in H1. pose proof (occ_in _ _ Hi).
  pose proof (occ_nonneg i (pc_hand (w_pc w))). pose proof (routine_weight_nonneg (pc_routine (w_pc w)) (GSnap i)).
  pose proof (queued_nonneg s i). pose proof (b_snap _ _ _ HB i) as Hb. rewrite Hst in Hb. specialize (Hb (eq_sym Hkd)).
  assert (Z.b2z (snapshot st) ≤ 1) by (destruct (snapshot st); cbn; lia). unfold nil_weight in Hb.
  unfold pool_snapshot_guard_dispose. rewrite wp_bind. eapply wp_snapshot_destroy; [done|unfold nil_weight; lia|by intros st' [= <-]%(eq_trans (eq_sym Hst))|].
  intros s1 HQ1 HB1. rewrite wp_ret. apply HΦ. pose proof (quiet_stable _ _ HQ1) as HS. split_and!; [done| |].
  - eapply bal_ext; [exact HB1|]. intros []; unfold nil_weight; cbn -[Z.of_nat]; try lia.
    rewrite occ_filter. case_bool_decide as Hj; [subst; rewrite is_task_eq; lia|rewrite is_task_ne by done; lia].
  - destruct (worker_ok_stable _ _ _ HS HW) as [G1 G2 G3 G4]. constructor; try done; cbn.
    + intros j [_ ?]%list_elem_of_filter. auto.
    + intros He. by destruct (G4 He) as [? ->].
Qed.

(** ** The end of the pool *)
Definition list_weight (l : list nat) (g : gauge) : Z :=
  match g with GHeld j | GSnap j => occ j l | GPending => Z.of_nat (length l) | _ => 0 end.
Lemma wp_drain_quietly calm l s W (Φ : unit → sys → Prop) : Bal calm s W → destroyed (pool s) = false → (calm = true → l = []) →
  (∀ i, occ i l ≤ sum s (GHeld i) + W (GHeld i)) → (∀ i, occ i l ≤ sum s (GSnap i) + W (GSnap i)) →
  (∀ s', quiet s s' → Bal calm s' (λ g, W g - list_weight l g) → Φ tt s') → wp (drain_quietly l) Φ s.
Proof.
  revert s W. induction l as [|i l IH]; intros s W HB Hd Hc Hh Hs HΦ; cbn [drain_quietly].
  { rewrite wp_ret. apply HΦ; [apply quiet_refl|]. eapply bal_ext; [exact HB|]. intros []; cbn; lia. }
  pose proof (Hh i) as H1. pose proof (Hs i) as H2. cbn in H1, H2. rewrite is_task_eq in H1, H2.
  pose proof (occ_nonneg i l). pose proof (queued_nonneg s i). pose proof (occ_nonneg i (lost s)).
  rewrite wp_bind. eapply wp_release_task; [done|lia|lia|intros E; by specialize (Hc E)|]. intros s1 HQ1 HB1. rewrite wp_bind.
  eapply wp_pending_dec; [done|by rewrite (quiet_destroyed _ _ HQ1)|]. intros s2 HQ2 HB2. assert (quiet s s2) as HQ by (by eapply quiet_trans).
  eapply IH; [exact HB2|by rewrite (quiet_destroyed _ _ HQ)|intros E; by specialize (Hc E)| | |].
  - intros j. rewrite (quiet_sum _ _ _ HQ). specialize (Hh j). cbn in *. lia.
  - intros j. rewrite (quiet_sum _ _ _ HQ). specialize (Hs j). cbn in *. lia.
  - intros s3 HQ3 HB3. apply HΦ; [by eapply quiet_trans|]. eapply bal_ext; [exact HB3|]. intros []; cbn [list_weight length occ d_pending d_task]; lia.
Qed.

(** What a channel holds, and whether it is closed. *)
Definition view (s : sys) (c : nat) : option (list nat * bool) := (λ ch, (queue ch, chan_closed ch)) <$> channels s !! c.
(** Only the pool's references to channels and the notify channels have changed. *)
Record let_go (s s' : sys) : Prop := {
  lg_workers : workers s' = workers s;
  lg_callers : callers s' = callers s;
  lg_object : object s' = object s;
  lg_running : running s' = running s;
  lg_states : states s' = states s;
  lg_lost : lost s' = lost s;
  lg_results : results s' = results s;
  lg_view c : view s' c = view s c;
  lg_queued i : queued s' i = queued s i;
  lg_notify m : is_Some (notifies s !! m) → is_Some (notifies s' !! m);
  lg_owner : owner_gone s' = owner_gone s
}.
Lemma let_go_refl s : let_go s s.
Proof. by constructor. Qed.
Lemma let_go_trans s1 s2 s3 : let_go s1 s2 → let_go s2 s3 → let_go s1 s3.
Proof. intros [] []. constructor; try congruence; auto. Qed.
Lemma let_go_chan s s' c : let_go s s' → is_Some (channels s !! c) → is_Some (channels s' !! c).
Proof.
  intros HL [ch Hch]. pose proof (lg_view _ _ HL c) as Hv. unfold view in Hv. rewrite Hch in Hv. cbn in Hv.
  apply fmap_Some in Hv as (ch' & ? & _). by exists ch'.
Qed.
Lemma wp_dispose_chan calm s W c (Φ : unit → sys → Prop) : Bal calm s W → chan_known s c → 0 ≤ W (GOwns c) →
  (∀ s', pool s' = pool s → let_go s s' → Bal calm s' (λ g, W g - d_owns c g) → Φ tt s') → wp (dispose_chan c) Φ s.
Proof.
  intros HB [[ch Hch] Hg] HW HΦ. unfold dispose_chan. rewrite wp_bind. eapply wp_get_chan; [done..|]. unfold put_chan. rewrite wp_modify.
  apply HΦ; [done| |].
  - constructor; try done.
    + intros c'. unfold view. cbn. destruct (decide (c' = c)) as [->|]; [by rewrite lookup_insert_eq, Hch|by rewrite lookup_insert_ne].
    + intros i. rewrite (queued_put _ _ ch) by done. cbn. lia.
  - apply (bal_put_chan calm s W _ c ch); try done; intros; cbn; lia.
Qed.

Lemma let_go_put_notify s m n : let_go s (set_notifies (<[m := n]> (notifies s)) s).
Proof. constructor; try done. intros m'. cbn. rewrite lookup_insert_is_Some'. auto. Qed.
Lemma wp_close_notify calm s W m (Φ : unit → sys → Prop) : Bal calm s W → notify_known s m → 0 ≤ W (GNotify m) →
  (∀ s', pool s' = pool s → let_go s s' → notify_known s' m → Bal calm s' W → Φ tt s') → wp (close_notify m) Φ s.
Proof.
  intros HB [[n Hn] Hg] HW HΦ. unfold close_notify, put_notify. rewrite wp_bind. eapply wp_get_notify; [done..|]. rewrite wp_modify.
  apply HΦ; [done|apply let_go_put_notify| |].
  - split; [cbn; rewrite lookup_insert_eq; by eexists|done].
  - apply (bal_put_notify calm s W _ m n); try done. intros; cbn; lia.
Qed.
Lemma wp_dispose_notify calm s W m (Φ : unit → sys → Prop) : Bal calm s W → notify_known s m → 0 ≤ W (GNotify m) →
  (∀ s', pool s' = pool s → let_go s s' → Bal calm s' (λ g, W g - d_notify m g) → Φ tt s') → wp (dispose_notify m) Φ s.
Proof.
  intros HB [[n Hn] Hg] HW HΦ. unfold dispose_notify, put_notify. rewrite wp_bind. eapply wp_get_notify; [done..|]. rewrite wp_modify.
  apply HΦ; [done|apply let_go_put_notify|].
  apply (bal_put_notify calm s W _ m n); try done; [intros; cbn; lia|]. intros [] Hne; cbn; try lia. by destruct (Hne m0).
Qed.

Lemma parked_orphan s m : orphan_notify (pool s) = Some m → ∀ d,
  parked (set_pool (set_orphan_notify None (pool s)) s) d = parked s d - is_task d m.
Proof.
  intros Ho d. unfold parked. cbn. rewrite Ho, (bool_decide_eq_false_2 (None = Some d)) by done. destruct (decide (d = m)) as [->|Hne].
  - rewrite is_task_eq, (bool_decide_eq_true_2 (Some m = Some m)) by done. cbn. lia.
  - rewrite is_task_ne, (bool_decide_eq_false_2 (Some m = Some d)) by congruence. cbn. lia.
Qed.
Lemma parked_known calm s W m : Bal calm s W → 0 ≤ W (GNotify m) → orphan_notify (pool s) = Some m → notify_known s m.
Proof.
  intros HB HW Hm. pose proof (b_notify _ _ _ HB m) as Hn. split; [|by right]. destruct (notifies s !! m); [done|exfalso].
  unfold parked in Hn. rewrite Hm, bool_decide_eq_true_2 in Hn by done. pose proof (sum_nonneg s (GNotify m) ltac:(done)). cbn in Hn. lia.
Qed.
Lemma wp_drop_parked calm s W (Φ : unit → sys → Prop) : Bal calm s W → destroyed (pool s) = false → (∀ m, 0 ≤ W (GNotify m)) →
  (∀ s', let_go s s' → pool s' = set_orphan_notify None (pool s) → Bal calm s' W → Φ tt s') →
  wp (match orphan_notify (pool s) with Some m => close_notify m;; dispose_notify m;; upd_pool (set_orphan_notify None) | None => mret tt end) Φ s.
Proof.
  intros HB Hd HW HΦ. destruct (orphan_notify (pool s)) as [m|] eqn:Ho.
  - rewrite wp_bind. eapply wp_close_notify; [exact HB|by eapply parked_known|done|]. intros s1 Ep1 HL1 Hm1 HB1.
    rewrite wp_bind. eapply wp_dispose_notify; [exact HB1|done|done|]. intros s2 Ep2 HL2 HB2. assert (pool s2 = pool s) as Ep by congruence.
    apply wp_upd_pool; [by rewrite Ep|]. apply HΦ; [eapply let_go_trans; [by eapply let_go_trans|by constructor]|cbn; by rewrite Ep|].
    apply (bal_set_pool calm s2 (λ g, W g - d_notify m g)); try done; try (intros; cbn; lia).
    + cbn. apply (b_destroyed _ _ _ HB2).
    + cbn. apply (b_task _ _ _ HB2).
    + intros c. unfold owned. cbn. lia.
    + intros d. rewrite (parked_orphan s2 m) by (by rewrite Ep). cbn. lia.
  - rewrite wp_ret. apply HΦ; [apply let_go_refl| |done]. rewrite <- Ho. by destruct (pool s).
Qed.

Lemma owned_orphan s c : orphan_old (pool s) = Some c → ∀ d,
  owned (set_pool (set_orphan_old None (pool s)) s) d = owned s d - is_task d c.
Proof.
  intros Ho d. unfold owned. cbn. rewrite Ho, (bool_decide_eq_false_2 (None = Some d)) by done. destruct (decide (d = c)) as [->|Hne].
  - rewrite is_task_eq, (bool_decide_eq_true_2 (Some c = Some c)) by done. cbn. lia.
  - rewrite is_task_ne, (bool_decide_eq_false_2 (Some c = Some d)) by congruence. cbn. lia.
Qed.
Lemma orphan_known calm s W c : Bal calm s W → 0 ≤ W (GOwns c) → orphan_old (pool s) = Some c → chan_known s c.
Proof.
  intros HB HW Hc. assert (0 < owned s c) as Ho by (unfold owned; rewrite Hc, (bool_decide_eq_true_2 (Some c = _)) by done; destruct (bool_decide _); cbn; lia).
  pose proof (b_chan _ _ _ HB c) as Hch. split; [|by right]. destruct (channels s !! c); [done|exfalso].
  pose proof (sum_nonneg s (GOwns c) ltac:(done)).
  lia.
Qed.

Lemma wp_drop_orphan calm s W (Φ : unit → sys → Prop) : Bal calm s W → destroyed (pool s) = false → (∀ c, 0 ≤ W (GOwns c)) →
  (∀ s', let_go s s' → pool s' = set_orphan_old None (pool s) → Bal calm s' W → Φ tt s') →
  wp (match orphan_old (pool s) with Some c => dispose_chan c;; upd_pool (set_orphan_old None) | None => mret tt end) Φ s.
Proof.
  intros HB Hd HW HΦ. destruct (orphan_old (pool s)) as [c|] eqn:Ho.
  - rewrite wp_bind. eapply wp_dispose_chan; [exact HB|by eapply orphan_known|done|]. intros s1 Ep HL HB1.
    apply wp_upd_pool; [by rewrite Ep|]. apply HΦ; [eapply let_go_trans; [done|by constructor]|cbn; by rewrite Ep|].
    apply (bal_set_pool calm s1 (λ g, W g - d_owns c g)); try done; try (cbn; lia).
    + cbn. apply (b_destroyed _ _ _ HB1).
    + cbn. apply (b_task _ _ _ HB1).
    + intros d. rewrite (owned_orphan s1 c) by (by rewrite Ep). cbn. lia.
    + intros m. unfold parked. cbn. lia.
  - rewrite wp_ret. apply HΦ; [apply let_go_refl| |done]. rewrite <- Ho. by destruct (pool s).
Qed.
Lemma wp_release_orphans calm s W (Φ : unit → sys → Prop) : Bal calm s W → destroyed (pool s) = false → (∀ c, 0 ≤ W (GOwns c)) → (∀ m, 0 ≤ W (GNotify m)) →
  (∀ s', let_go s s' → pool s' = set_orphan_notify None (set_orphan_old None (pool s)) → Bal calm s' W → Φ tt s') → wp release_orphans Φ s.
Proof.
  intros HB Hd HW Hn HΦ. unfold release_orphans. rewrite wp_bind. apply wp_get_pool; [done|]. rewrite wp_bind.
  eapply wp_drop_parked; [done..|]. intros s1 HL Ep HB1. replace (orphan_old (pool s)) with (orphan_old (pool s1)) by (by rewrite Ep).
  eapply wp_drop_orphan; [done|by rewrite Ep|done|]. intros s2 HL2 Ep2 HB2. apply HΦ; [by eapply let_go_trans|by rewrite Ep2, Ep|done].
Qed.

(** What is left of the actors when the pool is destroyed. *)
Record actors_kept (s s' : sys) : Prop := {
  ak_workers : workers s' = workers s;
  ak_callers : callers s' = callers s;
  ak_object : object s' = object s;
  ak_running : running s' = running s;
  ak_results : results s' = results s
}.
Lemma actors_kept_trans s1 s2 s3 : actors_kept s1 s2 → actors_kept s2 s3 → actors_kept s1 s3.
Proof. intros [] []. constructor; congruence. Qed.
Lemma let_go_kept s s' : let_go s s' → actors_kept s s'.
Proof. intros []. by constructor. Qed.
Lemma quiet_kept s s' : quiet s s' → actors_kept s s'.
Proof. intros []. by constructor. Qed.
Lemma actors_kept_sum s s' g : actors_kept s s' → sum s' g = sum s g.
Proof. intros []. unfold sum. congruence. Qed.

Lemma wp_drain_channel calm s W (Φ : unit → sys → Prop) : Bal calm s W → destroyed (pool s) = false → ref_count (pool s) = 0 →
  (∀ g, g ≠ GRefs → sum s g = 0 ∧ W g = 0) →
  (calm = true → ∀ c ch, task_channel (pool s) = Some c → channels s !! c = Some ch → queue ch = []) →
  (∀ s', actors_kept s s' → Bal calm s' W → destroyed (pool s') = false → ref_count (pool s') = 0 → Φ tt s') →
  wp (match task_channel (pool s) with
      | Some c => ch ← get_chan c; put_chan c (set_queue [] ch);; drain_quietly (queue ch);; dispose_chan c;; upd_pool (set_task_channel None)
      | None => mret tt end) Φ s.
Proof.
  intros HB Hd Hr Hz Hq HΦ. destruct (task_channel (pool s)) as [c|] eqn:Hc; [|rewrite wp_ret; by apply HΦ].
  assert (W (GOwns c) = 0) as HWc by (by apply Hz). destruct (task_known calm s W c) as [[ch Hch] Hg]; [done|lia|done|].
  rewrite wp_bind. eapply wp_get_chan; [done|done|done|lia|]. unfold put_chan. rewrite wp_bind, wp_modify.
  set (s1 := set_channels _ s). assert (Bal calm s1 (λ g, W g + list_weight (queue ch) g)) as HB1.
  { apply (bal_put_chan calm s W _ c ch); try done; intros; cbn; lia. }
  rewrite wp_bind. eapply wp_drain_quietly; [exact HB1|done| | | |].
  - intros E. by apply (Hq E c ch).
  - intros i. destruct (Hz (GHeld i) ltac:(done)) as [E1 E2]. change (sum s1 (GHeld i)) with (sum s (GHeld i)). cbn. lia.
  - intros i. destruct (Hz (GSnap i) ltac:(done)) as [E1 E2]. change (sum s1 (GSnap i)) with (sum s (GSnap i)). cbn. lia.
  - intros s2 HQ2 HB2. rewrite wp_bind. eapply wp_dispose_chan; [exact HB2| |cbn; lia|].
    { apply (st_chan _ _ (quiet_stable _ _ HQ2)). split; [cbn; by rewrite lookup_insert_eq|done]. }
    intros s3 Ep3 HL3 HB3. assert (ref_count (pool s3) = 0) as Hr3.
    { rewrite Ep3. rewrite (quiet_pool ref_count _ _ HQ2) by done. done. }
    assert (task_channel (pool s3) = Some c) as Ht3 by (by rewrite Ep3, (quiet_task _ _ HQ2)).
    apply wp_upd_pool; [by rewrite Ep3, (quiet_destroyed _ _ HQ2)|]. apply HΦ.
    + eapply actors_kept_trans; [by apply (actors_kept_trans s s1); [|by apply quiet_kept]|].
      eapply actors_kept_trans; [by apply let_go_kept|by constructor].
    + apply (bal_set_pool calm s3 (λ g, W g + list_weight (queue ch) g - list_weight (queue ch) g - d_owns c g)); try done; try (intros; cbn; lia).
      2: by intros m; unfold parked; cbn; lia.
      intros d. unfold owned. cbn. rewrite Ht3, (bool_decide_eq_false_2 (None = Some d)) by done. destruct (decide (d = c)) as [->|Hne].
      * rewrite is_task_eq, (bool_decide_eq_true_2 (Some c = Some c)) by done. cbn. lia.
      * rewrite is_task_ne, (bool_decide_eq_false_2 (Some c = Some d)) by congruence. cbn. lia.
    + cbn. by rewrite Ep3, (quiet_destroyed _ _ HQ2).
    + done.
Qed.

Lemma wp_pool_delref calm s (Φ : unit → sys → Prop) : Bal calm s nil_weight → destroyed (pool s) = false → ref_count (pool s) ≠ 0 →
  (ref_count (pool s) = 1 → ∀ g, g ≠ GRefs → sum s g = 0) →
  (ref_count (pool s) = 1 → calm = true → ∀ c ch, task_channel (pool s) = Some c → channels s !! c = Some ch → queue ch = []) →
  (ref_count (pool s) ≠ 1 → ∀ s', s' = set_pool (set_ref_count (ref_count (pool s) - 1) (pool s)) s → Bal calm s' (λ g, - d_refs g) → Φ tt s') →
  (ref_count (pool s) = 1 → ∀ s', actors_kept s s' → Bal calm s' (λ g, - d_refs g) → destroyed (pool s') = true → ref_count (pool s') = 0 → Φ tt s') →
  wp thread_pool_delref Φ s.
Proof.
  intros HB Hd Hrc Hz Hq HΦ1 HΦ2. unfold thread_pool_delref. rewrite wp_bind. apply wp_get_pool; [done|]. rewrite wp_bind.
  apply wp_upd_pool; [done|]. set (s1 := set_pool _ s). rewrite wp_when.
  assert (Bal calm s1 (λ g, - d_refs g)) as HB1.
  { apply (bal_set_pool calm s nil_weight); try done; try (intros; unfold nil_weight; cbn; lia).
    - cbn. congruence.
    - cbn. intros _. by apply (b_task _ _ _ HB). }
  destruct (ref_count (pool s) =? 1) eqn:Hr; [apply Z.eqb_eq in Hr|apply Z.eqb_neq in Hr; by apply HΦ1].
  assert (∀ g, g ≠ GRefs → sum s1 g = 0 ∧ - d_refs g = 0) as Hz1.
  { intros g Hg. split; [by apply (Hz Hr)|by destruct g]. }
  unfold thread_pool_destroy. rewrite wp_bind. apply wp_get_pool; [done|]. rewrite wp_bind.
  eapply wp_drain_channel; [exact HB1|done|cbn; lia|done|by apply Hq|].
  intros s2 HA2 HB2 Hd2 Hr2. rewrite wp_bind.
  eapply wp_release_orphans; [exact HB2|done|intros; cbn; lia|intros; cbn; lia|].
  intros s3 HL3 Ep3 HB3. apply wp_upd_pool; [by rewrite Ep3|]. apply HΦ2; [done| | |done|].
  - apply (actors_kept_trans s s1); [by constructor|]. apply (actors_kept_trans s1 s2); [done|].
    apply (actors_kept_trans s2 s3); [by apply let_go_kept|by constructor].
  - apply (bal_set_pool calm s3 (λ g, - d_refs g)); try done; try (intros; cbn; lia).
    + cbn. by rewrite Ep3.
    + apply (b_task _ _ _ HB3).
  - cbn. by rewrite Ep3.
Qed.
