(* ===== verification/ThreadPoolCalls.v ===== *)
(** * The methods of the thread pool are defined and keep its books *)

From stdpp Require Import fin_maps tactics.
From S2P Require Import Prelude ThreadPool ThreadPoolProofs ThreadPoolSteps.

Local Open Scope Z_scope.
#[local] Arguments sum : simpl never.
#[local] Arguments queued : simpl never.
#[local] Arguments owned : simpl never.
#[local] Arguments is_task : simpl never.
#[local] Arguments Z.of_nat : simpl never.

(** What the pool says of itself besides the counts. *)
Record globals (s : sys) : Prop := {
  g_notify m : reload_notify (pool s) = Some m → notify_known s m;
  g_dead : ref_count (pool s) = 0 → destroyed (pool s) = true
}.
Definition result_weight (r : option caller_pc) (g : gauge) : Z := match r with Some pc => caller_weight pc g | None => 0 end.
Definition fire_waiter (pc : caller_pc) : caller_pc := match pc with CReloadWait target _ => CReloadWait target true | pc => pc end.

Record caller_post (calm : bool) (s : sys) (pc : caller_pc) (r : option caller_pc) (s' : sys) : Prop := {
  cp_weak : weak s s';
  cp_bal : Bal calm s' (λ g, result_weight r g - caller_weight pc g);
  cp_globals : globals s';
  cp_callers : callers s' = callers s ∨ callers s' = fire_waiter <$> callers s;
  cp_running : running s' = running s;
  cp_workers k w : workers s' !! k = Some w → workers s !! k = Some w ∨ worker_ok s' w;
  cp_task : is_rotating pc = false → from_option is_rotating false r = false → same_anchors (pool s) (pool s');
  cp_ok : from_option (caller_ok s') True r;
  cp_free : from_option is_free false r = true → is_free pc = true
}.

Lemma caller_le_sum s k pc g : callers s !! k = Some pc → g ≠ GPending → caller_weight pc g ≤ sum s g.
Proof.
  intros Hk Hg. unfold sum. assert (caller_weight pc g ≤ total (λ pc, caller_weight pc g) (callers s)).
  { apply (total_ge (λ pc, caller_weight pc g) _ k pc); [intros; by apply caller_weight_nonneg|done]. }
  assert (0 ≤ total (λ w, worker_weight w g) (workers s)); [|lia]. apply totals_nonneg. intros. apply worker_weight_nonneg.
Qed.
Lemma caller_alive calm s k pc : Bal calm s nil_weight → callers s !! k = Some pc → caller_ok s pc →
  destroyed (pool s) = false ∧ ref_count (pool s) ≠ 0.
Proof.
  intros HB Hk HC. apply (bal_alive calm s nil_weight HB). pose proof (caller_le_sum s k pc GRefs Hk ltac:(done)) as Hw.
  pose proof (sum_nonneg s GRefs ltac:(done)). unfold nil_weight. destruct (ck_object _ _ HC) as [->|Hf]; [cbn; lia|].
  assert (1 ≤ caller_weight pc GRefs); [|destruct (object s); cbn; lia]. destruct pc; try done; cbn in *; by rewrite Hf.
Qed.

(** ** Steps that leave the shared memory alone, or almost *)
Section post.
Context (calm : bool) (s : sys) (k : nat) (pc : caller_pc).
Context (HB : Bal calm s nil_weight) (Hk : callers s !! k = Some pc) (HC : caller_ok s pc) (HG : globals s).

Lemma not_free_owner : is_free pc = false → owner_gone s = false.
Proof. intros Hf. apply not_true_is_false. intros Ho%(ck_owner _ _ HC). congruence. Qed.
(** The step has changed the pool's flags only. *)
Lemma weak_pool p : is_free pc = false → weak s (set_pool p s).
Proof.
  intros Hf%not_free_owner. constructor; try done.
  - intros c [? _]. split; [done|by left].
  - intros m [? _]. split; [done|by left].
Qed.
Lemma post_pool r p W : is_free pc = false → (∀ g, W g = result_weight r g - caller_weight pc g) → Bal calm (set_pool p s) W →
  (∀ m, reload_notify p = Some m → notify_known s m) → (ref_count p ≠ 0) →
  (is_rotating pc = false → from_option is_rotating false r = false → same_anchors (pool s) p) →
  from_option (caller_ok (set_pool p s)) True r → (from_option is_free false r = true → is_free pc = true) → caller_post calm s pc r (set_pool p s).
Proof.
  intros Hnf HW HB' Hn Hr Ht Hok Hf. pose proof (weak_pool p Hnf) as Hwk.
  constructor; [done|by eapply bal_ext|constructor; [|done]|by left|done|by left|done|done|done].
  intros m Hm. apply (wk_notify _ _ Hwk). auto.
Qed.
Lemma post_refl r : (∀ g, result_weight r g = caller_weight pc g) → from_option (caller_ok s) True r →
  (from_option is_free false r = true → is_free pc = true) → caller_post calm s pc r s.
Proof.
  intros HW Hok Hf. constructor; [by constructor| |done|by left|done|by left|done|done|done]. eapply bal_ext; [exact HB|]. intros g. rewrite HW. by rewrite Z.sub_diag.
Qed.
Lemma post_results r l s' : caller_post calm s pc r s' → caller_post calm s pc r (set_results l s').
Proof.
  intros []. constructor; [| | |done|done| |done| |done].
  - destruct cp_weak0. by constructor.
  - by apply (bal_actors calm s' _ (λ g, result_weight r g - caller_weight pc g)).
  - destruct cp_globals0. by constructor.
  - intros k' w Hw. destruct (cp_workers0 k' w Hw) as [?|Hok]; [by left|right]. apply (worker_ok_weak s'); [by constructor|done].
  - destruct r as [pc'|]; [|done]. cbn in *. apply (caller_ok_weak s'); [by constructor|by split|done].
Qed.
Lemma wp_finish (Φ : option caller_pc → sys → Prop) r s' : caller_post calm s pc None s' →
  (∀ r s', caller_post calm s pc r s' → Φ r s') → wp (finish k r) Φ s'.
Proof. intros HP HΦ. unfold finish. rewrite wp_bind, wp_modify, wp_ret. apply HΦ. by apply post_results. Qed.
Lemma wp_next (Φ : option caller_pc → sys → Prop) pc' s' : caller_post calm s pc (Some pc') s' →
  (∀ r s', caller_post calm s pc r s' → Φ r s') → wp (next pc') Φ s'.
Proof. intros HP HΦ. unfold next. rewrite wp_ret. by apply HΦ. Qed.

Lemma alive_pool : destroyed (pool s) = false.
Proof. by apply (caller_alive calm s k pc). Qed.
Lemma alive_refs : ref_count (pool s) ≠ 0.
Proof. by apply (caller_alive calm s k pc). Qed.
End post.

(** The call stays as it is or goes where it has the same weight. *)
Ltac stay := apply post_refl; try done; try (by intros []).

(** ** submit *)
Lemma bal_new_state calm s W i kd : Bal calm s W → states s !! i = None →
  Bal calm (set_states (<[i := mk_state kd None false true (bool_decide (kd = TASK_KIND_CLOSURE)) false]> (states s)) s)
    (λ g, W g + d_task i g + d_sub i g).
Proof.
  intros HB Hi. destruct HB. constructor; cbn -[sum queued]; intros; rewrite ?sum_states, ?queued_states, ?Z.add_0_r; try done; try (by eauto).
  - specialize (b_held i0). destruct (decide (i0 = i)) as [->|Hne].
    + rewrite lookup_insert_eq, is_task_eq. rewrite Hi in b_held. cbn. lia.
    + rewrite lookup_insert_ne, is_task_ne by done. lia.
  - specialize (b_snap i0). destruct (decide (i0 = i)) as [->|Hne].
    + rewrite lookup_insert_eq, is_task_eq. rewrite Hi in b_snap. cbn. intros ->. rewrite bool_decide_eq_true_2 by done. cbn. lia.
    + rewrite lookup_insert_ne, is_task_ne by done. destruct (states s !! i0); [intros Hk; specialize (b_snap Hk)|]; lia.
  - specialize (b_sub i0). destruct (decide (i0 = i)) as [->|Hne].
    + rewrite lookup_insert_eq, is_task_eq. rewrite Hi in b_sub. cbn. lia.
    + rewrite lookup_insert_ne, is_task_ne by done. destruct (states s !! i0); lia.
  - apply b_chan.
  - apply b_notify.
  - destruct (decide (i0 = i)) as [->|Hne].
    + rewrite lookup_insert_eq in H0. by injection H0 as <-.
    + rewrite lookup_insert_ne in H0 by done. rewrite is_task_ne by done. specialize (b_answers i0 st H H0 H1 H2). lia.
Qed.
Lemma new_state_weak s i st : states s !! i = None → weak s (set_states (<[i := st]> (states s)) s).
Proof.
  intros Hi. constructor; try done; cbn.
  - intros j kd (st' & Hst & ->)%fmap_Some. unfold has_kind. cbn. rewrite lookup_insert_ne; [by rewrite Hst|]. congruence.
  - intros j (st' & a & Hst & Ha). exists st', a. cbn. rewrite lookup_insert_ne; [done|]. congruence.
Qed.
(** The future of a task that is still the caller's will not be handed out. *)
Lemma bal_drop_sub calm s W i st : Bal calm s W → states s !! i = Some st → task_ref st = true → Bal calm s (λ g, W g - d_sub i g).
Proof.
  intros HB Hi Hr. destruct HB. constructor; cbn -[sum queued]; intros; rewrite ?Z.sub_0_r; try done; try (by eauto).
  - apply b_snap.
  - specialize (b_sub i0). pose proof (is_task_range i0 i). destruct (decide (i0 = i)) as [->|Hne]; [rewrite Hi in *; lia|].
    rewrite is_task_ne by done. by rewrite Z.sub_0_r.
  - apply b_chan.
  - apply b_notify.
  - destruct (decide (i0 = i)) as [->|Hne]; [congruence|]. rewrite is_task_ne, Z.sub_0_r by done. eauto.
Qed.
Lemma sub_once calm s k pc i : Bal calm s nil_weight → callers s !! k = Some pc → caller_weight pc (GSub i) = 1 →
  ∃ st, states s !! i = Some st ∧ returned st = false ∧ sum s (GSub i) = 1.
Proof.
  intros HB Hk Hw. pose proof (caller_le_sum s k pc (GSub i) Hk ltac:(done)) as Hs. pose proof (b_sub _ _ _ HB i) as Hb. unfold nil_weight in Hb.
  destruct (states s !! i) as [st|]; [|lia]. exists st. destruct (returned st); cbn in Hb; split_and!; (done || lia).
Qed.
Lemma wp_unsent calm s k i c (Φ : option caller_pc → sys → Prop) : Bal calm s nil_weight → callers s !! k = Some (CSend i c) → globals s →
  (∀ r s', caller_post calm s (CSend i c) r s' → Φ r s') → wp (unsent k i) Φ s.
Proof.
  intros HB Hk HG HΦ. destruct (sub_once calm s k (CSend i c) i HB Hk) as (st & Hst & Hret & Hsub); [cbn; by rewrite is_task_eq|].
  pose proof (caller_le_sum s k _ (GHeld i) Hk ltac:(done)) as H1. pose proof (caller_le_sum s k _ (GSnap i) Hk ltac:(done)) as H2. cbn in H1, H2.
  rewrite is_task_eq in H1, H2. pose proof (queued_nonneg s i). pose proof (occ_nonneg i (lost s)).
  destruct (bal_held _ _ _ i HB) as (st' & Hst' & Hr); [unfold nil_weight; lia|]. rewrite Hst in Hst'. injection Hst' as <-.
  unfold unsent. rewrite wp_bind. eapply wp_release_task; [by eapply (bal_drop_sub calm s nil_weight i)|unfold nil_weight; cbn; lia|unfold nil_weight; cbn; lia| |].
  - intros _. right. split; [unfold nil_weight; cbn; rewrite is_task_eq; lia|]. intros st' Hst'. congruence.
  - intros s1 HQ1 HB1. eapply wp_finish; [|done]. pose proof (quiet_stable _ _ HQ1) as HS. constructor.
    + by apply stable_weak.
    + eapply bal_ext; [exact HB1|]. intros []; unfold nil_weight; cbn; lia.
    + destruct HG. constructor.
      * intros m. rewrite (st_reload_notify _ _ HS). intros. by apply (st_notify _ _ HS), g_notify0.
      * rewrite (st_ref _ _ HS), (st_destroyed _ _ HS). done.
    + left. apply HS.
    + apply HS.
    + intros k' w. rewrite (st_workers _ _ HS). by left.
    + intros _ _. by apply stable_anchors.
    + done.
    + done.
Qed.

Lemma globals_stable s s' : stable s s' → globals s → globals s'.
Proof.
  intros HS []. constructor.
  - intros m. rewrite (st_reload_notify _ _ HS). intros. by apply (st_notify _ _ HS), g_notify.
  - by rewrite (st_ref _ _ HS), (st_destroyed _ _ HS).
Qed.
Lemma post_stable calm s pc r s' W : stable s s' → globals s → Bal calm s' W → (∀ g, W g = result_weight r g - caller_weight pc g) →
  from_option (caller_ok s') True r → (from_option is_free false r = true → is_free pc = true) → caller_post calm s pc r s'.
Proof.
  intros HS HG HB HW Hok Hf. constructor; [by apply stable_weak|by eapply bal_ext|by eapply globals_stable|left; apply HS|apply HS| | |done|done].
  - intros k w. rewrite (st_workers _ _ HS). by left.
  - intros _ _. by apply stable_anchors.
Qed.
Lemma caller_goto s s' pc pc' : stable s s' → caller_ok s pc →
  match pc' with CSend _ c => chan_known s' c | CShut sh rt => routine_ok s' (shut_reason sh) rt | _ => True end →
  is_rotating pc' = false → (is_free pc = true → is_free pc' = true) → caller_ok s' pc'.
Proof.
  intros HS HC Hpc Hr Hf. constructor; [done| |congruence| |].
  - intros r sw Hrot. exfalso. destruct pc'; cbn in *; try done; by rewrite Hrot in Hr.
  - rewrite (st_object _ _ HS). destruct (ck_object _ _ HC); auto.
  - rewrite (st_owner _ _ HS). intros Ho. by apply Hf, (ck_owner _ _ HC).
Qed.
Lemma rotation_goto s s' pc pc' : stable s s' → caller_ok s pc → rotation_of pc' = rotation_of pc → is_rotating pc' = is_rotating pc →
  is_free pc = false → match pc' with CSend _ _ | CShut _ _ => False | _ => True end → caller_ok s' pc'.
Proof.
  intros HS HC Er Ei Ef Hpc. pose proof (caller_ok_stable _ _ _ HS HC) as []. constructor; [by destruct pc'|by rewrite Er|by rewrite Ei| |].
  - destruct ck_object as [?|E]; [by left|congruence].
  - intros Ho. specialize (ck_owner Ho). congruence.
Qed.
Lemma bal_returned calm s W i st : Bal calm s W → states s !! i = Some st → returned st = false →
  Bal calm (set_states (<[i := set_returned true st]> (states s)) s) (λ g, W g - d_sub i g).
Proof.
  intros HB Hi Hr. destruct HB. constructor; cbn; intros; rewrite ?sum_states, ?queued_states, ?Z.sub_0_r; try done; try (by eauto).
  - specialize (b_held i0). destruct (decide (i0 = i)) as [->|Hne]; [rewrite lookup_insert_eq; by rewrite Hi in b_held|by rewrite lookup_insert_ne].
  - specialize (b_snap i0). destruct (decide (i0 = i)) as [->|Hne]; [rewrite lookup_insert_eq; by rewrite Hi in b_snap|by rewrite lookup_insert_ne].
  - specialize (b_sub i0). destruct (decide (i0 = i)) as [->|Hne].
    + rewrite lookup_insert_eq, is_task_eq. rewrite Hi, Hr in b_sub. cbn in *. lia.
    + rewrite lookup_insert_ne, is_task_ne, Z.sub_0_r by done. done.
  - apply b_chan.
  - apply b_notify.
  - destruct (decide (i0 = i)) as [->|Hne].
    + rewrite lookup_insert_eq in H0. injection H0 as <-. rewrite is_task_eq. specialize (b_answers i st H Hi H1 H2). rewrite Hr in b_answers. cbn in *. lia.
    + rewrite lookup_insert_ne in H0 by done. rewrite is_task_ne, Z.sub_0_r by done. eauto.
Qed.

Lemma wp_submit_live calm s k e kd (Φ : option caller_pc → sys → Prop) : Bal calm s nil_weight → callers s !! k = Some (CSubmitLive kd) →
  caller_ok s (CSubmitLive kd) → globals s → states s !! fresh e = None →
  (∀ r s', caller_post calm s (CSubmitLive kd) r s' → Φ r s') → wp (caller_step k e (CSubmitLive kd)) Φ s.
Proof.
  intros HB Hk HC HG Hf HΦ. cbn [caller_step]. rewrite wp_bind. apply wp_get_pool; [by eapply alive_pool|].
  assert (wp (finish k RetThrow) Φ s) as Hthrow by (eapply wp_finish; [|done]; stay).
  destruct (_ <=? _); [done|]. destruct (negb (ok e)); [done|]. unfold put_state. rewrite wp_bind, wp_modify.
  eapply wp_next; [|done]. pose proof (new_state_weak s (fresh e) (mk_state kd None false true (bool_decide (kd = TASK_KIND_CLOSURE)) false) Hf) as Hw.
  constructor; [done| | |by left|done|by left|done| |done].
  - eapply bal_ext; [by apply (bal_new_state calm s nil_weight)|]. intros []; unfold nil_weight; cbn; lia.
  - by destruct HG.
  - constructor; try done; [left; by destruct (ck_object _ _ HC)|apply (ck_owner _ _ HC)].
Qed.
Lemma wp_send calm s k e i c (Φ : option caller_pc → sys → Prop) : Bal calm s nil_weight → callers s !! k = Some (CSend i c) →
  caller_ok s (CSend i c) → globals s → (∀ r s', caller_post calm s (CSend i c) r s' → Φ r s') → wp (caller_step k e (CSend i c)) Φ s.
Proof.
  intros HB Hk HC HG HΦ. cbn [caller_step]. pose proof (ck_pc _ _ HC) as Hck. pose proof Hck as [[ch Hch] Hg]. rewrite wp_bind. eapply wp_get_chan; [exact HB|done|done|done|].
  destruct (_ || _); [by eapply wp_unsent|]. destruct (_ <? _).
  - unfold put_chan. rewrite wp_bind, wp_modify. eapply wp_next; [|done].
    eapply (post_stable calm s _ _ _ (λ g, - d_task i g - d_pending g)); [apply stable_put_chan|done| | | |done].
    + apply (bal_put_chan calm s nil_weight _ c ch); try done; intros; unfold nil_weight; cbn; rewrite ?occ_app, ?length_app; cbn; lia.
    + intros []; cbn; lia.
    + apply (caller_goto s _ (CSend i c)); [apply stable_put_chan|done..].
  - eapply wp_next; [|done]; stay.
Qed.
Lemma wp_count calm s k e i (Φ : option caller_pc → sys → Prop) : Bal calm s nil_weight → callers s !! k = Some (CCount i) →
  caller_ok s (CCount i) → globals s → (∀ r s', caller_post calm s (CCount i) r s' → Φ r s') → wp (caller_step k e (CCount i)) Φ s.
Proof.
  intros HB Hk HC HG HΦ. destruct (sub_once calm s k _ i HB Hk) as (st & Hst & Hret & Hsub); [cbn; by rewrite is_task_eq|].
  cbn [caller_step]. rewrite wp_bind. eapply wp_pending_inc; [done|by eapply alive_pool|]. intros s1 HQ1 HB1.
  rewrite wp_bind, wp_get, wp_bind. pose proof (q_returned _ _ HQ1 i) as Hq. rewrite Hst in Hq. cbn in Hq. apply fmap_Some in Hq as (st1 & Hst1 & Hret1).
  rewrite (wp_defined _ st1) by done. unfold put_state. rewrite wp_bind, wp_modify. eapply wp_finish; [|done].
  assert (stable s1 (set_states (<[i := set_returned true st1]> (states s1)) s1)) as HS1.
  { constructor; try done.
    - intros j kd. unfold has_kind. cbn. destruct (decide (j = i)) as [->|]; [by rewrite lookup_insert_eq, Hst1|by rewrite lookup_insert_ne].
    - intros j (st' & a & Hst' & Ha). unfold answered. cbn. destruct (decide (j = i)) as [->|]; [|rewrite lookup_insert_ne by done; eauto].
      rewrite lookup_insert_eq. exists (set_returned true st1), a. split; [done|]. cbn. congruence. }
  eapply post_stable; [eapply stable_trans; [by apply quiet_stable|exact HS1]|done|by apply bal_returned; [|done|congruence]| |done|done].
  intros []; unfold nil_weight; cbn; lia.
Qed.
Lemma wp_shut calm s k e sh rt (Φ : option caller_pc → sys → Prop) : Bal calm s nil_weight → callers s !! k = Some (CShut sh rt) →
  caller_ok s (CShut sh rt) → globals s → (∀ r s', caller_post calm s (CShut sh rt) r s' → Φ r s') → wp (caller_step k e (CShut sh rt)) Φ s.
Proof.
  intros HB Hk HC HG HΦ. cbn [caller_step]. rewrite wp_bind. eapply wp_routine; [done|by eapply alive_pool|by eapply alive_refs|apply (ck_pc _ _ HC)| |].
  { intros g Hg. etransitivity; [|by eapply caller_le_sum]. destruct g; cbn; try lia; destruct rt; cbn; try lia; by destruct sh. }
  intros rt' s' HS HB' Hok. assert (rt' ≠ RoutineDone → wp (next (CShut sh rt')) Φ s') as Hgo.
  { intros Hne. eapply wp_next; [|done]. eapply post_stable; [done|done|exact HB'| | |done].
    - intros []; cbn; try lia; destruct rt, rt'; cbn; lia.
    - apply (caller_goto s _ (CShut sh rt)); [done|done| |done|by destruct sh]. by destruct Hok. }
  destruct rt' as [| | |c'| |c'|c' i|]; try (by apply Hgo). clear Hgo.
  destruct sh; [eapply wp_finish; [|done]|eapply wp_finish; [|done]|eapply wp_next; [|done]]; (eapply post_stable; [done|done|exact HB'| | |done]).
  1,3,5: intros []; cbn; try lia; destruct rt; cbn; lia.
  1,2: done. by apply (caller_goto s _ (CShut ShutFree rt)).
Qed.
