(* ===== verification/ThreadPoolReload.v ===== *)
(** * A rotation of the thread pool's workers is defined and keeps the books *)

From stdpp Require Import fin_maps tactics.
From S2P Require Import Prelude ThreadPool ThreadPoolProofs ThreadPoolSteps ThreadPoolCalls.

Local Open Scope Z_scope.
#[local] Arguments sum : simpl never.
#[local] Arguments queued : simpl never.
#[local] Arguments owned : simpl never.
#[local] Arguments is_task : simpl never.
#[local] Arguments Z.of_nat : simpl never.

Lemma let_go_weak s s' : owner_gone s = false → let_go s s' → weak s s'.
Proof.
  intros Ho HL. pose proof HL as []. assert (owner_gone s' = false) as Ho' by congruence.
  constructor; [intros c [? _]; split; [by apply (let_go_chan s)|by left]|intros m [? _]; split; [auto|by left]| | |done|done].
  - intros i k. unfold has_kind. by rewrite lg_states.
  - intros i. unfold answered. by rewrite lg_states.
Qed.
Lemma fire_weight pc g : caller_weight (fire_waiter pc) g = caller_weight pc g.
Proof. by destruct pc, g. Qed.
Lemma fire_sum s x g : x = fire_waiter <$> callers s → sum (set_callers x s) g = sum s g.
Proof. intros ->. unfold sum. cbn. by rewrite (total_fmap (λ pc, caller_weight pc g)) by (intros; apply fire_weight). Qed.
Lemma bal_fire calm s W : Bal calm s W → Bal calm (set_callers (fire_waiter <$> callers s) s) W.
Proof. intros HB. apply (bal_actors calm s _ W); try done; intros; by rewrite fire_sum. Qed.
Lemma post_fire calm s pc r s' : caller_post calm s pc r s' → callers s' = callers s →
  caller_post calm s pc r (set_callers (fire_waiter <$> callers s') s').
Proof.
  intros [] Hc. constructor; [|by apply bal_fire|by destruct cp_globals; constructor|right; cbn; by rewrite Hc|done| |done| |done].
  - destruct cp_weak. by constructor.
  - intros k w Hw. destruct (cp_workers k w Hw) as [?|Hok]; [by left|right]. apply (worker_ok_weak s'); [by constructor|done].
  - destruct r as [pc'|]; [|done]. cbn in *. apply (caller_ok_weak s'); [by constructor|by split|done].
Qed.

(** The books while a rotation changes the pool's own fields. *)
Lemma rotating_weight pc : caller_weight pc GRotating = Z.b2z (is_rotating pc).
Proof. by destruct pc. Qed.
Lemma rotating_once calm s k pc : Bal calm s nil_weight → callers s !! k = Some pc → is_rotating pc = true → reload_in_progress (pool s) = true.
Proof.
  intros HB Hk Hr. pose proof (b_rotating _ _ _ HB) as Hb. pose proof (caller_le_sum s k pc GRotating Hk ltac:(done)) as Hw.
  unfold nil_weight in Hb. rewrite rotating_weight, Hr in Hw.
  destruct (reload_in_progress _); [done|cbn in *; lia].
Qed.
(** Whether a notify channel is published is up to the one rotation. *)
Lemma published_le pc : caller_weight pc GPublished ≤ caller_weight pc GRotating.
Proof. by destruct pc. Qed.
Lemma published_rotation calm s k pc : Bal calm s nil_weight → callers s !! k = Some pc → is_rotating pc = true →
  Z.b2z (bool_decide (is_Some (reload_notify (pool s)))) = caller_weight pc GPublished.
Proof.
  intros HB Hk Hr. pose proof (b_published _ _ _ HB) as Hp. pose proof (b_rotating _ _ _ HB) as Hro. unfold nil_weight, sum in Hp, Hro.
  rewrite !(totals_delete _ (callers s) k pc Hk) in Hp. rewrite !(totals_delete _ (callers s) k pc Hk) in Hro.
  pose proof (total_mono (λ pc, caller_weight pc GPublished) (λ pc, caller_weight pc GRotating) (delete k (callers s)) published_le) as Hle.
  rewrite (total_zero (λ w, worker_weight w GPublished)) in Hp by done. rewrite (total_zero (λ w, worker_weight w GRotating)) in Hro by done.
  assert (0 ≤ total (λ pc, caller_weight pc GPublished) (delete k (callers s))) by (apply totals_nonneg; intros; by apply caller_weight_nonneg).
  rewrite rotating_weight, Hr in Hro. destruct (reload_in_progress (pool s)); cbn in *; lia.
Qed.
Lemma owned_flags s p c : task_channel p = task_channel (pool s) → orphan_old p = orphan_old (pool s) → owned (set_pool p s) c = owned s c.
Proof. intros Ht Ho. unfold owned. cbn. by rewrite Ht, Ho. Qed.
(** Fields of the pool that the books do not mention, or count as flags. *)
Definition flagless (p : async_thread_pool_t) : async_thread_pool_t :=
  control (set_reload_notify None (set_reload_old None (set_reload_in_progress false (set_rotations_started 0 (set_rotations_completed 0
    (set_handles [] (set_cancel_requested false p))))))).
Lemma bal_flags calm s W W' p : Bal calm s W → (∀ g, g ≠ GRotating → g ≠ GPublished → W' g = W g) →
  flagless p = flagless (pool s) →
  Z.b2z (bool_decide (is_Some (reload_notify p))) = Z.b2z (bool_decide (is_Some (reload_notify (pool s)))) + W' GPublished - W GPublished →
  pending_count p = pending_count (pool s) → running_count p = running_count (pool s) →
  Z.b2z (reload_in_progress p) = Z.b2z (reload_in_progress (pool s)) + W' GRotating - W GRotating → Bal calm (set_pool p s) W'.
Proof.
  intros HB HW Hp Hpu Hpe Hru Hro.
  pose proof (f_equal ref_count Hp) as E1. pose proof (f_equal live_workers Hp) as E2. pose proof (f_equal destroyed Hp) as E3.
  pose proof (f_equal task_channel Hp) as E4. pose proof (f_equal orphan_old Hp) as E5. pose proof (f_equal orphan_notify Hp) as E6. cbn in E1, E2, E3, E4, E5, E6.
  apply (bal_set_pool calm s W); try done; try (by apply HW); try (by intros; apply HW).
  - rewrite E1, HW by done. lia.
  - rewrite E2, HW by done. lia.
  - rewrite E1, E3. apply (b_destroyed _ _ _ HB).
  - rewrite E1, E4. apply (b_task _ _ _ HB).
  - intros c. by rewrite owned_flags, HW.
  - intros m. unfold parked. cbn. by rewrite E6, HW.
Qed.

Lemma wp_reload_loop calm s k e target (Φ : option caller_pc → sys → Prop) : Bal calm s nil_weight → callers s !! k = Some (CReloadLoop target) →
  caller_ok s (CReloadLoop target) → globals s →
  (∀ r s', caller_post calm s (CReloadLoop target) r s' → Φ r s') → wp (caller_step k e (CReloadLoop target)) Φ s.
Proof.
  intros HB Hk HC HG HΦ. assert (destroyed (pool s) = false) as Hd by (by eapply alive_pool). assert (ref_count (pool s) ≠ 0) as Hr by (by eapply alive_refs).
  assert (object s = true) as Hobj by (by destruct (ck_object _ _ HC)). pose proof (not_free_owner s _ HC eq_refl) as Hown.
  cbn [caller_step reload_step]. rewrite wp_bind. apply wp_get_pool; [done|].
  destruct (reload_in_progress (pool s)) eqn:Hp; [eapply wp_next; [|done]; stay; by apply (caller_goto s _ (CReloadLoop target)); [apply stable_refl|..]|].
  destruct (_ <=? _); [eapply wp_finish; [|done]; stay|].
  rewrite wp_bind. apply wp_upd_pool; [done|]. set (s1 := set_pool _ s).
  assert (Bal calm s1 (λ g, nil_weight g + d_rotating g)) as HB1.
  { apply (bal_flags calm s nil_weight); try done; [| |cbn; by rewrite Hp]; [intros []; unfold nil_weight; cbn; done|unfold nil_weight; cbn; lia]. }
  rewrite wp_bind. eapply wp_release_orphans; [exact HB1|done|intros; unfold nil_weight; cbn; lia|intros; unfold nil_weight; cbn; lia|].
  intros s2 HL Ep HB2. eapply wp_next; [|done]. assert (weak s s2) as HW by (apply (weak_trans s s1); [by apply (weak_pool s (CReloadLoop target))|by apply let_go_weak]).
  constructor; [done| | |left; apply HL|apply HL| |done| |done].
  - eapply bal_ext; [exact HB2|]. intros []; unfold nil_weight; cbn; lia.
  - destruct HG. constructor; rewrite Ep; cbn; try done. intros m Hm. apply (wk_notify _ _ HW). by apply g_notify.
  - intros k' w. rewrite (lg_workers _ _ HL). by left.
  - constructor; try done; [by rewrite Ep|left; by rewrite (wk_object _ _ HW)|]. rewrite (wk_owner _ _ HW). congruence.
Qed.
Lemma wp_reload_wait calm s k e target fired (Φ : option caller_pc → sys → Prop) : Bal calm s nil_weight → callers s !! k = Some (CReloadWait target fired) →
  caller_ok s (CReloadWait target fired) → globals s →
  (∀ r s', caller_post calm s (CReloadWait target fired) r s' → Φ r s') → wp (caller_step k e (CReloadWait target fired)) Φ s.
Proof.
  intros HB Hk HC HG HΦ. cbn [caller_step reload_step]. rewrite wp_bind. apply wp_get_pool; [by eapply alive_pool|].
  assert (∀ r, wp (finish k r) Φ s) as Hfin by (intros; eapply wp_finish; [|done]; stay).
  destruct (negb _); [done|]. destruct (_ <=? _); [done|]. destruct (closed _); [done|]. eapply wp_next; [|done]; stay.
  by apply (caller_goto s _ (CReloadWait target fired)); [apply stable_refl|..].
Qed.
Lemma wp_reload_alloc calm s k e n (Φ : option caller_pc → sys → Prop) : Bal calm s nil_weight → callers s !! k = Some (CReloadAlloc n) →
  caller_ok s (CReloadAlloc n) → globals s → channels s !! fresh e = None → notifies s !! fresh_notify e = None →
  (∀ r s', caller_post calm s (CReloadAlloc n) r s' → Φ r s') → wp (caller_step k e (CReloadAlloc n)) Φ s.
Proof.
  intros HB Hk HC HG Hc Hn HΦ. assert (destroyed (pool s) = false) as Hd by (by eapply alive_pool). assert (ref_count (pool s) ≠ 0) as Hr by (by eapply alive_refs).
  assert (object s = true) as Hobj by (by destruct (ck_object _ _ HC)). destruct (b_task _ _ _ HB Hr) as [old Hold].
  pose proof (not_free_owner s _ HC eq_refl) as Hown.
  destruct (task_known calm s nil_weight old HB ltac:(done) Hold) as [[ch Hch] Hg]. pose proof (rotating_once _ _ _ _ HB Hk eq_refl) as Hp.
  cbn [caller_step reload_step]. rewrite wp_bind. apply wp_get_pool; [done|]. rewrite wp_bind, (wp_defined _ old) by done.
  rewrite wp_bind. eapply wp_get_chan; [exact HB|done|done|done|]. destruct (ok e).
  - unfold put_chan, put_notify. rewrite wp_bind, wp_modify, wp_bind, wp_modify. eapply wp_next; [|done].
    set (s1 := set_channels _ s). set (s2 := set_notifies _ s1).
    assert (stable s s2) as HS by (eapply stable_trans; [apply stable_put_chan|apply stable_put_notify]).
    eapply post_stable; [exact HS|done| | | |done].
    + apply (bal_new_notify calm s1); [by apply (bal_new_chan calm s nil_weight)|done|done].
    + intros []; unfold nil_weight; cbn; lia.
    + constructor; try done; [|intros _|by left|cbn; congruence].
      * intros r sw [= <- <-]. cbn. split_and!; [split; [by apply lookup_insert_is_Some'; left|by left]| |split; [by apply lookup_insert_is_Some'; left|by left]|done].
        apply (st_chan _ _ HS). split; [by exists ch|done].
      * apply (ck_orphan _ _ HC). done.
  - rewrite wp_bind. apply wp_upd_pool; [done|]. unfold thread_pool_reload_fire_waiters. rewrite wp_bind, wp_modify. eapply wp_finish; [|done].
    set (s1 := set_pool _ s). change (_ <$> callers s1) with (fire_waiter <$> callers s1). apply (post_fire calm s _ _ s1); [|done].
    eapply (post_pool calm s _ HC None _ (λ g, - d_rotating g)); try done.
    + apply (bal_flags calm s nil_weight); try done; [intros []; unfold nil_weight; done|unfold nil_weight; cbn; lia|cbn; by rewrite Hp].
    + apply (g_notify _ HG).
Qed.

(** ** The steps of a rotation *)
Section rotation.
Context (calm : bool) (s : sys) (k : nat) (e : call_env) (pc : caller_pc) (r : rotation_t) (swapped : bool).
Context (HB : Bal calm s nil_weight) (Hk : callers s !! k = Some pc) (HC : caller_ok s pc) (HG : globals s).
Context (Hrot : rotation_of pc = Some (r, swapped)).

Lemma rot_free : is_free pc = false ∧ is_rotating pc = true ∧ object s = true.
Proof.
  assert (is_free pc = false ∧ is_rotating pc = true) as [Hf Hr] by (by destruct pc). split_and!; [done..|].
  destruct (ck_object _ _ HC); congruence.
Qed.
(** A step that sets flags only. *)
Lemma post_flags p pc' : rotation_of pc' = Some (r, swapped) → control p = control (set_reload_notify (reload_notify p) (set_reload_old (reload_old p) (pool s))) →
  pending_count p = pending_count (pool s) → running_count p = running_count (pool s) →
  (∀ m, reload_notify p = Some m → notify_known s m) → (∀ g, g ≠ GPublished → caller_weight pc' g = caller_weight pc g) →
  Z.b2z (bool_decide (is_Some (reload_notify p))) = Z.b2z (bool_decide (is_Some (reload_notify (pool s)))) + caller_weight pc' GPublished - caller_weight pc GPublished →
  caller_post calm s pc (Some pc') (set_pool p s).
Proof.
  intros Hr' Hp Hpe Hru Hm Hw Hpu. destruct rot_free as (Hf & Hrt & Hobj).
  pose proof (f_equal ref_count Hp) as E1. pose proof (f_equal orphan_notify Hp) as E2. pose proof (f_equal reload_in_progress Hp) as E3.
  pose proof (f_equal task_channel Hp) as E4. pose proof (f_equal orphan_old Hp) as E5. cbn in E1, E2, E3, E4, E5.
  apply (post_pool calm s _ HC (Some pc') _ (λ g, caller_weight pc' g - caller_weight pc g)); [done| | |done| | | |].
  - done.
  - apply (bal_flags calm s nil_weight); try done; unfold nil_weight.
    + intros g _ Hg. rewrite Hw by done. lia.
    + pose proof (f_equal (λ p, set_reload_notify None (set_reload_old None (set_reload_in_progress false (set_rotations_started 0
        (set_rotations_completed 0 (set_handles [] (set_cancel_requested false p))))))) Hp) as E. exact E.
    + rewrite Hpu. lia.
    + rewrite E3, Hw by done. lia.
  - rewrite E1. by eapply alive_refs.
  - done.
  - assert (caller_ok (set_pool p s) pc) as [].
    { by apply (caller_ok_weak s); [apply (weak_pool s pc)|..]. }
    constructor; [by destruct pc'|by rewrite Hr', <- Hrot|auto|by left|]. intros Ho. specialize (ck_owner Ho). congruence.
  - by destruct pc'.
Qed.
Lemma post_swap : swapped = false → ∀ pc', rotation_of pc' = Some (r, true) →
  (∀ g, (∀ c, g ≠ GOwns c) → caller_weight pc' g = caller_weight pc g) →
  caller_post calm s pc (Some pc') (set_pool (set_task_channel (Some (r_new r)) (pool s)) s).
Proof.
  intros Hsw pc' Hr' Hw. destruct rot_free as (Hf & Hrt & Hobj). destruct (ck_rotation _ _ HC r swapped Hrot) as (Hn & Ho & Hnw & Ht). rewrite Hsw in *.
  eapply (post_pool calm s _ HC (Some pc') _ (λ g, caller_weight pc' g - caller_weight pc g)); try done.
  - apply (bal_set_pool calm s nil_weight); try done; unfold nil_weight; try (rewrite Hw by done); cbn -[caller_weight]; try (intros; rewrite ?Hw by done; lia).
    + apply (b_destroyed _ _ _ HB).
    + intros c. unfold owned. cbn -[caller_weight]. rewrite Ht.
      assert (∀ d, Z.b2z (bool_decide (Some d = Some c)) = is_task c d) as E.
      { intros d. unfold is_task. f_equal. apply bool_decide_ext. split; congruence. }
      rewrite !E. assert (caller_weight pc' (GOwns c) = is_task c (r_old r)) as -> by (unfold caller_weight; by rewrite Hr').
      assert (caller_weight pc (GOwns c) = is_task c (r_new r)) as -> by (unfold caller_weight; by rewrite Hrot). lia.
    + intros m. unfold parked. cbn -[caller_weight]. rewrite Hw by done. lia.
  - apply (g_notify _ HG).
  - cbn. by eapply alive_refs.
  - rewrite Hrt. done.
  - constructor; [by destruct pc'| | |by left|cbn; rewrite (not_free_owner s _ HC Hf); done].
    + pose proof (weak_pool s pc HC (set_task_channel (Some (r_new r)) (pool s)) Hf) as [].
      rewrite Hr'. intros r' sw' [= <- <-]. auto.
    + intros _. by apply (ck_orphan _ _ HC).
  - by destruct pc'.
Qed.
(** The rotation stays where it is but for the books. *)
Lemma post_rotation pc' s' W : stable s s' → Bal calm s' W → (∀ g, W g = caller_weight pc' g - caller_weight pc g) →
  rotation_of pc' = Some (r, swapped) → caller_post calm s pc (Some pc') s'.
Proof.
  intros HS HB' HW Hr'. destruct rot_free as (Hf & Hrt & Hobj). eapply post_stable; [done|done|exact HB'|done| |by destruct pc'].
  apply (rotation_goto s _ pc); try done; [by rewrite Hr', Hrot| |by destruct pc']. rewrite Hrt. by destruct pc'.
Qed.
End rotation.

(** The worker that a rotation starts has no place in the array of workers. *)
Definition overruns_at (p : async_thread_pool_t) (e : call_env) (pc : caller_pc) : bool :=
  match pc with CStart _ i _ => ok e && negb (i <? Z.of_nat (length (handles p))) | _ => false end.

Section steps.
Context (calm : bool) (s : sys) (k : nat) (e : call_env) (r : rotation_t) (Φ : option caller_pc → sys → Prop).

Lemma wp_publish_old : Bal calm s nil_weight → callers s !! k = Some (CPublishOld r) → caller_ok s (CPublishOld r) → globals s →
  (∀ x s', caller_post calm s (CPublishOld r) x s' → Φ x s') → wp (caller_step k e (CPublishOld r)) Φ s.
Proof.
  intros HB Hk HC HG HΦ. cbn [caller_step reload_step]. rewrite wp_bind. apply wp_upd_pool; [by eapply alive_pool|].
  eapply wp_next; [|done]. eapply post_flags; try done; [apply (g_notify _ HG)|cbn; lia].
Qed.
Lemma wp_publish_notify : Bal calm s nil_weight → callers s !! k = Some (CPublishNotify r) → caller_ok s (CPublishNotify r) → globals s →
  (∀ x s', caller_post calm s (CPublishNotify r) x s' → Φ x s') → wp (caller_step k e (CPublishNotify r)) Φ s.
Proof.
  intros HB Hk HC HG HΦ. cbn [caller_step reload_step]. rewrite wp_bind. apply wp_upd_pool; [by eapply alive_pool|].
  eapply wp_next; [|done]. eapply post_flags; try done.
  - intros m [= <-]. by apply (ck_rotation _ _ HC r false).
  - by intros [].
  - rewrite (published_rotation calm s k _ HB Hk eq_refl). done.
Qed.
Lemma wp_swap : Bal calm s nil_weight → callers s !! k = Some (CSwap r) → caller_ok s (CSwap r) → globals s →
  (∀ x s', caller_post calm s (CSwap r) x s' → Φ x s') → wp (caller_step k e (CSwap r)) Φ s.
Proof.
  intros HB Hk HC HG HΦ. cbn [caller_step reload_step]. rewrite wp_bind. apply wp_upd_pool; [by eapply alive_pool|].
  eapply wp_next; [|done]. eapply post_swap; try done. intros [] Hg; try done. by destruct (Hg c).
Qed.
Lemma wp_close_old : Bal calm s nil_weight → callers s !! k = Some (CCloseOld r) → caller_ok s (CCloseOld r) → globals s →
  (∀ x s', caller_post calm s (CCloseOld r) x s' → Φ x s') → wp (caller_step k e (CCloseOld r)) Φ s.
Proof.
  intros HB Hk HC HG HΦ. destruct (ck_rotation _ _ HC r true eq_refl) as (_ & [[ch Hch] Hg] & _ & _).
  cbn [caller_step reload_step]. unfold async_thread_channel_close. rewrite wp_bind, wp_bind. eapply wp_get_chan; [exact HB|done|done|done|].
  unfold put_chan. rewrite wp_modify. eapply wp_next; [|done]. eapply (post_rotation calm s k _ r true); [done..|apply stable_put_chan| | |done].
  - apply (bal_put_chan calm s nil_weight nil_weight _ ch); try done; intros; unfold nil_weight; cbn; lia.
  - intros []; unfold nil_weight; cbn; lia.
Qed.
Lemma wp_spawn i repl : Bal calm s nil_weight → callers s !! k = Some (CSpawn r i repl) → caller_ok s (CSpawn r i repl) → globals s →
  (∀ x s', caller_post calm s (CSpawn r i repl) x s' → Φ x s') → wp (caller_step k e (CSpawn r i repl)) Φ s.
Proof.
  intros HB Hk HC HG HΦ. assert (ref_count (pool s) ≠ 0) as Hr by (by eapply alive_refs).
  destruct (rot_free s k (CSpawn r i repl) r true Hk HC eq_refl) as (_ & _ & Hobj).
  cbn [caller_step reload_step]. rewrite wp_bind. apply wp_get_pool; [by eapply alive_pool|].
  destruct (closed _).
  - eapply wp_next; [|done]. apply post_refl; [done..|by intros []| |by intros]. by apply (rotation_goto s _ (CSpawn r i repl)); [apply stable_refl|..].
  - unfold count_worker. rewrite wp_bind. apply wp_upd_pool; [by eapply alive_pool|]. eapply wp_next; [|done].
    pose proof (b_refs _ _ _ HB) as Hrc. pose proof (sum_nonneg s GRefs ltac:(done)). rewrite Hobj in Hrc. unfold nil_weight in Hrc. cbn in Hrc.
    eapply (post_pool calm s _ HC (Some (CStart r i repl)) _ (λ g, d_refs g + d_live g)); try done; [intros []; cbn; lia| |apply (g_notify _ HG)|cbn; lia|].
    + apply (bal_set_pool calm s nil_weight); unfold nil_weight; cbn; try done; try lia; try (intros; lia).
      * intros Hd. by rewrite (alive_pool calm s k _ HB Hk HC) in Hd.
      * intros _. by apply (b_task _ _ _ HB).
    + destruct HC. by constructor.
Qed.
Lemma wp_start i repl : Bal calm s nil_weight → callers s !! k = Some (CStart r i repl) → caller_ok s (CStart r i repl) → globals s →
  workers s !! fresh e = None → overruns_at (pool s) e (CStart r i repl) = false →
  (∀ x s', caller_post calm s (CStart r i repl) x s' → Φ x s') → wp (caller_step k e (CStart r i repl)) Φ s.
Proof.
  intros HB Hk HC HG Hw Hin HΦ. assert (ref_count (pool s) ≠ 0) as Hr by (by eapply alive_refs). cbn in Hin.
  destruct (rot_free s k (CStart r i repl) r true Hk HC eq_refl) as (_ & _ & Hobj). destruct (ck_rotation _ _ HC r true eq_refl) as (_ & _ & Hnew & Ht).
  pose proof (b_refs _ _ _ HB) as Hrc. pose proof (caller_le_sum s k _ GRefs Hk ltac:(done)) as Hle. rewrite Hobj in Hrc. unfold nil_weight in Hrc. cbn in Hrc, Hle.
  cbn [caller_step reload_step]. rewrite wp_bind. apply wp_get_pool; [by eapply alive_pool|]. rewrite wp_bind, (wp_defined _ (r_new r)) by done.
  rewrite wp_bind. unfold thread_pool_start_worker. destruct (ok e).
  - apply negb_false_iff in Hin. assert (destroyed (pool s) = false) as Hd by (by eapply alive_pool).
    rewrite wp_bind, wp_modify, wp_bind. apply wp_get_pool; [done|]. rewrite wp_bind, wp_assert. split; [done|]. apply wp_upd_pool; [done|]. set (s1 := set_workers _ s).
    assert (Bal calm s1 (λ g, caller_weight (CToken r i repl) g - caller_weight (CStart r i repl) g)) as HB1.
    { apply (bal_actors calm s _ nil_weight); try done; intros; unfold s1; rewrite ?sum_new_worker by done; unfold nil_weight.
      * cbn. lia.
      * destruct g; try done; cbn; lia. }
    eapply wp_next; [|done]. constructor; [by constructor| |by destruct HG|by left|done| |done| |done].
    + eapply bal_flags; [exact HB1|..]; try done; cbn; lia.
    + intros k' w. cbn. intros [[<- <-]|[_ ?]]%lookup_insert_Some; [right|by left]. constructor; try done. by intros j ?%not_elem_of_nil.
    + cbn. destruct HC. by constructor.
  - apply wp_upd_pool; [by eapply alive_pool|]. eapply wp_next; [|done].
    eapply (post_pool calm s _ HC (Some (CToken r i repl)) _ (λ g, - d_refs g - d_live g)); try done; [intros []; cbn; lia| |apply (g_notify _ HG)|cbn; lia|].
    + apply (bal_set_pool calm s nil_weight); unfold nil_weight; cbn; try done; try lia; try (intros; lia).
      intros Hd. by rewrite (alive_pool calm s k _ HB Hk HC) in Hd.
    + destruct HC. by constructor.
Qed.
Lemma wp_token i repl : Bal calm s nil_weight → callers s !! k = Some (CToken r i repl) → caller_ok s (CToken r i repl) → globals s →
  (∀ x s', caller_post calm s (CToken r i repl) x s' → Φ x s') → wp (caller_step k e (CToken r i repl)) Φ s.
Proof.
  intros HB Hk HC HG HΦ. destruct (ck_rotation _ _ HC r true eq_refl) as ([[n Hn] Hg] & _ & _ & _).
  cbn [caller_step reload_step]. rewrite wp_bind. eapply wp_get_notify; [exact HB|done|done|done|].
  assert (∀ pc, rotation_of pc = Some (r, true) → (∀ g, caller_weight pc g = caller_weight (CToken r i repl) g) →
    wp (next pc) Φ s) as Hgo.
  { intros pc Hr Hw. eapply wp_next; [|done]. apply post_refl; [done|done|done| |by destruct pc].
    apply (rotation_goto s _ (CToken r i repl)); [apply stable_refl|done|done|by destruct pc|done|by destruct pc]. }
  destruct (negb (ok e)); [apply Hgo; [done|by intros []]|]. destruct (0 <? tokens n).
  - unfold put_notify. rewrite wp_bind, wp_modify. eapply wp_next; [|done].
    eapply (post_rotation calm s k _ r true) with (W := nil_weight); try done; [apply stable_put_notify| | |by destruct (_ <? _)].
    { apply (bal_put_notify calm s nil_weight _ _ n); try done. intros; unfold nil_weight; cbn; lia. }
    destruct (_ <? _); intros []; unfold nil_weight; cbn; lia.
  - destruct (n_closed n); apply Hgo; try done; by intros [].
Qed.
Lemma wp_clear_notify aborted repl : Bal calm s nil_weight → callers s !! k = Some (CClearNotify r aborted repl) → caller_ok s (CClearNotify r aborted repl) → globals s →
  (∀ x s', caller_post calm s (CClearNotify r aborted repl) x s' → Φ x s') → wp (caller_step k e (CClearNotify r aborted repl)) Φ s.
Proof.
  intros HB Hk HC HG HΦ. cbn [caller_step reload_step]. rewrite wp_bind. apply wp_upd_pool; [by eapply alive_pool|].
  eapply wp_next; [|done]. eapply post_flags; try done; [by intros []|]. rewrite (published_rotation calm s k _ HB Hk eq_refl). done.
Qed.
Lemma wp_clear_old aborted repl : Bal calm s nil_weight → callers s !! k = Some (CClearOld r aborted repl) → caller_ok s (CClearOld r aborted repl) → globals s →
  (∀ x s', caller_post calm s (CClearOld r aborted repl) x s' → Φ x s') → wp (caller_step k e (CClearOld r aborted repl)) Φ s.
Proof.
  intros HB Hk HC HG HΦ. cbn [caller_step reload_step]. rewrite wp_bind. apply wp_upd_pool; [by eapply alive_pool|].
  eapply wp_next; [|done]. eapply post_flags; try done; [apply (g_notify _ HG)|cbn; lia].
Qed.

(** The end of a rotation: its flag is cleared and who waits for it is woken. *)
Lemma wp_rotation_over aborted repl s1 : owner_gone s = false → let_go s s1 → Bal calm s1 (λ g, - d_owns (r_old r) g - d_notify (r_notify r) g) → globals s1 → object s = true →
  destroyed (pool s1) = false → ref_count (pool s1) ≠ 0 → reload_in_progress (pool s1) = true →
  (∀ x s', caller_post calm s (CReloadEnd r aborted repl) x s' → Φ x s') →
  wp (upd_pool (set_reload_in_progress false);; thread_pool_reload_fire_waiters;; next (CReloadReport aborted repl)) Φ s1.
Proof.
  intros Hown HL HB1 HG1 Hobj Hd Hr Hp HΦ. rewrite wp_bind. apply wp_upd_pool; [done|].
  unfold thread_pool_reload_fire_waiters. rewrite wp_bind, wp_modify. eapply wp_next; [|done].
  set (s2 := set_pool _ s1). change (_ <$> callers s2) with (fire_waiter <$> callers s2). apply (post_fire calm s _ _ s2); [|apply HL].
  assert (weak s1 s2) as HW by (by constructor). pose proof (let_go_weak _ _ Hown HL) as HW1.
  constructor; [by eapply weak_trans| |by destruct HG1|left; apply HL|apply HL| |done| |done].
  - eapply bal_ext; [eapply (bal_flags calm s1 _ (λ g, - d_owns (r_old r) g - d_notify (r_notify r) g - d_rotating g)); [done|..]; try done|].
    + intros []; cbn; done || lia.
    + cbn. lia.
    + cbn. rewrite Hp. cbn. lia.
    + intros []; cbn; lia.
  - intros k' w. cbn. rewrite (lg_workers _ _ HL). by left.
  - constructor; try done; cbn; [left; by rewrite (wk_object _ _ HW1)|rewrite (wk_owner _ _ HW1); congruence].
Qed.
Lemma wp_reload_end aborted repl : Bal calm s nil_weight → callers s !! k = Some (CReloadEnd r aborted repl) → caller_ok s (CReloadEnd r aborted repl) → globals s →
  (∀ x s', caller_post calm s (CReloadEnd r aborted repl) x s' → Φ x s') → wp (caller_step k e (CReloadEnd r aborted repl)) Φ s.
Proof.
  intros HB Hk HC HG HΦ. assert (ref_count (pool s) ≠ 0) as Hr by (by eapply alive_refs). assert (destroyed (pool s) = false) as Hd by (by eapply alive_pool).
  destruct (rot_free s k _ r true Hk HC eq_refl) as (_ & _ & Hobj). destruct (ck_rotation _ _ HC r true eq_refl) as (Hn & Hold & _ & Ht).
  pose proof (rotating_once _ _ _ _ HB Hk eq_refl) as Hp. pose proof (ck_orphan _ _ HC eq_refl) as [Ho Hop].
  pose proof (not_free_owner s _ HC eq_refl) as Hown.
  cbn [caller_step reload_step]. rewrite wp_bind. destruct aborted.
  - apply wp_upd_pool; [done|]. eapply wp_rotation_over; try done.
    + apply (bal_set_pool calm s nil_weight); unfold nil_weight; try done; try (intros; cbn; lia).
      * apply (b_destroyed _ _ _ HB).
      * intros c. unfold owned. cbn. rewrite Ho, (bool_decide_eq_false_2 (None = Some c)) by done. unfold is_task.
        rewrite (bool_decide_ext (Some (r_old r) = Some c) (c = r_old r)) by (split; congruence).
        cbn. lia.
      * intros m. unfold parked. cbn. rewrite Hop, (bool_decide_eq_false_2 (None = Some m)) by done. unfold is_task.
        rewrite (bool_decide_ext (Some (r_notify r) = Some m) (m = r_notify r)) by (split; congruence).
        cbn. lia.
    + destruct HG. constructor; [|done]. intros m Hm. destruct (g_notify m Hm) as [? _]. split; [done|by left].
  - rewrite wp_bind. eapply wp_close_notify; [exact HB|done|done|]. intros s1 Ep1 HL1 Hn1 HB1.
    rewrite wp_bind. eapply wp_dispose_notify; [exact HB1|done|done|]. intros s2 Ep2 HL2 HB2.
    assert (let_go s s2) as HL by (by eapply let_go_trans). rewrite wp_bind.
    eapply wp_dispose_chan; [exact HB2|by apply (wk_chan _ _ (let_go_weak _ _ Hown HL))|done|]. intros s3 Ep3 HL3 HB3.
    assert (let_go s s3) as HL' by (by eapply let_go_trans). assert (pool s3 = pool s) as Ep by congruence. apply wp_upd_pool; [by rewrite Ep|].
    eapply wp_rotation_over; try done; cbn; try (by rewrite Ep).
    + eapply let_go_trans; [done|by constructor].
    + eapply bal_ext; [eapply (bal_flags calm s3 _ (λ g, nil_weight g - d_notify (r_notify r) g - d_owns (r_old r) g) _ HB3); try done; cbn; lia|].
      intros; unfold nil_weight; cbn; lia.
    + destruct HG. constructor; cbn; rewrite Ep; [|done]. intros m Hm. destruct (g_notify m Hm) as [? _].
      split; [by apply (lg_notify _ _ HL')|left; cbn; by rewrite (lg_owner _ _ HL')].
Qed.
Lemma wp_reload_report aborted repl : Bal calm s nil_weight → callers s !! k = Some (CReloadReport aborted repl) → caller_ok s (CReloadReport aborted repl) → globals s →
  (∀ x s', caller_post calm s (CReloadReport aborted repl) x s' → Φ x s') → wp (caller_step k e (CReloadReport aborted repl)) Φ s.
Proof.
  intros HB Hk HC HG HΦ. cbn [caller_step reload_step]. rewrite wp_bind. apply wp_get_pool; [by eapply alive_pool|].
  destruct (_ || _); (eapply wp_finish; [|done]); stay.
Qed.
End steps.

(** What must be new at a step of a caller. *)
Definition names_ok (s : sys) (e : call_env) (pc : caller_pc) : Prop :=
  match pc with
  | CSubmitLive _ => states s !! fresh e = None
  | CReloadAlloc _ => channels s !! fresh e = None ∧ notifies s !! fresh_notify e = None
  | CStart _ _ _ => workers s !! fresh e = None ∧ overruns_at (pool s) e pc = false
  | _ => True
  end.
Lemma wp_caller calm s k e pc (Φ : option caller_pc → sys → Prop) : Bal calm s nil_weight → callers s !! k = Some pc → caller_ok s pc → globals s →
  names_ok s e pc → pc ≠ CFree → (∀ x s', caller_post calm s pc x s' → Φ x s') → wp (caller_step k e pc) Φ s.
Proof.
  intros HB Hk HC HG He Hne HΦ. assert (destroyed (pool s) = false) as Hd by (by eapply alive_pool). assert (ref_count (pool s) ≠ 0) as Hr by (by eapply alive_refs).
  destruct pc as [kd|kd|i|i c|i| |sh rt| | |target|target fired|n|r|r|r|r|r i repl|r i repl|r i repl|r ab repl|r ab repl|r ab repl|ab repl].
  - cbn [caller_step]. rewrite wp_bind. apply wp_get_pool; [done|].
    destruct (closed _); [eapply wp_finish; [|done]; stay|eapply wp_next; [|done]; stay]. by apply (caller_goto s _ (CSubmit kd)); [apply stable_refl|..].
  - by apply (wp_submit_live calm).
  - cbn [caller_step]. rewrite wp_bind. apply wp_get_pool; [done|]. destruct (b_task _ _ _ HB Hr) as [c Hc]. rewrite wp_bind, (wp_defined _ c) by done.
    eapply wp_next; [|done]. stay. apply (caller_goto s _ (CLoadChannel i)); [apply stable_refl|done| |done|done]. by eapply task_known.
  - by apply (wp_send calm).
  - by apply (wp_count calm).
  - cbn [caller_step]. rewrite wp_bind. apply wp_upd_pool; [done|]. eapply wp_next; [|done].
    apply (post_pool calm s _ HC (Some (CShut ShutCancel CloseCheck)) _ nil_weight); try done; [by intros []| |apply HG|].
    + by apply (bal_flags calm s nil_weight); try done; cbn; lia.
    + by apply (caller_goto s _ CCancelFlag).
  - by apply (wp_shut calm).
  - done.
  - cbn [caller_step reload_step]. rewrite wp_bind. apply wp_get_pool; [done|].
    destruct (closed _); [eapply wp_finish; [|done]; stay|eapply wp_next; [|done]; stay]. by apply (caller_goto s _ CReload); [apply stable_refl|..].
  - by apply (wp_reload_loop calm).
  - by apply (wp_reload_wait calm).
  - destruct He. by apply (wp_reload_alloc calm).
  - by apply (wp_publish_old calm).
  - by apply (wp_publish_notify calm).
  - by apply (wp_swap calm).
  - by apply (wp_close_old calm).
  - by apply (wp_spawn calm).
  - destruct He. by apply (wp_start calm).
  - by apply (wp_token calm).
  - by apply (wp_clear_notify calm).
  - by apply (wp_clear_old calm).
  - by apply (wp_reload_end calm).
  - by apply (wp_reload_report calm).
Qed.
