(* ===== verification/ThreadPoolInvariant.v ===== *)
(** * The invariant of the thread pool *)

From stdpp Require Import fin_maps tactics.
From S2P Require Import Prelude ThreadPool ThreadPoolProofs ThreadPoolSteps ThreadPoolCalls ThreadPoolReload.

Local Open Scope Z_scope.
#[local] Arguments sum : simpl never.
#[local] Arguments queued : simpl never.
#[local] Arguments owned : simpl never.
#[local] Arguments is_task : simpl never.
#[local] Arguments Z.of_nat : simpl never.

(** Who frees the pool is alone with it, and nobody else has the PHP object. *)
Definition free_alone (s : sys) : Prop :=
  ∀ k pc, callers s !! k = Some pc → is_free pc = true → object s = false ∧ ∀ k', is_Some (callers s !! k') → k' = k.
Record Inv (calm : bool) (s : sys) : Prop := {
  i_bal : Bal calm s nil_weight;
  i_workers k w : workers s !! k = Some w → worker_ok s w;
  i_callers k pc : callers s !! k = Some pc → caller_ok s pc;
  i_globals : destroyed (pool s) = false → globals s;
  i_free : free_alone s
}.

Lemma sum_insert_caller s k pc pc' o g : callers s !! k = Some pc →
  sum (set_callers (<[k := pc']> (callers s)) (set_running o s)) g = sum s g - caller_weight pc g + caller_weight pc' g.
Proof. intros Hk. unfold sum. cbn. rewrite (totals_insert _ _ _ pc) by done. lia. Qed.
Lemma sum_delete_caller s k pc o g : callers s !! k = Some pc →
  sum (set_callers (delete k (callers s)) (set_running o s)) g = sum s g - caller_weight pc g.
Proof. intros Hk. unfold sum. cbn. rewrite (totals_delete _ (callers s) _ pc) by done. lia. Qed.
Lemma sum_new_caller s k pc o g : callers s !! k = None →
  sum (set_callers (<[k := pc]> (callers s)) (set_running o s)) g = sum s g + caller_weight pc g.
Proof. intros Hk. unfold sum. cbn. rewrite total_new by done. lia. Qed.


(** *** A worker steps *)
Section worker.
Context (calm : bool) (s : sys) (k : nat) (w : worker_t) (HI : Inv calm s) (Hk : workers s !! k = Some w).

Lemma put_worker_inv w' s' : worker_post calm s w (Some w') s' → Inv calm (set_workers (<[k := w']> (workers s')) s').
Proof.
  intros (HS & HB' & HW'). assert (workers s' !! k = Some w) as Hk' by (by rewrite (st_workers _ _ HS)). set (s2 := set_workers _ s').
  assert (stable s' (set_workers (workers s') s2)) as _ by (by constructor).
  assert (weak s' s2) as HW2 by (by constructor). pose proof (stable_weak _ _ HS) as HW1. assert (weak s s2) as HW by (by eapply weak_trans).
  constructor.
  - apply (bal_actors calm s' _ (λ g, worker_weight w' g - worker_weight w g)); try done; intros; unfold s2; rewrite (sum_insert_worker _ _ w) by done;
      unfold nil_weight; [cbn; lia|lia].
  - intros k' w0. cbn. intros [[<- <-]|[_ Hw0]]%lookup_insert_Some; [by apply (worker_ok_weak s')|].
    rewrite (st_workers _ _ HS) in Hw0. apply (worker_ok_weak s); [done|by eapply i_workers].
  - intros k' pc. cbn. rewrite (st_callers _ _ HS). intros Hpc. apply (caller_ok_weak s); [done| |by eapply i_callers].
    intros _. by apply (stable_anchors s s').
  - intros _. assert (globals s') as [] by (eapply globals_stable; [done|apply (i_globals _ _ HI); by eapply (worker_alive calm s k w (i_bal _ _ HI))]). by constructor.
  - intros k' pc. cbn. rewrite (st_callers _ _ HS), (st_object _ _ HS). apply (i_free _ _ HI).
Qed.
Lemma weight_delref g : w_pc w = WDelref → worker_ok s w → worker_weight w g = d_refs g.
Proof.
  intros Hpc HW. destruct (wk_emptied _ _ HW) as [E1 E2]; [by rewrite Hpc|]. destruct w as [c pc ac infl ar]. cbn in *. subst. by destruct g.
Qed.

Lemma two_workers k' w' : workers s !! k' = Some w' → k' ≠ k → 2 ≤ sum s GRefs.
Proof.
  intros Hk' Hne. unfold sum. rewrite (totals_delete _ (workers s) k w) by done.
  assert (worker_weight w' GRefs ≤ total (λ w, worker_weight w GRefs) (delete k (workers s))) as H1.
  { apply (total_ge (λ w, worker_weight w GRefs) _ k' w'); [intros; apply worker_weight_nonneg|]. by rewrite lookup_delete_ne. }
  assert (0 ≤ total (λ pc, caller_weight pc GRefs) (callers s)) by (apply totals_nonneg; intros; by apply caller_weight_nonneg).
  cbn in *. lia.
Qed.
(** The last worker is the last actor. *)
Lemma last_worker : w_pc w = WDelref → ref_count (pool s) = 1 →
  (∀ k' w', workers s !! k' = Some w' → k' = k) ∧ (∀ k' pc, callers s !! k' = Some pc → False) ∧ ∀ g, g ≠ GRefs → sum s g = 0.
Proof.
  intros Hpc Hr. pose proof (b_refs _ _ _ (i_bal _ _ HI)) as Hrc. unfold nil_weight in Hrc.
  pose proof (worker_le_sum s k w GRefs Hk ltac:(done)) as Hle. cbn in Hle.
  assert (∀ k' w', workers s !! k' = Some w' → k' = k) as Hw.
  { intros k' w' Hk'. destruct (decide (k' = k)) as [|Hne]; [done|]. pose proof (two_workers k' w' Hk' Hne). destruct (object s); cbn in Hrc; lia. }
  assert (∀ k' pc, callers s !! k' = Some pc → False) as Hc.
  { intros k' pc Hk'. destruct (ck_object _ _ (i_callers _ _ HI k' pc Hk')) as [E|E].
    - rewrite E in Hrc. cbn in Hrc. lia.
    - unfold sum in Hrc. assert (caller_weight pc GRefs ≤ total (λ pc, caller_weight pc GRefs) (callers s)) as H1.
      { apply (total_ge (λ pc, caller_weight pc GRefs) _ k' pc); [intros; by apply caller_weight_nonneg|done]. }
      assert (worker_weight w GRefs ≤ total (λ w, worker_weight w GRefs) (workers s)) as H2.
      { apply (total_ge (λ w, worker_weight w GRefs) _ k w); [intros; apply worker_weight_nonneg|done]. }
      assert (caller_weight pc GRefs = 1) as H3 by (destruct pc; cbn in *; by rewrite ?E).
      cbn in H2. destruct (object s); cbn in *; unfold sum in *; lia. }
  split_and!; [done..|]. intros g Hg. unfold sum. rewrite !total_zero; [done| |].
  - intros k' pc Hk'. by destruct (Hc k' pc).
  - intros k' w' Hk'. pose proof (Hw k' w' Hk') as ->. rewrite Hk in Hk'. injection Hk' as <-.
    rewrite weight_delref; [by destruct g|done|by eapply i_workers].
Qed.
Lemma delete_worker_inv : w_pc w = WDelref → (calm = true → ref_count (pool s) = 1 → ∀ c ch, task_channel (pool s) = Some c → channels s !! c = Some ch → queue ch = []) →
  wp thread_pool_delref (λ _ s', Inv calm (set_workers (delete k (workers s')) s')) s.
Proof.
  intros Hpc Hq. destruct (worker_alive calm s k w (i_bal _ _ HI) Hk) as [Hd Hr]. pose proof (i_globals _ _ HI Hd) as HG.
  assert (∀ s', actors_kept s s' → Bal calm s' (λ g, - d_refs g) → Bal calm (set_workers (delete k (workers s')) s') nil_weight) as Hbal.
  { intros s' HA HB'. assert (workers s' !! k = Some w) as Hk' by (by rewrite (ak_workers _ _ HA)).
    assert (∀ g, worker_weight w g = d_refs g) as Hw by (intros; apply weight_delref; [done|by eapply i_workers]).
    apply (bal_actors calm s' _ (λ g, - d_refs g)); try done; intros; rewrite (sum_delete_worker _ _ w), Hw by done; unfold nil_weight; [cbn; lia|lia]. }
  apply (wp_pool_delref calm); try done; [apply HI| | | |].
  - intros E. by apply last_worker.
  - intros ??. by apply Hq.
  - intros Hne s' -> HB'. set (s1 := set_pool _ s) in *. constructor; [apply Hbal; [by constructor|done]| | | |].
    + intros k' w'. cbn. intros [_ Hw']%lookup_delete_Some. apply (worker_ok_weak s); [by constructor|by eapply i_workers].
    + intros k' pc Hpc'. apply (caller_ok_weak s); [by constructor|by split|by eapply i_callers].
    + intros _. destruct HG. constructor; try done. cbn. lia.
    + exact (i_free _ _ HI).
  - intros E s' HA HB' Hd' Hr'. destruct (last_worker Hpc E) as (Hw & Hc & _). constructor; [by apply Hbal| | | |].
    + intros k' w'. cbn. rewrite (ak_workers _ _ HA). intros [Hne Hw']%lookup_delete_Some. by destruct Hne; rewrite (Hw k' w' Hw').
    + intros k' pc. cbn. rewrite (ak_callers _ _ HA). intros Hpc'. by destruct (Hc k' pc).
    + cbn. congruence.
    + intros k' pc. cbn. rewrite (ak_callers _ _ HA). intros Hpc'. by destruct (Hc k' pc).
Qed.
End worker.

(** *** A call makes a step *)
Lemma fire_free pc : is_free (fire_waiter pc) = is_free pc.
Proof. by destruct pc. Qed.
Lemma fire_rotating pc : is_rotating (fire_waiter pc) = is_rotating pc.
Proof. by destruct pc. Qed.
Lemma fire_ok s pc : caller_ok s pc → caller_ok s (fire_waiter pc).
Proof. intros []. destruct pc; by constructor. Qed.
Lemma two_callers s k pc k' pc' g : g ≠ GPending → callers s !! k = Some pc → callers s !! k' = Some pc' → k' ≠ k →
  caller_weight pc g + caller_weight pc' g ≤ sum s g.
Proof.
  intros Hg Hk Hk' Hne. unfold sum. rewrite (totals_delete _ (callers s) k pc) by done.
  assert (caller_weight pc' g ≤ total (λ pc, caller_weight pc g) (delete k (callers s))).
  { apply (total_ge (λ pc, caller_weight pc g) _ k' pc'); [intros; by apply caller_weight_nonneg|]. by rewrite lookup_delete_ne. }
  assert (0 ≤ total (λ w, worker_weight w g) (workers s)) by (apply totals_nonneg; intros; apply worker_weight_nonneg). lia.
Qed.
Lemma rotating_alone calm s k pc k' pc' : Bal calm s nil_weight → callers s !! k = Some pc → callers s !! k' = Some pc' → k' ≠ k →
  is_rotating pc = true → is_rotating pc' = false.
Proof.
  intros HB Hk Hk' Hne Hr. apply not_true_is_false. intros Hr'. pose proof (b_rotating _ _ _ HB) as Hb. unfold nil_weight in Hb.
  pose proof (two_callers s k pc k' pc' GRotating ltac:(done) Hk Hk' Hne) as H2. rewrite !rotating_weight, Hr, Hr' in H2.
  destruct (reload_in_progress (pool s)); cbn in *; lia.
Qed.
(** The map of calls after a step that may have woken the waiters. *)
Lemma fired_lookup s s' k pc' : callers s' = callers s ∨ callers s' = fire_waiter <$> callers s → callers s' !! k = Some pc' →
  ∃ pc, callers s !! k = Some pc ∧ (pc' = pc ∨ pc' = fire_waiter pc).
Proof.
  intros [-> | ->]; [eauto|]. rewrite lookup_fmap. intros (pc & ? & ->)%fmap_Some. eauto.
Qed.

Section caller.
Context (calm : bool) (s : sys) (k : nat) (pc : caller_pc) (HI : Inv calm s) (Hk : callers s !! k = Some pc).
Definition put_call (r : option caller_pc) (s' : sys) : sys :=
  set_callers (match r with Some pc => <[k := pc]> (callers s') | None => delete k (callers s') end)
    (set_running (match r with Some pc => if suspended pc then None else Some k | None => None end) s').
Lemma put_call_sum r s' g : callers s' = callers s ∨ callers s' = fire_waiter <$> callers s →
  sum (put_call r s') g = sum s' g - caller_weight pc g + result_weight r g.
Proof.
  intros Hc. assert (∃ pc', callers s' !! k = Some pc' ∧ caller_weight pc' g = caller_weight pc g) as (pc' & Hk' & <-).
  { destruct Hc as [-> | ->]; [eauto|]. exists (fire_waiter pc). by rewrite lookup_fmap, Hk, fire_weight. }
  unfold put_call. destruct r as [pc2|]; [by rewrite (sum_insert_caller _ _ pc')|]. cbn. rewrite (sum_delete_caller _ _ pc') by done. lia.
Qed.
Lemma put_call_inv r s' : caller_post calm s pc r s' → Inv calm (put_call r s').
Proof.
  intros [HW HB' HG' Hc Hrun Hw Ht Hok Hf]. set (s2 := put_call r s').
  assert (Bal calm s2 nil_weight) as HB2.
  { apply (bal_actors calm s' _ (λ g, result_weight r g - caller_weight pc g)); try done; intros; unfold s2; rewrite put_call_sum by done; unfold nil_weight; cbn; lia. }
  assert (weak s' s2) as HW2 by (by constructor). assert (weak s s2) as HWs by (by eapply weak_trans).
  assert (∀ k' pc', callers s2 !! k' = Some pc' → (k' = k ∧ r = Some pc') ∨ (k' ≠ k ∧ callers s' !! k' = Some pc')) as Hcs.
  { intros k' pc'. unfold s2, put_call. destruct r as [pc2|]; cbn; [intros [[<- <-]|[? ?]]%lookup_insert_Some|intros [? ?]%lookup_delete_Some]; auto. }
  constructor.
  - done.
  - intros k' w Hk'. destruct (Hw k' w Hk') as [Hold|Hnew]; [apply (worker_ok_weak s); [done|by eapply i_workers]|by apply (worker_ok_weak s')].
  - intros k' pc' Hpc'. destruct (Hcs _ _ Hpc') as [[-> ->]|[Hne Hk']]; [by apply (caller_ok_weak s')|].
    destruct (fired_lookup s s' k' pc' Hc Hk') as (pc0 & Hpc0 & Hor).
    assert (caller_ok s pc') as Hok0 by (destruct Hor as [-> | ->]; [|apply fire_ok]; by eapply i_callers).
    assert (is_rotating pc' = is_rotating pc0) as Er by (destruct Hor as [-> | ->]; [done|apply fire_rotating]).
    apply (caller_ok_weak s); [done| |done]. intros Hrot. rewrite Er in Hrot. apply Ht.
    + apply not_true_is_false. intros Hrp. pose proof (rotating_alone calm s k pc k' pc0 (i_bal _ _ HI) Hk Hpc0 Hne Hrp). congruence.
    + destruct r as [pc2|]; [|done]. cbn. apply not_true_is_false. intros Hrp.
      assert (callers s2 !! k = Some pc2) as Hk2 by (unfold s2; cbn; by rewrite lookup_insert_eq).
      pose proof (rotating_alone calm s2 k pc2 k' pc' HB2 Hk2 Hpc' Hne Hrp). congruence.
  - intros _. destruct HG'. by constructor.
  - intros k' pc' Hpc' Hfree. assert (object s2 = object s) as -> by (by rewrite (wk_object _ _ HWs)).
    assert (∃ k0 pc0, callers s !! k0 = Some pc0 ∧ is_free pc0 = true ∧ k0 = k') as (k0 & pc0 & Hk0 & Hf0 & ->).
    { destruct (Hcs _ _ Hpc') as [[-> ->]|[Hne Hk']]; [exists k, pc; auto|].
      destruct (fired_lookup s s' k' pc' Hc Hk') as (pc0 & Hpc0 & [-> | ->]); rewrite ?fire_free in Hfree; eauto. }
    destruct (i_free _ _ HI _ _ Hk0 Hf0) as [Ho Halone]. split; [done|]. intros k2 [pc2 Hk2].
    apply Halone. destruct (Hcs _ _ Hk2) as [[-> _]|[_ Hk']]; [by eexists|].
    destruct (fired_lookup s s' k2 pc2 Hc Hk') as (pc3 & ? & _). by eexists.
Qed.

(** The last reference is the one that free drops. *)
Lemma last_caller : pc = CFree → ref_count (pool s) = 1 → (∀ k' w, workers s !! k' = Some w → False) ∧ ∀ g, g ≠ GRefs → sum s g = 0.
Proof.
  intros -> Hr. destruct (i_free _ _ HI _ _ Hk eq_refl) as [Ho Halone]. pose proof (b_refs _ _ _ (i_bal _ _ HI)) as Hrc. unfold nil_weight in Hrc.
  rewrite Ho, Hr in Hrc. cbn in Hrc.
  assert (total (λ pc, caller_weight pc GRefs) (callers s) = 1) as Hc.
  { rewrite (totals_delete _ (callers s) k CFree) by done. rewrite total_zero; [done|]. intros k' pc' [Hne Hk']%lookup_delete_Some.
    destruct Hne. symmetry. apply Halone. by eexists. }
  assert (∀ k' w, workers s !! k' = Some w → False) as Hw.
  { intros k' w Hk'. unfold sum in Hrc. rewrite Hc in Hrc. assert (worker_weight w GRefs ≤ total (λ w, worker_weight w GRefs) (workers s)) as H2.
    { apply (total_ge (λ w, worker_weight w GRefs) _ k' w); [intros; apply worker_weight_nonneg|done]. }
    change (worker_weight w GRefs) with 1 in H2. lia. }
  split; [done|]. intros g Hg. unfold sum. rewrite (totals_delete _ (callers s) k CFree) by done. rewrite !total_zero.
  - by destruct g.
  - intros k' pc' [Hne Hk']%lookup_delete_Some. destruct Hne. symmetry. apply Halone. by eexists.
  - intros k' w Hk'. by destruct (Hw k' w).
Qed.
End caller.
Lemma free_inv calm s k e : Inv calm s → callers s !! k = Some CFree → (calm = true → ref_count (pool s) = 1 → ∀ c ch, task_channel (pool s) = Some c → channels s !! c = Some ch → queue ch = []) →
  wp (caller_step k e CFree) (λ r s', Inv calm (put_call k r s')) s.
Proof.
  intros HI Hk Hq. destruct (caller_alive calm s k CFree (i_bal _ _ HI) Hk (i_callers _ _ HI _ _ Hk)) as [Hd Hr]. pose proof (i_globals _ _ HI Hd) as HG.
  destruct (i_free _ _ HI _ _ Hk eq_refl) as [Ho Halone].
  cbn [caller_step]. rewrite wp_bind. unfold finish.
  assert (∀ s', actors_kept s s' → Bal calm s' (λ g, - d_refs g) → (∀ k' w, workers s' !! k' = Some w → worker_ok s' w) →
    (destroyed (pool s') = false → globals s') →
    wp (modify (λ s, set_results (results s ++ [(k, RetDone)]) s);; mret None) (λ r s', Inv calm (put_call k r s')) s') as Hend.
  { intros s' HA HB' Hw HG'. rewrite wp_bind, wp_modify, wp_ret. set (s2 := set_results _ s').
    assert (callers s2 = callers s) as Ec by (apply HA). assert (weak s' s2) as HW by (by constructor).
    assert (∀ k' pc', callers (put_call k None s2) !! k' = Some pc' → False) as Hnone.
    { intros k' pc'. cbn. rewrite (ak_callers _ _ HA). intros [Hne Hk']%lookup_delete_Some. destruct Hne. symmetry. apply Halone. by eexists. }
    constructor.
    - apply (bal_actors calm s' _ (λ g, - d_refs g)); try done; intros; rewrite (put_call_sum s k CFree Hk) by (by left); change (sum s2) with (sum s'); unfold nil_weight; cbn; try lia.
      destruct g; cbn; done || lia.
    - intros k' w Hk'. apply (worker_ok_weak s'); [by constructor|by eapply Hw].
    - intros k' pc' Hk'. by destruct (Hnone k' pc').
    - intros Hd'. destruct (HG' Hd'). by constructor.
    - intros k' pc' Hk'. by destruct (Hnone k' pc'). }
  apply (wp_pool_delref calm); try done; [apply HI| | | |].
  - intros E. by eapply last_caller.
  - intros ??. by apply Hq.
  - intros Hne s' -> HB'. apply Hend; [by constructor|done| |].
    + intros k' w Hk'. apply (worker_ok_weak s); [by constructor|by eapply i_workers].
    + intros _. destruct HG. constructor; try done. cbn. lia.
  - intros E s' HA HB' Hd' _. apply Hend; [done|done| |congruence].
    intros k' w. rewrite (ak_workers _ _ HA). intros Hk'. by destruct (proj1 (last_caller calm s k CFree HI Hk eq_refl E) k' w).
Qed.

(** *** Every operation *)
Definition calm_op (op : pool_op) (s : sys) : bool :=
  match op with
  | PWorker k e => match workers s !! k with Some w => calm_answer w e | None => true end
  | _ => true
  end.
(** The operation drops a reference to the pool. *)
Definition drops (op : pool_op) (s : sys) : bool :=
  match op with
  | PWorker k _ => match w_pc <$> workers s !! k with Some WDelref => true | _ => false end
  | PCaller k _ => match callers s !! k with Some CFree => true | _ => false end
  | _ => false
  end.
Definition emptied_before (s : sys) : Prop :=
  ref_count (pool s) = 1 → ∀ c ch, task_channel (pool s) = Some c → channels s !! c = Some ch → queue ch = [].

Lemma start_call_weight c g : caller_weight (start_call c) g = match c, g with Free, GRefs => 1 | _, _ => 0 end.
Proof. by destruct c, g. Qed.
Lemma call_inv calm s k c : Inv calm s → enabled (PCall k c) s = true → wp (run_op (PCall k c)) (λ _ s', Inv calm s') s.
Proof.
  intros HI He. cbn in He. rewrite !andb_true_iff, !bool_decide_eq_true in He. destruct He as (((Hrun & Ho) & Hk) & Hc).
  cbn [run_op]. unfold put_caller. rewrite wp_bind, wp_modify. set (s1 := set_callers _ _).
  assert (∀ b, (b = true ∧ c ≠ Free ∨ b = false ∧ c = Free ∧ callers s = ∅) → Inv calm (set_object b s1)) as Hinv.
  { intros b Hb. set (s2 := set_object b s1). assert (∀ g, sum s2 g = sum s g + caller_weight (start_call c) g) as Hsum.
    { intros g. change (sum s2 g) with (sum s1 g). unfold s1. by rewrite sum_new_caller. }
    assert (∀ k' pc, callers s2 !! k' = Some pc → (k' = k ∧ pc = start_call c) ∨ (c ≠ Free ∧ callers s !! k' = Some pc)) as Hcs.
    { intros k' pc. cbn. intros [[<- <-]|[Hne Hk']]%lookup_insert_Some; [by left|right].
      destruct Hb as [[_ ?]|(_ & _ & E)]; [done|]. by rewrite E, lookup_empty in Hk'. }
    constructor.
    - apply (bal_actors calm s s2 nil_weight nil_weight); try done; [apply HI|..]; intros; rewrite Hsum, start_call_weight; unfold nil_weight.
      + cbn. rewrite Ho. destruct Hb as [[-> Hc']|(-> & -> & _)]; [|cbn; lia]. destruct c; done || (cbn; lia).
      + destruct c; destruct g; done || lia.
    - intros k' w Hw. destruct (i_workers _ _ HI _ _ Hw) as []. by constructor.
    - intros k' pc Hpc. destruct (Hcs _ _ Hpc) as [[-> ->]|[Hne Hk']].
      + constructor; [by destruct c| | | |]; try (by destruct c); cbn; [destruct Hb as [[-> _]|(_ & -> & _)]; [by left|by right]|].
        intros Hg. destruct c; try done; by rewrite Hg in Hc.
      + destruct (i_callers _ _ HI _ _ Hk') as []. constructor; try done. destruct Hb as [[-> _]|(_ & ? & _)]; [by left|done].
    - intros Hd. destruct (i_globals _ _ HI Hd). by constructor.
    - intros k' pc Hpc Hf. destruct (Hcs _ _ Hpc) as [[-> ->]|[Hne Hk']].
      + assert (c = Free) as -> by (by destruct c). destruct Hb as [[_ ?]|(-> & _ & E)]; [done|]. split; [done|].
        intros k2 [pc2 Hk2]. by destruct (Hcs _ _ Hk2) as [[-> _]|[? _]].
      + destruct (i_free _ _ HI _ _ Hk' Hf). congruence. }
  destruct c; [rewrite wp_ret..|rewrite wp_modify|rewrite wp_ret]; try (apply (Hinv false); right; split_and!; (done || by apply bool_decide_eq_true in Hc));
    replace s1 with (set_object true s1) by (unfold s1; rewrite <- Ho; by destruct s); apply (Hinv true); by left.
Qed.
Lemma cancel_task_inv calm s i : Inv calm s → is_Some (states s !! i) → wp (run_op (PCancelTask i)) (λ _ s', Inv calm s') s.
Proof.
  intros HI [st Hst]. cbn [run_op]. rewrite wp_bind, wp_get, wp_bind, (wp_defined _ st) by done. unfold put_state. rewrite wp_modify.
  assert (quiet s (set_states (<[i := set_cancel_flag true st]> (states s)) s)) as HQ by (by apply (put_state_quiet s i st)).
  pose proof (quiet_stable _ _ HQ) as HS. constructor.
  - apply (bal_put_state calm s nil_weight nil_weight i st); try done; [apply HI|by left|cbn; unfold nil_weight; lia|cbn; unfold nil_weight; lia].
  - intros k w Hw. eapply worker_ok_stable; [done|]. by eapply i_workers.
  - intros k pc Hpc. eapply caller_ok_stable; [done|]. by eapply i_callers.
  - intros Hd. eapply globals_stable; [done|]. by apply (i_globals _ _ HI).
  - exact (i_free _ _ HI).
Qed.

(** *** The owner's thread ends *)

(** What the worker may still use is the pool's. *)
Definition homed (p : async_thread_pool_t) (w : worker_t) : bool :=
  let at_home c := bool_decide (task_channel p = Some c) || bool_decide (orphan_old p = Some c) in
  (negb (receives (w_pc w)) || at_home (w_channel w)) &&
  match w_pc w with
  | WRecord _ c | WFailing _ _ _ (CloseChannel c | DrainPop c | DrainTask c _) => at_home c
  | WLoadOld m | WSendToken m => bool_decide (orphan_notify p = Some m)
  | _ => true
  end.
(** The owner's thread ends while a worker refers to a channel that the pool has let go of. *)
Definition strands (op : pool_op) (s : sys) : bool :=
  match op with
  | POwnerExit => negb (bool_decide (map_Forall (λ _ w, homed (pool s) w = true) (workers s)))
  | _ => false
  end.
(** The step puts a worker past the end of the array of workers. *)
Definition overruns (op : pool_op) (s : sys) : bool :=
  match op with
  | PCaller k e => match callers s !! k with Some pc => overruns_at (pool s) e pc | None => false end
  | _ => false
  end.

Section exit.
Context (calm : bool) (s : sys) (HB : Bal calm s nil_weight) (Hown : owner_gone s = false).
Definition owner_exit : sys :=
  set_owner_gone true (set_channels ((λ ch, set_chan_closed true (set_chan_refs (chan_refs ch - 1) ch)) <$> channels s)
    (set_notifies ((λ n, set_n_closed true (set_n_refs (n_refs n - 1) n)) <$> notifies s) s)).
Lemma wp_close_owned (Φ : unit → sys → Prop) : Φ tt owner_exit → wp (run_op POwnerExit) Φ s.
Proof.
  intros HΦ. cbn [run_op]. unfold async_thread_channel_close_owned. rewrite wp_bind, wp_bind, wp_get, wp_bind, wp_assert. split.
  { apply bool_decide_eq_true. intros c ch Hc. eapply (bal_chan_refs calm s nil_weight); [done|done|by left|done]. }
  rewrite wp_bind, wp_assert. split; [|by rewrite !wp_modify].
  apply bool_decide_eq_true. intros m n Hm. pose proof (b_notify _ _ _ HB m) as Hr. rewrite Hm in Hr. unfold nil_weight in Hr.
  assert (notify_grip s m) as Hg%notify_grip_registry by (by left). pose proof (sum_nonneg s (GNotify m) ltac:(done)). lia.
Qed.
Lemma exit_bal : Bal calm owner_exit nil_weight.
Proof.
  assert (∀ g, sum owner_exit g = sum s g) as Es by done.
  assert (∀ i, queued owner_exit i = queued s i) as Eq by (intros i; unfold queued; cbn; by rewrite (total_fmap (λ ch, occ i (queue ch)))).
  pose proof HB as []. unfold nil_weight in *. constructor; intros; rewrite ?Es, ?Eq; try done; try (by eauto).
  - apply b_snap.
  - apply b_sub.
  - cbn. rewrite (total_fmap (λ ch, Z.of_nat (length (queue ch)))) by done. exact b_pending.
  - specialize (b_chan c). unfold owned, registry in *. rewrite Hown in b_chan. cbn. rewrite lookup_fmap. destruct (channels s !! c); cbn in *; lia.
  - specialize (b_notify m). unfold parked, registry in *. rewrite Hown in b_notify. cbn. rewrite lookup_fmap. destruct (notifies s !! m); cbn in *; lia.
Qed.
Lemma exit_chan c : chan_known s c → bool_decide (task_channel (pool s) = Some c) || bool_decide (orphan_old (pool s) = Some c) = true → chan_known owner_exit c.
Proof.
  intros [Hc _] Ho. split; [cbn; rewrite lookup_fmap; by apply fmap_is_Some|right]. unfold owned. cbn.
  apply orb_true_iff in Ho as [-> | ->]; destruct (bool_decide _); cbn; lia.
Qed.
Lemma exit_worker_ok w : worker_ok s w → homed (pool s) w = true → worker_ok owner_exit w.
Proof.
  intros [] [Hr Hp]%andb_true_iff. constructor; [|clear wk_channel|done|done].
  - intros E. rewrite E in Hr. apply exit_chan; auto.
  - destruct (w_pc w); try done; try (by apply exit_chan).
    + destruct wk_pc as [Hrt Hh]. split; [|done]. destruct rt; try done; [by apply exit_chan|..]; (destruct Hrt; split; [by apply exit_chan|done]).
    + destruct wk_pc as [? _]. split; [cbn; rewrite lookup_fmap; by apply fmap_is_Some|right]. by apply bool_decide_eq_true in Hp.
    + destruct wk_pc as [? _]. split; [cbn; rewrite lookup_fmap; by apply fmap_is_Some|right]. by apply bool_decide_eq_true in Hp.
Qed.
End exit.
(** No rotation is published once no call is left. *)
Lemma unpublished calm s : Bal calm s nil_weight → callers s = ∅ → reload_notify (pool s) = None.
Proof.
  intros HB Hc. pose proof (b_published _ _ _ HB) as Hp. unfold nil_weight, sum in Hp. rewrite Hc, total_empty, total_zero in Hp by done.
  destruct (reload_notify (pool s)); [by cbn in Hp|done].
Qed.
Lemma owner_exit_inv calm s : Inv calm s → enabled POwnerExit s = true → strands POwnerExit s = false →
  wp (run_op POwnerExit) (λ _ s', Inv calm s') s.
Proof.
  intros HI He Hs. cbn in He. rewrite !andb_true_iff, !bool_decide_eq_true, negb_true_iff in He. destruct He as ((_ & Hc) & Hown).
  apply negb_false_iff, bool_decide_eq_true in Hs. pose proof (i_bal _ _ HI) as HB. apply (wp_close_owned calm); [done..|]. constructor.
  - by apply exit_bal.
  - intros k w Hw. apply exit_worker_ok; [by eapply i_workers|by eapply Hs].
  - intros k pc Hpc. cbn in Hpc. by rewrite Hc, lookup_empty in Hpc.
  - intros Hd. destruct (i_globals _ _ HI Hd). constructor; [|done]. intros m. cbn. by rewrite (unpublished calm s).
  - intros k pc Hpc. cbn in Hpc. by rewrite Hc, lookup_empty in Hpc.
Qed.
(** What is left out: a step that overruns the array, and an exit that leaves stragglers. *)
Definition sound (op : pool_op) (s : sys) : Prop := overruns op s = false ∧ strands op s = false.
Lemma pool_op_inv calm s op : Inv calm s → enabled op s = true → sound op s → (calm = true → calm_op op s = true) →
  (calm = true → drops op s = true → emptied_before s) → wp (run_op op) (λ _ s', Inv calm s') s.
Proof.
  intros HI He [Hov Hst] Hc Hq. destruct op as [k c|k e|k e|k i e|k i|i|].
  - by apply call_inv.
  - cbn [run_op]. unfold enabled in He. destruct (callers s !! k) as [pc|] eqn:Hk; [|done]. apply andb_true_iff in He as [_ He].
    rewrite wp_bind, wp_get, wp_bind, (wp_defined _ pc), wp_bind by done. unfold put_caller.
    assert (pc = CFree ∨ pc ≠ CFree) as [->|Hne] by (destruct pc; auto).
    + eapply wp_mono; [eapply (free_inv calm s k e HI Hk)|].
      * intros Hcalm. apply Hq; [done|]. cbn. by rewrite Hk.
      * intros r s' HI'. by rewrite wp_modify.
    + assert (destroyed (pool s) = false) as Hd by (eapply (caller_alive calm s k pc); [apply HI|done|by eapply i_callers]).
      apply (wp_caller calm); try done; [apply HI|by eapply i_callers|by apply (i_globals _ _ HI)| |].
      * cbn in Hov. rewrite Hk in Hov. destruct pc; try done; cbn; [by apply bool_decide_eq_true in He| |by apply bool_decide_eq_true in He].
        by rewrite andb_true_iff, !bool_decide_eq_true in He.
      * intros r s' HP. rewrite wp_modify. by apply (put_call_inv calm s k pc).
  - cbn [run_op]. unfold enabled in He. destruct (workers s !! k) as [w|] eqn:Hk; [|done].
    rewrite wp_bind, wp_get, wp_bind, (wp_defined _ w), wp_bind by done. unfold put_worker.
    assert (w_pc w = WDelref ∨ w_pc w ≠ WDelref) as [Hpc|Hne] by (destruct (w_pc w); auto).
    + unfold_handler. rewrite Hpc, wp_bind. eapply wp_mono; [eapply (delete_worker_inv calm s k w HI Hk Hpc)|].
      * intros Hcalm. apply Hq; [done|]. cbn. rewrite Hk. cbn. by rewrite Hpc.
      * intros [] s' HI'. by rewrite wp_ret, wp_modify.
    + destruct (worker_alive calm s k w (i_bal _ _ HI) Hk) as [Hd _].
      apply (wp_worker calm s k w); try done; [apply HI|by eapply i_workers|apply (i_globals _ _ HI Hd)|unfold calm_op in Hc; by rewrite Hk in Hc|].
      intros [w'|] s' HP; [|done]. rewrite wp_modify. by apply (put_worker_inv calm s k w).
  - cbn [run_op]. unfold enabled in He. destruct (workers s !! k) as [w|] eqn:Hk; [|done]. apply bool_decide_eq_true in He.
    rewrite wp_bind, wp_get, wp_bind, (wp_defined _ w), wp_bind by done. unfold put_worker.
    apply (wp_task_end calm s k w); try done; [apply HI|by eapply i_workers|].
    intros [w'|] s' HP; [|done]. rewrite wp_modify. by apply (put_worker_inv calm s k w).
  - cbn [run_op]. unfold enabled in He. destruct (workers s !! k) as [w|] eqn:Hk; [|done]. apply andb_true_iff in He as [He _]. apply bool_decide_eq_true in He.
    rewrite wp_bind, wp_get, wp_bind, (wp_defined _ w), wp_bind by done. unfold put_worker.
    apply (wp_teardown calm s k w); try done; [apply HI|by eapply i_workers|].
    intros [w'|] s' HP; [|done]. rewrite wp_modify. by apply (put_worker_inv calm s k w).
  - apply cancel_task_inv; [done|]. cbn in He. by apply bool_decide_eq_true in He.
  - by apply owner_exit_inv.
Qed.
