(* ===== verification/ThreadPoolServing.v ===== *)
(** * Who serves the tasks of the thread pool

    While nobody reloads the pool and no worker is at the limit of its coroutines, a worker
    leaves the pool only when the channel is closed and empty, or after it has drained it.
    So the last worker leaves no task behind: [served] is that invariant. *)

From stdpp Require Import fin_maps tactics.
From S2P Require Import Prelude ThreadPool ThreadPoolProofs ThreadPoolSteps ThreadPoolCalls ThreadPoolReload ThreadPoolInvariant.

Local Open Scope Z_scope.

(** ** What holds after a computation that ends *)
Definition post {A} (m : PM A) (P : A → sys → Prop) (s : sys) : Prop := ∀ a s', m s = Some (a, s') → P a s'.
Section post.
Context {A B : Type}.
Implicit Types (P : A → sys → Prop).
Lemma post_bind (m : PM B) (k : B → PM A) P s : post m (λ b, post (k b) P) s → post (m ≫= k) P s.
Proof. intros Hm a s' H. unfold mbind, M_bind in H. destruct (m s) as [[b s1]|] eqn:E; [|done]. by eapply Hm. Qed.
Lemma post_ret (a : A) P s : P a s → post (mret a) P s.
Proof. by intros HP a' s' [= <- <-]. Qed.
Lemma post_undefined P s : post (undefined : PM A) P s.
Proof. by intros a s'. Qed.
Lemma post_option (o : option A) P s : (∀ a, o = Some a → P a s) → post (of_option o) P s.
Proof. intros HP a s' H. unfold of_option in H. apply fmap_Some in H as (b & ? & [= -> ->]). auto. Qed.
Lemma post_mono (m : PM A) P Q s : post m P s → (∀ a s', P a s' → Q a s') → post m Q s.
Proof. intros Hm HQ a s' H. apply HQ. by apply Hm. Qed.
End post.
Lemma post_get (P : sys → sys → Prop) s : P s s → post (get : PM sys) P s.
Proof. by intros HP a s' [= <- <-]. Qed.
Lemma post_modify (f : sys → sys) (P : unit → sys → Prop) s : P tt (f s) → post (modify f) P s.
Proof. by intros HP [] s' [= <-]. Qed.
Lemma post_assert b (P : unit → sys → Prop) s : (b = true → P tt s) → post (ZEND_ASSERT b) P s.
Proof. intros HP [] s' H. unfold ZEND_ASSERT in H. destruct b; [|done]. injection H as <-. auto. Qed.
Lemma post_when (b : bool) (m : PM unit) (P : unit → sys → Prop) s : (if b then post m P s else P tt s) → post (when b m) P s.
Proof. destruct b; [done|]. by apply post_ret. Qed.

(** The fields that matter to who serves. *)
Record kept (s s' : sys) : Prop := {
  k_task : task_channel (pool s') = task_channel (pool s);
  k_mode : coroutine_mode (pool s') = coroutine_mode (pool s);
  k_conc : concurrency (pool s') = concurrency (pool s);
  k_closed : closed (pool s') = closed (pool s);
  k_channels : channels s' = channels s;
  k_workers : workers s' = workers s;
  k_callers : callers s' = callers s;
  k_running : running s' = running s;
  k_object : object s' = object s;
  k_destroyed : destroyed (pool s') = destroyed (pool s);
  k_lost : lost s' = lost s
}.
Lemma kept_refl s : kept s s.
Proof. by constructor. Qed.
Lemma kept_trans s1 s2 s3 : kept s1 s2 → kept s2 s3 → kept s1 s3.
Proof. intros [] []. constructor; congruence. Qed.

Lemma post_get_pool (P : async_thread_pool_t → sys → Prop) s : P (pool s) s → post get_pool P s.
Proof. intros HP. unfold get_pool. apply post_bind, post_get, post_bind, post_assert. intros _. by apply post_ret. Qed.
Lemma post_upd_pool f (P : unit → sys → Prop) s : P tt (set_pool (f (pool s)) s) → post (upd_pool f) P s.
Proof. intros HP. unfold upd_pool. apply post_bind, post_get_pool. by apply post_modify. Qed.
Lemma post_get_chan c (P : chan_t → sys → Prop) s : (∀ ch, channels s !! c = Some ch → P ch s) → post (get_chan c) P s.
Proof. intros HP. unfold get_chan. apply post_bind, post_get, post_bind, post_option. intros ch Hch. apply post_bind, post_assert. intros _. apply post_ret. auto. Qed.
Lemma post_get_notify m (P : notify_t → sys → Prop) s : (∀ n, notifies s !! m = Some n → P n s) → post (get_notify m) P s.
Proof. intros HP. unfold get_notify. apply post_bind, post_get, post_bind, post_option. intros n Hn. apply post_bind, post_assert. intros _. apply post_ret. auto. Qed.
Lemma post_get_state i (P : state_t → sys → Prop) s : (∀ st, states s !! i = Some st → P st s) → post (get_state i) P s.
Proof. intros HP. unfold get_state. apply post_bind, post_get, post_bind, post_option. intros st Hst. apply post_bind, post_assert. intros _. apply post_ret. auto. Qed.

(** What leaves those fields alone. *)
Definition aside (m : PM unit) : Prop := ∀ s, post m (λ _ s', kept s s') s.
Lemma aside_pool f : (∀ p, control (set_live_workers 0 (set_reload_old None (set_reload_notify None (set_cancel_requested false (f p))))) =
  control (set_live_workers 0 (set_reload_old None (set_reload_notify None (set_cancel_requested false p))))) → aside (upd_pool f).
Proof.
  intros Hf s. apply post_upd_pool. specialize (Hf (pool s)).
  pose proof (f_equal task_channel Hf). pose proof (f_equal destroyed Hf). pose proof (f_equal coroutine_mode Hf). pose proof (f_equal concurrency Hf). pose proof (f_equal closed Hf). by constructor.
Qed.
Lemma aside_put_state i st : aside (put_state i st).
Proof. intros s. apply post_modify. by constructor. Qed.
Lemma aside_bind m1 (m2 : PM unit) : aside m1 → aside m2 → aside (m1;; m2).
Proof.
  intros H1 H2 s. apply post_bind. eapply post_mono; [apply H1|]. intros [] s1 Hk. eapply post_mono; [apply H2|]. intros [] s2. by apply kept_trans.
Qed.
Lemma aside_when b m : aside m → aside (when b m).
Proof. intros Hm s. apply post_when. destruct b; [apply Hm|apply kept_refl]. Qed.
Lemma aside_settle i a : aside (async_future_shared_state_settle i a).
Proof. intros s. unfold async_future_shared_state_settle. apply post_bind, post_get_state. intros st _. apply aside_put_state. Qed.
Lemma aside_settle_if_any i a : aside (settle_if_any i a).
Proof. destruct a; [apply aside_settle|]. intros s. apply post_ret, kept_refl. Qed.
Lemma aside_delref i : aside (async_future_shared_state_delref i).
Proof. intros s. unfold async_future_shared_state_delref. apply post_bind, post_get_state. intros st _. apply aside_put_state. Qed.
Lemma aside_snapshot i : aside (async_thread_snapshot_destroy i).
Proof. intros s. unfold async_thread_snapshot_destroy. apply post_bind, post_get, post_bind, post_option. intros st _. apply post_bind, post_assert. intros _. apply aside_put_state. Qed.
Lemma aside_release i : aside (release_task i).
Proof.
  intros s. unfold release_task. apply post_bind, post_get_state. intros st _.
  apply (aside_bind (when _ _)); [apply aside_when, aside_snapshot|apply aside_delref].
Qed.
Lemma aside_record c r : aside (thread_pool_record_bootloader_error c r).
Proof.
  intros s. unfold thread_pool_record_bootloader_error. apply post_bind, post_get_chan. intros _ _.
  apply aside_pool. intros p. by destruct (bootloader_error p).
Qed.
#[local] Create HintDb aside.
#[local] Hint Resolve aside_settle aside_settle_if_any aside_delref aside_snapshot aside_release aside_record : aside.
#[local] Hint Extern 0 (aside pending_dec) => by apply aside_pool : aside.
#[local] Hint Extern 0 (aside pending_inc) => by apply aside_pool : aside.
#[local] Hint Extern 0 (aside running_inc) => by apply aside_pool : aside.
#[local] Hint Extern 0 (aside task_over) => by apply aside_pool : aside.
Lemma post_aside m (P : unit → sys → Prop) s : aside m → (∀ s', kept s s' → P tt s') → post m P s.
Proof. intros Hm HP. eapply post_mono; [apply Hm|]. intros []. auto. Qed.

(** Runs a computation symbolically. *)
Ltac walk1 :=
  lazymatch goal with
  | |- post (_ ≫= _) _ _ => apply post_bind
  | |- post (mret _) _ _ => apply post_ret
  | |- post (goto _ _) _ _ => unfold goto; apply post_ret
  | |- post (next _) _ _ => unfold next; apply post_ret
  | |- post undefined _ _ => apply post_undefined
  | |- post get _ _ => apply post_get
  | |- post get_pool _ _ => apply post_get_pool
  | |- post (get_chan _) _ _ => apply post_get_chan; intros ? ?
  | |- post (get_state _) _ _ => apply post_get_state; intros ? ?
  | |- post (get_notify _) _ _ => apply post_get_notify; intros ? ?
  | |- post (put_chan _ _) _ _ => unfold put_chan; apply post_modify
  | |- post (put_state _ _) _ _ => unfold put_state; apply post_modify
  | |- post (put_notify _ _) _ _ => unfold put_notify; apply post_modify
  | |- post (modify _) _ _ => apply post_modify
  | |- post (of_option _) _ _ => apply post_option; intros ? ?
  | |- post (ZEND_ASSERT _) _ _ => apply post_assert; intros ?
  | |- post (finish _ _) _ _ => unfold finish
  | |- post (if ?b then _ else _) _ _ => destruct b eqn:?
  | |- post (match ?x with _ => _ end) _ _ => destruct x eqn:?
  | |- post _ _ _ => first [apply post_aside; [solve [eauto with aside]|intros ? ?]|apply post_upd_pool]
  end.
Ltac walk := repeat walk1.

(** ** Serving *)

(** The worker will look at the channel again before it leaves. *)
Definition serving (w : worker_t) : bool :=
  match w_pc w with WReturn | WAfterMain | WExit | WLoadNotify | WLoadOld _ | WSendToken _ | WDelref => false | _ => true end.
Definition closing_routine (rt : routine) : bool := match rt with CloseLoad | CloseChannel _ => true | _ => false end.
Definition past_store (rt : routine) : bool := match rt with CloseCheck | CloseStore => false | _ => true end.
Definition failing_past (pc : worker_pc) : bool := match pc with WFailing _ _ _ rt => past_store rt | _ => false end.
Definition routine_channel (rt : routine) : Prop := match rt with CloseChannel c | DrainPop c | DrainTask c _ => c = 0%nat | _ => True end.
Definition closing (w : worker_t) : bool := closing_routine (pc_routine (w_pc w)).
Definition caller_routine (pc : caller_pc) : routine := match pc with CShut _ rt => rt | _ => RoutineDone end.
Definition closing_call (pc : caller_pc) : bool := closing_routine (caller_routine pc).
(** Calls other than reload. *)
Definition plain_call (pc : caller_pc) : bool :=
  match pc with CSubmit _ | CSubmitLive _ | CLoadChannel _ | CSend _ _ | CCount _ | CCancelFlag | CShut _ _ | CFree => true | _ => false end.
Definition call_past (pc : caller_pc) : bool := match pc with CShut _ rt => past_store rt | _ => false end.
Definition call_channel (pc : caller_pc) : Prop := match pc with CSend _ c => c = 0%nat | CShut _ rt => routine_channel rt | _ => True end.

Definition no_limit (p : async_thread_pool_t) : bool := negb (coroutine_mode p) || (concurrency p <=? 0).
Record worker_served (s : sys) (w : worker_t) : Prop := {
  ws_channel : w_channel w = 0%nat;
  ws_routine : routine_channel (pc_routine (w_pc w));
  ws_past : failing_past (w_pc w) = true → closed (pool s) = true
}.
Record call_served (s : sys) (k : nat) (pc : caller_pc) : Prop := {
  cs_plain : plain_call pc = true;
  cs_channel : call_channel pc;
  cs_past : call_past pc = true → closed (pool s) = true;
  cs_runs : suspended pc = false → running s = Some k
}.
Record served (s : sys) : Prop := {
  sv_lost : lost s = [];
  sv_end ch : destroyed (pool s) = true → channels s !! 0%nat = Some ch → queue ch = [];
  sv_only c : is_Some (channels s !! c) → c = 0%nat;
  sv_limit : no_limit (pool s) = true;
  sv_task : destroyed (pool s) = false → task_channel (pool s) = Some 0%nat;
  sv_worker k w : workers s !! k = Some w → worker_served s w;
  sv_call k pc : callers s !! k = Some pc → call_served s k pc;
  sv_chan : is_Some (channels s !! 0%nat);
  sv_server ch : destroyed (pool s) = false → channels s !! 0%nat = Some ch →
    (∃ k w, workers s !! k = Some w ∧ serving w = true) ∨
    (queue ch = [] ∧ (chan_closed ch = true ∨ ∃ k pc, callers s !! k = Some pc ∧ closing_call pc = true));
  sv_closed ch : destroyed (pool s) = false → channels s !! 0%nat = Some ch → closed (pool s) = true →
    chan_closed ch = true ∨ (∃ k w, workers s !! k = Some w ∧ closing w = true) ∨ (∃ k pc, callers s !! k = Some pc ∧ closing_call pc = true)
}.

Lemma only_put (m : gmap nat chan_t) ch c : is_Some (<[0%nat := ch]> m !! c) → c = 0%nat ∨ is_Some (m !! c).
Proof. rewrite lookup_insert_is_Some'. naive_solver. Qed.
#[local] Hint Resolve only_put : core.
(** A step of a worker, as far as serving goes. *)
Record wstep (s : sys) (w : worker_t) (ch : chan_t) (s' : sys) (w' : worker_t) (ch' : chan_t) : Prop := {
  wst_workers : workers s' = workers s;
  wst_lost : lost s' = lost s;
  wst_only c : is_Some (channels s' !! c) → c = 0%nat ∨ is_Some (channels s !! c);
  wst_callers : callers s' = callers s;
  wst_running : running s' = running s;
  wst_task : task_channel (pool s') = task_channel (pool s);
  wst_limit : no_limit (pool s') = no_limit (pool s);
  wst_chan : channels s' !! 0%nat = Some ch';
  wst_chan_closed : chan_closed ch = true → chan_closed ch' = true;
  wst_queue : queue ch = [] → queue ch' = [];
  wst_closed : closed (pool s) = true → closed (pool s') = true;
  wst_new_closed : closed (pool s') = true → closed (pool s) = true ∨ closing w' = true;
  wst_closing : closing w = true → closing w' = true ∨ chan_closed ch' = true;
  wst_serving : serving w = true → serving w' = true ∨
    (queue ch' = [] ∧ (chan_closed ch' = true ∨ closed (pool s') = true ∧ closing w = false));
  wst_served : worker_served s' w'
}.
Lemma closing_serving w : closing w = true → serving w = true.
Proof. unfold closing, serving. by destruct (w_pc w). Qed.
Lemma wstep_served s k w ch s' w' ch' : served s → destroyed (pool s) = false → destroyed (pool s') = false → workers s !! k = Some w → channels s !! 0%nat = Some ch →
  wstep s w ch s' w' ch' → served (set_workers (<[k := w']> (workers s')) s').
Proof.
  intros HS Hd Hd' Hk Hch []. set (s2 := set_workers _ s').
  assert (workers s2 !! k = Some w') as Hk2 by (cbn; by rewrite lookup_insert_eq).
  assert (∀ k0 w0, workers s !! k0 = Some w0 → k0 ≠ k → workers s2 !! k0 = Some w0) as Hother.
  { intros k0 w0 Hw0 Hne. cbn. rewrite wst_workers0. by rewrite lookup_insert_ne. }
  assert (∀ ch2, destroyed (pool s2) = false → channels s2 !! 0%nat = Some ch2 → closed (pool s2) = true →
    chan_closed ch2 = true ∨ (∃ k w, workers s2 !! k = Some w ∧ closing w = true) ∨ (∃ k pc, callers s2 !! k = Some pc ∧ closing_call pc = true)) as Hclosed.
  { intros ch2 _ Hch2 Hc. cbn in Hch2. rewrite wst_chan0 in Hch2. injection Hch2 as <-.
    destruct (wst_new_closed0 Hc) as [Hc0|Hcl]; [|right; left; by exists k, w'].
    destruct (sv_closed _ HS ch Hd Hch Hc0) as [Hcc|[(k0 & w0 & Hw0 & Hcl)|(k0 & pc & Hpc & Hcl)]]; [left; auto| |].
    - destruct (decide (k0 = k)) as [->|Hne]; [|right; left; exists k0, w0; split; [auto|done]].
      rewrite Hk in Hw0. injection Hw0 as <-. destruct (wst_closing0 Hcl) as [?|?]; [right; left; by exists k, w'|by left].
    - right; right. exists k0, pc. cbn. by rewrite wst_callers0. }
  constructor.
  - cbn. rewrite wst_lost0. apply HS.
  - cbn. congruence.
  - intros c Hc. destruct (wst_only0 c Hc); [done|by apply (sv_only _ HS)].
  - cbn. rewrite wst_limit0. apply HS.
  - intros _. cbn. rewrite wst_task0. by apply HS.
  - intros k0 w0. cbn. intros [[<- <-]|[Hne Hw0]]%lookup_insert_Some; [by destruct wst_served0; constructor|].
    rewrite wst_workers0 in Hw0. destruct (sv_worker _ HS _ _ Hw0). constructor; [done..|]. cbn. auto.
  - intros k0 pc. cbn. rewrite wst_callers0. intros Hpc. destruct (sv_call _ HS _ _ Hpc). constructor; [done|done|cbn; auto|]. cbn. by rewrite wst_running0.
  - by exists ch'.
  - intros ch2 _ Hch2. pose proof (Hclosed ch2 Hd' Hch2) as Hcl. cbn in Hch2. rewrite wst_chan0 in Hch2. injection Hch2 as <-.
    destruct (sv_server _ HS ch Hd Hch) as [(k0 & w0 & Hw0 & Hsv)|(Hq & Hor)].
    + destruct (decide (k0 = k)) as [->|Hne]; [|left; exists k0, w0; split; [auto|done]].
      rewrite Hk in Hw0. injection Hw0 as <-. destruct (wst_serving0 Hsv) as [?|(Hq & [?|(Hc & Hncl)])]; [left; by exists k, w'|right; auto|].
      destruct (Hcl Hc) as [?|[(k1 & w1 & Hw1 & Hcl1)|?]]; [right; auto| |right; auto].
      left. exists k1, w1. split; [done|by apply closing_serving].
    + right. split; [auto|]. destruct Hor as [?|?]; [left; auto|right]. cbn. by rewrite wst_callers0.
  - exact Hclosed.
Qed.

(** *** Close and drain *)
Record rstep (s : sys) (rw : option reason) (rt : routine) (ch : chan_t) (s' : sys) (rt' : routine) (ch' : chan_t) : Prop := {
  rst_workers : workers s' = workers s;
  rst_lost : lost s' = lost s;
  rst_only c : is_Some (channels s' !! c) → c = 0%nat ∨ is_Some (channels s !! c);
  rst_callers : callers s' = callers s;
  rst_running : running s' = running s;
  rst_destroyed : destroyed (pool s') = destroyed (pool s);
  rst_task : task_channel (pool s') = task_channel (pool s);
  rst_limit : no_limit (pool s') = no_limit (pool s);
  rst_chan : channels s' !! 0%nat = Some ch';
  rst_chan_closed : chan_closed ch = true → chan_closed ch' = true;
  rst_queue : queue ch = [] → queue ch' = [];
  rst_closed : closed (pool s) = true → closed (pool s') = true;
  rst_new_closed : closed (pool s') = true → closed (pool s) = true ∨ closing_routine rt' = true;
  rst_closing : closing_routine rt = true → closing_routine rt' = true ∨ chan_closed ch' = true;
  rst_past : past_store rt' = true → closed (pool s') = true;
  rst_channel : routine_channel rt';
  rst_done : is_Some rw → rt' = RoutineDone → queue ch' = [] ∧ closing_routine rt = false
}.
Lemma rstep_kept s rw rt ch s' rt' : kept s s' → channels s !! 0%nat = Some ch → closing_routine rt = false → (past_store rt' = true → closed (pool s) = true) →
  routine_channel rt' → (is_Some rw → rt' = RoutineDone → queue ch = []) → rstep s rw rt ch s' rt' ch.
Proof. intros [] Hch Hcl Hp Hr Hd. constructor; try done; try congruence; unfold no_limit; try (by rewrite ?k_mode0, ?k_conc0, ?k_channels0); rewrite ?k_closed0, ?k_channels0; auto. Qed.

Lemma post_routine s rw rt ch : task_channel (pool s) = Some 0%nat → channels s !! 0%nat = Some ch → (past_store rt = true → closed (pool s) = true) →
  routine_channel rt → post (routine_step rw rt) (λ rt' s', ∃ ch', rstep s rw rt ch s' rt' ch') s.
Proof.
  intros Ht Hch Hp Hr. destruct rt as [| | |c| |c|c i|]; cbn [routine_step]; cbn in Hr; try subst c.
  - walk. exists ch. apply rstep_kept; [apply kept_refl|done|done|..]; destruct (closed (pool s)), rw; try done.
  - walk. exists ch. constructor; try done; auto.
  - walk. rewrite Ht. exists ch. constructor; try done; auto.
  - unfold async_thread_channel_close. walk. simplify_eq. exists (set_chan_closed true ch). constructor; cbn; try done; rewrite ?lookup_insert_eq; try done; auto; destruct rw; cbn; try done; intros; try (by apply Hp); try (by eauto).
  - walk. rewrite Ht. exists ch. apply rstep_kept; [apply kept_refl|done|done|..]; try done.
  - walk; simplify_eq.
    + exists ch. by apply rstep_kept.
    + match goal with H : queue ch = _ :: ?q |- _ => exists (set_queue q ch) end. constructor; cbn; try done; rewrite ?lookup_insert_eq; try done; auto; try congruence; by apply only_put.
  - walk. exists ch. apply rstep_kept; [by eapply kept_trans; [|eapply kept_trans]|done|done|..]; try done.
  - walk.
Qed.

(** *** A worker *)
Lemma wstep_kept s w ch s' w' : kept s s' → channels s !! 0%nat = Some ch → worker_served s w → w_channel w' = 0%nat → closing w = false → routine_channel (pc_routine (w_pc w')) →
  (failing_past (w_pc w') = true → closed (pool s) = true) → (serving w = true → serving w' = true ∨ queue ch = [] ∧ chan_closed ch = true) → wstep s w ch s' w' ch.
Proof.
  intros [] Hch [] Hw Hcl Hr Hp Hs. constructor; try done; unfold no_limit; try (by rewrite ?k_mode0, ?k_conc0, ?k_channels0); rewrite ?k_closed0, ?k_channels0; auto; [by rewrite Hcl|naive_solver|].
  constructor; [done..|]. by rewrite k_closed0.
Qed.
(** The worker keeps serving. *)
Lemma wstep_goto s w ch s' pc : kept s s' → channels s !! 0%nat = Some ch → worker_served s w → closing w = false → routine_channel (pc_routine pc) →
  (failing_past pc = true → closed (pool s) = true) → (serving w = true → serving (set_w_pc pc w) = true ∨ queue ch = [] ∧ chan_closed ch = true) →
  ∃ w2 ch', Some (set_w_pc pc w) = Some w2 ∧ wstep s w ch s' w2 ch'.
Proof. intros. eexists _, ch. split; [done|]. apply wstep_kept; try done. by destruct H1. Qed.

Definition worker_goal (s : sys) (w : worker_t) (ch : chan_t) (w' : option worker_t) (s' : sys) : Prop := ∃ w2 ch', w' = Some w2 ∧ wstep s w ch s' w2 ch'.
Lemma post_refuse s w ch i a : channels s !! 0%nat = Some ch → worker_served s w → closing w = false → post (refuse_task w i a) (worker_goal s w ch) s.
Proof.
  intros Hch HW Hcl. unfold refuse_task. walk. apply wstep_goto; try done; [|by left].
  eapply kept_trans; [done|]. by eapply kept_trans.
Qed.
Lemma post_receive s w ch : no_limit (pool s) = true → channels s !! 0%nat = Some ch → worker_served s w → w_pc w = WReceive → post (receive_step w) (worker_goal s w ch) s.
Proof.
  intros Hl Hch HW Hpc. assert (at_limit (pool s) w = false) as Hat.
  { unfold at_limit, no_limit in *. destruct (coroutine_mode _); [|done]. cbn in *. apply Z.leb_le in Hl. destruct (0 <? _) eqn:E; [apply Z.ltb_lt in E; lia|done]. }
  assert (closing w = false) as Hcl by (unfold closing; by rewrite Hpc).
  unfold receive_step. apply post_bind, post_get_pool. rewrite Hat, (ws_channel _ _ HW). walk; simplify_eq.
  - apply wstep_goto; try done. auto.
  - exists w, ch. split; [done|]. apply wstep_kept; try done; [apply HW|apply HW| |by left]. by rewrite Hpc.
  - match goal with H : queue ch = _ :: ?q |- _ => exists (set_w_pc (WTaken n) w), (set_queue q ch) end. split; [done|].
    constructor; cbn; try done; try congruence; auto; [by apply only_put|by rewrite lookup_insert_eq|]. constructor; try done. apply HW.
Qed.
Lemma post_failing s w ch r hand esc rt e : task_channel (pool s) = Some 0%nat → channels s !! 0%nat = Some ch → worker_served s w →
  w_pc w = WFailing r hand esc rt → post (thread_pool_worker_handler w e) (worker_goal s w ch) s.
Proof.
  intros Ht Hch HW Hpc. pose proof HW as [Hc Hr Hp]. rewrite Hpc in Hr, Hp. unfold_handler. rewrite Hpc. apply post_bind.
  eapply post_mono; [by apply (post_routine s (Some r) rt ch)|]. intros rt' s1 (ch' & [] ). assert (closing w = closing_routine rt) as Ecl by (unfold closing; by rewrite Hpc).
  assert (rt' ≠ RoutineDone → worker_goal s w ch (Some (set_w_pc (WFailing r hand esc rt') w)) s1) as Hgo.
  { intros Hne. exists (set_w_pc (WFailing r hand esc rt') w), ch'. split; [done|]. constructor; try done; rewrite ?Ecl; try done; by left. }
  assert (rt' = RoutineDone → ∀ s2, kept s1 s2 → worker_goal s w ch (Some (set_w_pc (if esc then WExit else WReturn) w)) s2) as Hend.
  { intros -> s2 []. exists (set_w_pc (if esc then WExit else WReturn) w), ch'. destruct (rst_done0 ltac:(by eexists) eq_refl) as [Hq Hncl].
    split; [done|]. constructor; try congruence; unfold no_limit in *; try (by rewrite ?k_mode0, ?k_conc0, ?k_channels0); rewrite ?k_closed0, ?k_channels0; auto.
    - intros H. destruct (rst_new_closed0 H); [by left|done].
    - intros _. right. split; [done|]. right. split; [auto|by rewrite Ecl].
    - constructor; [done|by destruct esc|by destruct esc]. }
  destruct rt'; walk; try (by apply Hgo); apply Hend; (done || apply kept_refl).
Qed.
Lemma post_worker s w ch e : no_limit (pool s) = true → task_channel (pool s) = Some 0%nat → channels s !! 0%nat = Some ch → worker_served s w →
  answers w e = true → calm_answer w e = true → w_pc w ≠ WDelref → post (thread_pool_worker_handler w e) (worker_goal s w ch) s.
Proof.
  intros Hl Ht Hch HW He Hc Hne.
  assert (∀ r hand esc rt, w_pc w = WFailing r hand esc rt → post (thread_pool_worker_handler w e) (worker_goal s w ch) s) as Hfail by (intros; by eapply post_failing).
  assert (closing w = false → ∀ i a, post (refuse_task w i a) (worker_goal s w ch) s) as Hrefuse by (intros; by apply post_refuse).
  assert (w_pc w = WReceive → post (receive_step w) (worker_goal s w ch) s) as Hreceive by (by apply post_receive).
  unfold answers, calm_answer in He, Hc. unfold thread_pool_worker_handler, worker_start, worker_boot, worker_receive, worker_dispatch, worker_internal_task, worker_bind, worker_body, worker_failing, worker_exit, worker_load_notify, worker_load_old, worker_send_token, thread_pool_spawn_task_coroutine in *.
  destruct (w_pc w) as [| |rw c| |i|i|i|i|i|i|r hand esc rt| | | | |m|m|] eqn:Hpc; try done; try (assert (closing w = false) as Hcl by (unfold closing; by rewrite Hpc); specialize (Hrefuse Hcl)).
  all: try (by eapply Hfail).
  all: try (destruct e; done).
  all: try (destruct e as [|r|]; try done; walk; try (by apply Hrefuse); rewrite ?Ht; apply wstep_goto; (done || apply kept_refl || (unfold serving; rewrite Hpc; by left) || (by eapply kept_trans) || idtac)).
  1-3: destruct (bootloader (pool s)); (done || by left).
  - destruct e; [by apply Hreceive|done|]. unfold goto. apply post_ret, wstep_goto; try done; by left.
  - by eapply kept_trans; [|eapply kept_trans].
  - by eapply kept_trans; [|eapply kept_trans].
  - destruct e as [|r|]; [|apply post_bind, post_get_pool; by apply Hrefuse|done]. walk; try (by apply Hrefuse).
    1,2: eexists _, ch; (split; [done|]); apply wstep_kept; try done; try apply HW; by left.
  - by destruct (reload_notify (pool s)).
  - by destruct (reload_notify (pool s)).
  - by destruct (bool_decide _).
  - by destruct (bool_decide _).
  - walk; try (apply wstep_goto; try done; unfold serving; by rewrite Hpc).
    exists w, ch. split; [done|]. apply wstep_kept; try done; try apply HW; rewrite ?Hpc; try done. by left.
Qed.
Lemma wstep_same s w ch s' w' : kept s s' → channels s !! 0%nat = Some ch → worker_served s w → w_pc w' = w_pc w → w_channel w' = w_channel w → wstep s w ch s' w' ch.
Proof.
  intros [] Hch [] Hpc Hw. assert (closing w' = closing w) as Hc by (unfold closing; by rewrite Hpc). assert (serving w' = serving w) as Hs by (unfold serving; by rewrite Hpc).
  constructor; try done; unfold no_limit; try (by rewrite ?k_mode0, ?k_conc0, ?k_channels0); rewrite ?k_closed0, ?k_channels0, ?Hc, ?Hs; auto.
  constructor; rewrite ?Hpc, ?k_closed0; try done. by rewrite Hw.
Qed.
Lemma post_task_end s w ch i e : channels s !! 0%nat = Some ch → worker_served s w → post (pool_task_dispose w i e) (worker_goal s w ch) s.
Proof.
  intros Hch HW. unfold pool_task_dispose. walk. eexists _, ch. split; [done|]. apply wstep_same; try done.
  eapply kept_trans; [done|]. by eapply kept_trans.
Qed.
Lemma post_teardown s w ch i : channels s !! 0%nat = Some ch → worker_served s w → post (pool_snapshot_guard_dispose w i) (worker_goal s w ch) s.
Proof. intros Hch HW. unfold pool_snapshot_guard_dispose. walk. eexists _, ch. split; [done|]. by apply wstep_same. Qed.

(** *** A call *)
Record cstep (s : sys) (pc : caller_pc) (ch : chan_t) (s' : sys) (r : option caller_pc) (ch' : chan_t) : Prop := {
  cst_workers : workers s' = workers s;
  cst_lost : lost s' = lost s;
  cst_only c : is_Some (channels s' !! c) → c = 0%nat ∨ is_Some (channels s !! c);
  cst_callers : callers s' = callers s;
  cst_destroyed : destroyed (pool s') = destroyed (pool s);
  cst_task : task_channel (pool s') = task_channel (pool s);
  cst_limit : no_limit (pool s') = no_limit (pool s);
  cst_chan : channels s' !! 0%nat = Some ch';
  cst_chan_closed : chan_closed ch = true → chan_closed ch' = true;
  cst_queue : queue ch = [] → queue ch' = [] ∨ suspended pc = true ∧ chan_closed ch = false;
  cst_closed : closed (pool s) = true → closed (pool s') = true;
  cst_new_closed : closed (pool s') = true → closed (pool s) = true ∨ from_option closing_call false r = true;
  cst_closing : closing_call pc = true → from_option closing_call false r = true ∨ chan_closed ch' = true;
  cst_call pc' : r = Some pc' → plain_call pc' = true ∧ call_channel pc' ∧ (call_past pc' = true → closed (pool s') = true)
}.
Lemma cstep_served s k pc ch s' r ch' : served s → destroyed (pool s) = false → destroyed (pool s') = false → callers s !! k = Some pc → channels s !! 0%nat = Some ch →
  (suspended pc = true → running s = None) → cstep s pc ch s' r ch' → served (put_call k r s').
Proof.
  intros HS Hd Hd' Hk Hch Hrun []. set (s2 := put_call k r s').
  assert (∀ pc', r = Some pc' → callers s2 !! k = Some pc') as Hk2 by (intros pc' ->; cbn; by rewrite lookup_insert_eq).
  assert (∀ k0 pc0, callers s !! k0 = Some pc0 → k0 ≠ k → callers s2 !! k0 = Some pc0 ∧ suspended pc0 = true) as Hother.
  { intros k0 pc0 Hpc0 Hne. split.
    - unfold s2, put_call. cbn. rewrite cst_callers0. by destruct r; [rewrite lookup_insert_ne|rewrite lookup_delete_ne].
    - destruct (suspended pc0) eqn:E; [done|]. pose proof (cs_runs _ _ _ (sv_call _ HS _ _ Hpc0) E) as H0.
      destruct (suspended pc) eqn:E2; [by rewrite Hrun in H0|]. pose proof (cs_runs _ _ _ (sv_call _ HS _ _ Hk) E2). congruence. }
  assert (∀ k0 pc0, callers s2 !! k0 = Some pc0 → k0 = k ∧ r = Some pc0 ∨ k0 ≠ k ∧ callers s !! k0 = Some pc0) as Hinv.
  { intros k0 pc0. unfold s2, put_call. cbn. rewrite cst_callers0.
    destruct r as [pc2|]; [intros [[<- <-]|[? ?]]%lookup_insert_Some|intros [? ?]%lookup_delete_Some]; auto. }
  assert (∀ k0 pc0, callers s !! k0 = Some pc0 → closing_call pc0 = true → k0 ≠ k → False) as Halone.
  { intros k0 pc0 Hpc0 Hcl Hne. destruct (Hother _ _ Hpc0 Hne) as [_ Hs]. by destruct pc0. }
  assert (∀ ch2, destroyed (pool s2) = false → channels s2 !! 0%nat = Some ch2 → closed (pool s2) = true →
    chan_closed ch2 = true ∨ (∃ k w, workers s2 !! k = Some w ∧ closing w = true) ∨ (∃ k pc, callers s2 !! k = Some pc ∧ closing_call pc = true)) as Hclosed.
  { intros ch2 _ Hch2 Hc. cbn in Hch2. rewrite cst_chan0 in Hch2. injection Hch2 as <-.
    assert (from_option closing_call false r = true → ∃ k pc, callers s2 !! k = Some pc ∧ closing_call pc = true) as Hr.
    { destruct r as [pc'|]; [|done]. intros ?. exists k, pc'. auto. }
    destruct (cst_new_closed0 Hc) as [Hc0|Hcl]; [|right; right; auto].
    destruct (sv_closed _ HS ch Hd Hch Hc0) as [Hcc|[(k0 & w0 & Hw0 & Hcl)|(k0 & pc0 & Hpc0 & Hcl)]]; [left; auto|right; left; exists k0, w0; cbn; by rewrite cst_workers0|].
    destruct (decide (k0 = k)) as [->|Hne]; [|by destruct (Halone k0 pc0)]. rewrite Hk in Hpc0. injection Hpc0 as <-.
    destruct (cst_closing0 Hcl) as [?|?]; [right; right; auto|by left]. }
  constructor.
  - cbn. rewrite cst_lost0. apply HS.
  - cbn. congruence.
  - intros c Hc. destruct (cst_only0 c Hc); [done|by apply (sv_only _ HS)].
  - cbn. rewrite cst_limit0. apply HS.
  - intros _. cbn. rewrite cst_task0. by apply HS.
  - intros k0 w0. cbn. rewrite cst_workers0. intros Hw0. destruct (sv_worker _ HS _ _ Hw0). constructor; [done..|]. cbn. auto.
  - intros k0 pc0 Hpc0. destruct (Hinv _ _ Hpc0) as [[-> Hr]|[Hne Hold]].
    + destruct (cst_call0 _ Hr) as (? & ? & ?). constructor; [done..|]. intros Hs. unfold s2, put_call. rewrite Hr. cbn. by rewrite Hs.
    + destruct (Hother _ _ Hold Hne) as [_ Hs]. destruct (sv_call _ HS _ _ Hold). constructor; [done|done|cbn; auto|congruence].
  - by exists ch'.
  - intros ch2 _ Hch2. cbn in Hch2. rewrite cst_chan0 in Hch2. injection Hch2 as <-.
    destruct (sv_server _ HS ch Hd Hch) as [(k0 & w0 & Hw0 & Hsv)|(Hq & Hor)].
    + left. exists k0, w0. cbn. by rewrite cst_workers0.
    + right. destruct Hor as [Hcc|(k0 & pc0 & Hpc0 & Hcl)].
      * split; [|left; auto]. by destruct (cst_queue0 Hq) as [?|[_ ?]]; [|congruence].
      * destruct (decide (k0 = k)) as [->|Hne]; [|by destruct (Halone k0 pc0)]. rewrite Hk in Hpc0. injection Hpc0 as <-. split.
        -- by destruct (cst_queue0 Hq) as [?|[? _]]; [|destruct pc].
        -- destruct (cst_closing0 Hcl) as [Hr|?]; [right|by left]. destruct r as [pc'|]; [|done]. exists k, pc'. auto.
  - exact Hclosed.
Qed.

Definition caller_goal (s : sys) (pc : caller_pc) (ch : chan_t) (r : option caller_pc) (s' : sys) : Prop := ∃ ch', cstep s pc ch s' r ch'.
Lemma cstep_kept s pc ch s' r : kept s s' → channels s !! 0%nat = Some ch → closing_call pc = false →
  (∀ pc', r = Some pc' → plain_call pc' = true ∧ call_channel pc' ∧ (call_past pc' = true → closed (pool s) = true)) → caller_goal s pc ch r s'.
Proof.
  intros [] Hch Hcl Hr. exists ch. constructor; try done; unfold no_limit; try (by rewrite ?k_mode0, ?k_conc0, ?k_channels0); rewrite ?k_closed0, ?k_channels0; auto. by rewrite Hcl.
Qed.
Lemma kept_results s x : kept s (set_results x s).
Proof. by constructor. Qed.
Lemma kept_states s x : kept s (set_states x s).
Proof. by constructor. Qed.
Lemma post_caller s k e pc ch : task_channel (pool s) = Some 0%nat → channels s !! 0%nat = Some ch → call_served s k pc → pc ≠ CFree →
  post (caller_step k e pc) (caller_goal s pc ch) s.
Proof.
  intros Ht Hch [Hpl Hchn Hpast _] Hne. destruct pc as [kd|kd|i|i c|i| |sh rt| | |target|target fired|n|r|r|r|r|r i repl|r i repl|r i repl|r ab repl|r ab repl|r ab repl|ab repl]; try done; cbn [caller_step].
  - walk; apply cstep_kept; try done; [by intros ? [= <-]].
  - walk; apply cstep_kept; try done; [by intros ? [= <-]].
  - walk. rewrite Ht in *. simplify_eq. apply cstep_kept; try done. by intros ? [= <-].
  - cbn in Hchn. subst c. unfold unsent. walk; simplify_eq.
    + apply cstep_kept; try done. by eapply kept_trans; [|apply kept_results].
    + exists (set_queue (queue ch ++ [i]) ch). constructor; cbn; try done; auto; [by apply only_put|by rewrite lookup_insert_eq|right|by intros ? [= <-]].
      by match goal with H : _ || chan_closed ch = false |- _ => apply orb_false_iff in H as [_ ?] end.
    + apply cstep_kept; try done. by intros ? [= <-].
  - walk. apply cstep_kept; try done. eapply kept_trans; [done|]. by constructor.
  - walk. apply cstep_kept; try done. by intros ? [= <-].
  - apply post_bind. eapply post_mono; [by apply (post_routine s _ rt ch)|]. intros rt' s1 (ch' & []).
    assert (∀ pc' x, (rt' ≠ RoutineDone → pc' = Some (CShut sh rt')) → (rt' = RoutineDone → pc' = match sh with ShutFree => Some CFree | _ => None end) →
      caller_goal s (CShut sh rt) ch pc' (set_results x s1)) as Hgo.
    { intros pc' x H1 H2. assert (rt' = RoutineDone ∨ rt' ≠ RoutineDone) as Hor by (destruct rt'; auto).
      assert (closing_routine rt' = true → from_option closing_call false pc' = true) as Hcl.
      { destruct Hor as [E|E]; [by rewrite E|]. by rewrite (H1 E). }
      exists ch'. constructor; try done; cbn; auto.
      - intros H. destruct (rst_new_closed0 H); auto.
      - unfold closing_call. cbn. intros H. destruct (rst_closing0 H); auto.
      - intros pc2 ->. destruct Hor as [E|E]; [|by injection (H1 E) as ->]. specialize (H2 E). destruct sh; try done. by injection H2 as ->. }
    assert (set_results (results s1) s1 = s1) as Es by (by destruct s1).
    destruct rt'; try (unfold next; apply post_ret; rewrite <- Es; by apply Hgo).
    destruct sh; walk; try (by apply Hgo). rewrite <- Es. by apply Hgo.
Qed.

(** *** The references *)
Record dropped (s s' : sys) : Prop := {
  dr_mode : coroutine_mode (pool s') = coroutine_mode (pool s);
  dr_conc : concurrency (pool s') = concurrency (pool s);
  dr_workers : workers s' = workers s;
  dr_callers : callers s' = callers s;
  dr_running : running s' = running s;
  dr_object : object s' = object s;
  dr_lost : lost s' = lost s;
  dr_chan c : is_Some (channels s !! c) ↔ is_Some (channels s' !! c);
  dr_queue c ch' : channels s' !! c = Some ch' → queue ch' = [] ∨ ∃ ch, channels s !! c = Some ch ∧ queue ch' = queue ch
}.
Lemma dropped_refl s : dropped s s.
Proof. constructor; eauto. Qed.
Lemma dropped_trans s1 s2 s3 : dropped s1 s2 → dropped s2 s3 → dropped s1 s3.
Proof.
  intros [] []. constructor; try congruence; [intros c; by rewrite dr_chan0|]. intros c ch3 H3. destruct (dr_queue1 c ch3 H3) as [?|(ch2 & H2 & ->)]; [by left|auto].
Qed.
Lemma kept_dropped s s' : kept s s' → dropped s s'.
Proof. intros []. constructor; try done; rewrite k_channels0; eauto. Qed.
Lemma dropped_chan s c ch0 ch : channels s !! c = Some ch0 → queue ch = [] ∨ queue ch = queue ch0 → dropped s (set_channels (<[c := ch]> (channels s)) s).
Proof.
  intros Hc Hq. constructor; try done; cbn.
  - intros c'. rewrite lookup_insert_is_Some'. naive_solver.
  - intros c' ch'. intros [[<- <-]|[Hne ?]]%lookup_insert_Some; [|eauto]. destruct Hq; eauto.
Qed.
Lemma dropped_same s s' : channels s' = channels s → coroutine_mode (pool s') = coroutine_mode (pool s) → concurrency (pool s') = concurrency (pool s) →
  workers s' = workers s → callers s' = callers s → running s' = running s → object s' = object s → lost s' = lost s → dropped s s'.
Proof. intros Hc. intros. constructor; rewrite ?Hc; eauto. Qed.
Lemma aside_drain_quietly l : aside (drain_quietly l).
Proof.
  induction l as [|i l IH]; cbn; [intros s; apply post_ret, kept_refl|].
  apply aside_bind; [apply aside_release|]. apply aside_bind; [by apply aside_pool|done].
Qed.
Definition drops_only (m : PM unit) : Prop := ∀ s, post m (λ _ s', dropped s s') s.
Lemma drops_bind m1 (m2 : PM unit) : drops_only m1 → drops_only m2 → drops_only (m1;; m2).
Proof.
  intros H1 H2 s. apply post_bind. eapply post_mono; [apply H1|]. intros [] s1 Hk. eapply post_mono; [apply H2|]. intros [] s2. by apply dropped_trans.
Qed.
Lemma drops_aside m : aside m → drops_only m.
Proof. intros Hm s. eapply post_mono; [apply Hm|]. intros [] s'. apply kept_dropped. Qed.
Lemma drops_pool f : (∀ p, coroutine_mode (f p) = coroutine_mode p ∧ concurrency (f p) = concurrency p) → drops_only (upd_pool f).
Proof. intros Hf s. apply post_upd_pool. destruct (Hf (pool s)). by apply dropped_same. Qed.
Lemma drops_dispose c : drops_only (dispose_chan c).
Proof. intros s. unfold dispose_chan. walk. eapply dropped_chan; [done|by right]. Qed.
Lemma drops_notify m : drops_only (close_notify m).
Proof. intros s. unfold close_notify. walk. by apply dropped_same. Qed.
Lemma drops_dispose_notify m : drops_only (dispose_notify m).
Proof. intros s. unfold dispose_notify. walk. by apply dropped_same. Qed.
Lemma drops_destroy : drops_only thread_pool_destroy.
Proof.
  intros s. unfold thread_pool_destroy. apply post_bind, post_get_pool.
  assert (drops_only (release_orphans;; upd_pool (set_destroyed true))) as Hend.
  { apply drops_bind; [|by apply drops_pool]. intros s1. unfold release_orphans. apply post_bind, post_get_pool.
    apply (drops_bind (match orphan_notify (pool s1) with Some m => _ | None => _ end)); [destruct (orphan_notify _)|destruct (orphan_old _)];
      try (by intros ?; apply post_ret, dropped_refl); repeat apply drops_bind; try apply drops_notify; try apply drops_dispose_notify; try apply drops_dispose; by apply drops_pool. }
  apply drops_bind; [|exact Hend]. destruct (task_channel (pool s)) as [c|]; [|intros s1; apply post_ret, dropped_refl].
  intros s1. apply post_bind, post_get_chan. intros ch Hch. apply post_bind. unfold put_chan. apply post_modify.
  eapply post_mono; [apply (drops_bind (drain_quietly (queue ch)))|]; [apply drops_aside, aside_drain_quietly| |].
  - apply drops_bind; [apply drops_dispose|by apply drops_pool].
  - intros [] s2. apply dropped_trans. eapply dropped_chan; [done|by left].
Qed.
Lemma post_drop s : post thread_pool_delref (λ _ s', dropped s s' ∧ (ref_count (pool s) ≠ 1 → kept s s')) s.
Proof.
  unfold thread_pool_delref. apply post_bind, post_get_pool, post_bind, post_upd_pool, post_when.
  destruct (ref_count (pool s) =? 1) eqn:E; [apply Z.eqb_eq in E|split; [by apply dropped_same|by constructor]].
  eapply post_mono; [apply drops_destroy|]. intros [] s' Hdr. split; [|done]. eapply dropped_trans; [|done]. by apply dropped_same.
Qed.

Lemma served_delete_worker s k w s' : served s → destroyed (pool s) = false → workers s !! k = Some w → w_pc w = WDelref → kept s s' →
  served (set_workers (delete k (workers s')) s').
Proof.
  intros HS Hd Hk Hpc [].
  assert (∀ k0 w0, workers s !! k0 = Some w0 → serving w0 = true → k0 ≠ k) as Hne.
  { intros k0 w0 Hw0 Hs ->. rewrite Hk in Hw0. injection Hw0 as <-. unfold serving in Hs. by rewrite Hpc in Hs. }
  assert (∀ k0 w0, workers s !! k0 = Some w0 → k0 ≠ k → delete k (workers s') !! k0 = Some w0) as Hkeep.
  { intros k0 w0 Hw0 ?. rewrite k_workers0. by rewrite lookup_delete_ne. }
  constructor; cbn.
  - rewrite k_lost0. apply HS.
  - intros ch. congruence.
  - rewrite k_channels0. apply HS.
  - unfold no_limit. rewrite k_mode0, k_conc0. apply HS.
  - intros _. rewrite k_task0. by apply HS.
  - intros k0 w0. rewrite k_workers0. intros [_ Hw0]%lookup_delete_Some. destruct (sv_worker _ HS _ _ Hw0). constructor; [done..|]. cbn. by rewrite k_closed0.
  - intros k0 pc. rewrite k_callers0. intros Hpc0. destruct (sv_call _ HS _ _ Hpc0). constructor; cbn; rewrite ?k_closed0, ?k_running0; done.
  - rewrite k_channels0. apply HS.
  - intros ch _. rewrite k_channels0. intros Hch. destruct (sv_server _ HS ch Hd Hch) as [(k0 & w0 & Hw0 & Hs)|Hq]; [left|right; by rewrite k_callers0].
    exists k0, w0. eauto.
  - intros ch _. rewrite k_channels0, k_closed0. intros Hch Hc. destruct (sv_closed _ HS ch Hd Hch Hc) as [?|[(k0 & w0 & Hw0 & Hcl)|?]]; [by left| |right; right; by rewrite k_callers0].
    right; left. exists k0, w0. split; [|done]. apply Hkeep; [done|]. eapply Hne; [done|]. by apply closing_serving.
Qed.
(** A pool that nobody uses any more is dead. *)
Lemma served_end s s' : served s → dropped s s' → ∀ s2, pool s2 = pool s' → channels s2 = channels s' → lost s2 = lost s' → (∀ ch, channels s !! 0%nat = Some ch → queue ch = []) → Inv true s2 → object s2 = false →
  (∀ k w, workers s2 !! k = Some w → False) → (∀ k pc, callers s2 !! k = Some pc → False) → served s2.
Proof.
  intros HS [] s2 Ep Ec El Hq HI Ho Hw Hc. assert (destroyed (pool s2) = true) as Hd.
  { apply not_false_is_true. intros Hd. pose proof (g_dead _ (i_globals _ _ HI Hd)) as Hdead. rewrite Hdead in Hd; [done|].
    rewrite (b_refs _ _ _ (i_bal _ _ HI)), Ho. unfold sum, nil_weight. rewrite !total_zero; [done|intros k a Ha; by destruct (Hc k a)|intros k a Ha; by destruct (Hw k a)]. }
  constructor; try congruence.
  - rewrite El, dr_lost0. apply HS.
  - intros ch _. rewrite Ec. intros Hch. destruct (dr_queue0 _ _ Hch) as [?|(ch0 & Hch0 & ->)]; eauto.
  - intros c. rewrite Ec, <- dr_chan0. apply HS.
  - unfold no_limit. rewrite Ep, dr_mode0, dr_conc0. apply HS.
  - intros k w H. by destruct (Hw k w).
  - intros k pc H. by destruct (Hc k pc).
  - rewrite Ec. apply dr_chan0, HS.
Qed.
(** Nothing is left when the last reference goes. *)
Lemma served_emptied s op : Inv true s → served s → drops op s = true → destroyed (pool s) = false → emptied_before s.
Proof.
  intros HI HS Hop Hd Hr c ch Hc Hch. rewrite (sv_task _ HS Hd) in Hc. injection Hc as <-.
  assert (∀ k w, workers s !! k = Some w → serving w = true → False) as Hno.
  { intros k w Hw Hs. destruct op as [| k0 e| k0 e| | | |]; try done; cbn in Hop.
    - destruct (callers s !! k0) as [pc|] eqn:Hk0; [|done]. destruct pc; try done. by destruct (proj1 (last_caller true s k0 CFree HI Hk0 eq_refl Hr) k w).
    - destruct (workers s !! k0) as [w0|] eqn:Hk0; [|done]. cbn in Hop. assert (w_pc w0 = WDelref) as Hpc by (by destruct (w_pc w0)).
      destruct (last_worker true s k0 w0 HI Hk0 Hpc Hr) as (Hall & _). pose proof (Hall k w Hw) as ->. rewrite Hk0 in Hw. injection Hw as <-.
      unfold serving in Hs. by rewrite Hpc in Hs. }
  destruct (sv_server _ HS ch Hd Hch) as [(k & w & Hw & Hs)|[Hq _]]; [by destruct (Hno k w)|done].
Qed.

(** *** Every operation but reload *)
Definition no_reload (op : pool_op) : bool := match op with PCall _ Reload => false | _ => true end.
Lemma served_call s k c : served s → running s = None → callers s !! k = None → c ≠ Reload → ∀ b, served (set_object b (put_call k (Some (start_call c)) s)).
Proof.
  intros HS Hrun Hk Hc b. assert (∀ k0 pc, callers s !! k0 = Some pc → suspended pc = true ∧ k0 ≠ k) as Hother.
  { intros k0 pc Hpc. split; [|congruence]. destruct (suspended pc) eqn:E; [done|]. pose proof (cs_runs _ _ _ (sv_call _ HS _ _ Hpc) E). congruence. }
  assert (closing_call (start_call c) = false) as Hcl by (by destruct c).
  constructor; cbn.
  - apply HS.
  - apply HS.
  - apply HS.
  - apply HS.
  - apply HS.
  - intros k0 w Hw. destruct (sv_worker _ HS _ _ Hw). by constructor.
  - intros k0 pc. intros [[<- <-]|[Hne Hpc]]%lookup_insert_Some.
    + constructor; [by destruct c|by destruct c|by destruct c|]. intros Hs. cbn. by rewrite Hs.
    + destruct (Hother _ _ Hpc) as [Hs _]. destruct (sv_call _ HS _ _ Hpc). constructor; [done..|congruence].
  - apply HS.
  - intros ch Hd Hch. destruct (sv_server _ HS ch Hd Hch) as [?|(Hq & [?|(k0 & pc & Hpc & Hcc)])]; [by left|right; auto|].
    destruct (Hother _ _ Hpc). by destruct pc.
  - intros ch Hd Hch Hc0. destruct (sv_closed _ HS ch Hd Hch Hc0) as [?|[?|(k0 & pc & Hpc & Hcc)]]; [by left|right; by left|].
    destruct (Hother _ _ Hpc). by destruct pc.
Qed.
Lemma served_cancel s i st : served s → served (set_states (<[i := st]> (states s)) s).
Proof.
  intros []. constructor; try done.
  - intros k w Hw. destruct (sv_worker0 k w Hw). by constructor.
  - intros k pc Hpc. destruct (sv_call0 k pc Hpc). by constructor.
Qed.
Lemma served_exit s : served s → callers s = ∅ → served (owner_exit s).
Proof.
  intros [] Hc.
  assert (∀ c ch', channels (owner_exit s) !! c = Some ch' → chan_closed ch' = true ∧ ∃ ch, channels s !! c = Some ch ∧ queue ch' = queue ch) as Hch.
  { intros c ch'. cbn. rewrite lookup_fmap. intros (ch & ? & ->)%fmap_Some. eauto. }
  constructor; try done.
  - intros ch' Hd (_ & ch & ? & ->)%Hch. eauto.
  - intros c. cbn. rewrite lookup_fmap, fmap_is_Some. auto.
  - intros k w Hw. destruct (sv_worker0 k w Hw). by constructor.
  - intros k pc. cbn. by rewrite Hc, lookup_empty.
  - cbn. rewrite lookup_fmap. by apply fmap_is_Some.
  - intros ch' Hd (Hcl & ch & Hch0 & ->)%Hch. destruct (sv_server0 ch Hd Hch0) as [?|[? _]]; [by left|right; auto].
  - intros ch' Hd (Hcl & _)%Hch _. by left.
Qed.
Lemma inv_destroyed_worker calm s k w : Inv calm s → workers s !! k = Some w → destroyed (pool s) = false.
Proof. intros HI Hk. by destruct (worker_alive calm s k w (i_bal _ _ HI) Hk). Qed.
Lemma inv_destroyed_caller calm s k pc : Inv calm s → callers s !! k = Some pc → destroyed (pool s) = false.
Proof. intros HI Hk. by destruct (caller_alive calm s k pc (i_bal _ _ HI) Hk (i_callers _ _ HI _ _ Hk)). Qed.

Lemma served_worker_op s k w (m : PM (option worker_t)) s' : Inv true s' → served s → destroyed (pool s) = false → workers s !! k = Some w →
  (∀ ch, channels s !! 0%nat = Some ch → post m (worker_goal s w ch) s) → (w' ← m; put_worker k w') s = Some (tt, s') → served s'.
Proof.
  intros HI HS Hd Hk Hm Hrun. destruct (sv_chan _ HS) as [ch Hch].
  assert (post (w' ← m; put_worker k w') (λ _ s', Inv true s' → served s') s) as Hpost; [|by apply (Hpost tt)].
  apply post_bind. eapply post_mono; [by apply Hm|]. intros w' s1 (w2 & ch' & -> & Hst). unfold put_worker. apply post_modify. intros HI'.
  eapply (wstep_served s k w ch s1 w2 ch'); try done. apply (inv_destroyed_worker true _ k w2) in HI'; [done|]. cbn. by rewrite lookup_insert_eq.
Qed.
Lemma run_op_served s op s' : Inv true s → served s → enabled op s = true → sound op s → calm_op op s = true → no_reload op = true →
  run_op op s = Some (tt, s') → Inv true s' ∧ served s'.
Proof.
  intros HI HS He Hso Hc Hr Hrun.
  assert (Inv true s') as HI'.
  { assert (wp (run_op op) (λ _ s', Inv true s') s) as Hwp; [|unfold wp in Hwp; by rewrite Hrun in Hwp].
    apply pool_op_inv; [done..|]. intros _ Hop. eapply served_emptied; try done.
    destruct op as [| k e| k e| | | |]; try done; cbn in Hop.
    - destruct (callers s !! k) as [pc|] eqn:Hk; [|done]. by eapply inv_destroyed_caller.
    - destruct (workers s !! k) as [w|] eqn:Hk; [|done]. by eapply inv_destroyed_worker. }
  split; [done|]. destruct op as [k c|k e|k e|k i e|k i|i|].
  - cbn in He. rewrite !andb_true_iff, !bool_decide_eq_true in He. destruct He as (((Hn & Ho) & Hk) & _).
    assert (s' = set_object (match c with Free => false | _ => object s end) (put_call k (Some (start_call c)) s)) as ->.
    { destruct c; injection Hrun as <-; (reflexivity || by destruct s). }
    apply served_call; try done. by intros ->.
  - assert (∃ pc, callers s !! k = Some pc) as [pc Hk] by (cbn in He; destruct (callers s !! k); by eauto).
    assert (suspended pc = true → running s = None) as Hsus.
    { cbn in He. rewrite Hk in He. intros E. rewrite E, andb_true_iff, bool_decide_eq_true in He. by destruct He. }
    pose proof (inv_destroyed_caller _ _ _ _ HI Hk) as Hd. destruct (sv_chan _ HS) as [ch Hch].
    assert (∃ r s1, caller_step k e pc s = Some (r, s1) ∧ s' = put_call k r s1) as (r & s1 & Hst & ->).
    { cbn [run_op] in Hrun. unfold mbind, M_bind, get, of_option in Hrun. rewrite Hk in Hrun. cbn in Hrun.
      destruct (caller_step k e pc s) as [[r s1]|]; [|done]. injection Hrun as <-. eauto. }
    assert (pc = CFree ∨ pc ≠ CFree) as [->|Hne] by (destruct pc; auto).
    + assert (post (caller_step k e CFree) (λ r s1, r = None ∧ dropped s s1 ∧ (ref_count (pool s) ≠ 1 → kept s s1)) s) as Hpost.
      { cbn [caller_step]. apply post_bind. eapply post_mono; [apply post_drop|]. intros [] s2 [Hdr Hk2]. unfold finish. walk.
        split; [done|]. split; [eapply dropped_trans; [done|]; by apply dropped_same|]. intros Hn. eapply kept_trans; [by apply Hk2|apply kept_results]. }
      destruct (Hpost _ _ Hst) as (-> & Hdr & Hkept). destruct (decide (ref_count (pool s) = 1)) as [E|E].
      * assert (∀ ch, channels s !! 0%nat = Some ch → queue ch = []) as Hq.
        { intros ch0. eapply (served_emptied s (PCaller k e)); try done; [cbn; by rewrite Hk|by apply HS]. }
        assert (object s1 = false) as Ho1 by (rewrite (dr_object _ _ Hdr); apply (i_free _ _ HI _ _ Hk eq_refl)).
        apply (served_end s s1); try done.
        -- intros k0 w. cbn. rewrite (dr_workers _ _ Hdr). apply (last_caller true s k CFree HI Hk eq_refl E).
        -- intros k0 pc0. cbn. rewrite (dr_callers _ _ Hdr). intros [Hne Hk0]%lookup_delete_Some. destruct Hne. symmetry.
           apply (proj2 (i_free _ _ HI _ _ Hk eq_refl)). by eexists.
      * pose proof (Hkept E) as Hkp. destruct (cstep_kept s CFree ch s1 None Hkp Hch eq_refl) as [ch' Hcs]; [done|].
        eapply (cstep_served s k CFree ch s1 None); try done. by rewrite (k_destroyed _ _ Hkp).
    + destruct (post_caller s k e pc ch (sv_task _ HS Hd) Hch (sv_call _ HS _ _ Hk) Hne _ _ Hst) as [ch' Hcs].
      eapply (cstep_served s k pc ch s1 r); try done. by rewrite (cst_destroyed _ _ _ _ _ _ Hcs).
  - cbn in He. destruct (workers s !! k) as [w|] eqn:Hk; [|done]. pose proof (inv_destroyed_worker _ _ _ _ HI Hk) as Hd.
    assert ((w' ← thread_pool_worker_handler w e; put_worker k w') s = Some (tt, s')) as Hstep.
    { cbn [run_op] in Hrun. unfold mbind at 1 2, M_bind at 1 2, get, of_option in Hrun. rewrite Hk in Hrun. exact Hrun. }
    assert (w_pc w = WDelref ∨ w_pc w ≠ WDelref) as [Hpc|Hne] by (destruct (w_pc w); auto).
    + assert (post (w' ← thread_pool_worker_handler w e; put_worker k w') (λ _ s', ∃ s1, s' = set_workers (delete k (workers s1)) s1 ∧
        dropped s s1 ∧ (ref_count (pool s) ≠ 1 → kept s s1)) s) as Hpost.
      { apply post_bind. unfold_handler. rewrite Hpc. apply post_bind. eapply post_mono; [apply post_drop|]. intros [] s1 [Hdr Hkp].
        apply post_ret. unfold put_worker. apply post_modify. eauto. }
      destruct (Hpost _ _ Hstep) as (s1 & -> & Hdr & Hkept). destruct (decide (ref_count (pool s) = 1)) as [E|E].
      * destruct (last_worker true s k w HI Hk Hpc E) as (Hall & Hnc & _). apply (served_end s s1); try done; cbn.
        -- intros ch0. eapply (served_emptied s (PWorker k e)); try done; [cbn; rewrite Hk; cbn; by rewrite Hpc|by apply HS].
        -- rewrite (dr_object _ _ Hdr). pose proof (b_refs _ _ _ (i_bal _ _ HI)) as Hb. pose proof (worker_le_sum s k w GRefs Hk ltac:(done)) as Hle.
           cbn in Hle. unfold nil_weight in Hb. destruct (object s); [cbn in Hb; lia|done].
        -- intros k0 w0. rewrite (dr_workers _ _ Hdr). intros [Hne Hk0]%lookup_delete_Some. destruct Hne. symmetry. by eapply Hall.
        -- intros k0 pc0. rewrite (dr_callers _ _ Hdr). apply Hnc.
      * eapply (served_delete_worker s k w s1); try done. auto.
    + eapply (served_worker_op s k w); try done. intros ch Hch. apply post_worker; try done; [apply HS|by apply HS|by eapply sv_worker|].
      unfold calm_op in Hc. by rewrite Hk in Hc.
  - cbn in He. destruct (workers s !! k) as [w|] eqn:Hk; [|done]. pose proof (inv_destroyed_worker _ _ _ _ HI Hk) as Hd.
    eapply (served_worker_op s k w (pool_task_dispose w i e)); try done; [intros ch Hch; apply post_task_end; [done|by eapply sv_worker]|].
    cbn [run_op] in Hrun. unfold mbind at 1 2, M_bind at 1 2, get, of_option in Hrun. rewrite Hk in Hrun. exact Hrun.
  - cbn in He. destruct (workers s !! k) as [w|] eqn:Hk; [|done]. pose proof (inv_destroyed_worker _ _ _ _ HI Hk) as Hd.
    eapply (served_worker_op s k w (pool_snapshot_guard_dispose w i)); try done; [intros ch Hch; apply post_teardown; [done|by eapply sv_worker]|].
    cbn [run_op] in Hrun. unfold mbind at 1 2, M_bind at 1 2, get, of_option in Hrun. rewrite Hk in Hrun. exact Hrun.
  - cbn in Hrun. unfold mbind, M_bind, get, of_option in Hrun. destruct (states s !! i) as [st|]; [|done]. injection Hrun as <-. by apply served_cancel.
  - cbn in He. rewrite !andb_true_iff, !bool_decide_eq_true, negb_true_iff in He. destruct He as ((_ & Hcs) & Hown).
    assert (wp (run_op POwnerExit) (λ _ s1, s1 = owner_exit s) s) as Hwp by (by eapply (wp_close_owned true); [apply HI|..]).
    unfold wp in Hwp. rewrite Hrun in Hwp. subst s'. by apply served_exit.
Qed.
