(* ===== verification/ThreadPoolTheorems.v ===== *)
(** * The thread pool: what holds on every interleaving *)

From stdpp Require Import fin_maps tactics.
From S2P Require Import Prelude ThreadPool ThreadPoolProofs ThreadPoolSteps ThreadPoolCalls ThreadPoolReload ThreadPoolInvariant ThreadPoolServing.

Local Open Scope Z_scope.
#[local] Arguments sum : simpl never.
#[local] Arguments queued : simpl never.
#[local] Arguments owned : simpl never.
#[local] Arguments is_task : simpl never.
#[local] Arguments Z.of_nat : simpl never.

(** The operations of all threads in the order in which they happen; [None] when one of
    them is not enabled, not [allowed], or goes wrong. *)
Fixpoint play (allowed : pool_op → sys → bool) (ops : list pool_op) (s : sys) : option sys :=
  match ops with
  | [] => Some s
  | op :: ops => if enabled op s && allowed op s then '(_, s') ← run_op op s; play allowed ops s' else None
  end.
(** Everything, but that the owner's thread ends while a worker refers to a channel that
    the pool has let go of: its registry has the last reference to that channel. *)
Definition anything (op : pool_op) (s : sys) : bool := negb (strands op s).
Definition everything (op : pool_op) (s : sys) : bool := true.
(** No reload, no handler that bails out, no task dropped without a reason. *)
Definition calm (op : pool_op) (s : sys) : bool := calm_op op s && no_reload op && anything op s.

(** A step that overruns the array of workers goes wrong. *)
Lemma overruns_undefined op s : overruns op s = true → run_op op s = None.
Proof.
  intros Hov. destruct op as [|k e| | | | |]; try done. cbn in Hov. destruct (callers s !! k) as [pc|] eqn:Hk; [|done].
  destruct pc; try done. cbn in Hov. apply andb_true_iff in Hov as [Hok Hin%negb_true_iff].
  assert (post (run_op (PCaller k e)) (λ _ _, False) s) as Hp.
  { cbn [run_op]. apply post_bind, post_get, post_bind, post_option. intros ?. rewrite Hk. intros [= <-].
    apply post_bind. cbn [caller_step reload_step]. apply post_bind, post_get_pool, post_bind, post_option. intros c _.
    apply post_bind. unfold thread_pool_start_worker. rewrite Hok. apply post_bind, post_modify, post_bind, post_get_pool, post_bind, post_assert.
    cbn. by rewrite Hin. }
  destruct (run_op (PCaller k e) s) as [[[] s']|] eqn:E; [|done]. by destruct (Hp _ _ E).
Qed.
Lemma ran_sound op s r : run_op op s = Some r → anything op s = true → sound op s.
Proof.
  intros Hr Ha%negb_true_iff. split; [|done]. apply not_true_is_false. intros Hov%overruns_undefined. congruence.
Qed.

Lemma lookup_fresh_workers n k : fresh_workers n !! k = if bool_decide (k < n)%nat then Some (mk_worker 0 WInit 0 [] []) else None.
Proof.
  unfold fresh_workers. case_bool_decide as Hk.
  - apply elem_of_list_to_map_1.
    + rewrite <- list_fmap_compose. cbn. rewrite list_fmap_id. apply NoDup_seq.
    + apply list_elem_of_fmap. exists k. split; [done|]. apply elem_of_seq. lia.
  - apply not_elem_of_list_to_map_1. rewrite <- list_fmap_compose. cbn. rewrite list_fmap_id, elem_of_seq. lia.
Qed.
Lemma total_fresh f n : total f (fresh_workers n) = Z.of_nat n * f (mk_worker 0 WInit 0 [] []).
Proof.
  assert (∀ a, total f (list_to_map ((λ k : nat, (k, mk_worker 0 WInit 0 [] [])) <$> seq a n)) = Z.of_nat n * f (mk_worker 0 WInit 0 [] [])) as H; [|apply H].
  induction n as [|n IH]; intros a; cbn [seq fmap list_fmap list_to_map foldr]; [by rewrite total_empty|]. cbn. rewrite total_new.
  - rewrite IH. lia.
  - apply not_elem_of_list_to_map_1. rewrite <- list_fmap_compose. cbn. rewrite list_fmap_id, elem_of_seq. lia.
Qed.
Lemma create_inv b n q boot mode conc : Inv b (async_thread_pool_create n q boot mode conc).
Proof.
  set (s := async_thread_pool_create _ _ _ _ _).
  assert (∀ g, sum s g = Z.of_nat n * match g with GRefs | GLive => 1 | _ => 0 end) as Hsum.
  { intros g. unfold sum. cbn. rewrite total_empty, total_fresh. destruct g; cbn; lia. }
  assert (∀ i, queued s i = 0) as Hq by (intros i; apply total_zero; by intros c ch; cbn; intros [<- <-]%lookup_singleton_Some).
  constructor.
  - constructor; intros; rewrite ?Hsum, ?Hq; unfold nil_weight; cbn; rewrite ?lookup_empty, ?Z.mul_0_r; try done; try lia; try (cbn in *; by rewrite lookup_empty in *).
    unfold owned. cbn. destruct (decide (c = 0%nat)) as [->|Hne].
    + rewrite lookup_singleton_eq. cbn. rewrite (bool_decide_eq_true_2 (Some 0%nat = _)), (bool_decide_eq_false_2 (None = _)) by done. cbn. lia.
    + rewrite lookup_singleton_ne by done. rewrite !bool_decide_eq_false_2 by congruence. cbn. lia.
  - intros k w. cbn. rewrite lookup_fresh_workers. case_bool_decide; [|done]. intros [= <-]. constructor; try done; [intros _; split; [by eexists|by left]|]. by intros i ?%not_elem_of_nil.
  - intros k pc. cbn. by rewrite lookup_empty.
  - intros _. constructor; try done. cbn. lia.
  - intros k pc. cbn. by rewrite lookup_empty.
Qed.
Lemma pool_play_inv allowed ops s s' : (∀ op s, allowed op s = true → anything op s = true) → Inv false s → play allowed ops s = Some s' → Inv false s'.
Proof.
  intros Hall. revert s. induction ops as [|op ops IH]; cbn; intros s HI Hp; [by simplify_eq|].
  destruct (enabled op s && allowed op s) eqn:He; [|done]. apply andb_true_iff in He as [He Ha].
  destruct (run_op op s) as [[[] s1]|] eqn:Hrun; [|done]. pose proof (ran_sound _ _ _ Hrun (Hall op s Ha)) as Hso.
  pose proof (pool_op_inv false s op HI He Hso ltac:(done) ltac:(done)) as Hwp. unfold wp in Hwp. rewrite Hrun in Hwp. by apply (IH s1).
Qed.

(** ** Every interleaving *)
Section runs.
Context (n : nat) (queue_size : Z) (boot mode : bool) (conc : Z).
Abbreviation created := (async_thread_pool_create n queue_size boot mode conc).

Lemma actors_gone calm s : Inv calm s → destroyed (pool s) = true → object s = false ∧ workers s = ∅ ∧ callers s = ∅.
Proof.
  intros HI Hd. pose proof (i_bal _ _ HI) as HB. pose proof (b_destroyed _ _ _ HB Hd) as Hr. pose proof (b_refs _ _ _ HB) as Hrc.
  pose proof (sum_nonneg s GRefs ltac:(done)) as Hn. unfold nil_weight in Hrc. rewrite Hr in Hrc. split_and!.
  - destruct (object s); [cbn in Hrc; lia|done].
  - apply map_empty. intros k. destruct (workers s !! k) as [w|] eqn:Hk; [|done]. destruct (worker_alive calm s k w HB Hk) as [? ?]. congruence.
  - apply map_empty. intros k. destruct (callers s !! k) as [pc|] eqn:Hk; [|done].
    destruct (caller_alive calm s k pc HB Hk (i_callers _ _ HI _ _ Hk)) as [? ?]. congruence.
Qed.
Lemma gone_actors calm s : Inv calm s → object s = false → workers s = ∅ → callers s = ∅ → destroyed (pool s) = true.
Proof.
  intros HI Ho Hw Hc. apply not_false_is_true. intros Hd. pose proof (g_dead _ (i_globals _ _ HI Hd)) as Hdead.
  rewrite Hdead in Hd; [done|]. rewrite (b_refs _ _ _ (i_bal _ _ HI)), Ho. unfold sum, nil_weight. by rewrite Hw, Hc, !total_empty.
Qed.

(** C10 Memory safety of the pool, whatever the interleaving of its threads and of the
    calls, reloads and the end of the owner's thread among them (which must not leave a
    worker at a channel that the pool has let go of: [anything]): the next step is defined
    if and only if it does not start a worker whose index is past the end of the array
    [workers], which a reload does after an aborted one ([overruns]).  Nobody else reads the
    pool after it was destroyed, uses a channel of tasks or of tokens after its last
    reference went, or the state of a task or its snapshot after it was released; and the
    pool is destroyed exactly when the object, every worker and every call are gone. *)
Theorem pool_steps_defined ops op s : play anything ops created = Some s → enabled op s = true → anything op s = true →
  (is_Some (run_op op s) ↔ overruns op s = false) ∧ (destroyed (pool s) = true ↔ object s = false ∧ workers s = ∅ ∧ callers s = ∅).
Proof.
  intros Hp He Ha. pose proof (pool_play_inv anything _ _ _ (λ _ _ H, H) (create_inv false n queue_size boot mode conc) Hp) as HI. split; [split|].
  - intros [r Hr]. by apply (ran_sound op s r).
  - intros Hov. pose proof (pool_op_inv false s op HI He (conj Hov (proj1 (negb_true_iff _) Ha)) ltac:(done) ltac:(done)) as Hwp.
    unfold wp in Hwp. by destruct (run_op op s) as [[[] s']|].
  - split; [by eapply actors_gone|]. intros (? & ? & ?). by eapply gone_actors.
Qed.

(** Where the reference of a task is: in a channel, with a worker or a call, or with a C
    handler that bailed out. *)
Definition task_holders (s : sys) (i : nat) : Z := queued s i + sum s (GHeld i) + occ i (lost s).

(** C11 The books of the pool, on every interleaving: the reference of a task is in
    exactly one place until it is released, so no task runs twice and none is leaked; the
    references of the pool are those of the object, of the workers and of the calls that
    start a worker or free the pool; live_workers counts the workers that have not left
    the count; pending_count and running_count are, as 32-bit integers, the queued tasks
    less the sends that are not counted yet, and the tasks at work. *)
Theorem pool_books ops s : play anything ops created = Some s →
  (∀ i st, states s !! i = Some st → task_holders s i = Z.b2z (task_ref st)) ∧
  ref_count (pool s) = Z.b2z (object s) + sum s GRefs ∧ live_workers (pool s) = sum s GLive ∧
  pending_count (pool s) = i32 (total (λ ch, Z.of_nat (length (queue ch))) (channels s) + sum s GPending) ∧
  running_count (pool s) = i32 (sum s GRunning + Z.of_nat (length (lost s))).
Proof.
  intros Hp. pose proof (pool_play_inv anything _ _ _ (λ _ _ H, H) (create_inv false n queue_size boot mode conc) Hp) as HI. pose proof (i_bal _ _ HI) as [].
  unfold nil_weight in *. split_and!.
  - intros i st Hst. specialize (b_held i). rewrite Hst in b_held. unfold task_holders. lia.
  - lia.
  - lia.
  - rewrite b_pending. f_equal. lia.
  - rewrite b_running. f_equal. lia.
Qed.


End runs.

(** ** Concrete runs *)
Section samples.
Definition e0 : call_env := mk_env true 0 0.
Definition name (i : nat) : call_env := mk_env true i i.
Definition submit (k i : nat) : list pool_op :=
  PCall k (Submit TASK_KIND_CLOSURE) :: ((λ e, PCaller k e) <$> [e0; name i; e0; e0; e0]).
Definition steps (w : nat) (m : nat) : list pool_op := replicate m (PWorker w EOk).
Definition call (k m : nat) (c : call_t) : list pool_op := PCall k c :: replicate m (PCaller k e0).
Definition one : sys := async_thread_pool_create 1 4 false false 0.
Definition limited : sys := async_thread_pool_create 1 4 false true 1.

(** Task 5 was submitted; the worker of the pool has not started. *)
Definition queued_one : sys := default one (play calm (submit 10 5) one).
Lemma queued_one_anything : play anything (submit 10 5) one = Some queued_one.
Proof. vm_compute. reflexivity. Qed.

Lemma pool_steps_defined_witness : enabled (PWorker 0 EOk) queued_one = true ∧ is_Some (run_op (PWorker 0 EOk) queued_one).
Proof.
  split; [vm_compute; reflexivity|].
  apply (pool_steps_defined 1 4 false false 0 (submit 10 5) (PWorker 0 EOk) queued_one queued_one_anything); vm_compute; reflexivity.
Defined.
Lemma pool_books_witness : live_workers (pool queued_one) = 1 ∧ live_workers (pool queued_one) = sum queued_one GLive.
Proof. split; [vm_compute; reflexivity|]. by apply (pool_books 1 4 false false 0 (submit 10 5) queued_one queued_one_anything). Defined.

(** The worker is at the limit with task 5 when the pool is closed, and leaves as soon as
    it is told so: task 6, which was accepted, is never answered. *)
Definition limit_run : list pool_op :=
  submit 10 5 ++ submit 10 6 ++ steps 0 5 ++ call 10 4 Close ++ steps 0 2 ++ [PTask 0 5 EOk; PTeardown 0 5] ++ steps 0 4 ++ call 10 2 Free.
Definition outcome (i : nat) (s : sys) : bool * option (bool * option answer_t) :=
  (destroyed (pool s), (λ st, (returned st, answer st)) <$> states s !! i).

(** A worker at its concurrency limit leaves the loop when the channel is closed,
    without taking what is still queued: an accepted task is dropped unanswered when the
    pool is destroyed. *)
Theorem limit_strands_task : (outcome 6 <$> play anything limit_run limited) = Some (true, Some (true, None)).
Proof. vm_compute. reflexivity. Qed.

(** submit counts a task once it is sent: a worker that is faster takes it off the
    count before, and pending_count is negative. *)
Theorem pending_count_negative : (pending_count ∘ pool <$> play anything (take 5 (submit 10 5) ++ steps 0 3) one) = Some (-1).
Proof. vm_compute. reflexivity. Qed.

(** A C handler bails out. *)
Definition bail_run : list pool_op :=
  PCall 10 (Submit TASK_KIND_INTERNAL) :: ((λ e, PCaller 10 e) <$> [e0; name 5; e0; e0; e0]) ++
  steps 0 4 ++ [PWorker 0 EBail] ++ steps 0 9 ++ call 10 2 Free.
(** A bailout inside of a C handler skips the code that answers its task: the worker
    closes the pool and rejects what is queued, but the future of the task that failed is
    never settled. *)
Theorem bailed_handler_unanswered : (outcome 5 <$> play anything bail_run one) = Some (true, Some (true, None)).
Proof. vm_compute. reflexivity. Qed.

(** The worker is at task 5 when the pool is reloaded; the call that reloads is cancelled
    while it waits for the worker. *)
Definition reload (k i : nat) : list pool_op :=
  PCall k Reload :: ((λ e, PCaller k e) <$> replicate 2 e0 ++ [name i] ++ replicate 5 e0 ++ [name i]).
Definition abort_reload (k : nat) : list pool_op := (λ e, PCaller k e) <$> mk_env false 0 0 :: replicate 4 e0.
Definition busy_run : list pool_op := submit 10 5 ++ steps 0 5 ++ reload 10 1 ++ abort_reload 10.

(** After an aborted reload the old worker still counts in live_workers: the next reload
    runs to an index that the array workers, made for one worker, does not have, and writes
    past its end. *)
Definition overrun_run : list pool_op := busy_run ++ reload 10 2 ++ steps 1 9 ++ [PCaller 10 e0; PCaller 10 e0].
Theorem reload_overruns_workers :
  ((λ s, (enabled (PCaller 10 (name 3)) s, run_op (PCaller 10 (name 3)) s)) <$> play anything overrun_run one) = Some (true, None).
Proof. vm_compute. reflexivity. Qed.

(** The next reload drops the pool's reference to the channel of an aborted one although a
    worker is still going to receive from it: when the owner's thread ends, the registry
    drops the last one, and the worker uses the channel after it was freed. *)
Definition straggler_run : list pool_op := busy_run ++ reload 10 2 ++ abort_reload 10 ++ [POwnerExit] ++ steps 0 2.
Theorem exit_strands_worker :
  ((λ s, (enabled (PWorker 0 EOk) s, run_op (PWorker 0 EOk) s)) <$> play everything straggler_run one) = Some (true, None).
Proof. vm_compute. reflexivity. Qed.

(** Worker 1 has left the count of live workers, but not yet looked for a rotation, when the
    pool is reloaded: the reload waits for one token and gets it from worker 1.  It is over
    while worker 0 is still at work on the old channel. *)
Definition race_run : list pool_op :=
  submit 10 5 ++ steps 0 5 ++ steps 1 1 ++ [PWorker 1 (EFail None)] ++ steps 1 3 ++ reload 10 2 ++ steps 1 3 ++ replicate 5 (PCaller 10 e0).
Theorem reload_misses_old_worker :
  ((λ s, (results s, rotations_completed (pool s), (λ w, (w_pc w, w_channel w)) <$> workers s !! 0%nat)) <$>
    play anything race_run (async_thread_pool_create 2 4 false false 0)) =
  Some ([(10%nat, RetFuture 5); (10%nat, RetDone)], 1, Some (WBody 5, 0%nat)).
Proof. vm_compute. reflexivity. Qed.
End samples.
